(* ===== verification/_CoqProject ===== *)
-Q . S2P
Prelude.v
Bytes.v
Algo.v
Keys.v
Store.v
Proto.v
PostingPb.v
Md5.v
Task.v
PostingList.v
PostingIter.v
Tokens.v
Raftwal.v
ListMap.v
Lists.v
Strconv.v
Civil.v
Types.v
Geo.v
Group.v
Lex.v
LexText.v
GqlLex.v
GqlParse.v
GqlFilter.v
GqlSafe.v
GqlExpand.v
Rdf.v
RdfSafe.v
RdfPrint.v
Backup.v
Schema.v
SchemaSafe.v
SchemaResolve.v
SchemaPrint.v
Index.v
Mutation.v
Process.v
Sort.v
Query.v
QueryAnswer.v
Output.v
Predicate.v
Groups.v
TaskPb.v
Draft.v
Assign.v
Request.v
