(* ===== verification/Prelude.v ===== *)
(** Shared vocabulary of the development (header completed at the end). *)
From stdpp Require Export base numbers list gmap sorting strings.
From Stdlib Require Export ZArith Lia.
From Stdlib Require Import Init.Byte.

(** ** Outcomes of Go code

    [Ok a] is a normal return, [Err e] a returned [error] value (its format
    string), and [Crash m] the end of the process: a failed [x.AssertTrue],
    [x.Check], [log.Fatalf] or a Go run-time panic. *)
Inductive res (A : Type) : Type :=
| Ok (a : A)
| Err (e : string)
| Crash (m : string).

Arguments Ok {A} a.
Arguments Err {A} e.
Arguments Crash {A} m.

#[export] Instance res_ret : MRet res := λ A a, Ok a.
#[export] Instance res_bind : MBind res := λ A B f m,
  match m with
  | Ok a => f a
  | Err e => Err e
  | Crash m => Crash m
  end.

#[export] Instance res_fmap : FMap res := λ A B f m,
  match m with
  | Ok a => Ok (f a)
  | Err e => Err e
  | Crash m => Crash m
  end.

(** [x.AssertTrue] / [x.AssertTruef]: the process dies when the test fails. *)
Definition assert_true (b : bool) (m : string) : res unit :=
  if b then Ok tt else Crash m.

(** Reading [s[i]]: Go panics when [i] is out of range. *)
Definition index {A} (l : list A) (i : nat) : res A :=
  match l !! i with
  | Some a => Ok a
  | None => Crash "index out of range"
  end.

(** Slicing [s[a:b]] within the slice's length: Go panics unless
    [0 <= a <= b <= cap]; every slice expression modelled here has [b] at most
    the length. *)
Definition slice {A} (l : list A) (a b : Z) : res (list A) :=
  if ((0 <=? a) && (a <=? b) && (b <=? Z.of_nat (length l)))%Z
  then Ok (take (Z.to_nat b - Z.to_nat a) (drop (Z.to_nat a) l))
  else Crash "slice bounds out of range".

Lemma slice_ok {A} (s : list A) (a b : Z) :
  (0 ≤ a ≤ b)%Z → (b ≤ Z.of_nat (length s))%Z →
  slice s a b = Ok (take (Z.to_nat b - Z.to_nat a) (drop (Z.to_nat a) s)).
Proof. intros Ha Hb. unfold slice. by rewrite !(proj2 (Z.leb_le _ _)) by lia. Qed.

Lemma take_move {A} (s : list A) (a b : Z) :
  (0 ≤ a ≤ b)%Z → (b ≤ Z.of_nat (length s))%Z →
  take (Z.to_nat b) s = take (Z.to_nat a) s ++ take (Z.to_nat b - Z.to_nat a) (drop (Z.to_nat a) s).
Proof. intros Ha Hb. rewrite take_take_drop. f_equal. lia. Qed.

(** [copy(dst[off:], src)]: overwrites as many elements as both sides have. *)
Definition go_copy {A} (dst : list A) (off : nat) (src : list A) : list A :=
  take off dst ++ take (length dst - off) src ++ drop (off + length src) dst.

(** [x.Check]: an error ends the process. *)
Definition x_Check {A} (m : res A) : res A := match m with Err e => Crash e | r => r end.

Lemma x_Check_Ok {A} (m : res A) a : x_Check m = Ok a → m = Ok a.
Proof. by destruct m. Qed.

(** ** Loops

    [for_loop] is Go's [for { ... }] whose body either goes round again or
    leaves the loop. The bound stands for the absence of one in the code; the
    outcome [out_of_fuel] is shown unreachable wherever the loop is used. *)
Definition out_of_fuel : string := "loop bound exceeded".

Inductive flow (X R : Type) : Type :=
| Continue (x : X)
| Return (r : R).

Arguments Continue {X R} x.
Arguments Return {X R} r.

Fixpoint for_loop {X R} (fuel : nat) (body : X → res (flow X R)) (x : X) : res R :=
  match fuel with
  | O => Crash out_of_fuel
  | S fuel =>
      o ← body x;
      match o with
      | Continue x => for_loop fuel body x
      | Return r => Ok r
      end
  end.

(** [wp m Q]: [m] returns normally, with a result in [Q]. *)
Definition wp {A} (m : res A) (Q : A → Prop) : Prop :=
  match m with Ok a => Q a | _ => False end.

Lemma wp_Ok {A} (a : A) (Q : A → Prop) : Q a → wp (Ok a) Q.
Proof. done. Qed.

Lemma wp_bind {A B} (m : res A) (f : A → res B) (Q : B → Prop) :
  wp m (λ a, wp (f a) Q) → wp (m ≫= f) Q.
Proof. by destruct m. Qed.

(** [injection] would normalise the values. *)
Lemma Ok_inj {A} (a b : A) : Ok a = Ok b → a = b.
Proof. congruence. Qed.

Lemma bind_Ok {A B} (m : res A) (f : A → res B) r :
  (x ← m; f x) = Ok r → ∃ a, m = Ok a ∧ f a = Ok r.
Proof. destruct m; simpl; [eauto|done..]. Qed.

Lemma fmap_Ok {A B} (f : A → B) (m : res A) r : f <$> m = Ok r → ∃ a, m = Ok a ∧ r = f a.
Proof. destruct m as [a| |]; [|done..]. intros Hr. exists a. split; [done|]. apply Ok_inj in Hr. done. Qed.

Lemma wp_mono {A} (m : res A) (Q Q' : A → Prop) : (∀ a, Q a → Q' a) → wp m Q → wp m Q'.
Proof. destruct m; simpl; auto. Qed.

Lemma wp_inv {A} (m : res A) (Q : A → Prop) : wp m Q → ∃ a, m = Ok a ∧ Q a.
Proof. destruct m; simpl; [eauto|done..]. Qed.

(** [out E m Q]: [m] returns a result in [Q], or an error, or dies for a reason
    in [E]. *)
Definition out {A} (E : string → Prop) (m : res A) (Q : A → Prop) : Prop :=
  match m with Ok a => Q a | Err _ => True | Crash m => E m end.

Lemma out_bind {A B} E (m : res A) (f : A → res B) (Q : B → Prop) :
  out E m (λ a, out E (f a) Q) → out E (m ≫= f) Q.
Proof. by destruct m. Qed.

Lemma out_mono {A} E (m : res A) (Q Q' : A → Prop) : (∀ a, Q a → Q' a) → out E m Q → out E m Q'.
Proof. destruct m; simpl; auto. Qed.

Lemma out_impl {A} (E E' : string → Prop) (m : res A) (Q : A → Prop) :
  (∀ s, E s → E' s) → out E m Q → out E' m Q.
Proof. destruct m; simpl; auto. Qed.

(** A loop whose body keeps [P] and decreases a measure. *)
(** More fuel does not change a result. *)
Lemma for_loop_mono {X R} n m (body : X → res (flow X R)) x r :
  for_loop n body x = Ok r → n ≤ m → for_loop m body x = Ok r.
Proof.
  revert m x. induction n as [|n IH]; intros [|m] x Hr Hm; try done; [lia|]. cbn [for_loop] in *.
  apply bind_Ok in Hr as ([x'|r'] & -> & Hr); simpl; [apply IH; [done|lia]|done].
Qed.

Lemma wp_for_loop {X R} (P : X → Prop) (μ : X → nat) fuel (body : X → res (flow X R)) x Q :
  (∀ x, P x → wp (body x) (λ o,
    match o with Continue x' => P x' ∧ μ x' < μ x | Return r => Q r end)) →
  P x → μ x < fuel → wp (for_loop fuel body x) Q.
Proof.
  intros Hbody. revert x. induction fuel as [|fuel IH]; intros x Hx Hf; [lia|].
  cbn [for_loop]. apply wp_bind. eapply wp_mono; [|by apply Hbody].
  intros [x'|r]; simpl; [|done]. intros [Hx' Hμ]. apply IH; [done|lia].
Qed.

(** Discharges a decidable closed statement by evaluating its decision
    procedure. *)
Ltac by_decide := refine (bool_decide_unpack _ _); vm_compute; exact I.

(** ** Machine integers *)
Definition MaxUint64 : Z := 18446744073709551615.
Definition two64 : Z := 18446744073709551616.
Definition u64 (z : Z) : Z := z mod two64.
Definition u32 (z : Z) : Z := z mod 4294967296.

Lemma u64_small z : (0 ≤ z < two64)%Z → u64 z = z.
Proof. apply Z.mod_small. Qed.
Lemma u32_small z : (0 ≤ z < 4294967296)%Z → u32 z = z.
Proof. apply Z.mod_small. Qed.

Definition is_u64 (z : Z) : Prop := (0 ≤ z ≤ MaxUint64)%Z.

(** Two's complement reading of the low 32 bits (a Go [int32] conversion). *)
Definition i32 (z : Z) : Z :=
  let w := u32 z in if (w <? 2147483648)%Z then w else (w - 4294967296)%Z.

(** ** [sort.Search]

    The library's loop, verbatim: [i, j := 0, n; for i < j { h := i + (j-i)/2;
    if !f(h) { i = h + 1 } else { j = h } }; return i]. The interval halves, so
    [n] iterations are more than enough. *)
Fixpoint search_loop (fuel : nat) (f : nat → bool) (i j : nat) : nat :=
  match fuel with
  | O => i
  | S fuel =>
      if (i <? j)%nat then
        let h := (i + (j - i) / 2)%nat in
        if negb (f h) then search_loop fuel f (S h) j else search_loop fuel f i h
      else i
  end.

Definition sort_Search (n : nat) (f : nat → bool) : nat := search_loop n f 0 n.

Lemma search_loop_spec fuel f i j :
  (∀ a b, a ≤ b → f a = true → f b = true) →
  i ≤ j → j - i ≤ fuel →
  i ≤ search_loop fuel f i j ≤ j ∧
  (∀ k, i ≤ k < search_loop fuel f i j → f k = false) ∧
  (search_loop fuel f i j < j → f (search_loop fuel f i j) = true).
Proof.
  intros Hmono. revert i j.
  induction fuel as [|fuel IH]; intros i j Hij Hfuel; cbn [search_loop]; [repeat split; intros; lia|].
  destruct (Nat.ltb_spec i j) as [Hlt|Hge]; [|repeat split; intros; lia].
  pose proof (Nat.div_lt (j - i) 2 ltac:(lia) ltac:(lia)).
  assert (i ≤ i + (j - i) / 2 < j) as Hbnd by lia.
  remember (i + (j - i) / 2) as h eqn:Eh. clear Eh.
  destruct (f h) eqn:Hh; cbn [negb].
  - destruct (IH i h) as ([??] & Hlo & Hhi); [lia..|].
    repeat split; [lia|lia|exact Hlo|]. intros _.
    destruct (decide (search_loop fuel f i h = h)) as [->|]; [done|]. apply Hhi; lia.
  - destruct (IH (S h) j) as ([??] & Hlo & Hhi); [lia..|].
    repeat split; [lia|lia| |exact Hhi]. intros k Hk.
    destruct (decide (k ≤ h)); [|apply Hlo; lia].
    destruct (f k) eqn:Hfk; [|done].
    by rewrite (Hmono k h) in Hh.
Qed.

Lemma elem_of_snoc {A} (l : list A) x y : x ∈ l ++ [y] ↔ x ∈ l ∨ x = y.
Proof. by rewrite elem_of_app, list_elem_of_singleton. Qed.

(** Strictly sorted integer lists are determined by their elements. *)
Lemma ssorted_lt_NoDup (l : list Z) : StronglySorted Z.lt l → NoDup l.
Proof.
  induction 1 as [|x l _ IH HF]; constructor; [|done].
  intros Hx. rewrite Forall_forall in HF. specialize (HF x Hx). lia.
Qed.

Lemma ssorted_lt_ext (l1 l2 : list Z) :
  StronglySorted Z.lt l1 → StronglySorted Z.lt l2 → (∀ x, x ∈ l1 ↔ x ∈ l2) → l1 = l2.
Proof.
  intros H1 H2 Hx. apply (StronglySorted_unique_strong Z.lt); [|done|done|].
  - intros x y _ _. lia.
  - by apply NoDup_Permutation; auto using ssorted_lt_NoDup.
Qed.

Lemma ssorted_lt_le (l : list Z) : StronglySorted Z.lt l → StronglySorted Z.le l.
Proof.
  induction 1 as [|x l _ IH HF]; constructor; [done|].
  eapply Forall_impl; [done|]. simpl. lia.
Qed.

Lemma ssorted_le_lt (l : list Z) : StronglySorted Z.le l → NoDup l → StronglySorted Z.lt l.
Proof.
  induction 1 as [|x l _ IH HF]; [constructor|]. intros [Hx Hnd]%NoDup_cons.
  constructor; [auto|]. rewrite Forall_forall in HF |- *. intros y Hy.
  specialize (HF y Hy). assert (x ≠ y) by congruence. lia.
Qed.

Lemma ssorted_filter {A} (P : A → Prop) `{∀ x, Decision (P x)} (R : relation A) l :
  StronglySorted R l → StronglySorted R (filter P l).
Proof.
  induction 1 as [|x l _ IH HF]; [constructor|]. rewrite filter_cons.
  case_decide; [|done]. constructor; [done|].
  rewrite Forall_forall in HF |- *. intros y [_ Hy]%list_elem_of_filter. by apply HF.
Qed.

(** A strictly sorted list is determined by its elements. *)
Lemma ssorted_ext {A} (R : relation A) `{!StrictOrder R} (l1 l2 : list A) :
  StronglySorted R l1 → StronglySorted R l2 → (∀ x, x ∈ l1 ↔ x ∈ l2) → l1 = l2.
Proof.
  assert (∀ l, StronglySorted R l → NoDup l) as Hnd.
  { induction 1 as [|x l _ IH HF]; constructor; [|done]. intros Hx.
    rewrite Forall_forall in HF. by destruct (irreflexivity R x (HF x Hx)). }
  intros H1 H2 He. apply (StronglySorted_unique_strong R); [|done|done|].
  - intros x y _ _ Hxy Hyx. destruct (irreflexivity R x). by transitivity y.
  - by apply NoDup_Permutation; auto.
Qed.

Lemma ssorted_fmap {A B} (f : A → B) (R : relation B) l :
  StronglySorted R (f <$> l) ↔ StronglySorted (λ a b, R (f a) (f b)) l.
Proof.
  induction l as [|a l IH]; [split; constructor|]. rewrite fmap_cons, !StronglySorted_cons, IH.
  by rewrite Forall_fmap.
Qed.

Lemma ssorted_impl {A} (R R' : relation A) l :
  (∀ a b, R a b → R' a b) → StronglySorted R l → StronglySorted R' l.
Proof.
  intros HR. induction 1 as [|x l _ IH HF]; constructor; [done|].
  eapply Forall_impl; [done|]. auto.
Qed.

Lemma filter_all {A} (P : A → Prop) `{∀ x, Decision (P x)} l : Forall P l → filter P l = l.
Proof. induction 1 as [|x l Hx _ IH]; [done|]. rewrite filter_cons_True by done. by f_equal. Qed.

Lemma NoDup_fmap_filter {A B : Type} (f : A → B) (P : A → Prop) `{∀ x, Decision (P x)} l : NoDup (f <$> l) → NoDup (f <$> filter P l).
Proof.
  induction l as [|x l IH]; [done|]. rewrite fmap_cons, filter_cons. intros [Hx Hl]%NoDup_cons.
  case_decide; [|by apply IH]. rewrite fmap_cons. constructor; [|by apply IH].
  intros (y & Heq & [_ Hy]%list_elem_of_filter)%list_elem_of_fmap. apply Hx. rewrite Heq. by apply list_elem_of_fmap_2.
Qed.

Lemma filter_none {A} (P : A → Prop) `{∀ x, Decision (P x)} l :
  Forall (λ x, ¬ P x) l → filter P l = [].
Proof. induction 1 as [|x l Hx _ IH]; [done|]. by rewrite filter_cons_False. Qed.

(** ** Searching a slice

    [sort.Search(len(s), func(i) bool { return t(s[i]) })]. *)
Section search.
Context {A : Type} (t : A → bool).

Definition psearch (l : list A) : nat :=
  sort_Search (length l) (λ i, match l !! i with Some a => t a | None => true end).

(** If the test is upward closed along the slice, the search splits it at the
    first element that passes. *)
Lemma psearch_spec l :
  (∀ i j a b, i < j → l !! i = Some a → l !! j = Some b → t a = true → t b = true) →
  psearch l ≤ length l ∧
  Forall (λ a, t a = false) (take (psearch l) l) ∧
  Forall (λ a, t a = true) (drop (psearch l) l).
Proof.
  intros Ht. unfold psearch, sort_Search.
  set (f := λ i, match l !! i with Some a => t a | None => true end).
  assert (∀ a b, a ≤ b → f a = true → f b = true) as Hmono.
  { unfold f. intros i j Hij. destruct (l !! i) as [a|] eqn:Hi.
    - destruct (l !! j) as [b|] eqn:Hj; [|done]. intros Ha.
      destruct (decide (i = j)) as [->|]; [congruence|].
      by apply (Ht i j a b); [lia|..].
    - apply lookup_ge_None in Hi. by rewrite (lookup_ge_None_2 l j) by lia. }
  destruct (search_loop_spec (length l) f 0 (length l) Hmono) as ([_ Hle] & Hlo & Hhi); [lia..|].
  set (r := search_loop (length l) f 0 (length l)) in *.
  split_and!; [done| |].
  - apply Forall_lookup. intros i a Hi.
    apply lookup_take_Some in Hi as [Hi ?].
    pose proof (Hlo i ltac:(lia)) as Hf. unfold f in Hf. by rewrite Hi in Hf.
  - apply Forall_lookup. intros i a Hi. rewrite lookup_drop in Hi.
    pose proof (lookup_lt_Some _ _ _ Hi).
    pose proof (Hmono r (r + i) ltac:(lia) (Hhi ltac:(lia))) as Hf.
    unfold f in Hf. by rewrite Hi in Hf.
Qed.
End search.

(** ** Lists sorted by an integer key

    Posting lists, UID lists and the mutation layer are all slices searched by
    an integer key; these lemmas are shared by their components. *)
Section keyed.
Context {A : Type} (key : A → Z).
Implicit Types l : list A.

Definition ksorted l : Prop := StronglySorted Z.lt (key <$> l).

(** First index whose key satisfies the (upward closed) test [t]. *)
Definition ksearch (t : Z → bool) l : nat := psearch (λ a, t (key a)) l.

Lemma ksorted_app l1 l2 :
  ksorted (l1 ++ l2) ↔
  ksorted l1 ∧ ksorted l2 ∧ ∀ a b, a ∈ l1 → b ∈ l2 → (key a < key b)%Z.
Proof.
  unfold ksorted. rewrite fmap_app, StronglySorted_app. split.
  - intros (H & ? & ?). split_and!; [done..|]. intros a b Ha Hb.
    apply H; by apply list_elem_of_fmap_2.
  - intros (? & ? & H). split_and!; [|done..].
    intros x y (a & -> & Ha)%list_elem_of_fmap (b & -> & Hb)%list_elem_of_fmap. auto.
Qed.

Lemma ksorted_cons a l :
  ksorted (a :: l) ↔ ksorted l ∧ ∀ b, b ∈ l → (key a < key b)%Z.
Proof.
  rewrite (ksorted_app [a] l). split.
  - intros (? & ? & H). split; [done|]. intros b Hb. by apply H; [left|].
  - intros (? & H). split_and!; [|done|].
    + repeat constructor.
    + intros x y ->%list_elem_of_singleton Hy. auto.
Qed.

Lemma ksorted_lookup_lt l i j a b :
  ksorted l → l !! i = Some a → l !! j = Some b → i < j → (key a < key b)%Z.
Proof.
  intros Hs Hi Hj Hij. rewrite <-(take_drop (S i) l) in Hs.
  apply ksorted_app in Hs as (_ & _ & H). apply H.
  - apply list_elem_of_lookup. exists i. rewrite lookup_take_lt by lia. done.
  - apply list_elem_of_lookup. exists (j - S i). rewrite lookup_drop.
    by replace (S i + (j - S i)) with j by lia.
Qed.

Lemma ksorted_inj l a b : ksorted l → a ∈ l → b ∈ l → key a = key b → a = b.
Proof.
  intros Hs (i & Hi)%list_elem_of_lookup (j & Hj)%list_elem_of_lookup Hk.
  destruct (lt_eq_lt_dec i j) as [[Hij| ->]|Hij]; [|congruence|].
  - pose proof (ksorted_lookup_lt l i j a b Hs Hi Hj Hij). lia.
  - pose proof (ksorted_lookup_lt l j i b a Hs Hj Hi Hij). lia.
Qed.

(** A sorted slice is determined by its elements. *)
Lemma ksorted_ext l1 l2 : ksorted l1 → ksorted l2 → (∀ a, a ∈ l1 ↔ a ∈ l2) → l1 = l2.
Proof.
  assert (∀ l, ksorted l → StronglySorted (λ a b, (key a < key b)%Z) l ∧ NoDup l) as Hss.
  { induction l as [|a l IH]; [repeat constructor|].
    intros [[Hs Hnd]%IH Ha]%ksorted_cons. split.
    - constructor; [done|]. by apply Forall_forall.
    - constructor; [|done]. intros Hin. specialize (Ha a Hin). lia. }
  intros [Hs1 Hn1]%Hss [Hs2 Hn2]%Hss He.
  apply (StronglySorted_unique_strong (λ a b, (key a < key b)%Z)); [|done|done|].
  - intros a b _ _ ? ?. lia.
  - by apply NoDup_Permutation.
Qed.

Lemma ksorted_filter (P : A → Prop) `{∀ x, Decision (P x)} l : ksorted l → ksorted (filter P l).
Proof.
  induction l as [|a l IH]; [done|]. intros [Hs Ha]%ksorted_cons. rewrite filter_cons.
  case_decide; [|by apply IH]. apply ksorted_cons. split; [by apply IH|].
  intros b [_ Hb]%list_elem_of_filter. auto.
Qed.

Lemma ksorted_drop l i : ksorted l → ksorted (drop i l).
Proof. intros Hs. rewrite <-(take_drop i l) in Hs. apply ksorted_app in Hs. tauto. Qed.

(** The search splits a sorted slice at the first key passing the test. *)
Lemma ksearch_spec (t : Z → bool) l :
  (∀ x y, (x ≤ y)%Z → t x = true → t y = true) →
  ksorted l →
  ksearch t l ≤ length l ∧
  Forall (λ a, t (key a) = false) (take (ksearch t l) l) ∧
  Forall (λ a, t (key a) = true) (drop (ksearch t l) l).
Proof.
  intros Ht Hs. apply (psearch_spec (λ a, t (key a))).
  intros i j a b Hij Hi Hj. apply Ht.
  pose proof (ksorted_lookup_lt l i j a b Hs Hi Hj Hij). lia.
Qed.
End keyed.

(** ** Go's idioms on slices *)

(** [s = append(s, nil); copy(s[i+1:], s[i:]); s[i] = x] inserts at [i]. *)
Lemma copy_insert {A} (l : list A) (e x : A) i :
  i < length l →
  <[i := x]> (go_copy (l ++ [e]) (S i) (drop i (l ++ [e]))) = take i l ++ x :: drop i l.
Proof.
  intros Hi. unfold go_copy. rewrite !drop_app_le, take_app_le by lia.
  rewrite !length_app, length_drop. cbn [length].
  rewrite (drop_ge (l ++ [e])) by (rewrite length_app; simpl; lia). rewrite app_nil_r.
  rewrite (take_app_le (drop i l)), (take_ge (drop i l)) by (rewrite length_drop; lia).
  destruct (lookup_lt_is_Some_2 l i Hi) as [y Hy]. rewrite (take_S_r l i y) by done.
  rewrite <-(assoc_L (++)), insert_app_r_alt by (rewrite length_take; lia).
  rewrite length_take, Nat.min_l, Nat.sub_diag by lia. done.
Qed.

(** [copy(s[i:], s[i+1:]); s = s[:len(s)-1]] deletes at [i]. *)
Lemma copy_delete {A} (l : list A) i :
  i < length l →
  take (length l - 1) (go_copy l i (drop (S i) l)) = take i l ++ drop (S i) l.
Proof.
  intros Hi. unfold go_copy. rewrite length_drop.
  rewrite (take_ge (drop (S i) l)) by (rewrite length_drop; lia).
  rewrite (assoc_L (++)), take_app_length'; [done|].
  rewrite length_app, length_take, length_drop. lia.
Qed.

(** ** Counting the bindings of a map *)
Section count.
Context {K A : Type} `{Countable K} (P : A → Prop) `{∀ x, Decision (P x)}.
Implicit Types m : gmap K A.

Definition cnt m : nat := size (filter (λ kv, P kv.2) m).

Lemma cnt_empty : cnt ∅ = 0.
Proof. unfold cnt. by rewrite map_filter_empty, map_size_empty. Qed.

Lemma cnt_insert m k x :
  m !! k = None → cnt (<[k := x]> m) = (if decide (P x) then 1 else 0) + cnt m.
Proof.
  intros Hk. unfold cnt. case_decide as Hx.
  - rewrite map_filter_insert_True by done. rewrite map_size_insert_None; [done|].
    apply map_lookup_filter_None. by left.
  - rewrite map_filter_insert_False by done. by rewrite delete_id.
Qed.

Lemma cnt_delete m k x :
  m !! k = Some x → cnt m = (if decide (P x) then 1 else 0) + cnt (delete k m).
Proof. intros Hk. rewrite <-(insert_delete_id m k x) at 1 by done. by rewrite cnt_insert by apply lookup_delete_eq. Qed.

Lemma cnt_update m k y :
  cnt (<[k := y]> m) = (if decide (P y) then 1 else 0) + cnt (delete k m).
Proof. rewrite <-insert_delete_eq. by rewrite cnt_insert by apply lookup_delete_eq. Qed.

Lemma cnt_le m : cnt m ≤ size m.
Proof.
  unfold cnt. rewrite <-!length_map_to_list.
  apply submseteq_length, NoDup_submseteq; [apply NoDup_map_to_list|].
  intros [k x]. rewrite !elem_of_map_to_list. by intros [? _]%map_lookup_filter_Some.
Qed.

Lemma cnt_zero m : cnt m = 0 ↔ ∀ k x, m !! k = Some x → ¬ P x.
Proof.
  unfold cnt. rewrite map_size_empty_iff. split.
  - intros He k x Hk Hx. assert (filter (λ kv, P kv.2) m !! k = Some x) as Hf
      by (by apply map_lookup_filter_Some). by rewrite He, lookup_empty in Hf.
  - intros Hall. apply map_empty. intros k. apply map_lookup_filter_None.
    destruct (m !! k) as [x|] eqn:Hk; [right|by left]. intros y [= <-]. by apply (Hall k).
Qed.

Lemma cnt_list m : cnt m = length (filter P (map_to_list m).*2).
Proof.
  induction m as [|k x m Hk IH] using map_ind.
  - by rewrite cnt_empty, map_to_list_empty.
  - rewrite cnt_insert, IH by done. rewrite map_to_list_insert by done. rewrite fmap_cons, filter_cons.
    simpl. by case_decide.
Qed.
End count.
