(* ===== verification/Bytes.v ===== *)
(** Go byte slices, strings and the encodings of [encoding/binary],
    [unicode/utf8], [bytes] and [strings] that the sources use.

    A Go [string] and a [[]byte] are both a [list byte]; where the sources
    distinguish a nil slice from an empty one the component says so. *)
From S2P Require Import Prelude.
From Stdlib Require Export Init.Byte.
From Stdlib Require Import Strings.Byte.
From stdpp Require Import options.
#[local] Open Scope Z_scope.

#[export] Instance byte_eq_dec : EqDecision byte := Byte.byte_eq_dec.

Definition byte_to_Z (b : byte) : Z := Z.of_N (Byte.to_N b).

(** The conversion [byte(z)]: the low eight bits. *)
Definition byte_of_Z (z : Z) : byte :=
  match Byte.of_N (Z.to_N (z mod 256)) with Some b => b | None => x00 end.

#[export] Instance byte_countable : Countable byte :=
  inj_countable Byte.to_N Byte.of_N Byte.of_to_N.

(** A string literal as its bytes. *)
Definition bs (s : string) : list byte := String.list_byte_of_string s.

Lemma byte_to_Z_range b : 0 ≤ byte_to_Z b < 256.
Proof. unfold byte_to_Z. pose proof (Byte.to_N_bounded b). lia. Qed.

Lemma byte_of_to_Z b : byte_of_Z (byte_to_Z b) = b.
Proof.
  unfold byte_of_Z. pose proof (byte_to_Z_range b).
  rewrite Z.mod_small by lia. unfold byte_to_Z. by rewrite N2Z.id, Byte.of_to_N.
Qed.

Lemma byte_to_of_Z z : byte_to_Z (byte_of_Z z) = z mod 256.
Proof.
  unfold byte_of_Z. pose proof (Z.mod_pos_bound z 256 ltac:(lia)).
  destruct (Byte.of_N (Z.to_N (z mod 256))) as [b|] eqn:Hb.
  - apply Byte.to_of_N in Hb. unfold byte_to_Z. rewrite Hb. lia.
  - apply Byte.of_N_None_iff in Hb. lia.
Qed.

#[export] Instance byte_to_Z_inj : Inj (=) (=) byte_to_Z.
Proof. intros a b H. by rewrite <-(byte_of_to_Z a), <-(byte_of_to_Z b), H. Qed.

(** ** [encoding/binary]: fixed-width integers

    [PutUintN] stores [byte(v >> 8k)] for each position [k]. *)
Fixpoint be_put (n : nat) (v : Z) : list byte :=
  match n with
  | O => []
  | S n => byte_of_Z (Z.shiftr v (8 * Z.of_nat n)) :: be_put n v
  end.

Fixpoint le_put (n : nat) (v : Z) : list byte :=
  match n with
  | O => []
  | S n => byte_of_Z v :: le_put n (Z.shiftr v 8)
  end.

Definition be_get (l : list byte) : Z :=
  fold_left (λ acc b, acc * 256 + byte_to_Z b) l 0.

Fixpoint le_get (l : list byte) : Z :=
  match l with
  | [] => 0
  | b :: l => byte_to_Z b + 256 * le_get l
  end.

Definition PutUint64_BE (v : Z) : list byte := be_put 8 v.
Definition PutUint32_BE (v : Z) : list byte := be_put 4 v.

(** [binary.BigEndian.Uint64(b)] indexes [b[7]]: it panics on a short slice. *)
Definition Uint64_BE (b : list byte) : res Z :=
  if (length b <? 8)%nat then Crash "index out of range" else Ok (be_get (take 8 b)).

Lemma length_be_put n v : length (be_put n v) = n.
Proof. induction n; simpl; congruence. Qed.

Lemma length_le_put n v : length (le_put n v) = n.
Proof. revert v. induction n; intros; simpl; congruence. Qed.

Lemma be_get_acc l acc :
  fold_left (λ acc b, acc * 256 + byte_to_Z b) l acc = acc * 256 ^ Z.of_nat (length l) + be_get l.
Proof.
  unfold be_get. revert acc. induction l as [|b l IH]; intros acc; [simpl; lia|].
  cbn [fold_left length]. rewrite IH, (IH (0 * 256 + byte_to_Z b)).
  rewrite Nat2Z.inj_succ, Z.pow_succ_r by lia. lia.
Qed.

Lemma be_get_cons b l : be_get (b :: l) = byte_to_Z b * 256 ^ Z.of_nat (length l) + be_get l.
Proof. unfold be_get at 1. cbn [fold_left]. rewrite be_get_acc. lia. Qed.

Lemma be_get_range l : 0 ≤ be_get l < 256 ^ Z.of_nat (length l).
Proof.
  induction l as [|b l IH]; [done|]. rewrite be_get_cons. simpl length.
  rewrite Nat2Z.inj_succ, Z.pow_succ_r by lia. pose proof (byte_to_Z_range b). nia.
Qed.

Lemma shiftr8 v n : 0 ≤ n → Z.shiftr v (8 * n) = v / 256 ^ n.
Proof.
  intros Hn. rewrite Z.shiftr_div_pow2 by lia.
  change 256 with (2 ^ 8). by rewrite <-Z.pow_mul_r by lia.
Qed.

Lemma be_get_put n v : be_get (be_put n v) = v mod 256 ^ Z.of_nat n.
Proof.
  induction n as [|n IH]; [by rewrite Z.mod_1_r|]. cbn [be_put].
  rewrite be_get_cons, length_be_put, IH, byte_to_of_Z, shiftr8 by lia.
  rewrite Nat2Z.inj_succ, Z.pow_succ_r by lia.
  pose proof (Z.pow_pos_nonneg 256 (Z.of_nat n) ltac:(lia) ltac:(lia)).
  rewrite (Z.mul_comm 256), Z.rem_mul_r by lia. lia.
Qed.

Lemma le_get_put n v : le_get (le_put n v) = v mod 256 ^ Z.of_nat n.
Proof.
  revert v. induction n as [|n IH]; intros v; [by rewrite Z.mod_1_r|]. cbn [le_put le_get].
  rewrite IH, byte_to_of_Z. change 8 with (8 * 1). rewrite shiftr8 by lia.
  rewrite Nat2Z.inj_succ, Z.pow_succ_r, Z.pow_1_r by lia.
  pose proof (Z.pow_pos_nonneg 256 (Z.of_nat n) ltac:(lia) ltac:(lia)).
  rewrite Z.rem_mul_r by lia. lia.
Qed.

Lemma Uint64_PutUint64 v rest :
  is_u64 v → Uint64_BE (PutUint64_BE v ++ rest) = Ok v.
Proof.
  intros Hv. unfold Uint64_BE, PutUint64_BE.
  rewrite length_app, length_be_put.
  replace (8 + length rest <? 8)%nat with false by (symmetry; apply Nat.ltb_ge; lia).
  rewrite take_app_length' by (by rewrite length_be_put). f_equal.
  rewrite be_get_put. apply Z.mod_small. unfold is_u64, MaxUint64 in Hv. simpl. lia.
Qed.

Lemma be_put_inj n v w :
  0 ≤ v < 256 ^ Z.of_nat n → 0 ≤ w < 256 ^ Z.of_nat n → be_put n v = be_put n w → v = w.
Proof.
  intros Hv Hw H. apply (f_equal be_get) in H. rewrite !be_get_put in H.
  by rewrite !Z.mod_small in H by lia.
Qed.

(** ** Lexicographic order of byte strings ([bytes.Compare], RocksDB's default
    comparator, Go's string [<]) *)
Fixpoint bytes_compare (a b : list byte) : comparison :=
  match a, b with
  | [], [] => Eq
  | [], _ => Lt
  | _, [] => Gt
  | x :: a, y :: b =>
      match Z.compare (byte_to_Z x) (byte_to_Z y) with
      | Eq => bytes_compare a b
      | c => c
      end
  end.

Definition bytes_lt (a b : list byte) : Prop := bytes_compare a b = Lt.
Definition bytes_le (a b : list byte) : Prop := bytes_compare a b ≠ Gt.
#[export] Instance bytes_lt_dec a b : Decision (bytes_lt a b) := decide (bytes_compare a b = Lt).
#[export] Instance bytes_le_dec a b : Decision (bytes_le a b) := decide (bytes_compare a b ≠ Gt).

Lemma bytes_compare_refl a : bytes_compare a a = Eq.
Proof. induction a as [|x a IH]; simpl; [done|]. by rewrite Z.compare_refl. Qed.

Lemma bytes_compare_eq a b : bytes_compare a b = Eq ↔ a = b.
Proof.
  split; [|intros ->; apply bytes_compare_refl].
  revert b. induction a as [|x a IH]; intros [|y b]; simpl; try done.
  destruct (Z.compare_spec (byte_to_Z x) (byte_to_Z y)) as [H| |]; try done.
  apply (inj byte_to_Z) in H as ->. intros ->%IH. done.
Qed.

Lemma bytes_compare_antisym a b : bytes_compare b a = CompOpp (bytes_compare a b).
Proof.
  revert b. induction a as [|x a IH]; intros [|y b]; simpl; try done.
  rewrite (Z.compare_antisym (byte_to_Z x) (byte_to_Z y)).
  destruct (Z.compare (byte_to_Z x) (byte_to_Z y)); simpl; auto.
Qed.

Lemma bytes_lt_trans a b c : bytes_lt a b → bytes_lt b c → bytes_lt a c.
Proof.
  unfold bytes_lt. revert b c. induction a as [|x a IH]; intros [|y b] [|z c]; simpl; try done.
  destruct (Z.compare_spec (byte_to_Z x) (byte_to_Z y)) as [Hxy|Hxy|Hxy]; try done;
  destruct (Z.compare_spec (byte_to_Z y) (byte_to_Z z)) as [Hyz|Hyz|Hyz]; try done.
  - rewrite Hxy, Hyz, Z.compare_refl. apply IH.
  - intros _ _. assert (byte_to_Z x < byte_to_Z z) as ->%Z.compare_lt_iff by lia. done.
  - intros _ _. assert (byte_to_Z x < byte_to_Z z) as ->%Z.compare_lt_iff by lia. done.
  - intros _ _. assert (byte_to_Z x < byte_to_Z z) as ->%Z.compare_lt_iff by lia. done.
Qed.

#[export] Instance bytes_lt_strict : StrictOrder bytes_lt.
Proof.
  split; [|exact bytes_lt_trans].
  intros a. unfold complement, bytes_lt. by rewrite bytes_compare_refl.
Qed.

Lemma bytes_lt_trichotomy a b : bytes_lt a b ∨ a = b ∨ bytes_lt b a.
Proof.
  unfold bytes_lt. rewrite (bytes_compare_antisym a b).
  destruct (bytes_compare a b) eqn:H; simpl; auto. apply bytes_compare_eq in H. auto.
Qed.

Lemma bytes_le_lteq a b : bytes_le a b ↔ bytes_lt a b ∨ a = b.
Proof.
  unfold bytes_le, bytes_lt. rewrite <-bytes_compare_eq.
  destruct (bytes_compare a b); intuition congruence.
Qed.

Lemma bytes_compare_app p a b : bytes_compare (p ++ a) (p ++ b) = bytes_compare a b.
Proof. induction p as [|x p IH]; simpl; [done|]. by rewrite Z.compare_refl. Qed.

Lemma bytes_compare_app_ne a b a' b' :
  length a = length b → a ≠ b → bytes_compare (a ++ a') (b ++ b') = bytes_compare a b.
Proof.
  revert b. induction a as [|x a IH]; intros [|y b] Hl Hne; simpl in *; try done.
  destruct (Z.compare_spec (byte_to_Z x) (byte_to_Z y)) as [H| |]; try done.
  apply (inj byte_to_Z) in H as ->. apply IH; [lia|]. congruence.
Qed.

(** Big-endian encoding preserves the order of unsigned integers. *)
Lemma be_compare_get a b :
  length a = length b → bytes_compare a b = Z.compare (be_get a) (be_get b).
Proof.
  revert b. induction a as [|x a IH]; intros [|y b] Hl; simpl in Hl; try done.
  rewrite !be_get_cons. simpl bytes_compare. rewrite IH by lia.
  replace (length b) with (length a) by lia.
  pose proof (be_get_range a) as Ha. pose proof (be_get_range b) as Hb.
  replace (length b) with (length a) in Hb by lia.
  destruct (Z.compare_spec (byte_to_Z x) (byte_to_Z y)) as [->|Hlt|Hgt].
  - by rewrite Z.add_compare_mono_l.
  - symmetry. apply Z.compare_lt_iff. nia.
  - symmetry. apply Z.compare_gt_iff. nia.
Qed.

Lemma be_put_compare n v w :
  0 ≤ v < 256 ^ Z.of_nat n → 0 ≤ w < 256 ^ Z.of_nat n →
  bytes_compare (be_put n v) (be_put n w) = Z.compare v w.
Proof.
  intros Hv Hw. rewrite be_compare_get by (by rewrite !length_be_put).
  by rewrite !be_get_put, !Z.mod_small by lia.
Qed.

(** ** [unicode/utf8] *)
Definition RuneError : Z := 0xFFFD.

(** A continuation byte in the range [lo, hi]. *)
Definition cont_in (lo hi : Z) (b : byte) : bool :=
  (lo <=? byte_to_Z b) && (byte_to_Z b <=? hi).

Definition cbits (b : byte) : Z := Z.land (byte_to_Z b) 0x3F.

(** [utf8.DecodeRune]: the first rune and its width; an ill-formed sequence
    is [(RuneError, 1)] and the empty one [(RuneError, 0)]. *)
Definition DecodeRune (s : list byte) : Z * nat :=
  match s with
  | [] => (RuneError, 0%nat)
  | b0 :: t =>
      let c := byte_to_Z b0 in
      if c <? 0x80 then (c, 1%nat)
      else if c <? 0xC2 then (RuneError, 1%nat)
      else if c <? 0xE0 then
        match t with
        | b1 :: _ =>
            if cont_in 0x80 0xBF b1
            then (Z.lor (Z.shiftl (Z.land c 0x1F) 6) (cbits b1), 2%nat)
            else (RuneError, 1%nat)
        | _ => (RuneError, 1%nat)
        end
      else if c <? 0xF0 then
        let lo := if c =? 0xE0 then 0xA0 else 0x80 in
        let hi := if c =? 0xED then 0x9F else 0xBF in
        match t with
        | b1 :: b2 :: _ =>
            if cont_in lo hi b1 && cont_in 0x80 0xBF b2
            then (Z.lor (Z.lor (Z.shiftl (Z.land c 0x0F) 12) (Z.shiftl (cbits b1) 6))
                    (cbits b2), 3%nat)
            else (RuneError, 1%nat)
        | _ => (RuneError, 1%nat)
        end
      else if c <? 0xF5 then
        let lo := if c =? 0xF0 then 0x90 else 0x80 in
        let hi := if c =? 0xF4 then 0x8F else 0xBF in
        match t with
        | b1 :: b2 :: b3 :: _ =>
            if cont_in lo hi b1 && cont_in 0x80 0xBF b2 && cont_in 0x80 0xBF b3
            then (Z.lor (Z.lor (Z.lor (Z.shiftl (Z.land c 0x07) 18) (Z.shiftl (cbits b1) 12))
                    (Z.shiftl (cbits b2) 6)) (cbits b3), 4%nat)
            else (RuneError, 1%nat)
        | _ => (RuneError, 1%nat)
        end
      else (RuneError, 1%nat)
  end.

(** [utf8.EncodeRune]; surrogates and values out of range become [RuneError]. *)
Definition EncodeRune (r : Z) : list byte :=
  let tail x := byte_of_Z (Z.lor 0x80 (Z.land x 0x3F)) in
  let enc3 r := [byte_of_Z (Z.lor 0xE0 (Z.shiftr r 12)); tail (Z.shiftr r 6); tail r] in
  if (0 <=? r) && (r <? 0x80) then [byte_of_Z r]
  else if (0 <=? r) && (r <? 0x800) then [byte_of_Z (Z.lor 0xC0 (Z.shiftr r 6)); tail r]
  else if (r <? 0) || (0x10FFFF <? r) || ((0xD800 <=? r) && (r <=? 0xDFFF)) then enc3 RuneError
  else if r <? 0x10000 then enc3 r
  else [byte_of_Z (Z.lor 0xF0 (Z.shiftr r 18)); tail (Z.shiftr r 12); tail (Z.shiftr r 6); tail r].

(** [bytes.Buffer.WriteRune] of Go 1.7, which writes any rune below 0x80,
    negative ones included, as one byte. *)
Definition WriteRune (buf : list byte) (r : Z) : list byte :=
  buf ++ if r <? 0x80 then [byte_of_Z r] else EncodeRune r.

(** [for i, ch := range s]: the byte offset and the rune of each iteration. *)
Fixpoint range_loop (fuel i : nat) (s : list byte) : list (nat * Z) :=
  match fuel with
  | O => []
  | S fuel =>
      match s with
      | [] => []
      | _ => let '(r, w) := DecodeRune s in (i, r) :: range_loop fuel (i + w) (drop w s)
      end
  end.

Definition range_string (s : list byte) : list (nat * Z) := range_loop (length s) 0 s.

Definition is_ascii (s : list byte) : Prop := Forall (λ b, byte_to_Z b < 0x80) s.
#[export] Instance is_ascii_dec s : Decision (is_ascii s).
Proof. apply _. Defined.

Lemma DecodeRune_width s : s ≠ [] → (1 ≤ snd (DecodeRune s) ≤ length s)%nat.
Proof.
  destruct s as [|b0 t]; [done|intros _]. unfold DecodeRune.
  repeat (case_match; simpl; try lia).
Qed.

Lemma range_loop_ascii s fuel i :
  is_ascii s → (length s ≤ fuel)%nat →
  range_loop fuel i s = imap (λ j b, ((i + j)%nat, byte_to_Z b)) s.
Proof.
  intros Hs. revert fuel i. induction Hs as [|b s Hb Hs IH]; intros fuel i Hf; [by destruct fuel|].
  destruct fuel as [|fuel]; simpl in Hf; [lia|].
  cbn [range_loop DecodeRune]. apply Z.ltb_lt in Hb as ->.
  cbn [drop]. rewrite IH by lia. rewrite imap_cons, Nat.add_0_r. f_equal.
  apply imap_ext. intros. simpl. f_equal. lia.
Qed.

Lemma range_string_ascii s :
  is_ascii s → range_string s = imap (λ j b, (j, byte_to_Z b)) s.
Proof. intros Hs. unfold range_string. by rewrite range_loop_ascii. Qed.

(** ** [bytes] and [strings] *)

(** [bytes.Split(s, sep)] for a one-byte separator. *)
Fixpoint Split (sep : byte) (s : list byte) : list (list byte) :=
  match s with
  | [] => [[]]
  | b :: s =>
      if decide (b = sep) then [] :: Split sep s
      else match Split sep s with
           | [] => [[b]]
           | p :: ps => (b :: p) :: ps
           end
  end.

(** [strings.Join(l, sep)]. *)
Fixpoint Join (sep : list byte) (l : list (list byte)) : list byte :=
  match l with
  | [] => []
  | [p] => p
  | p :: l => p ++ sep ++ Join sep l
  end.

(** [bytes.IndexByte], and [bytes.IndexRune] for an ASCII rune, which no
    multi-byte sequence contains; -1 when absent. *)
Fixpoint IndexByte (c : byte) (s : list byte) : Z :=
  match s with
  | [] => -1
  | b :: s =>
      if decide (b = c) then 0
      else let i := IndexByte c s in if i <? 0 then -1 else i + 1
  end.

(** [bytes.HasPrefix(s, p)]. *)
Fixpoint HasPrefix (s p : list byte) {struct p} : bool :=
  match p, s with
  | [], _ => true
  | _, [] => false
  | y :: p, x :: s => bool_decide (x = y) && HasPrefix s p
  end.

(** [strings.Trim(s, " \t")]. *)
Fixpoint TrimLeftBlank (s : list byte) : list byte :=
  match s with
  | x20 :: s | x09 :: s => TrimLeftBlank s
  | _ => s
  end.
Definition TrimBlank (s : list byte) : list byte := rev (TrimLeftBlank (rev (TrimLeftBlank s))).

Lemma Split_no_sep sep s : sep ∉ s → Split sep s = [s].
Proof.
  induction s as [|b s IH]; [done|]. rewrite not_elem_of_cons. intros [Hb Hs]. simpl.
  rewrite decide_False by congruence. by rewrite IH.
Qed.

Lemma Split_not_nil sep s : Split sep s ≠ [].
Proof. destruct s; simpl; [done|]. case_decide; [done|]. by destruct (Split sep s). Qed.

Lemma Split_app sep s t : sep ∉ s → Split sep (s ++ sep :: t) = s :: Split sep t.
Proof.
  induction s as [|b s IH]; simpl; [by rewrite decide_True|].
  rewrite not_elem_of_cons. intros [Hb Hs].
  rewrite decide_False by congruence. by rewrite IH.
Qed.

(** One more piece than separators. *)
Lemma length_Split sep s :
  length (Split sep s) = S (length (filter (λ b, b = sep) s)).
Proof.
  induction s as [|b s IH]; simpl; [done|]. rewrite filter_cons.
  case_decide; simpl; [congruence|].
  destruct (Split sep s) eqn:Hs; [by destruct (Split_not_nil sep s)|]. simpl in *. lia.
Qed.

Lemma Join_Split sep s : Join [sep] (Split sep s) = s.
Proof.
  induction s as [|b s IH]; simpl; [done|].
  case_decide; subst; simpl.
  - destruct (Split sep s) eqn:Hs; [by destruct (Split_not_nil sep s)|]. by rewrite IH.
  - destruct (Split sep s) as [|p [|q ps]]; simpl in *; congruence.
Qed.

Lemma IndexByte_app c s t :
  c ∉ s → IndexByte c (s ++ c :: t) = Z.of_nat (length s).
Proof.
  induction s as [|b s IH]; simpl; [by rewrite decide_True|].
  rewrite not_elem_of_cons. intros [Hb Hs]. rewrite decide_False by congruence.
  rewrite IH by done. destruct (Z.ltb_spec (Z.of_nat (length s)) 0); lia.
Qed.

Lemma IndexByte_absent c s : c ∉ s → IndexByte c s = -1.
Proof.
  induction s as [|b s IH]; simpl; [done|].
  rewrite not_elem_of_cons. intros [Hb Hs]. rewrite decide_False by congruence. by rewrite IH.
Qed.

Lemma HasPrefix_spec s p : HasPrefix s p = true ↔ ∃ t, s = p ++ t.
Proof.
  revert s. induction p as [|y p IH]; intros s; simpl; [by split; [exists s|]|].
  destruct s as [|x s]; [split; [done|by intros [? ?]]|].
  rewrite andb_true_iff, bool_decide_eq_true, IH. split.
  - intros [-> [t ->]]. by exists t.
  - intros [t Ht]. injection Ht as -> ->. eauto.
Qed.
