(* ===== verification/Algo.v ===== *)
(** UID-list algorithms: [src/algo/uidlist.go] and [src/algo/heap.go].

    A [task.List] is its [Uids] slice, a [list Z] of [uint64] values. The
    in-place routines ([ApplyFilter], [IntersectWith]) are modelled on the
    backing array they overwrite while they read it; [MergeSorted] runs on the
    binary heap of [container/heap], whose [up]/[down] loops are written out. *)
From S2P Require Import Prelude.
From stdpp Require Import options.
#[local] Open Scope Z_scope.

Module algo.

(** ** ApplyFilter: [out := u.Uids[:0]] shares [u]'s array, so appending to
    [out] overwrites the array at [w] while the loop still reads it at [i]. *)
Fixpoint applyFilter_loop (todo : nat) (f : Z → nat → bool)
    (arr : list Z) (i w : nat) : res (list Z * nat) :=
  match todo with
  | O => Ok (arr, w)
  | S todo =>
      uid ← index arr i;
      if f uid i
      then applyFilter_loop todo f (<[w := uid]> arr) (S i) (S w)
      else applyFilter_loop todo f arr (S i) w
  end.

Definition ApplyFilter (u : list Z) (f : Z → nat → bool) : res (list Z) :=
  '(arr, w) ← applyFilter_loop (length u) f u 0 0;
  Ok (take w arr).

(** The inner loop shared by the intersections and by [List.Uids]:
    [for ; k < m && v[k] < uid; k++ {}]. *)
Fixpoint skip_loop (fuel : nat) (v : list Z) (uid : Z) (k : nat) : nat :=
  match fuel with
  | O => k
  | S fuel =>
      match v !! k with
      | Some y => if y <? uid then skip_loop fuel v uid (S k) else k
      | None => k
      end
  end.

Definition skip_less (v : list Z) (uid : Z) (k : nat) : nat :=
  skip_loop (length v - k) v uid k.

(** ** IntersectWith, again in place on [u]'s array. *)
Fixpoint intersectWith_loop (todo : nat) (v arr : list Z) (i k w : nat)
    : res (list Z * nat) :=
  match todo with
  | O => Ok (arr, w)
  | S todo =>
      uid ← index arr i;
      let k := skip_less v uid k in
      if bool_decide (v !! k = Some uid)
      then intersectWith_loop todo v (<[w := uid]> arr) (S i) k (S w)
      else intersectWith_loop todo v arr (S i) k w
  end.

Definition IntersectWith (u v : list Z) : res (list Z) :=
  '(arr, w) ← intersectWith_loop (length u) v u 0 0 0;
  Ok (take w arr).

(** ** IntersectSorted *)

(** [for i := 1; i < len(lists); i++ { if len(lists[i]) < minLen {...} }] *)
Fixpoint minLen_loop (ls : list (list Z)) (i minLenIdx minLen : nat) : nat :=
  match ls with
  | [] => minLenIdx
  | l :: ls =>
      if (length l <? minLen)%nat
      then minLen_loop ls (S i) i (length l)
      else minLen_loop ls (S i) minLenIdx minLen
  end.

(** The loop over the other lists for one [val]: returns [skip] and the moved
    [lptrs]; it breaks out as soon as one list lacks [val]. *)
Fixpoint check_others (todo : nat) (lists : list (list Z)) (minLenIdx : nat)
    (val : Z) (j : nat) (lptrs : list nat) : res (bool * list nat) :=
  match todo with
  | O => Ok (false, lptrs)
  | S todo =>
      if (j =? minLenIdx)%nat
      then check_others todo lists minLenIdx val (S j) lptrs
      else
        lj ← index lists j;
        ljp ← index lptrs j;
        let ljp := skip_less lj val ljp in
        let lptrs := <[j := ljp]> lptrs in
        match lj !! ljp with
        | None => Ok (true, lptrs)
        | Some y =>
            if val <? y then Ok (true, lptrs)
            else check_others todo lists minLenIdx val (S j) lptrs
        end
  end.

(** The outer loop over the shortest list; [prev] is [shortList.Uids[i-1]]. *)
Fixpoint intersectSorted_loop (short : list Z) (prev : option Z)
    (lists : list (list Z)) (minLenIdx : nat) (lptrs : list nat)
    (output : list Z) : res (list Z) :=
  match short with
  | [] => Ok output
  | val :: short =>
      assert_true (negb (bool_decide (prev = Some val)))
        "We shouldn't have duplicates in UIDLists";;
      '(skip, lptrs) ← check_others (length lists) lists minLenIdx val 0 lptrs;
      intersectSorted_loop short (Some val) lists minLenIdx lptrs
        (if skip : bool then output else output ++ [val])
  end.

Definition IntersectSorted (lists : list (list Z)) : res (list Z) :=
  match lists with
  | [] => Ok []
  | l0 :: rest =>
      let minLenIdx := minLen_loop rest 1 0 (length l0) in
      shortList ← index lists minLenIdx;
      intersectSorted_loop shortList None lists minLenIdx
        (replicate (length lists) 0%nat) []
  end.

(** ** The heap of [src/algo/heap.go] *)
Record elem := Elem { val : Z; listIdx : nat }.

Definition uint64Heap : Type := list elem.

(** [Less] and [Swap] index the slice; [container/heap] calls them in range. *)
Definition Less (h : list elem) (i j : nat) : bool :=
  match h !! i, h !! j with
  | Some a, Some b => val a <? val b
  | _, _ => false
  end.

Definition Swap (h : list elem) (i j : nat) : list elem :=
  match h !! i, h !! j with
  | Some a, Some b => <[i := b]> (<[j := a]> h)
  | _, _ => h
  end.

(** [container/heap]'s [up] and [down]. In [up], [(j-1)/2] at [j = 0] is [0]
    in Go (truncated division) and here (truncated subtraction). *)
Fixpoint up (fuel : nat) (h : list elem) (j : nat) : list elem :=
  match fuel with
  | O => h
  | S fuel =>
      let i := ((j - 1) / 2)%nat in
      if (i =? j)%nat || negb (Less h j i) then h
      else up fuel (Swap h i j) i
  end.

Fixpoint down (fuel : nat) (h : list elem) (i n : nat) : list elem :=
  match fuel with
  | O => h
  | S fuel =>
      let j1 := (2 * i + 1)%nat in
      if (n <=? j1)%nat then h
      else
        let j := if (S j1 <? n)%nat && negb (Less h j1 (S j1)) then S j1 else j1 in
        if negb (Less h j i) then h
        else down fuel (Swap h i j) j n
  end.

Definition heap_Push (h : list elem) (x : elem) : list elem :=
  up (length h) (h ++ [x]) (length h).

Definition heap_Pop (h : list elem) : list elem :=
  let n := (length h - 1)%nat in
  take n (down n (Swap h 0 n) 0 n).

Definition heap_Fix0 (h : list elem) : list elem :=
  up 1 (down (length h) h 0 (length h)) 0.

(** ** MergeSorted *)
Fixpoint push_heads (lists : list (list Z)) (i : nat) (h : list elem) : list elem :=
  match lists with
  | [] => h
  | l :: lists =>
      push_heads lists (S i)
        (match l with [] => h | x :: _ => heap_Push h (Elem x i) end)
  end.

(** One round of [for h.Len() > 0]: [fuel] bounds the rounds. *)
Fixpoint merge_loop (fuel : nat) (lists : list (list Z)) (h : list elem)
    (idx : list nat) (output : list Z) (last : Z) : res (list Z) :=
  match h with
  | [] => Ok output
  | me :: h' =>
      match fuel with
      | O => Crash "merge_loop: out of fuel"
      | S fuel =>
          let fresh := bool_decide (output = []) || negb (val me =? last) in
          let output := if fresh then output ++ [val me] else output in
          let last := if fresh then val me else last in
          l ← index lists (listIdx me);
          p ← index idx (listIdx me);
          if (length l - 1 <=? p)%nat
          then merge_loop fuel lists (heap_Pop h) idx output last
          else
            v ← index l (S p);
            merge_loop fuel lists (heap_Fix0 (Elem v (listIdx me) :: h'))
              (<[listIdx me := S p]> idx) output last
      end
  end.

Definition MergeSorted (lists : list (list Z)) : res (list Z) :=
  match lists with
  | [] => Ok []
  | _ =>
      merge_loop (length (concat lists)) lists (push_heads lists 0 [])
        (replicate (length lists) 0%nat) [] 0
  end.

(** ** IndexOf: binary search, [-1] when absent. *)
Definition IndexOf (u : list Z) (uid : Z) : Z :=
  let i := ksearch id (λ x, uid <=? x) u in
  if bool_decide (u !! i = Some uid) then Z.of_nat i else -1.

(** ** Facts *)

(** In-place filtering: the array is only written behind the read position. *)
Lemma take_insert_S {A} (w : nat) (x : A) (arr : list A) :
  (w < length arr)%nat → take (S w) (<[w := x]> arr) = take w arr ++ [x].
Proof.
  intros Hw. rewrite (take_S_r _ _ x) by (by apply list_lookup_insert_eq).
  by rewrite take_insert_ge by lia.
Qed.

Lemma applyFilter_loop_spec todo f arr i w :
  (w ≤ i)%nat → (i + todo = length arr)%nat →
  ∃ arr' w', applyFilter_loop todo f arr i w = Ok (arr', w') ∧
    take w' arr' =
      take w arr ++ mjoin (imap (λ j x, if f x (i + j)%nat then [x] else []) (drop i arr)).
Proof.
  revert arr i w. induction todo as [|todo IH]; intros arr i w Hwi Hlen.
  { exists arr, w. split; [done|]. rewrite drop_ge by lia. by rewrite app_nil_r. }
  destruct (lookup_lt_is_Some_2 arr i) as [x Hx]; [lia|].
  simpl. unfold index. rewrite Hx. simpl. rewrite (drop_S _ _ _ Hx). simpl.
  rewrite Nat.add_0_r.
  assert (∀ l : list Z,
    imap ((λ j x, if f x (i + j)%nat then [x] else []) ∘ S) l =
    imap (λ j x, if f x (S i + j)%nat then [x] else []) l) as Himap.
  { intros l. apply imap_ext. intros j y _. simpl. by rewrite Nat.add_succ_r. }
  rewrite Himap. destruct (f x i).
  - destruct (IH (<[w := x]> arr) (S i) (S w)) as (arr' & w' & -> & Ht);
      [lia|rewrite length_insert; lia|].
    exists arr', w'. split; [done|]. rewrite Ht, take_insert_S by lia.
    rewrite drop_insert_lt by lia. by rewrite <-app_assoc.
  - destruct (IH arr (S i) w) as (arr' & w' & -> & Ht); [lia..|].
    exists arr', w'. split; [done|]. by rewrite Ht.
Qed.

Lemma ApplyFilter_spec u f :
  ApplyFilter u f = Ok (mjoin (imap (λ i x, if f x i then [x] else []) u)).
Proof.
  unfold ApplyFilter.
  destruct (applyFilter_loop_spec (length u) f u 0 0) as (arr & w & -> & Ht); [lia..|].
  simpl. by rewrite Ht.
Qed.

(** The skip loop drops the leading elements below [uid]. *)
Fixpoint drop_less (uid : Z) (l : list Z) : list Z :=
  match l with
  | [] => []
  | y :: l' => if y <? uid then drop_less uid l' else l
  end.

Lemma skip_loop_spec fuel v uid k :
  (length v - k ≤ fuel)%nat →
  drop (skip_loop fuel v uid k) v = drop_less uid (drop k v) ∧
  (k ≤ skip_loop fuel v uid k)%nat.
Proof.
  revert k. induction fuel as [|fuel IH]; intros k Hf; simpl.
  { rewrite drop_ge by lia. done. }
  destruct (v !! k) as [y|] eqn:Hy.
  - rewrite (drop_S _ _ _ Hy). simpl. destruct (y <? uid); [|split; [by apply drop_S|lia]].
    destruct (IH (S k)) as [??]; [lia|]. split; [done|lia].
  - apply lookup_ge_None in Hy. rewrite drop_ge by lia. done.
Qed.

Lemma skip_less_spec v uid k :
  drop (skip_less v uid k) v = drop_less uid (drop k v).
Proof. by apply skip_loop_spec. Qed.

Lemma drop_less_suffix uid l :
  ∃ l1, l = l1 ++ drop_less uid l ∧ Forall (λ y, y < uid) l1.
Proof.
  induction l as [|y l (l1 & Hl & HF)]; simpl; [by exists []|].
  destruct (Z.ltb_spec y uid); [|by exists []].
  exists (y :: l1). simpl. split; [by f_equal|]. by constructor.
Qed.

Lemma drop_less_head uid l y l' :
  drop_less uid l = y :: l' → uid ≤ y.
Proof.
  induction l as [|z l IH]; simpl; [done|].
  destruct (Z.ltb_spec z uid); [done|]. intros [= -> _]. lia.
Qed.

Lemma drop_less_elem uid l x :
  uid ≤ x → x ∈ drop_less uid l ↔ x ∈ l.
Proof.
  intros Hx. destruct (drop_less_suffix uid l) as (l1 & Hl & HF).
  rewrite Hl at 2. rewrite elem_of_app. split; [by right|]. intros [H1|H1]; [|done].
  rewrite Forall_forall in HF. specialize (HF x H1). lia.
Qed.

Lemma drop_less_sorted uid l :
  StronglySorted Z.le l → StronglySorted Z.le (drop_less uid l).
Proof.
  intros Hs. destruct (drop_less_suffix uid l) as (l1 & Hl & _).
  rewrite Hl in Hs. by eapply StronglySorted_app_1_r.
Qed.

(** On a sorted list, the element after the skip is [uid] iff [uid] occurs. *)
Lemma skip_less_found v uid k :
  StronglySorted Z.le v →
  Forall (λ y, y < uid) (take k v) →
  v !! skip_less v uid k = Some uid ↔ uid ∈ v.
Proof.
  intros Hs Hk.
  assert (v !! skip_less v uid k = head (drop_less uid (drop k v))) as ->.
  { rewrite <-skip_less_spec. by rewrite head_lookup, lookup_drop, Nat.add_0_r. }
  assert (uid ∈ v ↔ uid ∈ drop_less uid (drop k v)) as ->.
  { rewrite drop_less_elem by lia. rewrite <-(take_drop k v) at 1. rewrite elem_of_app.
    split; [|by right]. intros [H1|H1]; [|done].
    rewrite Forall_forall in Hk. specialize (Hk _ H1). lia. }
  assert (StronglySorted Z.le (drop_less uid (drop k v))) as Hs'.
  { apply drop_less_sorted. rewrite <-(take_drop k v) in Hs.
    by eapply StronglySorted_app_1_r. }
  destruct (drop_less uid (drop k v)) as [|y l] eqn:Hd; simpl; [set_solver|].
  apply drop_less_head in Hd. apply StronglySorted_cons in Hs' as [HF _].
  split; [intros [= ->]; by left|].
  intros [->|Hin]%elem_of_cons; [done|].
  rewrite Forall_forall in HF. specialize (HF _ Hin). f_equal. lia.
Qed.

Lemma skip_less_below v uid k :
  Forall (λ y, y < uid) (take k v) → Forall (λ y, y < uid) (take (skip_less v uid k) v).
Proof.
  intros Hk. destruct (skip_loop_spec (length v - k) v uid k) as [Hd Hle]; [done|].
  fold (skip_less v uid k) in Hd, Hle.
  destruct (drop_less_suffix uid (drop k v)) as (l1 & Hl & HF).
  rewrite <-Hd in Hl.
  assert (take (skip_less v uid k) v = take k v ++ l1) as ->; [|by apply Forall_app].
  apply (app_inv_tail (drop (skip_less v uid k) v)).
  by rewrite take_drop, <-app_assoc, <-Hl, take_drop.
Qed.

Lemma intersectWith_loop_spec todo v arr i k w :
  StronglySorted Z.le v → StronglySorted Z.le (drop i arr) →
  (∀ x, x ∈ drop i arr → Forall (λ y, y < x) (take k v)) →
  (w ≤ i)%nat → (i + todo = length arr)%nat →
  ∃ arr' w', intersectWith_loop todo v arr i k w = Ok (arr', w') ∧
    take w' arr' = take w arr ++ filter (.∈ v) (drop i arr).
Proof.
  intros Hv. revert arr i k w. induction todo as [|todo IH]; intros arr i k w Hs Hk Hwi Hlen.
  { exists arr, w. split; [done|]. rewrite drop_ge by lia. by rewrite app_nil_r. }
  destruct (lookup_lt_is_Some_2 arr i) as [x Hx]; [lia|].
  simpl. unfold index. rewrite Hx. simpl. rewrite (drop_S _ _ _ Hx) in Hs, Hk |- *.
  apply StronglySorted_cons in Hs as [HF Hs].
  assert (Forall (λ y, y < x) (take k v)) as Hkx by (apply Hk; by left).
  pose proof (skip_less_below v x k Hkx) as Hbelow.
  pose proof (skip_less_found v x k Hv Hkx) as Hfound.
  set (k' := skip_less v x k) in *.
  assert (∀ z, z ∈ drop (S i) arr → Forall (λ y, y < z) (take k' v)) as Hk'.
  { intros z Hz. rewrite Forall_forall in HF. specialize (HF z Hz).
    eapply Forall_impl; [done|]. simpl. lia. }
  rewrite filter_cons. case_bool_decide as Hfd; rewrite Hfound in Hfd.
  - rewrite decide_True by done.
    destruct (IH (<[w := x]> arr) (S i) k' (S w)) as (arr' & w' & -> & Ht);
      [by rewrite drop_insert_lt by lia ..|lia|rewrite length_insert; lia|].
    exists arr', w'. split; [done|]. rewrite Ht, take_insert_S by lia.
    rewrite drop_insert_lt by lia. by rewrite <-app_assoc.
  - rewrite decide_False by done.
    destruct (IH arr (S i) k' w) as (arr' & w' & -> & Ht); [done..|lia|lia|].
    exists arr', w'. by rewrite Ht.
Qed.

Lemma IntersectWith_spec u v :
  StronglySorted Z.le u → StronglySorted Z.le v →
  IntersectWith u v = Ok (filter (.∈ v) u).
Proof.
  intros Hu Hv. unfold IntersectWith.
  destruct (intersectWith_loop_spec (length u) v u 0 0 0) as (arr & w & -> & Ht); try done.
  simpl. by rewrite Ht.
Qed.

(** ** IntersectSorted *)
Lemma minLen_loop_lt ls i m ml :
  (m < i)%nat → (minLen_loop ls i m ml < i + length ls)%nat.
Proof.
  revert i m ml. induction ls as [|l ls IH]; intros i m ml Hm; simpl; [lia|].
  destruct (length l <? ml)%nat.
  - pose proof (IH (S i) i (length l) ltac:(lia)). lia.
  - pose proof (IH (S i) m ml ltac:(lia)). lia.
Qed.

(** What the scan over the other lists knows about its pointers: everything
    before a pointer is below the value being looked for. *)
Definition ptrs_below (lists : list (list Z)) (lptrs : list nat) (x : Z) : Prop :=
  length lptrs = length lists ∧
  ∀ j l p, lists !! j = Some l → lptrs !! j = Some p → Forall (λ y, y < x) (take p l).

Lemma ptrs_below_mono lists lptrs x x' :
  x ≤ x' → ptrs_below lists lptrs x → ptrs_below lists lptrs x'.
Proof.
  intros Hx [Hlen H]. split; [done|]. intros j l p Hl Hp.
  eapply Forall_impl; [by eapply H|]. simpl. lia.
Qed.

Lemma check_others_spec todo lists m x j lptrs :
  Forall (StronglySorted Z.le) lists →
  (j + todo = length lists)%nat → ptrs_below lists lptrs x →
  ∃ skip lptrs', check_others todo lists m x j lptrs = Ok (skip, lptrs') ∧
    ptrs_below lists lptrs' x ∧
    (skip = false ↔ ∀ i l, (j ≤ i)%nat → i ≠ m → lists !! i = Some l → x ∈ l).
Proof.
  intros Hall. revert j lptrs. induction todo as [|todo IH]; intros j lptrs Hj Hb; simpl.
  { exists false, lptrs. do 2 (split; [done|]). split; [|done]. intros _ i l Hi _ Hl.
    apply lookup_lt_Some in Hl. lia. }
  assert ((∀ i l, (S j ≤ i)%nat → i ≠ m → lists !! i = Some l → x ∈ l) →
    (∀ l, j ≠ m → lists !! j = Some l → x ∈ l) →
    ∀ i l, (j ≤ i)%nat → i ≠ m → lists !! i = Some l → x ∈ l) as Hstep.
  { intros H1 H2 i l Hi Hm Hl. destruct (decide (i = j)) as [->|]; [by apply H2|].
    eapply H1; [|done..]. lia. }
  destruct (Nat.eqb_spec j m) as [->|Hjm].
  { destruct (IH (S m) lptrs) as (skip & lptrs' & -> & Hb' & Hsk); [lia|done|].
    exists skip, lptrs'. do 2 (split; [done|]). rewrite Hsk. split.
    - intros H. by apply Hstep.
    - intros H i l Hi. apply H. lia. }
  destruct (lookup_lt_is_Some_2 lists j) as [lj Hlj]; [lia|].
  destruct Hb as [Hlen Hb].
  destruct (lookup_lt_is_Some_2 lptrs j) as [p Hp]; [lia|].
  unfold index. rewrite Hlj, Hp. simpl.
  assert (StronglySorted Z.le lj) as Hs.
  { rewrite Forall_forall in Hall. apply Hall. by eapply list_elem_of_lookup_2. }
  pose proof (Hb j lj p Hlj Hp) as Hpb.
  pose proof (skip_less_found lj x p Hs Hpb) as Hfd.
  pose proof (skip_less_below lj x p Hpb) as Hbl.
  pose proof (skip_less_spec lj x p) as Hdr.
  set (p' := skip_less lj x p) in *.
  assert (ptrs_below lists (<[j := p']> lptrs) x) as Hb'.
  { split; [by rewrite length_insert|]. intros i l q Hl Hq.
    destruct (decide (i = j)) as [->|].
    - rewrite list_lookup_insert_eq in Hq by (by eapply lookup_lt_Some).
      simplify_eq. done.
    - rewrite list_lookup_insert_ne in Hq by done. by eapply Hb. }
  assert (x ∉ lj → ¬ ∀ i l, (j ≤ i)%nat → i ≠ m → lists !! i = Some l → x ∈ l) as Hno.
  { intros Hx H. apply Hx. by eapply H. }
  destruct (lj !! p') as [y|] eqn:Hy.
  - destruct (Z.ltb_spec x y) as [Hxy|Hxy].
    + exists true, (<[j := p']> lptrs). do 2 (split; [done|]). split; [done|].
      intros H. exfalso. revert H. apply Hno. rewrite <-Hfd. intros [= ->]. lia.
    + assert (x ≤ y) as Hge.
      { rewrite (drop_S _ _ _ Hy) in Hdr. by eapply drop_less_head. }
      destruct (IH (S j) (<[j := p']> lptrs)) as (skip & lptrs' & -> & Hb'' & Hsk); [lia|done|].
      exists skip, lptrs'. do 2 (split; [done|]). rewrite Hsk. split.
      * intros H. apply Hstep; [done..|]. intros l _ Hl. simplify_eq.
        apply Hfd. f_equal. lia.
      * intros H i l Hi. apply H. lia.
  - exists true, (<[j := p']> lptrs). do 2 (split; [done|]). split; [done|].
    intros H. exfalso. revert H. apply Hno. by rewrite <-Hfd.
Qed.

Lemma intersectSorted_loop_spec short prev lists m lptrs output :
  Forall (StronglySorted Z.le) lists → StronglySorted Z.lt short →
  (∀ x y, prev = Some x → y ∈ short → x < y) →
  (∀ x, x ∈ short → ptrs_below lists lptrs x) →
  intersectSorted_loop short prev lists m lptrs output =
    Ok (output ++
        filter (λ x, Forall (λ p : nat * list Z, p.1 = m ∨ x ∈ p.2) (imap pair lists)) short).
Proof.
  intros Hall. revert prev lptrs output.
  induction short as [|x short IH]; intros prev lptrs output Hs Hprev Hb; simpl.
  { by rewrite app_nil_r. }
  apply StronglySorted_cons in Hs as [HF Hs].
  rewrite (bool_decide_eq_false_2 (prev = Some x)).
  2:{ intros ->. specialize (Hprev x x eq_refl ltac:(by left)). lia. }
  simpl.
  destruct (check_others_spec (length lists) lists m x 0 lptrs)
    as (skip & lptrs' & -> & Hb' & Hsk); [done|lia|by apply Hb; left|]. simpl.
  rewrite IH; [|done|..].
  - rewrite filter_cons. f_equal.
    assert (skip = false ↔ Forall (λ p : nat * list Z, p.1 = m ∨ x ∈ p.2) (imap pair lists))
      as Hiff.
    { rewrite Hsk, Forall_forall. split.
      - intros H [i l] Hil. apply elem_of_lookup_imap in Hil as (i' & l' & [= -> ->] & Hl).
        destruct (decide (i' = m)); [by left|]. right. eapply H; [lia|done..].
      - intros H i l _ Him Hl. destruct (H (i, l)) as [|]; [|done..].
        apply elem_of_lookup_imap. by exists i, l. }
    destruct skip.
    + rewrite decide_False; [done|]. rewrite <-Hiff. done.
    + rewrite decide_True by (by apply Hiff). by rewrite <-app_assoc.
  - intros z y [= <-] Hy. rewrite Forall_forall in HF. by apply HF.
  - intros y Hy. rewrite Forall_forall in HF. specialize (HF y Hy).
    eapply ptrs_below_mono; [|done]. lia.
Qed.

Lemma IntersectSorted_spec lists :
  lists ≠ [] → Forall (StronglySorted Z.lt) lists →
  ∃ out, IntersectSorted lists = Ok out ∧ StronglySorted Z.lt out ∧
    ∀ x, x ∈ out ↔ ∀ l, l ∈ lists → x ∈ l.
Proof.
  intros Hne Hall. unfold IntersectSorted. destruct lists as [|l0 rest] eqn:Hl; [done|].
  rewrite <-Hl in *. clear Hne.
  pose proof (minLen_loop_lt rest 1 0 (length l0) ltac:(lia)) as Hlt.
  set (m := minLen_loop rest 1 0 (length l0)) in *.
  destruct (lookup_lt_is_Some_2 lists m) as [short Hshort]; [rewrite Hl; simpl; lia|].
  unfold index. rewrite Hshort. simpl.
  assert (StronglySorted Z.lt short) as Hss.
  { rewrite Forall_forall in Hall. apply Hall. by eapply list_elem_of_lookup_2. }
  rewrite intersectSorted_loop_spec; [|by eapply Forall_impl; [|apply ssorted_lt_le]|done..|].
  - eexists. split; [done|]. simpl. split; [by apply ssorted_filter|]. intros x.
    rewrite list_elem_of_filter, Forall_forall. split.
    + intros [H Hx] l (i & Hi)%list_elem_of_lookup.
      assert ((i, l) ∈ imap pair lists) as Hil by (apply elem_of_lookup_imap; by exists i, l).
      destruct (H _ Hil) as [Him|]; [|done]. simpl in Him. by simplify_eq.
    + intros H. split; [|apply H; by eapply list_elem_of_lookup_2].
      intros [i l] (i' & l' & [= -> ->] & Hi)%elem_of_lookup_imap.
      right. apply H. by eapply list_elem_of_lookup_2.
  - intros x _. split; [by rewrite length_replicate|]. intros j l p _ Hp.
    apply lookup_replicate in Hp as [-> _]. constructor.
Qed.

(** ** Heap *)

Definition hv (h : list elem) (i : nat) : Z :=
  match h !! i with Some a => val a | None => 0 end.

Lemma Less_hv h i j :
  (i < length h)%nat → (j < length h)%nat → Less h i j = (hv h i <? hv h j).
Proof.
  intros [a Ha]%lookup_lt_is_Some_2 [b Hb]%lookup_lt_is_Some_2.
  unfold Less, hv. by rewrite Ha, Hb.
Qed.

Lemma length_Swap h i j : length (Swap h i j) = length h.
Proof. unfold Swap. repeat case_match; by rewrite ?length_insert. Qed.

Lemma hv_Swap h i j k :
  (i < length h)%nat → (j < length h)%nat →
  hv (Swap h i j) k = if decide (k = i) then hv h j else if decide (k = j) then hv h i else hv h k.
Proof.
  intros Hi Hj. destruct (lookup_lt_is_Some_2 h i Hi) as [a Ha].
  destruct (lookup_lt_is_Some_2 h j Hj) as [b Hb].
  unfold Swap, hv. rewrite Ha, Hb. repeat case_decide; subst.
  - by rewrite list_lookup_insert_eq by (by rewrite length_insert).
  - by rewrite list_lookup_insert_ne, list_lookup_insert_eq by done.
  - by rewrite !list_lookup_insert_ne by done.
Qed.

Lemma insert_Permutation_split (h : list elem) i x a :
  h !! i = Some a → a :: <[i := x]> h ≡ₚ x :: h.
Proof.
  intros Hi. rewrite insert_take_drop by (by eapply lookup_lt_Some).
  rewrite <-(take_drop_middle h i a) at 3 by done.
  rewrite <-!Permutation_middle. by constructor.
Qed.

Lemma Swap_Permutation h i j : Swap h i j ≡ₚ h.
Proof.
  unfold Swap. destruct (h !! i) as [a|] eqn:Hi; [|done].
  destruct (h !! j) as [b|] eqn:Hj; [|done].
  destruct (decide (i = j)) as [->|Hne].
  { simplify_eq. rewrite list_insert_insert_eq, list_insert_id by done. done. }
  apply (Permutation_cons_inv (a := a)). rewrite insert_Permutation_split.
  2:{ by rewrite list_lookup_insert_ne. }
  by apply insert_Permutation_split.
Qed.

Lemma up_Permutation fuel h j : up fuel h j ≡ₚ h.
Proof.
  revert h j. induction fuel as [|fuel IH]; intros h j; cbn [up]; [done|].
  case_match; [done|]. by rewrite IH, Swap_Permutation.
Qed.

Lemma down_Permutation fuel h i n : down fuel h i n ≡ₚ h.
Proof.
  revert h i. induction fuel as [|fuel IH]; intros h i; cbn [down]; [done|].
  repeat case_match; try done; by rewrite IH, Swap_Permutation.
Qed.

(** [c] is a child of [p] in the implicit tree. *)
Definition child (p c : nat) : Prop := (c = 2 * p + 1 ∨ c = 2 * p + 2)%nat.

Definition heap_upto (n : nat) (h : list elem) : Prop :=
  ∀ p c, child p c → (c < n)%nat → hv h p ≤ hv h c.

Lemma child_parent j : (0 < j)%nat → child ((j - 1) / 2) j.
Proof.
  intros Hj. unfold child. pose proof (Nat.div_mod_eq (j - 1) 2).
  pose proof (Nat.mod_upper_bound (j - 1) 2 ltac:(lia)). lia.
Qed.

(** Case analysis on the positions a swap touches. *)
Ltac swap_cases :=
  rewrite !hv_Swap by lia; repeat case_decide; subst; try lia.

Lemma down_heap fuel h i n :
  (n ≤ length h)%nat → (n - i ≤ fuel)%nat →
  (∀ p c, child p c → (c < n)%nat → p ≠ i → hv h p ≤ hv h c) →
  (∀ g c, child g i → child i c → (c < n)%nat → hv h g ≤ hv h c) →
  heap_upto n (down fuel h i n).
Proof.
  unfold heap_upto, child. revert h i.
  induction fuel as [|fuel IH]; intros h i Hn Hf H1 H2; cbn [down].
  { intros p c Hpc Hc. apply H1; lia. }
  destruct (Nat.leb_spec n (2 * i + 1)) as [Hge|Hlt].
  { intros p c Hpc Hc. apply H1; lia. }
  set (j1 := (2 * i + 1)%nat) in *.
  assert (∃ j, (j = j1 ∨ j = S j1) ∧ (j < n)%nat ∧
    (if (S j1 <? n)%nat && negb (Less h j1 (S j1)) then S j1 else j1) = j ∧
    hv h j ≤ hv h j1 ∧ ((S j1 < n)%nat → hv h j ≤ hv h (S j1))) as (j & Hj & Hjn & -> & Hm1 & Hm2).
  { destruct (Nat.ltb_spec (S j1) n); simpl; [|exists j1; repeat split; auto; lia].
    rewrite Less_hv by lia. destruct (Z.ltb_spec (hv h j1) (hv h (S j1))); simpl.
    - exists j1; repeat split; auto; lia.
    - exists (S j1); repeat split; auto; lia. }
  rewrite Less_hv by lia. destruct (Z.ltb_spec (hv h j) (hv h i)) as [Hlt'|Hge']; simpl.
  - apply IH; [by rewrite length_Swap|lia|..].
    + intros p c Hpc Hc Hpj. pose proof (H1 p c Hpc Hc). pose proof (H2 p j).
      assert (p = i → c = j1 ∨ c = S j1) by lia. swap_cases.
      assert (c = j1 ∨ c = S j1) as [-> | ->] by lia; lia.
    + intros g c Hg Hc Hcn. pose proof (H1 j c Hc Hcn). swap_cases.
  - intros p c Hpc Hc. destruct (decide (p = i)) as [->|]; [|by apply H1].
    assert (c = j1 ∨ c = S j1) as [-> | ->] by lia; [lia|]. specialize (Hm2 Hc). lia.
Qed.

Lemma up_heap fuel h j :
  (j < length h)%nat → (j ≤ fuel)%nat →
  (∀ p c, child p c → (c < length h)%nat → c ≠ j → hv h p ≤ hv h c) →
  (∀ g c, child g j → child j c → (c < length h)%nat → hv h g ≤ hv h c) →
  heap_upto (length h) (up fuel h j).
Proof.
  unfold heap_upto. revert h j.
  induction fuel as [|fuel IH]; intros h j Hj Hf H1 H2; cbn [up].
  { intros p c Hpc Hc. apply H1; [done..|]. unfold child in Hpc. lia. }
  destruct (decide (j = 0)%nat) as [->|Hj0].
  { change ((0 - 1) / 2)%nat with 0%nat. simpl. intros p c Hpc Hc. apply H1; [done..|].
    unfold child in Hpc. lia. }
  pose proof (child_parent j ltac:(lia)) as Hp. unfold child in *.
  set (i := ((j - 1) / 2)%nat) in *.
  destruct (Nat.eqb_spec i j) as [?|Hij]; [lia|]. simpl.
  rewrite Less_hv by lia. destruct (Z.ltb_spec (hv h j) (hv h i)) as [Hlt|Hge]; simpl.
  - rewrite <-(length_Swap h i j). apply IH; rewrite ?length_Swap; [lia|lia|..].
    + intros p c Hpc Hc Hci. swap_cases.
      * pose proof (H1 i c Hpc Hc ltac:(lia)). lia.
      * by apply H2.
      * apply H1; lia.
    + intros g c Hg Hc Hcn. swap_cases.
      * apply H1; lia.
      * pose proof (H1 g i Hg ltac:(lia) ltac:(lia)).
        pose proof (H1 i c Hc ltac:(lia) ltac:(lia)). lia.
  - intros p c Hpc Hc. destruct (decide (c = j)) as [->|]; [|by apply H1].
    assert (p = i) as -> by lia. lia.
Qed.

Definition is_heap (h : list elem) : Prop := heap_upto (length h) h.

Lemma heap_root_min h k : is_heap h → (k < length h)%nat → hv h 0 ≤ hv h k.
Proof.
  intros Hh. induction (lt_wf k) as [k _ IH]. intros Hk.
  destruct (decide (k = 0)%nat) as [->|]; [done|].
  pose proof (child_parent k ltac:(lia)) as Hp.
  assert ((k - 1) / 2 < k)%nat by (unfold child in Hp; lia).
  specialize (IH ((k - 1) / 2)%nat ltac:(lia) ltac:(lia)).
  pose proof (Hh _ _ Hp Hk). lia.
Qed.

Lemma heap_head_min e h x : is_heap (e :: h) → x ∈ e :: h → val e ≤ val x.
Proof.
  intros Hh (k & Hk)%list_elem_of_lookup.
  pose proof (heap_root_min _ k Hh (lookup_lt_Some _ _ _ Hk)) as Hm.
  unfold hv in Hm. rewrite Hk in Hm. done.
Qed.

Lemma heap_Push_spec h x :
  is_heap h → is_heap (heap_Push h x) ∧ heap_Push h x ≡ₚ x :: h.
Proof.
  intros Hh. unfold heap_Push, is_heap.
  rewrite (Permutation_length (up_Permutation _ _ _)). split.
  - assert (∀ k, (k < length h)%nat → hv (h ++ [x]) k = hv h k) as Hv.
    { intros k Hk. unfold hv. by rewrite lookup_app_l. }
    apply up_heap; rewrite ?length_app; simpl; [lia..| |unfold child; lia].
    intros p c Hpc Hc Hne. assert (p < c)%nat by (unfold child in Hpc; lia).
    rewrite !Hv by lia. apply Hh; [done|lia].
  - rewrite up_Permutation. by rewrite Permutation_app_comm.
Qed.

Lemma down_untouched fuel h i n k :
  (n ≤ length h)%nat → (n ≤ k)%nat → (i < n)%nat → down fuel h i n !! k = h !! k.
Proof.
  revert h i. induction fuel as [|fuel IH]; intros h i Hn Hk Hi; cbn [down]; [done|].
  destruct (Nat.leb_spec n (2 * i + 1)); [done|].
  match goal with |- context [if ?b then S ?a else ?a] => set (j := if b then S a else a) end.
  assert (i < j < n)%nat as Hj.
  { unfold j. destruct (Nat.ltb_spec (S (2 * i + 1)) n); simpl; [|lia].
    case_match; lia. }
  case_match; [done|]. rewrite IH by (rewrite ?length_Swap; lia).
  unfold Swap. destruct (h !! i), (h !! j); [|done..].
  by rewrite !list_lookup_insert_ne by lia.
Qed.

Lemma heap_Pop_spec e h :
  is_heap (e :: h) → is_heap (heap_Pop (e :: h)) ∧ heap_Pop (e :: h) ≡ₚ h.
Proof.
  intros Hh. unfold heap_Pop. simpl length. rewrite Nat.sub_succ, Nat.sub_0_r.
  set (n := length h). set (s := Swap (e :: h) 0 n).
  assert (length s = S n) as Hs by (unfold s; by rewrite length_Swap).
  set (r := down n s 0 n).
  assert (r ≡ₚ e :: h) as Hp by (unfold r, s; by rewrite down_Permutation, Swap_Permutation).
  assert (length r = S n) as Hr by (by rewrite Hp).
  assert (r !! n = Some e) as Hlast.
  { assert (s !! n = Some e) as Hsn.
    { unfold s, Swap. destruct h as [|y h']; [done|].
      destruct (lookup_lt_is_Some_2 (e :: y :: h') n) as [b ->]; [subst n; simpl; lia|].
      change ((e :: y :: h') !! 0%nat) with (Some e). cbv beta iota.
      rewrite list_lookup_insert_ne by (subst n; simpl; lia).
      by rewrite list_lookup_insert_eq by (subst n; simpl; lia). }
    unfold r. destruct n as [|n']; [done|].
    by rewrite down_untouched by lia. }
  assert (r = take n r ++ [e]) as Hsplit.
  { rewrite <-(take_S_r _ _ _ Hlast). by rewrite take_ge by lia. }
  split.
  - assert (heap_upto n r) as Hheap.
    { apply down_heap; [lia|lia| |unfold child; lia].
      intros p c Hpc Hc Hp0. assert (p < c)%nat by (unfold child in Hpc; lia).
      unfold s. rewrite !hv_Swap by (simpl; lia).
      rewrite !decide_False by lia. apply Hh; [done|simpl; lia]. }
    unfold is_heap. rewrite length_take_le by lia. intros p c Hpc Hc.
    assert (p < c)%nat by (unfold child in Hpc; lia).
    specialize (Hheap p c Hpc Hc). unfold hv in *.
    by rewrite !lookup_take_lt by lia.
  - apply (Permutation_cons_inv (a := e)). rewrite <-Hp. rewrite Hsplit at 2.
    by rewrite Permutation_app_comm.
Qed.

Lemma heap_Fix0_spec e x h :
  is_heap (e :: h) → is_heap (heap_Fix0 (x :: h)) ∧ heap_Fix0 (x :: h) ≡ₚ x :: h.
Proof.
  intros Hh. unfold heap_Fix0.
  assert (∀ r, up 1 r 0 = r) as -> by (intros r; reflexivity).
  split; [|apply down_Permutation].
  unfold is_heap. rewrite (Permutation_length (down_Permutation _ _ _ _)).
  apply down_heap; [lia|simpl; lia| |unfold child; lia].
  intros p c Hpc Hc Hp0. assert (0 < p < c)%nat by (unfold child in Hpc; lia).
  assert (∀ k, (0 < k)%nat → hv (x :: h) k = hv (e :: h) k) as Hv.
  { intros [|k] Hk; [lia|done]. }
  rewrite !Hv by lia. by apply Hh.
Qed.

(** ** MergeSorted: the initial heap *)
Fixpoint heads (lists : list (list Z)) (i : nat) : list elem :=
  match lists with
  | [] => []
  | l :: lists =>
      match l with [] => [] | x :: _ => [Elem x i] end ++ heads lists (S i)
  end.

Lemma push_heads_spec lists i h :
  is_heap h → is_heap (push_heads lists i h) ∧ push_heads lists i h ≡ₚ heads lists i ++ h.
Proof.
  revert i h. induction lists as [|l lists IH]; intros i h Hh; simpl; [done|].
  destruct l as [|x l]; [by apply IH|].
  destruct (heap_Push_spec h (Elem x i) Hh) as [Hh' Hp].
  destruct (IH (S i) _ Hh') as [Hh'' Hp']. split; [done|].
  rewrite Hp', Hp. simpl. by rewrite <-Permutation_middle.
Qed.

Lemma elem_of_heads lists i e :
  e ∈ heads lists i ↔
  ∃ j l, lists !! j = Some l ∧ l !! 0%nat = Some (val e) ∧ listIdx e = (i + j)%nat.
Proof.
  revert i. induction lists as [|l lists IH]; intros i; simpl.
  { split; [set_solver|]. by intros (? & ? & ? & _). }
  rewrite elem_of_app, IH. split.
  - intros [He|(j & l' & Hj & Hl & Hi)].
    + destruct l as [|x l]; [set_solver|].
      apply list_elem_of_singleton in He as ->. exists 0%nat, (x :: l). simpl.
      by rewrite Nat.add_0_r.
    + exists (S j), l'. split_and!; [done..|lia].
  - intros ([|j] & l' & Hj & Hl & Hi); simpl in Hj; simplify_eq.
    + left. destruct l' as [|x l']; simpl in Hl; simplify_eq. destruct e as [v k]; simpl in *.
      subst. rewrite Nat.add_0_r. by apply list_elem_of_singleton.
    + right. exists j, l'. split_and!; [done..|lia].
Qed.

Lemma heads_NoDup lists i : NoDup (listIdx <$> heads lists i).
Proof.
  revert i. induction lists as [|l lists IH]; intros i; simpl; [constructor|].
  destruct l as [|x l]; [apply IH|]. simpl. constructor; [|apply IH].
  intros (e & Heq & (j & l' & _ & _ & He)%elem_of_heads)%list_elem_of_fmap. lia.
Qed.

(** What is still unread of the list an element stands for. *)
Definition remaining (lists : list (list Z)) (idx : list nat) (e : elem) : nat :=
  match lists !! listIdx e, idx !! listIdx e with
  | Some l, Some p => length l - p
  | _, _ => 0
  end.

Lemma remaining_heads pre lists :
  sum_list_with (remaining (pre ++ lists) (replicate (length (pre ++ lists)) 0%nat))
    (heads lists (length pre)) = length (concat lists).
Proof.
  revert pre. induction lists as [|l lists IH]; intros pre; simpl; [done|].
  rewrite sum_list_with_app, (length_app l (concat lists)).
  specialize (IH (pre ++ [l])). rewrite <-app_assoc in IH. simpl in IH.
  rewrite (length_app pre [l]), Nat.add_1_r in IH. rewrite IH. f_equal. destruct l as [|x l]; simpl; [done|].
  unfold remaining. simpl. rewrite list_lookup_middle by done.
  rewrite lookup_replicate_2 by (rewrite length_app; simpl; lia). simpl. lia.
Qed.

(** ** MergeSorted: the loop *)
Record merge_inv (lists : list (list Z)) (h : list elem) (idx : list nat)
    (output : list Z) (last : Z) : Prop := {
  mi_heap : is_heap h;
  mi_len : length idx = length lists;
  mi_nodup : NoDup (listIdx <$> h);
  mi_elem : ∀ e, e ∈ h → ∃ l p,
    lists !! listIdx e = Some l ∧ idx !! listIdx e = Some p ∧ l !! p = Some (val e);
  mi_done : ∀ j l p x, lists !! j = Some l → idx !! j = Some p → x ∈ l →
    x ∈ output ∨ (j ∈ listIdx <$> h ∧ x ∈ drop p l);
  mi_sound : ∀ x, x ∈ output → ∃ l, l ∈ lists ∧ x ∈ l;
  mi_sorted : StronglySorted Z.lt output;
  mi_le : ∀ x e, x ∈ output → e ∈ h → x ≤ val e;
  mi_last : output = [] ∨ ∃ o, output = o ++ [last];
}.

(** Emitting the root keeps the output sorted, sound and below the heap. *)
Lemma emit_spec lists me h idx output last :
  merge_inv lists (me :: h) idx output last →
  let fresh := bool_decide (output = []) || negb (val me =? last) in
  let output' := if fresh then output ++ [val me] else output in
  let last' := if fresh then val me else last in
  StronglySorted Z.lt output' ∧ val me ∈ output' ∧ (∀ x, x ∈ output → x ∈ output') ∧
  (∀ x, x ∈ output' → ∃ l, l ∈ lists ∧ x ∈ l) ∧
  (∀ x, x ∈ output' → x ≤ val me) ∧ (∃ o, output' = o ++ [last']).
Proof.
  intros Hinv fresh output' last'. unfold output', last', fresh.
  pose proof (λ x Hx, mi_le _ _ _ _ _ Hinv x me Hx ltac:(by left)) as Hle.
  assert (∃ l, l ∈ lists ∧ val me ∈ l) as Hme.
  { destruct (mi_elem _ _ _ _ _ Hinv me ltac:(by left)) as (l & p & Hl & _ & Hp).
    exists l. split; by eapply list_elem_of_lookup_2. }
  pose proof (mi_sound _ _ _ _ _ Hinv) as Hsound.
  pose proof (mi_sorted _ _ _ _ _ Hinv) as Hsort.
  destruct (mi_last _ _ _ _ _ Hinv) as [->|[o Ho]].
  { simpl. split_and!; [repeat constructor|by left|by intros x ?%elem_of_nil| | |by exists []].
    - intros x ->%list_elem_of_singleton. done.
    - intros x ->%list_elem_of_singleton. done. }
  rewrite bool_decide_eq_false_2 by (rewrite Ho; by destruct o). simpl.
  assert (last ∈ output) as Hlast by (rewrite Ho; apply elem_of_snoc; by right).
  destruct (Z.eqb_spec (val me) last) as [Heq|Hne]; simpl.
  { rewrite Heq in Hle |- *. split_and!; [done..|by exists o]. }
  split_and!; [| | | | |by exists output]; try setoid_rewrite elem_of_snoc; eauto.
  - apply StronglySorted_app. split_and!; [|done|repeat constructor].
    intros x y Hx ->%list_elem_of_singleton. specialize (Hle _ Hlast).
    assert (x ≤ last); [|lia]. rewrite Ho in Hx, Hsort.
    apply elem_of_snoc in Hx as [Hx| ->]; [|done].
    apply StronglySorted_app in Hsort as (Hlt & _).
    specialize (Hlt x last Hx ltac:(by left)). lia.
  - intros x [Hx| ->]; auto.
  - intros x [Hx| ->]; [auto|done].
Qed.

(** One round of the loop, on either branch, re-establishes the invariant and
    leaves one element less to read. *)
Lemma merge_inv_pop lists me h idx output last l p output' last' :
  merge_inv lists (me :: h) idx output last →
  lists !! listIdx me = Some l → idx !! listIdx me = Some p → (length l - 1 ≤ p)%nat →
  StronglySorted Z.lt output' → val me ∈ output' → (∀ x, x ∈ output → x ∈ output') →
  (∀ x, x ∈ output' → ∃ l, l ∈ lists ∧ x ∈ l) →
  (∀ x, x ∈ output' → x ≤ val me) → (∃ o, output' = o ++ [last']) →
  merge_inv lists (heap_Pop (me :: h)) idx output' last'.
Proof.
  intros Hinv Hl Hp Hlen Hs Hme Hsub Hsound Hle Hlast.
  destruct (heap_Pop_spec me h (mi_heap _ _ _ _ _ Hinv)) as [Hheap Hperm].
  destruct (mi_elem _ _ _ _ _ Hinv me ltac:(by left)) as (l' & p' & Hl' & Hp' & Hv).
  simplify_eq. pose proof (lookup_lt_Some _ _ _ Hv).
  split; [done|apply Hinv|..|done|done| |by right].
  - rewrite Hperm. by pose proof (mi_nodup _ _ _ _ _ Hinv) as [_ ?]%NoDup_cons.
  - intros e He. rewrite Hperm in He. apply Hinv. by right.
  - intros j k q x Hj Hq Hx. destruct (mi_done _ _ _ _ _ Hinv j k q x) as [|[Hjh Hd]]; [done..|auto|].
    rewrite Hperm. apply elem_of_cons in Hjh as [->|Hjh]; [|by right]. left. simplify_eq.
    rewrite (drop_S _ _ _ Hv), drop_ge in Hd by lia.
    by apply list_elem_of_singleton in Hd as ->.
  - intros x e Hx He. rewrite Hperm in He. specialize (Hle x Hx).
    pose proof (heap_head_min me h e (mi_heap _ _ _ _ _ Hinv) ltac:(by right)). lia.
Qed.

Lemma merge_inv_fix lists me h idx output last l p v output' last' :
  Forall (StronglySorted Z.le) lists →
  merge_inv lists (me :: h) idx output last →
  lists !! listIdx me = Some l → idx !! listIdx me = Some p → l !! S p = Some v →
  StronglySorted Z.lt output' → val me ∈ output' → (∀ x, x ∈ output → x ∈ output') →
  (∀ x, x ∈ output' → ∃ l, l ∈ lists ∧ x ∈ l) →
  (∀ x, x ∈ output' → x ≤ val me) → (∃ o, output' = o ++ [last']) →
  merge_inv lists (heap_Fix0 (Elem v (listIdx me) :: h)) (<[listIdx me := S p]> idx) output' last'.
Proof.
  intros Hall Hinv Hl Hp Hv Hs Hme Hsub Hsound Hle Hlast.
  destruct (heap_Fix0_spec me (Elem v (listIdx me)) h (mi_heap _ _ _ _ _ Hinv)) as [Hheap Hperm].
  destruct (mi_elem _ _ _ _ _ Hinv me ltac:(by left)) as (l' & p' & Hl' & Hp' & Hvm).
  simplify_eq. pose proof (mi_nodup _ _ _ _ _ Hinv) as Hnd. simpl in Hnd.
  apply NoDup_cons in Hnd as [Hnin Hnd].
  assert (val me ≤ v) as Hmv.
  { assert (StronglySorted Z.le l) as Hsl.
    { rewrite Forall_forall in Hall. apply Hall. by eapply list_elem_of_lookup_2. }
    rewrite <-(take_drop p l), (drop_S _ _ _ Hvm) in Hsl.
    apply StronglySorted_app_1_r, StronglySorted_cons in Hsl as [HF _].
    rewrite Forall_forall in HF. apply HF. apply list_elem_of_lookup. exists 0%nat.
    by rewrite lookup_drop, Nat.add_0_r. }
  split; [done|by rewrite length_insert, (mi_len _ _ _ _ _ Hinv)|..|done|done| |by right].
  - rewrite Hperm. simpl. by constructor.
  - intros e He. rewrite Hperm in He. apply elem_of_cons in He as [->|He]; simpl.
    + exists l, (S p). split_and!; [done| |done].
      apply list_lookup_insert_eq. by eapply lookup_lt_Some.
    + destruct (mi_elem _ _ _ _ _ Hinv e ltac:(by right)) as (k & q & ? & ? & ?).
      exists k, q. rewrite list_lookup_insert_ne; [done|].
      intros Heq. apply Hnin. rewrite Heq. by apply list_elem_of_fmap_2.
  - intros j k q x Hj Hq Hx. rewrite Hperm. simpl.
    destruct (decide (listIdx me = j)) as [<-|Hne].
    + rewrite list_lookup_insert_eq in Hq by (by eapply lookup_lt_Some). simplify_eq.
      destruct (mi_done _ _ _ _ _ Hinv (listIdx me) l p x) as [|[_ Hd]]; [done..|auto|].
      rewrite (drop_S _ _ _ Hvm) in Hd. apply elem_of_cons in Hd as [->|Hd]; [auto|].
      right. split; [by left|done].
    + rewrite list_lookup_insert_ne in Hq by done.
      destruct (mi_done _ _ _ _ _ Hinv j k q x) as [|[Hjh Hd]]; [done..|auto|].
      right. split; [|done]. simpl in Hjh. apply elem_of_cons in Hjh as [->|]; [done|by right].
  - intros x e Hx He. rewrite Hperm in He. specialize (Hle x Hx).
    apply elem_of_cons in He as [->|He]; simpl; [lia|].
    pose proof (heap_head_min me h e (mi_heap _ _ _ _ _ Hinv) ltac:(by right)). lia.
Qed.

Lemma merge_loop_spec fuel lists h idx output last :
  Forall (StronglySorted Z.le) lists →
  merge_inv lists h idx output last →
  (sum_list_with (remaining lists idx) h ≤ fuel)%nat →
  ∃ out, merge_loop fuel lists h idx output last = Ok out ∧
    StronglySorted Z.lt out ∧ ∀ x, x ∈ out ↔ ∃ l, l ∈ lists ∧ x ∈ l.
Proof.
  intros Hall. revert h idx output last.
  induction fuel as [|fuel IH]; intros h idx output last Hinv Hf;
    destruct h as [|me h]; cbn [merge_loop].
  1,3: exists output; split; [done|]; split; [apply Hinv|]; intros x; split;
    [apply Hinv|]; intros (l & (j & Hj)%list_elem_of_lookup & Hx);
    destruct (lookup_lt_is_Some_2 idx j) as [p Hp];
      [rewrite (mi_len _ _ _ _ _ Hinv); by eapply lookup_lt_Some|];
    destruct (mi_done _ _ _ _ _ Hinv j l p x) as [|[?%elem_of_nil _]]; done.
  all: destruct (mi_elem _ _ _ _ _ Hinv me ltac:(by left)) as (l & p & Hl & Hp & Hv);
    pose proof (lookup_lt_Some _ _ _ Hv).
  { simpl in Hf. unfold remaining at 1 in Hf. rewrite Hl, Hp in Hf. lia. }
  destruct (emit_spec _ _ _ _ _ _ Hinv) as (Hs & Hme & Hsub & Hsound & Hle & Hlast).
  unfold index. rewrite Hl, Hp. simpl. simpl in Hf.
  unfold remaining at 1 in Hf. rewrite Hl, Hp in Hf.
  destruct (Nat.leb_spec (length l - 1) p).
  - apply IH; [by eapply merge_inv_pop|].
    destruct (heap_Pop_spec me h (mi_heap _ _ _ _ _ Hinv)) as [_ Hperm]. rewrite Hperm. lia.
  - destruct (lookup_lt_is_Some_2 l (S p)) as [v Hv']; [lia|]. rewrite Hv'. simpl.
    apply IH; [by eapply merge_inv_fix|].
    destruct (heap_Fix0_spec me (Elem v (listIdx me)) h (mi_heap _ _ _ _ _ Hinv)) as [_ Hperm].
    rewrite Hperm. simpl. unfold remaining at 1. simpl.
    rewrite Hl, list_lookup_insert_eq by (by eapply lookup_lt_Some).
    assert (sum_list_with (remaining lists (<[listIdx me:=S p]> idx)) h =
            sum_list_with (remaining lists idx) h) as ->; [|lia].
    pose proof (mi_nodup _ _ _ _ _ Hinv) as [Hnin _]%NoDup_cons. clear - Hnin.
    induction h as [|e h IH]; simpl; [done|]. simpl in Hnin.
    apply not_elem_of_cons in Hnin as [Hne Hnin]. rewrite IH by done. f_equal.
    unfold remaining. by rewrite list_lookup_insert_ne.
Qed.

Lemma MergeSorted_spec lists :
  Forall (StronglySorted Z.le) lists →
  ∃ out, MergeSorted lists = Ok out ∧ StronglySorted Z.lt out ∧
    ∀ x, x ∈ out ↔ ∃ l, l ∈ lists ∧ x ∈ l.
Proof.
  intros Hall. unfold MergeSorted. destruct lists as [|l0 rest] eqn:Hl.
  { exists []. split; [done|]. split; [constructor|]. intros x. split; [set_solver|].
    intros (l & ?%elem_of_nil & _). done. }
  rewrite <-Hl in *.
  destruct (push_heads_spec lists 0 []) as [Hheap Hperm].
  { intros p c _ Hc. simpl in Hc. lia. }
  rewrite app_nil_r in Hperm.
  apply merge_loop_spec; [done| |].
  - split; [done|by rewrite length_replicate|..|by intros x ?%elem_of_nil|constructor| |by left].
    + rewrite Hperm. apply heads_NoDup.
    + intros e He. rewrite Hperm in He.
      apply elem_of_heads in He as (j & l & Hj & Hv & ->). exists l, 0%nat. simpl.
      rewrite lookup_replicate_2 by (by eapply lookup_lt_Some). done.
    + intros j l p x Hj Hp Hx. apply lookup_replicate in Hp as [-> _]. right. split; [|done].
      destruct l as [|y l]; [by apply elem_of_nil in Hx|].
      rewrite Hperm. apply list_elem_of_fmap. exists (Elem y j). split; [done|].
      apply elem_of_heads. by exists j, (y :: l).
    + by intros x e ?%elem_of_nil.
  - rewrite Hperm. pose proof (remaining_heads [] lists) as Hr. simpl in Hr.
    rewrite Hr. done.
Qed.

Lemma IndexOf_spec u uid :
  StronglySorted Z.lt u →
  (0 ≤ IndexOf u uid → u !! Z.to_nat (IndexOf u uid) = Some uid) ∧
  (uid ∈ u → 0 ≤ IndexOf u uid < Z.of_nat (length u)) ∧
  (uid ∉ u → IndexOf u uid = -1).
Proof.
  intros Hs. unfold IndexOf.
  assert (ksorted id u) as Hk by (unfold ksorted; by rewrite list_fmap_id).
  destruct (ksearch_spec id (λ x, uid <=? x) u) as (Hle & Hlo & Hhi); [lia|done|].
  set (i := ksearch id (λ x, uid <=? x) u) in *.
  assert (uid ∈ u → u !! i = Some uid) as Hfound.
  { intros Hin. rewrite <-(take_drop i u) in Hin. rewrite Forall_forall in Hlo, Hhi.
    apply elem_of_app in Hin as [Hin|Hin]; [specialize (Hlo _ Hin); simpl in Hlo; lia|].
    rewrite <-(take_drop i u) in Hk. apply ksorted_app in Hk as (_ & Hk & _).
    destruct (drop i u) as [|y d] eqn:Hd; [by apply elem_of_nil in Hin|].
    assert (u !! i = Some y) as Hy.
    { by rewrite <-(Nat.add_0_r i), <-lookup_drop, Hd. }
    specialize (Hhi y ltac:(by left)). simpl in Hhi.
    apply ksorted_cons in Hk as [_ Hk]. apply elem_of_cons in Hin as [->|Hin]; [done|].
    specialize (Hk _ Hin). simpl in Hk. lia. }
  case_bool_decide as Hb.
  - split_and!.
    + intros _. by rewrite Nat2Z.id.
    + intros _. apply lookup_lt_Some in Hb. lia.
    + intros Hn. exfalso. apply Hn. by eapply list_elem_of_lookup_2.
  - split_and!; [lia| |done]. intros Hin. exfalso. auto.
Qed.

(** ** Properties *)

(** The reference for [MergeSorted]: the elements of the union, sorted. *)
Definition sorted_union (lists : list (list Z)) : list Z :=
  merge_sort Z.le (elements (list_to_set (concat lists) : gset Z)).

(** C22: merging sorted UID lists through the heap terminates without running
    out of rounds or indexing outside a slice, and yields exactly the sorted,
    duplicate-free union of the inputs (which may themselves hold repeats). *)
Theorem MergeSorted_is_sorted_union lists :
  Forall (StronglySorted Z.le) lists → MergeSorted lists = Ok (sorted_union lists).
Proof.
  intros Hall. destruct (MergeSorted_spec lists Hall) as (out & -> & Hs & Hx). f_equal.
  apply ssorted_lt_ext; [done| |].
  - apply ssorted_le_lt; [apply StronglySorted_merge_sort; apply _|].
    unfold sorted_union. rewrite merge_sort_Permutation. apply NoDup_elements.
  - intros x. rewrite Hx. unfold sorted_union. rewrite merge_sort_Permutation.
    rewrite elem_of_elements, elem_of_list_to_set. rewrite !list_elem_of_In, in_concat.
    by setoid_rewrite list_elem_of_In.
Qed.

Lemma MergeSorted_is_sorted_union_witness :
  MergeSorted [[1; 5; 5; 9]; []; [2; 5]; [9; 12]] = Ok (sorted_union [[1; 5; 5; 9]; []; [2; 5]; [9; 12]]) ∧
  sorted_union [[1; 5; 5; 9]; []; [2; 5]; [9; 12]] = [1; 2; 5; 9; 12].
Proof.
  split; [|vm_compute; reflexivity].
  apply (MergeSorted_is_sorted_union [[1; 5; 5; 9]; []; [2; 5]; [9; 12]]). by_decide.
Defined.

(** C23: intersecting a non-empty collection of strictly sorted UID lists returns
    the elements of the first list that every list has, in order, whatever list
    the scan chose as the shortest. *)
Theorem IntersectSorted_is_intersection l0 rest :
  Forall (StronglySorted Z.lt) (l0 :: rest) →
  IntersectSorted (l0 :: rest) = Ok (filter (λ x, Forall (λ l, x ∈ l) rest) l0).
Proof.
  intros Hall. destruct (IntersectSorted_spec (l0 :: rest)) as (out & -> & Hs & Hx); [done..|].
  f_equal. apply ssorted_lt_ext; [done|by apply ssorted_filter, (Forall_cons_1 _ _ _ Hall)|].
  intros x. rewrite Hx, list_elem_of_filter, Forall_forall. split.
  - intros H. split; [|apply H; by left]. intros l Hl. apply H. by right.
  - intros [H H0] l [->|Hl]%elem_of_cons; auto.
Qed.

Lemma IntersectSorted_is_intersection_witness :
  IntersectSorted [[1; 2; 3; 5; 8]; [2; 5; 9]; [1; 2; 4; 5; 9; 10]] = Ok [2; 5].
Proof.
  rewrite (IntersectSorted_is_intersection [1; 2; 3; 5; 8] [[2; 5; 9]; [1; 2; 4; 5; 9; 10]]).
  - vm_compute; reflexivity.
  - by_decide.
Defined.

(** the in-place routines compute what a copy would: writing the kept
    elements into the slice being read never disturbs the unread part. *)
Theorem inplace_filters_agree_with_copies u v f :
  StronglySorted Z.le u → StronglySorted Z.le v →
  IntersectWith u v = Ok (filter (.∈ v) u) ∧
  ApplyFilter u f = Ok (mjoin (imap (λ i x, if f x i then [x] else []) u)).
Proof. intros Hu Hv. split; [by apply IntersectWith_spec|apply ApplyFilter_spec]. Qed.

Lemma inplace_filters_agree_with_copies_witness :
  IntersectWith [1; 3; 3; 7; 9] [3; 4; 9] = Ok [3; 3; 9] ∧
  ApplyFilter [1; 3; 3; 7; 9] (λ x i, Nat.even i) = Ok [1; 3; 9].
Proof.
  apply (inplace_filters_agree_with_copies [1; 3; 3; 7; 9] [3; 4; 9] (λ x i, Nat.even i));
    by_decide.
Defined.

(** The binary search finds a UID exactly when the sorted list has it, at
    its index, and answers [-1] otherwise. *)
Theorem IndexOf_correct u uid :
  StronglySorted Z.lt u →
  (0 ≤ IndexOf u uid → u !! Z.to_nat (IndexOf u uid) = Some uid) ∧
  (uid ∈ u → 0 ≤ IndexOf u uid < Z.of_nat (length u)) ∧
  (uid ∉ u → IndexOf u uid = -1).
Proof. apply IndexOf_spec. Qed.

Lemma IndexOf_correct_witness :
  [3; 8; 13; 21] !! Z.to_nat (IndexOf [3; 8; 13; 21] 13) = Some 13.
Proof.
  destruct (IndexOf_correct [3; 8; 13; 21] 13) as (H & _); [by_decide|].
  apply H. vm_compute. discriminate.
Defined.

End algo.
