(* ===== verification/Keys.v ===== *)
(** The keys of the store: posting-list keys ([posting/list.go]: [Key],
    [SplitKey], [debugKey]) and index keys ([types/index.go]: [IndexKey],
    [TokenFromKey]). *)
From S2P Require Import Prelude Bytes.
From stdpp Require Import options.
#[local] Open Scope Z_scope.

Module posting_key.

Definition pipe : byte := x7c.

(** [for i, ch := range attr { buf[i] = byte(ch) }]. *)
Fixpoint store_runes (rs : list (nat * Z)) (buf : list byte) : list byte :=
  match rs with
  | [] => buf
  | (i, ch) :: rs => store_runes rs (<[i := byte_of_Z ch]> buf)
  end.

Definition Key (uid : Z) (attr : list byte) : list byte :=
  let buf := replicate (length attr + 9) x00 in
  let buf := store_runes (range_string attr) buf in
  let buf := <[length attr := pipe]> buf in
  go_copy buf (length attr + 1) (PutUint64_BE uid).

Definition SplitKey (key : list byte) : res (list byte * Z) :=
  let sKeys := Split pipe key in
  assert_true (length sKeys =? 2)%nat "Assert failed";;
  b ← index sKeys 0;
  rest ← index sKeys 1;
  uid ← Uint64_BE rest;
  mret (b, uid).

(** [strconv.FormatUint(uid, 16)]; sixteen digits hold any uint64. *)
Definition hex_digit (d : Z) : byte :=
  if d <? 10 then byte_of_Z (48 + d) else byte_of_Z (87 + d).

Fixpoint hex_loop (fuel : nat) (v : Z) (acc : list byte) : list byte :=
  match fuel with
  | O => acc
  | S fuel =>
      let acc := hex_digit (v mod 16) :: acc in
      if v / 16 =? 0 then acc else hex_loop fuel (v / 16) acc
  end.

Definition FormatUint16 (v : Z) : list byte := hex_loop 16 v [].

(** The loop of [debugKey]: the printed prefix and what follows the first
    ['|'], nil when there is none. *)
Fixpoint debugKey_loop (b key : list byte) : list byte * list byte :=
  match key with
  | [] => (b, [])
  | ch :: key =>
      if decide (ch = pipe) then (b ++ bs ":", key) else debugKey_loop (b ++ [ch]) key
  end.

Definition debugKey (key : list byte) : res (list byte) :=
  let '(b, rest) := debugKey_loop [] key in
  uid ← Uint64_BE rest;
  mret (b ++ FormatUint16 uid).

(** *** Lemmas *)

Lemma store_runes_app rs1 rs2 buf :
  store_runes (rs1 ++ rs2) buf = store_runes rs2 (store_runes rs1 buf).
Proof. revert buf. induction rs1 as [|[i ch] rs1 IH]; intros buf; simpl; auto. Qed.

Lemma store_runes_bytes attr pre tl :
  store_runes (imap (λ j b, ((length pre + j)%nat, byte_to_Z b)) attr)
    (pre ++ replicate (length attr) x00 ++ tl) = pre ++ attr ++ tl.
Proof.
  revert pre. induction attr as [|b attr IH]; intros pre; [done|].
  rewrite imap_cons. simpl. rewrite Nat.add_0_r, byte_of_to_Z.
  rewrite insert_app_r_alt, Nat.sub_diag by lia. simpl.
  change (b :: ?x) with ([b] ++ x). rewrite !(assoc_L (++) pre [b]).
  rewrite <-IH. f_equal. apply imap_ext. intros. simpl. f_equal. rewrite length_app. simpl. lia.
Qed.

(** For a predicate in ASCII the key is the documented [attribute|uid]. *)
Lemma Key_ascii uid attr :
  is_ascii attr → Key uid attr = attr ++ pipe :: PutUint64_BE uid.
Proof.
  intros Ha. unfold Key. rewrite range_string_ascii by done.
  rewrite replicate_add.
  assert (store_runes (imap (λ j b, (j, byte_to_Z b)) attr)
    (replicate (length attr) x00 ++ replicate 9 x00) = attr ++ replicate 9 x00) as ->
    by apply (store_runes_bytes attr []).
  rewrite insert_app_r_alt, Nat.sub_diag by lia.
  unfold go_copy.
  assert (length (PutUint64_BE uid) = 8%nat) as Hl by apply length_be_put.
  rewrite take_app_add, drop_ge by (rewrite length_app, Hl; simpl; lia).
  rewrite length_app. simpl. rewrite app_nil_r, take_ge by lia.
  by rewrite <-(assoc_L (++)).
Qed.

Lemma SplitKey_app attr rest :
  pipe ∉ attr →
  SplitKey (attr ++ pipe :: rest) =
    if decide (pipe ∈ rest) then Crash "Assert failed"
    else uid ← Uint64_BE rest; Ok (attr, uid).
Proof.
  intros Ha. unfold SplitKey. rewrite Split_app by done.
  case_decide as Hr; [|by rewrite Split_no_sep].
  simpl. rewrite length_Split. destruct (filter (λ b, b = pipe) rest) as [|y ys] eqn:Hf; [|done].
  exfalso. assert (pipe ∈ filter (λ b, b = pipe) rest) as Hin by by apply list_elem_of_filter.
  rewrite Hf in Hin. by apply elem_of_nil in Hin.
Qed.

(** C24: Splitting the key of an ASCII predicate without ['|'] gives the
    predicate and the uid back, except that the process dies on the assertion
    exactly when one of the eight bytes of the uid is the separator itself. *)
Theorem SplitKey_Key uid attr :
  is_u64 uid → is_ascii attr → pipe ∉ attr →
  SplitKey (Key uid attr) =
    if decide (pipe ∈ PutUint64_BE uid) then Crash "Assert failed" else Ok (attr, uid).
Proof.
  intros Hu Ha Hp. rewrite Key_ascii, SplitKey_app by done. case_decide; [done|].
  by rewrite <-(app_nil_r (PutUint64_BE uid)), Uint64_PutUint64.
Qed.

Lemma SplitKey_Key_witness :
  SplitKey (Key 0x1234 (bs "friend")) = Ok (bs "friend", 0x1234)
  ∧ SplitKey (Key 0x7c (bs "friend")) = Crash "Assert failed".
Proof.
  split.
  - rewrite SplitKey_Key; [reflexivity|by_decide..].
  - rewrite SplitKey_Key; [reflexivity|by_decide..].
Defined.

(** Two distinct (uid, predicate) pairs never share a posting-list key when
    the predicates are ASCII and contain no ['|']. *)
Theorem Key_injective uid1 attr1 uid2 attr2 :
  is_u64 uid1 → is_u64 uid2 → is_ascii attr1 → is_ascii attr2 →
  pipe ∉ attr1 → pipe ∉ attr2 →
  Key uid1 attr1 = Key uid2 attr2 → attr1 = attr2 ∧ uid1 = uid2.
Proof.
  intros Hu1 Hu2 Ha1 Ha2 Hp1 Hp2. rewrite !Key_ascii by done. intros HK.
  pose proof (f_equal (IndexByte pipe) HK) as Hi. rewrite !IndexByte_app in Hi by done.
  apply app_inj_1 in HK as [-> HK]; [|lia]. split; [done|].
  apply (f_equal tail) in HK. unfold is_u64, MaxUint64 in *.
  eapply (be_put_inj 8); [simpl; lia..|done].
Qed.

Lemma Key_injective_witness :
  Key 1 (bs "name") = Key 1 (bs "name") ∧ bs "name" = bs "name" ∧ (1 : Z) = 1.
Proof.
  split; [reflexivity|].
  apply (Key_injective 1 (bs "name") 1 (bs "name")); [by_decide..|reflexivity].
Defined.

(** [Key] stores the low byte of each rune of the predicate at the rune's
    offset, so distinct non-ASCII predicates share every posting-list key. *)
Theorem Key_collides_outside_ascii :
  ∃ attr1 attr2, attr1 ≠ attr2 ∧ ∀ uid, Key uid attr1 = Key uid attr2.
Proof. by exists [xc3; xa9], [xc7; xa9]. Qed.

End posting_key.

Module index_key.

Definition indexRune : byte := x3a.

Definition IndexKey (attr term : list byte) : list byte :=
  let buf := replicate (length attr + length term + 1) x00 in
  let buf := go_copy buf 0 attr in
  let buf := <[length attr := indexRune]> buf in
  go_copy buf (length attr + 1) term.

Definition TokenFromKey (key : list byte) : res (list byte) :=
  let i := IndexByte indexRune key in
  assert_true (0 <=? i) "Assert failed";;
  slice key (i + 1) (Z.of_nat (length key)).

Lemma IndexKey_app attr term : IndexKey attr term = attr ++ indexRune :: term.
Proof.
  unfold IndexKey, go_copy. simpl.
  rewrite length_replicate, Nat.sub_0_r, (take_ge attr) by lia.
  rewrite drop_replicate, insert_app_r_alt, Nat.sub_diag by lia.
  replace (length attr + length term + 1 - length attr)%nat with (S (length term)) by lia.
  simpl. rewrite take_app_add, drop_ge by (rewrite length_app; simpl; rewrite length_replicate; lia).
  rewrite length_app. simpl. rewrite length_replicate, app_nil_r, take_0, take_ge by lia.
  by rewrite <-(assoc_L (++)).
Qed.

Lemma TokenFromKey_IndexKey attr term :
  indexRune ∉ attr → TokenFromKey (IndexKey attr term) = Ok term.
Proof.
  intros Ha. unfold TokenFromKey. rewrite IndexKey_app, IndexByte_app by done.
  destruct (Z.leb_spec 0 (Z.of_nat (length attr))); [|lia]. simpl.
  unfold slice. rewrite length_app. simpl.
  rewrite (proj2 (Z.leb_le 0 _)), (proj2 (Z.leb_le (_ + 1) _)), Z.leb_refl by lia. simpl.
  replace (Z.to_nat (Z.of_nat (length attr) + 1)) with (length attr + 1)%nat by lia.
  rewrite drop_app_add, take_ge by (simpl; rewrite ?drop_0; lia). done.
Qed.

End index_key.
