(* ===== verification/Store.v ===== *)
(** The key-value store ([store/store.go] over RocksDB).

    RocksDB is not part of the sources: [KVStore] is the interface of
    [store.Store] as the other components use it, [KVSpec] the documented
    behaviour they rely on (a map from byte strings to byte strings, iterated
    in the order of [bytes.Compare]), and [memstore] a finite-map instance that
    shows the interface can be implemented and makes the clients executable. *)
From S2P Require Import Prelude Bytes.
From stdpp Require Import options.
#[local] Open Scope Z_scope.
#[local] Set Default Proof Using "Type*".

(** One entry of a [rdb.WriteBatch]. *)
Inductive batch_op : Type :=
| BPut (k v : list byte)
| BDelete (k : list byte).

(** [Get] answers the empty slice for an absent key, like [store.Get]; it and
    the writers can fail with an I/O error. [kv_scan s k] is what an iterator
    positioned by [Seek(k)] yields up to the end of the store. *)
Class KVStore (St : Type) := {
  kv_get : St → list byte → res (list byte);
  kv_set : St → list byte → list byte → res St;
  kv_delete : St → list byte → res St;
  kv_write : St → list batch_op → res St;
  kv_scan : St → list byte → list (list byte * list byte);
}.

Definition batch_view (b : list batch_op) (m : gmap (list byte) (list byte)) :
    gmap (list byte) (list byte) :=
  fold_left (λ m o, match o with BPut k v => <[k := v]> m | BDelete k => delete k m end) b m.

(** A store that works: the view is the map it holds. *)
Class KVSpec (St : Type) `{KVStore St} (view : St → gmap (list byte) (list byte)) := {
  kv_get_view s k : kv_get s k = Ok (default [] (view s !! k));
  kv_set_view s k v : ∃ s', kv_set s k v = Ok s' ∧ view s' = <[k := v]> (view s);
  kv_delete_view s k : ∃ s', kv_delete s k = Ok s' ∧ view s' = delete k (view s);
  kv_write_view s b : ∃ s', kv_write s b = Ok s' ∧ view s' = batch_view b (view s);
  kv_scan_sorted s k : StronglySorted bytes_lt (kv_scan s k).*1;
  kv_scan_view s k kv : kv ∈ kv_scan s k ↔ view s !! kv.1 = Some kv.2 ∧ bytes_le k kv.1;
}.

(** [for it.Seek(k); it.ValidForPrefix(prefix); it.Next()]. *)
Fixpoint while_prefix (prefix : list byte) (l : list (list byte * list byte)) :
    list (list byte * list byte) :=
  match l with
  | [] => []
  | kv :: l => if HasPrefix kv.1 prefix then kv :: while_prefix prefix l else []
  end.

Definition scan_prefix {St} `{KVStore St} (s : St) (start prefix : list byte) :=
  while_prefix prefix (kv_scan s start).

(** ** Keys with a common prefix are contiguous *)

Lemma prefix_convex p a b c :
  HasPrefix a p = true → HasPrefix c p = true → bytes_le a b → bytes_le b c →
  HasPrefix b p = true.
Proof.
  unfold bytes_le. revert a b c. induction p as [|x p IH]; intros a b c; [done|].
  destruct a as [|a0 a]; [done|]. destruct c as [|c0 c]; [done|]. simpl.
  rewrite !andb_true_iff, !bool_decide_eq_true. intros [-> Ha] [-> Hc].
  destruct b as [|b0 b]; simpl; [done|].
  destruct (Z.compare_spec (byte_to_Z x) (byte_to_Z b0)) as [Hb| |]; try done.
  - apply (inj byte_to_Z) in Hb as <-. rewrite Z.compare_refl. intros Hab Hbc.
    rewrite andb_true_iff, bool_decide_eq_true. split; [done|]. by eapply (IH a b c).
  - rewrite (proj2 (Z.compare_gt_iff _ _)) by done. done.
Qed.

Lemma bytes_le_prefix p t : bytes_le p (p ++ t).
Proof.
  unfold bytes_le. rewrite <-(app_nil_r p) at 1. rewrite bytes_compare_app. by destruct t.
Qed.

Lemma bytes_le_trans a b c : bytes_le a b → bytes_le b c → bytes_le a c.
Proof.
  rewrite !bytes_le_lteq. intros [?| ->] [?| ->]; eauto using bytes_lt_trans.
Qed.

Lemma while_prefix_elem p l kv :
  StronglySorted bytes_lt l.*1 →
  Forall (λ kv, bytes_le p kv.1) l →
  kv ∈ while_prefix p l ↔ kv ∈ l ∧ HasPrefix kv.1 p = true.
Proof.
  induction l as [|[k v] l IH]; intros Hs Hp; simpl.
  { rewrite elem_of_nil. tauto. }
  apply StronglySorted_cons in Hs as [Hk Hs]. apply Forall_cons in Hp as [Hpk Hp].
  destruct (HasPrefix k p) eqn:Hkp.
  - rewrite !elem_of_cons, IH by done. split; [intros [->|[? ?]]; auto|intros [[->|?] ?]; auto].
  - rewrite elem_of_nil, elem_of_cons. split; [done|]. intros [[->|Hin] Hkv]; [simpl in *; congruence|].
    enough (HasPrefix k p = true) by congruence.
    apply (prefix_convex p p k kv.1); [|done|done|].
    + apply HasPrefix_spec. exists []. by rewrite app_nil_r.
    + apply bytes_le_lteq. left. rewrite Forall_forall in Hk. apply Hk.
      by apply (list_elem_of_fmap_2 fst).
Qed.

Lemma while_prefix_sublist p l : sublist (while_prefix p l) l.
Proof.
  induction l as [|kv l IH]; simpl; [constructor|].
  destruct (HasPrefix kv.1 p); [by apply sublist_skip|apply sublist_nil_l].
Qed.

Lemma ssorted_sublist {A} (R : relation A) (l1 l2 : list A) :
  sublist l1 l2 → StronglySorted R l2 → StronglySorted R l1.
Proof.
  induction 1 as [|x l1 l2 Hsub IH|x l1 l2 Hsub IH]; intros Hs; [done| |].
  - apply StronglySorted_cons in Hs as [Hx Hs]. apply StronglySorted_cons. split; [|auto].
    rewrite Forall_forall in Hx |- *. intros y Hy. apply Hx. by apply (elem_of_submseteq l1), sublist_submseteq.
  - apply StronglySorted_cons in Hs as [_ Hs]. auto.
Qed.

Section scan.
Context {St} `{KVSpec St view}.

(** A prefix scan from a key at or above the prefix sees exactly the bindings
    with the prefix, in key order. *)
Lemma scan_prefix_elem s start p kv :
  bytes_le p start →
  kv ∈ scan_prefix s start p ↔
  view s !! kv.1 = Some kv.2 ∧ bytes_le start kv.1 ∧ HasPrefix kv.1 p = true.
Proof.
  intros Hp. unfold scan_prefix. rewrite while_prefix_elem.
  - rewrite kv_scan_view. tauto.
  - apply kv_scan_sorted.
  - apply Forall_forall. intros x [_ Hx]%kv_scan_view. by eapply bytes_le_trans.
Qed.

Lemma scan_prefix_sorted s start p : StronglySorted bytes_lt (scan_prefix s start p).*1.
Proof.
  apply (ssorted_sublist _ _ (kv_scan s start).*1); [|apply kv_scan_sorted].
  apply fmap_sublist, while_prefix_sublist.
Qed.
End scan.

(** ** A store in memory *)
Definition memstore : Type := gmap (list byte) (list byte).

Definition key_le (a b : list byte * list byte) : Prop := bytes_le a.1 b.1.
#[export] Instance key_le_dec a b : Decision (key_le a b) := bytes_le_dec a.1 b.1.

#[export] Instance mem_kv : KVStore memstore := {|
  kv_get s k := Ok (default [] (s !! k));
  kv_set s k v := Ok (<[k := v]> s);
  kv_delete s k := Ok (delete k s);
  kv_write s b := Ok (batch_view b s);
  kv_scan s k := filter (λ kv, bytes_le k kv.1) (merge_sort key_le (map_to_list s));
|}.

Lemma key_le_sorted_lt (l : list (list byte * list byte)) :
  StronglySorted key_le l → NoDup l.*1 → StronglySorted bytes_lt l.*1.
Proof.
  induction 1 as [|x l _ IH HF]; intros Hnd; [constructor|].
  apply NoDup_cons in Hnd as [Hx Hnd]. simpl. apply StronglySorted_cons. split; [|auto].
  apply Forall_forall. intros k Hk. pose proof Hk as Hk'.
  apply list_elem_of_fmap in Hk as (y & -> & Hy). rewrite Forall_forall in HF.
  destruct (proj1 (bytes_le_lteq _ _) (HF y Hy)) as [|Heq]; [done|]. by rewrite Heq in Hx.
Qed.

#[export] Instance mem_kv_spec : KVSpec memstore (λ s, s).
Proof.
  assert (Total key_le).
  { intros a b. unfold key_le. rewrite !bytes_le_lteq.
    destruct (bytes_lt_trichotomy a.1 b.1) as [?|[?|?]]; auto. }
  assert (Transitive key_le) by (intros a b c; apply bytes_le_trans).
  split; try (intros; eexists; split; reflexivity).
  - intros s k. simpl. eapply (ssorted_sublist _ _ (merge_sort key_le (map_to_list s)).*1).
    + apply fmap_sublist, sublist_filter.
    + apply key_le_sorted_lt; [by apply StronglySorted_merge_sort|].
      rewrite merge_sort_Permutation. apply NoDup_fst_map_to_list.
  - intros s k [k' v]. simpl.
    rewrite list_elem_of_filter, merge_sort_Permutation, elem_of_map_to_list. simpl. tauto.
Qed.
