(* ===== verification/Proto.v ===== *)
(** The protocol-buffer wire format as the generated [*.pb.go] files write and
    read it: the helpers every generated file repeats ([encodeVarintTypes],
    [encodeFixed64Types], [sovTypes], [skipTypes] and the inlined varint loops
    of [Unmarshal]), shared by the message codecs of the other files.

    A writer works on a buffer of fixed size at an offset, as [MarshalTo] does,
    and panics beyond its end; a reader works on a slice and an [int] index.
    Every loop consumes input or shifts a 64-bit word, which bounds its fuel. *)
From S2P Require Import Prelude Bytes.
From stdpp Require Import options.
#[local] Open Scope Z_scope.

Definition ErrIntOverflow : string := "proto: integer overflow".
Definition ErrInvalidLength : string := "proto: negative length found during unmarshaling".
Definition ErrUnexpectedEOF : string := "unexpected EOF".

(** An [int] or [int64]: two's complement reading of the low 64 bits. *)
Definition i64 (z : Z) : Z :=
  let w := u64 z in if w <? 9223372036854775808 then w else w - two64.

(** ** Writing *)

(** The buffer and the offset of the next byte. *)
Definition wstate : Type := list byte * nat.

Definition put_byte (b : byte) (st : wstate) : res wstate :=
  let '(data, i) := st in
  if (i <? length data)%nat then Ok (<[i := b]> data, S i) else Crash "index out of range".

Fixpoint put_bytes (bytes : list byte) (st : wstate) : res wstate :=
  match bytes with
  | [] => Ok st
  | b :: bytes => st ← put_byte b st; put_bytes bytes st
  end.

(** [encodeVarint]: ten groups of seven bits hold a uint64. *)
Fixpoint encodeVarint_loop (fuel : nat) (v : Z) (st : wstate) : res wstate :=
  match fuel with
  | O => put_byte (byte_of_Z v) st
  | S fuel =>
      if 0x80 <=? v then
        st ← put_byte (byte_of_Z (Z.lor (Z.land v 0x7f) 0x80)) st;
        encodeVarint_loop fuel (Z.shiftr v 7) st
      else put_byte (byte_of_Z v) st
  end.

Definition encodeVarint (v : Z) (st : wstate) : res wstate := encodeVarint_loop 10 v st.

Definition encodeFixed64 (v : Z) (st : wstate) : res wstate := put_bytes (le_put 8 v) st.

(** [i += copy(data[i:], src)]: stops silently at the end of the buffer. *)
Definition copy_bytes (src : list byte) (st : wstate) : res wstate :=
  let '(data, i) := st in
  if (i <=? length data)%nat
  then Ok (go_copy data i src, (i + length src `min` (length data - i))%nat)
  else Crash "slice bounds out of range".

(** [n, err := msg.MarshalTo(data[i:]); i += n]. *)
Definition put_message (marshalTo : wstate → res wstate) (st : wstate) : res wstate :=
  let '(data, i) := st in
  if (i <=? length data)%nat then
    ' (data', n) ← marshalTo (drop i data, 0%nat);
    Ok (take i data ++ data', (i + n)%nat)
  else Crash "slice bounds out of range".

(** [Marshal]: a buffer of [size] bytes, of which the written part is kept. *)
Definition marshal_with (size : nat) (marshalTo : wstate → res wstate) : res (list byte) :=
  ' (data, n) ← marshalTo (replicate size x00, 0%nat);
  slice data 0 (Z.of_nat n).

Fixpoint sov_loop (fuel : nat) (x : Z) (n : nat) : nat :=
  match fuel with
  | O => n
  | S fuel =>
      let n := S n in
      let x := Z.shiftr x 7 in
      if x =? 0 then n else sov_loop fuel x n
  end.

Definition sov (x : Z) : nat := sov_loop 11 x 0.

(** ** Reading *)

(** The test [iNdEx >= l] and the read [data[iNdEx]] that follows it. *)
Definition read_byte (data : list byte) (iNdEx : Z) : res byte :=
  if Z.of_nat (length data) <=? iNdEx then Err ErrUnexpectedEOF
  else if iNdEx <? 0 then Crash "index out of range"
  else index data (Z.to_nat iNdEx).

(** [for shift := uint(0); ; shift += 7 {...}], accumulating in a [w]-bit
    integer. *)
Fixpoint varint_loop (fuel : nat) (w : Z) (data : list byte) (iNdEx shift acc : Z) :
    res (Z * Z) :=
  match fuel with
  | O => Crash out_of_fuel
  | S fuel =>
      if 64 <=? shift then Err ErrIntOverflow else
      b ← read_byte data iNdEx;
      let acc := Z.lor acc (Z.shiftl (Z.land (byte_to_Z b) 0x7F) shift mod 2 ^ w) in
      if byte_to_Z b <? 0x80 then Ok (acc, iNdEx + 1)
      else varint_loop fuel w data (iNdEx + 1) (shift + 7) acc
  end.

Definition read_varint (w : Z) (data : list byte) (iNdEx : Z) : res (Z * Z) :=
  varint_loop 11 w data iNdEx 0 0.

(** A length-delimited field: the length, the checks on it and
    [data[iNdEx:postIndex]]. *)
Definition read_bytes (data : list byte) (iNdEx : Z) : res (list byte * Z) :=
  ' (n, iNdEx) ← read_varint 64 data iNdEx;
  let byteLen := i64 n in
  if byteLen <? 0 then Err ErrInvalidLength else
  let postIndex := i64 (iNdEx + byteLen) in
  if Z.of_nat (length data) <? postIndex then Err ErrUnexpectedEOF else
  v ← slice data iNdEx postIndex;
  Ok (v, postIndex).

Definition read_fixed64 (data : list byte) (iNdEx : Z) : res (Z * Z) :=
  if Z.of_nat (length data) <? iNdEx + 8 then Err ErrUnexpectedEOF else
  v ← slice data iNdEx (iNdEx + 8);
  Ok (le_get v, iNdEx + 8).

Definition wire_type (wire : Z) : Z := Z.land wire 7.
Definition field_num (wire : Z) : Z := i32 (Z.shiftr wire 3).

(** [skipTypes]: the length of the first field of [data]. Groups nest and
    repeat; both recursions read at least one byte. *)
Fixpoint skip (fuel : nat) (data : list byte) : res Z :=
  match fuel with
  | O => Crash out_of_fuel
  | S fuel =>
      if (length data =? 0)%nat then Crash "unreachable" else
      ' (wire, iNdEx) ← read_varint 64 data 0;
      let wireType := wire_type wire in
      if wireType =? 0 then ' (_, iNdEx) ← read_varint 64 data iNdEx; Ok iNdEx
      else if wireType =? 1 then Ok (iNdEx + 8)
      else if wireType =? 2 then
        ' (n, iNdEx) ← read_varint 64 data iNdEx;
        let length := i64 n in
        if length <? 0 then Err ErrInvalidLength else Ok (i64 (iNdEx + length))
      else if wireType =? 3 then
        (fix group (g : nat) (iNdEx : Z) : res Z :=
           match g with
           | O => Crash out_of_fuel
           | S g =>
               let start := iNdEx in
               ' (innerWire, iNdEx) ← read_varint 64 data iNdEx;
               if wire_type innerWire =? 4 then Ok iNdEx else
               next ← skip fuel (drop (Z.to_nat start) data);
               group g (i64 (start + next))
           end) (S (List.length data)) iNdEx
      else if wireType =? 4 then Ok iNdEx
      else if wireType =? 5 then Ok (iNdEx + 4)
      else Err "proto: illegal wireType %d"
  end.

(** The loop of [Unmarshal]. [field] is the message's [switch fieldNum]:
    [None] selects the default case, which skips the field. *)
Definition field_reader (M : Type) : Type :=
  Z → Z → list byte → Z → M → option (res (M * Z)).

Section unmarshal.
Context {M : Type} (name : string) (field : field_reader M).

Definition unmarshal_step (data : list byte) (iNdEx : Z) (m : M) : res (M * Z) :=
  let preIndex := iNdEx in
  ' (wire, iNdEx) ← read_varint 64 data iNdEx;
  let fieldNum := field_num wire in
  let wireType := wire_type wire in
  if wireType =? 4 then Err ("proto: " ++ name ++ ": wiretype end group for non-group") else
  if fieldNum <=? 0 then Err ("proto: " ++ name ++ ": illegal tag %d (wire type %d)") else
  match field fieldNum wireType data iNdEx m with
  | Some r => r
  | None =>
      let iNdEx := preIndex in
      skippy ← skip (S (length data)) (drop (Z.to_nat iNdEx) data);
      if skippy <? 0 then Err ErrInvalidLength else
      if Z.of_nat (length data) <? i64 (iNdEx + skippy) then Err ErrUnexpectedEOF else
      Ok (m, i64 (iNdEx + skippy))
  end.

Fixpoint unmarshal_loop (fuel : nat) (data : list byte) (iNdEx : Z) (m : M) : res M :=
  if iNdEx <? Z.of_nat (length data) then
    match fuel with
    | O => Crash out_of_fuel
    | S fuel => ' (m, iNdEx) ← unmarshal_step data iNdEx m; unmarshal_loop fuel data iNdEx m
    end
  else if Z.of_nat (length data) <? iNdEx then Err ErrUnexpectedEOF
  else Ok m.

Definition unmarshal (data : list byte) (m : M) : res M :=
  unmarshal_loop (length data) data 0 m.
End unmarshal.

(** ** What the writers write *)

(** [f] writes exactly the bytes [out] at the current offset. *)
Definition writes (f : wstate → res wstate) (out : list byte) : Prop :=
  ∀ pre mid tl, length mid = length out →
    f (pre ++ mid ++ tl, length pre) = Ok (pre ++ out ++ tl, (length pre + length out)%nat).

Lemma writes_nil : writes Ok [].
Proof. intros pre mid tl Hl. apply nil_length_inv in Hl as ->. by rewrite Nat.add_0_r. Qed.

Lemma writes_bind f g o1 o2 :
  writes f o1 → writes g o2 → writes (λ st, st ← f st; g st) (o1 ++ o2).
Proof.
  intros Hf Hg pre mid tl Hl. rewrite length_app in Hl.
  rewrite <-(take_drop (length o1) mid), <-(assoc_L (++)).
  rewrite Hf by (rewrite length_take; lia). simpl.
  specialize (Hg (pre ++ o1) (drop (length o1) mid) tl).
  rewrite length_app, <-!(assoc_L (++)) in Hg.
  rewrite Hg by (rewrite length_drop; lia).
  rewrite length_app, <-!(assoc_L (++)). by rewrite Nat.add_assoc.
Qed.

Lemma writes_put_byte b : writes (put_byte b) [b].
Proof.
  intros pre mid tl Hl. destruct mid as [|x [|]]; try done. simpl.
  rewrite length_app. simpl. rewrite (proj2 (Nat.ltb_lt _ _)) by lia.
  rewrite insert_app_r_alt, Nat.sub_diag by lia. simpl. by rewrite Nat.add_1_r.
Qed.

Lemma writes_put_bytes l : writes (put_bytes l) l.
Proof.
  induction l as [|b l IH]; [apply writes_nil|].
  apply (writes_bind (put_byte b) (put_bytes l) [b] l); [apply writes_put_byte|done].
Qed.

Lemma writes_copy_bytes l : writes (copy_bytes l) l.
Proof.
  intros pre mid tl Hl. unfold copy_bytes, go_copy.
  rewrite !length_app, take_app_length, <-Hl.
  rewrite (proj2 (Nat.leb_le _ _)) by lia. f_equal. f_equal; [|lia].
  rewrite take_ge by lia. f_equal. f_equal.
  rewrite drop_app_add, drop_app_length. done.
Qed.

Lemma writes_put_message f out : writes f out → writes (put_message f) out.
Proof.
  intros Hf pre mid tl Hl. unfold put_message. rewrite length_app.
  rewrite (proj2 (Nat.leb_le _ _)), drop_app_length by lia.
  pose proof (Hf [] mid tl Hl) as Hf'. simpl in Hf'. rewrite Hf'. simpl.
  by rewrite take_app_length.
Qed.

(** A buffer of the right size makes [Marshal] succeed with the bytes. *)
Lemma marshal_with_writes f out : writes f out → marshal_with (length out) f = Ok out.
Proof.
  intros Hf. unfold marshal_with.
  pose proof (Hf [] (replicate (length out) x00) []) as Hf'.
  rewrite !app_nil_r, length_replicate in Hf'. simpl in Hf'. rewrite Hf' by done. simpl.
  unfold slice. rewrite !Z.leb_refl, (proj2 (Z.leb_le 0 _)) by lia. simpl.
  by rewrite drop_0, Nat.sub_0_r, Nat2Z.id, take_ge by lia.
Qed.

(** ** Varints *)
Fixpoint varint_bytes_loop (fuel : nat) (v : Z) : list byte :=
  match fuel with
  | O => [byte_of_Z v]
  | S fuel =>
      if 0x80 <=? v
      then byte_of_Z (Z.lor (Z.land v 0x7f) 0x80) :: varint_bytes_loop fuel (Z.shiftr v 7)
      else [byte_of_Z v]
  end.

Definition varint_bytes (v : Z) : list byte := varint_bytes_loop 10 v.

Lemma writes_encodeVarint v : writes (encodeVarint v) (varint_bytes v).
Proof.
  unfold encodeVarint, varint_bytes. generalize 10%nat as fuel. intros fuel.
  revert v. induction fuel as [|fuel IH]; intros v; simpl; [apply writes_put_byte|].
  destruct (0x80 <=? v); [|apply writes_put_byte].
  by apply (writes_bind _ _ [_]); [apply writes_put_byte|].
Qed.

Lemma sov_loop_acc fuel x n : sov_loop fuel x n = (n + sov_loop fuel x 0)%nat.
Proof.
  revert x n. induction fuel as [|fuel IH]; intros x n; simpl; [lia|].
  destruct (Z.shiftr x 7 =? 0); [lia|]. rewrite (IH _ (S n)), (IH _ 1%nat). lia.
Qed.

Lemma shiftr7 v : Z.shiftr v 7 = v / 128.
Proof. by rewrite Z.shiftr_div_pow2. Qed.

Lemma length_varint_bytes v : 0 ≤ v < two64 → length (varint_bytes v) = sov v.
Proof.
  unfold varint_bytes, sov, two64. intros Hv.
  enough (∀ fuel v, 0 ≤ v < 128 ^ Z.of_nat (S fuel) →
    length (varint_bytes_loop fuel v) = sov_loop (S fuel) v 0) as Hloop.
  { apply (Hloop 10%nat). change (128 ^ Z.of_nat 11) with 151115727451828646838272. lia. }
  clear. induction fuel as [|fuel IH]; intros v Hv.
  { cbn [varint_bytes_loop sov_loop]. rewrite shiftr7. by destruct (v / 128 =? 0). }
  rewrite Nat2Z.inj_succ, Z.pow_succ_r in Hv by lia.
  cbn [varint_bytes_loop]. remember (S fuel) as f eqn:Ef. cbn [sov_loop]. subst f.
  rewrite shiftr7. pose proof (Z.div_mod v 128 ltac:(lia)).
  pose proof (Z.mod_pos_bound v 128 ltac:(lia)).
  destruct (Z.leb_spec 0x80 v); destruct (Z.eqb_spec (v / 128) 0); try lia; [|done].
  cbn [length]. rewrite sov_loop_acc, IH; lia.
Qed.

Lemma lor_shiftl a b n : 0 ≤ n → 0 ≤ a < 2 ^ n → Z.lor a (Z.shiftl b n) = a + b * 2 ^ n.
Proof.
  intros Hn Ha. rewrite <-Z.shiftl_mul_pow2 by done.
  assert (Z.land a (Z.shiftl b n) = 0) as Hl.
  { apply Z.bits_inj'. intros i Hi. rewrite Z.land_spec, Z.bits_0.
    destruct (Z.lt_ge_cases i n).
    - by rewrite Z.shiftl_spec_low, andb_false_r.
    - rewrite <-(Z.mod_small a (2 ^ n)), Z.mod_pow2_bits_high by lia. done. }
  by rewrite Z.add_nocarry_lxor, Z.lxor_lor.
Qed.

Lemma land_7f x : Z.land x 0x7F = x mod 128.
Proof. change 0x7F with (Z.ones 7). by rewrite Z.land_ones. Qed.

Lemma cont_byte v : byte_to_Z (byte_of_Z (Z.lor (Z.land v 0x7f) 0x80)) = v mod 128 + 128.
Proof.
  pose proof (Z.mod_pos_bound v 128 ltac:(lia)).
  rewrite land_7f, byte_to_of_Z. pose proof (lor_shiftl (v mod 128) 1 7) as Hl.
  change (Z.shiftl 1 7) with 128 in Hl. change (2 ^ 7) with 128 in Hl.
  rewrite Hl by lia. rewrite Z.mod_small; lia.
Qed.

Lemma read_byte_app pre b post iNdEx :
  iNdEx = Z.of_nat (length pre) → read_byte (pre ++ b :: post) iNdEx = Ok b.
Proof.
  intros ->. unfold read_byte. rewrite length_app. simpl.
  rewrite (proj2 (Z.leb_gt _ _)), (proj2 (Z.ltb_ge _ _)), Nat2Z.id by lia.
  unfold index. by rewrite list_lookup_middle.
Qed.

Lemma varint_loop_bytes w fuel fuel' shift acc v pre post iNdEx :
  iNdEx = Z.of_nat (length pre) →
  0 ≤ v → 0 ≤ shift < 64 → v * 2 ^ shift < 2 ^ w → w ≤ 64 →
  0 ≤ acc < 2 ^ shift →
  64 ≤ shift + 7 * Z.of_nat fuel → 64 ≤ shift + 7 * Z.of_nat fuel' →
  varint_loop fuel w (pre ++ varint_bytes_loop fuel' v ++ post) iNdEx shift acc =
  Ok (acc + v * 2 ^ shift, iNdEx + Z.of_nat (length (varint_bytes_loop fuel' v))).
Proof.
  intros Hi Hv Hs Hw Hw64 Hacc Hf Hf'. revert fuel' shift acc v pre iNdEx Hi Hv Hs Hw Hacc Hf Hf'.
  induction fuel as [|fuel IH]; intros fuel' shift acc v pre iNdEx Hi Hv Hs Hw Hacc Hf Hf'; [lia|].
  destruct fuel' as [|fuel']; [lia|]. cbn [varint_loop varint_bytes_loop].
  rewrite (proj2 (Z.leb_gt 64 shift)) by lia.
  assert (0 < 2 ^ shift) by (apply Z.pow_pos_nonneg; lia).
  pose proof (Z.mod_pos_bound v 128 ltac:(lia)) as Hmod.
  pose proof (Z.div_mod v 128 ltac:(lia)) as Hdm.
  assert (Z.shiftl (v mod 128) shift mod 2 ^ w = v mod 128 * 2 ^ shift) as Hsh.
  { pose proof (Z.mod_le v 128 ltac:(lia) ltac:(lia)).
    rewrite Z.shiftl_mul_pow2 by lia. apply Z.mod_small. split; nia. }
  assert (Z.lor acc (v mod 128 * 2 ^ shift) = acc + v mod 128 * 2 ^ shift) as Hlor.
  { rewrite <-Z.shiftl_mul_pow2 by lia. rewrite lor_shiftl by lia. by rewrite Z.shiftl_mul_pow2 by lia. }
  destruct (Z.leb_spec 0x80 v) as [Hbig|Hsmall].
  - rewrite <-app_comm_cons, read_byte_app by done. simpl mbind.
    rewrite cont_byte, (proj2 (Z.ltb_ge _ _)) by lia.
    rewrite (land_7f (_ + _)). replace ((v mod 128 + 128) mod 128) with (v mod 128)
      by (apply (Z.mod_unique_pos _ _ 1); lia).
    rewrite Hsh, Hlor.
    change (byte_of_Z ?x :: ?l) with ([byte_of_Z x] ++ l). rewrite (assoc_L (++) pre).
    rewrite shiftr7. assert (2 ^ (shift + 7) = 2 ^ shift * 128) as Hp by (rewrite Z.pow_add_r; lia).
    assert (2 ^ w ≤ 2 ^ 64) by (apply Z.pow_le_mono_r; lia).
    assert (shift + 7 < 64).
    { apply (Z.pow_lt_mono_r_iff 2); [lia..|]. nia. }
    rewrite IH; [|rewrite ?length_app; simpl; nia..]. f_equal. f_equal; [|simpl length; lia].
    rewrite Hp. nia.
  - rewrite (Z.mod_small v 128) in * by lia.
    assert (byte_to_Z (byte_of_Z v) = v) as Hb by (rewrite byte_to_of_Z; apply Z.mod_small; lia).
    cbn [app]. rewrite read_byte_app by done. simpl mbind.
    rewrite Hb, land_7f, (proj2 (Z.ltb_lt _ _)) by lia.
    by rewrite (Z.mod_small v 128), Hsh, Hlor by lia.
Qed.

(** A varint written by [encodeVarint] is read back by the loops of
    [Unmarshal], in an integer wide enough to hold it. *)
Lemma read_varint_bytes w v pre post iNdEx :
  iNdEx = Z.of_nat (length pre) → 0 ≤ v < 2 ^ w → w ≤ 64 →
  read_varint w (pre ++ varint_bytes v ++ post) iNdEx =
  Ok (v, iNdEx + Z.of_nat (length (varint_bytes v))).
Proof.
  intros Hi Hv Hw. unfold read_varint, varint_bytes.
  rewrite varint_loop_bytes; try lia. by rewrite Z.add_0_l, Z.mul_1_r.
Qed.

Lemma i64_small z : 0 ≤ z < 2 ^ 63 → i64 z = z.
Proof.
  intros Hz. unfold i64, u64, two64. rewrite Z.mod_small by lia.
  by rewrite (proj2 (Z.ltb_lt _ _)) by lia.
Qed.

Lemma slice_app {A} (pre mid post : list A) a b :
  a = Z.of_nat (length pre) → b = a + Z.of_nat (length mid) →
  slice (pre ++ mid ++ post) a b = Ok mid.
Proof.
  intros -> ->. unfold slice. rewrite !length_app, !(proj2 (Z.leb_le _ _)) by lia. simpl.
  replace (Z.to_nat (Z.of_nat (length pre))) with (length pre) by lia.
  rewrite drop_app_length, take_app_length' by lia. done.
Qed.

Lemma read_bytes_app v pre post iNdEx :
  iNdEx = Z.of_nat (length pre) →
  Z.of_nat (length (pre ++ (varint_bytes (Z.of_nat (length v)) ++ v) ++ post)) < 2 ^ 63 →
  read_bytes (pre ++ (varint_bytes (Z.of_nat (length v)) ++ v) ++ post) iNdEx =
  Ok (v, iNdEx + Z.of_nat (length (varint_bytes (Z.of_nat (length v)) ++ v))).
Proof.
  intros Hi Hlen. unfold read_bytes. rewrite !length_app in Hlen.
  rewrite <-(assoc_L (++) (varint_bytes _)), read_varint_bytes by lia. simpl mbind.
  rewrite !i64_small by (rewrite ?i64_small; lia).
  rewrite (proj2 (Z.ltb_ge _ _)) by lia. rewrite !length_app, (proj2 (Z.ltb_ge _ _)) by lia.
  rewrite (assoc_L (++) pre), slice_app with (mid := v); [|rewrite ?length_app; lia..].
  simpl. f_equal. f_equal. lia.
Qed.

Lemma read_fixed64_app v pre post iNdEx :
  iNdEx = Z.of_nat (length pre) → is_u64 v →
  read_fixed64 (pre ++ le_put 8 v ++ post) iNdEx = Ok (v, iNdEx + 8).
Proof.
  intros Hi Hv. unfold read_fixed64. rewrite !length_app, length_le_put.
  rewrite (proj2 (Z.ltb_ge _ _)) by lia.
  rewrite slice_app with (mid := le_put 8 v) by (rewrite ?length_le_put; lia).
  unfold mbind, res_bind. rewrite le_get_put, Z.mod_small; [done|].
  unfold is_u64, MaxUint64 in Hv. change (256 ^ Z.of_nat 8) with two64. unfold two64. lia.
Qed.

(** ** Optional fields, as every [MarshalTo] and [Size] treats them *)
Definition put_varint_field (tag : byte) (v : Z) (st : wstate) : res wstate :=
  if v =? 0 then Ok st else st ← put_byte tag st; encodeVarint v st.

Definition put_fixed64_field (tag : byte) (v : Z) (st : wstate) : res wstate :=
  if v =? 0 then Ok st else st ← put_byte tag st; encodeFixed64 v st.

Definition put_bytes_field (tag : byte) (b : list byte) (st : wstate) : res wstate :=
  if (length b =? 0)%nat then Ok st else
  st ← put_byte tag st;
  st ← encodeVarint (Z.of_nat (length b)) st;
  copy_bytes b st.

Definition put_message_field (tag : byte) (size : nat) (marshalTo : wstate → res wstate)
    (st : wstate) : res wstate :=
  st ← put_byte tag st;
  st ← encodeVarint (Z.of_nat size) st;
  put_message marshalTo st.

Definition size_varint_field (v : Z) : nat := if v =? 0 then 0 else 1 + sov v.
Definition size_fixed64_field (v : Z) : nat := if v =? 0 then 0 else 9.
Definition size_bytes_field (l : nat) : nat :=
  if (l =? 0)%nat then 0 else 1 + l + sov (Z.of_nat l).
Definition size_message_field (l : nat) : nat := 1 + l + sov (Z.of_nat l).

(** The bytes of a field. *)
Definition enc_varint (tag : byte) (v : Z) : list byte :=
  if v =? 0 then [] else tag :: varint_bytes v.
Definition enc_fixed64 (tag : byte) (v : Z) : list byte :=
  if v =? 0 then [] else tag :: le_put 8 v.
Definition enc_delim (tag : byte) (b : list byte) : list byte :=
  tag :: varint_bytes (Z.of_nat (length b)) ++ b.
Definition enc_bytes (tag : byte) (b : list byte) : list byte :=
  if (length b =? 0)%nat then [] else enc_delim tag b.

Lemma writes_varint_field tag v : writes (put_varint_field tag v) (enc_varint tag v).
Proof.
  unfold put_varint_field, enc_varint. destruct (v =? 0); [apply writes_nil|].
  apply (writes_bind _ _ [tag]); [apply writes_put_byte|apply writes_encodeVarint].
Qed.

Lemma writes_fixed64_field tag v : writes (put_fixed64_field tag v) (enc_fixed64 tag v).
Proof.
  unfold put_fixed64_field, enc_fixed64. destruct (v =? 0); [apply writes_nil|].
  apply (writes_bind _ _ [tag]); [apply writes_put_byte|apply writes_put_bytes].
Qed.

Lemma writes_bytes_field tag b : writes (put_bytes_field tag b) (enc_bytes tag b).
Proof.
  unfold put_bytes_field, enc_bytes, enc_delim. destruct (length b =? 0)%nat; [apply writes_nil|].
  apply (writes_bind _ _ [tag]); [apply writes_put_byte|].
  apply writes_bind; [apply writes_encodeVarint|apply writes_copy_bytes].
Qed.

Lemma writes_message_field tag f out :
  writes f out → writes (put_message_field tag (length out) f) (enc_delim tag out).
Proof.
  intros Hf. unfold put_message_field, enc_delim.
  apply (writes_bind _ _ [tag]); [apply writes_put_byte|].
  apply writes_bind; [apply writes_encodeVarint|by apply writes_put_message].
Qed.

Lemma length_enc_varint tag v : 0 ≤ v < two64 → length (enc_varint tag v) = size_varint_field v.
Proof.
  intros Hv. unfold enc_varint, size_varint_field. destruct (v =? 0); [done|].
  cbn [length]. by rewrite length_varint_bytes.
Qed.

Lemma length_enc_fixed64 tag v : length (enc_fixed64 tag v) = size_fixed64_field v.
Proof. unfold enc_fixed64, size_fixed64_field. by destruct (v =? 0). Qed.

Lemma length_enc_delim tag b :
  Z.of_nat (length b) < two64 → length (enc_delim tag b) = size_message_field (length b).
Proof.
  intros Hb. unfold enc_delim, size_message_field. cbn [length].
  rewrite length_app, length_varint_bytes by lia. lia.
Qed.

Lemma length_enc_bytes tag b :
  Z.of_nat (length b) < two64 → length (enc_bytes tag b) = size_bytes_field (length b).
Proof.
  intros Hb. unfold enc_bytes, size_bytes_field. destruct (length b =? 0)%nat; [done|].
  rewrite length_enc_delim by done. done.
Qed.

(** ** What [Unmarshal] reads back *)
Section reads.
Context {M : Type} (name : string) (field : field_reader M).

(** One iteration consumes [enc] and turns [m] into [m']. *)
Definition step_reads (m : M) (enc : list byte) (m' : M) : Prop :=
  ∀ pre post, Z.of_nat (length (pre ++ enc ++ post)) < 2 ^ 63 →
    unmarshal_step name field (pre ++ enc ++ post) (Z.of_nat (length pre)) m =
    Ok (m', Z.of_nat (length pre + length enc)).

Inductive reads : M → list byte → M → Prop :=
| reads_nil m : reads m [] m
| reads_cons m e1 m1 e2 m' :
    (1 ≤ length e1)%nat → step_reads m e1 m1 → reads m1 e2 m' → reads m (e1 ++ e2) m'.

Lemma reads_app m e1 m1 e2 m' : reads m e1 m1 → reads m1 e2 m' → reads m (e1 ++ e2) m'.
Proof.
  intros H1 H2. induction H1; [done|]. rewrite <-(assoc_L (++)). econstructor; eauto.
Qed.

Lemma reads_one m e m' : (1 ≤ length e)%nat → step_reads m e m' → reads m e m'.
Proof. intros ? ?. rewrite <-(app_nil_r e). econstructor; eauto using reads_nil. Qed.

Lemma reads_loop m enc m' pre fuel :
  reads m enc m' → Z.of_nat (length (pre ++ enc)) < 2 ^ 63 → (length enc ≤ fuel)%nat →
  unmarshal_loop name field fuel (pre ++ enc) (Z.of_nat (length pre)) m = Ok m'.
Proof.
  intros Hr. revert pre fuel. induction Hr as [m|m e1 m1 e2 m' Hne Hs Hr IH]; intros pre fuel Hl Hf.
  - rewrite app_nil_r. destruct fuel; simpl; by rewrite Z.ltb_irrefl.
  - rewrite length_app in Hf. destruct fuel as [|fuel]; [lia|]. cbn [unmarshal_loop].
    rewrite !length_app, (proj2 (Z.ltb_lt _ _)), Hs by (done || lia). simpl mbind.
    rewrite (assoc_L (++)), <-length_app. apply IH; [|lia].
    by rewrite <-(assoc_L (++)).
Qed.

Lemma reads_unmarshal m enc m' :
  reads m enc m' → Z.of_nat (length enc) < 2 ^ 63 → unmarshal name field enc m = Ok m'.
Proof. intros Hr Hl. by apply (reads_loop m enc m' []). Qed.

(** A field with a one-byte tag. *)
Lemma step_reads_field m m' tag body :
  byte_to_Z tag < 128 → wire_type (byte_to_Z tag) ≠ 4 → 0 < field_num (byte_to_Z tag) →
  (∀ pre post, Z.of_nat (length (pre ++ body ++ post)) < 2 ^ 63 →
    field (field_num (byte_to_Z tag)) (wire_type (byte_to_Z tag))
      (pre ++ body ++ post) (Z.of_nat (length pre)) m =
    Some (Ok (m', Z.of_nat (length pre + length body)))) →
  step_reads m (tag :: body) m'.
Proof.
  intros Htag Hw Hf Hbody pre post Hl. unfold unmarshal_step.
  pose proof (byte_to_Z_range tag).
  assert (varint_bytes (byte_to_Z tag) = [tag]) as Hvb.
  { unfold varint_bytes. cbn [varint_bytes_loop].
    by rewrite (proj2 (Z.leb_gt _ _)), byte_of_to_Z by lia. }
  pose proof (read_varint_bytes 64 (byte_to_Z tag) pre (body ++ post) _ eq_refl) as Hv.
  rewrite Hvb in Hv. rewrite <-app_comm_cons. cbn [app] in Hv. rewrite Hv by lia.
  cbn [mbind res_bind length]. rewrite (proj2 (Z.eqb_neq _ _)), (proj2 (Z.leb_gt _ _)) by done.
  specialize (Hbody (pre ++ [tag]) post).
  rewrite <-(assoc_L (++)) in Hbody. specialize (Hbody Hl). cbn [app] in Hbody.
  rewrite length_app in Hbody. cbn [length] in Hbody.
  replace (Z.of_nat (length pre) + Z.of_nat 1) with (Z.of_nat (length pre + 1)) by lia.
  rewrite Hbody. do 3 f_equal. lia.
Qed.

Definition good_tag (tag : byte) (num wt : Z) : Prop :=
  byte_to_Z tag < 128 ∧ field_num (byte_to_Z tag) = num ∧ 0 < num ∧
  wire_type (byte_to_Z tag) = wt ∧ wt ≠ 4.

(** Optional fields; [set] stores the value in the message. *)
Lemma reads_varint tag num w v (set : Z → M) m :
  good_tag tag num 0 → 0 ≤ v < 2 ^ w → w ≤ 64 → (v = 0 → set v = m) →
  (∀ data i, field num 0 data i m = Some (' (x, i) ← read_varint w data i; Ok (set x, i))) →
  reads m (enc_varint tag v) (set v).
Proof.
  intros (? & ? & ? & Hwt & ?) Hv Hw Hz Hfield. unfold enc_varint.
  destruct (Z.eqb_spec v 0) as [->|Hne]; [rewrite Hz by done; constructor|].
  apply reads_one; [simpl; lia|]. apply step_reads_field; [lia..|].
  intros pre post Hl. subst num. rewrite Hwt, Hfield, read_varint_bytes by done.
  simpl mbind. do 3 f_equal. lia.
Qed.

Lemma reads_fixed64 tag num v (set : Z → M) m :
  good_tag tag num 1 → is_u64 v → (v = 0 → set v = m) →
  (∀ data i, field num 1 data i m = Some (' (x, i) ← read_fixed64 data i; Ok (set x, i))) →
  reads m (enc_fixed64 tag v) (set v).
Proof.
  intros (? & ? & ? & Hwt & ?) Hv Hz Hfield. unfold enc_fixed64.
  destruct (Z.eqb_spec v 0) as [->|Hne]; [rewrite Hz by done; constructor|].
  apply reads_one; [cbn [length]; lia|]. apply step_reads_field; [lia..|].
  intros pre post Hl. subst num. rewrite Hwt, Hfield, read_fixed64_app by done.
  unfold mbind, res_bind. do 3 f_equal. rewrite length_le_put. lia.
Qed.

Lemma reads_delim tag num v (set : list byte → res M) m m' :
  good_tag tag num 2 → set v = Ok m' →
  (∀ data i, field num 2 data i m = Some (' (x, i) ← read_bytes data i; m ← set x; Ok (m, i))) →
  reads m (enc_delim tag v) m'.
Proof.
  intros (? & ? & ? & Hwt & ?) Hset Hfield. unfold enc_delim.
  apply reads_one; [cbn [length]; lia|]. apply step_reads_field; [lia..|].
  intros pre post Hl. subst num. rewrite Hwt, Hfield, read_bytes_app by done.
  simpl mbind. rewrite Hset. simpl. do 3 f_equal. lia.
Qed.

Lemma reads_bytes tag num v (set : list byte → M) m :
  good_tag tag num 2 → (v = [] → set v = m) →
  (∀ data i, field num 2 data i m = Some (' (x, i) ← read_bytes data i; Ok (set x, i))) →
  reads m (enc_bytes tag v) (set v).
Proof.
  intros Htag Hz Hfield. unfold enc_bytes.
  destruct (Nat.eqb_spec (length v) 0) as [->%nil_length_inv|Hne]; [rewrite Hz by done; constructor|].
  apply (reads_delim tag num v (λ x, Ok (set x))); done.
Qed.
End reads.
