(* ===== verification/PostingPb.v ===== *)
(** The messages of [posting/types/types.pb.go]: a posting and the posting list
    stored under one key, with [Marshal], [Size] and [Unmarshal]. *)
From S2P Require Import Prelude Bytes Proto.
From stdpp Require Import options.
#[local] Open Scope Z_scope.

Record Posting : Type := mkPosting {
  Uid : Z;
  Value : list byte;
  ValType : Z;
  Label : list byte;
  Commit : Z;
  Op : Z;
}.

Record PostingList : Type := mkPostingList {
  Postings : list Posting;
  Checksum : list byte;
  PLCommit : Z;
}.

#[export] Instance Posting_eq_dec : EqDecision Posting.
Proof. solve_decision. Defined.
#[export] Instance PostingList_eq_dec : EqDecision PostingList.
Proof. solve_decision. Defined.

(** The zero values [Posting{}] and [PostingList{}]. *)
Definition emptyPosting : Posting := mkPosting 0 [] 0 [] 0 0.
Definition emptyPostingList : PostingList := mkPostingList [] [] 0.

Module posting_pb.

Definition Size (m : Posting) : nat :=
  size_fixed64_field (Uid m) + size_bytes_field (length (Value m)) +
  size_varint_field (ValType m) + size_bytes_field (length (Label m)) +
  size_varint_field (Commit m) + size_varint_field (Op m).

Definition MarshalTo (m : Posting) (st : wstate) : res wstate :=
  st ← put_fixed64_field x09 (Uid m) st;
  st ← put_bytes_field x12 (Value m) st;
  st ← put_varint_field x18 (ValType m) st;
  st ← put_bytes_field x22 (Label m) st;
  st ← put_varint_field x28 (Commit m) st;
  put_varint_field x60 (Op m) st.

Definition Marshal (m : Posting) : res (list byte) := marshal_with (Size m) (MarshalTo m).

(** The [switch fieldNum] of [Posting.Unmarshal]. *)
Definition field : field_reader Posting := λ fieldNum wireType data iNdEx m,
  let '(mkPosting uid value valType label commit op) := m in
  if fieldNum =? 1 then Some (
    if negb (wireType =? 1) then Err "proto: wrong wireType = %d for field Uid" else
    ' (x, iNdEx) ← read_fixed64 data iNdEx; Ok (mkPosting x value valType label commit op, iNdEx))
  else if fieldNum =? 2 then Some (
    if negb (wireType =? 2) then Err "proto: wrong wireType = %d for field Value" else
    ' (x, iNdEx) ← read_bytes data iNdEx; Ok (mkPosting uid x valType label commit op, iNdEx))
  else if fieldNum =? 3 then Some (
    if negb (wireType =? 0) then Err "proto: wrong wireType = %d for field ValType" else
    ' (x, iNdEx) ← read_varint 32 data iNdEx; Ok (mkPosting uid value x label commit op, iNdEx))
  else if fieldNum =? 4 then Some (
    if negb (wireType =? 2) then Err "proto: wrong wireType = %d for field Label" else
    ' (x, iNdEx) ← read_bytes data iNdEx; Ok (mkPosting uid value valType x commit op, iNdEx))
  else if fieldNum =? 5 then Some (
    if negb (wireType =? 0) then Err "proto: wrong wireType = %d for field Commit" else
    ' (x, iNdEx) ← read_varint 64 data iNdEx; Ok (mkPosting uid value valType label x op, iNdEx))
  else if fieldNum =? 12 then Some (
    if negb (wireType =? 0) then Err "proto: wrong wireType = %d for field Op" else
    ' (x, iNdEx) ← read_varint 32 data iNdEx; Ok (mkPosting uid value valType label commit x, iNdEx))
  else None.

Definition Unmarshal (data : list byte) (m : Posting) : res Posting :=
  unmarshal "Posting" field data m.

(** The field ranges of the Go struct, and lengths below 2{^63} (a Go [int]). *)
Definition wf (m : Posting) : Prop :=
  is_u64 (Uid m) ∧ 0 ≤ ValType m < 2 ^ 32 ∧ is_u64 (Commit m) ∧ 0 ≤ Op m < 2 ^ 32 ∧
  Z.of_nat (length (Value m)) < 2 ^ 63 ∧ Z.of_nat (length (Label m)) < 2 ^ 63.
#[export] Instance wf_dec m : Decision (wf m).
Proof. unfold wf, is_u64. apply _. Defined.

Definition enc (m : Posting) : list byte :=
  enc_fixed64 x09 (Uid m) ++ enc_bytes x12 (Value m) ++ enc_varint x18 (ValType m) ++
  enc_bytes x22 (Label m) ++ enc_varint x28 (Commit m) ++ enc_varint x60 (Op m).

Lemma writes_MarshalTo m : writes (MarshalTo m) (enc m).
Proof.
  unfold MarshalTo, enc.
  repeat (apply writes_bind;
    [first [apply writes_fixed64_field|apply writes_bytes_field|apply writes_varint_field]|]).
  apply writes_varint_field.
Qed.

Lemma Size_enc m : wf m → Size m = length (enc m).
Proof.
  intros (Hu & Hv & Hc & Ho & ? & ?). unfold is_u64, MaxUint64 in *. unfold Size, enc.
  rewrite !length_app, length_enc_fixed64, !length_enc_bytes, !length_enc_varint
    by (unfold two64; lia). lia.
Qed.

Lemma Marshal_enc m : wf m → Marshal m = Ok (enc m).
Proof. intros Hwf. unfold Marshal. rewrite Size_enc by done. apply marshal_with_writes, writes_MarshalTo. Qed.

Lemma reads_enc m : wf m → reads "Posting" field emptyPosting (enc m) m.
Proof.
  intros (Hu & Hv & Hc & Ho & _ & _). destruct m as [u v t l c o]. simpl in *.
  unfold is_u64, MaxUint64 in Hc. unfold enc. simpl.
  eapply reads_app; [apply (reads_fixed64 _ _ x09 1 u (λ x, mkPosting x [] 0 [] 0 0))|].
  all: try done. { intros ->. done. }
  eapply reads_app; [apply (reads_bytes _ _ x12 2 v (λ x, mkPosting u x 0 [] 0 0))|].
  all: try done. { intros ->. done. }
  eapply reads_app; [apply (reads_varint _ _ x18 3 32 t (λ x, mkPosting u v x [] 0 0))|].
  all: try done. { intros ->. done. }
  eapply reads_app; [apply (reads_bytes _ _ x22 4 l (λ x, mkPosting u v t x 0 0))|].
  all: try done. { intros ->. done. }
  eapply reads_app; [apply (reads_varint _ _ x28 5 64 c (λ x, mkPosting u v t l x 0))|].
  all: try done. { lia. } { intros ->. done. }
  apply (reads_varint _ _ x60 12 32 o (λ x, mkPosting u v t l c x)); try done. intros ->. done.
Qed.

Lemma Unmarshal_enc m :
  wf m → Z.of_nat (length (enc m)) < 2 ^ 63 → Unmarshal (enc m) emptyPosting = Ok m.
Proof. intros Hwf Hl. apply reads_unmarshal; [by apply reads_enc|done]. Qed.

End posting_pb.

Module postinglist_pb.

Definition Size (m : PostingList) : nat :=
  sum_list_with (λ e, size_message_field (posting_pb.Size e)) (Postings m) +
  size_bytes_field (length (Checksum m)) + size_varint_field (PLCommit m).

(** [for _, msg := range m.Postings {...}]. *)
Fixpoint put_postings (l : list Posting) (st : wstate) : res wstate :=
  match l with
  | [] => Ok st
  | msg :: l =>
      st ← put_message_field x0a (posting_pb.Size msg) (posting_pb.MarshalTo msg) st;
      put_postings l st
  end.

Definition MarshalTo (m : PostingList) (st : wstate) : res wstate :=
  st ← put_postings (Postings m) st;
  st ← put_bytes_field x12 (Checksum m) st;
  put_varint_field x18 (PLCommit m) st.

Definition Marshal (m : PostingList) : res (list byte) := marshal_with (Size m) (MarshalTo m).

Definition field : field_reader PostingList := λ fieldNum wireType data iNdEx m,
  let '(mkPostingList postings checksum commit) := m in
  if fieldNum =? 1 then Some (
    if negb (wireType =? 2) then Err "proto: wrong wireType = %d for field Postings" else
    ' (x, iNdEx) ← read_bytes data iNdEx;
    m ← (p ← posting_pb.Unmarshal x emptyPosting;
         Ok (mkPostingList (postings ++ [p]) checksum commit));
    Ok (m, iNdEx))
  else if fieldNum =? 2 then Some (
    if negb (wireType =? 2) then Err "proto: wrong wireType = %d for field Checksum" else
    ' (x, iNdEx) ← read_bytes data iNdEx; Ok (mkPostingList postings x commit, iNdEx))
  else if fieldNum =? 3 then Some (
    if negb (wireType =? 0) then Err "proto: wrong wireType = %d for field Commit" else
    ' (x, iNdEx) ← read_varint 64 data iNdEx; Ok (mkPostingList postings checksum x, iNdEx))
  else None.

Definition Unmarshal (data : list byte) (m : PostingList) : res PostingList :=
  unmarshal "PostingList" field data m.

Definition enc (m : PostingList) : list byte :=
  mjoin ((λ p, enc_delim x0a (posting_pb.enc p)) <$> Postings m) ++
  enc_bytes x12 (Checksum m) ++ enc_varint x18 (PLCommit m).

(** A list whose postings are in range and whose encoding fits an [int]. *)
Definition wf (m : PostingList) : Prop :=
  Forall posting_pb.wf (Postings m) ∧ is_u64 (PLCommit m) ∧
  Z.of_nat (length (enc m)) < 2 ^ 63.
#[export] Instance wf_dec m : Decision (wf m).
Proof. unfold wf, is_u64. apply _. Defined.

Lemma length_mjoin_ge (l : list (list byte)) x :
  x ∈ l → (length x ≤ length (mjoin l))%nat.
Proof.
  induction l as [|y l IH]; [by intros ?%elem_of_nil|]. simpl. rewrite length_app.
  intros [->|H]%elem_of_cons; [lia|]. specialize (IH H). lia.
Qed.

Lemma enc_posting_bound m p :
  Z.of_nat (length (enc m)) < 2 ^ 63 → p ∈ Postings m →
  Z.of_nat (length (posting_pb.enc p)) < 2 ^ 63.
Proof.
  intros Hl Hp. unfold enc in Hl. rewrite length_app in Hl.
  assert (enc_delim x0a (posting_pb.enc p) ∈
    (λ p, enc_delim x0a (posting_pb.enc p)) <$> Postings m) as Hj%length_mjoin_ge
    by (apply list_elem_of_fmap; by exists p).
  unfold enc_delim in Hj at 1. cbn [length] in Hj. rewrite length_app in Hj. lia.
Qed.

Lemma writes_put_postings l :
  Forall posting_pb.wf l →
  writes (put_postings l) (mjoin ((λ p, enc_delim x0a (posting_pb.enc p)) <$> l)).
Proof.
  induction 1 as [|p l Hp Hl IH]; [apply writes_nil|].
  apply (writes_bind _ _ (enc_delim x0a (posting_pb.enc p))); [|done].
  rewrite posting_pb.Size_enc by done. apply writes_message_field, posting_pb.writes_MarshalTo.
Qed.

Lemma List_Size_enc m : wf m → Size m = length (enc m).
Proof.
  intros (Hps & Hc & Hl). pose proof (enc_posting_bound m) as Hb.
  pose proof Hl as Hl'. unfold enc in Hl'. rewrite !length_app in Hl'.
  unfold is_u64, MaxUint64 in Hc. unfold Size, enc.
  rewrite !length_app, length_enc_varint by (unfold two64; lia).
  assert (Z.of_nat (length (Checksum m)) < two64) as Hcs.
  { unfold enc_bytes, enc_delim in Hl'. destruct (Nat.eqb_spec (length (Checksum m)) 0) as [->|].
    - done.
    - cbn [length] in Hl'. rewrite !length_app in Hl'. unfold two64. lia. }
  rewrite length_enc_bytes by done.
  enough (sum_list_with (λ e, size_message_field (posting_pb.Size e)) (Postings m) =
    length (mjoin ((λ p, enc_delim x0a (posting_pb.enc p)) <$> Postings m))) by lia.
  assert (∀ p, p ∈ Postings m → Z.of_nat (length (posting_pb.enc p)) < two64) as Hb'.
  { intros p Hp. specialize (Hb p Hl Hp). unfold two64. lia. }
  clear -Hps Hb'. induction Hps as [|p l Hp Hps IH]; [done|].
  change (mjoin (_ <$> p :: l)) with (enc_delim x0a (posting_pb.enc p) ++
    mjoin ((λ p, enc_delim x0a (posting_pb.enc p)) <$> l)).
  cbn [sum_list_with]. rewrite length_app, length_enc_delim by (apply Hb'; left).
  rewrite posting_pb.Size_enc by done. rewrite IH; [done|]. intros q Hq. apply Hb'. by right.
Qed.

Lemma List_Marshal_enc m : wf m → Marshal m = Ok (enc m).
Proof.
  intros Hwf. unfold Marshal. rewrite List_Size_enc by done. apply marshal_with_writes.
  unfold MarshalTo, enc. apply writes_bind; [by apply writes_put_postings, Hwf|].
  apply writes_bind; [apply writes_bytes_field|apply writes_varint_field].
Qed.

Lemma reads_postings ps done_ :
  Forall posting_pb.wf ps →
  (∀ p, p ∈ ps → Z.of_nat (length (posting_pb.enc p)) < 2 ^ 63) →
  reads "PostingList" field (mkPostingList done_ [] 0)
    (mjoin ((λ p, enc_delim x0a (posting_pb.enc p)) <$> ps)) (mkPostingList (done_ ++ ps) [] 0).
Proof.
  intros Hps. revert done_. induction Hps as [|p ps Hp Hps IH]; intros done_ Hb.
  { rewrite app_nil_r. constructor. }
  apply (reads_app _ _ _ (enc_delim x0a (posting_pb.enc p)) (mkPostingList (done_ ++ [p]) [] 0)).
  - apply (reads_delim _ _ x0a 1 (posting_pb.enc p)
      (λ x, p ← posting_pb.Unmarshal x emptyPosting; Ok (mkPostingList (done_ ++ [p]) [] 0))); try done.
    by rewrite posting_pb.Unmarshal_enc by (try apply Hb; first [done|left]).
  - replace (done_ ++ p :: ps) with ((done_ ++ [p]) ++ ps) by (by rewrite <-(assoc_L (++))).
    apply IH. intros q Hq. apply Hb. by right.
Qed.

Lemma List_Unmarshal_enc m : wf m → Unmarshal (enc m) emptyPostingList = Ok m.
Proof.
  intros (Hps & Hc & Hl). apply reads_unmarshal; [|done].
  pose proof (enc_posting_bound m) as Hb. destruct m as [ps cs c]. simpl in *.
  unfold is_u64, MaxUint64 in Hc. unfold enc. simpl.
  eapply reads_app; [apply (reads_postings ps [] Hps)|].
  { intros p Hp. by apply Hb. }
  eapply reads_app; [apply (reads_bytes _ _ x12 2 cs (λ x, mkPostingList ps x 0))|].
  all: try done. { intros ->. done. }
  apply (reads_varint _ _ x18 3 64 c (λ x, mkPostingList ps cs x)); try done; [lia|]. intros ->. done.
Qed.

(** C21: A posting list in range survives the store: [Marshal] computes the size
    of its buffer exactly, so it never panics or errs, and [Unmarshal] of the
    bytes restores every field of every posting. *)
Theorem PostingList_roundtrip m :
  wf m →
  ∃ data, Marshal m = Ok data ∧ length data = Size m ∧ Unmarshal data emptyPostingList = Ok m.
Proof.
  intros Hwf. exists (enc m).
  split; [by apply List_Marshal_enc|]. split; [by rewrite List_Size_enc|by apply List_Unmarshal_enc].
Qed.

Definition sample : PostingList :=
  mkPostingList
    [mkPosting 7 [] 0 (bs "idx") 0 3; mkPosting MaxUint64 (bs "Alice") 5 [] 300 1] (bs "sum") 129.

Lemma PostingList_roundtrip_witness :
  wf sample ∧
  ∃ data, Marshal sample = Ok data ∧ length data = Size sample ∧
    Unmarshal data emptyPostingList = Ok sample.
Proof. assert (wf sample) by by_decide. split; [done|]. by apply PostingList_roundtrip. Defined.

(** Hostile bytes can kill the process: a field length near 2{^63} makes the
    index overflow, so [Unmarshal] panics on the slice expression instead of
    returning [io.ErrUnexpectedEOF]. *)
Theorem Unmarshal_length_overflow :
  Unmarshal [x12; xff; xff; xff; xff; xff; xff; xff; xff; x7f] emptyPostingList =
  Crash "slice bounds out of range".
Proof. vm_compute. reflexivity. Qed.

End postinglist_pb.
