(* ===== verification/Md5.v ===== *)
(** MD5 ([crypto/md5] of Go's standard library, RFC 1321), which [List.commit]
    uses for the checksum it stores with a posting list, and the two integer
    encodings of [encoding/binary] it feeds the hash with. *)
From S2P Require Import Prelude Bytes Proto.
From stdpp Require Import options.
#[local] Open Scope Z_scope.

Definition add32 (a b : Z) : Z := u32 (a + b).
Definition not32 (a : Z) : Z := Z.lxor a 0xFFFFFFFF.
Definition rotl32 (a n : Z) : Z := Z.lor (u32 (Z.shiftl a n)) (Z.shiftr a (32 - n)).

Definition md5_table : list Z :=
  [0xd76aa478; 0xe8c7b756; 0x242070db; 0xc1bdceee; 0xf57c0faf; 0x4787c62a;
   0xa8304613; 0xfd469501; 0x698098d8; 0x8b44f7af; 0xffff5bb1; 0x895cd7be;
   0x6b901122; 0xfd987193; 0xa679438e; 0x49b40821; 0xf61e2562; 0xc040b340;
   0x265e5a51; 0xe9b6c7aa; 0xd62f105d; 0x02441453; 0xd8a1e681; 0xe7d3fbc8;
   0x21e1cde6; 0xc33707d6; 0xf4d50d87; 0x455a14ed; 0xa9e3e905; 0xfcefa3f8;
   0x676f02d9; 0x8d2a4c8a; 0xfffa3942; 0x8771f681; 0x6d9d6122; 0xfde5380c;
   0xa4beea44; 0x4bdecfa9; 0xf6bb4b60; 0xbebfbc70; 0x289b7ec6; 0xeaa127fa;
   0xd4ef3085; 0x04881d05; 0xd9d4d039; 0xe6db99e5; 0x1fa27cf8; 0xc4ac5665;
   0xf4292244; 0x432aff97; 0xab9423a7; 0xfc93a039; 0x655b59c3; 0x8f0ccc92;
   0xffeff47d; 0x85845dd1; 0x6fa87e4f; 0xfe2ce6e0; 0xa3014314; 0x4e0811a1;
   0xf7537e82; 0xbd3af235; 0x2ad7d2bb; 0xeb86d391].

Definition md5_shifts : list Z :=
  let row a b c d := [a; b; c; d; a; b; c; d; a; b; c; d; a; b; c; d] in
  row 7 12 17 22 ++ row 5 9 14 20 ++ row 4 11 16 23 ++ row 6 10 15 21.

(** The round function and the index of the message word at step [i]. *)
Definition md5_f (i : nat) (b c d : Z) : Z :=
  if (i <? 16)%nat then Z.lor (Z.land b c) (Z.land (not32 b) d)
  else if (i <? 32)%nat then Z.lor (Z.land d b) (Z.land (not32 d) c)
  else if (i <? 48)%nat then Z.lxor b (Z.lxor c d)
  else Z.lxor c (Z.lor b (not32 d)).

Definition md5_g (i : nat) : nat :=
  if (i <? 16)%nat then i
  else if (i <? 32)%nat then (5 * i + 1) mod 16
  else if (i <? 48)%nat then (3 * i + 5) mod 16
  else (7 * i) mod 16.

Definition md5_state : Type := Z * Z * Z * Z.

Definition md5_step (words : list Z) (st : md5_state) (ikr : nat * (Z * Z)) : md5_state :=
  let '(a, b, c, d) := st in
  let '(i, (k, r)) := ikr in
  let f := add32 (add32 (md5_f i b c d) a) (add32 k (nth (md5_g i) words 0)) in
  (d, add32 b (rotl32 f r), b, c).

Fixpoint le_words (n : nat) (l : list byte) : list Z :=
  match n with
  | O => []
  | S n => le_get (take 4 l) :: le_words n (drop 4 l)
  end.

Definition md5_block (st : md5_state) (block : list byte) : md5_state :=
  let '(a, b, c, d) := st in
  let '(a', b', c', d') :=
    fold_left (md5_step (le_words 16 block))
      (zip (seq 0 64) (zip md5_table md5_shifts)) st in
  (add32 a a', add32 b b', add32 c c', add32 d d').

(** One 64-byte block after the other; [n] is their number. *)
Fixpoint md5_blocks (n : nat) (st : md5_state) (data : list byte) : md5_state :=
  match n with
  | O => st
  | S n => md5_blocks n (md5_block st (take 64 data)) (drop 64 data)
  end.

Definition md5_pad (data : list byte) : list byte :=
  let len := length data in
  let zeros := ((119 - len mod 64) mod 64)%nat in
  data ++ [x80] ++ replicate zeros x00 ++ le_put 8 (u64 (8 * Z.of_nat len)).

(** [h := md5.New(); h.Write(data); h.Sum(nil)]. *)
Definition md5_Sum (data : list byte) : list byte :=
  let padded := md5_pad data in
  let '(a, b, c, d) :=
    md5_blocks (length padded / 64) (0x67452301, 0xefcdab89, 0x98badcfe, 0x10325476) padded in
  le_put 4 a ++ le_put 4 b ++ le_put 4 c ++ le_put 4 d.

(** [binary.PutUvarint] and [binary.PutVarint] (zig-zag). *)
Definition PutUvarint (v : Z) : list byte := varint_bytes v.
Definition PutVarint (v : Z) : list byte :=
  let ux := u64 (Z.shiftl v 1) in
  varint_bytes (if v <? 0 then Z.lxor ux MaxUint64 else ux).

Lemma length_md5_Sum data : length (md5_Sum data) = 16%nat.
Proof.
  unfold md5_Sum. destruct (md5_blocks _ _ _) as [[[a b] c] d].
  by rewrite !length_app, !length_le_put.
Qed.

(** Test vectors of RFC 1321, appendix A.5. *)
Lemma md5_vectors :
  md5_Sum [] = [xd4; x1d; x8c; xd9; x8f; x00; xb2; x04; xe9; x80; x09; x98; xec; xf8; x42; x7e] ∧
  md5_Sum (bs "abc") =
    [x90; x01; x50; x98; x3c; xd2; x4f; xb0; xd6; x96; x3f; x7d; x28; xe1; x7f; x72] ∧
  md5_Sum (bs "12345678901234567890123456789012345678901234567890123456789012345678901234567890") =
    [x57; xed; xf4; xa2; x2b; xe3; xc9; x55; xac; x49; xda; x2e; x21; x07; xb6; x7a].
Proof. vm_compute. repeat split. Qed.
