(* ===== verification/Task.v ===== *)
(** Messages of [task/task.pb.go] that the other components exchange. *)
From S2P Require Import Prelude Bytes Proto.
From stdpp Require Import options.
#[local] Open Scope Z_scope.

(** An edge of a mutation. A nil [Value] is [None]: the indexer tells it from
    an empty one. *)
Record DirectedEdge : Type := mkEdge {
  Entity : Z;
  Attr : list byte;
  EValue : option (list byte);
  ValueType : Z;
  ValueId : Z;
  ELabel : list byte;
}.

Definition set_ValueId (t : DirectedEdge) (v : Z) : DirectedEdge :=
  mkEdge (Entity t) (Attr t) (EValue t) (ValueType t) v (ELabel t).

(** [bytes.Equal] does not tell nil from empty. *)
Definition value_bytes (t : DirectedEdge) : list byte := default [] (EValue t).

(** [task.List] is its [Uids]; [Size] is the size of its encoding in bytes. *)
Definition List_Size (uids : list Z) : Z :=
  if (length uids =? 0)%nat then 0
  else 1 + Z.of_nat (sov (Z.of_nat (length uids * 8))) + Z.of_nat (length uids * 8).
