(* ===== verification/PostingList.v ===== *)
(** Posting lists ([posting/list.go]): an immutable list read from the store,
    overlaid by a sorted layer of mutations that [commit] folds back into it.

    The operations are translated with explicit state: a [List] (the Go struct)
    and the store. A [*List] is confined by its own lock, so each operation is
    one atomic step; [wg.Wait] only delays an operation until [init] is done. *)
From S2P Require Import Prelude Bytes Store Proto PostingPb Md5 Task.
From stdpp Require Import options.
#[local] Open Scope Z_scope.
#[local] Set Default Proof Using "Type*".

Module posting.

Definition ErrRetry : string := "Temporary Error. Please retry.".
Definition ErrNoValue : string := "No value found".

Definition Set_ : Z := 0x01.
Definition Del : Z := 0x02.
Definition Add : Z := 0x03.

Record List : Type := mkList {
  key : list byte;
  ghash : Z;
  hash : Z;
  pbuffer : option PostingList;
  mlayer : list Posting;
  pstore : bool;
  lastCompact : Z;
  deleteMe : Z;
  refcount : Z;
  dirtyTs : Z;
}.

Definition set_pbuffer (v : option PostingList) (l : List) : List :=
  mkList (key l) (ghash l) (hash l) v (mlayer l) (pstore l) (lastCompact l) (deleteMe l)
    (refcount l) (dirtyTs l).
Definition set_mlayer (v : list Posting) (l : List) : List :=
  mkList (key l) (ghash l) (hash l) (pbuffer l) v (pstore l) (lastCompact l) (deleteMe l)
    (refcount l) (dirtyTs l).
Definition set_dirtyTs (v : Z) (l : List) : List :=
  mkList (key l) (ghash l) (hash l) (pbuffer l) (mlayer l) (pstore l) (lastCompact l)
    (deleteMe l) (refcount l) v.
Definition set_lastCompact (v : Z) (l : List) : List :=
  mkList (key l) (ghash l) (hash l) (pbuffer l) (mlayer l) (pstore l) v (deleteMe l)
    (refcount l) (dirtyTs l).
Definition set_deleteMe (v : Z) (l : List) : List :=
  mkList (key l) (ghash l) (hash l) (pbuffer l) (mlayer l) (pstore l) (lastCompact l) v
    (refcount l) (dirtyTs l).
Definition set_refcount (v : Z) (l : List) : List :=
  mkList (key l) (ghash l) (hash l) (pbuffer l) (mlayer l) (pstore l) (lastCompact l)
    (deleteMe l) v (dirtyTs l).

Definition refCount (l : List) : Z := refcount l.

(** [atomic.AddInt32]. *)
Definition incr (l : List) : List := set_refcount (i32 (refcount l + 1)) l.

(** [decr] also says whether the list went back to [listPool]. *)
Definition decr (l : List) : res (List * bool) :=
  let val := i32 (refcount l - 1) in
  assert_true (0 <=? val) "List reference should never be less than zero: %v";;
  Ok (set_refcount val l, negb (0 <? val)).

(** A zeroed struct from the pool. *)
Definition getNew : List := mkList [] 0 0 None [] false 0 0 1 0.

Section init.
Context (Fingerprint32 Fingerprint64 : list byte → Z).

Definition init (k : list byte) (l : List) : List :=
  mkList k (Fingerprint64 k) (Fingerprint32 k) (pbuffer l) (mlayer l) true (lastCompact l)
    (deleteMe l) (refcount l) (dirtyTs l).
End init.

Record ListOptions : Type := mkOptions {
  AfterUID : Z;
  Intersect : option (list Z);
}.

Definition samePosting (a b : Posting) : bool :=
  if negb (Uid a =? Uid b) then false
  else if negb (ValType a =? ValType b) then false
  else if negb (bool_decide (Value a = Value b)) then false
  else if negb (bool_decide (Label a = Label b)) then false
  else true.

Definition newPosting (t : DirectedEdge) (op : Z) : res Posting :=
  assert_true (bool_decide (value_bytes t = []) || (ValueId t =? MaxUint64))
    "This should have been set by the caller.";;
  Ok (mkPosting (ValueId t) (value_bytes t) (u32 (ValueType t)) (ELabel t) 0 op).

Definition set_Op (p : Posting) (op : Z) : Posting :=
  mkPosting (Uid p) (Value p) (ValType p) (Label p) (Commit p) op.

Definition SetForDeletion (l : List) : List := set_deleteMe 1 l.
Definition LastCompactionTs (l : List) : Z := lastCompact l.

Section ops.
Context {St : Type} `{KVStore St}.

(** The compare-and-swap cannot lose against another thread within one step,
    so the retry is never taken. *)
Definition getPostingList (s : St) (l : List) : res (PostingList * List) :=
  match pbuffer l with
  | Some plist => Ok (plist, l)
  | None =>
      assert_true (pstore l) "Assert failed";;
      match kv_get s (key l) with
      | Ok data =>
          if (0 <? length data)%nat then
            match postinglist_pb.Unmarshal data emptyPostingList with
            | Ok plist => Ok (plist, set_pbuffer (Some plist) l)
            | Err _ => Crash "Unable to Unmarshal PostingList from store"
            | Crash m => Crash m
            end
          else Ok (emptyPostingList, set_pbuffer (Some emptyPostingList) l)
      | Err _ => Ok (emptyPostingList, set_pbuffer (Some emptyPostingList) l)
      | Crash m => Crash m
      end
  end.

(** The last block of [updateMutationLayer]: insertion at the end, or where
    [midx] points to after appending nil and shifting the tail right by one. *)
Definition insert_mutation (l : List) (midx : nat) (mpost : Posting) : List :=
  if (length (mlayer l) <=? midx)%nat then set_mlayer (mlayer l ++ [mpost]) l
  else
    let m := mlayer l ++ [emptyPosting] in
    let m := go_copy m (S midx) (drop midx m) in
    set_mlayer (<[midx := mpost]> m) l.

(** The second half of [updateMutationLayer]: the uid is not in the mutation
    layer, whose insertion point is [midx]. *)
Definition update_immutable (s : St) (l : List) (mpost : Posting) (midx : nat) :
    res (List * bool) :=
  ' (pl, l) ← getPostingList s l;
  let pidx := ksearch Uid (λ uid, Uid mpost <=? uid) (Postings pl) in
  let '(uidFound, psame) :=
    match Postings pl !! pidx with
    | Some p =>
        let uidFound := Uid mpost =? Uid p in
        (uidFound, if uidFound then samePosting p mpost else false)
    | None => (false, false)
    end in
  if Op mpost =? Set_ then
    if psame then Ok (l, false)
    else Ok (insert_mutation l midx (if uidFound then mpost else set_Op mpost Add), true)
  else if negb psame then Ok (l, false)
  else Ok (insert_mutation l midx mpost, true).

Definition updateMutationLayer (s : St) (l : List) (mpost : Posting) : res (List * bool) :=
  assert_true ((Op mpost =? Set_) || (Op mpost =? Del)) "Assert failed";;
  let midx := ksearch Uid (λ uid, Uid mpost <=? uid) (mlayer l) in
  match mlayer l !! midx with
  | Some oldPost =>
      if Uid oldPost =? Uid mpost then
        let msame := samePosting oldPost mpost in
        if msame && eqb (Op mpost =? Del) (Op oldPost =? Del) then Ok (l, false)
        else if negb msame && (Op mpost =? Del) then Ok (l, false)
        else if (Op oldPost =? Add) && (Op mpost =? Del) then
          (* undo the old post; the vacated last slot is cut off *)
          let m := go_copy (mlayer l) midx (drop (S midx) (mlayer l)) in
          Ok (set_mlayer (take (length (mlayer l) - 1) m) l, true)
        else
          let mpost := if Op oldPost =? Add then set_Op mpost Add else mpost in
          Ok (set_mlayer (<[midx := mpost]> (mlayer l)) l, true)
      else update_immutable s l mpost midx
  | None => update_immutable s l mpost midx
  end.

(** [AddMutation] after its test of [deleteMe], which runs before the lock is
    taken. [now] is [time.Now().UnixNano()]; [dirtyChan] holds what was sent on
    the channel, [None] when the channel is nil. The edge is returned because the
    caller sees its new [ValueId]. *)
Definition AddMutation_body (s : St) (dirtyChan : option (list Z)) (now : Z) (l : List)
    (t : DirectedEdge) (op : Z) : res (List * DirectedEdge * option (list Z) * bool) :=
  let t := if bool_decide (value_bytes t = []) then t else set_ValueId t MaxUint64 in
  if ValueId t =? 0 then Err "ValueId cannot be zero" else
  mpost ← newPosting t op;
  ' (l, hasMutated) ← updateMutationLayer s l mpost;
  if (0 <? length (mlayer l))%nat
  then Ok (set_dirtyTs now l, t, (λ sent, sent ++ [ghash l]) <$> dirtyChan, hasMutated)
  else Ok (l, t, dirtyChan, hasMutated).

Definition AddMutation (s : St) (dirtyChan : option (list Z)) (now : Z) (l : List)
    (t : DirectedEdge) (op : Z) : res (List * DirectedEdge * option (list Z) * bool) :=
  if deleteMe l =? 1 then Err ErrRetry else AddMutation_body s dirtyChan now l t op.

(** The loop of [iterate]; the callback threads an accumulator and answers
    whether to continue. Each turn advances one of the two indices. *)
Fixpoint iterate_loop {A} (fuel : nat) (pl ml : list Posting) (pidx midx : nat)
    (f : A → Posting → res (A * bool)) (acc : A) : res A :=
  match fuel with
  | O => Crash out_of_fuel
  | S fuel =>
      let pp := default emptyPosting (pl !! pidx) in
      let mp := default emptyPosting (ml !! midx) in
      let go (r : A * bool) pidx midx :=
        if r.2 then iterate_loop fuel pl ml pidx midx f r.1 else Ok r.1 in
      if (Uid pp =? 0) && (Uid mp =? 0) then Ok acc
      else if (Uid mp =? 0) || ((0 <? Uid pp) && (Uid pp <? Uid mp)) then
        r ← f acc pp; go r (S pidx) midx
      else if (Uid pp =? 0) || ((0 <? Uid mp) && (Uid mp <? Uid pp)) then
        r ← (if negb (Op mp =? Del) then f acc mp else Ok (acc, true)); go r pidx (S midx)
      else if Uid pp =? Uid mp then
        r ← (if negb (Op mp =? Del) then f acc mp else Ok (acc, true)); go r (S pidx) (S midx)
      else Crash "Unhandled case during iteration of posting list."
  end.

(** The start indices of [iterate] and [Length]. *)
Definition start_index (afterUid : Z) (ps : list Posting) : nat :=
  if 0 <? afterUid then ksearch Uid (λ uid, afterUid <? uid) ps else 0%nat.

Definition iterate {A} (s : St) (l : List) (afterUid : Z)
    (f : A → Posting → res (A * bool)) (acc : A) : res (A * List) :=
  ' (pl, l) ← getPostingList s l;
  let pidx := start_index afterUid (Postings pl) in
  let midx := start_index afterUid (mlayer l) in
  acc ← iterate_loop (S (length (Postings pl) + length (mlayer l)))
          (Postings pl) (mlayer l) pidx midx f acc;
  Ok (acc, l).

Fixpoint count_ops (ml : list Posting) (count : Z) : Z :=
  match ml with
  | [] => count
  | p :: ml =>
      count_ops ml
        (if Op p =? Add then count + 1 else if Op p =? Del then count - 1 else count)
  end.

Definition Length (s : St) (l : List) (afterUid : Z) : res (Z * List) :=
  ' (pl, l) ← getPostingList s l;
  let pidx := start_index afterUid (Postings pl) in
  let midx := start_index afterUid (mlayer l) in
  let count := Z.of_nat (length (Postings pl)) - Z.of_nat pidx in
  Ok (count_ops (drop midx (mlayer l)) count, l).

(** The accumulator of [commit]'s callback: the count, the bytes written to the
    hash and [final.Postings]. *)
Definition commit_callback (acc : Z * list byte * list Posting) (p : Posting) :
    res (Z * list byte * list Posting * bool) :=
  let '(count, h, final) := acc in
  let h := h ++ PutVarint count ++ PutUvarint (Uid p) ++ Value p ++ Label p in
  Ok (count + 1, h, final ++ [p], true).

Definition commit (s : St) (now : Z) (l : List) : res (St * List * bool) :=
  if (length (mlayer l) =? 0)%nat then Ok (s, set_dirtyTs 0 l, false) else
  ' ((_, h, final), l) ← iterate s l 0 commit_callback (0, [], []);
  match postinglist_pb.Marshal (mkPostingList final (md5_Sum h) 0) with
  | Ok data =>
      match kv_set s (key l) data with
      | Ok s =>
          let l := set_pbuffer None l in
          let l := set_dirtyTs 0 l in
          let l := set_mlayer [] l in
          Ok (s, set_lastCompact now l, true)
      | Err _ => Crash "Error while storing posting list: %v"
      | Crash m => Crash m
      end
  | Err _ => Crash "Unable to marshal posting list"
  | Crash m => Crash m
  end.

Definition CommitIfDirty (s : St) (now : Z) (l : List) : res (St * List * bool) :=
  if dirtyTs l =? 0 then Ok (s, l, false) else commit s now l.

(** [for ; idx < len(uids) && uids[idx] < uid; idx++ {}]. *)
Fixpoint advance (uids : list Z) (uid : Z) (idx : nat) : nat :=
  match uids with
  | [] => idx
  | u :: uids => if u <? uid then advance uids uid (S idx) else idx
  end.

Definition uids_callback (opt : ListOptions) (acc : nat * list Z) (p : Posting) :
    res (nat * list Z * bool) :=
  let '(intersectIdx, result) := acc in
  if Uid p =? MaxUint64 then Ok (intersectIdx, result, false) else
  let uid := Uid p in
  match Intersect opt with
  | None => Ok (intersectIdx, result ++ [uid], true)
  | Some uids =>
      let intersectIdx := advance (drop intersectIdx uids) uid intersectIdx in
      if List_Size uids <=? Z.of_nat intersectIdx then Ok (intersectIdx, result, true) else
      u ← index uids intersectIdx;
      if uid <? u then Ok (intersectIdx, result, true)
      else Ok (intersectIdx, result ++ [uid], true)
  end.

Definition Uids (s : St) (l : List) (opt : ListOptions) : res (list Z * List) :=
  ' ((_, result), l) ← iterate s l (AfterUID opt) (uids_callback opt) (0%nat, []);
  Ok (result, l).

Definition value_callback (acc : option (list byte * Z)) (p : Posting) :
    res (option (list byte * Z) * bool) :=
  Ok (if Uid p =? MaxUint64 then Some (Value p, ValType p mod 256) else acc, false).

(** [None] is [ErrNoValue]. *)
Definition ValueOf (s : St) (l : List) : res (option (list byte * Z) * List) :=
  iterate s l (MaxUint64 - 1) value_callback None.
End ops.

(** ** The two layers and what they denote *)

(** What [samePosting] compares besides the uid. *)
Definition content (p : Posting) : Z * list byte * list byte := (ValType p, Value p, Label p).

Fixpoint ufind (u : Z) (ps : list Posting) : option Posting :=
  match ps with
  | [] => None
  | p :: ps => if Uid p =? u then Some p else ufind u ps
  end.

(** The posting a reader sees for a uid. *)
Definition live_at (ipl ml : list Posting) (u : Z) : option Posting :=
  match ufind u ml with
  | Some mp => if Op mp =? Del then None else Some mp
  | None => ufind u ipl
  end.

(** The abstract posting list: a finite map from uids to contents. *)
Definition abs (ipl ml : list Posting) : gmap Z (Z * list byte * list byte) :=
  foldr (λ mp m, if Op mp =? Del then delete (Uid mp) m else <[Uid mp := content mp]> m)
    (list_to_map ((λ p, (Uid p, content p)) <$> ipl)) ml.

(** The abstract mutation: setting what is there already and deleting what is
    not there (or has another content) change nothing. *)
Definition spec_update (p : Posting) (m : gmap Z (Z * list byte * list byte)) :
    gmap Z (Z * list byte * list byte) * bool :=
  let same := bool_decide (m !! Uid p = Some (content p)) in
  if Op p =? Set_ then
    if same then (m, false) else (<[Uid p := content p]> m, true)
  else if same then (delete (Uid p) m, true) else (m, false).

(** The invariant of the two layers: both strictly sorted by uid, with uid 0
    unused, and the mutation layer classified by what the immutable list has. *)
Record layers (ipl ml : list Posting) : Prop := {
  ly_isorted : ksorted Uid ipl;
  ly_msorted : ksorted Uid ml;
  ly_iwf : Forall (λ p, posting_pb.wf p ∧ 0 < Uid p) ipl;
  ly_mwf : Forall (λ p, posting_pb.wf p ∧ 0 < Uid p) ml;
  ly_ops : Forall (λ mp,
    Op mp = Add ∧ ufind (Uid mp) ipl = None ∨
    (Op mp = Set_ ∨ Op mp = Del) ∧ is_Some (ufind (Uid mp) ipl)) ml;
}.

Lemma ufind_Some u ps p : ufind u ps = Some p → p ∈ ps ∧ Uid p = u.
Proof.
  induction ps as [|q ps IH]; simpl; [done|]. destruct (Z.eqb_spec (Uid q) u).
  - intros [= ->]. split; [left|done].
  - intros [? ?]%IH. split; [by right|done].
Qed.

Lemma ufind_None u ps : ufind u ps = None ↔ ∀ p, p ∈ ps → Uid p ≠ u.
Proof.
  induction ps as [|q ps IH]; simpl; [split; [by intros _ p ?%elem_of_nil|done]|].
  destruct (Z.eqb_spec (Uid q) u) as [Hq|Hq].
  - split; [done|]. intros Hall. by destruct (Hall q); [left|].
  - rewrite IH. split.
    + intros Hall p [->|Hp]%elem_of_cons; auto.
    + intros Hall p Hp. apply Hall. by right.
Qed.

Lemma ufind_elem u ps p : ksorted Uid ps → p ∈ ps → Uid p = u → ufind u ps = Some p.
Proof.
  intros Hs Hp Hu. destruct (ufind u ps) as [q|] eqn:Hq.
  - apply ufind_Some in Hq as [Hq Hqu]. f_equal. eapply ksorted_inj; eauto. congruence.
  - rewrite ufind_None in Hq. by destruct (Hq p).
Qed.

Lemma ufind_app u l1 l2 :
  ufind u (l1 ++ l2) = match ufind u l1 with Some p => Some p | None => ufind u l2 end.
Proof. induction l1 as [|q l1 IH]; simpl; [done|]. by destruct (Uid q =? u). Qed.

Lemma lookup_abs ipl ml u : abs ipl ml !! u = content <$> live_at ipl ml u.
Proof.
  unfold abs, live_at. induction ml as [|mp ml IH]; simpl.
  - induction ipl as [|p ipl IH]; simpl; [apply lookup_empty|].
    destruct (Z.eqb_spec (Uid p) u) as [->|Hne]; [by rewrite lookup_insert_eq|].
    by rewrite lookup_insert_ne.
  - destruct (Z.eqb_spec (Uid mp) u) as [<-|Hne]; destruct (Op mp =? Del); simpl.
    + by rewrite lookup_delete_eq.
    + by rewrite lookup_insert_eq.
    + by rewrite lookup_delete_ne.
    + by rewrite lookup_insert_ne.
Qed.

(** A mutation with a uid of its own may be looked at first. *)
Lemma abs_insert ipl l1 p l2 :
  (∀ q, q ∈ l1 ++ l2 → Uid q ≠ Uid p) →
  abs ipl (l1 ++ p :: l2) =
  (if Op p =? Del then delete (Uid p) (abs ipl (l1 ++ l2))
   else <[Uid p := content p]> (abs ipl (l1 ++ l2))).
Proof.
  intros Hne. apply map_eq. intros u. rewrite lookup_abs. unfold live_at.
  rewrite ufind_app. simpl.
  assert (ufind (Uid p) l1 = None) as Hl1.
  { apply ufind_None. intros q Hq. apply Hne, elem_of_app. by left. }
  destruct (Z.eqb_spec (Uid p) u) as [<-|Hu].
  - rewrite Hl1. destruct (Op p =? Del); simpl; by rewrite ?lookup_delete_eq, ?lookup_insert_eq.
  - rewrite <-ufind_app. fold (live_at ipl (l1 ++ l2) u).
    destruct (Op p =? Del); by rewrite ?lookup_delete_ne, ?lookup_insert_ne, lookup_abs.
Qed.

Lemma abs_miss ipl ml u :
  (∀ q, q ∈ ml → Uid q ≠ u) → abs ipl ml !! u = content <$> ufind u ipl.
Proof. intros Hne%ufind_None. rewrite lookup_abs. unfold live_at. by rewrite Hne. Qed.

Lemma layers_remove ipl l1 p l2 : layers ipl (l1 ++ p :: l2) → layers ipl (l1 ++ l2).
Proof.
  intros [Hi Hm Hiw Hmw Ho]. split; [done| |done| |].
  - apply ksorted_app in Hm as (H1 & [H2 _]%ksorted_cons & H3). apply ksorted_app.
    split_and!; [done..|]. intros a b Ha Hb. apply H3; [done|by right].
  - rewrite Forall_app, Forall_cons in Hmw. apply Forall_app. tauto.
  - rewrite Forall_app, Forall_cons in Ho. apply Forall_app. tauto.
Qed.

Lemma layers_insert ipl l1 p l2 :
  layers ipl (l1 ++ l2) →
  Forall (λ q, Uid q < Uid p) l1 → Forall (λ q, Uid p < Uid q) l2 →
  posting_pb.wf p → 0 < Uid p →
  (Op p = Add ∧ ufind (Uid p) ipl = None ∨
   (Op p = Set_ ∨ Op p = Del) ∧ is_Some (ufind (Uid p) ipl)) →
  layers ipl (l1 ++ p :: l2).
Proof.
  intros [Hi Hm Hiw Hmw Ho] H1 H2 Hwf Hpos Hop. split; [done| |done| |].
  - apply ksorted_app in Hm as (Hs1 & Hs2 & H3). apply ksorted_app.
    rewrite Forall_forall in H1, H2. split_and!; [done| |].
    + apply ksorted_cons. auto.
    + intros a b Ha [->|Hb]%elem_of_cons; auto.
  - apply Forall_app in Hmw as [? ?]. apply Forall_app. split; [done|]. by constructor.
  - apply Forall_app in Ho as [? ?]. apply Forall_app. split; [done|]. by constructor.
Qed.

Lemma wf_set_Op p op : posting_pb.wf p → 0 ≤ op < 2 ^ 32 → posting_pb.wf (set_Op p op).
Proof. by intros (? & ? & ? & ? & ? & ?) ?. Qed.

Lemma samePosting_spec a b : samePosting a b = bool_decide (Uid a = Uid b ∧ content a = content b).
Proof.
  unfold samePosting, content. symmetry.
  destruct (Z.eqb_spec (Uid a) (Uid b)); simpl; [|apply bool_decide_eq_false; intros [? [=]]; done].
  destruct (Z.eqb_spec (ValType a) (ValType b)); simpl; [|apply bool_decide_eq_false; intros [? [=]]; done].
  destruct (bool_decide_reflect (Value a = Value b)); simpl; [|apply bool_decide_eq_false; intros [? [=]]; done].
  destruct (bool_decide_reflect (Label a = Label b)); simpl; [|apply bool_decide_eq_false; intros [? [=]]; done].
  apply bool_decide_eq_true. split; [done|]. congruence.
Qed.

(** The binary search splits a layer around the uid. *)
Lemma search_le_split u ps :
  ksorted Uid ps →
  let i := ksearch Uid (λ uid, u <=? uid) ps in
  ps = take i ps ++ drop i ps ∧ (i ≤ length ps)%nat ∧
  Forall (λ q, Uid q < u) (take i ps) ∧ Forall (λ q, u ≤ Uid q) (drop i ps).
Proof.
  intros Hs. simpl.
  destruct (ksearch_spec Uid (λ uid, u <=? uid) ps) as (Hi & H1 & H2); [lia|done|].
  split; [by rewrite take_drop|]. split; [done|]. split.
  - eapply Forall_impl; [exact H1|]. simpl. lia.
  - eapply Forall_impl; [exact H2|]. simpl. lia.
Qed.

(** ** Refinement of one mutation *)
Section refine.
Context {St : Type} `{KVStore St}.

(** The store holds [ipl] under [k]; an absent key is the empty list. *)
Definition stored (s : St) (k : list byte) (ipl : PostingList) : Prop :=
  ∃ data, kv_get s k = Ok data ∧
    (data = [] ∧ ipl = emptyPostingList ∨
     data ≠ [] ∧ postinglist_pb.Unmarshal data emptyPostingList = Ok ipl).

(** The invariant of a posting list in memory over the store. *)
Record inv (s : St) (l : List) (ipl : PostingList) : Prop := {
  inv_pstore : pstore l = true;
  inv_stored : stored s (key l) ipl;
  inv_cache : pbuffer l = None ∨ pbuffer l = Some ipl;
  inv_layers : layers (Postings ipl) (mlayer l);
  inv_dirty : mlayer l ≠ [] → dirtyTs l ≠ 0;
}.

Lemma getPostingList_spec s l ipl :
  inv s l ipl → getPostingList s l = Ok (ipl, set_pbuffer (Some ipl) l).
Proof.
  intros [Hp (data & Hd & Hs) Hc _ _]. unfold getPostingList.
  destruct Hc as [Hc|Hc]; rewrite Hc.
  - rewrite Hp, Hd. simpl. destruct Hs as [[-> ->]|[Hne Hu]]; [done|].
    destruct data as [|b data]; [done|]. simpl. by rewrite Hu.
  - destruct l. simpl in *. by subst.
Qed.

(** Nothing but the mutation layer and the cached immutable list changes. *)
Definition mut_frame (l l' : List) (ipl : PostingList) : Prop :=
  l' = set_mlayer (mlayer l') l ∨ l' = set_mlayer (mlayer l') (set_pbuffer (Some ipl) l).

Definition valid_post (p : Posting) : Prop :=
  posting_pb.wf p ∧ 0 < Uid p ∧ (Op p = Set_ ∨ Op p = Del).

(** [found] is the test of the code's first block. *)
Lemma search_miss u ps :
  ksorted Uid ps →
  let i := ksearch Uid (λ uid, u <=? uid) ps in
  ¬ (∃ p, ps !! i = Some p ∧ Uid p = u) →
  Forall (λ q, Uid q < u) (take i ps) ∧ Forall (λ q, u < Uid q) (drop i ps).
Proof.
  intros Hs i Hmiss. destruct (search_le_split u ps Hs) as (_ & _ & H1 & H2). split; [done|].
  fold i in H1, H2. destruct (drop i ps) as [|q qs] eqn:Hd; [constructor|].
  assert (ps !! i = Some q) as Hi.
  { rewrite <-(Nat.add_0_r i), <-lookup_drop, Hd. done. }
  apply Forall_cons in H2 as [Hq Hqs].
  assert (Uid q ≠ u) by (intros ?; apply Hmiss; eauto).
  assert (ksorted Uid (q :: qs)) as [_ Hall]%ksorted_cons.
  { rewrite <-Hd. rewrite <-(take_drop i ps) in Hs. apply ksorted_app in Hs. tauto. }
  constructor; [lia|]. apply Forall_forall. intros q' Hq'. specialize (Hall q' Hq'). lia.
Qed.

Lemma search_ufind u ps :
  ksorted Uid ps →
  ufind u ps = match ps !! ksearch Uid (λ uid, u <=? uid) ps with
               | Some p => if Uid p =? u then Some p else None
               | None => None
               end.
Proof.
  intros Hs. pose proof (search_miss u ps Hs) as Hm. simpl in Hm.
  destruct (ps !! ksearch Uid (λ uid, u <=? uid) ps) as [p|] eqn:Hp.
  - destruct (Z.eqb_spec (Uid p) u) as [Hu|Hu].
    + apply ufind_elem; [done| |done]. by eapply list_elem_of_lookup_2.
    + destruct Hm as [H1 H2]; [intros (q & ? & ?); simplify_eq|].
      apply ufind_None. intros q Hq.
      rewrite <-(take_drop (ksearch Uid (λ uid, u <=? uid) ps) ps) in Hq.
      rewrite Forall_forall in H1, H2.
      apply elem_of_app in Hq as [Hq|Hq]; [specialize (H1 q Hq)|specialize (H2 q Hq)]; lia.
  - destruct Hm as [H1 H2]; [by intros (q & ? & ?)|].
    apply ufind_None. intros q Hq.
    rewrite <-(take_drop (ksearch Uid (λ uid, u <=? uid) ps) ps) in Hq.
    rewrite Forall_forall in H1, H2.
    apply elem_of_app in Hq as [Hq|Hq]; [specialize (H1 q Hq)|specialize (H2 q Hq)]; lia.
Qed.

Lemma insert_mutation_spec l midx p :
  (midx ≤ length (mlayer l))%nat →
  insert_mutation l midx p = set_mlayer (take midx (mlayer l) ++ p :: drop midx (mlayer l)) l.
Proof.
  intros Hm. unfold insert_mutation. destruct (Nat.leb_spec (length (mlayer l)) midx).
  - by rewrite take_ge, drop_ge by lia.
  - by rewrite copy_insert.
Qed.

Lemma take_drop_uids u midx (ml : list Posting) :
  Forall (λ q, Uid q < u) (take midx ml) → Forall (λ q, u < Uid q) (drop midx ml) →
  ∀ q, q ∈ ml → Uid q ≠ u.
Proof.
  intros H1 H2 q Hq. rewrite <-(take_drop midx ml) in Hq. rewrite Forall_forall in H1, H2.
  apply elem_of_app in Hq as [Hq|Hq]; [specialize (H1 q Hq)|specialize (H2 q Hq)]; lia.
Qed.

(** Inserting a mutation for a uid the mutation layer does not have. *)
Lemma insert_mutation_refines ipl l p p' midx :
  layers ipl (mlayer l) → (midx ≤ length (mlayer l))%nat →
  Forall (λ q, Uid q < Uid p) (take midx (mlayer l)) →
  Forall (λ q, Uid p < Uid q) (drop midx (mlayer l)) →
  posting_pb.wf p' → Uid p' = Uid p → content p' = content p → 0 < Uid p →
  (Op p' = Add ∧ ufind (Uid p) ipl = None ∨
   (Op p' = Set_ ∨ Op p' = Del) ∧ is_Some (ufind (Uid p) ipl)) →
  layers ipl (mlayer (insert_mutation l midx p')) ∧
  abs ipl (mlayer (insert_mutation l midx p')) =
    (if Op p' =? Del then delete (Uid p) (abs ipl (mlayer l))
     else <[Uid p := content p]> (abs ipl (mlayer l))).
Proof.
  intros Hly Hm H1 H2 Hwf Hu Hc Hpos Hop. rewrite insert_mutation_spec by done. simpl.
  pose proof (take_drop_uids _ _ _ H1 H2) as Hne.
  rewrite <-(take_drop midx (mlayer l)) in Hly, Hne. split.
  - apply layers_insert; rewrite ?Hu; done.
  - rewrite abs_insert by (by rewrite Hu). by rewrite Hu, Hc, take_drop.
Qed.

(** What the search of the immutable list finds. *)
Lemma immutable_match u p ipl :
  ksorted Uid ipl → Uid p = u →
  match ipl !! ksearch Uid (λ uid, u <=? uid) ipl with
  | Some q => (u =? Uid q, if u =? Uid q then samePosting q p else false)
  | None => (false, false)
  end =
  match ufind u ipl with
  | Some q => (true, bool_decide (Some (content q) = Some (content p)))
  | None => (false, false)
  end.
Proof.
  intros Hs Hp. rewrite (search_ufind u ipl) by done.
  destruct (ipl !! _) as [q|]; [|done].
  rewrite (Z.eqb_sym u). destruct (Z.eqb_spec (Uid q) u) as [Hq|]; [|done].
  rewrite samePosting_spec. f_equal. apply bool_decide_ext. split; [intros [_ ->]; done|].
  intros [=]. split; [congruence|]. unfold content. congruence.
Qed.

Lemma update_immutable_spec s l ipl p midx :
  inv s l ipl → valid_post p → (midx ≤ length (mlayer l))%nat →
  Forall (λ q, Uid q < Uid p) (take midx (mlayer l)) →
  Forall (λ q, Uid p < Uid q) (drop midx (mlayer l)) →
  ∃ l' b, update_immutable s l p midx = Ok (l', b) ∧ mut_frame l l' ipl ∧
    layers (Postings ipl) (mlayer l') ∧
    (abs (Postings ipl) (mlayer l'), b) = spec_update p (abs (Postings ipl) (mlayer l)).
Proof.
  intros Hinv (Hwf & Hpos & Hop) Hmidx H1 H2. unfold update_immutable.
  rewrite (getPostingList_spec s l ipl) by done. simpl mbind.
  pose proof (inv_layers _ _ _ Hinv) as Hly.
  rewrite immutable_match by (done || apply Hly). unfold spec_update.
  rewrite (abs_miss (Postings ipl) (mlayer l) (Uid p)) by (by eapply take_drop_uids).
  set (l0 := set_pbuffer (Some ipl) l).
  pose proof (insert_mutation_refines (Postings ipl) l0 p) as Hins.
  assert (∀ p', mut_frame l (insert_mutation l0 midx p') ipl) as Hfr.
  { intros p'. rewrite insert_mutation_spec by done. by right. }
  assert (mut_frame l l0 ipl) by (right; by destruct l).
  destruct (ufind (Uid p) (Postings ipl)) as [q|] eqn:Hq; destruct Hop as [Hop|Hop]; rewrite Hop; simpl.
  - case_bool_decide; eexists _, _; (split; [done|]); [done|].
    destruct (Hins p midx) as [? Hab]; try done; [by right; eauto|].
    rewrite Hop in Hab. by rewrite Hab.
  - case_bool_decide; simpl; eexists _, _; (split; [done|]); [|done].
    destruct (Hins p midx) as [? Hab]; try done; [by right; eauto|].
    rewrite Hop in Hab. by rewrite Hab.
  - eexists _, _; (split; [done|]).
    destruct (Hins (set_Op p Add) midx) as [? Hab]; try done; [by apply wf_set_Op|by left|].
    by rewrite Hab.
  - by eexists _, _.
Qed.

(** The mutation layer around a uid it has. *)
Lemma found_split ipl ml midx old :
  layers ipl ml → ml !! midx = Some old →
  ml = take midx ml ++ old :: drop (S midx) ml ∧
  Forall (λ q, Uid q < Uid old) (take midx ml) ∧
  Forall (λ q, Uid old < Uid q) (drop (S midx) ml).
Proof.
  intros Hly Hold. pose proof (take_drop_middle ml midx old Hold) as Heq.
  split; [done|]. pose proof (ly_msorted _ _ Hly) as Hs. rewrite <-Heq in Hs.
  apply ksorted_app in Hs as (_ & [_ H2]%ksorted_cons & H1). split; apply Forall_forall.
  - intros q Hq. apply H1; [done|left].
  - exact H2.
Qed.

(** Replacing the mutation of a uid. *)
Lemma replace_refines ipl l1 l2 old p' :
  layers ipl (l1 ++ old :: l2) →
  Forall (λ q, Uid q < Uid old) l1 → Forall (λ q, Uid old < Uid q) l2 →
  posting_pb.wf p' → Uid p' = Uid old →
  (Op p' = Add ↔ Op old = Add) → (Op p' = Add ∨ Op p' = Set_ ∨ Op p' = Del) →
  layers ipl (l1 ++ p' :: l2) ∧
  abs ipl (l1 ++ p' :: l2) =
    (if Op p' =? Del then delete (Uid old) (abs ipl (l1 ++ old :: l2))
     else <[Uid old := content p']> (abs ipl (l1 ++ old :: l2))).
Proof.
  intros Hly H1 H2 Hwf Hu Hadd Hop.
  assert (∀ q, q ∈ l1 ++ l2 → Uid q ≠ Uid old) as Hne.
  { rewrite Forall_forall in H1, H2.
    intros q [Hq|Hq]%elem_of_app; [specialize (H1 q Hq)|specialize (H2 q Hq)]; lia. }
  pose proof (ly_mwf _ _ Hly) as [_ [[_ Hpos] _]%Forall_cons]%Forall_app.
  pose proof (ly_ops _ _ Hly) as [_ [Hops _]%Forall_cons]%Forall_app. split.
  - apply layers_insert; rewrite ?Hu; try done; [by eapply layers_remove|].
    destruct Hops as [[Ho ?]|[Ho ?]]; [left; split; [by apply Hadd|done]|].
    right. split; [|done]. destruct Hop as [Ha|Hop]; [|done].
    apply Hadd in Ha. unfold Add, Set_, Del in *. lia.
  - rewrite !abs_insert by (rewrite ?Hu; done). rewrite Hu.
    destruct (Op p' =? Del), (Op old =? Del).
    + by rewrite delete_delete_eq.
    + by rewrite delete_insert_eq.
    + by rewrite insert_delete_eq.
    + by rewrite insert_insert_eq.
Qed.

Lemma abs_found ipl l1 l2 old :
  (∀ q, q ∈ l1 ++ l2 → Uid q ≠ Uid old) →
  abs ipl (l1 ++ old :: l2) !! Uid old = if Op old =? Del then None else Some (content old).
Proof.
  intros Hne. rewrite abs_insert by done.
  destruct (Op old =? Del); by rewrite ?lookup_delete_eq, ?lookup_insert_eq.
Qed.

(** Undoing an [Add] by a [Del]. *)
Lemma undo_refines ipl l1 l2 old :
  layers ipl (l1 ++ old :: l2) → Op old = Add →
  (∀ q, q ∈ l1 ++ l2 → Uid q ≠ Uid old) →
  layers ipl (l1 ++ l2) ∧ abs ipl (l1 ++ l2) = delete (Uid old) (abs ipl (l1 ++ old :: l2)).
Proof.
  intros Hly Hadd Hne. split; [by eapply layers_remove|].
  pose proof (ly_ops _ _ Hly) as [_ [Hops _]%Forall_cons]%Forall_app.
  rewrite abs_insert, Hadd by done. simpl. rewrite delete_insert_id; [done|].
  rewrite abs_miss by done. destruct Hops as [[_ ->]|[[?|?] _]]; [done|..];
    unfold Add, Set_, Del in *; lia.
Qed.

Lemma update_found_spec s l ipl p old midx :
  inv s l ipl → valid_post p →
  midx = ksearch Uid (λ uid, Uid p <=? uid) (mlayer l) →
  mlayer l !! midx = Some old → Uid old = Uid p →
  ∃ l' b, updateMutationLayer s l p = Ok (l', b) ∧ mut_frame l l' ipl ∧
    layers (Postings ipl) (mlayer l') ∧
    (abs (Postings ipl) (mlayer l'), b) = spec_update p (abs (Postings ipl) (mlayer l)).
Proof.
  intros Hinv (Hwf & Hpos & Hop) Hmidx Hold Hu. unfold updateMutationLayer.
  rewrite (proj2 (orb_true_iff _ _)) by (rewrite !Z.eqb_eq; done). simpl mbind.
  rewrite <-Hmidx, Hold, Hu, Z.eqb_refl, samePosting_spec. clear Hmidx.
  pose proof (inv_layers _ _ _ Hinv) as Hly.
  destruct (found_split _ _ _ _ Hly Hold) as (Hsplit & H1 & H2).
  assert (midx < length (mlayer l))%nat as Hlt by (by eapply lookup_lt_Some).
  rewrite insert_take_drop, copy_delete by done.
  assert (mut_frame l l ipl) by (left; by destruct l).
  revert Hsplit H1 H2. generalize (take midx (mlayer l)) (drop (S midx) (mlayer l)).
  intros l1 l2 Hsplit H1 H2. rewrite Hsplit in Hly |- *.
  assert (∀ q, q ∈ l1 ++ l2 → Uid q ≠ Uid old) as Hne.
  { rewrite Forall_forall in H1, H2.
    intros q [Hq|Hq]%elem_of_app; [specialize (H1 q Hq)|specialize (H2 q Hq)]; lia. }
  pose proof (abs_found (Postings ipl) l1 l2 old Hne) as Hab.
  pose proof (replace_refines (Postings ipl) l1 l2 old) as Hrep.
  pose proof (undo_refines (Postings ipl) l1 l2 old Hly) as Hundo.
  pose proof (ly_ops _ _ Hly) as [_ [Hops _]%Forall_cons]%Forall_app.
  unfold spec_update. rewrite <-Hu, Hab. unfold valid_post, Add, Set_, Del in *.
  rewrite (bool_decide_ext (Uid old = Uid old ∧ content old = content p) (content old = content p)) by tauto.
  assert (Op old = 1 ∨ Op old = 2 ∨ Op old = 3) as Hold3 by lia. clear Hops.
  destruct Hop as [Hop|Hop], Hold3 as [Ho|[Ho|Ho]]; rewrite Hop, Ho in *; simpl;
    rewrite ?(bool_decide_ext (Some (content old) = Some (content p)) (content old = content p))
      by (split; [intros [=]; unfold content; congruence|congruence]);
    try (case_bool_decide; simpl).
  all: try (by eexists _, _; rewrite Hsplit).
  all: eexists _, _; (split; [reflexivity|]); (split; [by left|]); simpl.
  4: { destruct (Hrep (set_Op p 3)) as [Hl Ha]; try (done || lia); [by apply wf_set_Op| |];
    [by simpl; lia|]. simpl in Ha. by rewrite Ha. }
  5: { destruct Hundo as [Hl Ha]; [done..|]. by rewrite Ha. }
  all: destruct (Hrep p) as [Hl Ha]; rewrite ?Hop in *; try (done || lia); simpl in Ha; by rewrite Ha.
Qed.

(** One mutation of the in-memory layer refines the abstract map update and
    keeps the layers well formed. *)
Lemma updateMutationLayer_spec s l ipl p :
  inv s l ipl → valid_post p →
  ∃ l' b, updateMutationLayer s l p = Ok (l', b) ∧ mut_frame l l' ipl ∧
    layers (Postings ipl) (mlayer l') ∧
    (abs (Postings ipl) (mlayer l'), b) = spec_update p (abs (Postings ipl) (mlayer l)).
Proof.
  intros Hinv Hp. pose proof (ly_msorted _ _ (inv_layers _ _ _ Hinv)) as Hs.
  pose proof (search_miss (Uid p) (mlayer l) Hs) as Hmiss. simpl in Hmiss.
  destruct (search_le_split (Uid p) (mlayer l) Hs) as (_ & Hle & _).
  destruct (mlayer l !! ksearch Uid (λ uid, Uid p <=? uid) (mlayer l)) as [old|] eqn:Hold.
  - destruct (decide (Uid old = Uid p)) as [Hu|Hu]; [by eapply update_found_spec|].
    destruct Hmiss as [H1 H2]; [intros (q & ? & ?); by simplify_eq|].
    destruct (update_immutable_spec s l ipl p _ Hinv Hp Hle H1 H2) as (l' & b & Hupd & Hrest).
    exists l', b. split; [|done]. unfold updateMutationLayer. rewrite Hold.
    rewrite (proj2 (orb_true_iff _ _)) by (rewrite !Z.eqb_eq; apply Hp).
    by rewrite (proj2 (Z.eqb_neq _ _)).
  - destruct Hmiss as [H1 H2]; [by intros (q & ? & ?)|].
    destruct (update_immutable_spec s l ipl p _ Hinv Hp Hle H1 H2) as (l' & b & Hupd & Hrest).
    exists l', b. split; [|done]. unfold updateMutationLayer. rewrite Hold.
    by rewrite (proj2 (orb_true_iff _ _)) by (rewrite !Z.eqb_eq; apply Hp).
Qed.

(** The edge after [AddMutation] fixed its [ValueId], and the posting made of it. *)
Definition effective (t : DirectedEdge) : DirectedEdge :=
  if bool_decide (value_bytes t = []) then t else set_ValueId t MaxUint64.

Definition post_of (t : DirectedEdge) (op : Z) : Posting :=
  mkPosting (ValueId (effective t)) (value_bytes t) (ValueType t) (ELabel t) 0 op.

Definition edge_ok (t : DirectedEdge) : Prop :=
  is_u64 (ValueId t) ∧ 0 ≤ ValueType t < 2 ^ 32 ∧
  Z.of_nat (length (value_bytes t)) < 2 ^ 63 ∧ Z.of_nat (length (ELabel t)) < 2 ^ 63.

Lemma effective_ValueId t : edge_ok t → is_u64 (ValueId (effective t)).
Proof. intros (Hv & _). unfold effective. case_bool_decide; [done|]. by_decide. Qed.

Lemma newPosting_effective t op :
  0 ≤ ValueType t < 2 ^ 32 → newPosting (effective t) op = Ok (post_of t op).
Proof.
  intros Hvt. unfold newPosting, post_of, effective.
  case_bool_decide as Hv; simpl; unfold u32; rewrite Z.mod_small by lia.
  - by rewrite bool_decide_true.
  - by rewrite orb_true_r.
Qed.

Lemma post_of_valid t op :
  edge_ok t → ValueId (effective t) ≠ 0 → op = Set_ ∨ op = Del → valid_post (post_of t op).
Proof.
  intros Hok Hnz Hop. pose proof (effective_ValueId t Hok). destruct Hok as (_ & ? & ? & ?).
  unfold valid_post, posting_pb.wf, is_u64, MaxUint64, Set_, Del in *. simpl. lia.
Qed.

Lemma inv_frame s l l' ipl now :
  inv s l ipl → mut_frame l l' ipl → layers (Postings ipl) (mlayer l') → now ≠ 0 →
  inv s (if (0 <? length (mlayer l'))%nat then set_dirtyTs now l' else l') ipl ∧
  key (if (0 <? length (mlayer l'))%nat then set_dirtyTs now l' else l') = key l ∧
  ghash l' = ghash l.
Proof.
  intros [Hp Hs Hc _ Hd] Hfr Hly Hnow.
  assert (key l' = key l ∧ ghash l' = ghash l ∧ pstore l' = pstore l ∧ dirtyTs l' = dirtyTs l ∧
    (pbuffer l' = pbuffer l ∨ pbuffer l' = Some ipl)) as (Hk & Hg & Hps & Hdt & Hpb).
  { destruct Hfr as [-> | ->]; simpl; auto 10. }
  split; [|split; [by case_match|done]]. destruct (mlayer l') as [|x xs] eqn:Hml; simpl.
  - split; rewrite ?Hk, ?Hps, ?Hml; try done. destruct Hpb as [->| ->]; auto.
  - split; simpl; rewrite ?Hk, ?Hps, ?Hml; try done. destruct Hpb as [->| ->]; auto.
Qed.

Lemma AddMutation_spec s ch now l ipl t op :
  inv s l ipl → edge_ok t → op = Set_ ∨ op = Del → now ≠ 0 →
  deleteMe l ≠ 1 → ValueId (effective t) ≠ 0 →
  ∃ l' b, AddMutation s ch now l t op =
      Ok (l', effective t,
        if (0 <? length (mlayer l'))%nat then (λ sent, sent ++ [ghash l]) <$> ch else ch, b) ∧
    inv s l' ipl ∧ key l' = key l ∧
    (abs (Postings ipl) (mlayer l'), b) =
      spec_update (post_of t op) (abs (Postings ipl) (mlayer l)).
Proof.
  intros Hinv Hok Hop Hnow Hdel Hnz. unfold AddMutation, AddMutation_body.
  rewrite (proj2 (Z.eqb_neq _ _)) by done. fold (effective t).
  rewrite (proj2 (Z.eqb_neq _ _)) by done. rewrite newPosting_effective by apply Hok. simpl mbind.
  destruct (updateMutationLayer_spec s l ipl (post_of t op)) as (l' & b & -> & Hfr & Hly & Hspec);
    [done|by apply post_of_valid|]. simpl mbind.
  destruct (inv_frame s l l' ipl now) as (Hinv' & Hk & Hg); try done.
  exists (if (0 <? length (mlayer l'))%nat then set_dirtyTs now l' else l'), b.
  split; [|split; [done|split; [done|]]].
  - rewrite Hg. destruct (0 <? length (mlayer l'))%nat eqn:Hl; simpl; by rewrite Hl.
  - by destruct (0 <? length (mlayer l'))%nat.
Qed.

(** The only errors of [AddMutation] are the retry of a list being evicted
    and a missing target: a plain edge with [ValueId] 0. *)
Theorem AddMutation_errors s ch now l ipl t op e :
  inv s l ipl → edge_ok t → op = Set_ ∨ op = Del → now ≠ 0 →
  AddMutation s ch now l t op = Err e ↔
    (deleteMe l = 1 ∧ e = ErrRetry) ∨
    (deleteMe l ≠ 1 ∧ value_bytes t = [] ∧ ValueId t = 0 ∧ e = "ValueId cannot be zero").
Proof.
  intros Hinv Hok Hop Hnow. destruct (decide (deleteMe l = 1)) as [Hd|Hd].
  { unfold AddMutation. rewrite Hd. simpl. intuition congruence. }
  assert (ValueId (effective t) = 0 ↔ value_bytes t = [] ∧ ValueId t = 0) as Heff.
  { unfold effective. case_bool_decide; simpl; [tauto|]. unfold MaxUint64. intuition congruence. }
  destruct (decide (ValueId (effective t) = 0)) as [Hz|Hz].
  - unfold AddMutation, AddMutation_body. rewrite (proj2 (Z.eqb_neq _ _)) by done. fold (effective t).
    rewrite Hz. simpl. apply Heff in Hz as [? ?]. intuition congruence.
  - destruct (AddMutation_spec s ch now l ipl t op) as (l' & b & -> & _); try done.
    split; [done|]. intros [[? _]|(_ & ? & ? & _)]; [done|]. destruct Hz. tauto.
Qed.
End refine.

(** ** Deciding the invariant on concrete lists *)
#[export] Instance layers_dec ipl ml : Decision (layers ipl ml).
Proof.
  destruct (decide (ksorted Uid ipl ∧ ksorted Uid ml ∧
    Forall (λ p, posting_pb.wf p ∧ 0 < Uid p) ipl ∧ Forall (λ p, posting_pb.wf p ∧ 0 < Uid p) ml ∧
    Forall (λ mp, Op mp = Add ∧ ufind (Uid mp) ipl = None ∨
      (Op mp = Set_ ∨ Op mp = Del) ∧ is_Some (ufind (Uid mp) ipl)) ml)) as [Hd|Hd];
    [left|right].
  - by destruct Hd as (? & ? & ? & ? & ?).
  - intros [? ? ? ? ?]. apply Hd. auto.
Defined.

#[export] Instance res_eq_dec {A} `{EqDecision A} : EqDecision (res A).
Proof. solve_decision. Defined.

#[export] Instance stored_dec {St} `{KVStore St} (s : St) k ipl : Decision (stored s k ipl).
Proof.
  unfold stored. destruct (kv_get s k) as [data|e|m]; [|right; by intros (? & ? & _)..].
  destruct (decide (data = [] ∧ ipl = emptyPostingList ∨
    data ≠ [] ∧ postinglist_pb.Unmarshal data emptyPostingList = Ok ipl)) as [Hd|Hd]; [left|right].
  - by exists data.
  - intros (data' & [= <-] & Hd'). done.
Defined.

#[export] Instance inv_dec {St} `{KVStore St} (s : St) l ipl : Decision (inv s l ipl).
Proof.
  destruct (decide (pstore l = true ∧ stored s (key l) ipl ∧
    (pbuffer l = None ∨ pbuffer l = Some ipl) ∧ layers (Postings ipl) (mlayer l) ∧
    (mlayer l ≠ [] → dirtyTs l ≠ 0))) as [Hd|Hd]; [left|right].
  - by destruct Hd as (? & ? & ? & ? & ?).
  - intros [? ? ? ? ?]. apply Hd. auto.
Defined.

(** A list with stored postings 2, 5, 9 and a value, on which 3 was added, 5
    deleted and 9 relabelled. *)
Definition ex_pl : PostingList :=
  mkPostingList
    [mkPosting 2 [] 0 [] 0 3; mkPosting 5 [] 0 [] 0 3; mkPosting 9 [] 0 (bs "a") 0 3;
     mkPosting MaxUint64 (bs "Bob") 261 [] 0 3] (bs "checksum") 0.
Definition ex_key : list byte := bs "friend|key".
Definition ex_store : memstore := {[ ex_key := postinglist_pb.enc ex_pl ]}.
Definition ex_list : List :=
  mkList ex_key 77 42 None
    [mkPosting 3 [] 0 [] 0 Add; mkPosting 5 [] 0 [] 0 Del; mkPosting 9 [] 0 (bs "b") 0 Set_]
    true 0 0 1 1000.
Definition ex_edge : DirectedEdge := mkEdge 1 (bs "friend") None 0 3 [].

Lemma ex_inv : inv ex_store ex_list ex_pl.
Proof. by_decide. Qed.

Lemma ex_edge_ok : edge_ok ex_edge.
Proof. unfold edge_ok, is_u64. by_decide. Qed.

Lemma AddMutation_errors_witness :
  AddMutation ex_store None 2000 (SetForDeletion ex_list) ex_edge Set_ = Err ErrRetry.
Proof.
  apply (AddMutation_errors ex_store None 2000 (SetForDeletion ex_list) ex_pl ex_edge Set_);
    [by_decide|exact ex_edge_ok|by left|done|by left].
Defined.
End posting.
