(* ===== verification/PostingIter.v ===== *)
(** Reading and committing posting lists ([posting/list.go]: [iterate],
    [Length], [Uids], [Value], [commit], [CommitIfDirty]): the definitions are in
    [PostingList]; this file proves what they return. *)
From S2P Require Import Prelude Bytes Store Proto PostingPb Md5 Task PostingList.
From stdpp Require Import options.
#[local] Open Scope Z_scope.
#[local] Set Default Proof Using "Type*".

Module posting_read.
Import posting.

(** The postings a reader sees, in uid order: the merge of the two layers in
    which a mutation hides the immutable posting of its uid. *)
Fixpoint merge2 (pl : list Posting) : list Posting → list Posting :=
  fix go (ml : list Posting) : list Posting :=
    match pl, ml with
    | [], _ => filter (λ p, Op p ≠ Del) ml
    | _, [] => pl
    | p :: pl', m :: ml' =>
        if Uid p <? Uid m then p :: merge2 pl' ml
        else
          let rest := if Uid m <? Uid p then go ml' else merge2 pl' ml' in
          if Op m =? Del then rest else m :: rest
    end.

(** Running a callback over a list until it declines to continue. *)
Fixpoint ifold {A} (f : A → Posting → res (A * bool)) (acc : A) (ps : list Posting) : res A :=
  match ps with
  | [] => Ok acc
  | p :: ps =>
      r ← f acc p;
      let '(acc, cont) := (r : A * bool) in
      if cont then ifold f acc ps else Ok acc
  end.

Lemma merge2_nil_l ml : merge2 [] ml = filter (λ p, Op p ≠ Del) ml.
Proof. by destruct ml. Qed.

Lemma merge2_nil_r pl : merge2 pl [] = pl.
Proof. by destruct pl. Qed.

Lemma merge2_cons p pl m ml :
  merge2 (p :: pl) (m :: ml) =
    if Uid p <? Uid m then p :: merge2 pl (m :: ml)
    else
      let rest := if Uid m <? Uid p then merge2 (p :: pl) ml else merge2 pl ml in
      if Op m =? Del then rest else m :: rest.
Proof. done. Qed.

(** The order in which the loop consumes the two layers. *)
Lemma merge2_ind (P : list Posting → list Posting → Prop) :
  (∀ ml, P [] ml) → (∀ pl, P pl []) →
  (∀ p pl m ml, P pl (m :: ml) → P (p :: pl) ml → P pl ml → P (p :: pl) (m :: ml)) →
  ∀ pl ml, P pl ml.
Proof.
  intros Hl Hr Hc pl. induction pl as [|p pl IHp]; intros ml; [done|].
  induction ml as [|m ml IHm]; auto.
Qed.

Definition uid_pos (ps : list Posting) : Prop := Forall (λ p, 0 < Uid p) ps.

Lemma drop_default (ps : list Posting) i :
  match drop i ps with
  | [] => ps !! i = None
  | p :: rest => ps !! i = Some p ∧ rest = drop (S i) ps
  end.
Proof.
  destruct (ps !! i) as [p|] eqn:Hp.
  - by rewrite (drop_S ps p i).
  - apply lookup_ge_None in Hp. by rewrite drop_ge.
Qed.

Lemma uid_pos_drop ps i p rest : uid_pos ps → drop i ps = p :: rest → 0 < Uid p.
Proof.
  intros Hps Hd. unfold uid_pos in Hps. rewrite <-(take_drop i ps), Hd in Hps.
  apply Forall_app in Hps as [_ [? _]%Forall_cons]. done.
Qed.

(** With enough fuel, the loop is the fold over the merge: it always ends. *)
Lemma iterate_loop_spec {A} (f : A → Posting → res (A * bool)) pl ml fuel pidx midx acc :
  uid_pos pl → uid_pos ml →
  (length (drop pidx pl) + length (drop midx ml) < fuel)%nat →
  iterate_loop fuel pl ml pidx midx f acc = ifold f acc (merge2 (drop pidx pl) (drop midx ml)).
Proof.
  intros Hpl Hml. revert pidx midx acc.
  induction fuel as [|fuel IH]; intros pidx midx acc Hf; [lia|]. cbn [iterate_loop].
  pose proof (drop_default pl pidx) as Hp. pose proof (drop_default ml midx) as Hm.
  pose proof (uid_pos_drop pl pidx) as Hpp. pose proof (uid_pos_drop ml midx) as Hmm.
  assert (∀ pidx' midx' (r : A * bool), (length (drop pidx' pl) + length (drop midx' ml) < fuel)%nat →
    (if r.2 then iterate_loop fuel pl ml pidx' midx' f r.1 else Ok r.1) =
    (let '(acc, cont) := r in
     if cont then ifold f acc (merge2 (drop pidx' pl) (drop midx' ml)) else Ok acc)) as Hgo.
  { intros pidx' midx' [acc' []] Hl; simpl; [by apply IH|done]. }
  destruct (drop pidx pl) as [|p pl'] eqn:Hdp; destruct (drop midx ml) as [|m ml'] eqn:Hdm;
    [|destruct Hm as [Hm ->]|destruct Hp as [Hp ->]|destruct Hp as [Hp ->], Hm as [Hm ->]];
    rewrite ?Hp, ?Hm; simpl default; cbn [Uid emptyPosting]; cbn [length] in Hf.
  - done.
  - specialize (Hmm m _ Hml eq_refl).
    rewrite (proj2 (Z.eqb_neq (Uid m) 0)), merge2_nil_l, filter_cons by lia. simpl.
    destruct (Z.eqb_spec (Op m) Del); simpl.
    + rewrite decide_False by tauto. rewrite <-merge2_nil_l, <-Hdp. apply IH. rewrite Hdp. simpl. lia.
    + rewrite decide_True by done. simpl. destruct (f acc m) as [r| |]; [|done..]. simpl.
      rewrite Hgo by (rewrite Hdp; simpl; lia). by rewrite Hdp, merge2_nil_l.
  - specialize (Hpp p _ Hpl eq_refl).
    rewrite (proj2 (Z.eqb_neq (Uid p) 0)), merge2_nil_r by lia. simpl.
    destruct (f acc p) as [r| |]; [|done..]. simpl.
    rewrite Hgo by (rewrite Hdm; simpl; lia). by rewrite Hdm, merge2_nil_r.
  - specialize (Hpp p _ Hpl eq_refl). specialize (Hmm m _ Hml eq_refl).
    rewrite (proj2 (Z.eqb_neq (Uid p) 0)), (proj2 (Z.eqb_neq (Uid m) 0)), merge2_cons by lia. simpl.
    rewrite (proj2 (Z.ltb_lt 0 (Uid p))), (proj2 (Z.ltb_lt 0 (Uid m))) by lia. simpl.
    destruct (Z.ltb_spec (Uid p) (Uid m)) as [Hlt|Hge].
    { simpl. destruct (f acc p) as [r| |]; [|done..]. simpl.
      rewrite Hgo by (rewrite Hdm; simpl; lia). by rewrite Hdm. }
    assert (∀ pidx' midx' X, X = merge2 (drop pidx' pl) (drop midx' ml) →
      (length (drop pidx' pl) + length (drop midx' ml) < fuel)%nat →
      (r ← if negb (Op m =? Del) then f acc m else Ok (acc, true);
       if (r : A * bool).2 then iterate_loop fuel pl ml pidx' midx' f r.1 else Ok r.1) =
      ifold f acc (if Op m =? Del then X else m :: X)) as Hrest.
    { intros pidx' midx' X -> Hl. destruct (Op m =? Del); simpl; [by apply IH|].
      destruct (f acc m) as [r| |]; [|done..]. simpl. by apply Hgo. }
    destruct (Z.ltb_spec (Uid m) (Uid p)) as [Hlt|Hge'].
    + apply Hrest; rewrite Hdp; [done|simpl; lia].
    + rewrite (proj2 (Z.eqb_eq _ _)) by lia. apply Hrest; [done|simpl; lia].
Qed.

Lemma merge2_subset pl ml p : p ∈ merge2 pl ml → p ∈ pl ∨ p ∈ ml.
Proof.
  revert pl ml. apply (merge2_ind (λ pl ml, p ∈ merge2 pl ml → p ∈ pl ∨ p ∈ ml)).
  - intros ml. rewrite merge2_nil_l. intros [_ ?]%list_elem_of_filter. auto.
  - intros pl. rewrite merge2_nil_r. auto.
  - intros q pl m ml IH1 IH2 IH3. rewrite merge2_cons, !elem_of_cons in *.
    destruct (Uid q <? Uid m); [rewrite !elem_of_cons; tauto|].
    destruct (Uid m <? Uid q), (Op m =? Del); rewrite ?elem_of_cons in *; tauto.
Qed.

Lemma merge2_sorted pl ml : ksorted Uid pl → ksorted Uid ml → ksorted Uid (merge2 pl ml).
Proof.
  revert pl ml.
  apply (merge2_ind (λ pl ml, ksorted Uid pl → ksorted Uid ml → ksorted Uid (merge2 pl ml))).
  - intros ml _ Hs. rewrite merge2_nil_l. by apply ksorted_filter.
  - intros pl Hs _. by rewrite merge2_nil_r.
  - intros q pl m ml IH1 IH2 IH3 Hp Hm. rewrite merge2_cons.
    pose proof Hp as [Hpl Hq]%ksorted_cons. pose proof Hm as [Hml Hmm]%ksorted_cons.
    destruct (Z.ltb_spec (Uid q) (Uid m)).
    + apply ksorted_cons. split; [by apply IH1|].
      intros b [Hb|[->|Hb]%elem_of_cons]%merge2_subset; [auto|done|]. specialize (Hmm b Hb). lia.
    + destruct (Z.ltb_spec (Uid m) (Uid q)), (Op m =? Del); auto.
      * apply ksorted_cons. split; [by apply IH2|].
        intros b [[->|Hb]%elem_of_cons|Hb]%merge2_subset; [done| |auto]. specialize (Hq b Hb). lia.
      * apply ksorted_cons. split; [by apply IH3|].
        intros b [Hb|Hb]%merge2_subset; [|auto]. specialize (Hq b Hb). lia.
Qed.

Lemma ufind_below u ps : Forall (λ q, u < Uid q) ps → ufind u ps = None.
Proof. intros Hf. rewrite Forall_forall in Hf. apply ufind_None. intros q Hq. specialize (Hf q Hq). lia. Qed.

(** The merge shows exactly the live postings. *)
Lemma merge2_find pl ml u :
  ksorted Uid pl → ksorted Uid ml → ufind u (merge2 pl ml) = live_at pl ml u.
Proof.
  unfold live_at. revert pl ml.
  apply (merge2_ind (λ pl ml, ksorted Uid pl → ksorted Uid ml → ufind u (merge2 pl ml) =
    match ufind u ml with Some mp => if Op mp =? Del then None else Some mp | None => ufind u pl end)).
  - intros ml _ Hs. rewrite merge2_nil_l. induction ml as [|m ml IH]; [done|].
    apply ksorted_cons in Hs as [Hs Hm]. specialize (IH Hs). rewrite filter_cons. simpl.
    destruct (Z.eqb_spec (Op m) Del) as [Hd|Hd].
    + rewrite decide_False by tauto. rewrite IH. destruct (Z.eqb_spec (Uid m) u) as [<-|]; [|done].
      by rewrite ufind_below, (proj2 (Z.eqb_eq _ _) Hd) by (by apply Forall_forall).
    + rewrite decide_True by done. simpl. rewrite IH.
      destruct (Uid m =? u); [by rewrite (proj2 (Z.eqb_neq _ _) Hd)|done].
  - intros pl _ _. by rewrite merge2_nil_r.
  - intros q pl m ml IH1 IH2 IH3 Hp Hm. rewrite merge2_cons.
    pose proof Hp as [Hpl Hq]%ksorted_cons. pose proof Hm as [Hml Hmm]%ksorted_cons.
    assert (u ≤ Uid q → ufind u pl = None) as Hnp.
    { intros Hu. apply ufind_below, Forall_forall. intros b Hb. specialize (Hq b Hb). lia. }
    assert (u ≤ Uid m → ufind u ml = None) as Hnm.
    { intros Hu. apply ufind_below, Forall_forall. intros b Hb. specialize (Hmm b Hb). lia. }
    specialize (IH1 Hpl Hm). specialize (IH2 Hp Hml). specialize (IH3 Hpl Hml).
    destruct (Z.ltb_spec (Uid q) (Uid m)); cbn [ufind] in *.
    + rewrite IH1. destruct (Z.eqb_spec (Uid q) u) as [Hu|]; [|done].
      rewrite (proj2 (Z.eqb_neq _ _)) by lia. by rewrite Hnm by lia.
    + destruct (Z.ltb_spec (Uid m) (Uid q)).
      * destruct (Op m =? Del) eqn:Ho; cbn [ufind]; rewrite ?IH2;
          destruct (Z.eqb_spec (Uid m) u) as [Hu|]; rewrite ?Ho; try done.
        rewrite Hnm, (proj2 (Z.eqb_neq _ _)) by lia. by apply Hnp; lia.
      * replace (Uid q) with (Uid m) in * by lia.
        destruct (Op m =? Del) eqn:Ho; cbn [ufind]; rewrite ?IH3;
          destruct (Z.eqb_spec (Uid m) u) as [Hu|]; rewrite ?Ho; try done.
        rewrite Hnm by lia. by apply Hnp; lia.
Qed.

(** ** The postings after a uid *)
Definition after (u : Z) (ps : list Posting) : list Posting := filter (λ p, u < Uid p) ps.

Lemma start_index_drop u ps :
  ksorted Uid ps → uid_pos ps → 0 ≤ u → drop (start_index u ps) ps = after u ps.
Proof.
  intros Hs Hpos Hu. unfold start_index, after.
  destruct (Z.ltb_spec 0 u).
  - destruct (ksearch_spec Uid (λ uid, u <? uid) ps) as (Hi & H1 & H2); [lia|done|].
    rewrite <-(take_drop (ksearch Uid (λ uid, u <? uid) ps) ps) at 3. rewrite filter_app.
    rewrite (filter_none _ (take _ _)), (filter_all _ (drop _ _)); [done|..].
    + eapply Forall_impl; [exact H2|]. simpl. lia.
    + eapply Forall_impl; [exact H1|]. simpl. lia.
  - rewrite drop_0. symmetry. apply filter_all.
    eapply Forall_impl; [exact Hpos|]. simpl. lia.
Qed.

Lemma elem_ufind ps p : ksorted Uid ps → p ∈ ps ↔ ufind (Uid p) ps = Some p.
Proof. intros Hs. split; [intros Hp; by apply ufind_elem|by intros [? _]%ufind_Some]. Qed.

Lemma ufind_after u u' ps : ufind u' (after u ps) = if u <? u' then ufind u' ps else None.
Proof.
  unfold after. induction ps as [|p ps IH]; simpl; [by destruct (u <? u')|].
  rewrite filter_cons. case_decide as Hp; simpl; rewrite IH.
  - destruct (Z.eqb_spec (Uid p) u') as [<-|]; [|done]. by rewrite (proj2 (Z.ltb_lt _ _)).
  - destruct (Z.eqb_spec (Uid p) u') as [<-|]; [|done]. by rewrite (proj2 (Z.ltb_ge _ _)) by lia.
Qed.

Lemma after_sorted u ps : ksorted Uid ps → ksorted Uid (after u ps).
Proof. apply ksorted_filter. Qed.

Lemma after_merge2 u pl ml :
  ksorted Uid pl → ksorted Uid ml →
  merge2 (after u pl) (after u ml) = after u (merge2 pl ml).
Proof.
  intros Hp Hm. pose proof (merge2_sorted _ _ Hp Hm).
  pose proof (after_sorted u _ Hp). pose proof (after_sorted u _ Hm).
  apply (ksorted_ext Uid); [by apply merge2_sorted|by apply after_sorted|].
  intros p. rewrite !elem_ufind by auto using merge2_sorted, after_sorted.
  rewrite ufind_after, !merge2_find by done. unfold live_at. rewrite !ufind_after.
  by destruct (u <? Uid p).
Qed.

Definition ops_ok (pl ml : list Posting) : Prop :=
  Forall (λ mp, Op mp = Add ∧ ufind (Uid mp) pl = None ∨
    (Op mp = Set_ ∨ Op mp = Del) ∧ is_Some (ufind (Uid mp) pl)) ml.

Lemma ops_ok_after u pl ml : ops_ok pl ml → ops_ok (after u pl) (after u ml).
Proof.
  unfold ops_ok. rewrite !Forall_forall. intros Hall p [Hu Hp]%list_elem_of_filter.
  rewrite ufind_after, (proj2 (Z.ltb_lt _ _)) by done. by apply Hall.
Qed.

Lemma ops_ok_tail q pl ml :
  (∀ m, m ∈ ml → Uid q < Uid m) → ops_ok (q :: pl) ml → ops_ok pl ml.
Proof.
  unfold ops_ok. intros Hlt. rewrite !Forall_forall. intros Hall p Hp.
  specialize (Hall p Hp). specialize (Hlt p Hp). cbn [ufind] in Hall.
  by rewrite (proj2 (Z.eqb_neq _ _)) in Hall by lia.
Qed.

Lemma count_ops_acc ml c : count_ops ml c = c + count_ops ml 0.
Proof.
  revert c. induction ml as [|m ml IH]; intros c; simpl; [lia|].
  destruct (Op m =? Add); [|destruct (Op m =? Del)].
  - rewrite (IH (c + 1)), (IH (0 + 1)). lia.
  - rewrite (IH (c - 1)), (IH (0 - 1)). lia.
  - rewrite (IH c). lia.
Qed.

(** The classification of the mutations makes [Length]'s counting exact. *)
Lemma merge2_count pl ml :
  ksorted Uid pl → ksorted Uid ml → ops_ok pl ml →
  Z.of_nat (length (merge2 pl ml)) = count_ops ml (Z.of_nat (length pl)).
Proof.
  revert pl ml.
  apply (merge2_ind (λ pl ml, ksorted Uid pl → ksorted Uid ml → ops_ok pl ml →
    Z.of_nat (length (merge2 pl ml)) = count_ops ml (Z.of_nat (length pl)))).
  - intros ml _ _ Ho. rewrite merge2_nil_l. simpl.
    induction Ho as [|m ml Hm Ho IH]; [done|]. rewrite filter_cons. simpl.
    destruct Hm as [[-> _]|[_ [? ?]]]; [|done]. rewrite decide_True by done.
    simpl in *. rewrite count_ops_acc. change (Z.of_nat 0) with 0 in *. lia.
  - intros pl _ _ _. by rewrite merge2_nil_r.
  - intros q pl m ml IH1 IH2 IH3 Hp Hm Ho. rewrite merge2_cons.
    pose proof Hp as [Hpl Hq]%ksorted_cons. pose proof Hm as [Hml Hmm]%ksorted_cons.
    pose proof Ho as [Hom Homl]%Forall_cons. cbn [count_ops ufind] in *.
    destruct (Z.ltb_spec (Uid q) (Uid m)) as [Hlt|Hge].
    { simpl. rewrite Nat2Z.inj_succ, IH1; [|done..|].
      - cbn [count_ops]. rewrite Nat2Z.inj_succ.
        destruct (Op m =? Add); [|destruct (Op m =? Del)];
          rewrite count_ops_acc; symmetry; rewrite count_ops_acc; lia.
      - apply (ops_ok_tail q); [|done]. intros x [->|Hx]%elem_of_cons; [done|].
        specialize (Hmm x Hx). lia. }
    destruct (Z.ltb_spec (Uid m) (Uid q)) as [Hlt|Hge'].
    + assert (Op m = Add) as Ha.
      { destruct Hom as [[? _]|[_ [p Hsome]]]; [done|].
        rewrite (proj2 (Z.eqb_neq _ _)) in Hsome by lia.
        apply ufind_Some in Hsome as [Hin ?]. specialize (Hq p Hin). lia. }
      rewrite Ha. change (Add =? Del) with false. change (Add =? Add) with true.
      specialize (IH2 Hp Hml Homl). cbn [length] in *.
      rewrite Nat2Z.inj_succ, IH2, count_ops_acc, (count_ops_acc ml (_ + 1)). lia.
    + assert (Op m = Set_ ∨ Op m = Del) as Hsd.
      { destruct Hom as [[_ Hnone]|[? _]]; [|done].
        by rewrite (proj2 (Z.eqb_eq _ _)) in Hnone by lia. }
      assert (ops_ok pl ml) as Ho'.
      { apply (ops_ok_tail q); [|done]. intros x Hx. specialize (Hmm x Hx). lia. }
      specialize (IH3 Hpl Hml Ho').
      destruct Hsd as [-> | ->]; simpl; rewrite count_ops_acc in *; lia.
Qed.

Lemma layers_pos ipl ml : layers ipl ml → uid_pos ipl ∧ uid_pos ml.
Proof.
  intros [_ _ Hi Hm _]. unfold uid_pos.
  split; (eapply Forall_impl; [eassumption|]); simpl; tauto.
Qed.

(** ** The intersection loop of [Uids] *)
Lemma advance_spec uids uid idx :
  let k := advance uids uid idx in
  (idx ≤ k ≤ idx + length uids)%nat ∧ Forall (λ x, x < uid) (take (k - idx) uids) ∧
  match uids !! (k - idx)%nat with Some x => uid ≤ x | None => k = (idx + length uids)%nat end.
Proof.
  revert idx. induction uids as [|x uids IH]; intros idx; simpl.
  { rewrite Nat.sub_diag. split_and!; [lia..|constructor|simpl; lia]. }
  destruct (Z.ltb_spec x uid).
  - destruct (IH (S idx)) as (Hk & Htake & Hlook).
    destruct (advance uids uid (S idx) - idx)%nat as [|d] eqn:Hd; [lia|].
    replace (advance uids uid (S idx) - S idx)%nat with d in * by lia. simpl.
    split_and!; [lia..|by constructor|]. destruct (uids !! d); [done|lia].
  - rewrite Nat.sub_diag. simpl. split_and!; [lia..|constructor|done].
Qed.

Lemma List_Size_gt uids : uids ≠ [] → Z.of_nat (length uids) < List_Size uids.
Proof.
  intros Hne. unfold List_Size. destruct (Nat.eqb_spec (length uids) 0) as [?%nil_length_inv|]; [done|].
  lia.
Qed.

(** [uid] is past every element of a nonempty intersection list. *)
Definition past (its : list Z) (uid : Z) : Prop := Forall (λ x, x < uid) its.
#[local] Instance past_dec its uid : Decision (past its uid).
Proof. unfold past. apply _. Defined.

Lemma advance_sorted its uid idx :
  StronglySorted Z.le its → (idx ≤ length its)%nat → Forall (λ x, x < uid) (take idx its) →
  let k := advance (drop idx its) uid idx in
  (k ≤ length its)%nat ∧ Forall (λ x, x < uid) (take k its) ∧
  match its !! k with
  | Some x => uid ≤ x ∧ ¬ past its uid ∧ (uid ∈ its ↔ x = uid)
  | None => past its uid
  end.
Proof.
  intros HI Hidx Htake k. destruct (advance_spec (drop idx its) uid idx) as (Hk & Hlt & Hlook).
  fold k in Hk, Hlt, Hlook. rewrite length_drop in Hk, Hlook. rewrite lookup_drop in Hlook.
  replace (idx + (k - idx))%nat with k in Hlook by lia.
  assert (Forall (λ x, x < uid) (take k its)) as Hall.
  { replace k with (idx + (k - idx))%nat by lia. rewrite <-take_take_drop. by apply Forall_app. }
  split_and!; [lia|done|]. destruct (its !! k) as [x|] eqn:Hx.
  - split; [done|]. assert (x ∈ its) by (by eapply list_elem_of_lookup_2). split.
    + unfold past. rewrite Forall_forall. intros Hpast. specialize (Hpast x). simpl in Hpast. lia || (specialize (Hpast ltac:(done)); lia).
    + split; [|intros ->; done]. intros Hin. rewrite <-(take_drop k its) in Hin, HI.
      rewrite (drop_S its x k Hx) in Hin, HI. apply StronglySorted_app in HI as (_ & _ & [Hge _]%StronglySorted_cons).
      rewrite Forall_forall in Hall, Hge.
      apply elem_of_app in Hin as [Hin|[->|Hin]%elem_of_cons]; [specialize (Hall _ Hin); lia|done|].
      specialize (Hge _ Hin). simpl in Hge. lia.
  - unfold past. rewrite take_ge in Hall; [done|]. by apply lookup_ge_None.
Qed.

(** The uids of the postings, the value posting left out. *)
Definition plain_uids (ps : list Posting) : list Z := Uid <$> filter (λ p, Uid p ≠ MaxUint64) ps.

(** The value posting, when there is one, comes last. *)
Lemma plain_uids_stop p ps :
  ksorted Uid (p :: ps) → Forall (λ q, Uid q ≤ MaxUint64) ps → Uid p = MaxUint64 →
  plain_uids (p :: ps) = [].
Proof.
  intros [_ Hp]%ksorted_cons Hall Hm. unfold plain_uids. rewrite filter_cons_False by tauto.
  destruct ps as [|q ps]; [done|]. apply Forall_cons in Hall as [Hq _].
  specialize (Hp q ltac:(left)). lia.
Qed.

Lemma plain_uids_cons p ps : Uid p ≠ MaxUint64 → plain_uids (p :: ps) = Uid p :: plain_uids ps.
Proof. intros Hne. unfold plain_uids. by rewrite filter_cons_True. Qed.

Lemma ifold_uids_none u ps idx result :
  ksorted Uid ps → Forall (λ q, Uid q ≤ MaxUint64) ps →
  ifold (uids_callback (mkOptions u None)) (idx, result) ps = Ok (idx, result ++ plain_uids ps).
Proof.
  revert result. induction ps as [|p ps IH]; intros result Hs Hall; [by rewrite app_nil_r|].
  pose proof Hall as [Hp Hps]%Forall_cons. pose proof Hs as [Hs' _]%ksorted_cons. simpl.
  destruct (Z.eqb_spec (Uid p) MaxUint64) as [Hm|Hm]; simpl.
  - by rewrite plain_uids_stop, app_nil_r by done.
  - rewrite IH, plain_uids_cons by done. by rewrite <-(assoc_L (++)).
Qed.

Definition result_of {A} (r : res (A * list Z)) : res (list Z) := ' (_, result) ← r; Ok result.

Lemma ifold_uids_some u its ps idx result :
  its ≠ [] → StronglySorted Z.le its →
  ksorted Uid ps → Forall (λ q, Uid q ≤ MaxUint64) ps →
  (idx ≤ length its)%nat → (∀ p, p ∈ ps → Forall (λ x, x < Uid p) (take idx its)) →
  result_of (ifold (uids_callback (mkOptions u (Some its))) (idx, result) ps) =
    if bool_decide (Exists (past its) (plain_uids ps)) then Crash "index out of range"
    else Ok (result ++ filter (λ x, x ∈ its) (plain_uids ps)).
Proof.
  intros Hne HI. revert idx result. induction ps as [|p ps IH]; intros idx result Hs Hall Hidx Htake.
  { simpl. by rewrite app_nil_r. }
  pose proof Hall as [Hp Hps]%Forall_cons. pose proof Hs as [Hs' Hlt]%ksorted_cons. cbn [ifold].
  assert (uids_callback (mkOptions u (Some its)) (idx, result) p =
    (if Uid p =? MaxUint64 then Ok (idx, result, false) else
     let k := advance (drop idx its) (Uid p) idx in
     if List_Size its <=? Z.of_nat k then Ok (k, result, true) else
     x ← index its k; if Uid p <? x then Ok (k, result, true)
                    else Ok (k, result ++ [Uid p], true))) as -> by done.
  destruct (Z.eqb_spec (Uid p) MaxUint64) as [Hm|Hm].
  { rewrite plain_uids_stop, filter_nil, app_nil_r by done.
    by rewrite bool_decide_false by (by intros ?%Exists_nil). }
  rewrite plain_uids_cons by done. cbv zeta.
  destruct (advance_sorted its (Uid p) idx HI Hidx (Htake p ltac:(left))) as (Hk & Hbelow & Hlook).
  set (k := advance (drop idx its) (Uid p) idx) in *.
  pose proof (List_Size_gt its Hne). rewrite (proj2 (Z.leb_gt _ _)) by lia.
  assert (∀ q, q ∈ ps → Forall (λ x, x < Uid q) (take k its)) as Htake'.
  { intros q Hq. eapply Forall_impl; [exact Hbelow|]. simpl. specialize (Hlt q Hq). lia. }
  unfold index. destruct (its !! k) as [x|] eqn:Hx.
  - destruct Hlook as (Hle & Hnp & Hin).
    rewrite (bool_decide_ext (Exists (past its) (Uid p :: plain_uids ps))
      (Exists (past its) (plain_uids ps))) by (rewrite Exists_cons; tauto).
    cbn [mbind res_bind]. rewrite filter_cons.
    destruct (Z.ltb_spec (Uid p) x) as [Hltx|Hgex].
    + rewrite decide_False by (rewrite Hin; lia). by apply IH.
    + rewrite decide_True by (rewrite Hin; lia).
      replace (result ++ Uid p :: filter (λ x, x ∈ its) (plain_uids ps)) with
        ((result ++ [Uid p]) ++ filter (λ x, x ∈ its) (plain_uids ps)) by (by rewrite <-(assoc_L (++))).
      by apply IH.
  - by rewrite bool_decide_true by (by apply Exists_cons_hd).
Qed.

(** ** Reads *)
Section read.
Context {St : Type} `{KVStore St}.
Implicit Types (s : St) (l : List) (ipl : PostingList).

Definition live ipl l : list Posting := merge2 (Postings ipl) (mlayer l).

(** The abstract map the list denotes. *)
Definition view_of ipl l : gmap Z (Z * list byte * list byte) := abs (Postings ipl) (mlayer l).

Lemma live_sorted s l ipl : inv s l ipl → ksorted Uid (live ipl l).
Proof. intros Hinv. apply merge2_sorted; apply Hinv. Qed.

Lemma live_find s l ipl u :
  inv s l ipl → ufind u (live ipl l) = live_at (Postings ipl) (mlayer l) u.
Proof. intros Hinv. apply merge2_find; apply Hinv. Qed.

Lemma live_wf s l ipl : inv s l ipl → Forall (λ p, posting_pb.wf p ∧ 0 < Uid p) (live ipl l).
Proof.
  intros Hinv. apply Forall_forall. intros p Hp%merge2_subset.
  destruct (inv_layers _ _ _ Hinv) as [_ _ Hi Hm _]. rewrite Forall_forall in Hi, Hm.
  destruct Hp; auto.
Qed.

Lemma iterate_spec {A} s l ipl u (f : A → Posting → res (A * bool)) acc :
  inv s l ipl → 0 ≤ u →
  iterate s l u f acc =
    (a ← ifold f acc (after u (live ipl l)); Ok (a, set_pbuffer (Some ipl) l)).
Proof.
  intros Hinv Hu. unfold iterate. rewrite (getPostingList_spec s l ipl) by done.
  cbn [mbind res_bind].
  pose proof (inv_layers _ _ _ Hinv) as Hly. destruct (layers_pos _ _ Hly) as [Hip Hmp].
  destruct Hly as [Hi Hm _ _ _]. rewrite iterate_loop_spec; [|done..|].
  - rewrite !start_index_drop by done. rewrite after_merge2 by done. done.
  - rewrite !length_drop. cbn [mlayer set_pbuffer]. lia.
Qed.

Lemma live_entries s l ipl u :
  inv s l ipl →
  (λ p, (Uid p, content p)) <$> after u (live ipl l) ≡ₚ
  map_to_list (filter (λ kv, u < kv.1) (view_of ipl l)).
Proof.
  intros Hinv. pose proof (live_sorted s l ipl Hinv) as Hs.
  pose proof (after_sorted u _ Hs) as Hs'. apply NoDup_Permutation.
  - apply (NoDup_fmap_1 fst). rewrite <-list_fmap_compose. by apply ssorted_lt_NoDup.
  - apply NoDup_map_to_list.
  - intros [k c]. rewrite elem_of_map_to_list, map_lookup_filter_Some. simpl.
    unfold view_of. rewrite lookup_abs, <-(live_find s) by done. split.
    + intros (p & [= -> ->] & [Hu Hp]%list_elem_of_filter)%list_elem_of_fmap.
      by rewrite (ufind_elem (Uid p) _ p).
    + intros [Hf Hu]. destruct (ufind k (live ipl l)) as [p|] eqn:Hp; [|done].
      apply ufind_Some in Hp as [Hp <-]. injection Hf as <-.
      apply list_elem_of_fmap. exists p. split; [done|]. by apply list_elem_of_filter.
Qed.

Lemma Length_spec s l ipl u :
  inv s l ipl → 0 ≤ u →
  Length s l u = Ok (Z.of_nat (size (filter (λ kv, u < kv.1) (view_of ipl l))),
    set_pbuffer (Some ipl) l).
Proof.
  intros Hinv Hu. unfold Length. rewrite (getPostingList_spec s l ipl) by done. simpl mbind.
  pose proof (inv_layers _ _ _ Hinv) as Hly. destruct (layers_pos _ _ Hly) as [Hip Hmp].
  destruct Hly as [Hi Hm _ _ Hops]. cbn [mlayer set_pbuffer]. do 2 f_equal.
  rewrite start_index_drop by done.
  replace (Z.of_nat (length (Postings ipl)) - Z.of_nat (start_index u (Postings ipl)))
    with (Z.of_nat (length (after u (Postings ipl)))).
  2: { rewrite <-start_index_drop, length_drop by done.
       assert (start_index u (Postings ipl) ≤ length (Postings ipl))%nat; [|lia].
       unfold start_index. destruct (0 <? u); [|lia].
       apply (ksearch_spec Uid (λ uid, u <? uid)); [lia|done]. }
  rewrite <-merge2_count by auto using after_sorted, ops_ok_after.
  rewrite after_merge2 by done. fold (live ipl l). f_equal.
  rewrite <-length_map_to_list, <-(live_entries s) by done. by rewrite length_fmap.
Qed.

(** What a reader of the abstract map lists after [u]: its keys in order, the
    value posting left out. *)
Lemma live_uids s l ipl u :
  inv s l ipl →
  StronglySorted Z.lt (plain_uids (after u (live ipl l))) ∧
  ∀ x, x ∈ plain_uids (after u (live ipl l)) ↔
    u < x ∧ x ≠ MaxUint64 ∧ is_Some (view_of ipl l !! x).
Proof.
  intros Hinv. pose proof (live_sorted s l ipl Hinv) as Hs. split.
  - unfold plain_uids. apply ksorted_filter, after_sorted, Hs.
  - intros x. unfold plain_uids, view_of. rewrite lookup_abs, <-(live_find s) by done.
    rewrite fmap_is_Some. split.
    + intros (p & -> & [Hm [Hu Hp]%list_elem_of_filter]%list_elem_of_filter)%list_elem_of_fmap.
      rewrite (ufind_elem (Uid p) _ p) by done. eauto.
    + intros (Hu & Hm & p & [Hp <-]%ufind_Some). apply list_elem_of_fmap. exists p.
      split; [done|]. apply list_elem_of_filter. split; [done|]. by apply list_elem_of_filter.
Qed.

Lemma live_max s l ipl u : inv s l ipl → Forall (λ q, Uid q ≤ MaxUint64) (after u (live ipl l)).
Proof.
  intros Hinv. apply Forall_forall. intros p [_ Hp]%list_elem_of_filter.
  pose proof (live_wf s l ipl Hinv) as Hwf. rewrite Forall_forall in Hwf.
  apply Hwf in Hp as [[[_ ?] _] _]. done.
Qed.

Lemma Uids_spec s l ipl opt :
  inv s l ipl → 0 ≤ AfterUID opt → (∀ its, Intersect opt = Some its → StronglySorted Z.le its) →
  let us := plain_uids (after (AfterUID opt) (live ipl l)) in
  Uids s l opt =
    match Intersect opt with
    | None => Ok (us, set_pbuffer (Some ipl) l)
    | Some its =>
        if bool_decide (its ≠ [] ∧ Exists (past its) us) then Crash "index out of range"
        else Ok (filter (λ x, x ∈ its) us, set_pbuffer (Some ipl) l)
    end.
Proof.
  intros Hinv Hu Hsort us. unfold Uids. rewrite (iterate_spec s l ipl) by done.
  pose proof (after_sorted (AfterUID opt) _ (live_sorted s l ipl Hinv)) as Hs.
  pose proof (live_max s l ipl (AfterUID opt) Hinv) as Hmax.
  destruct opt as [u [its|]]; cbn [AfterUID Intersect] in *.
  - destruct (decide (its = [])) as [->|Hne].
    + rewrite bool_decide_false by tauto. clear Hsort. unfold us. clear us.
      rewrite filter_none by (apply Forall_forall; intros x _; apply not_elem_of_nil).
      enough (∀ ps idx, ifold (uids_callback (mkOptions u (Some []))) (idx, []) ps = Ok (idx, [])
        ) as -> by done.
      induction ps as [|p ps IH]; intros idx; [done|]. simpl. destruct (Uid p =? MaxUint64); [done|].
      simpl. unfold List_Size. simpl. rewrite drop_nil. simpl.
      destruct (Z.leb_spec 0 (Z.of_nat idx)); [|lia]. simpl. apply IH.
    + pose proof (ifold_uids_some u its _ 0 [] Hne (Hsort its eq_refl) Hs Hmax) as Hf.
      rewrite (bool_decide_ext (its ≠ [] ∧ Exists (past its) us) (Exists (past its) us)) by tauto.
      fold us in Hf. unfold result_of in Hf.
      destruct (ifold _ _ _) as [[idx result]| |]; simpl in *;
        destruct (bool_decide (Exists (past its) us)); (specialize (Hf ltac:(lia) ltac:(intros; constructor))); congruence.
  - by rewrite ifold_uids_none by done.
Qed.

Lemma after_max s l ipl :
  inv s l ipl →
  after (MaxUint64 - 1) (live ipl l) =
    match live_at (Postings ipl) (mlayer l) MaxUint64 with Some p => [p] | None => [] end.
Proof.
  intros Hinv. pose proof (live_sorted s l ipl Hinv) as Hs.
  pose proof (live_max s l ipl (MaxUint64 - 1) Hinv) as Hmax. rewrite Forall_forall in Hmax.
  pose proof (after_sorted (MaxUint64 - 1) _ Hs) as Hs'. rewrite <-(live_find s) by done.
  apply (ksorted_ext Uid); [done| |].
  - destruct (ufind _ _); repeat constructor.
  - intros p. split.
    + intros Hp. pose proof (Hmax p Hp). apply list_elem_of_filter in Hp as [Hu Hp].
      rewrite (ufind_elem MaxUint64 _ p) by (done || lia). left.
    + intros Hp. destruct (ufind MaxUint64 (live ipl l)) as [q|] eqn:Hq; [|by apply elem_of_nil in Hp].
      apply list_elem_of_singleton in Hp as ->. apply ufind_Some in Hq as [Hq Hu].
      apply list_elem_of_filter. split; [lia|done].
Qed.

Lemma ValueOf_spec s l ipl :
  inv s l ipl →
  ValueOf s l =
    Ok (match view_of ipl l !! MaxUint64 with
        | Some (vt, val, _) => Some (val, vt mod 256)
        | None => None
        end, set_pbuffer (Some ipl) l).
Proof.
  intros Hinv. unfold ValueOf. rewrite (iterate_spec s l ipl) by done.
  rewrite (after_max s) by done. unfold view_of. rewrite lookup_abs.
  destruct (live_at (Postings ipl) (mlayer l) MaxUint64) as [p|] eqn:Hp; [|done]. simpl.
  rewrite <-(live_find s) in Hp by done. apply ufind_Some in Hp as [_ Hp].
  by rewrite (proj2 (Z.eqb_eq _ _)).
Qed.
End read.

(** ** Commits *)
Section commit.
Context {St : Type} `{KVSpec St view}.
Implicit Types (s : St) (l : List) (ipl : PostingList).

(** The encoded list, with its checksum, is shorter than an [int] can say. *)
Definition fits ipl l : Prop :=
  Z.of_nat (length (postinglist_pb.enc (mkPostingList (live ipl l) [] 0))) + 18 < 2 ^ 63.

Lemma ifold_commit ps count h final :
  ∃ count' h', ifold commit_callback (count, h, final) ps = Ok (count', h', final ++ ps).
Proof.
  revert count h final. induction ps as [|p ps IH]; intros count h final; simpl.
  - rewrite app_nil_r. eauto.
  - destruct (IH (count + 1) (h ++ PutVarint count ++ PutUvarint (Uid p) ++ Value p ++ Label p)
      (final ++ [p])) as (c' & h' & ->). rewrite <-(assoc_L (++)). eauto.
Qed.

Lemma stored_fresh s l ipl k :
  stored s k ipl → layers (Postings ipl) (mlayer l) → mlayer l = [] → pstore l = true →
  pbuffer l = None → key l = k → inv s l ipl.
Proof. intros ? ? Hm ? ? <-. split; auto. Qed.

Lemma layers_base ps :
  ksorted Uid ps → Forall (λ p, posting_pb.wf p ∧ 0 < Uid p) ps → layers ps [].
Proof. intros. split; try done; constructor. Qed.

Lemma after_zero s l ipl : inv s l ipl → after 0 (live ipl l) = live ipl l.
Proof.
  intros Hinv. apply filter_all. eapply Forall_impl; [by eapply live_wf|]. simpl. tauto.
Qed.

Lemma view_live s l ipl : inv s l ipl → abs (live ipl l) [] = view_of ipl l.
Proof.
  intros Hinv. apply map_eq. intros u. unfold view_of. rewrite !lookup_abs.
  unfold live_at at 1. simpl. by rewrite (live_find s).
Qed.

(** The encoding of the committed list is in range. *)
Lemma committed_wf s l ipl h :
  inv s l ipl → fits ipl l → postinglist_pb.wf (mkPostingList (live ipl l) (md5_Sum h) 0).
Proof.
  intros Hinv Hfits. split; [|split; [by_decide|]].
  - eapply Forall_impl; [by eapply live_wf|]. simpl. tauto.
  - unfold fits, postinglist_pb.enc in *. simpl in *. rewrite !length_app in *.
    rewrite length_enc_bytes by (by rewrite length_md5_Sum). rewrite length_md5_Sum.
    change (size_bytes_field 16) with 18%nat. change (length (enc_bytes x12 [])) with 0%nat in Hfits.
    lia.
Qed.

Lemma commit_spec s l ipl now :
  inv s l ipl → fits ipl l →
  ∃ s' l' ipl', commit s now l = Ok (s', l', bool_decide (mlayer l ≠ [])) ∧
    inv s' l' ipl' ∧ mlayer l' = [] ∧ dirtyTs l' = 0 ∧ key l' = key l ∧
    view_of ipl' l' = view_of ipl l ∧ (∀ k, k ≠ key l → view s' !! k = view s !! k).
Proof.
  intros Hinv Hfits. unfold commit. destruct (Nat.eqb_spec (length (mlayer l)) 0) as [Hz|Hnz].
  - apply nil_length_inv in Hz. exists s, (set_dirtyTs 0 l), ipl.
    rewrite bool_decide_false by tauto. split_and!; try done.
    destruct Hinv as [? ? ? ? _]. by split.
  - rewrite bool_decide_true by (intros Hl; by rewrite Hl in Hnz).
    rewrite (iterate_spec s l ipl), (after_zero s) by done.
    destruct (ifold_commit (live ipl l) 0 [] []) as (c & h & ->). cbn [mbind res_bind app].
    set (pl := mkPostingList (live ipl l) (md5_Sum h) 0).
    assert (postinglist_pb.wf pl) as Hwf by (by eapply committed_wf).
    rewrite postinglist_pb.List_Marshal_enc by done. cbn [key set_pbuffer].
    destruct (kv_set_view s (key l) (postinglist_pb.enc pl)) as (s' & -> & Hs').
    eexists s', _, pl. split; [reflexivity|].
    assert (stored s' (key l) pl) as Hst.
    { exists (postinglist_pb.enc pl). rewrite kv_get_view, Hs', lookup_insert_eq. split; [done|].
      right. split; [|by apply postinglist_pb.List_Unmarshal_enc].
      unfold postinglist_pb.enc, pl. simpl. intros [_ [Hc _]%app_eq_nil]%app_eq_nil.
      unfold enc_bytes in Hc. by rewrite length_md5_Sum in Hc. }
    split; [|split_and!; try done].
    + apply (stored_fresh _ _ _ (key l)); try done; [|apply Hinv].
      apply layers_base; [by eapply live_sorted|by eapply live_wf].
    + apply (view_live s); done.
    + intros k Hk. by rewrite Hs', lookup_insert_ne.
Qed.
End commit.

(** ** Properties *)
Section properties.
Context {St : Type} `{KVStore St}.
Implicit Types (s : St) (l : List) (ipl : PostingList).

(** C3: Adding a mutation refines the map update: whatever the split between the
    stored list and the mutation layer, the list denotes the map with the edge's
    posting set or deleted, the answer says whether the map changed (setting
    what is there and deleting what is not change nothing), the layers stay
    sorted and consistent, and a list left with mutations is marked dirty and
    reported on the dirty channel. *)
Theorem AddMutation_refines s ch now l ipl t op :
  inv s l ipl → edge_ok t → op = Set_ ∨ op = Del → now ≠ 0 →
  deleteMe l ≠ 1 → ValueId (effective t) ≠ 0 →
  ∃ l' b, AddMutation s ch now l t op =
      Ok (l', effective t,
        if (0 <? length (mlayer l'))%nat then (λ sent, sent ++ [ghash l]) <$> ch else ch, b) ∧
    inv s l' ipl ∧ key l' = key l ∧
    (view_of ipl l', b) = spec_update (post_of t op) (view_of ipl l).
Proof. apply AddMutation_spec. Qed.

(** C19: Iteration runs its callback over exactly the live postings after the given
    uid, once each and in uid order, until the callback declines; it always ends
    and never reaches the fatal default case. *)
Theorem iterate_visits_live s l ipl u :
  inv s l ipl → 0 ≤ u →
  ∃ ps, ksorted Uid ps ∧
    (∀ p, p ∈ ps ↔ u < Uid p ∧ live_at (Postings ipl) (mlayer l) (Uid p) = Some p) ∧
    ∀ A (f : A → Posting → res (A * bool)) acc,
      iterate s l u f acc = (a ← ifold f acc ps; Ok (a, set_pbuffer (Some ipl) l)).
Proof.
  intros Hinv Hu. exists (after u (live ipl l)). pose proof (live_sorted s l ipl Hinv) as Hs.
  split; [by apply after_sorted|]. split; [|intros; by apply iterate_spec].
  intros p. unfold after. rewrite list_elem_of_filter, elem_ufind by done.
  by rewrite (live_find s).
Qed.

(** [Length] counts the keys of the denoted map after the given uid, without
    merging the layers. *)
Theorem Length_counts s l ipl u :
  inv s l ipl → 0 ≤ u →
  Length s l u = Ok (Z.of_nat (size (filter (λ kv, u < kv.1) (view_of ipl l))),
    set_pbuffer (Some ipl) l).
Proof. apply Length_spec. Qed.

(** C20: [Uids] returns, in increasing order, the uids of the denoted map after
    [AfterUID] other than the value's, cut down to a sorted intersection list;
    but it panics exactly when one of those uids is greater than every element
    of a nonempty intersection list, because the loop's exit test compares the
    index with the encoded size of the list in bytes. *)
Theorem Uids_result s l ipl opt :
  inv s l ipl → 0 ≤ AfterUID opt → (∀ its, Intersect opt = Some its → StronglySorted Z.le its) →
  ∃ us, StronglySorted Z.lt us ∧
    (∀ x, x ∈ us ↔ AfterUID opt < x ∧ x ≠ MaxUint64 ∧ is_Some (view_of ipl l !! x)) ∧
    Uids s l opt =
      match Intersect opt with
      | None => Ok (us, set_pbuffer (Some ipl) l)
      | Some its =>
          if bool_decide (its ≠ [] ∧ Exists (past its) us) then Crash "index out of range"
          else Ok (filter (λ x, x ∈ its) us, set_pbuffer (Some ipl) l)
      end.
Proof.
  intros Hinv Hu Hits. exists (plain_uids (after (AfterUID opt) (live ipl l))).
  destruct (live_uids s l ipl (AfterUID opt) Hinv) as [Hs Hin].
  split; [done|]. split; [done|]. by apply Uids_spec.
Qed.

(** [Value] returns the value and the type byte of the denoted map's entry for
    the value uid, and [ErrNoValue] when there is none. *)
Theorem Value_result s l ipl :
  inv s l ipl →
  ValueOf s l =
    Ok (match view_of ipl l !! MaxUint64 with
        | Some (vt, val, _) => Some (val, vt mod 256)
        | None => None
        end, set_pbuffer (Some ipl) l).
Proof. apply ValueOf_spec. Qed.
End properties.

Section durable.
Context {St : Type} `{KVSpec St view}.

(** C5: Committing loses nothing: a list that is not dirty has no mutations, and
    after [CommitIfDirty] the mutation layer is empty, the list denotes the same
    map, a list freshly read from the store denotes it too, and no other key of
    the store changed. *)
Theorem CommitIfDirty_durable (s : St) l ipl now f32 f64 :
  inv s l ipl → fits ipl l →
  ∃ s' l' ipl' b, CommitIfDirty s now l = Ok (s', l', b) ∧
    inv s' l' ipl' ∧ mlayer l' = [] ∧ view_of ipl' l' = view_of ipl l ∧
    inv s' (init f32 f64 (key l) getNew) ipl' ∧
    view_of ipl' (init f32 f64 (key l) getNew) = view_of ipl l ∧
    (∀ k, k ≠ key l → view s' !! k = view s !! k).
Proof.
  intros Hinv Hfits.
  assert (∀ s' l' ipl', inv s' l' ipl' → mlayer l' = [] → key l' = key l →
    view_of ipl' l' = view_of ipl l →
    inv s' (init f32 f64 (key l) getNew) ipl' ∧
    view_of ipl' (init f32 f64 (key l) getNew) = view_of ipl l) as Hfresh.
  { intros s' l' ipl' [? Hst _ Hly _] Hm Hk Hv. unfold view_of in *. rewrite Hm in Hly, Hv.
    split; [|done]. apply (stored_fresh _ _ _ (key l)); try done. by rewrite <-Hk. }
  unfold CommitIfDirty. destruct (Z.eqb_spec (dirtyTs l) 0) as [Hd|Hd].
  - assert (mlayer l = []) as Hm.
    { destruct (mlayer l) eqn:Hm; [done|]. destruct (inv_dirty _ _ _ Hinv); [by rewrite Hm|done]. }
    exists s, l, ipl, false. destruct (Hfresh s l ipl) as [? ?]; [done..|]. by split_and!.
  - destruct (commit_spec s l ipl now Hinv Hfits) as (s' & l' & ipl' & Hc & Hi & Hm & Hd' & Hk & Hv & Hf).
    exists s', l', ipl', (bool_decide (mlayer l ≠ [])).
    destruct (Hfresh s' l' ipl') as [? ?]; [done..|]. by split_and!.
Qed.
End durable.

(** ** Witnesses *)
Lemma AddMutation_refines_witness :
  ∃ l' b, AddMutation ex_store (Some []) 2000 ex_list ex_edge Del =
      Ok (l', ex_edge, if (0 <? length (mlayer l'))%nat then Some [77] else Some [], b) ∧
    inv ex_store l' ex_pl ∧ key l' = ex_key ∧
    (view_of ex_pl l', b) = (delete 3 (view_of ex_pl ex_list), true).
Proof.
  destruct (AddMutation_refines ex_store (Some []) 2000 ex_list ex_pl ex_edge Del)
    as (l' & b & Heq & Hinv & Hkey & Hspec);
    [exact ex_inv|exact ex_edge_ok|by right|done|done|done|].
  exists l', b. split; [exact Heq|]. split; [exact Hinv|]. split; [exact Hkey|].
  rewrite Hspec. vm_compute. reflexivity.
Defined.

Lemma iterate_visits_live_witness :
  ∃ ps, ksorted Uid ps ∧
    (∀ p, p ∈ ps ↔ 3 < Uid p ∧ live_at (Postings ex_pl) (mlayer ex_list) (Uid p) = Some p) ∧
    ∀ A (f : A → Posting → res (A * bool)) acc,
      iterate ex_store ex_list 3 f acc =
        (a ← ifold f acc ps; Ok (a, set_pbuffer (Some ex_pl) ex_list)).
Proof. apply (iterate_visits_live ex_store ex_list ex_pl 3); [exact ex_inv|lia]. Defined.

Lemma Length_counts_witness :
  Length ex_store ex_list 2 = Ok (3, set_pbuffer (Some ex_pl) ex_list).
Proof.
  rewrite (Length_counts ex_store ex_list ex_pl 2); [|exact ex_inv|lia].
  vm_compute. reflexivity.
Defined.

(** The intersection with a list that ends before the last uid panics. *)
Lemma Uids_result_witness :
  Uids ex_store ex_list (mkOptions 0 None) = Ok ([2; 3; 9], set_pbuffer (Some ex_pl) ex_list) ∧
  Uids ex_store ex_list (mkOptions 0 (Some [3; 9; 12])) =
    Ok ([3; 9], set_pbuffer (Some ex_pl) ex_list) ∧
  Uids ex_store ex_list (mkOptions 0 (Some [2; 5])) = Crash "index out of range".
Proof.
  split; [|split]; [reflexivity|reflexivity|].
  destruct (Uids_result ex_store ex_list ex_pl (mkOptions 0 (Some [2; 5])))
    as (us & Hs & Hin & ->); [exact ex_inv|simpl; lia|intros its [= <-]; by_decide|].
  cbn [Intersect]. rewrite bool_decide_true; [done|]. split; [done|].
  apply Exists_exists. exists 9. split; [|by_decide].
  apply Hin. split; [simpl; lia|]. split; [done|]. vm_compute. eauto.
Defined.

Lemma Value_result_witness :
  ValueOf ex_store ex_list = Ok (Some (bs "Bob", 5), set_pbuffer (Some ex_pl) ex_list).
Proof.
  rewrite (Value_result ex_store ex_list ex_pl); [|exact ex_inv]. vm_compute. reflexivity.
Defined.

Lemma CommitIfDirty_durable_witness :
  ∃ s' l' ipl' b, CommitIfDirty ex_store 3000 ex_list = Ok (s', l', b) ∧
    inv s' l' ipl' ∧ mlayer l' = [] ∧ view_of ipl' l' = view_of ex_pl ex_list ∧
    inv s' (init (λ _, 1) (λ _, 2) ex_key getNew) ipl' ∧
    view_of ipl' (init (λ _, 1) (λ _, 2) ex_key getNew) = view_of ex_pl ex_list ∧
    (∀ k, k ≠ ex_key → s' !! k = ex_store !! k).
Proof.
  apply (CommitIfDirty_durable (view := λ s, s) ex_store ex_list ex_pl 3000 (λ _, 1) (λ _, 2));
    [exact ex_inv|]. unfold fits. by_decide.
Defined.
End posting_read.
