(* ===== verification/Tokens.v ===== *)
(** The token tables of indexed predicates ([posting/index.go]: [TokensTable]
    and [initIndex]). *)
From S2P Require Import Prelude Bytes Store Keys.
From stdpp Require Import options.
#[local] Open Scope Z_scope.
#[local] Set Default Proof Using "Type*".

Module tokens.

(** A table is the [key] slice of the Go struct. *)
Definition NewTokensTable : list (list byte) := [].

(** [sort.SearchStrings(a, x)]. *)
Definition SearchStrings (a : list (list byte)) (x : list byte) : nat :=
  psearch (λ k, bool_decide (bytes_le x k)) a.

(** [i < len(t.key) && t.key[i] == s]. *)
Definition at_key (t : list (list byte)) (i : nat) (s : list byte) : bool :=
  bool_decide (t !! i = Some s).

Definition Get (t : list (list byte)) (s : list byte) : Z :=
  let i := SearchStrings t s in if at_key t i s then Z.of_nat i else -1.

(** [for j := ...; j > i; j-- { t.key[j] = t.key[j-1] }]. *)
Fixpoint shift_loop (j i : nat) (t : list (list byte)) : list (list byte) :=
  match j with
  | O => t
  | S j' => if (i <? j)%nat then shift_loop j' i (<[j := default [] (t !! j')]> t) else t
  end.

Definition Add (t : list (list byte)) (s : list byte) : list (list byte) :=
  let i := SearchStrings t s in
  if at_key t i s then t
  else
    let t := t ++ [[]] in
    <[i := s]> (shift_loop (length t - 1) i t).

Definition push (t : list (list byte)) (s : list byte) : list (list byte) := t ++ [s].

Definition Size (t : list (list byte)) : Z := Z.of_nat (length t).

Definition GetNext (t : list (list byte)) (key : list byte) : list byte :=
  let i := psearch (λ k, bool_decide (bytes_lt key k)) t in default [] (t !! i).

Definition GetFirst (t : list (list byte)) : list byte :=
  match t with [] => [] | k :: _ => k end.

Section init.
Context {St : Type} `{KVStore St}.

Fixpoint push_tokens (kvs : list (list byte * list byte)) (t : list (list byte)) : res (list (list byte)) :=
  match kvs with
  | [] => Ok t
  | kv :: kvs => tok ← index_key.TokenFromKey kv.1; push_tokens kvs (push t tok)
  end.

(** The goroutine of [initIndex] for one attribute. *)
Definition build_table (s : St) (attr : list byte) : res (list (list byte)) :=
  let prefix := index_key.IndexKey attr [] in
  push_tokens (scan_prefix s prefix prefix) NewTokensTable.

(** The results arrive in any order and are stored by attribute. *)
Fixpoint initIndex (s : St) (indexedFields : list (list byte)) :
    res (gmap (list byte) (list (list byte))) :=
  match indexedFields with
  | [] => Ok ∅
  | attr :: rest =>
      tables ← initIndex s rest;
      table ← build_table s attr;
      Ok (<[attr := table]> tables)
  end.
End init.

(** *** Lemmas *)
Definition sorted (t : list (list byte)) : Prop := StronglySorted bytes_lt t.

Lemma sorted_lookup_lt t i j a b :
  sorted t → t !! i = Some a → t !! j = Some b → (i < j)%nat → bytes_lt a b.
Proof.
  intros Hs Hi Hj Hij. unfold sorted in Hs. rewrite <-(take_drop (S i) t) in Hs.
  apply StronglySorted_app in Hs as (H & _ & _). apply H.
  - apply list_elem_of_lookup. exists i. rewrite lookup_take_lt by lia. done.
  - apply list_elem_of_lookup. exists (j - S i)%nat. rewrite lookup_drop.
    by replace (S i + (j - S i))%nat with j by lia.
Qed.

(** A search for an upward closed test. *)
Lemma search_split (P : list byte → Prop) `{∀ k, Decision (P k)} t :
  sorted t → (∀ a b, bytes_lt a b → P a → P b) →
  let i := psearch (λ k, bool_decide (P k)) t in
  (i ≤ length t)%nat ∧ Forall (λ k, ¬ P k) (take i t) ∧ Forall P (drop i t).
Proof.
  intros Hs HP. simpl.
  destruct (psearch_spec (λ k, bool_decide (P k)) t) as (Hi & H1 & H2).
  { intros i j a b Hij Ha Hb. rewrite !bool_decide_eq_true. apply HP.
    by eapply (sorted_lookup_lt t i j). }
  split_and!; [done|..].
  - eapply Forall_impl; [exact H1|]. intros k. by rewrite bool_decide_eq_false.
  - eapply Forall_impl; [exact H2|]. intros k. by rewrite bool_decide_eq_true.
Qed.

Lemma bytes_not_le a b : ¬ bytes_le a b ↔ bytes_lt b a.
Proof.
  unfold bytes_le, bytes_lt. rewrite (bytes_compare_antisym a b).
  destruct (bytes_compare a b); simpl; intuition congruence.
Qed.

Lemma bytes_lt_le_trans a b c : bytes_lt a b → bytes_le b c → bytes_lt a c.
Proof. rewrite bytes_le_lteq. intros ? [?| <-]; [by eapply bytes_lt_trans|done]. Qed.

Lemma bytes_le_lt_trans a b c : bytes_le a b → bytes_lt b c → bytes_lt a c.
Proof. rewrite bytes_le_lteq. intros [?| ->] ?; [by eapply bytes_lt_trans|done]. Qed.

Lemma SearchStrings_split t s :
  sorted t →
  let i := SearchStrings t s in
  (i ≤ length t)%nat ∧ Forall (λ k, bytes_lt k s) (take i t) ∧ Forall (bytes_le s) (drop i t).
Proof.
  intros Hs. destruct (search_split (bytes_le s) t Hs) as (Hi & H1 & H2).
  { intros a b Hab Ha. apply bytes_le_lteq. left. by eapply bytes_le_lt_trans. }
  split_and!; [done| |done]. eapply Forall_impl; [exact H1|]. intros k. apply bytes_not_le.
Qed.

(** The slot at the search position decides membership. *)
Lemma at_key_elem t s : sorted t → at_key t (SearchStrings t s) s = bool_decide (s ∈ t).
Proof.
  intros Hs. destruct (SearchStrings_split t s Hs) as (Hi & H1 & H2). unfold at_key.
  apply bool_decide_ext. split; [apply list_elem_of_lookup_2|]. intros Hin.
  rewrite <-(take_drop (SearchStrings t s) t) in Hin. rewrite Forall_forall in H1, H2.
  apply elem_of_app in Hin as [Hin|Hin].
  { destruct (irreflexivity bytes_lt s). by apply H1. }
  apply list_elem_of_lookup in Hin as [d Hd]. rewrite lookup_drop in Hd.
  destruct d as [|d]; [by rewrite Nat.add_0_r in Hd|].
  destruct (lookup_lt_is_Some_2 t (SearchStrings t s)) as [k Hk].
  { apply lookup_lt_Some in Hd. lia. }
  assert (bytes_lt k s) by (eapply (sorted_lookup_lt t); [done|exact Hk|exact Hd|lia]).
  destruct (irreflexivity bytes_lt s). eapply bytes_le_lt_trans; [|done]. apply H2.
  apply list_elem_of_lookup. exists 0%nat. by rewrite lookup_drop, Nat.add_0_r.
Qed.

Lemma shift_loop_spec (l : list (list byte)) i j y :
  (j ≤ length l)%nat → (i ≤ j)%nat →
  ∃ y', shift_loop j i (take j l ++ y :: drop j l) = take i l ++ y' :: drop i l.
Proof.
  revert y. induction j as [|j IH]; intros y Hj Hij.
  { replace i with 0%nat by lia. by exists y. }
  cbn [shift_loop]. destruct (Nat.ltb_spec i (S j)) as [Hlt|]; [|replace i with (S j) by lia; eauto].
  destruct (lookup_lt_is_Some_2 l j) as [x Hx]; [lia|].
  rewrite lookup_app_l, lookup_take_lt, Hx by (rewrite ?length_take; lia). cbn [default from_option].
  rewrite insert_app_r_alt by (rewrite length_take; lia).
  rewrite length_take, Nat.min_l, Nat.sub_diag by lia. cbn [insert list_insert].
  rewrite (take_S_r l j x Hx), <-(assoc_L (++)). cbn [app].
  unfold id. rewrite <-(drop_S l x j Hx). apply IH; lia.
Qed.

Lemma Add_insert t s :
  sorted t → s ∉ t →
  Add t s = take (SearchStrings t s) t ++ s :: drop (SearchStrings t s) t.
Proof.
  intros Hs Hn. unfold Add. rewrite at_key_elem, bool_decide_false by done.
  destruct (SearchStrings_split t s Hs) as (Hi & _).
  rewrite length_app. cbn [length]. rewrite Nat.add_sub.
  destruct (shift_loop_spec t (SearchStrings t s) (length t) []) as [y Hy]; [lia..|].
  rewrite take_ge, drop_ge in Hy by lia. rewrite Hy.
  rewrite insert_app_r_alt by (rewrite length_take; lia).
  by rewrite length_take, Nat.min_l, Nat.sub_diag by lia.
Qed.

Lemma Add_spec t s :
  sorted t → sorted (Add t s) ∧ ∀ x, x ∈ Add t s ↔ x = s ∨ x ∈ t.
Proof.
  intros Hs. destruct (decide (s ∈ t)) as [Hin|Hn].
  - unfold Add. rewrite at_key_elem, bool_decide_true by done.
    split; [done|]. intros x. split; [auto|]. by intros [->|].
  - rewrite Add_insert by done. destruct (SearchStrings_split t s Hs) as (Hi & H1 & H2).
    set (i := SearchStrings t s) in *. pose proof (take_drop i t) as Htd. split.
    + unfold sorted in *. rewrite <-Htd in Hs. apply StronglySorted_app in Hs as (Hc & Hl & Hr).
      rewrite Forall_forall in H1, H2. apply StronglySorted_app. split_and!; [|done|].
      * intros a b Ha [->|Hb]%elem_of_cons; [by apply H1|by apply Hc].
      * apply StronglySorted_cons. split; [|done]. apply Forall_forall. intros b Hb.
        destruct (proj1 (bytes_le_lteq _ _) (H2 b Hb)) as [|Heq]; [done|].
        subst b. destruct Hn. rewrite <-Htd. apply elem_of_app. by right.
    + intros x. rewrite elem_of_app, elem_of_cons. rewrite <-Htd at 3. rewrite elem_of_app. tauto.
Qed.

Lemma Get_spec t s : sorted t →
  (s ∈ t → ∃ i, Get t s = Z.of_nat i ∧ t !! i = Some s) ∧ (s ∉ t → Get t s = -1).
Proof.
  intros Hs. unfold Get. pose proof (at_key_elem t s Hs) as Hk. split; intros Hin.
  - rewrite bool_decide_true in Hk by done. rewrite Hk. eexists. split; [done|].
    by apply bool_decide_eq_true in Hk.
  - by rewrite Hk, bool_decide_false.
Qed.

(** The first table entry after a token, by position. *)
Lemma GetNext_spec t k :
  sorted t →
  (∃ i, t !! i = Some (GetNext t k) ∧ bytes_lt k (GetNext t k) ∧
    ∀ x, x ∈ t → bytes_lt k x → bytes_le (GetNext t k) x) ∨
  (GetNext t k = [] ∧ ∀ x, x ∈ t → ¬ bytes_lt k x).
Proof.
  intros Hs. unfold GetNext.
  destruct (search_split (bytes_lt k) t Hs) as (Hi & H1 & H2).
  { intros a b Hab Ha. by eapply bytes_lt_trans. }
  set (i := psearch (λ x, bool_decide (bytes_lt k x)) t) in *.
  rewrite Forall_forall in H1, H2. destruct (t !! i) as [n|] eqn:Hn; simpl.
  - left. exists i. split; [done|]. split.
    + apply H2. rewrite (drop_S t n i Hn). left.
    + intros x Hx Hkx. rewrite <-(take_drop i t) in Hx.
      apply elem_of_app in Hx as [Hx|Hx]; [by destruct (H1 x)|].
      rewrite (drop_S t n i Hn) in Hx. apply elem_of_cons in Hx as [->|Hx].
      { apply bytes_le_lteq. by right. }
      apply bytes_le_lteq. left. unfold sorted in Hs. rewrite <-(take_drop i t) in Hs.
      rewrite (drop_S t n i Hn) in Hs.
      apply StronglySorted_app in Hs as (_ & _ & [Hall _]%StronglySorted_cons).
      rewrite Forall_forall in Hall. by apply Hall.
  - right. split; [done|]. apply lookup_ge_None in Hn.
    rewrite take_ge in H1 by done. done.
Qed.

Lemma GetNext_lookup t i k :
  sorted t → t !! i = Some k → GetNext t k = default [] (t !! S i).
Proof.
  intros Hs Hi. destruct (GetNext_spec t k Hs) as [(j & Hj & Hlt & Hmin)|[-> Hnone]].
  - destruct (decide (j ≤ i)%nat) as [Hle|Hgt].
    { destruct (irreflexivity bytes_lt k). destruct (decide (j = i)) as [->|]; [congruence|].
      eapply bytes_lt_trans; [exact Hlt|]. eapply (sorted_lookup_lt t j i); [done..|lia]. }
    destruct (lookup_lt_is_Some_2 t (S i)) as [n Hn].
    { apply lookup_lt_Some in Hj. lia. }
    rewrite Hn. simpl. assert (bytes_lt k n) as Hkn by (eapply (sorted_lookup_lt t i (S i)); [done..|lia]).
    specialize (Hmin n ltac:(by eapply list_elem_of_lookup_2) Hkn).
    destruct (decide (j = S i)) as [->|]; [congruence|].
    destruct (irreflexivity bytes_lt n). eapply bytes_lt_le_trans; [|exact Hmin].
    eapply (sorted_lookup_lt t (S i) j); [done..|lia].
  - destruct (t !! S i) as [n|] eqn:Hn; [|done]. exfalso. apply (Hnone n).
    + by eapply list_elem_of_lookup_2.
    + eapply (sorted_lookup_lt t i (S i)); [done..|lia].
Qed.

(** Walking a table with [GetFirst] and [GetNext] until the empty string. *)
Fixpoint walk (fuel : nat) (t : list (list byte)) (k : list byte) : list (list byte) :=
  match fuel with
  | O => []
  | S fuel => if decide (k = []) then [] else k :: walk fuel t (GetNext t k)
  end.

(** The table of an attribute is a sorted set of tokens: adding a token keeps
    it strictly sorted and adds just that token, and [Get] finds the position of
    exactly the tokens added. *)
Theorem Add_inserts t s :
  sorted t →
  sorted (Add t s) ∧ (∀ x, x ∈ Add t s ↔ x = s ∨ x ∈ t) ∧
  (∀ x, x ∈ Add t s → ∃ i, Get (Add t s) x = Z.of_nat i ∧ Add t s !! i = Some x) ∧
  (∀ x, x ∉ Add t s → Get (Add t s) x = -1).
Proof.
  intros Hs. destruct (Add_spec t s Hs) as [Hs' Hin]. split; [done|]. split; [done|].
  split; intros x; by apply (Get_spec (Add t s) x).
Qed.

Lemma Add_inserts_witness :
  Add [bs "ab"; bs "b"] (bs "abc") = [bs "ab"; bs "abc"; bs "b"] ∧
  bs "abc" ∈ Add [bs "ab"; bs "b"] (bs "abc").
Proof.
  split; [reflexivity|].
  apply (Add_inserts [bs "ab"; bs "b"] (bs "abc")); [by_decide|by left].
Defined.

Lemma walk_complete t :
  sorted t → Forall (λ k, k ≠ []) t → walk (S (length t)) t (GetFirst t) = t.
Proof.
  intros Hs Hne.
  enough (∀ n i, (length t ≤ i + n)%nat →
    walk (S n) t (default [] (t !! i)) = drop i t) as Hwalk.
  { pose proof (Hwalk (length t) 0%nat ltac:(lia)) as Hw. rewrite drop_0 in Hw.
    rewrite <-Hw at 4. f_equal. by destruct t. }
  induction n as [|n IH]; intros i Hi.
  { rewrite lookup_ge_None_2, drop_ge by lia. done. }
  destruct (t !! i) as [k|] eqn:Hk.
  - rewrite Forall_forall in Hne. remember (S n) as m. cbn [walk default from_option]. unfold id.
    rewrite decide_False by (by eapply Hne, list_elem_of_lookup_2).
    rewrite (GetNext_lookup t i k), (drop_S t k i) by done. f_equal. subst m. apply IH. lia.
  - apply lookup_ge_None in Hk. by rewrite drop_ge.
Qed.

(** C25: The scan used by sorting visits the whole table: when no token is empty,
    starting at [GetFirst] and following [GetNext] until the empty string
    enumerates the tokens in order, once each, and stops. *)
Theorem table_walk_complete t :
  sorted t → Forall (λ k, k ≠ []) t → walk (S (length t)) t (GetFirst t) = t.
Proof. apply walk_complete. Qed.

Lemma table_walk_complete_witness :
  walk 4 [bs "a"; bs "b"; bs "ba"] (GetFirst [bs "a"; bs "b"; bs "ba"]) = [bs "a"; bs "b"; bs "ba"].
Proof. apply (table_walk_complete [bs "a"; bs "b"; bs "ba"]); by_decide. Defined.

Section tables.
Context {St : Type} `{KVSpec St view}.

Lemma push_tokens_spec attr kvs t :
  index_key.indexRune ∉ attr →
  Forall (λ kv, ∃ tok, kv.1 = index_key.IndexKey attr tok) kvs →
  ∃ toks, push_tokens kvs t = Ok (t ++ toks) ∧ kvs.*1 = index_key.IndexKey attr <$> toks.
Proof.
  intros Ha. revert t. induction kvs as [|kv kvs IH]; intros t Hall.
  { exists []. by rewrite app_nil_r. }
  apply Forall_cons in Hall as [[tok Htok] Hall]. destruct (IH (push t tok) Hall) as (toks & Hp & Hk).
  exists (tok :: toks). cbn [push_tokens]. rewrite Htok, index_key.TokenFromKey_IndexKey by done.
  cbn [mbind res_bind]. rewrite Hp. unfold push. rewrite <-(assoc_L (++)). split; [done|].
  by rewrite !fmap_cons, Htok, Hk.
Qed.

Lemma IndexKey_lt attr a b :
  bytes_lt (index_key.IndexKey attr a) (index_key.IndexKey attr b) ↔ bytes_lt a b.
Proof.
  unfold bytes_lt. rewrite !index_key.IndexKey_app, bytes_compare_app. cbn [bytes_compare].
  by rewrite Z.compare_refl.
Qed.

(** C26: At start-up the table of an attribute without [:] is rebuilt from the
    store: strictly sorted, with exactly the tokens whose index key the store
    has; no key makes the rebuilding fail. *)
Theorem build_table_exact (s : St) attr :
  index_key.indexRune ∉ attr →
  ∃ t, build_table s attr = Ok t ∧ sorted t ∧
    ∀ tok, tok ∈ t ↔ is_Some (view s !! index_key.IndexKey attr tok).
Proof.
  intros Ha. unfold build_table.
  set (p := index_key.IndexKey attr []).
  assert (bytes_le p p) as Hpp by (apply bytes_le_lteq; by right).
  pose proof (scan_prefix_elem s p p) as Helem.
  assert (∀ k, HasPrefix k p = true ↔ ∃ tok, k = index_key.IndexKey attr tok) as Hpre.
  { intros k. rewrite HasPrefix_spec. unfold p. rewrite index_key.IndexKey_app.
    split; intros [x ->]; exists x; rewrite ?index_key.IndexKey_app; by rewrite <-(assoc_L (++)). }
  destruct (push_tokens_spec attr (scan_prefix s p p) NewTokensTable Ha) as (toks & -> & Hkeys).
  { apply Forall_forall. intros kv Hkv. apply Helem in Hkv as (_ & _ & Hkv); [|done]. by apply Hpre. }
  exists toks. split; [done|]. pose proof (scan_prefix_sorted s p p) as Hsorted.
  rewrite Hkeys in Hsorted. split.
  - clear -Hsorted. induction toks as [|tok toks IH]; [constructor|].
    apply StronglySorted_cons in Hsorted as [Hall Hs]. apply StronglySorted_cons. split; [|by apply IH].
    rewrite Forall_forall in Hall |- *. intros x Hx. apply (IndexKey_lt attr). apply Hall.
    by apply list_elem_of_fmap_2.
  - intros tok. split.
    + intros Htok. assert (index_key.IndexKey attr tok ∈ (scan_prefix s p p).*1) as Hin.
      { rewrite Hkeys. by apply list_elem_of_fmap_2. }
      apply list_elem_of_fmap in Hin as (kv & Hkv & Hin). apply Helem in Hin as (Hv & _); [|done].
      rewrite Hkv, Hv. eauto.
    + intros [v Hv]. assert ((index_key.IndexKey attr tok, v) ∈ scan_prefix s p p) as Hin.
      { apply Helem; [done|]. simpl. split; [done|]. split; [|apply Hpre; eauto].
        unfold p. rewrite !index_key.IndexKey_app.
        replace (attr ++ index_key.indexRune :: tok) with ((attr ++ [index_key.indexRune]) ++ tok)
          by (by rewrite <-(assoc_L (++))). apply bytes_le_prefix. }
      apply (list_elem_of_fmap_2 fst) in Hin. rewrite Hkeys in Hin. simpl in Hin.
      apply list_elem_of_fmap in Hin as (tok' & Heq & Hin).
      rewrite !index_key.IndexKey_app in Heq. apply (inj (attr ++.)) in Heq.
      by injection Heq as ->.
Qed.
End tables.

Definition ex_store : memstore :=
  {[ index_key.IndexKey (bs "name") (bs "bob") := [x01];
     index_key.IndexKey (bs "name") (bs "alice") := [x02];
     index_key.IndexKey (bs "namex") (bs "carol") := [x03];
     bs "name|12345678" := [x04] ]}.

Lemma build_table_exact_witness :
  build_table ex_store (bs "name") = Ok [bs "alice"; bs "bob"] ∧
  ∃ t, build_table ex_store (bs "name") = Ok t ∧ sorted t ∧
    ∀ tok, tok ∈ t ↔ is_Some (ex_store !! index_key.IndexKey (bs "name") tok).
Proof.
  split; [vm_compute; reflexivity|].
  apply (build_table_exact (view := λ s, s) ex_store (bs "name")). by_decide.
Defined.
End tokens.
