(* ===== verification/Raftwal.v ===== *)
(** The write-ahead log of the Raft groups ([raftwal/wal.go]).

    Entries, snapshots and hard states are etcd's [raftpb] messages, which are
    not part of the sources: [RaftPb] is what the log uses of them, [RaftPbSpec]
    the documented behaviour it relies on (encoding and decoding agree). *)
From S2P Require Import Prelude Bytes Store.
From stdpp Require Import options.
#[local] Open Scope Z_scope.
#[local] Set Default Proof Using "Type*".

Class RaftPb (Entry Snapshot HardState : Type) := {
  Term : Entry → Z;
  Index : Entry → Z;
  entry_Marshal : Entry → res (list byte);
  entry_Unmarshal : list byte → res Entry;
  IsEmptySnap : Snapshot → bool;
  snap_Marshal : Snapshot → res (list byte);
  snap_Unmarshal : list byte → res Snapshot;
  IsEmptyHardState : HardState → bool;
  hard_Marshal : HardState → res (list byte);
  hard_Unmarshal : list byte → res HardState;
}.

Class RaftPbSpec {Entry Snapshot HardState : Type} (pb : RaftPb Entry Snapshot HardState) := {
  entry_enc : Entry → list byte;
  entry_Marshal_ok e : entry_Marshal e = Ok (entry_enc e);
  entry_Unmarshal_ok e : entry_Unmarshal (entry_enc e) = Ok e;
  entry_Term_u64 e : is_u64 (Term e);
  entry_Index_u64 e : is_u64 (Index e);
  snap_enc : Snapshot → list byte;
  snap_Marshal_ok s : snap_Marshal s = Ok (snap_enc s);
  snap_Unmarshal_ok s : snap_Unmarshal (snap_enc s) = Ok s;
  hard_enc : HardState → list byte;
  hard_Marshal_ok h : hard_Marshal h = Ok (hard_enc h);
  hard_Unmarshal_ok h : hard_Unmarshal (hard_enc h) = Ok h;
}.

(** [x.Wrapf(err, msg)]. *)
Definition wrapf {A} (r : res A) (msg : string) : res A :=
  match r with Err _ => Err msg | r => r end.

Module raftwal.

(** [Wal] is the node's id; the store is passed along. *)
Definition snapshotKey (id gid : Z) : list byte :=
  let b := replicate 14 x00 in
  let b := go_copy b 0 (be_put 8 id) in
  let b := go_copy b 8 (bs "ss") in
  go_copy b 10 (be_put 4 gid).

Definition hardStateKey (id gid : Z) : list byte :=
  let b := replicate 14 x00 in
  let b := go_copy b 0 (be_put 8 id) in
  let b := go_copy b 8 (bs "hs") in
  go_copy b 10 (be_put 4 gid).

Definition entryKey (id gid term idx : Z) : list byte :=
  let b := replicate 28 x00 in
  let b := go_copy b 0 (be_put 8 id) in
  let b := go_copy b 8 (be_put 4 gid) in
  let b := go_copy b 12 (be_put 8 term) in
  go_copy b 20 (be_put 8 idx).

Definition prefix (id gid : Z) : list byte :=
  let b := replicate 12 x00 in
  let b := go_copy b 0 (be_put 8 id) in
  go_copy b 8 (be_put 4 gid).

Section wal.
Context {Entry Snapshot HardState : Type} {pb : RaftPb Entry Snapshot HardState}.
Context {St : Type} `{KVStore St}.

(** [for _, e := range es {...}]: the batch grows, [t] and [i] follow. *)
Fixpoint put_entries (id gid : Z) (es : list Entry) (b : list batch_op) (t i : Z) :
    res (list batch_op * Z * Z) :=
  match es with
  | [] => Ok (b, t, i)
  | e :: es =>
      data ← wrapf (entry_Marshal e) "wal.Store: While marshal entry";
      put_entries id gid es (b ++ [BPut (entryKey id gid (Term e) (Index e)) data])
        (Term e) (Index e)
  end.

Definition Store_ (s : St) (id gid : Z) (sn : Snapshot) (h : HardState) (es : list Entry) :
    res St :=
  b ← (if IsEmptySnap sn then Ok [] else
       data ← wrapf (snap_Marshal sn) "wal.Store: While marshal snapshot";
       Ok [BPut (snapshotKey id gid) data]);
  b ← (if IsEmptyHardState h then Ok b else
       data ← wrapf (hard_Marshal h) "wal.Store: While marshal hardstate";
       Ok (b ++ [BPut (hardStateKey id gid) data]));
  ' (b, t, i) ← put_entries id gid es b 0 0;
  let b :=
    if (0 <? t) || (0 <? i) then
      let start := entryKey id gid t (u64 (i + 1)) in
      b ++ (BDelete <$> (scan_prefix s start (prefix id gid)).*1)
    else b in
  wrapf (kv_write s b) "wal.Store: While WriteBatch".

Definition Snapshot_ (s : St) (id gid : Z) : res Snapshot :=
  data ← wrapf (kv_get s (snapshotKey id gid)) "While getting snapshot";
  wrapf (snap_Unmarshal data) "While unmarshal snapshot".

Definition HardState_ (s : St) (id gid : Z) : res HardState :=
  data ← wrapf (kv_get s (hardStateKey id gid)) "While getting hardstate";
  wrapf (hard_Unmarshal data) "While unmarshal hardstate".

Fixpoint read_entries (kvs : list (list byte * list byte)) (es : list Entry) : res (list Entry) :=
  match kvs with
  | [] => Ok es
  | kv :: kvs =>
      e ← wrapf (entry_Unmarshal kv.2) "While unmarshal raftpb.Entry";
      read_entries kvs (es ++ [e])
  end.

Definition Entries (s : St) (id gid fromTerm fromIndex : Z) : res (list Entry) :=
  let start := entryKey id gid fromTerm fromIndex in
  read_entries (scan_prefix s start (prefix id gid)) [].
End wal.

(** *** Keys *)
Lemma prefix_app id gid : prefix id gid = be_put 8 id ++ be_put 4 gid.
Proof. reflexivity. Qed.

Lemma entryKey_app id gid t i :
  entryKey id gid t i = prefix id gid ++ be_put 8 t ++ be_put 8 i.
Proof. reflexivity. Qed.

Lemma snapshotKey_app id gid : snapshotKey id gid = be_put 8 id ++ bs "ss" ++ be_put 4 gid.
Proof. reflexivity. Qed.

Lemma hardStateKey_app id gid : hardStateKey id gid = be_put 8 id ++ bs "hs" ++ be_put 4 gid.
Proof. reflexivity. Qed.

Lemma length_entryKey id gid t i : length (entryKey id gid t i) = 28%nat.
Proof. reflexivity. Qed.

#[local] Opaque prefix entryKey snapshotKey hardStateKey be_put.

(** The order of log positions: by term, then by index. *)
Definition pos : Type := Z * Z.
Definition pos_compare (p q : pos) : comparison :=
  match Z.compare p.1 q.1 with Eq => Z.compare p.2 q.2 | c => c end.
Definition pos_lt (p q : pos) : Prop := pos_compare p q = Lt.
Definition pos_le (p q : pos) : Prop := pos_compare p q ≠ Gt.
#[export] Instance pos_lt_dec p q : Decision (pos_lt p q) := decide (pos_compare p q = Lt).
#[export] Instance pos_le_dec p q : Decision (pos_le p q) := decide (pos_compare p q ≠ Gt).

Definition pos_ok (p : pos) : Prop := is_u64 p.1 ∧ is_u64 p.2.

Lemma u64_bound v : is_u64 v → 0 ≤ v < 256 ^ Z.of_nat 8.
Proof. unfold is_u64, MaxUint64. change (256 ^ Z.of_nat 8) with two64. unfold two64. lia. Qed.

Lemma entryKey_compare id gid t i t' i' :
  pos_ok (t, i) → pos_ok (t', i') →
  bytes_compare (entryKey id gid t i) (entryKey id gid t' i') = pos_compare (t, i) (t', i').
Proof.
  intros [Ht Hi] [Ht' Hi']. cbn [fst snd] in *. rewrite !entryKey_app, bytes_compare_app.
  unfold pos_compare. cbn [fst snd].
  destruct (decide (t = t')) as [->|Hne].
  - rewrite Z.compare_refl, bytes_compare_app. apply be_put_compare; by apply u64_bound.
  - rewrite bytes_compare_app_ne.
    + rewrite be_put_compare by (by apply u64_bound).
      destruct (Z.compare_spec t t'); [done|done|done].
    + by rewrite !length_be_put.
    + intros Heq. apply Hne. eapply (be_put_inj 8); [by apply u64_bound..|done].
Qed.

Lemma entryKey_inj id gid t i t' i' :
  pos_ok (t, i) → pos_ok (t', i') → entryKey id gid t i = entryKey id gid t' i' → t = t' ∧ i = i'.
Proof.
  intros Hp Hp' Heq. pose proof (entryKey_compare id gid t i t' i' Hp Hp') as Hc.
  rewrite Heq, bytes_compare_refl in Hc. unfold pos_compare in Hc. simpl in Hc.
  destruct (Z.compare_spec t t'); [|done..]. by destruct (Z.compare_spec i i').
Qed.

Lemma entryKey_prefix id gid t i : HasPrefix (entryKey id gid t i) (prefix id gid) = true.
Proof. apply HasPrefix_spec. eexists. apply entryKey_app. Qed.

Lemma prefix_inj id gid id' gid' k :
  is_u64 id → is_u64 id' → 0 ≤ gid < 2 ^ 32 → 0 ≤ gid' < 2 ^ 32 →
  HasPrefix k (prefix id gid) = true → HasPrefix k (prefix id' gid') = true →
  id = id' ∧ gid = gid'.
Proof.
  intros Hid Hid' Hg Hg' [a ->]%HasPrefix_spec [b Hb]%HasPrefix_spec.
  rewrite !prefix_app, <-!(assoc_L (++)) in Hb.
  apply app_inj_1 in Hb as [Hi Hb]; [|by rewrite !length_be_put].
  apply app_inj_1 in Hb as [Hgg _]; [|by rewrite !length_be_put].
  split; [by eapply (be_put_inj 8); [by apply u64_bound..|]|by apply (be_put_inj 4)].
Qed.

#[export] Instance pos_lt_strict : StrictOrder pos_lt.
Proof.
  split.
  - intros [t i]. unfold complement, pos_lt, pos_compare. simpl. by rewrite !Z.compare_refl.
  - intros [t i] [t' i'] [t'' i'']. unfold pos_lt, pos_compare. simpl.
    destruct (Z.compare_spec t t'), (Z.compare_spec t' t''), (Z.compare_spec t t''); try (done || lia).
    rewrite !Z.compare_lt_iff. lia.
Qed.

Lemma pos_not_le p q : ¬ pos_le p q ↔ pos_lt q p.
Proof.
  unfold pos_le, pos_lt, pos_compare.
  rewrite (Z.compare_antisym q.1 p.1), (Z.compare_antisym q.2 p.2).
  destruct (Z.compare q.1 p.1), (Z.compare q.2 p.2); simpl; intuition congruence.
Qed.

(** The successor of a position within its term. *)
Lemma pos_le_succ p q : pos_le (p.1, p.2 + 1) q ↔ pos_lt p q.
Proof.
  destruct p as [t i], q as [t' i']. unfold pos_le, pos_lt, pos_compare. simpl.
  destruct (Z.compare_spec t t'); [|intuition congruence..].
  destruct (Z.compare_spec (i + 1) i'), (Z.compare_spec i i'); try lia; intuition congruence.
Qed.

(** *** Batches *)
Lemma batch_view_app b1 b2 m : batch_view (b1 ++ b2) m = batch_view b2 (batch_view b1 m).
Proof. apply fold_left_app. Qed.

Lemma batch_view_deletes ks m k :
  batch_view (BDelete <$> ks) m !! k = if decide (k ∈ ks) then None else m !! k.
Proof.
  revert m. induction ks as [|k' ks IH]; intros m.
  { rewrite decide_False; [done|]. apply not_elem_of_nil. }
  change (batch_view (BDelete <$> ks) (delete k' m) !! k =
    if decide (k ∈ k' :: ks) then None else m !! k).
  rewrite IH. destruct (decide (k = k')) as [->|Hne].
  - rewrite (decide_True (P := k' ∈ k' :: ks)) by left. rewrite lookup_delete_eq. by case_decide.
  - rewrite lookup_delete_ne by done.
    by rewrite (decide_ext (k ∈ k' :: ks) (k ∈ ks)) by (rewrite elem_of_cons; tauto).
Qed.

Section spec.
Context {Entry Snapshot HardState : Type} {pb : RaftPb Entry Snapshot HardState}.
Context {spec : RaftPbSpec pb}.
Context {St : Type} `{KVSpec St view}.
Context (id gid : Z).
Implicit Types (e : Entry) (es : list Entry) (s : St).

Definition epos e : pos := (Term e, Index e).
Definition ekey e : list byte := entryKey id gid (Term e) (Index e).
Definition pkey (p : pos) : list byte := entryKey id gid p.1 p.2.
Definition ascending es : Prop := StronglySorted (λ a b, pos_lt (epos a) (epos b)) es.

Lemma epos_ok e : pos_ok (epos e).
Proof. split; [apply entry_Term_u64|apply entry_Index_u64]. Qed.

(** Every key of the group is the key of the entry it holds. *)
Definition wal_ok (m : gmap (list byte) (list byte)) : Prop :=
  ∀ k v, m !! k = Some v → HasPrefix k (prefix id gid) = true →
    ∃ e, k = ekey e ∧ v = entry_enc e.

Lemma pkey_inj p q : pos_ok p → pos_ok q → pkey p = pkey q → p = q.
Proof.
  destruct p as [t i], q as [t' i']. intros Hp Hq Heq.
  destruct (entryKey_inj id gid t i t' i' Hp Hq Heq) as [-> ->]. done.
Qed.

Lemma pkey_le p q : pos_ok p → pos_ok q → bytes_le (pkey p) (pkey q) ↔ pos_le p q.
Proof.
  destruct p as [t i], q as [t' i']. intros Hp Hq. unfold bytes_le, pkey. simpl.
  by rewrite entryKey_compare.
Qed.

Lemma pkey_lt p q : pos_ok p → pos_ok q → bytes_lt (pkey p) (pkey q) ↔ pos_lt p q.
Proof.
  destruct p as [t i], q as [t' i']. intros Hp Hq. unfold bytes_lt, pkey. simpl.
  by rewrite entryKey_compare.
Qed.

Lemma entry_enc_inj e e' : entry_enc e = entry_enc e' → e = e'.
Proof.
  intros Heq. assert (Ok e = Ok e') as [=]; [|done].
  by rewrite <-!entry_Unmarshal_ok, Heq.
Qed.

Lemma prefix_le_pkey p : bytes_le (prefix id gid) (pkey p).
Proof. unfold pkey. rewrite entryKey_app. apply bytes_le_prefix. Qed.

(** *** Reading *)
Lemma read_entries_spec kvs acc :
  Forall (λ kv, ∃ e, kv = (ekey e, entry_enc e)) kvs →
  ∃ es, read_entries kvs acc = Ok (acc ++ es) ∧ kvs = (λ e, (ekey e, entry_enc e)) <$> es.
Proof.
  revert acc. induction kvs as [|kv kvs IH]; intros acc Hall.
  { exists []. by rewrite app_nil_r. }
  apply Forall_cons in Hall as [[e ->] Hall]. destruct (IH (acc ++ [e]) Hall) as (es & Hr & ->).
  exists (e :: es). cbn [read_entries snd]. rewrite entry_Unmarshal_ok. simpl. rewrite Hr.
  by rewrite <-(assoc_L (++)).
Qed.

Lemma Entries_spec s p :
  wal_ok (view s) → pos_ok p →
  ∃ es, Entries s id gid p.1 p.2 = Ok es ∧ ascending es ∧
    ∀ e, e ∈ es ↔ view s !! ekey e = Some (entry_enc e) ∧ pos_le p (epos e).
Proof.
  intros Hok Hp. unfold Entries. fold (pkey p).
  pose proof (λ kv, scan_prefix_elem s (pkey p) (prefix id gid) kv (prefix_le_pkey p)) as Helem.
  destruct (read_entries_spec (scan_prefix s (pkey p) (prefix id gid)) []) as (es & -> & Hkvs).
  { apply Forall_forall. intros [k v] (Hv & _ & Hpre)%Helem. simpl in *.
    destruct (Hok k v Hv Hpre) as (e & -> & ->). eauto. }
  exists es. split; [done|]. split.
  - pose proof (scan_prefix_sorted s (pkey p) (prefix id gid)) as Hs.
    rewrite Hkvs, <-list_fmap_compose, ssorted_fmap in Hs.
    eapply ssorted_impl; [|exact Hs]. intros a b Hab.
    apply (pkey_lt (epos a) (epos b)); [apply epos_ok..|done].
  - intros e. split.
    + intros He. assert ((ekey e, entry_enc e) ∈ scan_prefix s (pkey p) (prefix id gid)) as Hin.
      { rewrite Hkvs. apply list_elem_of_fmap. eauto. }
      apply Helem in Hin as (Hv & Hle & _). simpl in *. split; [done|].
      by apply (pkey_le p (epos e)) in Hle; [|done|apply epos_ok].
    + intros [Hv Hle]. assert ((ekey e, entry_enc e) ∈ scan_prefix s (pkey p) (prefix id gid)) as Hin.
      { apply Helem. simpl. split; [done|]. split; [|apply entryKey_prefix].
        apply (pkey_le p (epos e)); [done|apply epos_ok|done]. }
      rewrite Hkvs in Hin. apply list_elem_of_fmap in Hin as (e' & Heq & Hin).
      apply (f_equal snd), entry_enc_inj in Heq. by subst.
Qed.

(** *** Writing *)
Definition puts es : list batch_op := (λ e, BPut (ekey e) (entry_enc e)) <$> es.

Definition last_pos es : pos := from_option epos (0, 0) (last es).

Lemma put_entries_spec es b t i :
  put_entries id gid es b t i =
    Ok (b ++ puts es, (from_option epos (t, i) (last es)).1, (from_option epos (t, i) (last es)).2).
Proof.
  revert b t i. induction es as [|e es IH]; intros b t i; [by rewrite app_nil_r|].
  cbn [put_entries]. rewrite entry_Marshal_ok. cbn [wrapf mbind res_bind].
  rewrite IH, <-(assoc_L (++)). f_equal. rewrite last_cons. by destruct (last es).
Qed.

Lemma ekey_inj e e' : ekey e = ekey e' → epos e = epos e'.
Proof. apply (pkey_inj (epos e) (epos e')); apply epos_ok. Qed.

Lemma puts_other es m k : (∀ e, e ∈ es → k ≠ ekey e) → batch_view (puts es) m !! k = m !! k.
Proof.
  revert m. induction es as [|e es IH]; intros m Hne; [done|].
  change (batch_view (puts es) (<[ekey e := entry_enc e]> m) !! k = m !! k).
  rewrite IH by (intros e' He'; apply Hne; by right).
  rewrite lookup_insert_ne; [done|]. intros Heq. by apply (Hne e); [left|].
Qed.

Lemma puts_in es m e :
  ascending es → e ∈ es → batch_view (puts es) m !! ekey e = Some (entry_enc e).
Proof.
  intros Hs. revert m. induction Hs as [|x l _ IH HF]; intros m; [by intros ?%elem_of_nil|].
  change (e ∈ x :: l → batch_view (puts l) (<[ekey x := entry_enc x]> m) !! ekey e = Some (entry_enc e)).
  intros [->|He]%elem_of_cons; [|by apply IH].
  rewrite puts_other; [apply lookup_insert_eq|]. intros e' He' Heq%ekey_inj.
  rewrite Forall_forall in HF. specialize (HF e' He'). simpl in HF. rewrite Heq in HF.
  by apply (irreflexivity pos_lt) in HF.
Qed.

(** The keys that hold the group's snapshot and hard state. *)
Definition meta_key (k : list byte) : Prop := k = snapshotKey id gid ∨ k = hardStateKey id gid.

Lemma meta_not_entry k t i : meta_key k → k ≠ entryKey id gid t i.
Proof.
  intros Hm Heq. apply (f_equal length) in Heq. rewrite length_entryKey in Heq.
  destruct Hm as [-> | ->].
  - by rewrite snapshotKey_app, !length_app, !length_be_put in Heq.
  - by rewrite hardStateKey_app, !length_app, !length_be_put in Heq.
Qed.

(** The batch before the deletions: the metadata, then the entries. *)
Lemma Store_batch s sn h es :
  ∃ meta, Forall (λ o, ∃ k v, o = BPut k v ∧ meta_key k) meta ∧
    Store_ s id gid sn h es =
      wrapf (kv_write s (if (0 <? (last_pos es).1) || (0 <? (last_pos es).2)
        then (meta ++ puts es) ++
          (BDelete <$> (scan_prefix s (entryKey id gid (last_pos es).1 (u64 ((last_pos es).2 + 1)))
             (prefix id gid)).*1)
        else meta ++ puts es)) "wal.Store: While WriteBatch".
Proof.
  unfold Store_. rewrite snap_Marshal_ok, hard_Marshal_ok. cbn [wrapf mbind res_bind].
  exists ((if IsEmptySnap sn then [] else [BPut (snapshotKey id gid) (snap_enc sn)]) ++
     (if IsEmptyHardState h then [] else [BPut (hardStateKey id gid) (hard_enc h)])).
  split.
  - unfold meta_key. apply Forall_app. split.
    + destruct (IsEmptySnap sn); repeat constructor; eauto 10.
    + destruct (IsEmptyHardState h); repeat constructor; eauto 10.
  - destruct (IsEmptySnap sn), (IsEmptyHardState h); cbn [mbind res_bind app];
      by rewrite put_entries_spec.
Qed.

Lemma meta_other meta m k :
  Forall (λ o, ∃ k v, o = BPut k v ∧ meta_key k) meta → ¬ meta_key k →
  batch_view meta m !! k = m !! k.
Proof.
  intros Hall Hk. revert m. induction Hall as [|o meta (k' & v & -> & Hk') _ IH]; intros m; [done|].
  change (batch_view meta (<[k' := v]> m) !! k = m !! k).
  rewrite IH, lookup_insert_ne; [done|]. intros ->. done.
Qed.

(** Raft's log indices start at 1; the last one leaves room for a successor. *)
Definition index_ok es : Prop := Forall (λ e, 0 < Index e < MaxUint64) es.

Lemma last_pos_ok es : es ≠ [] → index_ok es →
  pos_ok (last_pos es) ∧ 0 < (last_pos es).2 < MaxUint64 ∧ ∃ e, e ∈ es ∧ last_pos es = epos e.
Proof.
  intros Hne Hall. unfold last_pos. destruct (last es) as [e|] eqn:He.
  - simpl. apply last_Some_elem_of in He. unfold index_ok in Hall. rewrite Forall_forall in Hall.
    split; [apply epos_ok|]. split; [by apply Hall|]. eauto.
  - by apply last_None in He.
Qed.

Lemma ascending_last es e : ascending es → e ∈ es → pos_le (epos e) (last_pos es).
Proof.
  intros Hs. unfold last_pos. induction Hs as [|x l _ IH HF]; [by intros ?%elem_of_nil|].
  assert (∀ p, pos_le p p) as Hrefl.
  { intros p Hgt. unfold pos_compare in Hgt. by rewrite !Z.compare_refl in Hgt. }
  rewrite last_cons. intros [->|He]%elem_of_cons.
  - destruct (last l) as [y|] eqn:Hy; [|apply Hrefl]. simpl.
    rewrite Forall_forall in HF. specialize (HF y ltac:(by apply last_Some_elem_of)). simpl in HF.
    unfold pos_le, pos_lt in *. congruence.
  - specialize (IH He). destruct (last l) as [y|] eqn:Hy; [done|].
    apply last_None in Hy as ->. by apply elem_of_nil in He.
Qed.

(** The first key that [Store_] deletes from. *)
Definition after_key es : list byte := pkey ((last_pos es).1, (last_pos es).2 + 1).

Lemma after_ok es : es ≠ [] → index_ok es → pos_ok ((last_pos es).1, (last_pos es).2 + 1).
Proof.
  intros Hne Hix. destruct (last_pos_ok es Hne Hix) as ([H1 H2] & Hlt & _).
  split; [done|]. unfold is_u64 in *. simpl. lia.
Qed.

Lemma after_key_le es p :
  es ≠ [] → index_ok es → pos_ok p → bytes_le (after_key es) (pkey p) ↔ pos_lt (last_pos es) p.
Proof.
  intros Hne Hix Hp. unfold after_key. rewrite pkey_le by auto using after_ok. apply pos_le_succ.
Qed.

Lemma Store_spec s sn h es :
  ascending es → index_ok es →
  ∃ s', Store_ s id gid sn h es = Ok s' ∧
    (∀ e, e ∈ es → view s' !! ekey e = Some (entry_enc e)) ∧
    (∀ k, ¬ meta_key k → (∀ e, e ∈ es → k ≠ ekey e) →
      view s' !! k =
        if decide (es ≠ [] ∧ HasPrefix k (prefix id gid) = true ∧ bytes_le (after_key es) k)
        then None else view s !! k).
Proof.
  intros Hasc Hix. destruct (Store_batch s sn h es) as (meta & Hmeta & ->).
  destruct (decide (es = [])) as [->|Hne].
  - cbn [last_pos last from_option fst snd Z.ltb Z.compare orb puts fmap list_fmap].
    rewrite app_nil_r. destruct (kv_write_view s meta) as (s' & -> & Hv). exists s'.
    split; [done|]. split; [by intros e ?%elem_of_nil|]. intros k Hk _.
    rewrite decide_False by tauto. rewrite Hv. by apply (meta_other meta).
  - destruct (last_pos_ok es Hne Hix) as (Hlok & Hlt & e0 & He0 & Hlast).
    assert (((0 <? (last_pos es).1) || (0 <? (last_pos es).2)) = true) as ->.
    { apply orb_true_iff. right. apply Z.ltb_lt. lia. }
    assert (u64 ((last_pos es).2 + 1) = (last_pos es).2 + 1) as ->.
    { apply Z.mod_small. unfold MaxUint64, two64 in *. lia. }
    change (entryKey id gid (last_pos es).1 ((last_pos es).2 + 1)) with (after_key es).
    destruct (kv_write_view s ((meta ++ puts es) ++
      (BDelete <$> (scan_prefix s (after_key es) (prefix id gid)).*1))) as (s' & -> & Hv).
    exists s'. split; [done|].
    pose proof (λ kv, scan_prefix_elem s (after_key es) (prefix id gid) kv
      (prefix_le_pkey _)) as Helem.
    split.
    + intros e He. rewrite Hv, !batch_view_app, batch_view_deletes, puts_in by done.
      rewrite decide_False; [done|].
      intros (kv & Hk & (_ & Hle & _)%Helem)%list_elem_of_fmap. rewrite <-Hk in Hle.
      apply (after_key_le es (epos e)) in Hle; [|done..|apply epos_ok].
      apply pos_not_le in Hle. destruct Hle. by apply ascending_last.
    + intros k Hk Hke. rewrite Hv, !batch_view_app, batch_view_deletes.
      rewrite puts_other, (meta_other meta) by done. symmetry. case_decide as Hd; case_decide as Hin; try done.
      * destruct Hd as (_ & Hpre & Hle). destruct (view s !! k) as [v|] eqn:Hvk; [|done].
        destruct Hin. apply list_elem_of_fmap. exists (k, v). split; [done|]. by apply Helem.
      * destruct Hd. apply list_elem_of_fmap in Hin as (kv & -> & Hin). apply Helem in Hin. tauto.
Qed.

(** Group ids below the bytes of ["hs"] keep the metadata out of the entries. *)
Definition small_gid (g : Z) : Prop := 0 ≤ g < 0x68730000.

Lemma meta_outside g' k :
  is_u64 id → 0 ≤ gid < 2 ^ 32 → small_gid g' → meta_key k → HasPrefix k (prefix id g') = false.
Proof.
  intros Hid Hg [Hg0 Hg'] Hm. destruct (HasPrefix k (prefix id g')) eqn:Hp; [|done]. exfalso.
  apply HasPrefix_spec in Hp as [t ->]. rewrite prefix_app in Hm.
  assert (∀ a b, byte_to_Z a = 0x68 ∨ byte_to_Z a = 0x73 → byte_to_Z b = 0x73 →
    (be_put 8 id ++ be_put 4 g') ++ t ≠ be_put 8 id ++ [a; b] ++ be_put 4 gid) as Hne.
  { intros a b Ha Hb Heq. rewrite <-(assoc_L (++)) in Heq. apply (inj (be_put 8 id ++.)) in Heq.
    apply (f_equal (take 2)) in Heq. rewrite take_app_le in Heq by (rewrite length_be_put; lia).
    rewrite (take_app_length' [a; b]) in Heq by done.
    assert (be_get (take 2 (be_put 4 g')) = be_get [a; b]) as Hget by (by rewrite Heq).
    assert (be_get (be_put 4 g') = g') as Hg4.
    { rewrite be_get_put. apply Z.mod_small. change (256 ^ Z.of_nat 4) with 4294967296. lia. }
    destruct (be_put 4 g') as [|x0 [|x1 [|x2 [|x3 [|? ?]]]]] eqn:Hb4;
      apply (f_equal length) in Hb4; rewrite length_be_put in Hb4; try done.
    unfold be_get in Hget, Hg4. cbn [take fold_left] in Hget, Hg4.
    pose proof (byte_to_Z_range x2). pose proof (byte_to_Z_range x3). lia. }
  destruct Hm as [Hm|Hm].
  - rewrite snapshotKey_app in Hm. by apply (Hne x73 x73) in Hm; [|right|].
  - rewrite hardStateKey_app in Hm. by apply (Hne x68 x73) in Hm; [|left|].
Qed.

Lemma Store_wal_ok s s' sn h es :
  is_u64 id → small_gid gid → ascending es → index_ok es →
  Store_ s id gid sn h es = Ok s' → wal_ok (view s) → wal_ok (view s').
Proof.
  intros Hid Hg Hasc Hix Hst Hok k v Hv Hpre.
  destruct (Store_spec s sn h es Hasc Hix) as (s0 & Hst0 & Hin & Hout).
  rewrite Hst in Hst0. injection Hst0 as <-.
  assert (¬ meta_key k) as Hk.
  { intros Hm. unfold small_gid in *. rewrite (meta_outside gid k) in Hpre; try done; lia. }
  destruct (decide (Exists (λ e, k = ekey e) es)) as [Hex|Hnex].
  - apply Exists_exists in Hex as (e & He & ->). rewrite Hin in Hv by done. injection Hv as <-. eauto.
  - rewrite Hout in Hv; [|done|].
    + case_decide; [done|]. by apply Hok.
    + intros e He ->. apply Hnex, Exists_exists. eauto.
Qed.

Lemma pos_le_zero e : pos_le (0, 0) (epos e).
Proof.
  destruct (epos_ok e) as [[? _] [? _]]. unfold pos_le, pos_compare. cbn [fst snd].
  destruct (Z.compare_spec 0 (epos e).1); [|done|lia]. destruct (Z.compare_spec 0 (epos e).2); done || lia.
Qed.

#[local] Instance epos_lt_strict : StrictOrder (λ a b : Entry, pos_lt (epos a) (epos b)).
Proof.
  split; [intros e; apply (irreflexivity pos_lt)|].
  intros a b c Hab Hbc. by etransitivity.
Qed.

(** What the log of a group holds after a write. *)
Lemma Store_Entries s sn h es :
  is_u64 id → small_gid gid → wal_ok (view s) → ascending es → index_ok es →
  ∃ s' old new, Store_ s id gid sn h es = Ok s' ∧ wal_ok (view s') ∧
    Entries s id gid 0 0 = Ok old ∧ Entries s' id gid 0 0 = Ok new ∧ ascending old ∧ ascending new ∧
    ∀ e, e ∈ new ↔ e ∈ es ∨ e ∈ old ∧ epos e ∉ epos <$> es ∧ (es ≠ [] → ¬ pos_lt (last_pos es) (epos e)).
Proof.
  intros Hid Hg Hok Hasc Hix. destruct (Store_spec s sn h es Hasc Hix) as (s' & Hst & Hin & Hout).
  pose proof (Store_wal_ok s s' sn h es Hid Hg Hasc Hix Hst Hok) as Hok'.
  assert (pos_ok (0, 0)) as H00 by by_decide.
  destruct (Entries_spec s (0, 0) Hok H00) as (old & Hold & Hasco & Helo).
  destruct (Entries_spec s' (0, 0) Hok' H00) as (new & Hnew & Hascn & Heln).
  exists s', old, new. do 6 (split; [done|]). intros e. rewrite Heln, Helo.
  pose proof (pos_le_zero e) as Hz.
  destruct (decide (epos e ∈ epos <$> es)) as [Hp|Hnp].
  - apply list_elem_of_fmap in Hp as (e' & Hpe & He').
    assert (ekey e = ekey e') as Hk by (unfold ekey; injection Hpe as -> ->; done).
    rewrite Hk, Hin by done. split.
    + intros [[= Heq%entry_enc_inj] _]. left. by subst.
    + intros [He|(_ & Hne & _)]; [|by destruct Hne; rewrite Hpe; apply list_elem_of_fmap_2].
      split; [|done]. rewrite <-(Hin e'), <-Hk by done. by apply Hin.
  - rewrite Hout.
    + case_decide as Hd.
      * destruct Hd as (Hne & _ & Hle). apply (after_key_le es (epos e)) in Hle; [|done..|apply epos_ok].
        split; [by intros [? _]|]. intros [He|(_ & _ & Hnot)]; [|by destruct (Hnot Hne)].
        destruct Hnp. by apply list_elem_of_fmap_2.
      * split.
        -- intros [Hv _]. right. do 2 (split; [done|]). intros Hne Hlt. apply Hd.
           split; [done|]. split; [apply entryKey_prefix|].
           by apply (after_key_le es (epos e)); [..|apply epos_ok|].
        -- intros [He|[[Hv _] _]]; [|done]. destruct Hnp. by apply list_elem_of_fmap_2.
    + intros Hm. eapply (meta_not_entry (ekey e)); [exact Hm|reflexivity].
    + intros e' He' Heq%ekey_inj. apply Hnp. rewrite Heq. by apply list_elem_of_fmap_2.
Qed.


(** Appending is durable: entries that come after everything in the log are
    read back behind the old ones, in order, and nothing else changes. *)
Theorem wal_append s sn h es old :
  is_u64 id → small_gid gid → wal_ok (view s) → ascending es → index_ok es →
  Entries s id gid 0 0 = Ok old → (∀ a b, a ∈ old → b ∈ es → pos_lt (epos a) (epos b)) →
  ∃ s', Store_ s id gid sn h es = Ok s' ∧ Entries s' id gid 0 0 = Ok (old ++ es).
Proof.
  intros Hid Hg Hok Hasc Hix Hold Hafter.
  destruct (Store_Entries s sn h es Hid Hg Hok Hasc Hix)
    as (s' & old' & new & Hst & _ & Hold' & Hnew & Hasco & Hascn & Hel).
  rewrite Hold in Hold'. injection Hold' as <-. exists s'. split; [done|]. rewrite Hnew. f_equal.
  apply (ssorted_ext (λ a b : Entry, pos_lt (epos a) (epos b))); [done| |].
  - apply StronglySorted_app. split_and!; done.
  - intros e. rewrite Hel, elem_of_app. split; [tauto|]. intros [He|He]; [|by left].
    right. split; [done|]. split.
    + intros (b & Heq & Hb)%list_elem_of_fmap. specialize (Hafter e b He Hb).
      rewrite Heq in Hafter. by apply (irreflexivity pos_lt) in Hafter.
    + intros Hne Hlt. destruct (last_pos_ok es Hne Hix) as (_ & _ & b & Hb & Hlast).
      specialize (Hafter e b He Hb). rewrite Hlast in Hlt.
      apply (irreflexivity pos_lt (epos e)). by etransitivity.
Qed.
End spec.

(** *** A concrete codec *)
#[local] Instance byte_pb : RaftPb (byte * byte) (list byte) (list byte) := {|
  Term e := byte_to_Z e.1;
  Index e := byte_to_Z e.2;
  entry_Marshal e := Ok [e.1; e.2];
  entry_Unmarshal d := match d with [t; i] => Ok (t, i) | _ => Err "unexpected EOF" end;
  IsEmptySnap s := bool_decide (s = []);
  snap_Marshal s := Ok s;
  snap_Unmarshal s := Ok s;
  IsEmptyHardState s := bool_decide (s = []);
  hard_Marshal s := Ok s;
  hard_Unmarshal s := Ok s;
|}.

#[local, program] Instance byte_pb_spec : RaftPbSpec byte_pb := {|
  entry_enc e := [e.1; e.2];
  snap_enc s := s;
  hard_enc s := s;
|}.
Next Obligation. done. Qed.
Next Obligation. by intros []. Qed.
Next Obligation. intros []. pose proof (byte_to_Z_range b). unfold is_u64, MaxUint64. simpl. lia. Qed.
Next Obligation. intros []. pose proof (byte_to_Z_range b0). unfold is_u64, MaxUint64. simpl. lia. Qed.
Next Obligation. done. Qed.
Next Obligation. done. Qed.
Next Obligation. done. Qed.
Next Obligation. done. Qed.

Definition ex_log : list (byte * byte) := [(x01, x01); (x01, x02); (x01, x03)].

Lemma empty_wal_ok id gid : wal_ok id gid ∅.
Proof. intros k v Hk. by rewrite lookup_empty in Hk. Qed.


Lemma wal_append_witness :
  ∃ s' : memstore, Store_ (∅ : memstore) 1 7 [] (bs "hard") ex_log = Ok s' ∧
    Entries s' 1 7 0 0 = Ok ([] ++ ex_log).
Proof.
  apply (wal_append (view := λ s, s) 1 7 (∅ : memstore) ([] : list byte) (bs "hard") ex_log []);
    [by_decide|by_decide|apply empty_wal_ok|unfold ascending; by_decide|unfold index_ok; by_decide
    |reflexivity|].
  intros a b Ha. by apply elem_of_nil in Ha.
Defined.

End raftwal.
