(* ===== verification/ListMap.v ===== *)
(** The sharded map from key fingerprints to posting lists ([posting/hash.go]).
    A list is known by its address. *)
From S2P Require Import Prelude.
From stdpp Require Import options.
#[local] Open Scope Z_scope.
#[local] Set Default Proof Using "Type*".

Module hash.

Section listmap.
Context {A : Type}.

Record listMap : Type := mkListMap {
  numShards : nat;
  shard : list (gmap Z A);
}.

Definition getShard (numShards : nat) (key : Z) : nat :=
  Z.to_nat (key mod Z.of_nat numShards).

Definition newShardedListMap (numShards : nat) : listMap :=
  mkListMap numShards (replicate numShards ∅).

(** [for i := 0; i < s.numShards; i++ { size += s.shard[i].size() }]. *)
Fixpoint size_loop (shards : list (gmap Z A)) (size_ : nat) : nat :=
  match shards with
  | [] => size_
  | m :: shards => size_loop shards (size_ + size m)
  end.

Definition Size (s : listMap) : nat := size_loop (take (numShards s) (shard s)) 0.

(** Indexing the shards: the index is in range as long as there are
    [numShards] of them. *)
Definition Get (s : listMap) (key : Z) : res (option A) :=
  m ← index (shard s) (getShard (numShards s) key); Ok (m !! key).

Definition putIfMissing (m : gmap Z A) (key : Z) (val : A) : gmap Z A * A :=
  match m !! key with
  | Some oldVal => (m, oldVal)
  | None => (<[key := val]> m, val)
  end.

Definition PutIfMissing (s : listMap) (key : Z) (val : A) : res (listMap * A) :=
  let i := getShard (numShards s) key in
  m ← index (shard s) i;
  let '(m, v) := putIfMissing m key val in
  Ok (mkListMap (numShards s) (<[i := m]> (shard s)), v).

(** [eachWithDelete] hands every binding of a shard to the callback, in the
    unspecified order of Go's map iteration; the callback accumulates. *)
Definition eachWithDelete {B} (f : B → Z → A → B) (m : gmap Z A) (acc : B) : gmap Z A * B :=
  (∅, fold_left (λ acc kv, f acc kv.1 kv.2) (map_to_list m) acc).

Fixpoint each_loop {B} (f : B → Z → A → B) (shards : list (gmap Z A)) (acc : B) :
    list (gmap Z A) * B :=
  match shards with
  | [] => ([], acc)
  | m :: shards =>
      let '(m, acc) := eachWithDelete f m acc in
      let '(shards, acc) := each_loop f shards acc in
      (m :: shards, acc)
  end.

Definition EachWithDelete {B} (f : B → Z → A → B) (s : listMap) (acc : B) : listMap * B :=
  let '(shards, acc) := each_loop f (shard s) acc in (mkListMap (numShards s) shards, acc).

(** *** The map the shards stand for *)
Definition flat (s : listMap) : gmap Z A := foldr (∪) ∅ (shard s).

Record wf (s : listMap) : Prop := {
  wf_pos : (0 < numShards s)%nat;
  wf_len : length (shard s) = numShards s;
  wf_home i m k : shard s !! i = Some m → is_Some (m !! k) → getShard (numShards s) k = i;
}.

Lemma getShard_lt n k : (0 < n)%nat → (getShard n k < n)%nat.
Proof. intros Hn. unfold getShard. pose proof (Z.mod_pos_bound k (Z.of_nat n) ltac:(lia)). lia. Qed.

Lemma wf_index s k : wf s → ∃ m, shard s !! getShard (numShards s) k = Some m.
Proof. intros [Hp Hl _]. apply lookup_lt_is_Some_2. rewrite Hl. by apply getShard_lt. Qed.

Lemma lookup_flat_None (shards : list (gmap Z A)) k :
  (∀ i m, shards !! i = Some m → m !! k = None) → foldr (∪) ∅ shards !! k = None.
Proof.
  induction shards as [|m shards IH]; intros Hall; simpl; [apply lookup_empty|].
  apply lookup_union_None. split; [by apply (Hall 0%nat)|]. apply IH. intros i. apply (Hall (S i)).
Qed.

Lemma lookup_flat_at (shards : list (gmap Z A)) k i m :
  shards !! i = Some m → (∀ j m', shards !! j = Some m' → j ≠ i → m' !! k = None) →
  foldr (∪) ∅ shards !! k = m !! k.
Proof.
  revert i. induction shards as [|m0 shards IH]; intros i Hi Hall; [done|]. simpl.
  destruct i as [|i]; simpl in Hi.
  - injection Hi as ->. rewrite lookup_union, (lookup_flat_None shards), (right_id_L None _); [done|].
    intros j m' Hj. by apply (Hall (S j)).
  - rewrite lookup_union, (Hall 0%nat m0), (left_id_L None _) by done. apply (IH i Hi).
    intros j m' Hj Hne. apply (Hall (S j)); [done|]. congruence.
Qed.

Lemma lookup_flat s k m :
  wf s → shard s !! getShard (numShards s) k = Some m → flat s !! k = m !! k.
Proof.
  intros Hwf Hm. apply (lookup_flat_at _ _ _ _ Hm). intros j m' Hj Hne.
  destruct (m' !! k) eqn:Hk; [|done]. destruct Hne. symmetry. eapply wf_home; eauto.
Qed.

Lemma wf_new n : (0 < n)%nat → wf (newShardedListMap n).
Proof.
  intros Hn. split; simpl; [done|apply length_replicate|].
  intros i m k [-> _]%lookup_replicate [x Hx]. by rewrite lookup_empty in Hx.
Qed.

Lemma flat_new n : flat (newShardedListMap n) = ∅.
Proof. unfold flat. simpl. induction n as [|n IH]; simpl; [done|]. by rewrite IH, (left_id_L ∅ (∪)). Qed.

Lemma hash_Get_spec s k : wf s → Get s k = Ok (flat s !! k).
Proof.
  intros Hwf. destruct (wf_index s k Hwf) as [m Hm]. unfold Get, index. rewrite Hm. simpl.
  by rewrite (lookup_flat s k m).
Qed.

Lemma PutIfMissing_spec s k v :
  wf s →
  ∃ s', PutIfMissing s k v = Ok (s', default v (flat s !! k)) ∧ wf s' ∧
    flat s' = match flat s !! k with Some _ => flat s | None => <[k := v]> (flat s) end.
Proof.
  intros Hwf. destruct (wf_index s k Hwf) as [m Hm]. unfold PutIfMissing, index. rewrite Hm. simpl.
  unfold putIfMissing. rewrite (lookup_flat s k m) by done.
  destruct (m !! k) as [old|] eqn:Hk; simpl; eexists; (split; [reflexivity|]).
  - rewrite list_insert_id by done. destruct s as [n l]. split; [done|reflexivity].
  - assert (wf (mkListMap (numShards s) (<[getShard (numShards s) k:=<[k:=v]> m]> (shard s)))) as Hwf'.
    { destruct Hwf as [Hp Hl Hh]. split; simpl; [done|by rewrite length_insert|].
      intros i m' k' Hi Hs. apply list_lookup_insert_Some in Hi as [(<- & <- & _)|[_ Hi]];
        [|by eapply Hh].
      apply lookup_insert_is_Some' in Hs as [->|Hs]; [done|]. by eapply Hh. }
    split; [done|]. apply map_eq. intros k'.
    destruct (wf_index _ k' Hwf') as [m' Hm']. rewrite (lookup_flat _ k' m') by done. simpl in Hm'.
    destruct (decide (getShard (numShards s) k' = getShard (numShards s) k)) as [Heq|Hne].
    + rewrite Heq, list_lookup_insert_eq in Hm' by (by eapply lookup_lt_Some).
      injection Hm' as <-. rewrite <-Heq in Hm.
      destruct (decide (k' = k)) as [->|]; [by rewrite !lookup_insert_eq|].
      by rewrite !lookup_insert_ne, (lookup_flat s k' m).
    + rewrite list_lookup_insert_ne in Hm' by congruence.
      by rewrite lookup_insert_ne, (lookup_flat s k' m') by congruence.
Qed.

Definition disjoint_shards (shards : list (gmap Z A)) : Prop :=
  ∀ i j m m', shards !! i = Some m → shards !! j = Some m' → i ≠ j → m ##ₘ m'.

Lemma wf_disjoint s : wf s → disjoint_shards (shard s).
Proof.
  intros Hwf i j m m' Hi Hj Hne. apply map_disjoint_spec. intros k x y Hx Hy. apply Hne.
  rewrite <-(wf_home s Hwf i m k), <-(wf_home s Hwf j m' k); eauto.
Qed.

Lemma disjoint_shards_cons m shards :
  disjoint_shards (m :: shards) → disjoint_shards shards ∧ m ##ₘ foldr (∪) ∅ shards.
Proof.
  intros Hd. split.
  - intros i j m1 m2 Hi Hj Hne. apply (Hd (S i) (S j)); [done..|congruence].
  - apply map_disjoint_spec. intros k x y Hx Hy.
    assert (foldr (∪) ∅ shards !! k = None) as Hn; [|congruence].
    apply lookup_flat_None. intros i m' Hi.
    eapply (map_disjoint_Some_l m); [|exact Hx]. apply (Hd 0%nat (S i)); done.
Qed.

Lemma size_loop_spec shards n :
  disjoint_shards shards → size_loop shards n = (n + size (foldr (∪) ∅ shards : gmap Z A))%nat.
Proof.
  revert n. induction shards as [|m shards IH]; intros n Hd; simpl; [rewrite map_size_empty; lia|].
  apply disjoint_shards_cons in Hd as [Hd Hm]. rewrite IH, map_size_disj_union by done. lia.
Qed.

Lemma map_to_list_disj (m1 m2 : gmap Z A) :
  m1 ##ₘ m2 → map_to_list (m1 ∪ m2) ≡ₚ map_to_list m1 ++ map_to_list m2.
Proof.
  intros Hd. apply NoDup_Permutation; [apply NoDup_map_to_list| |].
  - apply NoDup_app. split_and!; [apply NoDup_map_to_list| |apply NoDup_map_to_list].
    intros [k x] Hx%elem_of_map_to_list Hy%elem_of_map_to_list.
    by eapply (map_disjoint_spec m1 m2).
  - intros [k x]. rewrite elem_of_app, !elem_of_map_to_list. by apply lookup_union_Some.
Qed.

Lemma each_loop_spec {B} (f : B → Z → A → B) shards acc :
  disjoint_shards shards →
  ∃ kvs, kvs ≡ₚ map_to_list (foldr (∪) ∅ shards) ∧
    each_loop f shards acc =
      (replicate (length shards) ∅, fold_left (λ acc kv, f acc kv.1 kv.2) kvs acc).
Proof.
  revert acc. induction shards as [|m shards IH]; intros acc Hd; simpl.
  { exists []. by rewrite map_to_list_empty. }
  apply disjoint_shards_cons in Hd as [Hd Hm].
  destruct (IH (fold_left (λ acc kv, f acc kv.1 kv.2) (map_to_list m) acc) Hd) as (kvs & Hp & ->).
  exists (map_to_list m ++ kvs). split; [by rewrite map_to_list_disj, Hp|]. by rewrite fold_left_app.
Qed.

Lemma EachWithDelete_spec {B} (f : B → Z → A → B) s acc :
  wf s → ∃ s' kvs,
    EachWithDelete f s acc = (s', fold_left (λ acc kv, f acc kv.1 kv.2) kvs acc) ∧
    kvs ≡ₚ map_to_list (flat s) ∧ wf s' ∧ flat s' = ∅.
Proof.
  intros Hwf. unfold EachWithDelete.
  destruct (each_loop_spec f (shard s) acc (wf_disjoint s Hwf)) as (kvs & Hp & ->).
  exists (newShardedListMap (numShards s)), kvs. rewrite (wf_len s Hwf). split; [done|].
  split; [done|]. split; [apply wf_new, Hwf|apply flat_new].
Qed.

(** C29: The sharded map is a map: looking up and inserting a fingerprint touch
    only its shard but act on the union of the shards, the size is the size of
    the union, and emptying it hands every binding to the callback once. *)
Theorem listMap_refines_map s k v :
  wf s →
  Get s k = Ok (flat s !! k) ∧
  (∃ s', PutIfMissing s k v = Ok (s', default v (flat s !! k)) ∧ wf s' ∧
    flat s' = match flat s !! k with Some _ => flat s | None => <[k := v]> (flat s) end) ∧
  Size s = size (flat s) ∧
  (∀ B (f : B → Z → A → B) acc, ∃ s' kvs,
    EachWithDelete f s acc = (s', fold_left (λ acc kv, f acc kv.1 kv.2) kvs acc) ∧
    kvs ≡ₚ map_to_list (flat s) ∧ wf s' ∧ flat s' = ∅).
Proof.
  intros Hwf. split; [by apply hash_Get_spec|]. split; [by apply PutIfMissing_spec|]. split.
  - unfold Size. rewrite <-(wf_len s Hwf), take_ge by lia. rewrite size_loop_spec; [done|by apply wf_disjoint].
  - intros B f acc. by apply EachWithDelete_spec.
Qed.
End listmap.
Arguments listMap : clear implicits.

Lemma listMap_refines_map_witness :
  let s := mkListMap 2 [{[4 := 10%nat]}; {[7 := 11%nat; 9 := 12%nat]}] in
  wf s ∧ Get s 9 = Ok (Some 12%nat) ∧ Size s = 3%nat.
Proof.
  intros s. assert (wf s) as Hwf.
  { split; [simpl; lia|done|]. intros [|[|i]] m k Hi Hk; simpl in Hi; [..|done];
      injection Hi as <-; destruct Hk as [x Hx].
    - by apply lookup_singleton_Some in Hx as [<- _].
    - apply lookup_insert_Some in Hx as [[<- _]|[_ Hx]]; [done|].
      by apply lookup_singleton_Some in Hx as [<- _]. }
  destruct (listMap_refines_map s 9 13%nat Hwf) as (Hget & _ & Hsize & _).
  split; [done|]. split; [rewrite Hget|rewrite Hsize]; vm_compute; reflexivity.
Defined.
End hash.
