(* ===== verification/Lists.v ===== *)
(** The life cycle of posting lists in memory ([posting/lists.go]): handing out
    lists with reference counts, evicting them with the world stopped, and the
    background merges.

    Goroutines interleave, so the package is a transition system over a heap of
    [List] objects. One step is one critical operation of the code: a map
    operation with the counter update that follows it under [stopTheWorld], a
    locked list operation, or a counter update. *)
From S2P Require Import Prelude Bytes Store Proto PostingPb Md5 Task PostingList ListMap.
From stdpp Require Import options.
#[local] Open Scope Z_scope.
#[local] Set Default Proof Using "Type*".

Module lists.
Import posting.

(** Where a goroutine is, with the address of the list it works on. *)
Inductive thread : Type :=
| TNew (k : list byte) (a : nat)          (* [GetOrCreate] after [getNew] *)
| THold (a : nat)                         (* a caller of [GetOrCreate] before its [decr] *)
| TChecked (a : nat) (t : DirectedEdge) (op : Z) (* in [AddMutation] past the [deleteMe] test *)
| TGentle (a : nat).                      (* [mergeAndUpdateKeys] after [lhmap.Get] *)

Section lists.
Context {St : Type} `{KVStore St}.
Context (Fingerprint32 Fingerprint64 : list byte → Z).

Record world : Type := mkWorld {
  heap : gmap nat List;
  lhmap : hash.listMap nat;
  pool : gset nat;
  store : St;
  threads : gmap nat thread;
  work : list nat;
  stopTheWorld : bool;
  dirtyChan : list Z;
}.

Definition set_thread (tid : nat) (t : thread) (w : world) : world :=
  mkWorld (heap w) (lhmap w) (pool w) (store w) (<[tid := t]> (threads w)) (work w)
    (stopTheWorld w) (dirtyChan w).
Definition del_thread (tid : nat) (w : world) : world :=
  mkWorld (heap w) (lhmap w) (pool w) (store w) (delete tid (threads w)) (work w)
    (stopTheWorld w) (dirtyChan w).
Definition put_list (a : nat) (l : List) (w : world) : world :=
  mkWorld (<[a := l]> (heap w)) (lhmap w) (pool w) (store w) (threads w) (work w)
    (stopTheWorld w) (dirtyChan w).
Definition set_pool (p : gset nat) (w : world) : world :=
  mkWorld (heap w) (lhmap w) p (store w) (threads w) (work w) (stopTheWorld w) (dirtyChan w).
Definition set_map (m : hash.listMap nat) (w : world) : world :=
  mkWorld (heap w) m (pool w) (store w) (threads w) (work w) (stopTheWorld w) (dirtyChan w).
Definition set_store (s : St) (w : world) : world :=
  mkWorld (heap w) (lhmap w) (pool w) s (threads w) (work w) (stopTheWorld w) (dirtyChan w).
Definition set_work (l : list nat) (w : world) : world :=
  mkWorld (heap w) (lhmap w) (pool w) (store w) (threads w) l (stopTheWorld w) (dirtyChan w).
Definition set_stop (b : bool) (w : world) : world :=
  mkWorld (heap w) (lhmap w) (pool w) (store w) (threads w) (work w) b (dirtyChan w).
Definition set_chan (c : list Z) (w : world) : world :=
  mkWorld (heap w) (lhmap w) (pool w) (store w) (threads w) (work w) (stopTheWorld w) c.

Definition get_list (a : nat) (w : world) : res List :=
  match heap w !! a with Some l => Ok l | None => Crash "nil pointer" end.

(** [l.decr()], with the list going back to [listPool] at zero. *)
Definition decr_list (a : nat) (w : world) : res world :=
  l ← get_list a w;
  r ← decr l;
  let '(l, freed) := (r : List * bool) in
  let w := put_list a l w in
  Ok (if freed then set_pool ({[a]} ∪ pool w) w else w).

Definition incr_list (a : nat) (w : world) : res world :=
  l ← get_list a w; Ok (put_list a (incr l) w).

(** [Init]. *)
Definition Init (s : St) (lhmapNumShards : nat) : world :=
  mkWorld ∅ (hash.newShardedListMap lhmapNumShards) ∅ s ∅ [] false [].

(** [GetOrCreate], first half: look the fingerprint up; a list that is there is
    counted, otherwise [getNew] takes the address [a] from the pool or a fresh
    one and resets it. *)
Definition getOrCreate_lookup (tid : nat) (k : list byte) (a : nat) (w : world) : res world :=
  lp ← hash.Get (lhmap w) (Fingerprint64 k);
  match lp with
  | Some b => w ← incr_list b w; Ok (set_thread tid (THold b) w)
  | None =>
      let w := set_pool (pool w ∖ {[a]}) (put_list a getNew w) in
      Ok (set_thread tid (TNew k a) w)
  end.

(** [GetOrCreate], second half. *)
Definition getOrCreate_put (tid : nat) (k : list byte) (a : nat) (w : world) : res world :=
  r ← hash.PutIfMissing (lhmap w) (Fingerprint64 k) a;
  let '(m, lp) := (r : hash.listMap nat * nat) in
  w ← incr_list lp (set_map m w);
  w ← (if (lp =? a)%nat
       then l ← get_list a w; Ok (put_list a (init Fingerprint32 Fingerprint64 k l) w)
       else decr_list a w);
  Ok (set_thread tid (THold lp) w).

(** [mergeAndUpdate]: the counters are only logged. *)
Definition mergeAndUpdate (now : Z) (a : nat) (w : world) : res world :=
  l ← get_list a w;
  r ← CommitIfDirty (store w) now l;
  let '(s, l, _) := (r : St * List * bool) in
  Ok (set_store s (put_list a l w)).

(** [lhmap.EachWithDelete(func(k, l) { workChan <- l })] of [MergeLists]. *)
Definition MergeLists_collect (w : world) : world :=
  let '(m, ls) := hash.EachWithDelete (λ acc _ a, acc ++ [a]) (lhmap w) [] in
  set_work (work w ++ ls) (set_map m w).

(** One turn of a [MergeLists] worker. *)
Definition MergeLists_work (now : Z) (a : nat) (w : world) : res world :=
  l ← get_list a w;
  w ← mergeAndUpdate now a (put_list a (SetForDeletion l) w);
  decr_list a w.

(** [AddMutation] behind the test. *)
Definition apply_mutation (now : Z) (a : nat) (t : DirectedEdge) (op : Z) (w : world) :
    res (world * bool) :=
  l ← get_list a w;
  ' (l, _, ch, hasMutated) ← AddMutation_body (store w) (Some (dirtyChan w)) now l t op;
  Ok (set_chan (default [] ch) (put_list a l w), hasMutated).

Definition is_TNew (t : thread) : Prop := match t with TNew _ _ => True | _ => False end.

(** Fewer goroutines than an int32 can count. *)
Definition room (w : world) : Prop := Z.of_nat (size (threads w)) < 2 ^ 30.

(** The interleavings. *)
Inductive step : world → world → Prop :=
| step_lookup w w' tid k a :
    stopTheWorld w = false → threads w !! tid = None → room w →
    (heap w !! a = None ∨ a ∈ pool w) →
    getOrCreate_lookup tid k a w = Ok w' → step w w'
| step_put w w' tid k a :
    threads w !! tid = Some (TNew k a) →
    getOrCreate_put tid k a w = Ok w' → step w w'
| step_release w w' tid a :
    threads w !! tid = Some (THold a) →
    decr_list a (del_thread tid w) = Ok w' → step w w'
| step_check w tid a l t op :
    threads w !! tid = Some (THold a) → heap w !! a = Some l → deleteMe l ≠ 1 →
    step w (set_thread tid (TChecked a t op) w)
| step_apply w w' tid a t op now b :
    threads w !! tid = Some (TChecked a t op) →
    apply_mutation now a t op w = Ok (w', b) → step w (set_thread tid (THold a) w')
| step_apply_err w tid a t op now e :
    threads w !! tid = Some (TChecked a t op) →
    apply_mutation now a t op w = Err e → step w (set_thread tid (THold a) w)
| step_stop w :
    stopTheWorld w = false → (∀ tid t, threads w !! tid = Some t → ¬ is_TNew t) →
    step w (set_stop true w)
| step_collect w :
    stopTheWorld w = true → step w (MergeLists_collect w)
| step_work w w' a l1 l2 now :
    work w = l1 ++ a :: l2 →
    MergeLists_work now a (set_work (l1 ++ l2) w) = Ok w' → step w w'
| step_resume w :
    stopTheWorld w = true → work w = [] → step w (set_stop false w)
| step_gentle_get w tid fp a :
    threads w !! tid = None → room w →
    hash.Get (lhmap w) fp = Ok (Some a) → step w (set_thread tid (TGentle a) w)
| step_gentle_merge w w' tid a now :
    threads w !! tid = Some (TGentle a) →
    mergeAndUpdate now a (del_thread tid w) = Ok w' → step w w'.

Definition reachable (s : St) (n : nat) (w : world) : Prop := rtc step (Init s n) w.

(** ** Reference counting *)
Definition ref_of (t : thread) : option nat :=
  match t with
  | TNew _ a | THold a | TChecked a _ _ => Some a
  | TGentle _ => None
  end.

(** References to a list: the map's, the goroutines' and the work channel's. *)
Definition map_refs (w : world) (a : nat) : nat := cnt (λ b, b = a) (hash.flat (lhmap w)).
Definition thread_refs (w : world) (a : nat) : nat := cnt (λ t, ref_of t = Some a) (threads w).
Definition work_refs (w : world) (a : nat) : nat := length (filter (λ b, b = a) (work w)).
Definition refs (w : world) (a : nat) : Z :=
  Z.of_nat (map_refs w a + thread_refs w a + work_refs w a).

(** The invariant, with counters allowed to be off by [off] between the two
    halves of an operation. *)
Record winv (off : nat → Z) (w : world) : Prop := {
  wi_wf : hash.wf (lhmap w);
  wi_count a l : heap w !! a = Some l → refcount l = refs w a + off a;
  wi_pool a : a ∈ pool w ↔ ∃ l, heap w !! a = Some l ∧ refcount l = 0;
  wi_dom a : heap w !! a = None → refs w a + off a = 0;
  wi_uniq a : (map_refs w a + work_refs w a ≤ 1)%nat;
  wi_stop tid t : stopTheWorld w = true → threads w !! tid = Some t → ¬ is_TNew t;
  wi_room : Z.of_nat (size (threads w)) ≤ 2 ^ 30;
}.

Definition bump (a : nat) (d : Z) (off : nat → Z) (b : nat) : Z :=
  off b + if decide (b = a) then d else 0.

Lemma winv_ext off off' w : (∀ a, off a = off' a) → winv off w → winv off' w.
Proof. intros Hoff [? ? ? ? ? ? ?]. split; intros; rewrite <-?Hoff; eauto. Qed.

Lemma refs_bound off w a : winv off w → 0 ≤ refs w a ≤ 1 + 2 ^ 30.
Proof.
  intros Hw. pose proof (wi_uniq _ _ Hw a). pose proof (wi_room _ _ Hw).
  pose proof (cnt_le (λ t, ref_of t = Some a) (threads w)). unfold refs, thread_refs in *. lia.
Qed.

Lemma i32_small z : - 2 ^ 31 ≤ z < 2 ^ 31 → i32 z = z.
Proof.
  intros Hz. unfold i32, u32. destruct (Z_lt_le_dec z 0).
  - assert (z mod 4294967296 = z + 4294967296) as ->.
    { symmetry. apply (Z.mod_unique_pos _ _ (-1)); lia. }
    destruct (Z.ltb_spec (z + 4294967296) 2147483648); lia.
  - rewrite Z.mod_small by lia. destruct (Z.ltb_spec z 2147483648); lia.
Qed.

(** Replacing a list by one with another counter. *)
Lemma winv_put off w a l l' :
  winv off w → heap w !! a = Some l → 0 < refcount l → 0 < refcount l' →
  winv (bump a (refcount l' - refcount l) off) (put_list a l' w).
Proof.
  intros [Hwf Hc Hp Hd Hu Hs Hr] Hl Hpos Hpos'. split; try done; simpl.
  - intros b lb Hb. unfold bump. apply lookup_insert_Some in Hb as [[-> ->]|[Hne Hb]].
    + rewrite decide_True by done. specialize (Hc b l Hl).
      change (refs (put_list b lb w) b) with (refs w b). lia.
    + rewrite decide_False by done. specialize (Hc b lb Hb).
      change (refs (put_list a l' w) b) with (refs w b). lia.
  - intros b. rewrite Hp. split; intros (lb & Hb & Hz).
    + exists lb. split; [|done]. rewrite lookup_insert_ne; [done|]. intros ->. simplify_eq. lia.
    + apply lookup_insert_Some in Hb as [[-> ->]|[Hne Hb]]; [lia|]. eauto.
  - intros b Hb. apply lookup_insert_None in Hb as [Hb Hne]. unfold bump.
    rewrite decide_False by done. specialize (Hd b Hb).
    change (refs (put_list a l' w) b) with (refs w b). lia.
Qed.

(** ... and by one with the same counter. *)
Lemma winv_put_same off w a l l' :
  winv off w → heap w !! a = Some l → refcount l' = refcount l → winv off (put_list a l' w).
Proof.
  intros [Hwf Hc Hp Hd Hu Hs Hr] Hl Heq. split; try done; simpl.
  - intros b lb Hb. apply lookup_insert_Some in Hb as [[-> ->]|[Hne Hb]]; [rewrite Heq|]; by apply Hc.
  - intros b. rewrite Hp. split; intros (lb & Hb & Hz).
    + destruct (decide (b = a)) as [->|].
      * exists l'. rewrite lookup_insert_eq. split; [done|]. simplify_eq. lia.
      * exists lb. by rewrite lookup_insert_ne.
    + apply lookup_insert_Some in Hb as [[-> ->]|[Hne Hb]]; [|eauto]. exists l. split; [done|lia].
  - intros b [Hb Hne]%lookup_insert_None. by apply Hd.
Qed.

Lemma incr_list_spec off w a :
  winv off w → 0 < refs w a + off a ≤ 2 ^ 30 + 8 →
  ∃ w', incr_list a w = Ok w' ∧ winv (bump a 1 off) w' ∧
    ∃ l, heap w !! a = Some l ∧ w' = put_list a (incr l) w.
Proof.
  intros Hw Hpos. unfold incr_list, get_list. destruct (heap w !! a) as [l|] eqn:Hl.
  - eexists. split; [reflexivity|]. pose proof (wi_count _ _ Hw a l Hl) as Hc.
    assert (refcount (incr l) = refcount l + 1) as Hi by (simpl; apply i32_small; lia).
    split.
    + apply (winv_ext (bump a (refcount (incr l) - refcount l) off)).
      { intros b. unfold bump. case_decide; lia. }
      apply winv_put; try done; lia.
    + by exists l.
  - pose proof (wi_dom _ _ Hw a Hl). lia.
Qed.

Lemma decr_list_spec off w a :
  winv off w → 1 ≤ refs w a + off a ≤ 2 ^ 30 + 8 →
  ∃ w', decr_list a w = Ok w' ∧ winv (bump a (-1) off) w' ∧
    ∃ l, w' = set_pool (pool w') (put_list a l w).
Proof.
  intros Hw Hpos. unfold decr_list, get_list. destruct (heap w !! a) as [l|] eqn:Hl; simpl.
  2: { pose proof (wi_dom _ _ Hw a Hl). lia. }
  pose proof (wi_count _ _ Hw a l Hl) as Hc. unfold decr. rewrite i32_small by lia.
  rewrite (proj2 (Z.leb_le _ _)) by lia. simpl.
  set (l' := set_refcount (refcount l - 1) l).
  destruct (Z.ltb_spec 0 (refcount l - 1)) as [Hp|Hz]; simpl; eexists; (split; [reflexivity|]).
  - split; [|by exists l'].
    apply (winv_ext (bump a (refcount l' - refcount l) off)).
    { intros b. unfold bump, l'. simpl. case_decide; lia. }
    apply winv_put; try done; unfold l'; simpl; lia.
  - split; [|by exists l'].
    destruct Hw as [Hwf Hcc Hpl Hd Hu Hs Hr]. split; try done; simpl.
    + intros b lb Hb. unfold bump. apply lookup_insert_Some in Hb as [[-> <-]|[Hne Hb]].
      * rewrite decide_True by done.
        change (refs (set_pool _ _) b) with (refs w b). unfold l'. simpl. lia.
      * rewrite decide_False by done. specialize (Hcc b lb Hb).
        change (refs (set_pool _ _) b) with (refs w b). lia.
    + intros b. rewrite elem_of_union, elem_of_singleton, Hpl. split.
      * intros [->|(lb & Hb & Hzb)].
        -- exists l'. rewrite lookup_insert_eq. split; [done|]. unfold l'. simpl. lia.
        -- destruct (decide (b = a)) as [->|]; [simplify_eq; lia|].
           exists lb. by rewrite lookup_insert_ne.
      * intros (lb & Hb & Hzb). apply lookup_insert_Some in Hb as [[-> _]|[Hne Hb]]; eauto.
    + intros b [Hb Hne]%lookup_insert_None. unfold bump. rewrite decide_False by done.
      specialize (Hd b Hb). change (refs (set_pool _ _) b) with (refs w b). lia.
Qed.

(** *** Goroutines *)
Definition ref_at (t : option thread) (a : nat) : Z :=
  if decide (t ≫= ref_of = Some a) then 1 else 0.

Lemma thread_refs_set w tid t a :
  Z.of_nat (thread_refs (set_thread tid t w) a) =
  Z.of_nat (thread_refs w a) - ref_at (threads w !! tid) a + ref_at (Some t) a.
Proof.
  unfold thread_refs, ref_at. simpl. rewrite cnt_update.
  destruct (threads w !! tid) as [t'|] eqn:Ht; simpl.
  - rewrite (cnt_delete _ (threads w) tid t') by done. repeat case_decide; lia.
  - rewrite delete_id by done. repeat case_decide; done || lia.
Qed.

Lemma thread_refs_del w tid a :
  Z.of_nat (thread_refs (del_thread tid w) a) =
  Z.of_nat (thread_refs w a) - ref_at (threads w !! tid) a.
Proof.
  unfold thread_refs, ref_at. simpl. destruct (threads w !! tid) as [t'|] eqn:Ht; simpl.
  - rewrite (cnt_delete _ (threads w) tid t') by done. repeat case_decide; lia.
  - rewrite delete_id by done. repeat case_decide; done || lia.
Qed.

Definition thread_ok (w : world) (t : thread) : Prop := stopTheWorld w = true → ¬ is_TNew t.

Lemma winv_set_thread off w tid t :
  winv off w → thread_ok w t → (threads w !! tid = None → room w) →
  winv (λ a, off a + ref_at (threads w !! tid) a - ref_at (Some t) a) (set_thread tid t w).
Proof.
  intros [Hwf Hc Hp Hd Hu Hs Hr] Hok Hroom.
  assert (∀ a, refs (set_thread tid t w) a =
    refs w a - ref_at (threads w !! tid) a + ref_at (Some t) a) as Hrefs.
  { intros a. pose proof (thread_refs_set w tid t a). unfold refs.
    change (map_refs (set_thread tid t w) a) with (map_refs w a).
    change (work_refs (set_thread tid t w) a) with (work_refs w a). lia. }
  split; try done; simpl.
  - intros a l Hl. rewrite Hrefs. specialize (Hc a l Hl). lia.
  - intros a Ha. rewrite Hrefs. specialize (Hd a Ha). lia.
  - intros tid' t' Hstop Ht'. apply lookup_insert_Some in Ht' as [[<- <-]|[_ Ht']]; eauto.
  - destruct (threads w !! tid) as [t'|] eqn:Ht.
    + rewrite map_size_insert_Some by eauto. done.
    + rewrite map_size_insert_None by done. specialize (Hroom eq_refl). unfold room in Hroom. lia.
Qed.

Lemma winv_del_thread off w tid :
  winv off w → winv (λ a, off a + ref_at (threads w !! tid) a) (del_thread tid w).
Proof.
  intros [Hwf Hc Hp Hd Hu Hs Hr].
  assert (∀ a, refs (del_thread tid w) a = refs w a - ref_at (threads w !! tid) a) as Hrefs.
  { intros a. pose proof (thread_refs_del w tid a). unfold refs.
    change (map_refs (del_thread tid w) a) with (map_refs w a).
    change (work_refs (del_thread tid w) a) with (work_refs w a). lia. }
  split; try done; simpl.
  - intros a l Hl. rewrite Hrefs. specialize (Hc a l Hl). lia.
  - intros a Ha. rewrite Hrefs. specialize (Hd a Ha). lia.
  - intros tid' t' Hstop [_ Ht']%lookup_delete_Some. eauto.
  - assert (size (delete tid (threads w)) ≤ size (threads w))%nat; [|lia].
    rewrite map_size_delete. destruct (threads w !! tid); unfold id; lia.
Qed.

(** *** List operations leave the counter alone *)
Lemma getPostingList_refcount (s : St) l pl l' :
  getPostingList s l = Ok (pl, l') → refcount l' = refcount l.
Proof.
  unfold getPostingList, assert_true. intros Heq.
  repeat (case_match; simplify_eq/=; try done).
Qed.

Lemma insert_mutation_refcount l midx p : refcount (insert_mutation l midx p) = refcount l.
Proof. unfold insert_mutation. by case_match. Qed.

Lemma update_immutable_refcount (s : St) l p midx l' b :
  update_immutable s l p midx = Ok (l', b) → refcount l' = refcount l.
Proof.
  unfold update_immutable. destruct (getPostingList s l) as [[pl l1]| |] eqn:Hg; simpl; [|done..].
  apply getPostingList_refcount in Hg as <-. case_match. intros Heq.
  repeat (case_match; simplify_eq/=); rewrite ?insert_mutation_refcount; done.
Qed.

Lemma updateMutationLayer_refcount (s : St) l p l' b :
  updateMutationLayer s l p = Ok (l', b) → refcount l' = refcount l.
Proof.
  unfold updateMutationLayer, assert_true. destruct (_ || _); simpl; [|done]. intros Heq.
  destruct (mlayer l !! _) as [old|]; [|by eapply update_immutable_refcount].
  destruct (Uid old =? Uid p); [|by eapply update_immutable_refcount].
  repeat (case_match; simplify_eq/=; try done).
Qed.

Lemma AddMutation_body_refcount (s : St) ch now l t op l' t' ch' b :
  AddMutation_body s ch now l t op = Ok (l', t', ch', b) → refcount l' = refcount l.
Proof.
  unfold AddMutation_body. destruct (ValueId _ =? 0); [done|].
  destruct (newPosting _ op) as [p| |]; simpl; [|done..].
  destruct (updateMutationLayer s l p) as [[l1 b1]| |] eqn:Hu; simpl; [|done..].
  apply updateMutationLayer_refcount in Hu as <-. by case_match; intros; simplify_eq/=.
Qed.

Lemma iterate_refcount {A} (s : St) l u (f : A → Posting → res (A * bool)) acc a l' :
  iterate s l u f acc = Ok (a, l') → refcount l' = refcount l.
Proof.
  unfold iterate. destruct (getPostingList s l) as [[pl l1]| |] eqn:Hg; cbn [mbind res_bind]; [|done..].
  apply getPostingList_refcount in Hg as <-.
  destruct (iterate_loop _ _ _ _ _ _ _) as [r| |]; cbn [mbind res_bind]; [|done..].
  by intros [= _ <-].
Qed.

Lemma CommitIfDirty_refcount (s : St) now l s' l' b :
  CommitIfDirty s now l = Ok (s', l', b) → refcount l' = refcount l.
Proof.
  unfold CommitIfDirty, commit. destruct (dirtyTs l =? 0); [by intros [= _ <- _]|].
  destruct (length (mlayer l) =? 0)%nat; [by intros [= _ <- _]|].
  destruct (iterate s l 0 commit_callback _) as [[[[c h] fin] l1]| |] eqn:Hi;
    cbn [mbind res_bind]; [|done..].
  apply iterate_refcount in Hi as <-. intros Heq.
  destruct (postinglist_pb.Marshal _); [|done..]. destruct (kv_set _ _ _); [|done..].
  by injection Heq as _ <- _.
Qed.

(** *** Every step keeps the counters exact *)
Definition zero (a : nat) : Z := 0.

(** A list under construction is known to its creator only. *)
Definition fresh (w : world) : Prop :=
  ∀ tid k a, threads w !! tid = Some (TNew k a) → refs w a = 1.

Definition good (w : world) : Prop := winv zero w ∧ fresh w.

Lemma map_ref w k a : hash.flat (lhmap w) !! k = Some a → (1 ≤ map_refs w a)%nat.
Proof. intros Hk. unfold map_refs. rewrite (cnt_delete _ _ k a) by done. rewrite decide_True by done. lia. Qed.

Lemma thread_ref w tid t a :
  threads w !! tid = Some t → ref_of t = Some a → (1 ≤ thread_refs w a)%nat.
Proof. intros Ht Hr. unfold thread_refs. rewrite (cnt_delete _ _ tid t) by done. rewrite decide_True by done. lia. Qed.

Lemma thread_ref2 w tid t tid' t' a :
  threads w !! tid = Some t → ref_of t = Some a →
  threads w !! tid' = Some t' → ref_of t' = Some a → tid ≠ tid' → (2 ≤ thread_refs w a)%nat.
Proof.
  intros Ht Hr Ht' Hr' Hne. unfold thread_refs. rewrite (cnt_delete _ _ tid t) by done.
  rewrite (cnt_delete _ (delete tid (threads w)) tid' t') by (by rewrite lookup_delete_ne).
  rewrite !decide_True by done. lia.
Qed.

Lemma ref_at_Some t a : ref_at (Some t) a = if decide (ref_of t = Some a) then 1 else 0.
Proof. done. Qed.

Lemma refs_set_thread w tid t a :
  refs (set_thread tid t w) a = refs w a - ref_at (threads w !! tid) a + ref_at (Some t) a.
Proof.
  pose proof (thread_refs_set w tid t a). unfold refs.
  change (map_refs (set_thread tid t w) a) with (map_refs w a).
  change (work_refs (set_thread tid t w) a) with (work_refs w a). lia.
Qed.

Lemma refs_del_thread w tid a :
  refs (del_thread tid w) a = refs w a - ref_at (threads w !! tid) a.
Proof.
  pose proof (thread_refs_del w tid a). unfold refs.
  change (map_refs (del_thread tid w) a) with (map_refs w a).
  change (work_refs (del_thread tid w) a) with (work_refs w a). lia.
Qed.

Lemma winv_alloc w a :
  winv zero w → heap w !! a = None ∨ a ∈ pool w →
  refs w a = 0 ∧ winv (bump a 1 zero) (set_pool (pool w ∖ {[a]}) (put_list a getNew w)).
Proof.
  intros Hw Ha. assert (refs w a = 0) as Hz.
  { destruct Ha as [Ha|Ha].
    - pose proof (wi_dom _ _ Hw a Ha). unfold zero in *. lia.
    - apply (wi_pool _ _ Hw) in Ha as (l & Hl & Hr). pose proof (wi_count _ _ Hw a l Hl).
      unfold zero in *. lia. }
  split; [done|]. destruct Hw as [Hwf Hc Hp Hd Hu Hs Hr]. split; try done; simpl.
  - intros b lb Hb. change (refs (set_pool _ _) b) with (refs w b). unfold bump, zero.
    apply lookup_insert_Some in Hb as [[-> <-]|[Hne Hb]].
    + rewrite decide_True by done. simpl. lia.
    + rewrite decide_False by done. specialize (Hc b lb Hb). unfold zero in Hc. lia.
  - intros b. rewrite elem_of_difference, elem_of_singleton, Hp. split.
    + intros [(lb & Hb & Hz') Hne]. exists lb. by rewrite lookup_insert_ne.
    + intros (lb & Hb & Hz'). apply lookup_insert_Some in Hb as [[-> <-]|[Hne Hb]]; [done|]. eauto.
  - intros b [Hb Hne]%lookup_insert_None. change (refs (set_pool _ _) b) with (refs w b).
    specialize (Hd b Hb). unfold bump, zero in *. rewrite decide_False by done. lia.
Qed.

Lemma good_lookup w w' tid k a :
  good w → stopTheWorld w = false → threads w !! tid = None → room w →
  heap w !! a = None ∨ a ∈ pool w →
  getOrCreate_lookup tid k a w = Ok w' → good w'.
Proof.
  intros [Hw Hf] Hstop Ht Hroom Ha. unfold getOrCreate_lookup.
  rewrite hash.hash_Get_spec by apply Hw. cbn [mbind res_bind].
  destruct (hash.flat (lhmap w) !! Fingerprint64 k) as [b|] eqn:Hk.
  - pose proof (map_ref w _ b Hk) as Hmr. pose proof (refs_bound zero w b Hw) as Hbd.
    destruct (incr_list_spec zero w b) as (w1 & -> & Hw1 & l & Hl & ->); [done| |].
    { unfold zero. unfold refs in *. lia. }
    cbn [mbind res_bind]. intros [= <-]. split.
    + eapply winv_ext; [|apply winv_set_thread; [exact Hw1|intros ? []|done]].
      intros c. simpl. rewrite Ht. unfold bump, zero, ref_at. simpl.
      repeat case_decide; simplify_eq; lia.
    + intros tid' k' c Hc. rewrite refs_set_thread.
      change (refs (put_list b (incr l) w) c) with (refs w c). simpl in *. rewrite Ht.
      apply lookup_insert_Some in Hc as [[_ ?]|[_ Hc]]; [done|]. pose proof (Hf _ _ _ Hc) as H1.
      pose proof (thread_ref w _ _ c Hc eq_refl). unfold ref_at. simpl.
      unfold refs in *. repeat case_decide; simplify_eq/=; lia.
  - destruct (winv_alloc w a Hw Ha) as [Hz Hw1]. intros [= <-]. split.
    + eapply winv_ext; [|apply winv_set_thread; [exact Hw1| |done]].
      * intros c. simpl. rewrite Ht. unfold bump, zero, ref_at. simpl.
        repeat case_decide; simplify_eq; lia.
      * intros Hst. simpl in Hst. congruence.
    + intros tid' k' c Hc. rewrite refs_set_thread.
      change (refs (set_pool _ _) c) with (refs w c). simpl in *. rewrite Ht.
      unfold ref_at. simpl. apply lookup_insert_Some in Hc as [[_ [= -> ->]]|[_ Hc]].
      * repeat case_decide; simplify_eq/=; lia.
      * pose proof (Hf _ _ _ Hc) as H1. repeat case_decide; simplify_eq/=; lia.
Qed.

Lemma winv_set_map_same off m w :
  hash.wf m → hash.flat m = hash.flat (lhmap w) → winv off w →
  winv off (set_map m w) ∧ ∀ c, refs (set_map m w) c = refs w c.
Proof.
  intros Hwf Hm [_ Hc Hp Hd Hu Hs Hr].
  assert (∀ c, map_refs (set_map m w) c = map_refs w c) as Hmr.
  { intros c. unfold map_refs. simpl. by rewrite Hm. }
  assert (∀ c, refs (set_map m w) c = refs w c) as Hrefs.
  { intros c. unfold refs. rewrite Hmr. done. }
  split; [|done]. split; try done; simpl.
  - intros c l Hl. rewrite Hrefs. by apply Hc.
  - intros c Hl. rewrite Hrefs. by apply Hd.
  - intros c. rewrite Hmr. by apply Hu.
Qed.

Lemma winv_set_map_insert m w k a :
  hash.wf m → hash.flat (lhmap w) !! k = None → hash.flat m = <[k := a]> (hash.flat (lhmap w)) →
  map_refs w a = 0%nat → work_refs w a = 0%nat → refs w a = 1 → winv zero w →
  winv (bump a (-1) zero) (set_map m w) ∧
  ∀ c, refs (set_map m w) c = refs w c + if decide (c = a) then 1 else 0.
Proof.
  intros Hwf Hk Hm Hm0 Hw0 Hr1 [_ Hc Hp Hd Hu Hs Hr].
  assert (∀ c, map_refs (set_map m w) c = ((if decide (c = a) then 1 else 0) + map_refs w c)%nat) as Hmr.
  { intros c. unfold map_refs. simpl. rewrite Hm, cnt_insert by done. repeat case_decide; congruence || lia. }
  assert (∀ c, refs (set_map m w) c = refs w c + if decide (c = a) then 1 else 0) as Hrefs.
  { intros c. unfold refs. rewrite Hmr. change (thread_refs (set_map m w) c) with (thread_refs w c).
    change (work_refs (set_map m w) c) with (work_refs w c). case_decide; lia. }
  split; [|done]. split; try done; simpl.
  - intros c l Hl. rewrite Hrefs. specialize (Hc c l Hl). unfold bump, zero in *. case_decide; lia.
  - intros c Hl. rewrite Hrefs. specialize (Hd c Hl). unfold bump, zero in *. case_decide; lia.
  - intros c. rewrite Hmr. change (work_refs (set_map m w) c) with (work_refs w c).
    specialize (Hu c). case_decide; [subst; lia|lia].
Qed.

(** Other lists under construction are not touched by an operation on [b]. *)
Lemma fresh_ne w tid k c b :
  fresh w → threads w !! tid = Some (TNew k c) →
  (1 ≤ map_refs w b + work_refs w b)%nat ∨ (∃ tid' t, tid' ≠ tid ∧ threads w !! tid' = Some t ∧ ref_of t = Some b) →
  c ≠ b.
Proof.
  intros Hf Hc Hb ->. pose proof (Hf _ _ _ Hc) as H1.
  pose proof (thread_ref w _ _ b Hc eq_refl). unfold refs in H1.
  destruct Hb as [Hb|(tid' & t & Hne & Ht & Hr)]; [lia|].
  pose proof (thread_ref2 w tid _ tid' t b Hc eq_refl Ht Hr ltac:(congruence)). lia.
Qed.

Lemma good_put w w' tid k a :
  good w → threads w !! tid = Some (TNew k a) → getOrCreate_put tid k a w = Ok w' → good w'.
Proof.
  intros [Hw Hf] Ht. unfold getOrCreate_put. pose proof (Hf _ _ _ Ht) as H1.
  pose proof (thread_ref w _ _ a Ht eq_refl) as Hta.
  assert (map_refs w a = 0 ∧ work_refs w a = 0)%nat as [Hma Hwa] by (unfold refs in H1; lia).
  destruct (hash.PutIfMissing_spec (lhmap w) (Fingerprint64 k) a) as (m & -> & Hwf & Hm);
    [apply Hw|]. cbn [mbind res_bind].
  destruct (hash.flat (lhmap w) !! Fingerprint64 k) as [b|] eqn:Hk; simpl default.
  - pose proof (map_ref w _ b Hk) as Hmb. assert (b ≠ a) as Hba by (intros ->; lia).
    destruct (winv_set_map_same zero m w Hwf Hm Hw) as [Hw0 Hr0].
    pose proof (refs_bound zero w b Hw) as Hbd.
    destruct (incr_list_spec zero (set_map m w) b) as (w1 & -> & Hw1 & l & Hl & ->); [done| |].
    { rewrite Hr0. unfold zero, refs in *. lia. }
    cbn [mbind res_bind]. rewrite (proj2 (Nat.eqb_neq _ _)) by done.
    destruct (decr_list_spec _ _ a Hw1) as (w2 & -> & Hw2 & l2 & Heq).
    { change (refs (put_list b (incr l) (set_map m w)) a) with (refs (set_map m w) a).
      rewrite Hr0. unfold bump, zero. rewrite decide_False by congruence. lia. }
    cbn [mbind res_bind]. intros [= <-].
    assert (threads w2 = threads w) as Hth by (rewrite Heq; done).
    assert (∀ c, refs w2 c = refs w c) as Hr2.
    { intros c. rewrite Heq, <-Hr0. done. } split.
    + eapply winv_ext; [|apply winv_set_thread; [exact Hw2|by intros _ []|by rewrite Hth, Ht]].
      intros c. rewrite Hth, Ht. unfold bump, zero, ref_at. simpl. repeat case_decide; simplify_eq; lia.
    + intros tid' k' c Hc. rewrite refs_set_thread, Hth, Ht, Hr2. simpl in Hc. rewrite Hth in Hc.
      apply lookup_insert_Some in Hc as [[_ ?]|[Hne Hc]]; [done|].
      assert (c ≠ b) by (eapply fresh_ne; eauto; left; lia).
      assert (c ≠ a) by (eapply fresh_ne; eauto 10).
      specialize (Hf _ _ _ Hc). unfold ref_at. simpl. repeat case_decide; simplify_eq; lia.
  - destruct (winv_set_map_insert m w _ a Hwf Hk Hm Hma Hwa H1 Hw) as [Hw0 Hr0].
    destruct (incr_list_spec _ _ a Hw0) as (w1 & -> & Hw1 & l & Hl & ->).
    { rewrite Hr0. unfold bump, zero. rewrite !decide_True by done. lia. }
    cbn [mbind res_bind]. rewrite Nat.eqb_refl. unfold get_list. simpl heap.
    rewrite lookup_insert_eq. cbn [mbind res_bind]. intros [= <-]. split.
    + eapply winv_ext; [|apply winv_set_thread; [apply (winv_put_same _ _ a (incr l)); [exact Hw1| |done]
        |by intros _ []|simpl; congruence]].
      * intros c. simpl. rewrite Ht. unfold bump, zero, ref_at. simpl. repeat case_decide; simplify_eq; lia.
      * simpl. apply lookup_insert_eq.
    + intros tid' k' c Hc. rewrite refs_set_thread. simpl in *. rewrite Ht.
      change (refs (put_list _ _ _) c) with (refs (set_map m w) c). rewrite Hr0.
      apply lookup_insert_Some in Hc as [[_ ?]|[Hne Hc]]; [done|].
      assert (c ≠ a) by (eapply fresh_ne; eauto 10).
      specialize (Hf _ _ _ Hc). unfold ref_at. simpl. repeat case_decide; simplify_eq; lia.
Qed.

(** A goroutine that keeps working on the list it holds. *)
Lemma good_same w tid t t' a :
  good w → threads w !! tid = Some t → ref_of t = Some a → ¬ is_TNew t →
  ref_of t' = Some a → ¬ is_TNew t' → good (set_thread tid t' w).
Proof.
  intros [Hw Hf] Ht Hr Hnew Hr' Hnew'. split.
  - eapply winv_ext; [|apply winv_set_thread; [exact Hw|by intros _|congruence]].
    intros c. rewrite Ht, !ref_at_Some, Hr, Hr'. lia.
  - intros tid' k c Hc. rewrite refs_set_thread, Ht, !ref_at_Some, Hr, Hr'. simpl in Hc.
    apply lookup_insert_Some in Hc as [[_ ->]|[_ Hc]]; [by destruct Hnew'|].
    specialize (Hf _ _ _ Hc). lia.
Qed.

Lemma good_refs w w' :
  good w → winv zero w' → threads w' = threads w → (∀ c, refs w' c = refs w c) → good w'.
Proof. intros [Hw Hf] Hw' Ht Hr. split; [done|]. intros tid k c. rewrite Ht, Hr. apply Hf. Qed.

Lemma good_put_same w a l l' :
  good w → heap w !! a = Some l → refcount l' = refcount l → good (put_list a l' w).
Proof.
  intros Hg Hl Hr. apply (good_refs w); [done| |done|done].
  eapply winv_put_same; [apply Hg|done..].
Qed.

Lemma good_chan w ch : good w → good (set_chan ch w).
Proof. intros [[? ? ? ? ? ? ?] Hf]. by split. Qed.

Lemma good_release w w' tid a :
  good w → threads w !! tid = Some (THold a) → decr_list a (del_thread tid w) = Ok w' → good w'.
Proof.
  intros [Hw Hf] Ht. pose proof (thread_ref w _ _ a Ht eq_refl) as Hta.
  pose proof (refs_bound _ _ a Hw) as Hbd.
  destruct (decr_list_spec _ _ a (winv_del_thread _ _ tid Hw)) as (w1 & -> & Hw1 & l & Heq).
  { rewrite refs_del_thread, Ht. unfold zero, refs in *. lia. }
  intros [= <-]. split.
  - eapply winv_ext; [|exact Hw1]. intros c. rewrite Ht. unfold bump, zero, ref_at. simpl.
    repeat case_decide; simplify_eq; lia.
  - intros tid' k c Hc. rewrite Heq in *. simpl in Hc. apply lookup_delete_Some in Hc as [Hne Hc].
    change (refs (set_pool _ _) c) with (refs (del_thread tid w) c). rewrite refs_del_thread, Ht.
    assert (c ≠ a) by (eapply fresh_ne; eauto 10).
    specialize (Hf _ _ _ Hc). unfold ref_at. simpl. case_decide; simplify_eq; lia.
Qed.

Lemma good_apply w w' tid a t op now b :
  good w → threads w !! tid = Some (TChecked a t op) →
  apply_mutation now a t op w = Ok (w', b) → good (set_thread tid (THold a) w').
Proof.
  intros Hg Ht. unfold apply_mutation, get_list.
  destruct (heap w !! a) as [l|] eqn:Hl; [|done]. cbn [mbind res_bind].
  destruct (AddMutation_body _ _ _ _ _ _) as [[[[l' t'] ch] h]| |] eqn:Hb; [|done..].
  cbn [mbind res_bind]. intros [= <- <-]. apply AddMutation_body_refcount in Hb.
  apply (good_same _ _ (TChecked a t op) _ a); try by simpl; auto.
  apply good_chan. by eapply good_put_same.
Qed.

Lemma winv_merge off w w' a now :
  winv off w → mergeAndUpdate now a w = Ok w' →
  winv off w' ∧ threads w' = threads w ∧ ∀ c, refs w' c = refs w c.
Proof.
  intros Hw. unfold mergeAndUpdate, get_list.
  destruct (heap w !! a) as [l|] eqn:Hl; [|done]. cbn [mbind res_bind].
  destruct (CommitIfDirty _ _ _) as [[[s l'] b]| |] eqn:Hb; [|done..].
  cbn [mbind res_bind]. intros [= <-]. apply CommitIfDirty_refcount in Hb. split; [|done].
  destruct (winv_put_same off w a l l' Hw Hl Hb). by split.
Qed.

Lemma good_stop w b :
  good w → (b = true → ∀ tid t, threads w !! tid = Some t → ¬ is_TNew t) → good (set_stop b w).
Proof. intros [[? ? ? ? ? ? ?] Hf] Hb. split; [|done]. split; try done; simpl. eauto. Qed.

Lemma collect_all kvs (acc : list nat) :
  fold_left (λ acc (kv : Z * nat), acc ++ [kv.2]) kvs acc = acc ++ kvs.*2.
Proof.
  revert acc. induction kvs as [|kv kvs IH]; intros acc; simpl; [by rewrite app_nil_r|].
  rewrite IH. by rewrite <-app_assoc.
Qed.

Lemma good_collect w : good w → good (MergeLists_collect w).
Proof.
  intros Hg. unfold MergeLists_collect.
  destruct (hash.EachWithDelete_spec (λ acc _ a, acc ++ [a]) (lhmap w) [])
    as (m & kvs & -> & Hp & Hwf & Hm); [apply Hg|]. rewrite collect_all. simpl.
  set (w' := set_work _ _).
  assert (∀ c, (map_refs w' c = 0 ∧ work_refs w' c = map_refs w c + work_refs w c)%nat) as Hr.
  { intros c. unfold map_refs, work_refs, w'. simpl. rewrite Hm, cnt_empty, cnt_list. split; [done|].
    rewrite filter_app, length_app, (Permutation_length (filter_Permutation _ _ _ (fmap_Permutation snd _ _ Hp))).
    lia. }
  assert (∀ c, refs w' c = refs w c) as Hrefs.
  { intros c. destruct (Hr c) as [Hr1 Hr2]. unfold refs. rewrite Hr1, Hr2.
    change (thread_refs w' c) with (thread_refs w c). lia. }
  apply (good_refs w); [done| |done|done]. destruct Hg as [[_ Hc Hpl Hd Hu Hs Hro] Hf].
  split; try done; simpl.
  - intros c l Hl. rewrite Hrefs. by apply Hc.
  - intros c Hl. rewrite Hrefs. by apply Hd.
  - intros c. destruct (Hr c) as [-> ->]. specialize (Hu c). lia.
Qed.

Lemma work_refs_split w l1 a l2 c :
  work w = l1 ++ a :: l2 →
  work_refs w c = ((if decide (c = a) then 1 else 0) + work_refs (set_work (l1 ++ l2) w) c)%nat.
Proof.
  intros Hwork. unfold work_refs. simpl. rewrite Hwork, !filter_app, !length_app, filter_cons.
  repeat case_decide; simplify_eq; simpl; lia.
Qed.

Lemma winv_take w l1 a l2 :
  work w = l1 ++ a :: l2 → winv zero w →
  winv (bump a 1 zero) (set_work (l1 ++ l2) w) ∧
  ∀ c, refs (set_work (l1 ++ l2) w) c = refs w c - if decide (c = a) then 1 else 0.
Proof.
  intros Hwork [Hwf Hc Hpl Hd Hu Hs Hro]. set (w' := set_work _ _).
  assert (∀ c, refs w' c = refs w c - if decide (c = a) then 1 else 0) as Hrefs.
  { intros c. unfold refs. rewrite (work_refs_split w _ _ _ c Hwork). fold w'.
    change (map_refs w' c) with (map_refs w c).
    change (thread_refs w' c) with (thread_refs w c). case_decide; lia. }
  split; [|done]. split; try done; simpl.
  - intros c l Hl. rewrite Hrefs. specialize (Hc c l Hl). unfold bump, zero in *. case_decide; lia.
  - intros c Hl. rewrite Hrefs. specialize (Hd c Hl). unfold bump, zero in *. case_decide; lia.
  - intros c. specialize (Hu c). rewrite (work_refs_split w _ _ _ c Hwork) in Hu.
    change (map_refs w' c) with (map_refs w c). fold w' in Hu. lia.
Qed.

Lemma good_work w w' l1 a l2 now :
  good w → work w = l1 ++ a :: l2 →
  MergeLists_work now a (set_work (l1 ++ l2) w) = Ok w' → good w'.
Proof.
  intros [Hw Hf] Hwork. destruct (winv_take _ _ _ _ Hwork Hw) as [Hw0 Hr0].
  pose proof (work_refs_split w _ _ _ a Hwork) as Hwr. rewrite decide_True in Hwr by done.
  pose proof (refs_bound _ _ a Hw) as Hbd.
  unfold MergeLists_work, get_list. revert Hw0 Hr0.
  assert (threads (set_work (l1 ++ l2) w) = threads w) as Ht0 by done. revert Ht0.
  generalize (set_work (l1 ++ l2) w) as w0. intros w0 Ht0 Hw0 Hr0.
  destruct (heap w0 !! a) as [l|] eqn:Hl; [|done]. cbn [mbind res_bind].
  destruct (mergeAndUpdate _ _ _) as [w1| |] eqn:Hm; [|done..]. cbn [mbind res_bind].
  apply (winv_merge (bump a 1 zero)) in Hm as (Hw1 & Ht1 & Hr1); [|by eapply winv_put_same].
  destruct (decr_list_spec _ _ a Hw1) as (w2 & -> & Hw2 & l' & Heq).
  { rewrite Hr1. change (refs (put_list _ _ w0) a) with (refs w0 a). rewrite Hr0.
    unfold bump, zero, refs in *. rewrite !decide_True by done. lia. }
  intros [= <-]. split.
  - eapply winv_ext; [|exact Hw2]. intros c. unfold bump, zero. case_decide; lia.
  - intros tid k c Hc. rewrite Heq in *. simpl in Hc. rewrite Ht1 in Hc. simpl in Hc. rewrite Ht0 in Hc.
    change (refs (set_pool _ _) c) with (refs w1 c). rewrite Hr1.
    change (refs (put_list _ _ w0) c) with (refs w0 c). rewrite Hr0.
    assert (c ≠ a) by (eapply fresh_ne; eauto; lia).
    rewrite decide_False by done. specialize (Hf _ _ _ Hc). lia.
Qed.

(** The background merge holds no reference. *)
Lemma good_gentle_get w tid a :
  good w → threads w !! tid = None → room w → good (set_thread tid (TGentle a) w).
Proof.
  intros [Hw Hf] Ht Hroom. split.
  - eapply winv_ext; [|apply winv_set_thread; [exact Hw|by intros _ []|done]].
    intros c. rewrite Ht. unfold zero, ref_at. simpl. repeat case_decide; done || lia.
  - intros tid' k c Hc. rewrite refs_set_thread, Ht. simpl in Hc.
    apply lookup_insert_Some in Hc as [[_ ?]|[_ Hc]]; [done|].
    specialize (Hf _ _ _ Hc). unfold ref_at. simpl. repeat case_decide; done || lia.
Qed.

Lemma good_gentle_merge w w' tid a now :
  good w → threads w !! tid = Some (TGentle a) →
  mergeAndUpdate now a (del_thread tid w) = Ok w' → good w'.
Proof.
  intros [Hw Hf] Ht Hm.
  apply (winv_merge zero) in Hm as (Hw' & Ht' & Hr').
  - apply (good_refs (del_thread tid w)); [|done..]. split.
    + eapply winv_ext; [|apply winv_del_thread, Hw]. intros c. rewrite Ht. done.
    + intros tid' k c Hc. rewrite refs_del_thread, Ht. simpl in Hc. apply lookup_delete_Some in Hc as [_ Hc].
      specialize (Hf _ _ _ Hc). unfold ref_at. simpl. lia.
  - eapply winv_ext; [|apply winv_del_thread, Hw]. intros c. rewrite Ht. done.
Qed.

Lemma step_good w w' : step w w' → good w → good w'.
Proof.
  destruct 1; intros Hg.
  - by eapply good_lookup.
  - by eapply good_put.
  - by eapply good_release.
  - by eapply (good_same _ _ (THold a) _ a); eauto.
  - by eapply good_apply.
  - by eapply (good_same _ _ (TChecked a t op) _ a); eauto.
  - by apply good_stop.
  - by apply good_collect.
  - by eapply good_work.
  - by apply good_stop.
  - by apply good_gentle_get.
  - by eapply good_gentle_merge.
Qed.

Lemma good_Init s n : (0 < n)%nat → good (Init s n).
Proof.
  intros Hn. split; [|done]. split; simpl; try done.
  - by apply hash.wf_new.
  - intros a. split; [set_solver|]. by intros (l & ? & _).
  - intros a _. unfold refs, map_refs, thread_refs, zero. simpl. by rewrite hash.flat_new, !cnt_empty.
  - intros a. unfold map_refs, work_refs. simpl. rewrite hash.flat_new, cnt_empty. simpl. lia.
Qed.

Lemma reachable_good s n w : (0 < n)%nat → reachable s n w → good w.
Proof.
  intros Hn Hr. unfold reachable in Hr. pose proof (good_Init s n Hn) as Hg.
  induction Hr; eauto using step_good.
Qed.

(** C18: Reference counting is exact under every interleaving of goroutines,
    background merges and evictions: a list's counter is the number of its
    holders (the map, the goroutines that got it, the eviction queue). So a
    holder's list is never in the pool of recycled lists, its release never
    trips the negative-counter assertion, and a list nobody holds is recycled. *)
Theorem refcount_exact s n w :
  (0 < n)%nat → reachable s n w →
  (∀ a l, heap w !! a = Some l → refcount l = refs w a) ∧
  (∀ tid t a, threads w !! tid = Some t → ref_of t = Some a →
    a ∉ pool w ∧ (∃ l, heap w !! a = Some l ∧ 0 < refcount l) ∧ ∃ w', decr_list a w = Ok w') ∧
  (∀ k a, hash.flat (lhmap w) !! k = Some a → a ∉ pool w ∧ is_Some (heap w !! a)) ∧
  (∀ a l, heap w !! a = Some l → refs w a = 0 → a ∈ pool w).
Proof.
  intros Hn Hr. destruct (reachable_good s n w Hn Hr) as [Hw Hf].
  assert (∀ a, 0 < refs w a → a ∉ pool w ∧ ∃ l, heap w !! a = Some l ∧ 0 < refcount l) as Hpos.
  { intros a Ha. split.
    - intros (l & Hl & Hz)%(wi_pool _ _ Hw). pose proof (wi_count _ _ Hw a l Hl). unfold zero in *. lia.
    - destruct (heap w !! a) as [l|] eqn:Hl.
      + exists l. pose proof (wi_count _ _ Hw a l Hl). unfold zero in *. split; [done|lia].
      + pose proof (wi_dom _ _ Hw a Hl). unfold zero in *. lia. }
  split_and!.
  - intros a l Hl. rewrite (wi_count _ _ Hw a l Hl). unfold zero. lia.
  - intros tid t a Ht Ha. pose proof (thread_ref w tid t a Ht Ha) as Hta.
    destruct (Hpos a) as [Hp Hl]; [unfold refs; lia|]. split; [done|]. split; [done|].
    pose proof (refs_bound _ _ a Hw).
    destruct (decr_list_spec zero w a Hw) as (w' & Hd & _); [unfold zero, refs in *; lia|eauto].
  - intros k a Hk. pose proof (map_ref w k a Hk).
    destruct (Hpos a) as [Hp (l & Hl & _)]; [unfold refs; lia|eauto].
  - intros a l Hl Hz. apply (wi_pool _ _ Hw). exists l. split; [done|].
    pose proof (wi_count _ _ Hw a l Hl). unfold zero in *. lia.
Qed.
End lists.

(** *** Two schedules *)
Section schedules.
Let fp (k : list byte) : Z := 7.
Let ok (d : world (St := memstore)) (r : res world) : world :=
  match r with Ok w => w | _ => d end.

Definition sched_0 : world := Init (∅ : memstore) 1.
Definition sched_1 : world := ok sched_0 (getOrCreate_lookup fp 1 ex_key 0 sched_0).
(** One goroutine has the list of [ex_key]. *)
Definition sched_2 : world := ok sched_0 (getOrCreate_put fp fp 1 ex_key 0 sched_1).

Lemma sched_2_reachable : reachable fp fp (∅ : memstore) 1 sched_2.
Proof.
  apply (rtc_l _ _ sched_1).
  - apply (step_lookup _ _ _ _ 1 ex_key 0); [done|done|done|by left|vm_compute; reflexivity].
  - apply rtc_once, (step_put _ _ _ _ 1 ex_key 0); vm_compute; reflexivity.
Qed.

(** The goroutine is about to add an edge; then all lists are evicted. *)
Definition sched_3 : world := set_thread 1 (TChecked 0 ex_edge Set_) sched_2.
Definition sched_4 : world := set_stop true sched_3.
Definition sched_5 : world := MergeLists_collect sched_4.
Definition sched_6 : world := ok sched_0 (MergeLists_work 100 0 (set_work [] sched_5)).
Definition sched_7 : world := set_stop false sched_6.

(** A background merge has the list while its last holder leaves. *)
Definition sched_b1 : world := set_thread 2 (TGentle 0) sched_2.
Definition sched_b2 : world := ok sched_0 (decr_list 0 (del_thread 1 sched_b1)).
Definition sched_b3 : world := MergeLists_collect (set_stop true sched_b2).
Definition sched_b4 : world := ok sched_0 (MergeLists_work 100 0 (set_work [] sched_b3)).

Lemma sched_7_reachable : reachable fp fp (∅ : memstore) 1 sched_7.
Proof.
  unfold reachable. transitivity sched_2; [apply sched_2_reachable|].
  apply (rtc_l _ _ sched_3).
  { apply (step_check _ _ _ _ 0 (init fp fp ex_key (incr getNew))); by vm_compute. }
  apply (rtc_l _ _ sched_4).
  { apply step_stop; [done|]. intros tid t Ht. assert (threads sched_3 = {[1%nat := TChecked 0 ex_edge Set_]}) as E by (vm_compute; reflexivity).
    rewrite E in Ht. apply lookup_singleton_Some in Ht as [_ <-]. by intros []. }
  apply (rtc_l _ _ sched_5); [by apply step_collect|].
  apply (rtc_l _ _ sched_6); [apply (step_work _ _ _ _ 0 [] [] 100); by vm_compute|].
  apply rtc_once, step_resume; by vm_compute.
Qed.

(** C30: [AddMutation] tests [deleteMe] before it takes the list's lock. An
    eviction that runs in between loses the edge: the mutation is acknowledged
    as applied, and once the goroutine releases the list the edge is neither in
    the store nor in a list that any lookup or merge can reach. *)
Theorem acknowledged_mutation_lost :
  ∃ w w1 w2 : world,
    reachable fp fp (∅ : memstore) 1 w ∧ threads w !! 1%nat = Some (TChecked 0 ex_edge Set_) ∧
    apply_mutation 200 0 ex_edge Set_ w = Ok (w1, true) ∧
    step fp fp (set_thread 1 (THold 0) w1) w2 ∧
    threads w2 = ∅ ∧ work w2 = [] ∧ hash.flat (lhmap w2) = ∅ ∧ store w2 = ∅.
Proof.
  exists sched_7.
  assert (∃ w1, apply_mutation 200 0 ex_edge Set_ sched_7 = Ok (w1, true) ∧
    (decr_list 0 (del_thread 1 (set_thread 1 (THold 0) w1))) = Ok (ok sched_0 (decr_list 0 (del_thread 1 (set_thread 1 (THold 0) w1))))
    ∧ let w2 := ok sched_0 (decr_list 0 (del_thread 1 (set_thread 1 (THold 0) w1))) in
      threads w2 = ∅ ∧ work w2 = [] ∧ hash.flat (lhmap w2) = ∅ ∧ store w2 = ∅) as (w1 & Ha & Hd & Hw2).
  { destruct (apply_mutation 200 0 ex_edge Set_ sched_7) as [[w1 b]| |] eqn:Ha; vm_compute in Ha; [|done..].
    exists w1. injection Ha as <- <-. split; [done|]. split_and!; by vm_compute. }
  exists w1. eexists. split; [apply sched_7_reachable|]. split; [by vm_compute|]. split; [done|].
  split; [|exact Hw2]. eapply (step_release _ _ _ _ 1 0); [|exact Hd]. apply lookup_insert_eq.
Qed.

(** The background merge takes no reference on the list it reads from the
    map: an eviction can hand the list to the pool of recycled lists while the
    merge is still going to commit it. *)
Theorem merge_holds_no_reference :
  ∃ w : world, reachable fp fp (∅ : memstore) 1 w ∧
    threads w !! 2%nat = Some (TGentle 0) ∧ (0%nat ∈ pool w).
Proof.
  exists sched_b4. split; [|split; [by vm_compute|by_decide]].
  unfold reachable. transitivity sched_2; [apply sched_2_reachable|].
  apply (rtc_l _ _ sched_b1); [by apply (step_gentle_get _ _ _ _ 7); vm_compute|].
  apply (rtc_l _ _ sched_b2); [by apply (step_release _ _ _ _ 1 0); vm_compute|].
  apply (rtc_l _ _ (set_stop true sched_b2)).
  { apply step_stop; [done|]. intros tid t Ht. assert (threads sched_b2 = {[2%nat := TGentle 0]}) as E by (vm_compute; reflexivity).
    rewrite E in Ht. apply lookup_singleton_Some in Ht as [_ <-]. by intros []. }
  apply (rtc_l _ _ sched_b3); [by apply step_collect|].
  apply rtc_once, (step_work _ _ _ _ 0 [] [] 100); by vm_compute.
Qed.
End schedules.

Lemma refcount_exact_witness :
  refcount (init (λ _, 7) (λ _, 7) ex_key (incr getNew)) = refs sched_2 0.
Proof.
  apply (proj1 (refcount_exact (λ _, 7) (λ _, 7) ∅ 1 sched_2 ltac:(lia) sched_2_reachable)).
  vm_compute. reflexivity.
Defined.
End lists.
