(* ===== verification/Strconv.v ===== *)
(** What the program uses of Go's [strconv], [strings] and [unicode]: reading
    integers, booleans and floating-point numbers, and trimming white space.
    Errors are the library's [ErrSyntax] and [ErrRange]. *)
From S2P Require Import Prelude Bytes.
From stdpp Require Import options.
#[local] Open Scope Z_scope.

Module strconv.
Definition ErrSyntax : string := "invalid syntax".
Definition ErrRange : string := "value out of range".

(** The value of a digit or letter. *)
Definition digit_val (b : byte) : option Z :=
  let c := byte_to_Z b in
  if (48 <=? c) && (c <=? 57) then Some (c - 48)
  else if (97 <=? c) && (c <=? 122) then Some (c - 97 + 10)
  else if (65 <=? c) && (c <=? 90) then Some (c - 65 + 10)
  else None.

Fixpoint digits_loop (base maxVal n : Z) (s : list byte) : res Z :=
  match s with
  | [] => Ok n
  | b :: s =>
      match digit_val b with
      | Some v =>
          if base <=? v then Err ErrSyntax
          else if maxVal <? n * base + v then Err ErrRange
          else digits_loop base maxVal (n * base + v) s
      | None => Err ErrSyntax
      end
  end.

(** [ParseUint(s, base, bitSize)] for base 0 (a prefix decides) or 10. *)
Definition ParseUint (s : list byte) (base bitSize : Z) : res Z :=
  let maxVal := 2 ^ bitSize - 1 in
  match s with
  | [] => Err ErrSyntax
  | b :: t =>
      if base =? 0 then
        if bool_decide (b = x30) then
          match t with
          | x :: u =>
              if bool_decide (x = x78) || bool_decide (x = x58) then
                match u with [] => Err ErrSyntax | _ => digits_loop 16 maxVal 0 u end
              else digits_loop 8 maxVal 0 t
          | [] => digits_loop 8 maxVal 0 t
          end
        else digits_loop 10 maxVal 0 s
      else digits_loop base maxVal 0 s
  end.

(** [ParseInt]: a sign, then [ParseUint] and the range test. *)
Definition ParseInt (s : list byte) (base bitSize : Z) : res Z :=
  match s with
  | [] => Err ErrSyntax
  | b :: t =>
      let neg := bool_decide (b = x2d) in
      let s := if bool_decide (b = x2b) || neg then t else s in
      un ← ParseUint s base bitSize;
      let cutoff := 2 ^ (bitSize - 1) in
      if negb neg && (cutoff <=? un) then Err ErrRange
      else if neg && (cutoff <? un) then Err ErrRange
      else Ok (if neg then - un else un)
  end.

Definition ParseBool (s : list byte) : res bool :=
  if bool_decide (s ∈ bs <$> ["1"; "t"; "T"; "true"; "TRUE"; "True"]) then Ok true
  else if bool_decide (s ∈ bs <$> ["0"; "f"; "F"; "false"; "FALSE"; "False"]) then Ok false
  else Err ErrSyntax.

(** *** Floating-point syntax *)
Definition is_digit (b : byte) : bool := (48 <=? byte_to_Z b) && (byte_to_Z b <=? 57).

Definition lower (b : byte) : byte :=
  let c := byte_to_Z b in if (65 <=? c) && (c <=? 90) then byte_of_Z (c + 32) else b.

(** [special]: infinities and NaN in any case. *)
Definition is_special (s : list byte) : bool :=
  let unsigned := match s with x2b :: t | x2d :: t => t | _ => s end in
  bool_decide (lower <$> unsigned ∈ [bs "inf"; bs "infinity"]) || bool_decide (lower <$> s = bs "nan").

(** The digits of a decimal: mantissa, whether a digit was seen, and the number
    of digits after the point once the point was seen. *)
Fixpoint mantissa (m : Z) (sawdigits : bool) (frac : option Z) (s : list byte) :
    Z * bool * option Z * list byte :=
  match s with
  | b :: t =>
      if is_digit b
      then mantissa (m * 10 + (byte_to_Z b - 48)) true ((λ k, k + 1) <$> frac) t
      else match b, frac with
           | x2e, None => mantissa m sawdigits (Some 0) t
           | _, _ => (m, sawdigits, frac, s)
           end
  | [] => (m, sawdigits, frac, [])
  end.

(** The exponent's digits; the library stops accumulating at 10000. *)
Fixpoint exponent (e : Z) (s : list byte) : option Z :=
  match s with
  | [] => Some e
  | b :: t =>
      if is_digit b then exponent (if e <? 10000 then e * 10 + (byte_to_Z b - 48) else e) t
      else None
  end.

(** A decimal number as mantissa and power of ten. *)
Definition read_decimal (s : list byte) : option (Z * Z) :=
  let s := match s with x2b :: t | x2d :: t => t | _ => s end in
  let '(m, sawdigits, frac, rest) := mantissa 0 false None s in
  if negb sawdigits then None
  else
    let frac := default 0 frac in
    match rest with
    | [] => Some (m, - frac)
    | b :: t =>
        if bool_decide (b = x65) || bool_decide (b = x45) then
          let '(neg, t) := match t with x2d :: u => (true, u) | x2b :: u => (false, u) | _ => (false, t) end in
          match t with
          | [] => None
          | _ => (λ e, (m, (if neg : bool then - e else e) - frac)) <$> exponent 0 t
          end
        else None
    end.

(** A magnitude that rounds to at least 2^1024 is out of range. *)
Definition float_overflows (m e : Z) : bool :=
  let limit := 2 ^ 1024 - 2 ^ 970 in
  if m =? 0 then false
  else if 0 <=? e then if 400 <? e then true else limit <=? m * 10 ^ e
  else if 400 <? - e - Z.log2 m then false else limit * 10 ^ (- e) <=? m.

(** Whether [ParseFloat(s, 64)] succeeds. *)
Definition ParseFloat_err (s : list byte) : res unit :=
  if is_special s then Ok tt
  else match read_decimal s with
       | None => Err ErrSyntax
       | Some (m, e) => if float_overflows m e then Err ErrRange else Ok tt
       end.

(** *** Integers in decimal *)
Definition digit (z : Z) : byte := byte_of_Z (48 + z).

Fixpoint digits_rev (fuel : nat) (n : Z) : list byte :=
  match fuel with
  | O => []
  | S fuel => if n <? 10 then [digit n] else digit (n mod 10) :: digits_rev fuel (n / 10)
  end.

(** The decimal digits of [n >= 0]. *)
Definition digits_of (n : Z) : list byte := rev (digits_rev (S (Z.to_nat (Z.log2 n))) n).

(** [FormatInt(i, 10)]. *)
Definition FormatInt (i : Z) : list byte := if i <? 0 then x2d :: digits_of (- i) else digits_of i.

(** *** Quoting *)
(** [strconv.IsPrint]: exact in Latin-1, given by a table beyond it. *)
Definition IsPrint (table : Z → bool) (r : Z) : bool :=
  if r <? 0x100
  then ((0x20 <=? r) && (r <=? 0x7e)) || ((0xa1 <=? r) && (r <=? 0xff) && negb (r =? 0xad))
  else table r.

Definition hex_digit (d : Z) : byte := if d <? 10 then byte_of_Z (48 + d) else byte_of_Z (87 + d).

(** The [n] lowest hexadecimal digits. *)
Fixpoint hex_fixed (n : nat) (r : Z) : list byte :=
  match n with
  | O => []
  | S n => hex_digit (Z.land (Z.shiftr r (4 * Z.of_nat n)) 15) :: hex_fixed n r
  end.

Definition quote_rune (table : Z → bool) (r : Z) : list byte :=
  if (r =? 34) || (r =? 92) then [x5c; byte_of_Z r]
  else if IsPrint table r then EncodeRune r
  else if r =? 7 then bs "\a"
  else if r =? 8 then bs "\b"
  else if r =? 12 then bs "\f"
  else if r =? 10 then bs "\n"
  else if r =? 13 then bs "\r"
  else if r =? 9 then bs "\t"
  else if r =? 11 then bs "\v"
  else if r <? 32 then bs "\x" ++ hex_fixed 2 r
  else if r <? 0x10000 then bs "\u" ++ hex_fixed 4 r
  else bs "\U" ++ hex_fixed 8 r.

Fixpoint quote_loop (fuel : nat) (table : Z → bool) (s : list byte) : list byte :=
  match fuel, s with
  | S fuel, b :: _ =>
      let '(r, w) := DecodeRune s in
      (if (w =? 1)%nat && (r =? RuneError) then bs "\x" ++ hex_fixed 2 (byte_to_Z b) else quote_rune table r)
        ++ quote_loop fuel table (drop w s)
  | _, _ => []
  end.

(** [strconv.Quote], the verb [%q]. *)
Definition Quote (table : Z → bool) (s : list byte) : list byte := x22 :: quote_loop (length s) table s ++ [x22].

(** Printable ASCII without quote and backslash is quoted as it is. *)
Definition plain (b : byte) : Prop := 0x20 ≤ byte_to_Z b ≤ 0x7e ∧ b ≠ x22 ∧ b ≠ x5c.

(** *** White space *)
(** [unicode.IsSpace]. *)
Definition IsSpace (r : Z) : bool :=
  ((9 <=? r) && (r <=? 13)) || (r =? 0x20) || (r =? 0x85) || (r =? 0xA0) || (r =? 0x1680)
  || ((0x2000 <=? r) && (r <=? 0x200a)) || (r =? 0x2028) || (r =? 0x2029) || (r =? 0x202f)
  || (r =? 0x205f) || (r =? 0x3000).

Fixpoint trim_left (fuel : nat) (s : list byte) : list byte :=
  match fuel, s with
  | S fuel, _ :: _ => let '(r, w) := DecodeRune s in if IsSpace r then trim_left fuel (drop w s) else s
  | _, _ => s
  end.

(** [utf8.RuneStart], and the search backwards from the last byte, at most four
    bytes from the end. *)
Definition RuneStart (b : byte) : bool := negb (Z.land (byte_to_Z b) 0xC0 =? 0x80).

Fixpoint last_start (n : nat) (s : list byte) (start : nat) : nat :=
  match n with
  | O => start
  | S n =>
      match start with
      | O => O
      | S p => if default true (RuneStart <$> s !! p) then p else last_start n s p
      end
  end.

(** [utf8.DecodeLastRune]. *)
Definition DecodeLastRune (s : list byte) : Z * nat :=
  match last s with
  | None => (RuneError, 0%nat)
  | Some b =>
      if byte_to_Z b <? 0x80 then (byte_to_Z b, 1%nat)
      else
        let start := last_start 3 s (length s - 1) in
        let '(r, w) := DecodeRune (drop start s) in
        if (start + w =? length s)%nat then (r, w) else (RuneError, 1%nat)
  end.

Fixpoint trim_right (fuel : nat) (s : list byte) : list byte :=
  match fuel, s with
  | S fuel, _ :: _ =>
      let '(r, w) := DecodeLastRune s in
      if IsSpace r then trim_right fuel (take (length s - w) s) else s
  | _, _ => s
  end.

(** [strings.TrimSpace]. *)
Definition TrimSpace (s : list byte) : list byte :=
  let s := trim_left (length s) s in trim_right (length s) s.

(** *** Decimal digits *)
Definition dval (acc : Z) (ds : list byte) : Z := fold_left (λ a b, a * 10 + (byte_to_Z b - 48)) ds acc.
Definition all_digits (ds : list byte) : Prop := Forall (λ b, is_digit b = true) ds.

Lemma digit_Z d : 0 ≤ d < 10 → byte_to_Z (digit d) = 48 + d.
Proof. intros Hd. unfold digit. rewrite byte_to_of_Z, Z.mod_small; lia. Qed.

Lemma digit_is_digit d : 0 ≤ d < 10 → is_digit (digit d) = true.
Proof. intros Hd. unfold is_digit. rewrite digit_Z by done. rewrite !(proj2 (Z.leb_le _ _)) by lia. done. Qed.

Lemma dval_app acc ds ds' : dval acc (ds ++ ds') = dval (dval acc ds) ds'.
Proof. apply fold_left_app. Qed.

Lemma digits_rev_spec fuel n :
  (0 < fuel)%nat → 0 ≤ n < 10 ^ Z.of_nat fuel →
  all_digits (digits_rev fuel n) ∧ dval 0 (rev (digits_rev fuel n)) = n ∧ digits_rev fuel n ≠ [].
Proof.
  revert n. induction fuel as [|fuel IH]; intros n Hf Hn; [lia|]. cbn [digits_rev].
  destruct (Z.ltb_spec n 10) as [Hlt|Hge].
  - split_and!; [|simpl; rewrite digit_Z; lia|done]. constructor; [apply digit_is_digit; lia|constructor].
  - pose proof (Z.mod_pos_bound n 10 ltac:(lia)). pose proof (Z_div_mod_eq_full n 10).
    rewrite Nat2Z.inj_succ, Z.pow_succ_r in Hn by lia.
    destruct (IH (n / 10)) as (H1 & H2 & H3).
    + destruct fuel; [simpl in Hn; lia|lia].
    + split; [apply Z.div_pos; lia|apply Z.div_lt_upper_bound; lia].
    + split_and!; [|simpl; rewrite dval_app, H2; simpl; rewrite digit_Z; lia|done].
      constructor; [apply digit_is_digit; lia|done].
Qed.

Lemma digits_of_spec n :
  0 ≤ n → all_digits (digits_of n) ∧ dval 0 (digits_of n) = n ∧ digits_of n ≠ [].
Proof.
  intros Hn. unfold digits_of. destruct (digits_rev_spec (S (Z.to_nat (Z.log2 n))) n) as (H1 & H2 & H3).
  - lia.
  - split; [done|]. pose proof (Z.log2_nonneg n). rewrite Nat2Z.inj_succ, Z2Nat.id by done.
    destruct (decide (n = 0)) as [->|]; [done|].
    apply (Z.lt_le_trans _ (2 ^ Z.succ (Z.log2 n))); [apply Z.log2_spec; lia|].
    apply Z.pow_le_mono_l. lia.
  - split_and!; [by apply Forall_rev|done|]. intros Hr. apply (f_equal (@rev _)) in Hr. by rewrite rev_involutive in Hr.
Qed.

Lemma digit_val_digit b : is_digit b = true → digit_val b = Some (byte_to_Z b - 48) ∧ 0 ≤ byte_to_Z b - 48 < 10.
Proof.
  unfold is_digit, digit_val. intros Hb. rewrite Hb. apply andb_true_iff in Hb as [H1 H2].
  apply Z.leb_le in H1, H2. split; [done|lia].
Qed.

Lemma dval_ge acc ds : all_digits ds → 0 ≤ acc → acc ≤ dval acc ds.
Proof.
  intros Hds. revert acc. induction Hds as [|b ds Hb Hds IH]; intros acc Hacc; simpl; [done|].
  apply digit_val_digit in Hb as [_ Hb]. etransitivity; [|apply IH; lia]. lia.
Qed.

Lemma digits_loop_dval maxVal acc ds :
  all_digits ds → 0 ≤ acc → dval acc ds ≤ maxVal → digits_loop 10 maxVal acc ds = Ok (dval acc ds).
Proof.
  intros Hds. revert acc. induction Hds as [|b ds Hb Hds IH]; intros acc Hacc Hmax; simpl; [done|].
  apply digit_val_digit in Hb as [-> Hb]. rewrite (proj2 (Z.leb_gt _ _)) by lia.
  simpl in Hmax. pose proof (dval_ge (acc * 10 + (byte_to_Z b - 48)) ds Hds ltac:(lia)) as Hge.
  change (fold_left _ ds _) with (dval (acc * 10 + (byte_to_Z b - 48)) ds) in *.
  rewrite (proj2 (Z.ltb_ge _ _)) by lia. apply IH; [lia|done].
Qed.

Lemma ParseUint_digits ds bits :
  all_digits ds → ds ≠ [] → dval 0 ds ≤ 2 ^ bits - 1 → ParseUint ds 10 bits = Ok (dval 0 ds).
Proof.
  intros Hds Hne Hmax. unfold ParseUint. destruct ds as [|b t]; [done|]. change (10 =? 0) with false.
  by apply digits_loop_dval.
Qed.

(** Printing an integer and reading it back. *)
Lemma ParseInt_FormatInt i bits :
  1 < bits → - 2 ^ (bits - 1) ≤ i < 2 ^ (bits - 1) → ParseInt (FormatInt i) 10 bits = Ok i.
Proof.
  intros Hbits Hi. assert (2 ^ bits = 2 * 2 ^ (bits - 1)) as Hpow.
  { rewrite <-Z.pow_succ_r by lia. f_equal. lia. }
  assert (1 ≤ 2 ^ (bits - 1)) by (apply (Z.pow_le_mono_r 2 0); lia).
  unfold FormatInt. destruct (Z.ltb_spec i 0) as [Hneg|Hpos].
  - destruct (digits_of_spec (- i)) as (H1 & H2 & H3); [lia|]. unfold ParseInt. simpl.
    rewrite ParseUint_digits by (done || lia). simpl. rewrite H2.
    rewrite (proj2 (Z.ltb_ge _ _)) by lia. simpl. f_equal. lia.
  - destruct (digits_of_spec i) as (H1 & H2 & H3); [lia|]. unfold ParseInt.
    destruct (digits_of i) as [|b t] eqn:Hd; [done|].
    assert (b ≠ x2d ∧ b ≠ x2b) as [Hb1 Hb2].
    { apply Forall_cons in H1 as [Hb _]. split; intros ->; vm_compute in Hb; done. }
    rewrite !bool_decide_false by done. simpl orb. cbv iota. rewrite ParseUint_digits, H2 by (done || lia).
    simpl. rewrite (proj2 (Z.leb_gt _ _)) by lia. done.
Qed.

(** A number that is read is in the range of its width. *)
Lemma digits_loop_ge base maxVal n s r : 0 ≤ n → 0 ≤ base → digits_loop base maxVal n s = Ok r → 0 ≤ r.
Proof.
  revert n. induction s as [|b s IH]; intros n Hn Hb Hr; simpl in Hr; [by simplify_eq|].
  destruct (digit_val b) as [v|] eqn:Hv; [|done]. repeat case_match; try done.
  apply IH in Hr; [done| |done]. unfold digit_val in Hv. repeat case_match; simplify_eq; lia.
Qed.

Lemma ParseInt_range s bits i : 1 ≤ bits → ParseInt s 10 bits = Ok i → - 2 ^ (bits - 1) ≤ i < 2 ^ (bits - 1).
Proof.
  intros Hbits. assert (0 < 2 ^ (bits - 1)) by (apply Z.pow_pos_nonneg; lia).
  unfold ParseInt. destruct s as [|b t]; [done|].
  destruct (ParseUint _ _ _) as [un| |] eqn:Hun; simpl; [|done..].
  assert (0 ≤ un).
  { unfold ParseUint in Hun. repeat case_match; simplify_eq; (eapply digits_loop_ge; [| |eassumption]; lia). }
  destruct (bool_decide (b = x2d)); simpl; intros ?; repeat case_match; simplify_eq; lia.
Qed.

Lemma Quote_plain table s : Forall plain s → Quote table s = x22 :: s ++ [x22].
Proof.
  intros Hs. unfold Quote. do 2 f_equal. induction Hs as [|b s (Hb & Hq & Hbs) Hs IH]; [done|].
  cbn [length quote_loop]. unfold DecodeRune. rewrite (proj2 (Z.ltb_lt _ _)) by lia. cbn [Nat.eqb andb].
  rewrite (proj2 (Z.eqb_neq _ RuneError)) by (unfold RuneError; lia).
  cbn [drop]. rewrite drop_0, IH. change (b :: s) with ([b] ++ s). f_equal. unfold quote_rune.
  assert (∀ n x, byte_to_Z x = n → b ≠ x → (byte_to_Z b =? n) = false) as Hne.
  { intros n x <- Hx. apply Z.eqb_neq. by intros ?%(inj byte_to_Z). }
  rewrite (Hne 34 x22), (Hne 92 x5c) by done. simpl. unfold IsPrint. rewrite (proj2 (Z.ltb_lt _ 256)) by lia.
  rewrite (proj2 (Z.leb_le 32 _)), (proj2 (Z.leb_le _ 126)) by lia. simpl. unfold EncodeRune.
  rewrite (proj2 (Z.leb_le 0 _)), (proj2 (Z.ltb_lt _ 128)) by lia. simpl. by rewrite byte_of_to_Z.
Qed.
End strconv.
