(* ===== verification/Civil.v ===== *)
(** Calendar dates as Go's [time] package computes them for the types of
    [types/date.go]: a date is a count of days from 1970-01-01, in the proleptic
    Gregorian calendar. The library counts 400-, 100-, 4- and 1-year cycles from
    a year that is 1 modulo 400, as here. *)
From S2P Require Import Prelude Bytes.
From stdpp Require Import options.
#[local] Open Scope Z_scope.

Module civil.
Definition is_leap (y : Z) : bool := (y mod 4 =? 0) && (negb (y mod 100 =? 0) || (y mod 400 =? 0)).

(** [daysBefore] of the month, in a year without leap day. *)
Definition daysBefore (m : Z) : Z :=
  default 0 ([0; 31; 59; 90; 120; 151; 181; 212; 243; 273; 304; 334] !! Z.to_nat (m - 1)).

(** [daysIn(month, year)]. *)
Definition daysIn (m y : Z) : Z :=
  if m =? 2 then if is_leap y then 29 else 28
  else if (m =? 4) || (m =? 6) || (m =? 9) || (m =? 11) then 30 else 31.

(** The day of the year, from 0. *)
Definition yday_of (leap : bool) (m d : Z) : Z :=
  daysBefore m + (if leap && (3 <=? m) then 1 else 0) + d - 1.

(** Days from 0001-01-01 to 1970-01-01. *)
Definition epoch : Z := 719162.

(** [time.Date(y, m, d, 0, 0, 0, 0, UTC)] in days, for a month in range. *)
Definition days_of (y m d : Z) : Z :=
  let n400 := (y - 1) / 400 in let r := (y - 1) mod 400 in
  let n100 := r / 100 in let r := r mod 100 in
  let n4 := r / 4 in let n1 := r mod 4 in
  146097 * n400 + 36524 * n100 + 1461 * n4 + 365 * n1 + yday_of (is_leap y) m d - epoch.

(** The month and day of a day of the year: the search through the months. *)
Fixpoint month_day (fuel : nat) (leap : bool) (m yday : Z) : Z * Z :=
  match fuel with
  | O => (m, yday + 1)
  | S fuel =>
      let n := daysIn m (if leap then 4 else 1) in
      if yday <? n then (m, yday + 1) else month_day fuel leap (m + 1) (yday - n)
  end.

(** [t.Date()]. *)
Definition date_of (days : Z) : Z * Z * Z :=
  let d := days + epoch in
  let n400 := d / 146097 in let d := d mod 146097 in
  let n100 := Z.min 3 (d / 36524) in let d := d - 36524 * n100 in
  let n4 := d / 1461 in let d := d mod 1461 in
  let n1 := Z.min 3 (d / 365) in let yday := d - 365 * n1 in
  let y := 400 * n400 + 100 * n100 + 4 * n4 + n1 + 1 in
  let '(m, d) := month_day 11 (is_leap y) 1 yday in
  (y, m, d).

Definition valid_date (y m d : Z) : Prop := 1 ≤ m ≤ 12 ∧ 1 ≤ d ≤ daysIn m y.

(** *** Days of a year *)
Definition year_length (leap : bool) : Z := if leap then 366 else 365.

Fixpoint check_from (n : nat) (z : Z) (f : Z → bool) : bool :=
  match n with O => true | S n => f z && check_from n (z + 1) f end.

Lemma check_from_spec n z f x :
  check_from n z f = true → z ≤ x < z + Z.of_nat n → f x = true.
Proof.
  revert z. induction n as [|n IH]; intros z; simpl; [lia|].
  intros [Hz Hn]%andb_true_iff Hx. destruct (decide (x = z)) as [->|]; [done|]. apply (IH (z + 1)); [done|lia].
Qed.

Definition days_in_month (leap : bool) (m : Z) : Z := daysIn m (if leap then 4 else 1).

Lemma daysIn_leap m y : daysIn m y = days_in_month (is_leap y) m.
Proof. unfold days_in_month, daysIn. by destruct (is_leap y). Qed.

Lemma month_day_yday leap yday :
  0 ≤ yday < year_length leap →
  let '(m, d) := month_day 11 leap 1 yday in
  1 ≤ m ≤ 12 ∧ 1 ≤ d ≤ days_in_month leap m ∧ yday_of leap m d = yday.
Proof.
  intros Hy.
  assert ((let '(m, d) := month_day 11 leap 1 yday in
    (1 <=? m) && (m <=? 12) && (1 <=? d) && (d <=? days_in_month leap m) && (yday_of leap m d =? yday)) = true) as Hc.
  { destruct leap; [apply (check_from_spec 366 0 (λ yday, let '(m, d) := month_day 11 true 1 yday in
      (1 <=? m) && (m <=? 12) && (1 <=? d) && (d <=? days_in_month true m) && (yday_of true m d =? yday)))
      |apply (check_from_spec 365 0 (λ yday, let '(m, d) := month_day 11 false 1 yday in
      (1 <=? m) && (m <=? 12) && (1 <=? d) && (d <=? days_in_month false m) && (yday_of false m d =? yday)))];
      [vm_compute; reflexivity|unfold year_length in Hy; lia|vm_compute; reflexivity|unfold year_length in Hy; lia]. }
  destruct (month_day _ _ _ _) as [m d]. rewrite !andb_true_iff, !Z.leb_le, Z.eqb_eq in Hc. lia.
Qed.

Lemma yday_month_day leap m d :
  1 ≤ m ≤ 12 → 1 ≤ d ≤ days_in_month leap m →
  0 ≤ yday_of leap m d < year_length leap ∧ month_day 11 leap 1 (yday_of leap m d) = (m, d).
Proof.
  intros Hm Hd.
  assert (1 ≤ d < 1 + Z.of_nat 31) as Hd31 by (unfold days_in_month, daysIn in Hd; repeat case_match; lia).
  assert (check_from 12 1 (λ m, check_from 31 1 (λ d, negb (d <=? days_in_month leap m) ||
    (0 <=? yday_of leap m d) && (yday_of leap m d <? year_length leap) &&
    bool_decide (month_day 11 leap 1 (yday_of leap m d) = (m, d)))) = true) as Hc
    by (destruct leap; vm_compute; reflexivity).
  apply (check_from_spec 12 1 _ m) in Hc; [|lia]. apply (check_from_spec 31 1 _ d) in Hc; [|done]. cbv beta in Hc.
  rewrite (proj2 (Z.leb_le d _)) in Hc by lia. cbn [negb orb] in Hc.
  rewrite !andb_true_iff, bool_decide_eq_true, Z.leb_le, Z.ltb_lt in Hc. tauto.
Qed.

(** *** Cycles *)
(** A year by its place in the cycles. *)
Lemma leap_cycles n400 n100 n4 n1 :
  0 ≤ n100 ≤ 3 → 0 ≤ n4 ≤ 24 → 0 ≤ n1 ≤ 3 →
  is_leap (400 * n400 + 100 * n100 + 4 * n4 + n1 + 1) =
    (n1 =? 3) && (negb (n4 =? 24) || (n100 =? 3)).
Proof.
  intros H1 H2 H3. unfold is_leap. set (y := 400 * n400 + 100 * n100 + 4 * n4 + n1 + 1).
  assert (y mod 4 = (n1 + 1) mod 4) as -> by (unfold y; replace (400 * n400 + 100 * n100 + 4 * n4 + n1 + 1) with (n1 + 1 + (100 * n400 + 25 * n100 + n4) * 4) by lia; by rewrite Z_mod_plus_full).
  assert (y mod 100 = (4 * n4 + n1 + 1) mod 100) as -> by (unfold y; replace (400 * n400 + 100 * n100 + 4 * n4 + n1 + 1) with (4 * n4 + n1 + 1 + (4 * n400 + n100) * 100) by lia; by rewrite Z_mod_plus_full).
  assert (y mod 400 = (100 * n100 + 4 * n4 + n1 + 1) mod 400) as -> by (unfold y; replace (400 * n400 + 100 * n100 + 4 * n4 + n1 + 1) with (100 * n100 + 4 * n4 + n1 + 1 + n400 * 400) by lia; by rewrite Z_mod_plus_full).
  destruct (Z.eqb_spec n1 3) as [->|Hn1].
  - change ((3 + 1) mod 4 =? 0) with true. simpl.
    destruct (Z.eqb_spec n4 24) as [->|Hn4]; simpl.
    + change ((4 * 24 + 3 + 1) mod 100 =? 0) with true. simpl.
      destruct (Z.eqb_spec n100 3) as [->|]; [done|]. apply Z.eqb_neq. rewrite Z.mod_small; lia.
    + replace (negb ((4 * n4 + 3 + 1) mod 100 =? 0)) with true; [done|].
      symmetry. apply negb_true_iff, Z.eqb_neq. rewrite Z.mod_small; lia.
  - replace ((n1 + 1) mod 4 =? 0) with false; [done|]. symmetry. apply Z.eqb_neq. rewrite Z.mod_small; lia.
Qed.

(** Reading the cycles of a day. *)
Lemma date_of_cycles n400 n100 n4 n1 yday :
  0 ≤ n100 ≤ 3 → 0 ≤ n4 ≤ 24 → 0 ≤ n1 ≤ 3 →
  let y := 400 * n400 + 100 * n100 + 4 * n4 + n1 + 1 in
  0 ≤ yday < year_length (is_leap y) →
  date_of (146097 * n400 + 36524 * n100 + 1461 * n4 + 365 * n1 + yday - epoch) =
    (y, (month_day 11 (is_leap y) 1 yday).1, (month_day 11 (is_leap y) 1 yday).2).
Proof.
  intros H1 H2 H3 y Hy. unfold date_of.
  assert (yday ≤ 365 ∧ (yday = 365 → n1 = 3 ∧ (n4 ≠ 24 ∨ n100 = 3))) as [Hy1 Hy2].
  { unfold y in Hy. rewrite leap_cycles in Hy by done. unfold year_length in Hy.
    destruct (Z.eqb_spec n1 3), (Z.eqb_spec n4 24), (Z.eqb_spec n100 3); simpl in Hy; lia. }
  replace (146097 * n400 + 36524 * n100 + 1461 * n4 + 365 * n1 + yday - epoch + epoch)
    with (36524 * n100 + 1461 * n4 + 365 * n1 + yday + n400 * 146097) by lia.
  rewrite Z_div_plus_full, Z_mod_plus_full by lia.
  rewrite (Z.div_small (36524 * n100 + _ + _ + _)), Z.mod_small by lia.
  assert (Z.min 3 ((36524 * n100 + 1461 * n4 + 365 * n1 + yday) / 36524) = n100) as ->.
  { assert (n100 ≤ (36524 * n100 + 1461 * n4 + 365 * n1 + yday) / 36524) by (apply Z.div_le_lower_bound; lia).
    destruct (decide (n100 = 3)) as [->|]; [lia|].
    assert ((36524 * n100 + 1461 * n4 + 365 * n1 + yday) / 36524 < n100 + 1) by (apply Z.div_lt_upper_bound; lia). lia. }
  replace (36524 * n100 + 1461 * n4 + 365 * n1 + yday - 36524 * n100) with (365 * n1 + yday + n4 * 1461) by lia.
  rewrite Z_div_plus_full, Z_mod_plus_full by lia. rewrite (Z.div_small (365 * n1 + yday)), Z.mod_small by lia.
  assert (Z.min 3 ((365 * n1 + yday) / 365) = n1) as ->.
  { assert (n1 ≤ (365 * n1 + yday) / 365) by (apply Z.div_le_lower_bound; lia).
    destruct (decide (n1 = 3)) as [->|]; [lia|].
    assert ((365 * n1 + yday) / 365 < n1 + 1) by (apply Z.div_lt_upper_bound; lia). lia. }
  replace (400 * (0 + n400) + 100 * n100 + 4 * (0 + n4) + n1 + 1) with y by (unfold y; lia).
  replace (365 * n1 + yday - 365 * n1) with yday by lia. by destruct (month_day _ _ _ _).
Qed.

(** Every day has a valid date, and it denotes that day. *)
Lemma days_of_date_of days :
  let '(y, m, d) := date_of days in valid_date y m d ∧ days_of y m d = days.
Proof.
  set (z := days + epoch).
  pose proof (Z.mod_pos_bound z 146097 ltac:(lia)) as Hz. pose proof (Z_div_mod_eq_full z 146097) as Ez.
  set (n400 := z / 146097) in *. set (d1 := z mod 146097) in *.
  set (n100 := Z.min 3 (d1 / 36524)). assert (0 ≤ n100 ≤ 3) as H100.
  { unfold n100. pose proof (Z.div_pos d1 36524 ltac:(lia) ltac:(lia)). lia. }
  assert (0 ≤ d1 - 36524 * n100 < if decide (n100 = 3) then 36525 else 36524) as H2.
  { pose proof (Z_div_mod_eq_full d1 36524). pose proof (Z.mod_pos_bound d1 36524 ltac:(lia)).
    unfold n100 in *. case_decide; lia. }
  set (d2 := d1 - 36524 * n100) in *.
  pose proof (Z.mod_pos_bound d2 1461 ltac:(lia)) as Hd3. pose proof (Z_div_mod_eq_full d2 1461) as Ed2.
  set (n4 := d2 / 1461) in *. set (d3 := d2 mod 1461) in *.
  assert (0 ≤ n4 ≤ 24) as H4 by (case_decide; lia).
  set (n1 := Z.min 3 (d3 / 365)). assert (0 ≤ n1 ≤ 3) as Hn1.
  { unfold n1. pose proof (Z.div_pos d3 365 ltac:(lia) ltac:(lia)). lia. }
  set (yday := d3 - 365 * n1). set (y := 400 * n400 + 100 * n100 + 4 * n4 + n1 + 1).
  assert (0 ≤ yday < year_length (is_leap y)) as Hyd.
  { pose proof (Z_div_mod_eq_full d3 365). pose proof (Z.mod_pos_bound d3 365 ltac:(lia)).
    unfold y. rewrite leap_cycles by done. unfold year_length, yday, n1 in *.
    destruct (Z.eqb_spec (Z.min 3 (d3 / 365)) 3), (Z.eqb_spec n4 24), (Z.eqb_spec n100 3); simpl; case_decide; lia. }
  assert (days = 146097 * n400 + 36524 * n100 + 1461 * n4 + 365 * n1 + yday - epoch) as Hdays.
  { unfold yday, d2, z in *. lia. }
  pose proof (date_of_cycles n400 n100 n4 n1 yday H100 H4 Hn1 Hyd) as Hdate. cbv zeta in Hdate.
  rewrite <-Hdays in Hdate. fold y in Hdate. rewrite Hdate.
  pose proof (month_day_yday (is_leap y) yday Hyd) as Hmd. destruct (month_day _ _ _ _) as [m d]. simpl.
  destruct Hmd as (Hm & Hd & Hyday). split; [split; [done|by rewrite daysIn_leap]|].
  unfold days_of. rewrite Hyday.
  replace (y - 1) with (100 * n100 + 4 * n4 + n1 + n400 * 400) by (unfold y; lia).
  rewrite Z_div_plus_full, Z_mod_plus_full by lia. rewrite (Z.div_small (100 * n100 + 4 * n4 + n1)), Z.mod_small by lia.
  replace (100 * n100 + 4 * n4 + n1) with (4 * n4 + n1 + n100 * 100) by lia.
  rewrite Z_div_plus_full, Z_mod_plus_full by lia. rewrite (Z.div_small (4 * n4 + n1)), Z.mod_small by lia.
  replace (4 * n4 + n1) with (n1 + n4 * 4) by lia.
  rewrite Z_div_plus_full, Z_mod_plus_full by lia. rewrite (Z.div_small n1), Z.mod_small by lia. lia.
Qed.

(** ... and every valid date is the date of its day. *)
Lemma date_of_days_of y m d : valid_date y m d → date_of (days_of y m d) = (y, m, d).
Proof.
  intros [Hm Hd]. rewrite daysIn_leap in Hd. unfold days_of.
  destruct (yday_month_day (is_leap y) m d Hm Hd) as [Hyd Hmd].
  pose proof (Z_div_mod_eq_full (y - 1) 400). pose proof (Z.mod_pos_bound (y - 1) 400 ltac:(lia)).
  set (n400 := (y - 1) / 400) in *. set (r := (y - 1) mod 400) in *.
  pose proof (Z_div_mod_eq_full r 100). pose proof (Z.mod_pos_bound r 100 ltac:(lia)).
  set (n100 := r / 100) in *. set (r' := r mod 100) in *.
  pose proof (Z_div_mod_eq_full r' 4). pose proof (Z.mod_pos_bound r' 4 ltac:(lia)).
  set (n4 := r' / 4) in *. set (n1 := r' mod 4) in *.
  assert (y = 400 * n400 + 100 * n100 + 4 * n4 + n1 + 1) as Hy by lia.
  rewrite date_of_cycles; [|lia..|by rewrite <-Hy]. by rewrite <-Hy, Hmd.
Qed.

(** Later dates are later days. *)
Lemma date_of_inj a b : date_of a = date_of b → a = b.
Proof.
  intros Heq. pose proof (days_of_date_of a) as Ha. pose proof (days_of_date_of b) as Hb.
  rewrite Heq in Ha. destruct (date_of b) as [[y m] d]. destruct Ha as [_ <-], Hb as [_ <-]. done.
Qed.
End civil.
