(* ===== verification/Types.v ===== *)
(** Scalar values ([types/scalar_types.go], [types/date.go], [types/geo.go],
    [types/conversion.go], [types/index.go]).

    A [Float] is its 64 bits, read as an IEEE number where the code computes with
    it. A [Date] is a count of days. What the code takes from libraries that are
    not modelled (text and binary forms of [time.Time], the shortest decimal of a
    float, geometry) is the class [ValueLib]. *)
From Stdlib Require Import SpecFloat.
From S2P Require Import Prelude Bytes Strconv Civil.
From stdpp Require Import options.
#[local] Open Scope Z_scope.
#[local] Set Default Proof Using "Type*".

Module types.
Import strconv civil.

(** *** Type identifiers *)
Definition BytesID : Z := 0.
Definition Int32ID : Z := 1.
Definition FloatID : Z := 2.
Definition BoolID : Z := 3.
Definition DateTimeID : Z := 4.
Definition StringID : Z := 5.
Definition DateID : Z := 6.
Definition GeoID : Z := 7.

Record Scalar : Type := mkScalar { Name : list byte; id : Z }.

Definition int32Type : Scalar := mkScalar (bs "int") Int32ID.
Definition floatType : Scalar := mkScalar (bs "float") FloatID.
Definition stringType : Scalar := mkScalar (bs "string") StringID.
Definition byteArrayType : Scalar := mkScalar (bs "bytes") BytesID.
Definition booleanType : Scalar := mkScalar (bs "bool") BoolID.
Definition idType : Scalar := mkScalar (bs "id") StringID.
Definition dateTimeType : Scalar := mkScalar (bs "datetime") DateTimeID.
Definition dateType : Scalar := mkScalar (bs "date") DateID.
Definition geoType : Scalar := mkScalar (bs "geo") GeoID.

(** [typeNameMap] and [TypeForName]. *)
Definition typeNameMap : gmap (list byte) Scalar :=
  list_to_map ((λ s, (Name s, s)) <$>
    [int32Type; floatType; stringType; booleanType; idType; dateTimeType; dateType; geoType; byteArrayType]).
Definition TypeForName (name : list byte) : option Scalar := typeNameMap !! name.

(** *** Floating point *)
Definition f_view (bits : Z) : spec_float :=
  let s := Z.testbit bits 63 in
  let e := Z.land (Z.shiftr bits 52) 0x7FF in
  let m := Z.land bits 0xFFFFFFFFFFFFF in
  if e =? 0x7FF then if m =? 0 then S754_infinity s else S754_nan
  else if e =? 0 then match m with Zpos p => S754_finite s p (-1074) | _ => S754_zero s end
  else match m + 0x10000000000000 with Zpos p => S754_finite s p (e - 1075) | _ => S754_nan end.

Definition f_bits (f : spec_float) : Z :=
  let sign (s : bool) := if s then 2 ^ 63 else 0 in
  match f with
  | S754_zero s => sign s
  | S754_infinity s => sign s + Z.shiftl 0x7FF 52
  | S754_nan => 0x7FF8000000000001
  | S754_finite s m e =>
      if Zpos m <? 2 ^ 52 then sign s + Zpos m
      else sign s + Z.shiftl (e + 1075) 52 + (Zpos m - 2 ^ 52)
  end.

(** The float nearest to an integer, and to [m * 10^e]. *)
Definition f_of_Z (z : Z) : spec_float := binary_normalize 53 1024 z 0 false.
Definition f_of_decimal (s : bool) (m e : Z) : spec_float :=
  if m =? 0 then S754_zero s
  else
    let f := if 0 <=? e then f_of_Z (m * 10 ^ e)
             else match m, 10 ^ (- e) with
                  | Zpos p, Zpos q => SFdiv 53 1024 (S754_finite false p 0) (S754_finite false q 0)
                  | _, _ => S754_zero false
                  end in
    if s then SFopp f else f.

(** [strconv.ParseFloat(s, 64)]. *)
Definition ParseFloat (s : list byte) : res spec_float :=
  ParseFloat_err s;;
  let neg := bool_decide (head s = Some x2d) in
  match read_decimal s with
  | Some (m, e) => Ok (f_of_decimal neg m e)
  | None =>
      if bool_decide (lower <$> s = bs "nan") then Ok S754_nan else Ok (S754_infinity neg)
  end.

(** The integer part, for a finite number. *)
Definition f_trunc (f : spec_float) : Z :=
  match f with
  | S754_finite s m e =>
      let n := if 0 <=? e then Zpos m * 2 ^ e else Zpos m / 2 ^ (- e) in if s then - n else n
  | _ => 0
  end.

(** *** Times *)
(** An instant and the offset of its location, in seconds. *)
Record Time : Type := mkTime { Unix : Z; Nanosecond : Z; offset : Z }.

Definition nanoSecondsInSec : Z := 1000000000.

(** [time.Unix(sec, nsec).UTC()]. *)
Definition time_Unix_UTC (sec nsec : Z) : Time :=
  mkTime (sec + nsec / nanoSecondsInSec) (nsec mod nanoSecondsInSec) 0.

(** [t.Date()] as a day, in the time's location. *)
Definition day_of (t : Time) : Z := (Unix t + offset t) / 86400.
Definition Year (day : Z) : Z := (date_of day).1.1.

Class ValueLib : Type := {
  (** The local time zone's offset at an instant. *)
  zone : Z → Z;
  time_UnmarshalText : list byte → res Time;
  time_Parse_plain : list byte → res Time;  (* layout 2006-01-02T15:04:05 *)
  time_MarshalText : Time → res (list byte);
  time_MarshalBinary : Time → res (list byte);
  time_UnmarshalBinary : list byte → res Time;
  (** [FormatFloat(f, 'E', -1, 64)] *)
  FormatFloat : Z → list byte;
  (** Conversions of floats out of range, which Go leaves open. *)
  int32_overflow : spec_float → Z;
  int64_overflow : spec_float → Z;
  Geo : Type;
  wkb_Marshal : Geo → res (list byte);
  wkb_Unmarshal : list byte → res Geo;
  geojson_Marshal : Geo → res (list byte);
  geojson_Unmarshal : list byte → res Geo;
}.

Section types.
Context `{ValueLib}.

Inductive Value : Type :=
| VBytes (b : list byte)
| VInt32 (i : Z)
| VFloat (bits : Z)
| VBool (b : bool)
| VTime (t : Time)
| VString (s : list byte)
| VDate (day : Z)
| VGeo (g : Geo).

Definition Type_ (v : Value) : Scalar :=
  match v with
  | VBytes _ => byteArrayType
  | VInt32 _ => int32Type
  | VFloat _ => floatType
  | VBool _ => booleanType
  | VTime _ => dateTimeType
  | VString _ => stringType
  | VDate _ => dateType
  | VGeo _ => geoType
  end.

(** *** Binary form *)
Definition Bytes_MarshalBinary (v : list byte) : res (list byte) := Ok v.
Definition String_MarshalBinary (v : list byte) : res (list byte) := Ok v.
Definition Int32_MarshalBinary (v : Z) : res (list byte) := Ok (le_put 4 (u32 v)).
Definition Float_MarshalBinary (v : Z) : res (list byte) := Ok (le_put 8 v).
Definition Bool_MarshalBinary (v : bool) : res (list byte) := Ok [if v then x01 else x00].
Definition Date_MarshalBinary (v : Z) : res (list byte) := Ok (le_put 8 (u64 (v * 86400))).
Definition Geo_MarshalBinary (v : Geo) : res (list byte) := wkb_Marshal v.

Definition MarshalBinary (v : Value) : res (list byte) :=
  match v with
  | VBytes b => Bytes_MarshalBinary b
  | VInt32 i => Int32_MarshalBinary i
  | VFloat bits => Float_MarshalBinary bits
  | VBool b => Bool_MarshalBinary b
  | VTime t => time_MarshalBinary t
  | VString s => String_MarshalBinary s
  | VDate day => Date_MarshalBinary day
  | VGeo g => Geo_MarshalBinary g
  end.

(** An [int64] conversion. *)
Definition i64 (z : Z) : Z := let w := u64 z in if w <? 2 ^ 63 then w else w - two64.

Definition Bytes_UnmarshalBinary (data : list byte) : res (list byte) := Ok data.
Definition String_UnmarshalBinary (data : list byte) : res (list byte) := Ok data.

Definition Int32_UnmarshalBinary (data : list byte) : res Z :=
  if (length data <? 4)%nat then Err "Invalid data for int32 %v"
  else Ok (i32 (le_get (take 4 data))).

Definition Float_UnmarshalBinary (data : list byte) : res Z :=
  if (length data <? 8)%nat then Err "Invalid data for float %v"
  else Ok (le_get (take 8 data)).

(** [data[0]] of no data panics. *)
Definition Bool_UnmarshalBinary (data : list byte) : res bool :=
  b ← index data 0;
  if byte_to_Z b =? 0 then Ok false
  else if byte_to_Z b =? 1 then Ok true
  else Err "Invalid value for bool %v".

(** [fromTime] keeps the date of the time in its own location. *)
Definition Date_fromTime (t : Time) : Z := day_of t.

(** [time.Unix] is a time in the local zone. *)
Definition Date_UnmarshalBinary (data : list byte) : res Z :=
  if (length data <? 8)%nat then Err "Invalid data for date %v"
  else
    let secs := i64 (le_get (take 8 data)) in
    Ok (Date_fromTime (mkTime secs 0 (zone secs))).

Definition Geo_UnmarshalBinary (data : list byte) : res Geo := wkb_Unmarshal data.

(** [ValueForType(id)] selects the method; an unknown id gives the nil
    interface. *)
Definition ValueForType {A} (id : Z) (bytes int32 float bool datetime string date geo nil : A) : A :=
  if id =? BytesID then bytes
  else if id =? Int32ID then int32
  else if id =? FloatID then float
  else if id =? BoolID then bool
  else if id =? DateTimeID then datetime
  else if id =? StringID then string
  else if id =? DateID then date
  else if id =? GeoID then geo
  else nil.

Definition nil_method : res Value := Crash "nil pointer dereference".

Definition UnmarshalBinary (id : Z) (data : list byte) : res Value :=
  ValueForType id
    (VBytes <$> Bytes_UnmarshalBinary data)
    (VInt32 <$> Int32_UnmarshalBinary data)
    (VFloat <$> Float_UnmarshalBinary data)
    (VBool <$> Bool_UnmarshalBinary data)
    (VTime <$> time_UnmarshalBinary data)
    (VString <$> String_UnmarshalBinary data)
    (VDate <$> Date_UnmarshalBinary data)
    (VGeo <$> Geo_UnmarshalBinary data)
    nil_method.

(** *** Text form *)
(** Zero-padded decimals, as [appendInt] of [time]. *)
Definition pad (width : nat) (n : Z) : list byte :=
  let ds := digits_of n in replicate (width - length ds) x30 ++ ds.

(** [t.Format("2006-01-02")]. *)
Definition format_date (day : Z) : list byte :=
  let '(y, m, d) := date_of day in
  (if y <? 0 then x2d :: pad 4 (- y) else pad 4 y) ++ x2d :: pad 2 m ++ x2d :: pad 2 d.

(** A number of exactly [n] digits. *)
Fixpoint fixed_digits (n : nat) (acc : Z) (s : list byte) : option (Z * list byte) :=
  match n with
  | O => Some (acc, s)
  | S n =>
      match s with
      | b :: s => if is_digit b then fixed_digits n (acc * 10 + (byte_to_Z b - 48)) s else None
      | [] => None
      end
  end.

(** [time.Parse("2006-01-02", s)]: four, two and two digits, a month in range
    and a day the month has. *)
Definition parse_date (s : list byte) : res Z :=
  match fixed_digits 4 0 s with
  | Some (y, x2d :: s) =>
      match fixed_digits 2 0 s with
      | Some (m, x2d :: s) =>
          match fixed_digits 2 0 s with
          | Some (d, []) =>
              if (1 <=? m) && (m <=? 12) && (1 <=? d) && (d <=? daysIn m y)
              then Ok (days_of y m d) else Err "parsing time: out of range"
          | _ => Err "parsing time: cannot parse"
          end
      | _ => Err "parsing time: cannot parse"
      end
  | _ => Err "parsing time: cannot parse"
  end.

Definition Bytes_MarshalText (v : list byte) : res (list byte) := Ok v.
Definition String_MarshalText (v : list byte) : res (list byte) := Ok v.
Definition Int32_MarshalText (v : Z) : res (list byte) := Ok (FormatInt v).
Definition Float_MarshalText (v : Z) : res (list byte) := Ok (FormatFloat v).
Definition Bool_MarshalText (v : bool) : res (list byte) := Ok (if v then bs "true" else bs "false").
Definition Date_MarshalText (v : Z) : res (list byte) := Ok (format_date v).
Definition Geo_MarshalText (v : Geo) : res (list byte) := geojson_Marshal v.

Definition MarshalText (v : Value) : res (list byte) :=
  match v with
  | VBytes b => Bytes_MarshalText b
  | VInt32 i => Int32_MarshalText i
  | VFloat bits => Float_MarshalText bits
  | VBool b => Bool_MarshalText b
  | VTime t => time_MarshalText t
  | VString s => String_MarshalText s
  | VDate day => Date_MarshalText day
  | VGeo g => Geo_MarshalText g
  end.

Definition Bytes_UnmarshalText (text : list byte) : res (list byte) := Ok text.
Definition String_UnmarshalText (text : list byte) : res (list byte) := Ok text.
Definition Int32_UnmarshalText (text : list byte) : res Z := ParseInt text 10 32.
Definition Float_UnmarshalText (text : list byte) : res Z := f ← ParseFloat text; Ok (f_bits f).
Definition Bool_UnmarshalText (text : list byte) : res bool := ParseBool text.

(** A time without zone is the second format tried. *)
Definition Time_UnmarshalText (text : list byte) : res Time :=
  match time_UnmarshalText text with
  | Err _ => time_Parse_plain text
  | r => r
  end.

(** The parsed time is midnight UTC of the day. *)
Definition Date_UnmarshalText (text : list byte) : res Z :=
  day ← parse_date text; Ok (Date_fromTime (mkTime (day * 86400) 0 0)).

Definition Geo_UnmarshalText (text : list byte) : res Geo := geojson_Unmarshal text.

Definition UnmarshalText (id : Z) (text : list byte) : res Value :=
  ValueForType id
    (VBytes <$> Bytes_UnmarshalText text)
    (VInt32 <$> Int32_UnmarshalText text)
    (VFloat <$> Float_UnmarshalText text)
    (VBool <$> Bool_UnmarshalText text)
    (VTime <$> Time_UnmarshalText text)
    (VString <$> String_UnmarshalText text)
    (VDate <$> Date_UnmarshalText text)
    (VGeo <$> Geo_UnmarshalText text)
    nil_method.

(** *** Conversions *)
Definition MaxInt32 : Z := 2147483647.
Definition MinInt32 : Z := -2147483648.

Definition Int32_fromFloat (bits : Z) : res Z :=
  let f := f_view bits in
  if SFltb (f_of_Z MaxInt32) f || SFltb f (f_of_Z MinInt32)
     || match f with S754_nan => true | _ => false end
  then Err "Float out of int32 range" else Ok (f_trunc f).

Definition Int32_fromBool (b : bool) : Z := if b then 1 else 0.

Definition Int32_fromTime (t : Time) : res Z :=
  let secs := Unix t in
  if (MaxInt32 <? secs) || (secs <? MinInt32) then Err "Time out of int32 range" else Ok secs.

(** The time of a date: midnight, UTC. *)
Definition date_time (day : Z) : Time := mkTime (day * 86400) 0 0.

Definition Int32_fromDate (day : Z) : res Z := Int32_fromTime (date_time day).

Definition Float_fromInt (i : Z) : Z := f_bits (f_of_Z i).
Definition Float_fromBool (b : bool) : Z := f_bits (f_of_Z (if b then 1 else 0)).

Definition Float_fromTime (t : Time) : Z :=
  let secs := f_of_Z (Unix t) in
  let nano := f_of_Z (Nanosecond t) in
  f_bits (SFadd 53 1024 secs (SFdiv 53 1024 nano (f_of_Z nanoSecondsInSec))).

Definition Float_fromDate (day : Z) : Z := Float_fromTime (date_time day).

Definition Bool_fromInt (i : Z) : bool := negb (i =? 0).
Definition Bool_fromFloat (bits : Z) : bool := match f_view bits with S754_zero _ => false | _ => true end.

Definition Time_fromInt (i : Z) : Time := time_Unix_UTC i 0.

(** [int64(f)]. *)
Definition int64_of_float (f : spec_float) : Z :=
  let n := f_trunc f in
  match f with
  | S754_zero _ => 0
  | S754_finite _ _ _ => if (- 2 ^ 63 <=? n) && (n <? 2 ^ 63) then n else int64_overflow f
  | _ => int64_overflow f
  end.

Definition Time_fromFloat (bits : Z) : Time :=
  let f := f_view bits in
  let secs := int64_of_float f in
  let fracSecs := SFsub 53 1024 f (f_of_Z secs) in
  let nsecs := int64_of_float (SFmul 53 1024 fracSecs (f_of_Z nanoSecondsInSec)) in
  time_Unix_UTC secs nsecs.

Definition Time_fromDate (day : Z) : Time := date_time day.

Definition Date_fromFloat (bits : Z) : Z := Date_fromTime (Time_fromFloat bits).
Definition Date_fromInt (i : Z) : Z := Date_fromTime (Time_fromInt i).

Definition cantConvert : res Value := Err "Cannot convert %v to type %s".

(** [to.Convert(value)]: the type switch on the value, and in each case the
    types whose value has the [from] method. *)
Definition Convert (to : Scalar) (value : Value) : res Value :=
  let tid := id to in
  if tid =? id (Type_ value) then Ok value
  else if (tid =? StringID) || (tid =? BytesID) then r ← MarshalText value; Ok (VString r)
  else
    match value with
    | VBytes b => UnmarshalText tid b
    | VString s => UnmarshalText tid s
    | VInt32 i =>
        if tid =? FloatID then Ok (VFloat (Float_fromInt i))
        else if tid =? BoolID then Ok (VBool (Bool_fromInt i))
        else if tid =? DateTimeID then Ok (VTime (Time_fromInt i))
        else if tid =? DateID then Ok (VDate (Date_fromInt i))
        else cantConvert
    | VFloat bits =>
        if tid =? Int32ID then VInt32 <$> Int32_fromFloat bits
        else if tid =? BoolID then Ok (VBool (Bool_fromFloat bits))
        else if tid =? DateTimeID then Ok (VTime (Time_fromFloat bits))
        else if tid =? DateID then Ok (VDate (Date_fromFloat bits))
        else cantConvert
    | VBool b =>
        if tid =? Int32ID then Ok (VInt32 (Int32_fromBool b))
        else if tid =? FloatID then Ok (VFloat (Float_fromBool b))
        else cantConvert
    | VTime t =>
        if tid =? Int32ID then VInt32 <$> Int32_fromTime t
        else if tid =? FloatID then Ok (VFloat (Float_fromTime t))
        else if tid =? DateID then Ok (VDate (Date_fromTime t))
        else cantConvert
    | VDate day =>
        if tid =? Int32ID then VInt32 <$> Int32_fromDate day
        else if tid =? FloatID then Ok (VFloat (Float_fromDate day))
        else if tid =? DateTimeID then Ok (VTime (Time_fromDate day))
        else cantConvert
    | VGeo _ => cantConvert
    end.

(** *** Index tokens of numbers and dates *)
Definition be32 (z : Z) : list byte := be_put 4 (u32 z).

Definition IntIndex (i : Z) : list (list byte) := [be32 i].

(** [int32(f)]. *)
Definition int32_of_float (f : spec_float) : Z :=
  let n := f_trunc f in
  match f with
  | S754_zero _ => 0
  | S754_finite _ _ _ => if (MinInt32 <=? n) && (n <=? MaxInt32) then n else int32_overflow f
  | _ => int32_overflow f
  end.

Definition FloatIndex (bits : Z) : list (list byte) := [be32 (int32_of_float (f_view bits))].
Definition DateIndex (day : Z) : list (list byte) := [be32 (Year day)].
Definition TimeIndex (t : Time) : list (list byte) := [be32 (Year (day_of t))].

(** *** Binary round trip *)
(** Values the model fully describes, in the range of their Go type. *)
Definition scalar_ok (v : Value) : Prop :=
  match v with
  | VBytes _ | VBool _ | VString _ => True
  | VInt32 i => MinInt32 ≤ i ≤ MaxInt32
  | VFloat bits => 0 ≤ bits < two64
  | VDate day => - 2 ^ 63 ≤ day * 86400 < 2 ^ 63
  | VTime _ | VGeo _ => False
  end.

(** What reading back gives: a date is read in the local time zone. *)
Definition reread (v : Value) : Value :=
  match v with
  | VDate day => VDate (day + zone (day * 86400) / 86400)
  | _ => v
  end.

Lemma i32_u32 i : MinInt32 ≤ i ≤ MaxInt32 → i32 (u32 i) = i.
Proof.
  unfold MinInt32, MaxInt32, i32, u32. intros Hi. rewrite Z.mod_mod by lia.
  destruct (decide (0 ≤ i)).
  - rewrite Z.mod_small by lia. by rewrite (proj2 (Z.ltb_lt _ _)) by lia.
  - rewrite <-(Z_mod_plus_full _ 1), Z.mod_small by lia. rewrite (proj2 (Z.ltb_ge _ _)) by lia. lia.
Qed.

Lemma i64_u64 i : - 2 ^ 63 ≤ i < 2 ^ 63 → i64 (u64 i) = i.
Proof.
  unfold i64, u64, two64. intros Hi. rewrite Z.mod_mod by lia.
  destruct (decide (0 ≤ i)).
  - rewrite Z.mod_small by lia. by rewrite (proj2 (Z.ltb_lt _ _)) by lia.
  - rewrite <-(Z_mod_plus_full _ 1), Z.mod_small by lia. rewrite (proj2 (Z.ltb_ge _ _)) by lia. lia.
Qed.

(** Reading [n] little-endian bytes just written. *)
Lemma le_take_put n z :
  0 ≤ z < 256 ^ Z.of_nat n → (length (le_put n z) <? n)%nat = false ∧ le_get (take n (le_put n z)) = z.
Proof.
  intros Hz. rewrite length_le_put, take_ge by (by rewrite length_le_put).
  rewrite le_get_put, Z.mod_small by done. split; [|done]. apply Nat.ltb_ge. lia.
Qed.

(** Select the case of a concrete type identifier. *)
Ltac type_dispatch f :=
  cbv beta iota delta [f ValueForType Type_ id int32Type floatType booleanType dateType BytesID Int32ID FloatID
    BoolID DateTimeID StringID DateID Z.eqb Pos.eqb].


(** *** Text round trip *)
Lemma fixed_digits_app n acc ds rest :
  all_digits ds → length ds = n → fixed_digits n acc (ds ++ rest) = Some (dval acc ds, rest).
Proof.
  intros Hds. revert n acc. induction Hds as [|b ds Hb Hds IH]; intros n acc Hn; simpl in Hn; subst n; [done|].
  simpl. rewrite Hb. by apply IH.
Qed.

Lemma length_digits_rev fuel n k :
  (0 < k)%nat → 0 ≤ n < 10 ^ Z.of_nat k → (length (digits_rev fuel n) ≤ k)%nat.
Proof.
  revert n k. induction fuel as [|fuel IH]; intros n k Hk Hn; [simpl; lia|]. cbn [digits_rev].
  destruct (Z.ltb_spec n 10); [simpl; lia|]. destruct k as [|k]; [lia|]. cbn [length].
  rewrite Nat2Z.inj_succ, Z.pow_succ_r in Hn by lia. destruct k as [|k]; [simpl in Hn; lia|].
  apply le_n_S, IH; [lia|]. split; [apply Z.div_pos; lia|apply Z.div_lt_upper_bound; lia].
Qed.

Lemma dval_zeros k ds : dval 0 (replicate k x30 ++ ds) = dval 0 ds.
Proof. induction k; [done|]. exact IHk. Qed.

Lemma fixed_digits_pad k n rest :
  (0 < k)%nat → 0 ≤ n < 10 ^ Z.of_nat k → fixed_digits k 0 (pad k n ++ rest) = Some (n, rest).
Proof.
  intros Hk Hn. destruct (digits_of_spec n) as (H1 & H2 & _); [lia|].
  assert (length (digits_of n) ≤ k)%nat by (unfold digits_of; rewrite length_rev; by apply length_digits_rev).
  unfold pad. rewrite fixed_digits_app, dval_zeros, H2; [done| |].
  - apply Forall_app. split; [by apply Forall_replicate|done].
  - rewrite length_app, length_replicate. lia.
Qed.

Lemma parse_format_date day : 0 ≤ Year day ≤ 9999 → parse_date (format_date day) = Ok day.
Proof.
  pose proof (days_of_date_of day) as Hd. unfold Year, format_date.
  destruct (date_of day) as [[y m] d]. destruct Hd as [[Hm Hdd] Hd]. simpl. intros Hy.
  assert (daysIn m y ≤ 31) as H31.
  { unfold daysIn. repeat case_match; lia. }
  rewrite (proj2 (Z.ltb_ge _ _)) by lia. unfold parse_date. rewrite fixed_digits_pad by lia.
  rewrite fixed_digits_pad by lia. rewrite <-(app_nil_r (pad 2 d)), fixed_digits_pad by lia.
  rewrite !(proj2 (Z.leb_le _ _)) by lia. simpl. by rewrite Hd.
Qed.

(** Values whose text form the model describes: floats, times and geometry are
    printed by libraries. *)
Definition text_ok (v : Value) : Prop :=
  match v with
  | VBytes _ | VBool _ | VString _ => True
  | VInt32 i => MinInt32 ≤ i ≤ MaxInt32
  | VDate day => 0 ≤ Year day ≤ 9999
  | VFloat _ | VTime _ | VGeo _ => False
  end.

(** [UnmarshalText] restores what [MarshalText] printed: integers at their
    width, booleans, strings, bytes, and dates of the years 0 to 9999. *)
Theorem text_roundtrip v :
  text_ok v → ∃ text, MarshalText v = Ok text ∧ UnmarshalText (id (Type_ v)) text = Ok v.
Proof.
  destruct v as [b|i|bits|b|t|s|day|g]; intros Hv; cbn [text_ok] in Hv; try done; eexists;
    (split; [reflexivity|]); try reflexivity; type_dispatch UnmarshalText.
  - unfold MinInt32, MaxInt32 in Hv. unfold Int32_UnmarshalText. by rewrite ParseInt_FormatInt by lia.
  - by destruct b.
  - unfold Date_UnmarshalText. rewrite parse_format_date by done. cbn [mbind res_bind fmap res_fmap].
    unfold Date_fromTime, day_of. cbn [Unix offset]. by rewrite Z.add_0_r, Z.div_mul by lia.
Qed.

(** *** Order of the tokens of integers *)
Lemma u32_range i : 0 ≤ u32 i < 256 ^ Z.of_nat 4.
Proof. apply Z.mod_pos_bound. lia. Qed.

Lemma u32_signed i : MinInt32 ≤ i ≤ MaxInt32 → u32 i = if i <? 0 then i + 4294967296 else i.
Proof.
  unfold u32, MinInt32, MaxInt32. intros Hi. destruct (Z.ltb_spec i 0).
  - rewrite <-(Z_mod_plus_full _ 1), Z.mod_small; lia.
  - rewrite Z.mod_small; lia.
Qed.

(** The order of the index tokens of two integers is their order within
    one sign; every negative integer sorts after every non-negative one. *)
Theorem IntIndex_order a b :
  MinInt32 ≤ a ≤ MaxInt32 → MinInt32 ≤ b ≤ MaxInt32 →
  ∃ ta tb, IntIndex a = [ta] ∧ IntIndex b = [tb] ∧
    (bytes_lt ta tb ↔ (a < b ∧ (0 ≤ a ∨ b < 0)) ∨ (0 ≤ a ∧ b < 0)).
Proof.
  intros Ha Hb. exists (be32 a), (be32 b). split_and!; [done|done|].
  unfold bytes_lt, be32. rewrite be_put_compare by apply u32_range.
  rewrite !u32_signed by done. unfold MinInt32, MaxInt32 in *.
  change (Z.compare ?x ?y = Lt) with (x < y). destruct (Z.ltb_spec a 0), (Z.ltb_spec b 0); lia.
Qed.

(** *** Types of converted values *)
Definition int_ok (v : Value) : Prop := ∀ i, v = VInt32 i → MinInt32 ≤ i ≤ MaxInt32.

(** Case analysis on a type identifier compared with the known ones. *)
Ltac by_id k := repeat match goal with |- context [k =? ?c] => destruct (Z.eqb_spec k c) as [-> | ?] end.

Lemma UnmarshalText_type k text r : UnmarshalText k text = Ok r → id (Type_ r) = k ∧ int_ok r.
Proof.
  unfold UnmarshalText, ValueForType. by_id k; intros Hr; try done; apply fmap_Ok in Hr as (a & Ha & ->);
    (split; [done|]); intros i Hi; try done.
  injection Hi as <-. apply ParseInt_range in Ha; [|lia]. unfold MinInt32, MaxInt32. lia.
Qed.

Lemma f_view_mantissa bits s p e : f_view bits = S754_finite s p e → Zpos p < 9007199254740992.
Proof.
  unfold f_view. assert (0 ≤ Z.land bits 0xFFFFFFFFFFFFF < 2 ^ 52) as Hm.
  { change 0xFFFFFFFFFFFFF with (Z.ones 52). rewrite Z.land_ones by lia. apply Z.mod_pos_bound. lia. }
  repeat case_match; intros ?; simplify_eq; lia.
Qed.

Lemma trunc_bound p e k c B : 0 ≤ k ≤ - e → 2 ^ k = c → Zpos p ≤ B * c → Zpos p / 2 ^ (- e) ≤ B.
Proof.
  intros Hk <- Hp. apply Z.div_le_upper_bound; [apply Z.pow_pos_nonneg; lia|].
  assert (2 ^ k ≤ 2 ^ (- e)) by (apply Z.pow_le_mono_r; lia). assert (0 < 2 ^ k) by (apply Z.pow_pos_nonneg; lia).
  nia.
Qed.

Lemma f_of_MaxInt32 : f_of_Z MaxInt32 = S754_finite false 9007199250546688 (-22).
Proof. vm_compute. reflexivity. Qed.
Lemma f_of_MinInt32 : f_of_Z MinInt32 = S754_finite true 4503599627370496 (-21).
Proof. vm_compute. reflexivity. Qed.

Lemma SFltb_pos m1 e1 m2 e2 :
  SFltb (S754_finite false m1 e1) (S754_finite false m2 e2) = false →
  e2 < e1 ∨ (e1 = e2 ∧ Zpos m2 ≤ Zpos m1).
Proof.
  unfold SFltb, SFcompare. destruct (Z.compare_spec e1 e2) as [He|He|He]; [|done|by left].
  change (PosDef.Pos.compare_cont Eq m1 m2) with (Z.compare (Zpos m1) (Zpos m2)).
  destruct (Z.compare_spec (Zpos m1) (Zpos m2)); [|done|]; right; lia.
Qed.

Lemma SFltb_neg m1 e1 m2 e2 :
  SFltb (S754_finite true m1 e1) (S754_finite true m2 e2) = false →
  e1 < e2 ∨ (e1 = e2 ∧ Zpos m1 ≤ Zpos m2).
Proof.
  unfold SFltb, SFcompare. destruct (Z.compare_spec e1 e2) as [He|He|He]; [|by left|done].
  change (PosDef.Pos.compare_cont Eq m1 m2) with (Z.compare (Zpos m1) (Zpos m2)).
  destruct (Z.compare_spec (Zpos m1) (Zpos m2)); [| |done]; right; lia.
Qed.

Lemma int32_trunc p e :
  Zpos p < 9007199254740992 →
  (e < -22 ∨ (-22 = e ∧ Zpos p ≤ 9007199250546688) → e < 0 ∧ Zpos p / 2 ^ (- e) ≤ MaxInt32) ∧
  (e < -21 ∨ (e = -21 ∧ Zpos p ≤ 4503599627370496) → e < 0 ∧ Zpos p / 2 ^ (- e) ≤ - MinInt32).
Proof.
  intros Hp. unfold MinInt32, MaxInt32. split; (intros [He|[He Hle]]; split; [lia| |lia|]).
  - apply (trunc_bound p e 23 8388608); [lia|reflexivity|lia].
  - apply (trunc_bound p e 22 4194304); [lia|reflexivity|lia].
  - apply (trunc_bound p e 22 4194304); [lia|reflexivity|lia].
  - apply (trunc_bound p e 21 2097152); [lia|reflexivity|lia].
Qed.

Lemma Int32_fromFloat_range bits i : Int32_fromFloat bits = Ok i → MinInt32 ≤ i ≤ MaxInt32.
Proof.
  unfold Int32_fromFloat. rewrite f_of_MaxInt32, f_of_MinInt32.
  destruct (f_view bits) as [s|s| |s p e] eqn:Hf.
  - intros Hi. injection Hi as <-. done.
  - destruct s; discriminate.
  - discriminate.
  - apply f_view_mantissa in Hf as Hp.
    destruct (SFltb _ _) eqn:Hhi; [discriminate|]. destruct (SFltb (S754_finite s p e) _) eqn:Hlo; [discriminate|].
    intros Hi. injection Hi as <-. cbn [f_trunc].
    destruct (int32_trunc p e Hp) as [Hmax Hmin].
    destruct s; [apply SFltb_neg, Hmin in Hlo as [He Hb]|apply SFltb_pos, Hmax in Hhi as [He Hb]];
      rewrite (proj2 (Z.leb_gt _ _)) by lia;
      assert (0 ≤ Zpos p / 2 ^ (- e)) by (apply Z.div_pos; [lia|apply Z.pow_pos_nonneg; lia]);
      unfold MinInt32, MaxInt32 in *; lia.
Qed.

Lemma Int32_fromTime_range t i : Int32_fromTime t = Ok i → MinInt32 ≤ i ≤ MaxInt32.
Proof. unfold Int32_fromTime. case_match eqn:Hc; [done|]. intros ?; simplify_eq. lia. Qed.

(** The type a conversion to [to] produces. *)
Definition convert_id (to : Scalar) (v : Value) : Z :=
  if bool_decide (id to = BytesID) && negb (bool_decide (id (Type_ v) = BytesID)) then StringID else id to.

(** C32: a successful conversion yields a value of the target type (a [String]
    when the target is [bytes]), and integers stay within 32 bits. *)
Theorem Convert_typed to v r :
  int_ok v → Convert to v = Ok r → id (Type_ r) = convert_id to v ∧ int_ok r.
Proof.
  intros Hv. unfold Convert, convert_id. set (k := id to). clearbody k. clear to.
  destruct (Z.eqb_spec k (id (Type_ v))) as [->|Hne].
  { intros [= <-]. by case_bool_decide. }
  destruct (Z.eqb_spec k StringID) as [->|]; [|destruct (Z.eqb_spec k BytesID) as [->|]]; cbn [orb].
  { intros Hr. apply bind_Ok in Hr as (t & _ & [= <-]). by split. }
  { intros Hr. apply bind_Ok in Hr as (t & _ & [= <-]).
    rewrite (bool_decide_false (id (Type_ v) = BytesID)) by congruence. by split. }
  rewrite (bool_decide_false (k = BytesID)) by done. cbn [andb].
  destruct v as [b|i|bits|b|t|s|day|g]; try apply UnmarshalText_type; unfold int_ok in *; by_id k; intros Hr;
    try discriminate Hr; (apply Ok_inj in Hr || apply fmap_Ok in Hr as (a & Ha & Hr)); subst r; (split; [reflexivity|]); intros i' Hi; try discriminate Hi;
    injection Hi as <-.
  - by eapply Int32_fromFloat_range.
  - by destruct b.
  - by eapply Int32_fromTime_range.
  - by eapply Int32_fromTime_range.
Qed.
End types.

(** *** Instances *)
(** A library in which every text, time and geometry is refused, and the local
    zone is [z] seconds east of Greenwich. *)
Definition lib (z : Z) : ValueLib := {|
  zone := λ _, z;
  time_UnmarshalText := λ _, Err "time";
  time_Parse_plain := λ _, Err "time";
  time_MarshalText := λ _, Err "time";
  time_MarshalBinary := λ _, Err "time";
  time_UnmarshalBinary := λ _, Err "time";
  FormatFloat := λ _, [];
  int32_overflow := λ _, 0;
  int64_overflow := λ _, 0;
  Geo := unit;
  wkb_Marshal := λ _, Err "geo";
  wkb_Unmarshal := λ _, Err "geo";
  geojson_Marshal := λ _, Err "geo";
  geojson_Unmarshal := λ _, Err "geo";
|}.


Lemma text_roundtrip_witness :
  text_ok (H := lib 0) (VDate (days_of 2016 2 29)) ∧
  ∃ text, MarshalText (H := lib 0) (VDate (days_of 2016 2 29)) = Ok text ∧
    UnmarshalText (H := lib 0) DateID text = Ok (VDate (H := lib 0) (days_of 2016 2 29)).
Proof.
  assert (text_ok (H := lib 0) (VDate (days_of 2016 2 29))) as Hok by (vm_compute; split; discriminate).
  split; [exact Hok|]. exact (text_roundtrip (H := lib 0) _ Hok).
Defined.

(** The token of -1 sorts after that of 1. *)
Lemma IntIndex_order_witness :
  (MinInt32 ≤ 1 ≤ MaxInt32 ∧ MinInt32 ≤ -1 ≤ MaxInt32) ∧
  ∃ ta tb, IntIndex 1 = [ta] ∧ IntIndex (-1) = [tb] ∧ (bytes_lt ta tb ↔ (1 < -1 ∧ (0 ≤ 1 ∨ -1 < 0)) ∨ (0 ≤ 1 ∧ -1 < 0)).
Proof.
  assert (MinInt32 ≤ 1 ≤ MaxInt32 ∧ MinInt32 ≤ -1 ≤ MaxInt32) as H by (unfold MinInt32, MaxInt32; lia).
  split; [exact H|]. exact (IntIndex_order 1 (-1) (proj1 H) (proj2 H)).
Defined.

(** The float 2147483647 becomes the integer. *)
Lemma Convert_typed_witness :
  Convert (H := lib 0) int32Type (VFloat 0x41DFFFFFFFC00000) = Ok (VInt32 (H := lib 0) 2147483647) ∧
  id (Type_ (H := lib 0) (VInt32 2147483647)) = Int32ID ∧ int_ok (H := lib 0) (VInt32 2147483647).
Proof.
  assert (Convert (H := lib 0) int32Type (VFloat 0x41DFFFFFFFC00000) = Ok (VInt32 (H := lib 0) 2147483647)) as Hc
    by (vm_compute; reflexivity).
  split; [vm_compute; reflexivity|].
  exact (Convert_typed (H := lib 0) int32Type (VFloat 0x41DFFFFFFFC00000) _ (λ i Hi, match Hi with end) Hc).
Defined.
End types.
