(* ===== verification/Geo.v ===== *)
(** Geometries in the index and in queries ([geo/filter.go], [geo/s2index.go],
    [geo/s2.go], [geo/earth.go]).

    The cells, loops and caps of the S2 library and the geometries of [go-geom]
    are the class [S2Lib]; everything the package [geo] builds on them is
    defined here. Geometry values are those of [types.ValueLib]. *)
From Stdlib Require Import SpecFloat.
From S2P Require Import Prelude Bytes Types.
From stdpp Require Import options.
#[local] Open Scope Z_scope.
#[local] Set Default Proof Using "Type*".

Module geo.

(** What [go-geom] tells of a geometry: a point, a polygon with its rings, the
    outer one first, or another kind. A coordinate is [(X, Y)]. *)
Definition Coord : Type := spec_float * spec_float.
Inductive shape : Type :=
| Point_ (p : Coord)
| Polygon_ (rings : list (list Coord))
| Other_.

Class S2Lib `{types.ValueLib} : Type := {
  geom_Stride : types.Geo → Z;
  geom_T : types.Geo → shape;
  Point : Type;
  Loop : Type;
  Cap : Type;
  Rect : Type;
  Cell : Type;
  Crosser : Type;
  (** [PointFromLatLng(LatLngFromDegrees(lat, lng))] and [CellIDFromLatLng] of it. *)
  s2_Point : spec_float → spec_float → Point;
  s2_CellID : spec_float → spec_float → Z;
  Parent : Z → Z → Z;
  Level : Z → Z;
  ToToken : Z → list byte;
  ApproxEqual : Point → Point → bool;
  LoopFromPoints : list Point → Loop;
  NumEdges : Loop → Z;
  Vertex : Loop → Z → Point;
  Vertices : Loop → list Point;
  Loop_ContainsPoint : Loop → Point → bool;
  Loop_CapBound : Loop → Cap;
  Loop_RectBound : Loop → Rect;
  CapFromCenterAngle : Point → spec_float → Cap;
  Cap_ContainsPoint : Cap → Point → bool;
  Cap_Degrees : Cap → spec_float;
  Cap_RectBound : Cap → Rect;
  Cap_ContainsCell : Cap → Cell → bool;
  Cap_IntersectsCell : Cap → Cell → bool;
  Rect_ContainsPoint : Rect → Point → bool;
  Rect_ContainsCell : Rect → Cell → bool;
  Rect_IntersectsCell : Rect → Cell → bool;
  Rect_Intersects : Rect → Rect → bool;
  Rect_Contains : Rect → Rect → bool;
  Cell_Vertex : Cell → nat → Point;
  Cell_RectBound : Cell → Rect;
  Cell_ContainsPoint : Cell → Point → bool;
  NewChainEdgeCrosser : Point → Point → Point → Crosser;
  EdgeOrVertexChainCrossing : Crosser → Point → bool * Crosser;
  (** [RegionCoverer.Covering] of a region, given by its four methods, with the
      levels and the number of cells. *)
  Covering : Cap → Rect → (Cell → bool) → (Cell → bool) → Z → Z → Z → list Z;
}.

Section geo.
Context `{S2Lib}.

(** ** [s2.go] *)
Fixpoint chain_crosses (crosser : Crosser) (vs : list Point) : bool :=
  match vs with
  | [] => false
  | v :: vs => let '(b, crosser) := EdgeOrVertexChainCrossing crosser v in if b then true else chain_crosses crosser vs
  end.

(** The vertices [1 .. NumEdges] of the loop, the last being vertex 0 again. *)
Definition chain (l : Loop) : list Point := (λ i, Vertex l (Z.of_nat i)) <$> seq 1 (Z.to_nat (NumEdges l)).

Definition edgesCrossPoints (l : Loop) (pts : list Point) : bool :=
  match pts with
  | [] => false
  | p0 :: _ =>
      existsb (λ i, chain_crosses (NewChainEdgeCrosser (nth i pts p0) (nth ((i + 1) mod length pts) pts p0) p0) (chain l))
        (seq 0 (length pts))
  end.

Definition edgesCross (l : Loop) (c : Cell) : bool :=
  edgesCrossPoints l [Cell_Vertex c 0; Cell_Vertex c 1; Cell_Vertex c 2; Cell_Vertex c 3].

Definition ContainsCell (l : Loop) (c : Cell) : bool :=
  if negb (Rect_ContainsCell (Loop_RectBound l) c) then false
  else if negb (Loop_ContainsPoint l (Cell_Vertex c 0)) then false
  else negb (edgesCross l c).

Definition IntersectsCell (l : Loop) (c : Cell) : bool :=
  if negb (Rect_IntersectsCell (Loop_RectBound l) c) then false
  else if Loop_ContainsPoint l (Cell_Vertex c 0) then true
  else if edgesCross l c then true
  else if Rect_Contains (Cell_RectBound c) (Loop_RectBound l) then Cell_ContainsPoint c (Vertex l 0)
  else false.

Definition loop_intersects (l loop : Loop) : bool :=
  if negb (Rect_Intersects (Loop_RectBound l) (Loop_RectBound loop)) then false
  else if Loop_ContainsPoint l (Vertex loop 0) then true
  else if edgesCrossPoints l (Vertices loop) then true
  else if Rect_Contains (Loop_RectBound loop) (Loop_RectBound l) then Loop_ContainsPoint loop (Vertex l 0)
  else false.

Definition Intersects (l1 l2 : Loop) : bool :=
  if NumEdges l1 <? NumEdges l2 then loop_intersects l2 l1 else loop_intersects l1 l2.

(** ** [s2index.go] *)
Definition MinCellLevel : Z := 5.
Definition MaxCellLevel : Z := 16.
Definition MaxCells : Z := 18.
Definition parentPrefix : list byte := bs "p/".
Definition coverPrefix : list byte := bs "c/".

Definition appendTokens (toks : list (list byte)) (cu : list Z) (prefix : list byte) : list (list byte) :=
  toks ++ ((λ c, prefix ++ ToToken c) <$> cu).
Definition toTokens (cu : list Z) (prefix : list byte) : list (list byte) := appendTokens [] cu prefix.

Definition parentCoverTokens (parents cover : list Z) : res (list (list byte)) :=
  let tokens := appendTokens [] parents parentPrefix in
  let tokens := appendTokens tokens cover coverPrefix in
  assert_true (length tokens =? length parents + length cover)%nat "%d %d %d";;
  Ok tokens.

Definition pointFromCoord (r : Coord) : Point := s2_Point r.2 r.1.

(** One round of the shoelace sum. *)
Definition shoelace (a : spec_float) (p1 p2 : Coord) : spec_float :=
  SFadd 53 1024 a (SFmul 53 1024 (SFsub 53 1024 p2.1 p1.1) (SFadd 53 1024 p1.2 p2.2)).

Definition isClockwise (r : list Coord) : bool :=
  match r with
  | [] => false
  | p :: r' => SFltb (S754_zero false) (foldl (λ a pq, shoelace a pq.1 pq.2) (S754_zero false) (zip r (r' ++ [p])))
  end.

Definition loopFromRing (r : list Coord) (reverse : bool) : Loop :=
  let n := length r in
  LoopFromPoints (pointFromCoord <$> (if reverse then take (n - 1) (rev r) else take (n - 1) r)).

Definition loopFromPolygon (rings : list (list Coord)) : res Loop :=
  r ← index rings 0;
  if (length r <? 4)%nat then Err "Can't convert ring with less than 4 pts"
  else
    let reverse := isClockwise r in
    let l := loopFromRing r reverse in
    Ok (if SFltb (types.f_of_Z 90) (Cap_Degrees (Loop_CapBound l)) then loopFromRing r (negb reverse) else l).

Definition indexCellsForPoint (p : Coord) (minLevel maxLevel : Z) : res (list Z * list Z) :=
  if maxLevel <? minLevel then Crash "Maxlevel should be greater than minLevel"
  else
    let c := s2_CellID p.2 p.1 in
    Ok ((λ i, Parent c (minLevel + Z.of_nat i)) <$> seq 0 (Z.to_nat (maxLevel - minLevel + 1)), [Parent c maxLevel]).

(** The ancestors of a cell from its own level down to [minLevel]. *)
Definition ancestors (minLevel c : Z) : list Z :=
  (λ i, Parent c (Level c - Z.of_nat i)) <$> seq 0 (Z.to_nat (Level c - minLevel + 1)).

(** The keys of the map of parents, in some order. *)
Definition getParentCells (cu : list Z) (minLevel : Z) : list Z :=
  elements (list_to_set (cu ≫= ancestors minLevel) : gset Z).

Definition coverLoop (l : Loop) (minLevel maxLevel maxCells : Z) : list Z :=
  Covering (Loop_CapBound l) (Loop_RectBound l) (ContainsCell l) (IntersectsCell l) minLevel maxLevel maxCells.

Definition indexCellsForCap (c : Cap) : list Z :=
  Covering c (Cap_RectBound c) (Cap_ContainsCell c) (Cap_IntersectsCell c) MinCellLevel MaxCellLevel MaxCells.

Definition indexCells (g : types.Geo) : res (list Z * list Z) :=
  if negb (geom_Stride g =? 2) then Err "Covering only available for 2D co-ordinates."
  else
    match geom_T g with
    | Point_ p => indexCellsForPoint p MinCellLevel MaxCellLevel
    | Polygon_ rings =>
        l ← loopFromPolygon rings;
        let cover := coverLoop l MinCellLevel MaxCellLevel MaxCells in
        Ok (getParentCells cover MinCellLevel, cover)
    | Other_ => Err "Cannot index geometry of type %T"
    end.

Definition IndexTokens (g : types.Geo) : res (list (list byte)) :=
  ' (parents, cover) ← indexCells g;
  parentCoverTokens parents cover.

(** ** [earth.go] *)
Definition EarthRadiusMeters : Z := 1000 * 6371.
Definition EarthAngle (dist : spec_float) : spec_float := SFdiv 53 1024 dist (types.f_of_Z EarthRadiusMeters).

(** ** [filter.go] *)
Inductive QueryType : Type := QueryTypeWithin | QueryTypeContains | QueryTypeIntersects | QueryTypeNear.

Record QueryData : Type := mkQuery {
  pt : option Point;
  loop : option Loop;
  cap : option Cap;
  qtype : QueryType;
}.

Definition IsGeoFunc (str : list byte) : bool :=
  if bool_decide (str = bs "near") then true
  else if bool_decide (str = bs "contains") then true
  else if bool_decide (str = bs "within") then true
  else if bool_decide (str = bs "intersects") then true
  else false.

Definition nearQueryKeys (pt : Point) (d : spec_float) : res (list (list byte) * QueryData) :=
  if SFleb d (S754_zero false) then Err "Invalid max distance specified for a near query"
  else
    let c := CapFromCenterAngle pt (EarthAngle d) in
    Ok (toTokens (indexCellsForCap c) parentPrefix, mkQuery None None (Some c) QueryTypeNear).

(** Single quotes become double ones. *)
Definition double_quotes (data : list byte) : list byte :=
  (λ b, if bool_decide (b = x27) then x22 else b) <$> data.

(** The point or the loop of a query's geometry. *)
Definition query_region (g : types.Geo) : res (option Point * option Loop) :=
  match geom_T g with
  | Point_ p => Ok (Some (pointFromCoord p), None)
  | Polygon_ rings => l ← loopFromPolygon rings; Ok (None, Some l)
  | Other_ => Err "Cannot query using a geometry of type %T"
  end.

Definition queryTokens (qt : QueryType) (data : list byte) (maxDistance : spec_float) : res (list (list byte) * QueryData) :=
  g ← types.Geo_UnmarshalText (double_quotes data);
  ' (pt, l) ← query_region g;
  ' (parents, cover) ← indexCells g;
  match qt with
  | QueryTypeWithin => Ok (toTokens cover parentPrefix, mkQuery pt l None qt)
  | QueryTypeContains =>
      match l with
      | Some _ => Err "Cannot use a polygon in a contains query"
      | None => Ok (toTokens parents coverPrefix, mkQuery pt None None qt)
      end
  | QueryTypeNear =>
      match l, pt with
      | Some _, _ => Err "Cannot use a polygon in a near query"
      | None, Some p => nearQueryKeys p maxDistance
      | None, None => Crash "nil pointer dereference"
      end
  | QueryTypeIntersects =>
      toks ← parentCoverTokens parents cover;
      Ok (toks, mkQuery pt l None qt)
  end.

(** [strings.ToLower], as far as a comparison with an ASCII word can tell: two
    runes outside ASCII have a lower case in it, the dotted I and the Kelvin
    sign. *)
Fixpoint ToLower (s : list byte) : list byte :=
  match s with
  | xc4 :: xb0 :: s => x69 :: ToLower s
  | xe2 :: x84 :: xaa :: s => x6b :: ToLower s
  | b :: s =>
      (if (65 <=? byte_to_Z b) && (byte_to_Z b <=? 90) then byte_of_Z (byte_to_Z b + 32) else b) :: ToLower s
  | [] => []
  end.

Definition GetTokens (funcArgs : list (list byte)) : res (list (list byte) * QueryData) :=
  assert_true (1 <? length funcArgs)%nat "Invalid function";;
  a0 ← index funcArgs 0;
  let funcName := ToLower a0 in
  if bool_decide (funcName = bs "near") then
    if negb (length funcArgs =? 3)%nat then Err "near function requires 3 arguments, but got %d"
    else
      a2 ← index funcArgs 2;
      maxDist ← types.ParseFloat a2;
      a1 ← index funcArgs 1;
      queryTokens QueryTypeNear a1 maxDist
  else if bool_decide (funcName = bs "within") then
    if negb (length funcArgs =? 2)%nat then Err "within function requires 2 arguments, but got %d"
    else a1 ← index funcArgs 1; queryTokens QueryTypeWithin a1 (S754_zero false)
  else if bool_decide (funcName = bs "contains") then
    if negb (length funcArgs =? 2)%nat then Err "contains function requires 2 arguments, but got %d"
    else a1 ← index funcArgs 1; queryTokens QueryTypeContains a1 (S754_zero false)
  else if bool_decide (funcName = bs "intersects") then
    if negb (length funcArgs =? 2)%nat then Err "intersects function requires 2 arguments, but got %d"
    else a1 ← index funcArgs 1; queryTokens QueryTypeIntersects a1 (S754_zero false)
  else Err "Invalid geo function".

Definition nil_pointer : string := "nil pointer dereference".

Definition isWithin (q : QueryData) (g : types.Geo) : res bool :=
  assert_true (bool_decide (is_Some (pt q)) || bool_decide (is_Some (loop q)) || bool_decide (is_Some (cap q)))
    "At least a point, loop or cap should be defined.";;
  match geom_T g with
  | Point_ gpt =>
      let s2pt := pointFromCoord gpt in
      match pt q, loop q, cap q with
      | Some p, _, _ => Ok (ApproxEqual p s2pt)
      | None, Some l, _ => Ok (Loop_ContainsPoint l s2pt)
      | None, None, Some c => Ok (Cap_ContainsPoint c s2pt)
      | None, None, None => Crash nil_pointer
      end
  | _ => Ok false
  end.

Definition contains (q : QueryData) (g : types.Geo) : res bool :=
  assert_true (bool_decide (is_Some (pt q)) || bool_decide (is_Some (loop q))) "At least a point or loop should be defined.";;
  match loop q with
  | Some _ => Ok false
  | None =>
      match geom_T g with
      | Polygon_ rings =>
          match loopFromPolygon rings with
          | Ok s2loop => match pt q with Some p => Ok (Loop_ContainsPoint s2loop p) | None => Crash nil_pointer end
          | Err _ => Ok false
          | Crash m => Crash m
          end
      | _ => Ok false
      end
  end.

Definition intersects (q : QueryData) (g : types.Geo) : res bool :=
  assert_true (bool_decide (is_Some (pt q)) || bool_decide (is_Some (loop q))) "At least a point or loop should be defined.";;
  match geom_T g with
  | Point_ v =>
      let p := pointFromCoord v in
      match pt q, loop q with
      | Some q, _ => Ok (ApproxEqual q p)
      | None, Some l => Ok (Loop_ContainsPoint l p)
      | None, None => Crash nil_pointer
      end
  | Polygon_ rings =>
      match loopFromPolygon rings with
      | Ok l =>
          match pt q, loop q with
          | Some p, _ => Ok (Loop_ContainsPoint l p)
          | None, Some l' => Ok (Intersects l l')
          | None, None => Crash nil_pointer
          end
      | Err _ => Ok false
      | Crash m => Crash m
      end
  | Other_ => Ok false
  end.

Definition MatchesFilter (q : QueryData) (g : types.Geo) : res bool :=
  match qtype q with
  | QueryTypeWithin => isWithin q g
  | QueryTypeContains => contains q g
  | QueryTypeIntersects => intersects q g
  | QueryTypeNear => match cap q with None => Ok false | Some _ => isWithin q g end
  end.

(** A value of a task: its type and its bytes. *)
Definition value_matches (q : QueryData) (v : Z * list byte) : res bool :=
  if bool_decide (v.2 = []) then Ok false
  else if negb (v.1 mod 256 =? types.GeoID) then Ok false
  else
    match types.Geo_UnmarshalBinary v.2 with
    | Ok g => MatchesFilter q g
    | Err _ => Ok false
    | Crash m => Crash m
    end.

Fixpoint filter_loop (q : QueryData) (uids : list Z) (values : list (Z * list byte)) (rv : list Z) : res (list Z) :=
  match uids, values with
  | u :: uids, v :: values =>
      b ← value_matches q v;
      filter_loop q uids values (if (b : bool) then rv ++ [u] else rv)
  | _, _ => Ok rv
  end.

Definition FilterUids (uids : list Z) (values : list (Z * list byte)) (q : QueryData) : res (list Z) :=
  assert_true (length values =? length uids)%nat "lengths not matching";;
  filter_loop q uids values [].

(** ** What the index finds *)
(** A region given by its methods, as the documentation of [s2.Region] asks:
    both bounds contain it, [ContainsCell] accepts only cells inside it, and
    [IntersectsCell] accepts every cell that meets it. *)
Record describes (cap : Cap) (rect : Rect) (cc ic : Cell → bool) (inside : Point → bool) : Prop := {
  ds_cap p : inside p = true → Cap_ContainsPoint cap p = true;
  ds_rect p : inside p = true → Rect_ContainsPoint rect p = true;
  ds_contains c p : cc c = true → Cell_ContainsPoint c p = true → inside p = true;
  ds_intersects c p : inside p = true → Cell_ContainsPoint c p = true → ic c = true;
}.
End geo.

(** The documented behaviour of S2: cells form a hierarchy, a covering covers
    the region with cells of the levels asked for, and a cap is a region. *)
Class S2Laws `{S2Lib} : Prop := {
  Level_Parent c l : 0 ≤ l ≤ 30 → Level (Parent c l) = l;
  Parent_Parent c l l' : 0 ≤ l ≤ l' → l' ≤ 30 → Parent (Parent c l') l = Parent c l;
  cap_describes c : describes c (Cap_RectBound c) (Cap_ContainsCell c) (Cap_IntersectsCell c) (Cap_ContainsPoint c);
  Covering_covers cap rect cc ic inside mn mx n lat lng :
    describes cap rect cc ic inside → 0 ≤ mn ≤ mx → mx ≤ 30 → 0 < n → inside (s2_Point lat lng) = true →
    ∃ c, c ∈ Covering cap rect cc ic mn mx n ∧ mn ≤ Level c ≤ mx ∧ Parent (s2_CellID lat lng) (Level c) = c;
}.

Section complete.
Context `{S2Laws}.

(** The methods of [loopRegion] describe the loop. *)
Definition loop_region_ok (l : Loop) : Prop :=
  describes (Loop_CapBound l) (Loop_RectBound l) (ContainsCell l) (IntersectsCell l) (Loop_ContainsPoint l).

Definition cell_at (r : Coord) : Z := s2_CellID r.2 r.1.

(** The cells of a point, from the smallest level to the largest. *)
Definition point_cells (r : Coord) : list Z := (λ i, Parent (cell_at r) (5 + Z.of_nat i)) <$> seq 0 12.

Lemma point_cells_elem r l : 5 ≤ l ≤ 16 → Parent (cell_at r) l ∈ point_cells r.
Proof.
  intros Hl. apply list_elem_of_fmap. exists (Z.to_nat (l - 5)). split; [f_equal; lia|]. apply elem_of_seq. lia.
Qed.

Lemma indexCells_point r : indexCellsForPoint r MinCellLevel MaxCellLevel = Ok (point_cells r, [Parent (cell_at r) 16]).
Proof. done. Qed.

Lemma loop_covered l r :
  loop_region_ok l → Loop_ContainsPoint l (pointFromCoord r) = true →
  ∃ c, c ∈ coverLoop l 5 16 18 ∧ 5 ≤ Level c ≤ 16 ∧ Parent (cell_at r) (Level c) = c.
Proof. intros Hl Hin. by eapply Covering_covers. Qed.

Lemma cap_covered c r :
  Cap_ContainsPoint c (pointFromCoord r) = true →
  ∃ x, x ∈ indexCellsForCap c ∧ 5 ≤ Level x ≤ 16 ∧ Parent (cell_at r) (Level x) = x.
Proof. intros Hin. by eapply (Covering_covers _ _ _ _ _ _ _ _ _ _ (cap_describes c)). Qed.

(** A covering cell is among its own parents. *)
Lemma parent_self cover c x :
  c ∈ cover → 5 ≤ Level c ≤ 16 → Parent x (Level c) = c → c ∈ getParentCells cover 5.
Proof.
  intros Hc Hl Hp. unfold getParentCells. apply elem_of_elements, elem_of_list_to_set, list_elem_of_bind. exists c. split; [|done].
  apply list_elem_of_fmap. exists 0%nat. split; [|apply elem_of_seq; lia].
  rewrite Z.sub_0_r. remember (Level c) as L. subst c. by rewrite Parent_Parent by lia.
Qed.

Lemma elem_toTokens c cu prefix : c ∈ cu → prefix ++ ToToken c ∈ toTokens cu prefix.
Proof. intros Hc. unfold toTokens, appendTokens. simpl. apply list_elem_of_fmap. by exists c. Qed.

Lemma parentCoverTokens_elem parents cover toks :
  parentCoverTokens parents cover = Ok toks → toks = toTokens parents parentPrefix ++ toTokens cover coverPrefix.
Proof. unfold parentCoverTokens. intros (_ & _ & [= <-])%bind_Ok. done. Qed.

(** The tokens of a geometry, by its shape. *)
Lemma IndexTokens_inv g toks :
  IndexTokens g = Ok toks → ∃ parents cover, toks = toTokens parents parentPrefix ++ toTokens cover coverPrefix ∧
    match geom_T g with
    | Point_ r => parents = point_cells r ∧ cover = [Parent (cell_at r) 16]
    | Polygon_ rings => ∃ l, loopFromPolygon rings = Ok l ∧ cover = coverLoop l 5 16 18 ∧ parents = getParentCells cover 5
    | Other_ => False
    end.
Proof.
  unfold IndexTokens. intros ([parents cover] & Hc & Ht)%bind_Ok. apply parentCoverTokens_elem in Ht as ->.
  exists parents, cover. split; [done|]. unfold indexCells in Hc. case_match; [done|]. destruct (geom_T g) as [r|rings|]; [|..|done].
  - rewrite indexCells_point in Hc. by simplify_eq.
  - apply bind_Ok in Hc as (l & Hl & Hc). simplify_eq. by exists l.
Qed.

(** The point or loop of a query, with its cells. *)
Inductive region_of : option Point → option Loop → list Z → list Z → Prop :=
| region_point r : region_of (Some (pointFromCoord r)) None (point_cells r) [Parent (cell_at r) 16]
| region_loop l : region_of None (Some l) (getParentCells (coverLoop l 5 16 18) 5) (coverLoop l 5 16 18).

Lemma queryTokens_inv qt data d toks q :
  queryTokens qt data d = Ok (toks, q) → ∃ p l parents cover, region_of p l parents cover ∧
    match qt with
    | QueryTypeWithin => toks = toTokens cover parentPrefix ∧ q = mkQuery p l None qt
    | QueryTypeContains => l = None ∧ toks = toTokens parents coverPrefix ∧ q = mkQuery p None None qt
    | QueryTypeNear => ∃ c, toks = toTokens (indexCellsForCap c) parentPrefix ∧ q = mkQuery None None (Some c) qt
    | QueryTypeIntersects => toks = toTokens parents parentPrefix ++ toTokens cover coverPrefix ∧ q = mkQuery p l None qt
    end.
Proof.
  unfold queryTokens. intros (g0 & _ & Hq)%bind_Ok. apply bind_Ok in Hq as ([p l] & Hr & Hq).
  apply bind_Ok in Hq as ([parents cover] & Hc & Hq). exists p, l, parents, cover. split.
  { unfold query_region in Hr. unfold indexCells in Hc. destruct (negb (geom_Stride g0 =? 2)); [done|]. destruct (geom_T g0) as [r|rings|]; [|..|done].
    - rewrite indexCells_point in Hc. simplify_eq. constructor.
    - apply bind_Ok in Hr as (l1 & Hl & Hr). rewrite Hl in Hc. simpl in Hc. simplify_eq. constructor. }
  destruct qt.
  - by simplify_eq.
  - destruct l; [done|]. by simplify_eq.
  - apply bind_Ok in Hq as (ts & Ht & Hq). apply parentCoverTokens_elem in Ht as ->. by simplify_eq.
  - destruct l; [done|]. destruct p as [p|]; [|done]. unfold nearQueryKeys in Hq. case_match; [done|]. simplify_eq. by eexists.
Qed.

Lemma GetTokens_inv args toks q :
  GetTokens args = Ok (toks, q) → ∃ qt data d, queryTokens qt data d = Ok (toks, q).
Proof.
  unfold GetTokens. intros (_ & _ & Hq)%bind_Ok. apply bind_Ok in Hq as (a0 & _ & Hq). cbv zeta in Hq.
  repeat (case_bool_decide; [case_match; [done|]|]); [|..|done].
  - apply bind_Ok in Hq as (a2 & _ & Hq). apply bind_Ok in Hq as (d & _ & Hq). apply bind_Ok in Hq as (a1 & _ & Hq). by eexists _, _, _.
  - apply bind_Ok in Hq as (a1 & _ & Hq). by eexists _, _, _.
  - apply bind_Ok in Hq as (a1 & _ & Hq). by eexists _, _, _.
  - apply bind_Ok in Hq as (a1 & _ & Hq). by eexists _, _, _.
Qed.

(** Not two points, which are compared up to rounding, and not two polygons. *)
Definition mixed (q : QueryData) (g : types.Geo) : Prop :=
  match geom_T g with Point_ _ => pt q = None | Polygon_ _ => loop q = None | Other_ => True end.

(** The loops involved are described by their methods. *)
Definition regions_ok (q : QueryData) (g : types.Geo) : Prop :=
  (∀ l, loop q = Some l → loop_region_ok l) ∧
  ∀ rings l, geom_T g = Polygon_ rings → loopFromPolygon rings = Ok l → loop_region_ok l.

Lemma shared_parent c parents cover parents' cover' :
  c ∈ parents → c ∈ parents' →
  ∃ t, t ∈ toTokens parents parentPrefix ++ toTokens cover coverPrefix ∧ t ∈ toTokens parents' parentPrefix ++ toTokens cover' coverPrefix.
Proof.
  intros Hp Hp'. exists (parentPrefix ++ ToToken c). split; apply elem_of_app; left; by apply elem_toTokens.
Qed.

(** Any point of a loop shares a parent cell with the loop. *)
Lemma loop_point_parent l r :
  loop_region_ok l → Loop_ContainsPoint l (pointFromCoord r) = true →
  ∃ c, c ∈ point_cells r ∧ c ∈ coverLoop l 5 16 18 ∧ c ∈ getParentCells (coverLoop l 5 16 18) 5.
Proof.
  intros Hl Hin. destruct (loop_covered l r Hl Hin) as (c & Hc & Hlev & Hpar). exists c. split_and!; [|done|].
  - rewrite <-Hpar. by apply point_cells_elem.
  - by eapply parent_self.
Qed.

Lemma within_finds p l parents cover g parents' cover' :
  region_of p l parents cover → mixed (mkQuery p l None QueryTypeWithin) g → regions_ok (mkQuery p l None QueryTypeWithin) g →
  isWithin (mkQuery p l None QueryTypeWithin) g = Ok true →
  match geom_T g with Point_ r => parents' = point_cells r | _ => True end →
  ∃ t, t ∈ toTokens cover parentPrefix ∧ t ∈ toTokens parents' parentPrefix ++ toTokens cover' coverPrefix.
Proof.
  intros Hr Hmix [Hok _] Hw Hg. unfold isWithin in Hw. apply bind_Ok in Hw as (_ & _ & Hw). unfold mixed in Hmix.
  destruct (geom_T g) as [r| |]; [|done|done]. simpl in Hmix. subst p parents'. inversion Hr; subst. simpl in Hw.
  apply Ok_inj in Hw. destruct (loop_point_parent l0 r) as (c & Hc & Hcov & _); [by apply Hok|done|].
  exists (parentPrefix ++ ToToken c). split; [by apply elem_toTokens|]. apply elem_of_app. left. by apply elem_toTokens.
Qed.


(** A query that [GetTokens] accepts has the point, loop or cap its filter
    needs: the assertions of [MatchesFilter] hold. *)
Lemma MatchesFilter_safe args toks q g :
  GetTokens args = Ok (toks, q) → (∀ rings, geom_T g = Polygon_ rings → rings ≠ []) → ∃ b, MatchesFilter q g = Ok b.
Proof.
  intros (qt & data & d & Hq)%GetTokens_inv Hrings.
  assert (∀ rings m, geom_T g = Polygon_ rings → loopFromPolygon rings ≠ Crash m) as Hpoly.
  { intros [|r rings] m Hg; [by destruct (Hrings _ Hg)|]. unfold loopFromPolygon. simpl. by case_match. }
  apply queryTokens_inv in Hq as (p & l & parents & cover & Hr & Hq).
  destruct qt; [destruct Hq as [_ ->]|destruct Hq as (-> & _ & ->)|destruct Hq as [_ ->]|destruct Hq as (c & _ & ->)];
    inversion Hr; subst; unfold MatchesFilter, isWithin, contains, intersects; simpl;
    destruct (geom_T g) as [|rings|] eqn:Hg; eauto;
    destruct (loopFromPolygon rings) eqn:Hl; eauto; by destruct (Hpoly rings m eq_refl).
Qed.

(** [FilterUids] keeps the uids whose value matches, in order. *)
Lemma filter_loop_spec q uids values rv (ok : Z * list byte → bool) :
  length values = length uids → Forall (λ v, value_matches q v = Ok (ok v)) values →
  filter_loop q uids values rv = Ok (rv ++ (filter (λ uv, ok uv.2 = true) (zip uids values)).*1).
Proof.
  intros Hlen Hok. revert uids rv Hlen. induction Hok as [|v values Hv Hok IH]; intros [|u uids] rv Hlen; try done; cbn [filter_loop].
  { by rewrite app_nil_r. }
  rewrite Hv. cbn [mbind res_bind]. rewrite IH by (simpl in Hlen; lia). simpl. rewrite filter_cons. simpl.
  destruct (ok v); simpl; [by rewrite <-app_assoc|done].
Qed.

Lemma FilterUids_spec uids values q (ok : Z * list byte → bool) :
  length values = length uids → Forall (λ v, value_matches q v = Ok (ok v)) values →
  FilterUids uids values q = Ok (filter (λ uv, ok uv.2 = true) (zip uids values)).*1.
Proof.
  intros Hlen Hok. unfold FilterUids. rewrite (proj2 (Nat.eqb_eq _ _) Hlen). simpl. by rewrite (filter_loop_spec _ _ _ _ ok).
Qed.
End complete.

(** ** The edges a crossing test looks at *)
Section crossing.
Context `{S2Lib} (cross : Point → Point → Point → Point → bool) (state : Crosser → Point * Point * Point).
Context (Hnew : ∀ a b c, state (NewChainEdgeCrosser a b c) = (a, b, c)).
Context (Hstep : ∀ x v, let '(a, b, c) := state x in
  (EdgeOrVertexChainCrossing x v).1 = cross a b c v ∧ state (EdgeOrVertexChainCrossing x v).2 = (a, b, v)).

Fixpoint edges (from : Point) (vs : list Point) : list (Point * Point) :=
  match vs with
  | [] => []
  | v :: vs => (from, v) :: edges v vs
  end.

Lemma chain_crosses_edges x vs :
  let '(a, b, c) := state x in chain_crosses x vs = existsb (λ e, cross a b e.1 e.2) (edges c vs).
Proof.
  revert x. induction vs as [|v vs IH]; intros x; [by destruct (state x) as [[a b] c]|].
  pose proof (Hstep x v) as Hx. destruct (state x) as [[a b] c]. simpl. specialize (IH (EdgeOrVertexChainCrossing x v).2).
  destruct (EdgeOrVertexChainCrossing x v) as [r y]. simpl in *. destruct Hx as [-> Hy]. rewrite Hy in IH. rewrite IH.
  by destruct (cross a b c v).
Qed.

(** The chain starts at the first of the points and not at vertex 0 of the loop,
    whose first edge is never looked at. *)
Lemma edgesCrossPoints_edges l p0 pts :
  edgesCrossPoints l (p0 :: pts) =
  existsb (λ i, existsb (λ e, cross (nth i (p0 :: pts) p0) (nth ((i + 1) mod S (length pts)) (p0 :: pts) p0) e.1 e.2)
                  (edges p0 (chain l))) (seq 0 (S (length pts))).
Proof.
  unfold edgesCrossPoints. change (length (p0 :: pts)) with (S (length pts)).
  induction (seq 0 (S (length pts))) as [|i js IH]; [done|]. cbn [existsb]. rewrite IH. f_equal.
  pose proof (chain_crosses_edges (NewChainEdgeCrosser (nth i (p0 :: pts) p0) (nth ((i + 1) mod S (length pts)) (p0 :: pts) p0) p0) (chain l)) as Hc.
  rewrite Hnew in Hc. exact Hc.
Qed.
End crossing.

(** ** An instance *)
(** A library with one cell per level, every region being everything. *)
Definition ex_values : types.ValueLib := {|
  types.zone := λ _, 0;
  types.time_UnmarshalText := λ _, Err "time";
  types.time_Parse_plain := λ _, Err "time";
  types.time_MarshalText := λ _, Err "time";
  types.time_MarshalBinary := λ _, Err "time";
  types.time_UnmarshalBinary := λ _, Err "time";
  types.FormatFloat := λ _, [];
  types.int32_overflow := λ _, 0;
  types.int64_overflow := λ _, 0;
  types.Geo := shape;
  types.wkb_Marshal := λ _, Err "geo";
  types.wkb_Unmarshal := λ _, Err "geo";
  types.geojson_Marshal := λ _, Err "geo";
  types.geojson_Unmarshal := λ _, Ok (Point_ (types.f_of_Z 1, types.f_of_Z 2));
|}.
#[local] Existing Instance ex_values.
Definition ex_s2 : S2Lib := {|
  geom_Stride := λ _, 2;
  geom_T := λ g, g;
  Point := Coord;
  Loop := list Coord;
  Cap := Coord;
  Rect := unit;
  Cell := unit;
  Crosser := unit;
  s2_Point := λ lat lng, (lat, lng);
  s2_CellID := λ _ _, 30;
  Parent := λ _ l, l;
  Level := λ c, c;
  ToToken := λ c, [byte_of_Z c];
  ApproxEqual := λ p q, SFeqb p.1 q.1 && SFeqb p.2 q.2;
  LoopFromPoints := λ ps, ps;
  NumEdges := λ l, Z.of_nat (length l);
  Vertex := λ l i, nth (Z.to_nat i mod length l) l (S754_nan, S754_nan);
  Vertices := λ l, l;
  Loop_ContainsPoint := λ _ _, true;
  Loop_CapBound := λ l, (S754_nan, S754_nan);
  Loop_RectBound := λ _, ();
  CapFromCenterAngle := λ p _, p;
  Cap_ContainsPoint := λ _ _, true;
  Cap_Degrees := λ _, types.f_of_Z 1;
  Cap_RectBound := λ _, ();
  Cap_ContainsCell := λ _ _, false;
  Cap_IntersectsCell := λ _ _, true;
  Rect_ContainsPoint := λ _ _, true;
  Rect_ContainsCell := λ _ _, true;
  Rect_IntersectsCell := λ _ _, true;
  Rect_Intersects := λ _ _, true;
  Rect_Contains := λ _ _, true;
  Cell_Vertex := λ _ _, (S754_nan, S754_nan);
  Cell_RectBound := λ _, ();
  Cell_ContainsPoint := λ _ _, true;
  NewChainEdgeCrosser := λ _ _ _, ();
  EdgeOrVertexChainCrossing := λ x _, (false, x);
  Covering := λ _ _ _ _ mn _ _, [mn];
|}.
#[local] Existing Instance ex_s2.

Lemma ex_s2_laws : S2Laws.
Proof.
  split; [done|done|by split|]. intros cap rect cc ic inside mn mx n lat lng _ Hl _ _ _. exists mn. simpl. split; [apply list_elem_of_here|].
  split; [lia|done].
Qed.

Definition ex_args : list (list byte) := [bs "near"; bs "point"; bs "100"].

Definition ex_geo : @types.Geo ex_values := Point_ (types.f_of_Z 3, types.f_of_Z 4).

End geo.
