(* ===== verification/Group.v ===== *)
(** Which group serves a predicate ([group/conf.go]).

    The configuration is read line by line: group lines [id: pred, pred*], ids
    in sequence from 0, then optionally [default: fp % n + k]. A predicate
    belongs to the first pattern that matches it, or to the group its
    fingerprint selects. *)
From S2P Require Import Prelude Bytes Strconv.
From stdpp Require Import options.
#[local] Open Scope Z_scope.
#[local] Set Default Proof Using "Type*".

Module group.
Import strconv.

Record predMeta : Type := mkMeta { val : list byte; exactMatch : bool; gid : Z }.
Record config : Type := mkConfig { n : Z; k : Z; pred : list predMeta }.

Definition emptyConfig : config := mkConfig 0 0 [].
Definition set_n (v : Z) (c : config) : config := mkConfig v (k c) (pred c).
Definition set_k (v : Z) (c : config) : config := mkConfig (n c) v (pred c).
Definition set_pred (v : list predMeta) (c : config) : config := mkConfig (n c) (k c) v.

(** [strings.TrimSuffix(s, "*")], when the suffix is there. *)
Definition cut_star (s : list byte) : option (list byte) :=
  match rev s with
  | x2a :: r => Some (rev r)
  | _ => None
  end.

Definition parse_pred (groupId : Z) (p : list byte) : predMeta :=
  let p := TrimSpace p in
  match cut_star p with
  | Some v => mkMeta v false groupId
  | None => mkMeta p true groupId
  end.

Definition parsePredicates (groupId : Z) (p : list byte) (c : config) : res config :=
  let preds := Split x2c p in
  assert_true (0 <? length preds)%nat "Length of predicates in config should be > 0";;
  Ok (set_pred (pred c ++ (parse_pred groupId <$> preds)) c).

Definition parseDefaultConfig (l : list byte) (c : config) : res (Z * config) :=
  if negb (n c =? 0) then Err "Default config can only be defined once: %v"
  else
    let conf := Split x20 (TrimSpace l) in
    let len := length conf in
    if negb ((len =? 5)%nat || (len =? 3)%nat) || negb (bool_decide (conf !! 0%nat = Some (bs "fp")))
       || negb (bool_decide (conf !! 1%nat = Some (bs "%")))
    then Err "Default config format should be like: %v"
    else
      w ← index conf 2;
      v ← x_Check (ParseUint w 10 64);
      let c := set_n v c in
      assert_true (negb (n c =? 0)) "Assert failed";;
      if (len =? 5)%nat then
        plus ← index conf 3;
        if negb (bool_decide (plus = bs "+")) then Err "Default config format should be like: %v"
        else
          w ← index conf 4;
          v ← x_Check (ParseUint w 10 64);
          Ok (v, set_k v c)
      else Ok (k c, c).

(** The variables of [parseConfig]'s loop. *)
Record pstate : Type := mkP { curGroupId : Z; seenDefault : bool; conf : config }.

Definition parse_line (l : list byte) (st : pstate) : res pstate :=
  if bool_decide (l = []) || HasPrefix l (bs "//") then Ok st
  else
    let c := Split x3a l in
    if (length c <? 2)%nat then Err "Incorrect format for config line: %v"
    else
      c0 ← index c 0;
      c1 ← index c 1;
      if bool_decide (c0 = bs "default") then
        ' (k, cfg) ← parseDefaultConfig c1 (conf st);
        let st := mkP (curGroupId st) true cfg in
        if k =? 0 then Ok st
        else if curGroupId st <? k then Err "k in (fp mod N + k) should be <= the last groupno %v."
        else Ok st
      else if seenDefault st then Err "Default config should be specified as the last line. Found %v"
      else
        groupId ← x_Check (ParseUint c0 10 64);
        if negb (curGroupId st =? groupId) then Err "Group ids should be sequential and should start from 0. Found %v, should have been %v"
        else
          cfg ← parsePredicates (u32 groupId) c1 (conf st);
          Ok (mkP (u64 (curGroupId st + 1)) (seenDefault st) cfg).

Fixpoint parseConfig (lines : list (list byte)) (st : pstate) : res pstate :=
  match lines with
  | [] => Ok st
  | l :: lines => st ← parse_line l st; parseConfig lines st
  end.

(** [None] is a file that does not exist. *)
Definition ParseGroupConfig (file : option (list (list byte))) : res config :=
  match file with
  | None => Ok (set_n 1 emptyConfig)
  | Some lines =>
      st ← parseConfig lines (mkP 0 false emptyConfig);
      if n (conf st) =? 0 then Err "Cant take modulo 0." else Ok (conf st)
  end.

Section belongs.
Context (Fingerprint32 : list byte → Z).

Definition fpGroup (c : config) (p : list byte) : res Z :=
  if u32 (n c) =? 0 then Crash "integer divide by zero"
  else Ok (u32 (Fingerprint32 p mod u32 (n c) + u32 (k c))).

Definition matches (m : predMeta) (p : list byte) : bool :=
  if exactMatch m then bool_decide (val m = p) else HasPrefix p (val m).

Fixpoint first_match (ms : list predMeta) (p : list byte) : option Z :=
  match ms with
  | [] => None
  | m :: ms => if matches m p then Some (gid m) else first_match ms p
  end.

Definition BelongsTo (c : config) (p : list byte) : res Z :=
  match first_match (pred c) p with
  | Some g => Ok g
  | None => fpGroup c p
  end.
End belongs.

(** ** The configuration that is accepted *)
Lemma ParseUint_nonneg s w v : ParseUint s 10 w = Ok v → 0 ≤ v.
Proof.
  unfold ParseUint. destruct s as [|b t]; [done|]. change (10 =? 0) with false. cbv iota.
  apply digits_loop_ge; lia.
Qed.

(** Groups so far are [0 .. curGroupId - 1], and the default's offset is not
    beyond them. *)
Definition pinv (lines : nat) (st : pstate) : Prop :=
  0 ≤ curGroupId st ≤ Z.of_nat lines ∧ 0 ≤ n (conf st) ∧ 0 ≤ k (conf st) ≤ curGroupId st ∧
  Forall (λ m, ∃ id, gid m = u32 id ∧ 0 ≤ id < curGroupId st) (pred (conf st)).

Lemma parsePredicates_inv g p c c' :
  parsePredicates g p c = Ok c' →
  n c' = n c ∧ k c' = k c ∧ ∃ ms, pred c' = pred c ++ ms ∧ Forall (λ m, gid m = g) ms.
Proof.
  unfold parsePredicates, assert_true. case_match; [|done]. simpl. intros [= <-]. simpl. split_and!; [done|done|].
  eexists. split; [done|]. apply Forall_fmap, Forall_true. intros x. unfold compose, parse_pred. by case_match.
Qed.

Lemma parseDefaultConfig_inv l c v c' :
  parseDefaultConfig l c = Ok (v, c') → 0 ≤ k c →
  0 < n c' ∧ 0 ≤ v ∧ k c' = v ∧ pred c' = pred c.
Proof.
  unfold parseDefaultConfig. intros Hp Hk. do 2 (case_match; [done|]).
  apply bind_Ok in Hp as (w & _ & Hp). apply bind_Ok in Hp as (nv & Hn & Hp). apply x_Check_Ok, ParseUint_nonneg in Hn.
  apply bind_Ok in Hp as ([] & Ha & Hp). unfold assert_true in Ha. destruct (negb (n (set_n nv c) =? 0)) eqn:Hz; [|done]. simpl in *.
  apply negb_true_iff, Z.eqb_neq in Hz.
  destruct (_ =? 5)%nat.
  - apply bind_Ok in Hp as (plus & _ & Hp). case_match; [done|].
    apply bind_Ok in Hp as (w' & _ & Hp). apply bind_Ok in Hp as (kv & Hkv & Hp).
    apply x_Check_Ok, ParseUint_nonneg in Hkv. simplify_eq/=. split_and!; [lia|done|done|done].
  - simplify_eq/=. split_and!; [lia|done|done|done].
Qed.

Lemma parse_line_inv cnt l st st' :
  Z.of_nat (S cnt) < two64 → pinv cnt st → parse_line l st = Ok st' → pinv (S cnt) st'.
Proof.
  intros Hcnt (Hcur & Hn & Hk & Hms) Hp. unfold parse_line in Hp.
  case_match; [simplify_eq; by (split_and!; [lia|lia|done|lia|lia|done])|]. case_match; [done|].
  apply bind_Ok in Hp as (c0 & _ & Hp). apply bind_Ok in Hp as (c1 & _ & Hp). case_bool_decide.
  - apply bind_Ok in Hp as ([kv cfg] & Hd & Hp). apply parseDefaultConfig_inv in Hd as (Hn' & Hv & Hkv & Hpr); [|lia].
    simpl in Hp.
    assert (st' = mkP (curGroupId st) true cfg ∧ kv ≤ curGroupId st) as [-> Hle].
    { repeat case_match; simplify_eq; split; try done; lia. }
    split_and!; simpl; try lia. by rewrite Hpr.
  - case_match; [done|]. apply bind_Ok in Hp as (g & Hg & Hp). apply x_Check_Ok, ParseUint_nonneg in Hg.
    case_match eqn:Hcg; [done|]. apply negb_false_iff, Z.eqb_eq in Hcg. apply bind_Ok in Hp as (cfg & Hc & Hp).
    apply parsePredicates_inv in Hc as (Hn' & Hk' & ms & Hpr & Hg'). simplify_eq/=.
    rewrite u64_small by lia.
    split_and!; simpl; try lia. rewrite Hpr. apply Forall_app. split.
    + eapply Forall_impl; [exact Hms|]. intros m (id & ? & ?). exists id. split; [done|lia].
    + eapply Forall_impl; [exact Hg'|]. intros m ->. exists (curGroupId st). split; [done|lia].
Qed.

Lemma parseConfig_inv lines cnt st st' :
  Z.of_nat (cnt + length lines) < two64 → pinv cnt st → parseConfig lines st = Ok st' →
  pinv (cnt + length lines) st'.
Proof.
  revert cnt st. induction lines as [|l lines IH]; intros cnt st Hlen Hst Hp; simpl in *.
  { simplify_eq. by rewrite Nat.add_0_r. }
  apply bind_Ok in Hp as (st1 & H1 & Hp). rewrite <-Nat.add_succ_comm in *.
  eapply IH; [done| |done]. eapply parse_line_inv; [|done|done]. lia.
Qed.

Lemma first_match_elem ms p g : first_match ms p = Some g → ∃ m, m ∈ ms ∧ gid m = g ∧ matches m p = true.
Proof.
  induction ms as [|m ms IH]; simpl; [done|]. case_match.
  - intros [= <-]. exists m. split; [apply list_elem_of_here|done].
  - intros (m' & ? & ?)%IH. exists m'. split; [by apply list_elem_of_further|done].
Qed.


(** Two group lines and a default that is a multiple of 2^32: the group of an
    unlisted predicate divides by zero. *)
Definition bad_config : list (list byte) :=
  [bs "0: name, film*"; bs "1: age"; bs "default: fp % 4294967296"].


Lemma bad_config_crashes :
  ∃ c, ParseGroupConfig (Some bad_config) = Ok c ∧
    BelongsTo (λ _, 7) c (bs "director") = Crash "integer divide by zero".
Proof. eexists. split; [vm_compute; reflexivity|vm_compute; reflexivity]. Qed.
End group.
