(* ===== verification/Lex.v ===== *)
(** The scanner the three lexers share ([lex/lexer.go]).

    A lexer is a set of state functions on a [Lexer]; each returns the next
    state or [nil]. Items go to a channel, here the list of items sent. The
    class [LexProgress] is what a lexer owes the scanner; from it follows that
    the run loop ends for every input, that no slice expression is out of range,
    that the last item is [ItemEOF] or [ItemError], and that the items are
    pieces of the input in order. *)
From S2P Require Import Prelude Bytes.
From stdpp Require Import options.
#[local] Open Scope Z_scope.
#[local] Set Default Proof Using "Type*".

Module lex.
Definition EOF : Z := -1.

Definition ItemEOF : Z := 0.
Definition ItemError : Z := 1.

Record item : Type := mkItem { Typ : Z; Val : list byte }.

#[export] Instance item_eq_dec : EqDecision item.
Proof. solve_decision. Defined.

Record Lexer : Type := mkLexer {
  Input : list byte;
  Start : Z;
  Pos : Z;
  Width : Z;
  Items : list item;
  Depth : Z;
  FilterDepth : Z;
  Mode : Z;
}.

Definition move (pos width : Z) (l : Lexer) : Lexer :=
  mkLexer (Input l) (Start l) pos width (Items l) (Depth l) (FilterDepth l) (Mode l).
Definition set_start (start : Z) (l : Lexer) : Lexer :=
  mkLexer (Input l) start (Pos l) (Width l) (Items l) (Depth l) (FilterDepth l) (Mode l).
Definition send (i : item) (l : Lexer) : Lexer :=
  mkLexer (Input l) (Start l) (Pos l) (Width l) (Items l ++ [i]) (Depth l) (FilterDepth l) (Mode l).
Definition add_Depth (d : Z) (l : Lexer) : Lexer :=
  mkLexer (Input l) (Start l) (Pos l) (Width l) (Items l) (Depth l + d) (FilterDepth l) (Mode l).
Definition add_FilterDepth (d : Z) (l : Lexer) : Lexer :=
  mkLexer (Input l) (Start l) (Pos l) (Width l) (Items l) (Depth l) (FilterDepth l + d) (Mode l).
Definition set_Mode (m : Z) (l : Lexer) : Lexer :=
  mkLexer (Input l) (Start l) (Pos l) (Width l) (Items l) (Depth l) (FilterDepth l) m.

(** [Init] of a new [Lexer]. *)
Definition Init (input : list byte) : Lexer := mkLexer input 0 0 0 [] 0 0 0.

(** [Errorf] sends an error item; its message is kept as the format string. *)
Definition Errorf (format : string) (l : Lexer) : Lexer := send (mkItem ItemError (bs format)) l.

Definition Emit (t : Z) (l : Lexer) : res Lexer :=
  if negb (t =? ItemEOF) && (Pos l <? Start l) then Ok l
  else v ← slice (Input l) (Start l) (Pos l); Ok (set_start (Pos l) (send (mkItem t v) l)).

Definition len (l : Lexer) : Z := Z.of_nat (length (Input l)).

Definition Next (l : Lexer) : res (Z * Lexer) :=
  if len l <=? Pos l then Ok (EOF, move (Pos l) 0 l)
  else
    s ← slice (Input l) (Pos l) (len l);
    let '(r, w) := DecodeRune s in
    Ok (r, move (Pos l + Z.of_nat w) (Z.of_nat w) l).

Definition Backup (l : Lexer) : Lexer := move (Pos l - Width l) (Width l) l.

Definition Peek (l : Lexer) : res (Z * Lexer) := ' (r, l) ← Next l; Ok (r, Backup l).

Definition Ignore (l : Lexer) : Lexer := set_start (Pos l) l.

(** The loops over the input run at most once per byte and once at its end. *)
Definition bound (l : Lexer) : nat := S (length (Input l)).

Definition AcceptRun (c : Z → bool) (l : Lexer) : res Lexer :=
  l ← for_loop (bound l) (λ l,
    ' (r, l) ← Next l;
    Ok (if (r =? EOF) || negb (c r) then Return l else Continue l)) l;
  Ok (Backup l).

Definition AcceptUntil (c : Z → bool) (l : Lexer) : res Lexer :=
  l ← for_loop (bound l) (λ l,
    ' (r, l) ← Next l;
    Ok (if (r =? EOF) || c r then Return l else Continue l)) l;
  Ok (Backup l).

(** A state function's [for { ... }]: go round again, or return a state. *)
Definition loop {S} (body : Lexer → res (flow Lexer (option S * Lexer))) (l : Lexer) :
    res (option S * Lexer) :=
  for_loop (bound l) body l.

Definition again {S} (l : Lexer) : res (flow Lexer (option S * Lexer)) := Ok (Continue l).
Definition goto {X S} (s : S) (l : Lexer) : res (flow X (option S * Lexer)) :=
  Ok (Return (Some s, l)).
Definition stop {X S} (l : Lexer) : res (flow X (option S * Lexer)) := Ok (Return (None, l)).

(** [for state := start; state != nil; { state = state(l) }], and the items
    sent by the time the channel is closed. *)
Fixpoint run_loop {S} (fuel : nat) (exec : S → Lexer → res (option S * Lexer)) (s : S) (l : Lexer) :
    res Lexer :=
  match fuel with
  | O => Crash out_of_fuel
  | Datatypes.S fuel =>
      ' (o, l) ← exec s l;
      match o with
      | None => Ok l
      | Some s => run_loop fuel exec s l
      end
  end.

Definition run_lexer {S} (exec : S → Lexer → res (option S * Lexer)) (start : S) (input : list byte) :
    res (list item) :=
  l ← run_loop (3 * length input + 3) exec start (Init input); Ok (Items l).

Lemma run_loop_mono {S} n m (exec : S → Lexer → res (option S * Lexer)) s l l' :
  run_loop n exec s l = Ok l' → (n ≤ m)%nat → run_loop m exec s l = Ok l'.
Proof.
  revert m s l. induction n as [|n IH]; intros [|m] s l Hr Hm; try done; [lia|]. cbn [run_loop] in *.
  apply bind_Ok in Hr as ([[s'|] l1] & -> & Hr); simpl; [apply IH; [done|lia]|done].
Qed.

(** ** The scanner's invariant *)

(** [embeds vs s]: the pieces [vs] occur in [s], in order and disjoint. *)
Inductive embeds : list (list byte) → list byte → Prop :=
| embeds_nil s : embeds [] s
| embeds_cons gap v vs s : embeds vs s → embeds (v :: vs) (gap ++ v ++ s).

Lemma embeds_app vs s t : embeds vs s → embeds vs (s ++ t).
Proof. induction 1; [constructor|]. rewrite <-!app_assoc. by constructor. Qed.

Lemma embeds_snoc vs s v : embeds vs s → embeds (vs ++ [v]) (s ++ v).
Proof.
  induction 1 as [s|gap v' vs s Hvs IH]; simpl.
  - rewrite <-(app_nil_r v) at 2. apply (embeds_cons s v [] []). constructor.
  - rewrite <-!app_assoc. by constructor.
Qed.

(** The text of the items that are not error messages. *)
Definition texts (its : list item) : list (list byte) := Val <$> filter (λ i, Typ i ≠ ItemError) its.

Lemma texts_snoc its i :
  texts (its ++ [i]) = texts its ++ if decide (Typ i = ItemError) then [] else [Val i].
Proof.
  unfold texts. rewrite filter_app, fmap_app, filter_cons. f_equal.
  repeat case_decide; done.
Qed.

Definition ok_at (input : list byte) (start pos : Z) (its : list item) : Prop :=
  0 ≤ start ≤ pos ∧ pos ≤ Z.of_nat (length input) ∧ embeds (texts its) (take (Z.to_nat start) input).

Definition lexinv (l : Lexer) : Prop := ok_at (Input l) (Start l) (Pos l) (Items l).

Definition remaining (l : Lexer) : Z := len l - Pos l.

(** The rune at the position, [EOF] at the end. *)
Definition ahead (input : list byte) (pos : Z) : Z :=
  if Z.of_nat (length input) <=? pos then EOF else (DecodeRune (drop (Z.to_nat pos) input)).1.

Lemma DecodeRune_not_EOF s : (DecodeRune s).1 ≠ EOF.
Proof.
  unfold DecodeRune, EOF. destruct s as [|b t]; [done|].
  pose proof (byte_to_Z_range b).
  assert (∀ x y, 0 ≤ x → 0 ≤ y → Z.lor x y ≠ -1) as Hlor.
  { intros x y Hx Hy Heq. pose proof (proj2 (Z.lor_nonneg x y) (conj Hx Hy)). lia. }
  assert (∀ b', 0 ≤ cbits b') as Hc.
  { intros b'. unfold cbits. apply Z.land_nonneg. right. lia. }
  assert (∀ m, 0 ≤ m → 0 ≤ Z.land (byte_to_Z b) m) as Hl by (intros; apply Z.land_nonneg; lia).
  repeat (case_match; simpl; try done; try lia);
    repeat first [apply Hlor | apply Z.lor_nonneg; split | apply Z.shiftl_nonneg | apply Hc
      | apply Hl; lia].
Qed.

Lemma wp_Next (l : Lexer) (Q : Z * Lexer → Prop) :
  lexinv l →
  (ahead (Input l) (Pos l) = EOF → Pos l = len l → Q (EOF, move (Pos l) 0 l)) →
  (∀ r w, r = ahead (Input l) (Pos l) → r ≠ EOF → 0 < w → Pos l + w ≤ len l →
    lexinv (move (Pos l + w) w l) → Q (r, move (Pos l + w) w l)) →
  wp (Next l) Q.
Proof.
  intros (H1 & H2 & H3) HE HR. unfold Next, len in *. pose proof (DecodeRune_not_EOF (drop (Z.to_nat (Pos l)) (Input l))) as Hne.
  assert (Hah : ahead (Input l) (Pos l) = if Z.of_nat (length (Input l)) <=? Pos l then EOF
    else (DecodeRune (drop (Z.to_nat (Pos l)) (Input l))).1) by done.
  destruct (Z.leb_spec (Z.of_nat (length (Input l))) (Pos l)) as [Hle|Hlt].
  - apply wp_Ok, HE; [done|lia].
  - apply wp_bind. rewrite slice_ok by lia. apply wp_Ok.
    assert (drop (Z.to_nat (Pos l)) (Input l) ≠ []) as Hnil.
    { intros Hd. apply (f_equal length) in Hd. rewrite length_drop in Hd. simpl in Hd. lia. }
    rewrite take_ge by (rewrite length_drop; lia).
    pose proof (DecodeRune_width _ Hnil) as Hw. rewrite length_drop in Hw.
    destruct (DecodeRune _) as [r w]; simpl in *. apply wp_Ok, HR; [done|done|lia|lia|].
    split; [simpl; lia|]. split; [simpl; lia|done].
Qed.

Lemma wp_Emit t (l : Lexer) (Q : Lexer → Prop) :
  lexinv l → t ≠ ItemError →
  (∀ v, Z.of_nat (length v) = Pos l - Start l →
    lexinv (set_start (Pos l) (send (mkItem t v) l)) →
    Q (set_start (Pos l) (send (mkItem t v) l))) →
  wp (Emit t l) Q.
Proof.
  intros (H1 & H2 & H3) Ht HQ. unfold Emit. rewrite (proj2 (Z.ltb_ge _ _)) by lia.
  rewrite andb_false_r. apply wp_bind. rewrite slice_ok by lia. apply wp_Ok, wp_Ok, HQ.
  { rewrite length_take, length_drop. lia. }
  split; [simpl; lia|]. split; [simpl; lia|]. simpl. rewrite texts_snoc. simpl.
  rewrite decide_False by done. rewrite (take_move _ (Start l) (Pos l)) by lia. by apply embeds_snoc.
Qed.

Lemma lexinv_Ignore l : lexinv l → lexinv (Ignore l).
Proof.
  intros (H1 & H2 & H3). split; [simpl; lia|]. split; [simpl; lia|]. simpl.
  rewrite (take_move _ (Start l) (Pos l)) by lia. by apply embeds_app.
Qed.

Lemma lexinv_Errorf m l : lexinv l → lexinv (Errorf m l).
Proof.
  intros (H1 & H2 & H3). split; [simpl; lia|]. split; [simpl; lia|]. simpl.
  rewrite texts_snoc. simpl. by rewrite app_nil_r.
Qed.

(** The loops of the scanner stop at the first rune that ends them. *)
Lemma wp_scan (c : Z → bool) (l : Lexer) (Q : Lexer → Prop) :
  lexinv l →
  (∀ p w, Pos l ≤ p ≤ len l → 0 ≤ w → lexinv (move p w l) →
    (ahead (Input l) (Pos l) ≠ EOF → c (ahead (Input l) (Pos l)) = false → Pos l < p) → Q (move p w l)) →
  wp (l ← for_loop (bound l) (λ l,
        ' (r, l) ← Next l; Ok (if (r =? EOF) || c r then Return l else Continue l)) l;
      Ok (Backup l)) Q.
Proof.
  intros Hl HQ. apply wp_bind.
  apply (wp_for_loop (λ l', ∃ p w, Pos l ≤ p ∧ l' = move p w l ∧ lexinv l') (λ l, Z.to_nat (remaining l))).
  - intros l' (p & w & Hp & -> & Hl'). pose proof Hl' as (? & ? & _). simpl in *. apply wp_bind. apply wp_Next; [done|..].
    + intros Hah Hend. simpl in Hah, Hend. apply wp_Ok. simpl.
      apply wp_Ok. unfold Backup. simpl. unfold len in *. simpl in *. rewrite Z.sub_0_r.
      apply (HQ _ _); [lia|lia|done|]. intros Hne _. destruct (decide (p = Pos l)) as [->|]; [|lia].
      by destruct Hne.
    + intros r w' Hr Hne Hw Hlen Hl''. apply wp_Ok. rewrite (proj2 (Z.eqb_neq r EOF)) by done. simpl in *. unfold len in *. simpl in *.
      destruct (c r) eqn:Hc.
      * apply wp_Ok. unfold Backup. simpl. rewrite Z.add_simpl_r. apply (HQ p w'); [lia|lia|done|].
        intros _ Hc'. destruct (decide (p = Pos l)) as [->|]; [|lia]. rewrite <-Hr, Hc in Hc'. done.
      * split; [|unfold remaining, len; simpl; lia].
        exists (p + w'), w'. split; [lia|done].
  - exists (Pos l), (Width l). split; [lia|]. split; [by destruct l|done].
  - unfold remaining, bound, len. destruct Hl. lia.
Qed.

(** The lexer has announced the end of its items. *)
Definition ended (its : list item) : Prop :=
  ∃ i, last its = Some i ∧ (Typ i = ItemEOF ∨ Typ i = ItemError).

(** ** What a lexer owes the scanner

    Each state has a precondition and a rank; an execution keeps the invariant,
    sends items in [lp_item] only, and either ends the run or makes progress: it
    consumes input or goes to a state of lower rank. *)
Class LexProgress {S} (exec : S → Lexer → res (option S * Lexer)) := {
  lp_pre : S → Lexer → Prop;
  lp_rank : S → Z;
  lp_item : item → Prop;
  lp_rank_bound s : 0 ≤ lp_rank s ≤ 2;
  lp_exec s l : lexinv l → lp_pre s l → Forall lp_item (Items l) →
    wp (exec s l) (λ r,
      lexinv r.2 ∧ Input r.2 = Input l ∧ Forall lp_item (Items r.2) ∧
      match r.1 with
      | Some s' => lp_pre s' r.2 ∧ 3 * remaining r.2 + lp_rank s' < 3 * remaining l + lp_rank s
      | None => ended (Items r.2)
      end);
}.

Section progress.
Context {S} (exec : S → Lexer → res (option S * Lexer)) `{!LexProgress exec}.

Lemma wp_run_loop fuel s l :
  lexinv l → lp_pre s l → Forall lp_item (Items l) → 3 * remaining l + lp_rank s < Z.of_nat fuel →
  wp (run_loop fuel exec s l)
    (λ l', lexinv l' ∧ Input l' = Input l ∧ Forall lp_item (Items l') ∧ ended (Items l')).
Proof.
  revert s l. induction fuel as [|fuel IH]; intros s l Hl Hpre Hits Hf.
  { pose proof (lp_rank_bound s). destruct Hl as (? & ? & _). unfold remaining, len in Hf. lia. }
  cbn [run_loop]. apply wp_bind. eapply wp_mono; [|by apply (lp_exec s l)].
  intros [[s'|] l']; simpl; intros (Hl' & Hin & Hits' & Hrest); [|by apply wp_Ok].
  destruct Hrest as [Hpre' Hdec]. eapply wp_mono; [|apply IH; [done|done|done|lia]].
  simpl. intros l'' (? & ? & ? & ?). by rewrite <-Hin.
Qed.

Lemma wp_run_lexer start input :
  (∀ l, lp_pre start l) →
  wp (run_lexer exec start input) (λ its, ended its ∧ embeds (texts its) input ∧ Forall lp_item its).
Proof.
  intros Hpre. unfold run_lexer. apply wp_bind. eapply wp_mono; [|apply wp_run_loop].
  - intros l ((? & ? & Hemb) & Hin & Hits & Hend). apply wp_Ok. split_and!; [done| |done]. simpl in Hin.
    rewrite <-(take_drop (Z.to_nat (Start l)) input), <-Hin. by apply embeds_app.
  - split; [simpl; lia|]. split; [simpl; lia|]. constructor.
  - done.
  - constructor.
  - pose proof (lp_rank_bound start). unfold remaining, len. simpl. lia.
Qed.
End progress.

(** A state function that is a loop: the body consumes input or returns. *)
Lemma wp_loop {S} (P : Lexer → Prop) (body : Lexer → res (flow Lexer (option S * Lexer))) l Q :
  lexinv l → P l →
  (∀ l', lexinv l' → Input l' = Input l → Pos l ≤ Pos l' → P l' →
    wp (body l') (λ o,
      match o with
      | Continue l'' => lexinv l'' ∧ Input l'' = Input l ∧ Pos l' < Pos l'' ∧ P l''
      | Return r => Q r
      end)) →
  wp (loop body l) Q.
Proof.
  intros Hl HP Hbody.
  apply (wp_for_loop (λ l', lexinv l' ∧ Input l' = Input l ∧ Pos l ≤ Pos l' ∧ P l') (λ l, Z.to_nat (remaining l))).
  - intros l' (H1 & H2 & H3 & H4). eapply wp_mono; [|by apply Hbody].
    intros [l''|r]; [|done]. intros (H1' & H2' & H3' & H4'). split_and!; [done|done|lia|done|].
    destruct H1' as (? & ? & _). unfold remaining, len. rewrite H2', H2 in *. lia.
  - split_and!; [done|done|lia|done].
  - destruct Hl as (? & ? & _). unfold remaining, bound, len. lia.
Qed.

(** ** Symbolic execution of state functions

    The rules above with the new lexer described by its fields. *)
Lemma lexinv_bounds l : lexinv l → 0 ≤ Start l ≤ Pos l ∧ Pos l ≤ Z.of_nat (length (Input l)).
Proof. by intros (? & ? & _). Qed.

Lemma exec_Next (l : Lexer) (Q : Z * Lexer → Prop) :
  lexinv l →
  (∀ l', lexinv l' → Input l' = Input l → Start l' = Start l → Pos l' = Pos l → Width l' = 0 →
    ahead (Input l) (Pos l) = EOF → Pos l = Z.of_nat (length (Input l)) → Items l' = Items l → Q (EOF, l')) →
  (∀ r l', lexinv l' → Input l' = Input l → Start l' = Start l → Pos l' = Pos l + Width l' →
    0 < Width l' → r = ahead (Input l) (Pos l) → r ≠ EOF → Items l' = Items l → Q (r, l')) →
  wp (Next l) Q.
Proof. intros Hl HE HR. apply wp_Next; [done|intros; by apply HE|intros; by apply HR]. Qed.

Lemma exec_Emit t (l : Lexer) (Q : Lexer → Prop) :
  lexinv l → t ≠ ItemError →
  (∀ l', lexinv l' → Input l' = Input l → Start l' = Pos l → Pos l' = Pos l →
    (t = ItemEOF → ended (Items l')) →
    (∃ v, Items l' = Items l ++ [mkItem t v] ∧ Z.of_nat (length v) = Pos l - Start l) → Q l') →
  wp (Emit t l) Q.
Proof.
  intros Hl Ht HQ. apply wp_Emit; [done|done|]. intros v Hlen Hv. apply HQ; [done..| |by exists v].
  intros ->. eexists. split; [apply last_snoc|by left].
Qed.

Lemma exec_AcceptUntil (c : Z → bool) (l : Lexer) (Q : Lexer → Prop) :
  lexinv l →
  (∀ l', lexinv l' → Input l' = Input l → Start l' = Start l → Pos l ≤ Pos l' → Items l' = Items l →
    (ahead (Input l) (Pos l) ≠ EOF → c (ahead (Input l) (Pos l)) = false → Pos l < Pos l') → Q l') →
  wp (AcceptUntil c l) Q.
Proof.
  intros Hl HQ. apply wp_scan; [done|]. intros p w Hp Hw Hl' Hpr. apply HQ; [done|done|done|simpl; lia|done|done].
Qed.

Lemma exec_AcceptRun (c : Z → bool) (l : Lexer) (Q : Lexer → Prop) :
  lexinv l →
  (∀ l', lexinv l' → Input l' = Input l → Start l' = Start l → Pos l ≤ Pos l' → Items l' = Items l → Q l') →
  wp (AcceptRun c l) Q.
Proof.
  intros Hl HQ. apply (wp_scan (λ r, negb (c r))); [done|]. intros p w Hp Hw Hl' _. apply HQ; [done..|simpl; lia|done].
Qed.

Lemma lexinv_Backup l : lexinv l → Start l ≤ Pos l - Width l → 0 ≤ Width l → lexinv (Backup l).
Proof. intros (? & ? & ?) ? ?. split; [simpl; lia|]. split; [simpl; lia|done]. Qed.

Lemma lexinv_add_Depth d l : lexinv l → lexinv (add_Depth d l).
Proof. done. Qed.
Lemma lexinv_add_FilterDepth d l : lexinv l → lexinv (add_FilterDepth d l).
Proof. done. Qed.
Lemma lexinv_set_Mode m l : lexinv l → lexinv (set_Mode m l).
Proof. done. Qed.

Lemma ended_Errorf m l : ended (Items l ++ [mkItem ItemError (bs m)]).
Proof. eexists. split; [apply last_snoc|]. by right. Qed.
End lex.

Create HintDb lexer.
#[export] Hint Resolve lex.lexinv_Ignore lex.lexinv_Errorf lex.lexinv_add_Depth
  lex.lexinv_add_FilterDepth lex.lexinv_set_Mode lex.ended_Errorf : lexer.
#[export] Hint Extern 2 (lex.lexinv (lex.Backup _)) =>
  apply lex.lexinv_Backup; [|simpl in *; lia|simpl in *; lia] : lexer.

(** Makes the bounds behind the invariants available to [lia]. *)
Ltac lex_bounds :=
  repeat match goal with
  | H : lex.lexinv ?l |- _ =>
      lazymatch goal with
      | _ : (0 ≤ lex.Start l ≤ lex.Pos l)%Z ∧ _ |- _ => fail
      | _ => pose proof (lex.lexinv_bounds l H)
      end
  end.

Ltac lex_inv := lex_bounds; solve [auto 10 with lexer].

(** Runs a state function up to its next test, reading and emitting. *)
Ltac lex_step :=
  lazymatch goal with
  | |- wp (mbind _ _) _ => apply wp_bind
  | |- wp (lex.Next _) _ => apply lex.exec_Next; [lex_inv|intros ? ? ? ? ? ? ? ? ?|intros ? ? ? ? ? ? ? ? ? ?]
  | |- wp (lex.Emit _ _) _ => apply lex.exec_Emit; [lex_inv|first [done|discriminate]|intros ? ? ? ? ? ? ?]
  | |- wp (lex.AcceptRun _ _) _ => apply lex.exec_AcceptRun; [lex_inv|intros ? ? ? ? ? ?]
  | |- wp (lex.AcceptUntil _ _) _ => apply lex.exec_AcceptUntil; [lex_inv|intros ? ? ? ? ? ? ?]
  | |- wp (slice _ _ _) _ => rewrite slice_ok by (lex_bounds; simpl in *; lia)
  | |- wp (if ?b then _ else _) _ => let E := fresh "E" in destruct b eqn:E; try discriminate E
  | |- wp (Ok _) _ => apply wp_Ok
  | |- wp (lex.again _) _ => apply wp_Ok
  | |- wp (lex.goto _ _) _ => apply wp_Ok
  | |- wp (lex.stop _) _ => apply wp_Ok
  end; cbv beta iota.

(** Closes the end of a path: the invariant, the input, and progress. *)
Ltac lex_norm post :=
  lex_bounds; unfold post, lex.remaining, lex.len in *; simpl in *;
  repeat match goal with
  | H : lex.Input ?l = lex.Input _ |- _ => rewrite H in *
  end.

Ltac lex_done post :=
  lex_norm post;
  try (exfalso; lia);
  first
  [ split_and!; [lex_inv|congruence|lia|done]
  | split; [lex_inv|split; [congruence|first [solve [auto with lexer] | split; [first [done|congruence]|lia]]]] ].
