(* ===== verification/LexText.v ===== *)
(** The scanner of [lex/lexer.go] run on a known text: what each operation does
    when the text before and after the position is given. *)
From S2P Require Import Prelude Bytes Lex.
From stdpp Require Import options.
#[local] Open Scope Z_scope.

Module lex_text.
Import lex.

(** ** Running the scanner on a known text

    The lexer that has consumed [p], has read [t] since, and has [rest] before
    it. *)
Definition L (p t rest : list byte) (w : Z) (its : list item) (d : Z) : Lexer :=
  mkLexer (p ++ t ++ rest) (Z.of_nat (length p)) (Z.of_nat (length (p ++ t))) w its d 0 0.

Lemma L_eq p t rest w its d p' t' rest' w' :
  p = p' → t = t' → rest = rest' → w = w' → L p t rest w its d = L p' t' rest' w' its d.
Proof. congruence. Qed.

Definition ascii (b : byte) : Prop := byte_to_Z b < 0x80.
Definition high (b : byte) : Prop := 0x80 ≤ byte_to_Z b.

Lemma DecodeRune_ascii b s : ascii b → DecodeRune (b :: s) = (byte_to_Z b, 1%nat).
Proof. unfold ascii. intros Hb. unfold DecodeRune. by rewrite (proj2 (Z.ltb_lt _ _)) by done. Qed.

Lemma lor_ge a b c : 0 ≤ a → 0 ≤ b → c ≤ a ∨ c ≤ b → c ≤ Z.lor a b.
Proof.
  assert (∀ a b, 0 ≤ a → 0 ≤ b → a ≤ Z.lor a b) as Hge.
  { intros x y Hx Hy. apply Z.ldiff_le; [apply Z.lor_nonneg; lia|].
    apply Z.bits_inj'. intros n Hn. rewrite Z.ldiff_spec, Z.lor_spec, Z.bits_0.
    by destruct (Z.testbit x n), (Z.testbit y n). }
  intros Ha Hb [Hc|Hc]; (etransitivity; [exact Hc|]); [by apply Hge|]. rewrite Z.lor_comm. by apply Hge.
Qed.

Lemma cbits_mod b : cbits b = byte_to_Z b mod 64.
Proof. unfold cbits. change 0x3F with (Z.ones 6). by rewrite Z.land_ones by lia. Qed.

Lemma cont_in_high lo hi b : 0x80 ≤ lo → cont_in lo hi b = true → high b.
Proof. unfold cont_in, high. intros. lia. Qed.

Lemma land_mod b k m : k = Z.ones m → 0 ≤ m → Z.land (byte_to_Z b) k = byte_to_Z b mod 2 ^ m.
Proof. intros ->. apply Z.land_ones. Qed.

(** A rune above ASCII is written in bytes above ASCII. *)
Lemma DecodeRune_high b s :
  high b → 0x80 ≤ (DecodeRune (b :: s)).1 ∧ Forall high (take (DecodeRune (b :: s)).2 (b :: s)).
Proof.
  intros Hb. pose proof (byte_to_Z_range b). unfold high in Hb.
  assert (∀ b', 0 ≤ cbits b' < 64) as Hc by (intros b'; rewrite cbits_mod; apply Z.mod_pos_bound; lia).
  assert (∀ lo hi b', 0x80 ≤ lo → cont_in lo hi b' = true → high b') as Hh by apply cont_in_high.
  assert (∀ m, 0 ≤ m → 0 ≤ Z.land (byte_to_Z b) m) as Hl by (intros; apply Z.land_nonneg; lia).
  unfold DecodeRune. rewrite (proj2 (Z.ltb_ge _ 0x80)) by lia.
  repeat case_match; rewrite ?andb_true_iff in *; destruct_and?; simpl; (split; [try done|]);
    try (repeat constructor; first [done | eapply Hh; [|eassumption]; repeat case_match; lia]).
  all: unfold cont_in in *; rewrite !Z.shiftl_mul_pow2 by lia;
    first [rewrite (land_mod _ 31 5) by done | rewrite (land_mod _ 15 4) by done | rewrite (land_mod _ 7 3) by done];
    rewrite ?cbits_mod; change (2 ^ 5) with 32; change (2 ^ 4) with 16; change (2 ^ 3) with 8;
    change (2 ^ 6) with 64; change (2 ^ 12) with 4096; change (2 ^ 18) with 262144;
    repeat match goal with |- _ ≤ Z.lor (Z.lor _ _) _ =>
      apply lor_ge; [repeat (apply Z.lor_nonneg; split); Z.to_euclidean_division_equations; lia..|left] end;
    (apply lor_ge; Z.to_euclidean_division_equations; lia).
Qed.

Lemma slice_tail {A} (a b : list A) :
  slice (a ++ b) (Z.of_nat (length a)) (Z.of_nat (length (a ++ b))) = Ok b.
Proof.
  rewrite slice_ok by (rewrite ?length_app; lia). rewrite !Nat2Z.id, drop_app_length.
  f_equal. apply take_ge. rewrite length_app. lia.
Qed.

Lemma Next_at p t rest w its d :
  rest ≠ [] →
  Next (L p t rest w its d) =
    let '(r, k) := DecodeRune rest in
    Ok (r, mkLexer (p ++ t ++ rest) (Z.of_nat (length p)) (Z.of_nat (length (p ++ t)) + Z.of_nat k) (Z.of_nat k) its d 0 0).
Proof.
  intros Hr. unfold Next, len, L. simpl. rewrite (proj2 (Z.leb_gt _ _)).
  - rewrite (app_assoc p t rest) at 1. rewrite app_assoc, slice_tail. simpl. by destruct (DecodeRune rest).
  - rewrite !length_app. destruct rest; [done|]. simpl. lia.
Qed.

(** Reading [k] bytes of what lies ahead. *)
Lemma L_read p t u rest w its d :
  mkLexer (p ++ t ++ u ++ rest) (Z.of_nat (length p)) (Z.of_nat (length (p ++ t)) + Z.of_nat (length u)) w its d 0 0 =
  L p (t ++ u) rest w its d.
Proof. unfold L. f_equal; [by rewrite <-app_assoc|rewrite !length_app; lia]. Qed.

Lemma Next_L p t b rest w its d :
  ascii b → Next (L p t (b :: rest) w its d) = Ok (byte_to_Z b, L p (t ++ [b]) rest 1 its d).
Proof.
  intros Hb. rewrite Next_at, DecodeRune_ascii by done. do 2 f_equal. apply (L_read p t [b]).
Qed.

Lemma Next_high p t b rest w its d :
  high b →
  ∃ r u v k, b :: rest = u ++ v ∧ u ≠ [] ∧ Forall high u ∧ 0x80 ≤ r ∧
    Next (L p t (b :: rest) w its d) = Ok (r, L p (t ++ u) v k its d).
Proof.
  intros Hb. pose proof (DecodeRune_high b rest Hb) as [Hr Hu]. pose proof (DecodeRune_width (b :: rest) ltac:(done)) as Hw.
  rewrite Next_at by done. destruct (DecodeRune (b :: rest)) as [r k]; simpl fst in *; simpl snd in *.
  exists r, (take k (b :: rest)), (drop k (b :: rest)), (Z.of_nat k). split_and!; [by rewrite take_drop| |done|done|].
  - destruct k; [lia|done].
  - rewrite <-(take_drop k (b :: rest)) at 1. do 2 f_equal.
    rewrite <-L_read. repeat f_equal. rewrite length_take. lia.
Qed.

Lemma Next_end p t w its d : Next (L p t [] w its d) = Ok (EOF, L p t [] 0 its d).
Proof.
  unfold Next, len, L. simpl. rewrite app_nil_r. rewrite (proj2 (Z.leb_le _ _)) by lia. done.
Qed.

Lemma Backup_L p t b rest its d :
  Backup (L p (t ++ [b]) rest 1 its d) = L p t (b :: rest) 1 its d.
Proof. unfold Backup, move, L. simpl. f_equal; [by rewrite <-!app_assoc|rewrite !length_app; simpl; lia]. Qed.

Lemma Peek_L p t b rest w its d :
  ascii b → Peek (L p t (b :: rest) w its d) = Ok (byte_to_Z b, L p t (b :: rest) 1 its d).
Proof. intros Hb. unfold Peek. rewrite Next_L by done. simpl. by rewrite Backup_L. Qed.

Lemma Emit_L ty p t rest w its d :
  Emit ty (L p t rest w its d) = Ok (L (p ++ t) [] rest w (its ++ [mkItem ty t]) d).
Proof.
  unfold Emit, L. simpl. rewrite (proj2 (Z.ltb_ge _ _)) by (rewrite length_app; lia).
  rewrite andb_false_r. rewrite slice_ok by (rewrite ?length_app; lia).
  rewrite !Nat2Z.id, drop_app_length. simpl. rewrite length_app, Nat.add_sub_swap, Nat.sub_diag by lia. simpl.
  rewrite take_app_length. unfold set_start, send. simpl. by rewrite app_nil_r, length_app, <-app_assoc.
Qed.

Lemma Ignore_L p t rest w its d : Ignore (L p t rest w its d) = L (p ++ t) [] rest w its d.
Proof. unfold Ignore, set_start, L. simpl. by rewrite app_nil_r, <-app_assoc. Qed.

Lemma add_Depth_L k p t rest w its d : add_Depth k (L p t rest w its d) = L p t rest w its (d + k).
Proof. done. Qed.

(** A split of a text before an ASCII byte cannot cut the bytes of a rune. *)
Lemma high_prefix u v x b rest :
  u ++ v = x ++ b :: rest → Forall high u → ascii b → ∃ y, x = u ++ y ∧ v = y ++ b :: rest.
Proof.
  intros Heq Hu Hb. apply app_eq_inv in Heq as [(y & -> & Hy)|(y & -> & ->)]; [|by exists y].
  destruct y as [|c y]; simplify_eq/=.
  - exists []. by rewrite !app_nil_r.
  - apply Forall_app in Hu as [_ Hu]. apply Forall_cons in Hu as [Hc _]. unfold high, ascii in *. lia.
Qed.

(** A rune test that no rune above ASCII passes. *)
Definition ascii_only (c : Z → bool) : Prop := ∀ r, 0x80 ≤ r → c r = false.

Lemma AcceptUntil_L c p t v b rest w its d :
  ascii_only c → Forall (λ x, c (byte_to_Z x) = false) v → ascii b → c (byte_to_Z b) = true →
  AcceptUntil c (L p t (v ++ b :: rest) w its d) = Ok (L p (t ++ v) (b :: rest) 1 its d).
Proof.
  intros Hc Hv Hb Hcb. unfold AcceptUntil.
  assert (∀ n fuel t v w, (length v ≤ n)%nat → (n < fuel)%nat → Forall (λ x, c (byte_to_Z x) = false) v →
    for_loop fuel (λ l, ' (r, l) ← Next l; Ok (if (r =? EOF) || c r then Return l else Continue l))
      (L p t (v ++ b :: rest) w its d) = Ok (L p ((t ++ v) ++ [b]) rest 1 its d)) as Hloop.
  { clear t v w Hv. induction n as [|n IH]; intros fuel t v w Hn Hf Hv; (destruct fuel as [|fuel]; [lia|]); cbn [for_loop].
    all: destruct v as [|x v]; [rewrite app_nil_l, Next_L by done; simpl; rewrite Hcb, orb_true_r; by rewrite app_nil_r|].
    { simpl in Hn. lia. }
    rewrite <-app_comm_cons.
    apply Forall_cons in Hv as [Hx Hv]. simpl in Hn. destruct (decide (ascii x)) as [Hax|Hhx].
    - rewrite Next_L by done. simpl. rewrite Hx, orb_false_r. rewrite (proj2 (Z.eqb_neq _ EOF)).
      + rewrite IH by (done || lia). by rewrite <-(app_assoc t [x] v).
      + pose proof (byte_to_Z_range x). unfold EOF. lia.
    - assert (high x) as Hhi by (unfold high, ascii in *; lia).
      destruct (Next_high p t x (v ++ b :: rest) w its d Hhi) as (r & u & v' & k & Huv & Hu & Hhu & Hr & ->). simpl.
      rewrite (Hc r), orb_false_r by done. rewrite (proj2 (Z.eqb_neq r EOF)) by (unfold EOF; lia).
      destruct (high_prefix u v' (x :: v) b rest) as (y & Hy & ->); [done|done|done|].
      assert (length y ≤ n)%nat. { apply (f_equal length) in Hy. rewrite length_app in Hy. destruct u; [done|]. simpl in *. lia. }
      rewrite IH; [by rewrite Hy, <-(app_assoc t u y)|done|lia|].
      assert (Forall (λ x, c (byte_to_Z x) = false) (x :: v)) as Hall by by constructor.
      rewrite Hy in Hall. by apply Forall_app in Hall as [_ Hall]. }
  rewrite (Hloop (length v)); [|done| |done].
  - simpl. by rewrite Backup_L.
  - unfold bound, L. simpl. rewrite !length_app. lia.
Qed.

Lemma AcceptRun_L c p t v b rest w its d :
  Forall (λ x, ascii x ∧ c (byte_to_Z x) = true) v → ascii b → c (byte_to_Z b) = false →
  AcceptRun c (L p t (v ++ b :: rest) w its d) = Ok (L p (t ++ v) (b :: rest) 1 its d).
Proof.
  intros Hv Hb Hcb. unfold AcceptRun.
  assert (∀ fuel t w, (length v < fuel)%nat →
    for_loop fuel (λ l, ' (r, l) ← Next l; Ok (if (r =? EOF) || negb (c r) then Return l else Continue l))
      (L p t (v ++ b :: rest) w its d) = Ok (L p ((t ++ v) ++ [b]) rest 1 its d)) as Hloop.
  { clear t w. induction Hv as [|x v [Hx Hcx] Hv IH]; intros fuel t w Hf; (destruct fuel as [|fuel]; [simpl in Hf; lia|]);
      cbn [for_loop].
    - rewrite app_nil_l, Next_L by done. simpl. rewrite Hcb, orb_true_r. by rewrite app_nil_r.
    - rewrite <-app_comm_cons, Next_L by done. simpl. rewrite Hcx, orb_false_r. rewrite (proj2 (Z.eqb_neq _ EOF)).
      + rewrite IH by (simpl in Hf; lia). by rewrite <-(app_assoc t [x] v).
      + pose proof (byte_to_Z_range x). unfold EOF. lia. }
  rewrite Hloop; [simpl; by rewrite Backup_L|]. unfold bound, L. simpl. rewrite !length_app. lia.
Qed.
End lex_text.
