(* ===== verification/GqlLex.v ===== *)
(** The lexer of queries and mutations ([gql/state.go]).

    One definition per state function; [exec] names them by [StateFn] and [run]
    is the goroutine of [gql/parser.go] that drives them. *)
From S2P Require Import Prelude Bytes Lex.
From stdpp Require Import options.
#[local] Open Scope Z_scope.

Module gql_lex.
Import lex.

(** *** Runes, modes and item types *)
Definition leftCurl : Z := 123.
Definition rightCurl : Z := 125.
Definition leftRound : Z := 40.
Definition rightRound : Z := 41.
Definition period : Z := 46.
Definition comma : Z := 44.
Definition bang : Z := 33.
Definition equal : Z := 61.
Definition underscore : Z := 95.
Definition hash : Z := 35.
Definition colon : Z := 58.
Definition at_sign : Z := 64.
Definition ampersand : Z := 38.
Definition pipe : Z := 124.
Definition quote : Z := 34.

Definition queryMode : Z := 1.
Definition mutationMode : Z := 2.
Definition fragmentMode : Z := 3.

Definition itemText : Z := 5.
Definition itemLeftCurl : Z := 6.
Definition itemRightCurl : Z := 7.
Definition itemComma : Z := 8.
Definition itemEqual : Z := 9.
Definition itemComment : Z := 10.
Definition itemName : Z := 11.
Definition itemOpType : Z := 12.
Definition itemString : Z := 13.
Definition itemLeftRound : Z := 14.
Definition itemRightRound : Z := 15.
Definition itemArgName : Z := 16.
Definition itemArgVal : Z := 17.
Definition itemMutationOp : Z := 18.
Definition itemMutationContent : Z := 19.
Definition itemFragmentSpread : Z := 20.
Definition itemVarName : Z := 21.
Definition itemVarType : Z := 22.
Definition itemVarDefault : Z := 23.
Definition itemAlias : Z := 24.
Definition itemDirectiveName : Z := 25.
Definition itemFilterAnd : Z := 26.
Definition itemFilterOr : Z := 27.
Definition itemFilterFunc : Z := 28.
Definition itemFilterFuncArg : Z := 29.
Definition itemGenerator : Z := 30.
Definition itemArgument : Z := 31.

Definition isDollar (r : Z) : bool := r =? 0x24.
Definition isSpace (r : Z) : bool := (r =? 0x09) || (r =? 0x20).
Definition isEndOfLine (r : Z) : bool := (r =? 0x0A) || (r =? 0x0D).
Definition isEndLiteral (r : Z) : bool := (r =? quote) || (r =? 0x0d) || (r =? 0x0a).
Definition isNameBegin (r : Z) : bool :=
  if (97 <=? r) && (r <=? 122) then true
  else if (65 <=? r) && (r <=? 90) then true
  else if r =? underscore then true
  else false.
Definition isNameSuffix (r : Z) : bool :=
  if isNameBegin r then true
  else if (48 <=? r) && (r <=? 57) then true
  else if (r =? period) || (r =? 45) then true
  else false.

Inductive StateFn : Type :=
| SText | SInside | SFilterFuncInside | SFilterFuncName | SFilterInside | SDirective | SAlias
| SFragmentSpread | SName | SComment | SInsideMutation | SNameMutation | STextMutation
| SOperationType | SVarInside | SVarName | SVarType | SVarDefault | SArgInside | SArgName | SArgVal.

(** *** State functions *)
Definition lexText (l : Lexer) : res (option StateFn * Lexer) :=
  loop (λ l,
    ' (r, l) ← Next l;
    if r =? leftCurl then
      l ← Emit itemText (Backup l);
      ' (_, l) ← Next l;
      l ← Emit itemLeftCurl (add_Depth 1 l);
      if Mode l =? mutationMode then goto SInsideMutation l else goto SInside l
    else if r =? rightCurl then stop (Errorf "Too many right characters" l)
    else if r =? EOF then
      l ← (if Start l <? Pos l then Emit itemText l else Ok l);
      l ← Emit ItemEOF l;
      stop l
    else if r =? leftRound then
      l ← Emit itemText (Backup l);
      ' (_, l) ← Next l;
      l ← Emit itemLeftRound l;
      goto SVarInside l
    else if isNameBegin r then
      l ← Emit itemText (Backup l);
      goto SOperationType l
    else again l) l.

Definition lexInside (l : Lexer) : res (option StateFn * Lexer) :=
  loop (λ l,
    ' (r, l) ← Next l;
    if r =? period then
      ' (r2, l) ← Next l;
      if r2 =? period then
        ' (r3, l) ← Next l;
        if r3 =? period then goto SFragmentSpread l
        else stop (Errorf "Unrecognized character in lexInside: %#U" l)
      else stop (Errorf "Unrecognized character in lexInside: %#U" l)
    else if r =? rightCurl then
      l ← Emit itemRightCurl (add_Depth (-1) l);
      if Depth l =? 0 then goto SText l else again l
    else if r =? leftCurl then
      l ← Emit itemLeftCurl (add_Depth 1 l);
      again l
    else if r =? EOF then stop (Errorf "Unclosed action" l)
    else if isSpace r || isEndOfLine r || (r =? comma) then again (Ignore l)
    else if isNameBegin r then goto SName l
    else if r =? hash then goto SComment (Backup l)
    else if r =? leftRound then
      l ← Emit itemLeftRound l;
      l ← AcceptRun isSpace l;
      ' (k, l) ← Next (Ignore l);
      if (k =? underscore) || negb (Depth l =? 1) || (Mode l =? fragmentMode) then
        l ← Emit itemArgument (Backup l);
        goto SArgInside l
      else
        l ← Emit itemGenerator (Backup l);
        goto SFilterInside (add_FilterDepth 1 l)
    else if r =? colon then goto SAlias l
    else if r =? at_sign then goto SDirective l
    else stop (Errorf "Unrecognized character in lexInside: %#U" l)) l.

Definition lexFilterFuncInside (l : Lexer) : res (option StateFn * Lexer) :=
  l ← AcceptRun isSpace l;
  loop (λ l,
    ' (r, l) ← Next l;
    if isSpace r || (r =? comma) then again (Ignore l)
    else if r =? leftRound then l ← Emit itemLeftRound l; again l
    else if r =? rightRound then l ← Emit itemRightRound l; goto SFilterInside l
    else if isEndLiteral r then
      l ← AcceptUntil isEndLiteral (Ignore l);
      l ← Emit itemFilterFuncArg l;
      ' (_, l) ← Next l;
      again (Ignore l)
    else stop (Errorf "Expected quotation mark in lexFilterFuncArgs" l)) (Ignore l).

(** The loop of the state functions that take the runes [c] accepts and emit
    them as one item. *)
Definition lexRun (c : Z → bool) (t : Z) (s : StateFn) (l : Lexer) : res (option StateFn * Lexer) :=
  loop (λ l,
    ' (r, l) ← Next l;
    if c r then again l
    else l ← Emit t (Backup l); goto s l) l.

Definition lexFilterFuncName (l : Lexer) : res (option StateFn * Lexer) :=
  lexRun isNameSuffix itemFilterFunc SFilterFuncInside l.

Definition lexFilterInside (l : Lexer) : res (option StateFn * Lexer) :=
  loop (λ l,
    ' (r, l) ← Next l;
    if r =? leftRound then
      l ← Emit itemLeftRound l;
      again (add_FilterDepth 1 l)
    else if r =? rightRound then
      if FilterDepth l =? 0 then stop (Errorf "Unexpected right round bracket" l)
      else
        l ← Emit itemRightRound (add_FilterDepth (-1) l);
        if FilterDepth l =? 0 then goto SInside l else again l
    else if r =? EOF then stop (Errorf "Unclosed directive" l)
    else if isSpace r || isEndOfLine r then again (Ignore l)
    else if isNameBegin r then goto SFilterFuncName l
    else if r =? ampersand then
      ' (r2, l) ← Next l;
      if r2 =? ampersand then l ← Emit itemFilterAnd l; goto SFilterInside l
      else stop (Errorf "Expected & but got %v" l)
    else if r =? pipe then
      ' (r2, l) ← Next l;
      if r2 =? pipe then l ← Emit itemFilterOr l; goto SFilterInside l
      else stop (Errorf "Expected | but got %v" l)
    else stop (Errorf "Unrecognized character in lexInside: %#U" l)) l.

Definition lexDirective (l : Lexer) : res (option StateFn * Lexer) :=
  ' (r, l) ← Next l;
  if negb (isNameBegin r) then Ok (None, Errorf "Unrecognized character in lexDirective: %#U" l)
  else
    for_loop (bound l) (λ st,
      let '(l, buf) := st in
      ' (r, l) ← Next l;
      let buf := WriteRune buf r in
      if isNameSuffix r then Ok (Continue (l, buf))
      else
        l ← Emit itemDirectiveName (Backup l);
        directive ← slice buf 0 (Z.of_nat (length buf) - 1);
        if bool_decide (directive = bs "filter") then goto SFilterInside l
        else stop (Errorf "Unhandled directive %s" l)) (Backup l, []).

Definition lexAlias (l : Lexer) : res (option StateFn * Lexer) :=
  l ← AcceptRun isSpace l;
  lexRun isNameSuffix itemAlias SInside (Ignore l).

Definition lexFragmentSpread (l : Lexer) : res (option StateFn * Lexer) :=
  lexRun isNameSuffix itemFragmentSpread SInside l.

Definition lexName (l : Lexer) : res (option StateFn * Lexer) :=
  lexRun isNameSuffix itemName SInside l.

Definition lexComment (l : Lexer) : res (option StateFn * Lexer) :=
  loop (λ l,
    ' (r, l) ← Next l;
    if isEndOfLine r then l ← Emit itemComment l; goto SInside l
    else if r =? EOF then
      l ← (if Start l <? Pos l then Emit itemComment l else Ok l);
      l ← Emit ItemEOF l;
      stop l
    else again l) l.

Definition lexInsideMutation (l : Lexer) : res (option StateFn * Lexer) :=
  loop (λ l,
    ' (r, l) ← Next l;
    if r =? rightCurl then
      l ← Emit itemRightCurl (add_Depth (-1) l);
      if Depth l =? 0 then goto SText l else again l
    else if r =? leftCurl then
      l ← Emit itemLeftCurl (add_Depth 1 l);
      if 2 <=? Depth l then goto STextMutation l else again l
    else if r =? EOF then stop (Errorf "Unclosed mutation action" l)
    else if isSpace r || isEndOfLine r then again (Ignore l)
    else if isNameBegin r then goto SNameMutation l
    else stop (Errorf "Unrecognized character in lexInsideMutation: %#U" l)) l.

Definition lexNameMutation (l : Lexer) : res (option StateFn * Lexer) :=
  lexRun isNameBegin itemMutationOp SInsideMutation l.

Definition lexTextMutation (l : Lexer) : res (option StateFn * Lexer) :=
  loop (λ l,
    ' (r, l) ← Next l;
    if r =? EOF then stop (Errorf "Unclosed mutation text" l)
    else
      let l := if r =? leftCurl then add_Depth 1 l else l in
      if (r =? rightCurl) && (2 <? Depth l) then again (add_Depth (-1) l)
      else if negb (r =? rightCurl) then again l
      else l ← Emit itemMutationContent (Backup l); goto SInsideMutation l) l.

Definition lexOperationType (l : Lexer) : res (option StateFn * Lexer) :=
  loop (λ l,
    ' (r, l) ← Next l;
    if isNameSuffix r then again l
    else
      let l := Backup l in
      word ← slice (Input l) (Start l) (Pos l);
      if bool_decide (word = bs "mutation") then
        l ← Emit itemOpType l; goto SText (set_Mode mutationMode l)
      else if bool_decide (word = bs "fragment") then
        l ← Emit itemOpType l; goto SText (set_Mode fragmentMode l)
      else if bool_decide (word = bs "query") then
        l ← Emit itemOpType l; goto SText (set_Mode queryMode l)
      else goto SText (if Mode l =? 0 then Errorf "Invalid operation type" l else l)) l.

Definition lexVarInside (l : Lexer) : res (option StateFn * Lexer) :=
  loop (λ l,
    ' (r, l) ← Next l;
    if r =? EOF then stop (Errorf "unclosed argument" l)
    else if isSpace r || isEndOfLine r then again (Ignore l)
    else if isDollar r then goto SVarName l
    else if r =? colon then goto SVarType (Ignore l)
    else if r =? equal then l ← Emit itemEqual l; goto SVarDefault (Ignore l)
    else if r =? rightRound then l ← Emit itemRightRound l; goto SText l
    else if r =? comma then l ← Emit itemComma l; again (Ignore l)
    else stop (Errorf "variable list invalid" l)) l.

Definition lexVarName (l : Lexer) : res (option StateFn * Lexer) :=
  lexRun isNameSuffix itemVarName SVarInside l.

(** The loop [lexVarType], [lexVarDefault] and [lexArgVal] share. *)
Definition lexUntil (t : Z) (s : StateFn) (msg : string) (l : Lexer) : res (option StateFn * Lexer) :=
  l ← AcceptRun isSpace l;
  loop (λ l,
    ' (r, l) ← Next l;
    if isSpace r || isEndOfLine r || (r =? rightRound) || (r =? comma) then
      l ← Emit t (Backup l); goto s l
    else if r =? EOF then
      _ ← slice (Input l) (Start l) (Pos l);
      stop (Errorf msg l)
    else again l) (Ignore l).

Definition lexVarType (l : Lexer) : res (option StateFn * Lexer) :=
  lexUntil itemVarType SVarInside "Reached lex.EOF while reading var value: %v" l.

Definition lexVarDefault (l : Lexer) : res (option StateFn * Lexer) :=
  lexUntil itemVarDefault SVarInside "Reached lex.EOF while reading default value: %v" l.

Definition lexArgInside (l : Lexer) : res (option StateFn * Lexer) :=
  loop (λ l,
    ' (r, l) ← Next l;
    if r =? EOF then stop (Errorf "unclosed argument" l)
    else if isSpace r || isEndOfLine r || (r =? comma) then again (Ignore l)
    else if isNameBegin r then goto SArgName l
    else if r =? colon then goto SArgVal (Ignore l)
    else if r =? rightRound then l ← Emit itemRightRound l; goto SInside l
    else stop (Errorf "argument list invalid" l)) l.

Definition lexArgName (l : Lexer) : res (option StateFn * Lexer) :=
  lexRun isNameSuffix itemArgName SArgInside l.

Definition lexArgVal (l : Lexer) : res (option StateFn * Lexer) :=
  lexUntil itemArgVal SArgInside "Reached lex.EOF while reading var value: %v" l.

Definition exec (s : StateFn) : Lexer → res (option StateFn * Lexer) :=
  match s with
  | SText => lexText
  | SInside => lexInside
  | SFilterFuncInside => lexFilterFuncInside
  | SFilterFuncName => lexFilterFuncName
  | SFilterInside => lexFilterInside
  | SDirective => lexDirective
  | SAlias => lexAlias
  | SFragmentSpread => lexFragmentSpread
  | SName => lexName
  | SComment => lexComment
  | SInsideMutation => lexInsideMutation
  | SNameMutation => lexNameMutation
  | STextMutation => lexTextMutation
  | SOperationType => lexOperationType
  | SVarInside => lexVarInside
  | SVarName => lexVarName
  | SVarType => lexVarType
  | SVarDefault => lexVarDefault
  | SArgInside => lexArgInside
  | SArgName => lexArgName
  | SArgVal => lexArgVal
  end.

(** The items [run] sends before it closes the channel. *)
Definition run (input : list byte) : res (list item) := run_lexer exec SText input.

(** ** Progress *)
Definition rank (s : StateFn) : Z :=
  match s with
  | SOperationType | SComment => 0
  | SText | SInside | SFilterFuncInside | SFilterInside | SInsideMutation | SVarInside
  | SArgInside => 1
  | _ => 2
  end.

(** [lexText] enters [lexOperationType] in front of a letter. *)
Definition pre (s : StateFn) (l : Lexer) : Prop :=
  match s with
  | SOperationType => isNameBegin (ahead (Input l) (Pos l)) = true
  | _ => True
  end.

(** What the execution of a state from [l0] has to establish. *)
Definition exec_post (s : StateFn) (l0 : Lexer) (r : option StateFn * Lexer) : Prop :=
  lexinv r.2 ∧ Input r.2 = Input l0 ∧
  match r.1 with
  | Some s' => pre s' r.2 ∧ 3 * remaining r.2 + rank s' < 3 * remaining l0 + rank s
  | None => ended (Items r.2)
  end.

(** Symbolic execution of a whole state function that is one loop. *)
#[local] Ltac lex_state :=
  repeat lazymatch goal with
  | |- wp (loop _ _) _ =>
      apply (wp_loop (λ _, True)); [lex_inv|done|intros ? ? ? ? _]
  | _ => lex_step
  end.

Lemma lexText_ok l : lexinv l → wp (lexText l) (exec_post SText l).
Proof.
  intros Hl. unfold lexText. lex_state; try lex_done exec_post.
  lex_norm exec_post. split; [lex_inv|]. split; [congruence|]. split; [|lia].
  match goal with
  | Hr : ?r = ahead _ ?p, E : isNameBegin ?r = true, HP : Pos ?l1 = _ - _ |- context [Pos ?l1] =>
      rewrite HP, Hr in *; replace (Pos _ - Width _) with p by lia; done
  end.
Qed.

Lemma lexInside_ok l : lexinv l → wp (lexInside l) (exec_post SInside l).
Proof. intros Hl. unfold lexInside. lex_state; lex_done exec_post. Qed.

Lemma lexFilterFuncInside_ok l :
  lexinv l → wp (lexFilterFuncInside l) (exec_post SFilterFuncInside l).
Proof. intros Hl. unfold lexFilterFuncInside. lex_state; lex_done exec_post. Qed.

Lemma lexFilterInside_ok l : lexinv l → wp (lexFilterInside l) (exec_post SFilterInside l).
Proof. intros Hl. unfold lexFilterInside. lex_state; lex_done exec_post. Qed.

Lemma lexComment_ok l : lexinv l → wp (lexComment l) (exec_post SComment l).
Proof. intros Hl. unfold lexComment. lex_state; lex_done exec_post. Qed.

Lemma lexInsideMutation_ok l : lexinv l → wp (lexInsideMutation l) (exec_post SInsideMutation l).
Proof. intros Hl. unfold lexInsideMutation. lex_state; lex_done exec_post. Qed.

Lemma lexTextMutation_ok l : lexinv l → wp (lexTextMutation l) (exec_post STextMutation l).
Proof. intros Hl. unfold lexTextMutation. lex_state; try lex_done exec_post; destruct (_ =? leftCurl); lex_state; lex_done exec_post. Qed.

Lemma lexVarInside_ok l : lexinv l → wp (lexVarInside l) (exec_post SVarInside l).
Proof. intros Hl. unfold lexVarInside. lex_state; lex_done exec_post. Qed.

Lemma lexArgInside_ok l : lexinv l → wp (lexArgInside l) (exec_post SArgInside l).
Proof. intros Hl. unfold lexArgInside. lex_state; lex_done exec_post. Qed.

Lemma lexRun_ok c t s s0 l :
  lexinv l → t ≠ ItemError → t ≠ ItemEOF → c EOF = false → rank s < rank s0 → s ≠ SOperationType →
  wp (lexRun c t s l) (exec_post s0 l).
Proof.
  intros Hl Ht Ht' Hc Hs Hop. unfold lexRun.
  assert (∀ l', pre s l') as Hpre by (intros; by destruct s).
  lex_state; try lex_done exec_post; try congruence.
Qed.

Lemma lexUntil_ok t s s0 msg l :
  lexinv l → t ≠ ItemError → t ≠ ItemEOF → rank s < rank s0 → s ≠ SOperationType →
  wp (lexUntil t s msg l) (exec_post s0 l).
Proof.
  intros Hl Ht Ht' Hs Hop. unfold lexUntil.
  assert (∀ l', pre s l') as Hpre by (intros; by destruct s).
  lex_state; try lex_done exec_post.
Qed.

Lemma exec_post_start s l l' r :
  Input l' = Input l → Pos l ≤ Pos l' → exec_post s l' r → exec_post s l r.
Proof.
  intros HI HP (H1 & H2 & H3). split; [done|]. split; [congruence|]. destruct r as [[s'|] l'']; [|done].
  destruct H3 as [H3 H4]. split; [done|]. unfold remaining, len in *. simpl in *. rewrite H2, HI in *. lia.
Qed.

Lemma lexAlias_ok l : lexinv l → wp (lexAlias l) (exec_post SAlias l).
Proof.
  intros Hl. unfold lexAlias. do 2 lex_step. eapply wp_mono; [|apply (lexRun_ok _ _ _ SAlias); try done; lex_inv].
  intros r. by apply exec_post_start.
Qed.

Lemma lexOperationType_ok l :
  lexinv l → pre SOperationType l → wp (lexOperationType l) (exec_post SOperationType l).
Proof.
  intros Hl Hpre. unfold lexOperationType. simpl in Hpre.
  apply (wp_loop (λ l', Pos l < Pos l' ∨ Pos l' = Pos l)); [done|by right|]. intros l' Hl' HI HP HP'.
  lex_step. lex_step.
  - cbn. assert (Pos l < Pos l').
    { destruct HP' as [|HP']; [done|]. rewrite HI, HP' in *. by rewrite H4 in Hpre. }
    lex_state; try destruct (_ =? 0); lex_done exec_post.
  - lex_step.
    + lex_norm exec_post. split_and!; [done|congruence|lia|left; lia].
    + assert (Pos l < Pos l').
      { destruct HP' as [|HP']; [done|]. rewrite HI, HP' in *. subst r.
        unfold isNameSuffix in E. by rewrite Hpre in E. }
      lex_state; try destruct (_ =? 0); lex_done exec_post.
Qed.

Lemma WriteRune_length buf r : (length buf < length (WriteRune buf r))%nat.
Proof. unfold WriteRune, EncodeRune. rewrite length_app. repeat case_match; simpl; lia. Qed.

Lemma lexDirective_ok l : lexinv l → wp (lexDirective l) (exec_post SDirective l).
Proof.
  intros Hl. unfold lexDirective. do 2 lex_step; [lex_step; lex_done exec_post|].
  lex_step; [lex_step; lex_done exec_post|].
  apply (wp_for_loop (λ st, lexinv st.1 ∧ Input st.1 = Input l ∧ Pos l ≤ Pos st.1)
    (λ st, Z.to_nat (remaining st.1))).
  - intros [l1 buf] (Hl1 & HI1 & HP1). simpl in Hl1, HI1, HP1. lex_step. lex_step.
    + change (isNameSuffix EOF) with false. lex_step. pose proof (WriteRune_length buf EOF).
      lex_state; lex_done exec_post.
    + pose proof (WriteRune_length buf r0). lex_step; [lex_step|lex_state; lex_done exec_post].
      lex_norm exec_post. split_and!; [done|congruence|lia|lia].
  - lex_norm exec_post. split_and!; [lex_inv|congruence|lia].
  - unfold bound. lex_norm exec_post. lia.
Qed.

#[export] Instance gql_progress : LexProgress exec.
Proof.
  refine {| lp_pre := pre; lp_rank := rank; lp_item := λ _, True |}.
  - intros s. by destruct s.
  - intros s l Hl Hpre _. apply (wp_mono _ (exec_post s l)).
    { intros r (? & ? & ?). split_and!; [done|done|by apply Forall_true|done]. }
    destruct s; simpl.
    all: first
      [ by apply lexText_ok | by apply lexInside_ok | by apply lexFilterFuncInside_ok
      | by apply lexFilterInside_ok | by apply lexDirective_ok | by apply lexAlias_ok
      | by apply lexComment_ok | by apply lexInsideMutation_ok | by apply lexTextMutation_ok
      | by apply lexOperationType_ok | by apply lexVarInside_ok | by apply lexArgInside_ok
      | by apply lexRun_ok | by apply lexUntil_ok ].
Defined.

Lemma run_spec input :
  ∃ its, run input = Ok its ∧ ended its ∧ embeds (texts its) input.
Proof.
  apply wp_inv. eapply wp_mono; [|by apply (wp_run_lexer exec)]. by intros its (? & ? & _).
Qed.

(** C17: The query lexer is total: on every byte string, valid UTF-8 or not, its
    run loop ends without a panic; the last item it sends is [ItemEOF] or an
    error, and the texts of the other items are disjoint pieces of the input in
    the order of the input. *)
Theorem gql_lexer_total input :
  ∃ its, run input = Ok its ∧ ended its ∧ embeds (texts its) input.
Proof. apply run_spec. Qed.
End gql_lex.
