(* ===== verification/GqlParse.v ===== *)
(** The parser of queries and mutations ([gql/parser.go]).

    The parser reads the items of the lexer from a channel, here the list of
    items still to come. [GraphQuery] nodes are shared: a fragment's children
    appear under every node that spreads it, so the nodes live in a heap of
    which the state holds the contents, by address. Decoding the JSON envelope
    ([parseQueryWithVariables]) is not modelled: [Parse] starts from the query
    text and the variables of the envelope. Error values are format strings. *)
From S2P Require Import Prelude Bytes Strconv Lex GqlLex.
From stdpp Require Import options.
#[local] Open Scope Z_scope.

Module gql.
Import lex gql_lex strconv.

Notation str := (list byte).

Record Function := mkFunction { FAttr : str; FName : str; FArgs : list str }.

Inductive FilterTree : Type :=
| mkFilter (Op : str) (Func : option Function) (Child : list FilterTree).

Record GraphQuery : Type := mkQuery {
  UID : Z;
  XID : str;
  Attr : str;
  Alias : str;
  Func : option Function;
  Args : option (gmap str str);
  Children : list nat;
  Filter : option FilterTree;
  fragment : str;
}.

Record Mutation : Type := mkMutation { MSet : str; MDel : str }.

Record varInfo : Type := mkVar { Value : str; Type_ : str }.

Record fragmentNode : Type := mkFragment { FGq : nat; Entered : bool; Exited : bool }.

(** What the parser threads through: the items to come, the nodes allocated and
    the variables. *)
Record pstate : Type := mkP {
  items : list item;
  nodes : list GraphQuery;
  vmap : gmap str varInfo;
}.

Definition set_items (its : list item) (st : pstate) : pstate := mkP its (nodes st) (vmap st).
Definition set_nodes (ns : list GraphQuery) (st : pstate) : pstate := mkP (items st) ns (vmap st).
Definition set_vmap (vm : gmap str varInfo) (st : pstate) : pstate := mkP (items st) (nodes st) vm.

(** [<-l.Items]: the zero item once the channel is closed. *)
Definition recv (st : pstate) : item * pstate :=
  match items st with
  | [] => (mkItem 0 [], st)
  | i :: its => (i, set_items its st)
  end.

(** [new] and updates of nodes through pointers. *)
Definition alloc (n : GraphQuery) (st : pstate) : nat * pstate :=
  (length (nodes st), set_nodes (nodes st ++ [n]) st).

Definition get_node (ns : list GraphQuery) (a : nat) : res GraphQuery :=
  match ns !! a with Some n => Ok n | None => Crash "nil pointer dereference" end.

Definition upd_node (a : nat) (f : GraphQuery → GraphQuery) (st : pstate) : res pstate :=
  n ← get_node (nodes st) a; Ok (set_nodes (<[a := f n]> (nodes st)) st).

Definition set_Alias (v : str) (n : GraphQuery) : GraphQuery :=
  mkQuery (UID n) (XID n) (Attr n) v (Func n) (Args n) (Children n) (Filter n) (fragment n).
Definition set_Attr (v : str) (n : GraphQuery) : GraphQuery :=
  mkQuery (UID n) (XID n) v (Alias n) (Func n) (Args n) (Children n) (Filter n) (fragment n).
Definition set_UID (v : Z) (n : GraphQuery) : GraphQuery :=
  mkQuery v (XID n) (Attr n) (Alias n) (Func n) (Args n) (Children n) (Filter n) (fragment n).
Definition set_XID (v : str) (n : GraphQuery) : GraphQuery :=
  mkQuery (UID n) v (Attr n) (Alias n) (Func n) (Args n) (Children n) (Filter n) (fragment n).
Definition set_Func (v : option Function) (n : GraphQuery) : GraphQuery :=
  mkQuery (UID n) (XID n) (Attr n) (Alias n) v (Args n) (Children n) (Filter n) (fragment n).
Definition set_Args (v : option (gmap str str)) (n : GraphQuery) : GraphQuery :=
  mkQuery (UID n) (XID n) (Attr n) (Alias n) (Func n) v (Children n) (Filter n) (fragment n).
Definition set_Children (v : list nat) (n : GraphQuery) : GraphQuery :=
  mkQuery (UID n) (XID n) (Attr n) (Alias n) (Func n) (Args n) v (Filter n) (fragment n).
Definition set_Filter (v : option FilterTree) (n : GraphQuery) : GraphQuery :=
  mkQuery (UID n) (XID n) (Attr n) (Alias n) (Func n) (Args n) (Children n) v (fragment n).

(** [&GraphQuery{Args: make(map[string]string), Attr: attr}]. *)
Definition new_query (attr : str) : GraphQuery :=
  mkQuery 0 [] attr [] None (Some ∅) [] None [].
(** [&GraphQuery{fragment: name}]: its [Args] is the nil map. *)
Definition new_spread (name : str) : GraphQuery :=
  mkQuery 0 [] [] [] None None [] None name.

Definition isFragment (n : GraphQuery) : bool := negb (bool_decide (fragment n = [])).

(** An error item's message as an error. *)
Definition item_error {A} (i : item) : res A := Err (String.string_of_list_byte (Val i)).

(** ** Filters *)

(** The stacks of the operator-precedence parser, top first. *)
Definition pop (s : list FilterTree) : res (FilterTree * list FilterTree) :=
  match s with [] => Crash "Trying to pop empty stack" | t :: s => Ok (t, s) end.

Definition filterOpPrecedence (op : str) : Z :=
  if bool_decide (op = bs "&") then 2 else if bool_decide (op = bs "|") then 1 else 0.

Definition Op (t : FilterTree) : str := match t with mkFilter op _ _ => op end.
Definition set_Child (c : list FilterTree) (t : FilterTree) : FilterTree :=
  match t with mkFilter op f _ => mkFilter op f c end.

Definition evalStack (opStack valueStack : list FilterTree) : res (list FilterTree * list FilterTree) :=
  ' (topOp, opStack) ← pop opStack;
  ' (topVal1, valueStack) ← pop valueStack;
  ' (topVal2, valueStack) ← pop valueStack;
  Ok (opStack, set_Child [topVal2; topVal1] topOp :: valueStack).

(** [for !opStack.empty() { if stop(peek) { break }; evalStack(...) }]. Each
    turn pops one operator. *)
Fixpoint eval_loop (n : nat) (stop : str → bool) (opStack valueStack : list FilterTree) :
    res (list FilterTree * list FilterTree) :=
  match n with
  | O => Ok (opStack, valueStack)
  | S n =>
      match opStack with
      | [] => Ok (opStack, valueStack)
      | topOp :: _ =>
          if stop (Op topOp) then Ok (opStack, valueStack)
          else ' (opStack, valueStack) ← evalStack opStack valueStack;
               eval_loop n stop opStack valueStack
      end
  end.

Definition evalUntil (stop : str → bool) (opStack valueStack : list FilterTree) :
    res (list FilterTree * list FilterTree) :=
  eval_loop (length opStack) stop opStack valueStack.

(** [for itemInFunc = range l.Items { ... }]: the arguments of a function, and
    whether the closing bracket was there. *)
Fixpoint funcArgs (f : Function) (its : list item) : res (Function * bool * list item) :=
  match its with
  | [] => Ok (f, false, [])
  | i :: its =>
      if Typ i =? itemRightRound then Ok (f, true, its)
      else if negb (Typ i =? itemFilterFuncArg) then
        Err "Expected arg after func [%s], but got item %v"
      else
        funcArgs (if (length (FAttr f) =? 0)%nat then mkFunction (Val i) (FName f) (FArgs f)
                  else mkFunction (FAttr f) (FName f) (FArgs f ++ [Val i])) its
  end.

(** The item after a function's name, and its arguments. *)
Definition funcCall (name : str) (its : list item) : res (Function * bool * list item) :=
  match its with
  | i :: its =>
      if negb (Typ i =? itemLeftRound) then Err "Expected ( after func name [%s]"
      else funcArgs (mkFunction [] name []) its
  | [] => Err "Expected ( after func name [%s]"
  end.

(** [parseFunction] as a loop over the items; every turn takes one. *)
Fixpoint parseFunction_loop (fuel : nat) (g : option Function) (its : list item) :
    res (option Function * list item) :=
  match fuel with
  | O => Crash out_of_fuel
  | S fuel =>
      match its with
      | [] => Ok (g, [])
      | i :: its =>
          if Typ i =? itemFilterFunc then
            ' (g, _, its) ← funcCall (Val i) its;
            parseFunction_loop fuel (Some g) its
          else if Typ i =? itemRightRound then Ok (g, its)
          else Err "Expected a function but got %q"
      end
  end.

Definition parseFunction (its : list item) : res (option Function * list item) :=
  parseFunction_loop (S (length its)) None its.

Definition is_paren (op : str) : bool := bool_decide (op = bs "(").

(** The loop of [parseFilter]. *)
Fixpoint parseFilter_loop (fuel : nat) (its : list item) (opStack valueStack : list FilterTree) :
    res (list FilterTree * list FilterTree * list item) :=
  match fuel with
  | O => Crash out_of_fuel
  | S fuel =>
      match its with
      | [] => Ok (opStack, valueStack, [])
      | i :: its =>
          if Typ i =? itemFilterFunc then
            ' (f, terminated, its) ← funcCall (Val i) its;
            if negb terminated then Err "Expected ) to terminate func definition"
            else parseFilter_loop fuel its opStack (mkFilter [] (Some f) [] :: valueStack)
          else if Typ i =? itemLeftRound then
            parseFilter_loop fuel its (mkFilter (bs "(") None [] :: opStack) valueStack
          else if Typ i =? itemRightRound then
            ' (opStack, valueStack) ← evalUntil is_paren opStack valueStack;
            ' (_, opStack) ← pop opStack;
            match opStack with
            | [] => Ok (opStack, valueStack, its)
            | _ => parseFilter_loop fuel its opStack valueStack
            end
          else if (Typ i =? itemFilterAnd) || (Typ i =? itemFilterOr) then
            let op := if Typ i =? itemFilterOr then bs "|" else bs "&" in
            let opPred := filterOpPrecedence op in
            assert_true (0 <? opPred) "Expected opPred > 0: %d";;
            ' (opStack, valueStack) ← evalUntil (λ o, filterOpPrecedence o <? opPred) opStack valueStack;
            parseFilter_loop fuel its (mkFilter op None [] :: opStack) valueStack
          else parseFilter_loop fuel its opStack valueStack
      end
  end.

Definition parseFilter (its : list item) : res (option FilterTree * list item) :=
  match its with
  | [] => Err "Expected ( after filter directive"
  | i :: its =>
      if negb (Typ i =? itemLeftRound) then Err "Expected ( after filter directive"
      else
        ' (opStack, valueStack, its) ← parseFilter_loop (S (length its)) its [mkFilter (bs "(") None []] [];
        assert_true (bool_decide (opStack = [])) "Op stack should be empty when we exit";;
        match valueStack with
        | [] => Ok (None, its)
        | [t] => Ok (Some t, its)
        | _ => Err "Expected one item in value stack, but got %d"
        end
  end.

(** [stringHelper]: the tree in prefix form. *)
Fixpoint stringHelper (t : FilterTree) : res str :=
  match t with
  | mkFilter op f child =>
      let fn := default (mkFunction [] [] []) f in
      if (0 <? length (FName fn))%nat then
        let args := if (0 <? length (FAttr fn))%nat then FAttr fn :: FArgs fn else [] in
        Ok (bs "(" ++ FName fn ++ concat ((λ a, x20 :: x22 :: a ++ [x22]) <$> args) ++ bs ")")
      else
        word ← (if bool_decide (op = bs "&") then Ok (bs "AND")
                else if bool_decide (op = bs "|") then Ok (bs "OR")
                else Crash "Unknown operator: %q");
        cs ← (fix go (cs : list FilterTree) : res str :=
                match cs with
                | [] => Ok []
                | c :: cs => s ← stringHelper c; r ← go cs; Ok (x20 :: s ++ r)
                end) child;
        Ok (bs "(" ++ word ++ cs ++ bs ")")
  end.

Definition debugString (t : FilterTree) : res str := stringHelper t.

(** ** Arguments, variables and mutations *)
Fixpoint parseArguments_loop (fuel : nat) (result : list (str * str)) (st : pstate) :
    res (list (str * str) * pstate) :=
  match fuel with
  | O => Crash out_of_fuel
  | S fuel =>
      let '(i, st) := recv st in
      if Typ i =? itemArgName then
        let '(j, st) := recv st in
        if negb (Typ j =? itemArgVal) then Err "Expecting argument value. Got: %v"
        else parseArguments_loop fuel (result ++ [(Val i, Val j)]) st
      else if Typ i =? itemRightRound then Ok (result, st)
      else Err "Expecting argument name. Got: %v"
  end.

Definition parseArguments (st : pstate) : res (list (str * str) * pstate) :=
  parseArguments_loop (S (length (items st))) [] st.

(** [typ[len(typ)-1] == '!']. *)
Definition ends_in_bang (typ : str) : bool := bool_decide (last typ = Some x21).

Fixpoint parseVariables_loop (fuel : nat) (st : pstate) : res pstate :=
  match fuel with
  | O => Crash out_of_fuel
  | S fuel =>
      let '(i, st) := recv st in
      if Typ i =? itemVarName then
        let varName := Val i in
        let '(i, st) := recv st in
        if negb (Typ i =? itemVarType) then Err "Expecting a variable type. Got: %v"
        else
          let varType := Val i in
          if bool_decide (varType = []) then Err "Type of a variable can't be empty"
          else
            let old := default [] (Value <$> vmap st !! varName) in
            let st := set_vmap (<[varName := mkVar old varType]> (vmap st)) st in
            let '(i, st) := recv st in
            ' (i, st) ←
              (if Typ i =? itemEqual then
                 let '(it, st) := recv st in
                 if negb (Typ it =? itemVarDefault) then
                   Err "Expecting default value of a variable. Got: %v"
                 else if ends_in_bang varType then
                   Err "Type ending with ! can't have default value: Got: %v"
                 else
                   let st := if bool_decide (old = [])
                             then set_vmap (<[varName := mkVar (Val it) varType]> (vmap st)) st
                             else st in
                   Ok (recv st)
               else Ok (i, st));
            if Typ i =? itemComma then parseVariables_loop fuel st
            else if Typ i =? itemRightRound then Ok st
            else parseVariables_loop fuel st
      else if Typ i =? itemRightRound then Ok st
      else Err "Expecting a variable name. Got: %v"
  end.

Definition parseVariables (st : pstate) : res pstate :=
  parseVariables_loop (S (length (items st))) st.

(** One turn of [checkValidity]. *)
Definition checkVar (v : varInfo) : res unit :=
  let typ := Type_ v in
  if bool_decide (typ = []) then Err "Type of variable %v not specified"
  else if ends_in_bang typ && bool_decide (Value v = []) then Err "Variable %v should be initialised"
  else
    let typ := if ends_in_bang typ then removelast typ else typ in
    if bool_decide (Value v = []) then Ok tt
    else if bool_decide (typ = bs "int") then _ ← ParseInt (Value v) 0 64; Ok tt
    else if bool_decide (typ = bs "float") then ParseFloat_err (Value v)
    else if bool_decide (typ = bs "bool") then _ ← ParseBool (Value v); Ok tt
    else if bool_decide (typ = bs "string") then Ok tt
    else Err "Type %v not supported".

Fixpoint checkAll (vs : list varInfo) : res unit :=
  match vs with [] => Ok tt | v :: vs => checkVar v;; checkAll vs end.

(** Go ranges over the map in an unspecified order; the order only matters for
    which of several errors is reported. *)
Definition checkValidity (vm : gmap str varInfo) : res unit := checkAll (map_to_list vm).*2.

Fixpoint parseMutationOp_loop (op : str) (mu : Mutation) (parse : bool) (its : list item) :
    res (Mutation * list item) :=
  match its with
  | [] => Err "Invalid mutation formatting."
  | i :: its =>
      if Typ i =? itemText then parseMutationOp_loop op mu parse its
      else if Typ i =? itemLeftCurl then
        if parse then Err "Too many left curls in set mutation."
        else parseMutationOp_loop op mu true its
      else if Typ i =? itemMutationContent then
        if negb parse then Err "Mutation syntax invalid."
        else if bool_decide (op = bs "set") then
          parseMutationOp_loop op (mkMutation (Val i) (MDel mu)) parse its
        else if bool_decide (op = bs "delete") then
          parseMutationOp_loop op (mkMutation (MSet mu) (Val i)) parse its
        else Err "Invalid mutation operation."
      else if Typ i =? itemRightCurl then Ok (mu, its)
      else parseMutationOp_loop op mu parse its
  end.

Definition parseMutationOp (op : str) (mu : option Mutation) (its : list item) :
    res (Mutation * list item) :=
  match mu with
  | None => Err "Mutation is nil."
  | Some mu => parseMutationOp_loop op mu false its
  end.

Fixpoint getMutation_loop (fuel : nat) (mu : option Mutation) (its : list item) :
    res (option Mutation * list item) :=
  match fuel with
  | O => Crash out_of_fuel
  | S fuel =>
      match its with
      | [] => Err "Invalid mutation."
      | i :: its =>
          if Typ i =? itemText then getMutation_loop fuel mu its
          else if Typ i =? itemLeftCurl then getMutation_loop fuel (Some (mkMutation [] [])) its
          else if Typ i =? itemRightCurl then Ok (mu, its)
          else if Typ i =? itemMutationOp then
            ' (mu, its) ← parseMutationOp (Val i) mu its;
            getMutation_loop fuel (Some mu) its
          else getMutation_loop fuel mu its
      end
  end.

Definition getMutation (st : pstate) : res (option Mutation * pstate) :=
  ' (mu, its) ← getMutation_loop (S (length (items st))) None (items st);
  Ok (mu, set_items its st).

(** ** Query blocks *)

(** [curp.Args[p.Key] = p.Val] for each argument; writing to a nil map panics. *)
Fixpoint storeArgs (curp : nat) (args : list (str * str)) (st : pstate) : res pstate :=
  match args with
  | [] => Ok st
  | (k, v) :: args =>
      if bool_decide (v = []) then Err "Got empty argument"
      else
        n ← get_node (nodes st) curp;
        match Args n with
        | None => Crash "assignment to entry in nil map"
        | Some m => st ← upd_node curp (set_Args (Some (<[k := v]> m))) st; storeArgs curp args st
        end
  end.

Fixpoint godeep (fuel : nat) (gq curp : nat) (st : pstate) : res pstate :=
  match fuel with
  | O => Crash out_of_fuel
  | S fuel =>
      match items st with
      | [] => Ok st
      | i :: its =>
          let st := set_items its st in
          if Typ i =? ItemError then item_error i
          else if Typ i =? ItemEOF then Ok st
          else if Typ i =? itemRightCurl then Ok st
          else if Typ i =? itemFragmentSpread then
            if (length (Val i) <=? 3)%nat then Err "Fragment name invalid: %s"
            else
              let '(c, st) := alloc (new_spread (drop 3 (Val i))) st in
              st ← upd_node gq (λ n, set_Children (Children n ++ [c]) n) st;
              godeep fuel gq curp st
          else if Typ i =? itemName then
            let '(c, st) := alloc (new_query (Val i)) st in
            st ← upd_node gq (λ n, set_Children (Children n ++ [c]) n) st;
            godeep fuel gq c st
          else if Typ i =? itemAlias then
            st ← upd_node curp (λ n, set_Attr (Val i) (set_Alias (Attr n) n)) st;
            godeep fuel gq curp st
          else if Typ i =? itemLeftCurl then
            st ← godeep fuel curp curp st;
            godeep fuel gq curp st
          else if Typ i =? itemLeftRound then
            let '(i, st) := recv st in
            if Typ i =? itemArgument then
              ' (args, st) ← parseArguments st;
              st ← storeArgs curp args st;
              godeep fuel gq curp st
            else godeep fuel gq curp st
          else if Typ i =? itemDirectiveName then
            if bool_decide (Val i = bs "@filter") then
              ' (filter, its) ← parseFilter (items st);
              st ← upd_node curp (set_Filter filter) (set_items its st);
              godeep fuel gq curp st
            else Err "Unknown directive [%s]"
          else godeep fuel gq curp st
      end
  end.

(** [godeep(l, gq)]: every turn and every recursive call takes an item. *)
Definition godeep_from (gq : nat) (st : pstate) : res pstate :=
  godeep (S (length (items st))) gq gq st.

(** The root's arguments. *)
Fixpoint rootArgs (gq : nat) (args : list (str * str)) (st : pstate) : res pstate :=
  match args with
  | [] => Ok st
  | (k, v) :: args =>
      if bool_decide (k = bs "_uid_") then
        uid ← ParseUint v 0 64;
        st ← upd_node gq (set_UID uid) st;
        rootArgs gq args st
      else if bool_decide (k = bs "_xid_") then
        st ← upd_node gq (set_XID v) st;
        rootArgs gq args st
      else Err "Expecting _uid_ or _xid_. Got: %+v"
  end.

Definition getRoot (st : pstate) : res (nat * pstate) :=
  let '(gq, st) := alloc (new_query []) st in
  let '(i, st) := recv st in
  if negb (Typ i =? itemName) then Err "Expected some name. Got: %v"
  else
    st ← upd_node gq (set_Alias (Val i)) st;
    let '(i, st) := recv st in
    if negb (Typ i =? itemLeftRound) then Err "Expected variable start. Got: %v"
    else
      let '(i, st) := recv st in
      if Typ i =? itemGenerator then
        ' (gen, its) ← parseFunction (items st);
        st ← upd_node gq (set_Func gen) (set_items its st);
        Ok (gq, st)
      else if Typ i =? itemArgument then
        ' (args, st) ← parseArguments st;
        st ← rootArgs gq args st;
        Ok (gq, st)
      else Err "Unexpected root argument.".

Definition getQuery (st : pstate) : res (nat * pstate) :=
  ' (gq, st) ← getRoot st;
  let '(i, st) := recv st in
  if Typ i =? itemLeftCurl then st ← godeep_from gq st; Ok (gq, st)
  else Err "Malformed Query. Missing {".

(** The name of a fragment: everything up to the curly bracket. *)
Fixpoint fragmentName (name : str) (its : list item) : res (str * list item) :=
  match its with
  | [] => Ok (name, [])
  | i :: its =>
      if Typ i =? itemText then
        let v := TrimSpace (Val i) in
        fragmentName (if (0 <? length v)%nat && bool_decide (name = []) then v else name) its
      else if Typ i =? itemLeftCurl then Ok (name, its)
      else Err "Unexpected item in fragment: %v %v"
  end.

Definition getFragment (st : pstate) : res (str * fragmentNode * pstate) :=
  ' (name, its) ← fragmentName [] (items st);
  if bool_decide (name = []) then Err "Empty fragment name"
  else
    let '(gq, st) := alloc (new_query []) (set_items its st) in
    st ← godeep_from gq st;
    Ok (name, mkFragment gq false false, st).

Fixpoint getVariablesAndQuery_loop (fuel : nat) (name : str) (st : pstate) :
    res (option nat * pstate) :=
  match fuel with
  | O => Crash out_of_fuel
  | S fuel =>
      match items st with
      | [] => Ok (None, st)
      | i :: its =>
          let st := set_items its st in
          if Typ i =? ItemError then item_error i
          else if Typ i =? itemText then
            if (0 <? length (TrimSpace (Val i)))%nat then
              if bool_decide (name = []) then getVariablesAndQuery_loop fuel (Val i) st
              else Err "Multiple word query name not allowed."
            else getVariablesAndQuery_loop fuel name st
          else if Typ i =? itemLeftRound then
            if bool_decide (name = []) then Err "Variables can be defined only in named queries."
            else
              st ← parseVariables st;
              checkValidity (vmap st);;
              getVariablesAndQuery_loop fuel name st
          else if Typ i =? itemLeftCurl then
            ' (gq, st) ← getQuery st; Ok (Some gq, st)
          else getVariablesAndQuery_loop fuel name st
      end
  end.

Definition getVariablesAndQuery (st : pstate) : res (option nat * pstate) :=
  getVariablesAndQuery_loop (S (length (items st))) [] st.

(** ** Fragments *)
Notation fragmentMap := (gmap str fragmentNode).

(** The nodes and the marks of the fragments. *)
Notation estate := (list GraphQuery * fragmentMap)%type.

(** [fn.expand(fmap)] for the fragment [fname]; [rec] is [expandFragments]. *)
Definition expand (rec : nat → estate → res estate) (fname : str) (fn : fragmentNode) (st : estate) :
    res estate :=
  if Exited fn then Ok st
  else if Entered fn then Err "Cycle detected: %s"
  else
    let '(ns, fmap) := st in
    ' (ns, fmap) ← rec (FGq fn) (ns, <[fname := mkFragment (FGq fn) true false]> fmap);
    Ok (ns, <[fname := mkFragment (FGq fn) true true]> fmap).

(** The loop over the children, with [newChildren]. *)
Fixpoint expandChildren (rec : nat → estate → res estate) (children newChildren : list nat)
    (st : estate) : res (list nat * estate) :=
  match children with
  | [] => Ok (newChildren, st)
  | child :: children =>
      n ← get_node st.1 child;
      if isFragment n then
        match st.2 !! fragment n with
        | None => Err "Missing fragment: %s"
        | Some fchild =>
            st ← expand rec (fragment n) fchild st;
            g ← get_node st.1 (FGq fchild);
            expandChildren rec children (newChildren ++ Children g) st
        end
      else
        st ← rec child st;
        expandChildren rec children (newChildren ++ [child]) st
  end.

Fixpoint expandFragments (fuel : nat) (gq : nat) (st : estate) : res estate :=
  match fuel with
  | O => Crash out_of_fuel
  | S fuel =>
      n ← get_node st.1 gq;
      r ← expandChildren (expandFragments fuel) (Children n) [] st;
      let '(newChildren, st) := (r : list nat * estate) in
      g ← get_node st.1 gq;
      Ok (<[gq := set_Children newChildren g]> st.1, st.2)
  end.

(** A call is for a node below its caller's or enters a fragment. *)
Definition expand_bound (st : estate) : nat := S (length st.1 * S (size st.2)).

(** ** Variables *)
(** One argument: [v[0]] panics on the empty string. *)
Fixpoint substArgs (vm : gmap str varInfo) (kvs : list (str * str)) (m : gmap str str) :
    res (gmap str str) :=
  match kvs with
  | [] => Ok m
  | (k, v) :: kvs =>
      b ← index v 0;
      if bool_decide (b = x24) then
        match vm !! v with
        | None => Err "Variable not defined %v"
        | Some va => substArgs vm kvs (<[k := Value va]> m)
        end
      else substArgs vm kvs m
  end.

(** Shared nodes are visited once per path that leads to them. *)
Fixpoint substituteVariables (fuel : nat) (vm : gmap str varInfo) (gq : nat) (ns : list GraphQuery) :
    res (list GraphQuery) :=
  match fuel with
  | O => Crash out_of_fuel
  | S fuel =>
      n ← get_node ns gq;
      m ← (match Args n with
           | None => Ok None
           | Some m => m' ← substArgs vm (map_to_list m) m; Ok (Some m')
           end);
      (fix go (children : list nat) (ns : list GraphQuery) : res (list GraphQuery) :=
         match children with
         | [] => Ok ns
         | c :: children => ns ← substituteVariables fuel vm c ns; go children ns
         end) (Children n) (<[gq := set_Args m n]> ns)
  end.

(** ** [Parse] *)
Record parsed : Type := mkParsed { pq : option nat; pmu : option Mutation; pfrag : fragmentMap }.

(** The loop over the items. *)
Fixpoint Parse_loop (fuel : nat) (r : parsed) (st : pstate) : res (parsed * pstate) :=
  match fuel with
  | O => Crash out_of_fuel
  | S fuel =>
      match items st with
      | [] => Ok (r, st)
      | i :: its =>
          let st := set_items its st in
          if Typ i =? ItemError then item_error i
          else if Typ i =? itemText then Parse_loop fuel r st
          else if Typ i =? itemOpType then
            if bool_decide (Val i = bs "mutation") then
              match pmu r with
              | Some _ => Err "Only one mutation block allowed."
              | None =>
                  ' (mu, st) ← getMutation st;
                  Parse_loop fuel (mkParsed (pq r) mu (pfrag r)) st
              end
            else if bool_decide (Val i = bs "fragment") then
              ' (name, fnode, st) ← getFragment st;
              Parse_loop fuel (mkParsed (pq r) (pmu r) (<[name := fnode]> (pfrag r))) st
            else if bool_decide (Val i = bs "query") then
              ' (gq, st) ← getVariablesAndQuery st;
              Parse_loop fuel (mkParsed gq (pmu r) (pfrag r)) st
            else Parse_loop fuel r st
          else if Typ i =? itemLeftCurl then
            ' (gq, st) ← getQuery st;
            Parse_loop fuel (mkParsed (Some gq) (pmu r) (pfrag r)) st
          else Parse_loop fuel r st
      end
  end.

(** [Parse] from the decoded envelope: the root's address with the nodes it
    points into, and the mutation. *)
Definition Parse (query : str) (vm : gmap str varInfo) :
    res (option (nat * list GraphQuery) * option Mutation) :=
  its ← run query;
  ' (r, st) ← Parse_loop (S (length its)) (mkParsed None None ∅) (mkP its [] vm);
  match pq r with
  | None => Ok (None, pmu r)
  | Some gq =>
      ' (ns, _) ← expandFragments (expand_bound (nodes st, pfrag r)) gq (nodes st, pfrag r);
      ns ← substituteVariables (S (length ns)) (vmap st) gq ns;
      Ok (Some (gq, ns), pmu r)
  end.
End gql.
