(* ===== verification/GqlFilter.v ===== *)
(** Filter expressions: the operator-precedence parser of [gql/parser.go]
    against the grammar of filters, in which [&&] binds tighter than [||] and
    both associate to the left. *)
From S2P Require Import Prelude Bytes Strconv Lex GqlLex GqlParse.
From stdpp Require Import options.
#[local] Open Scope Z_scope.

Module gql_filter.
Import lex gql_lex gql.

(** Filter expressions as written, brackets included. *)
Inductive fexp : Type :=
| FCall (f : Function)
| FAnd (a b : fexp)
| FOr (a b : fexp)
| FParen (e : fexp).

(** The tree an expression means. *)
Fixpoint tree (e : fexp) : FilterTree :=
  match e with
  | FCall f => mkFilter [] (Some f) []
  | FAnd a b => mkFilter (bs "&") None [tree a; tree b]
  | FOr a b => mkFilter (bs "|") None [tree a; tree b]
  | FParen e => tree e
  end.

(** The arguments of a call as they are written: the attribute comes first, and
    a call without one has no arguments. *)
Definition call_ok (f : Function) : Prop := FAttr f = [] → FArgs f = [].

Definition call_items (f : Function) : list item :=
  mkItem itemFilterFunc (FName f) :: mkItem itemLeftRound (bs "(") ::
  ((λ a, mkItem itemFilterFuncArg a) <$> (if bool_decide (FAttr f = []) then [] else FAttr f :: FArgs f))
  ++ [mkItem itemRightRound (bs ")")].

(** The grammar by levels: 0 for disjunctions, 1 for conjunctions, 2 for calls
    and bracketed expressions. *)
Fixpoint at_level (n : nat) (e : fexp) : Prop :=
  match e with
  | FCall f => call_ok f
  | FParen e => at_level 0 e
  | FAnd a b => (n ≤ 1)%nat ∧ at_level 1 a ∧ at_level 2 b
  | FOr a b => (n ≤ 0)%nat ∧ at_level 0 a ∧ at_level 1 b
  end.

Fixpoint print (e : fexp) : list item :=
  match e with
  | FCall f => call_items f
  | FParen e => mkItem itemLeftRound (bs "(") :: print e ++ [mkItem itemRightRound (bs ")")]
  | FAnd a b => print a ++ mkItem itemFilterAnd (bs "&&") :: print b
  | FOr a b => print a ++ mkItem itemFilterOr (bs "||") :: print b
  end.

(** *** Calls *)
Lemma funcArgs_args f args rest :
  FAttr f ≠ [] →
  funcArgs f (((λ a, mkItem itemFilterFuncArg a) <$> args) ++ mkItem itemRightRound (bs ")") :: rest)
  = Ok (mkFunction (FAttr f) (FName f) (FArgs f ++ args), true, rest).
Proof.
  revert f. induction args as [|a args IH]; intros f Hf; simpl.
  - rewrite app_nil_r. by destruct f.
  - destruct (Nat.eqb_spec (length (FAttr f)) 0) as [Hl|_]; [by apply nil_length_inv in Hl|].
    rewrite IH by done. simpl. by rewrite <-app_assoc.
Qed.

Lemma funcCall_items f rest :
  call_ok f →
  ∃ its, call_items f ++ rest = mkItem itemFilterFunc (FName f) :: its ∧
    funcCall (FName f) its = Ok (f, true, rest).
Proof.
  intros Hf. unfold call_items. simpl. eexists. split; [reflexivity|]. simpl.
  rewrite <-app_assoc. simpl. destruct f as [attr name args]. unfold call_ok in Hf. simpl in *.
  case_bool_decide as Ha.
  - by rewrite Ha, (Hf Ha).
  - simpl. by rewrite funcArgs_args.
Qed.

(** *** The stacks *)
Definition paren : FilterTree := mkFilter (bs "(") None [].
Definition op_node (op : list byte) : FilterTree := mkFilter op None [].

(** Operators waiting on the stack, and the precedence of the top one. *)
Definition op_ok (t : FilterTree) : Prop :=
  t = paren ∨ t = op_node (bs "&") ∨ t = op_node (bs "|").

Definition prec (t : FilterTree) : Z := filterOpPrecedence (Op t).

Definition top_prec (ops : list FilterTree) : Z :=
  match ops with [] => 0 | t :: _ => prec t end.

(** Reducing while the operator on top has precedence at least [p]. *)
Fixpoint reduce (p : Z) (ops vals : list FilterTree) : res (list FilterTree * list FilterTree) :=
  match ops with
  | [] => Ok ([], vals)
  | t :: ops' =>
      if prec t <? p then Ok (ops, vals)
      else match vals with
           | v1 :: v2 :: vals => reduce p ops' (set_Child [v2; v1] t :: vals)
           | _ => Crash "Trying to pop empty stack"
           end
  end.

Lemma eval_loop_reduce n p ops vals stop :
  (∀ t, t ∈ ops → stop (Op t) = (prec t <? p)) → (length ops ≤ n)%nat →
  eval_loop n stop ops vals = reduce p ops vals.
Proof.
  revert ops vals. induction n as [|n IH]; intros ops vals Hstop Hn.
  { by destruct ops; [|simpl in Hn; lia]. }
  destruct ops as [|t ops]; [done|]. simpl. rewrite Hstop by (left). case_match; [done|].
  unfold evalStack. simpl. destruct vals as [|v1 [|v2 vals]]; [done|done|]. simpl.
  apply IH; [|simpl in Hn; lia]. intros t' Ht'. apply Hstop. by right.
Qed.

Lemma reduce_top p ops vals : top_prec ops < p → reduce p ops vals = Ok (ops, vals).
Proof. intros Hp. destruct ops as [|t ops]; [done|]. simpl in *. by rewrite (proj2 (Z.ltb_lt _ _)). Qed.

(** *** The bound on the loop is never reached *)
Lemma funcArgs_length f its f' b its' :
  funcArgs f its = Ok (f', b, its') → (length its' ≤ length its)%nat.
Proof.
  revert f. induction its as [|i its IH]; intros f; simpl; [by intros [= _ _ <-]|].
  destruct (_ =? itemRightRound); [intros [= _ _ <-]; simpl; lia|].
  destruct (negb _); [done|]. intros H%IH. lia.
Qed.

Lemma funcCall_length name its f b its' :
  funcCall name its = Ok (f, b, its') → (length its' < length its)%nat.
Proof.
  destruct its as [|i its]; [done|]. simpl. destruct (negb _); [done|].
  intros H%funcArgs_length. lia.
Qed.

Lemma parseFilter_loop_fuel fuel1 fuel2 its ops vals :
  (length its < fuel1)%nat → (length its < fuel2)%nat →
  parseFilter_loop fuel1 its ops vals = parseFilter_loop fuel2 its ops vals.
Proof.
  revert fuel2 its ops vals. induction fuel1 as [|fuel1 IH]; intros [|fuel2] its ops vals H1 H2; [lia..|].
  simpl. destruct its as [|i its]; [done|]. simpl in H1, H2.
  destruct (Typ i =? itemFilterFunc).
  { destruct (funcCall _ _) as [[[f b] its']| |] eqn:Hf; [|done..]. cbn [mbind res_bind].
    apply funcCall_length in Hf. destruct (negb b); [done|]. apply IH; lia. }
  destruct (Typ i =? itemLeftRound); [apply IH; lia|].
  destruct (Typ i =? itemRightRound).
  { destruct (evalUntil _ _ _) as [[ops' vals']| |]; [|done..]. cbn [mbind res_bind].
    destruct (pop _) as [[t ops'']| |]; [|done..]. cbn [mbind res_bind]. destruct ops''; [done|]. apply IH; lia. }
  destruct (_ || _); [|apply IH; lia].
  destruct (assert_true _ _); [|done..]. cbn [mbind res_bind].
  destruct (evalUntil _ _ _) as [[ops' vals']| |]; [|done..]. apply IH; lia.
Qed.

Definition filter_loop (its : list item) (ops vals : list FilterTree) :
    res (list FilterTree * list FilterTree * list item) :=
  parseFilter_loop (S (length its)) its ops vals.

Lemma filter_loop_call f rest ops vals :
  call_ok f → filter_loop (call_items f ++ rest) ops vals =
    filter_loop rest ops (mkFilter [] (Some f) [] :: vals).
Proof.
  intros Hf. destruct (funcCall_items f rest Hf) as (its & -> & Hcall).
  pose proof (funcCall_length _ _ _ _ _ Hcall) as Hlen. unfold filter_loop at 1.
  generalize (le_n (length (mkItem itemFilterFunc (FName f) :: its))).
  generalize (length (mkItem itemFilterFunc (FName f) :: its)) at 2 3 as n. intros n Hn.
  cbn [parseFilter_loop Typ Val]. rewrite Hcall. cbn [Z.eqb negb mbind res_bind].
  apply parseFilter_loop_fuel; simpl in *; lia.
Qed.

Lemma filter_loop_open v rest ops vals :
  filter_loop (mkItem itemLeftRound v :: rest) ops vals = filter_loop rest (paren :: ops) vals.
Proof. done. Qed.

Lemma stop_prec p t : op_ok t → 1 ≤ p → is_paren (Op t) = (prec t <? 1).
Proof. intros [-> | [-> | ->]] ?; vm_compute; done. Qed.

Lemma filter_loop_close v rest ops vals ops' vals' :
  Forall op_ok ops → reduce 1 ops vals = Ok (paren :: ops', vals') → ops' ≠ [] →
  filter_loop (mkItem itemRightRound v :: rest) ops vals = filter_loop rest ops' vals'.
Proof.
  intros Hops Hred Hne. unfold filter_loop. cbn. unfold evalUntil.
  rewrite (eval_loop_reduce _ 1), Hred; [|intros t Ht; apply (stop_prec 1); [|lia]|done].
  - simpl. by destruct ops'.
  - rewrite Forall_forall in Hops. by apply Hops.
Qed.

Lemma filter_loop_op (and : bool) v rest ops vals ops' vals' :
  reduce (if and then 2 else 1) ops vals = Ok (ops', vals') →
  filter_loop (mkItem (if and then itemFilterAnd else itemFilterOr) v :: rest) ops vals =
    filter_loop rest (op_node (if and then bs "&" else bs "|") :: ops') vals'.
Proof.
  intros Hred. unfold filter_loop. destruct and; simpl; unfold evalUntil;
    (erewrite eval_loop_reduce; [rewrite Hred; done|done|done]).
Qed.

(** *** One level at a time

    Reading an expression leaves operators and values that any reduction for
    this level turns into the expression's tree. *)
Definition reads (n : nat) (e : fexp) : Prop :=
  ∀ rest ops vals,
    ops ≠ [] → Forall op_ok ops → top_prec ops < Z.of_nat n + 1 →
    ∃ ops1 vals1,
      filter_loop (print e ++ rest) ops vals = filter_loop rest (ops1 ++ ops) (vals1 ++ vals) ∧
      Forall op_ok ops1 ∧
      ∀ p, 1 ≤ p ≤ Z.of_nat n + 1 →
        reduce p (ops1 ++ ops) (vals1 ++ vals) = reduce p ops (tree e :: vals).

Lemma reads_op (and : bool) n a b :
  (Z.of_nat n < if and then 2 else 1) →
  reads (if and then 1 else 0)%nat a → reads (if and then 2 else 1)%nat b →
  reads n (if and then FAnd a b else FOr a b).
Proof.
  intros Hn Ha Hb rest ops vals Hne Hops Htop.
  set (o := if and then bs "&" else bs "|").
  assert (∃ i, print (if and then FAnd a b else FOr a b) = print a ++ i :: print b ∧
    i = mkItem (if and then itemFilterAnd else itemFilterOr) (Val i)) as (i & Hi & Heq)
    by (destruct and; simpl; eauto).
  rewrite Hi, <-app_assoc, Heq. simpl.
  destruct (Ha (mkItem (if and then itemFilterAnd else itemFilterOr) (Val i) :: print b ++ rest) ops vals Hne Hops) as (ops1 & vals1 & -> & H1 & Hred1).
  { destruct and; simpl in *; lia. }
  rewrite (filter_loop_op and _ _ _ _ ops (tree a :: vals)).
  2: { rewrite Hred1 by (destruct and; lia). apply reduce_top. destruct and; simpl in *; lia. }
  fold o. destruct (Hb rest (op_node o :: ops) (tree a :: vals)) as (ops2 & vals2 & -> & H2 & Hred2).
  { done. }
  { constructor; [|done]. unfold o. right. destruct and; [by left|by right]. }
  { unfold o. by destruct and. }
  exists (ops2 ++ [op_node o]), (vals2 ++ [tree a]). rewrite <-!app_assoc. simpl. split; [done|]. split.
  { apply Forall_app. split; [done|]. constructor; [|done]. right. unfold o. destruct and; [by left|by right]. }
  intros p Hp. rewrite Hred2 by (destruct and; lia). simpl.
  assert (prec (op_node o) = if and then 2 else 1) as -> by (unfold o; by destruct and).
  rewrite (proj2 (Z.ltb_ge _ _)) by (destruct and; lia). unfold o. by destruct and.
Qed.

Lemma reads_level e n : (n ≤ 2)%nat → at_level n e → reads n e.
Proof.
  revert n. induction e as [f|a IHa b IHb|a IHa b IHb|e IH]; intros n Hn Hlev; simpl in Hlev.
  - intros rest ops vals Hne Hops Htop. exists [], [mkFilter [] (Some f) []].
    split; [by apply filter_loop_call|done].
  - destruct Hlev as (Hn1 & Ha & Hb). apply (reads_op true); [lia|apply IHa|apply IHb]; done || lia.
  - destruct Hlev as (Hn1 & Ha & Hb). apply (reads_op false); [lia|apply IHa|apply IHb]; done || lia.
  - intros rest ops vals Hne Hops Htop. simpl. rewrite filter_loop_open, <-app_assoc. simpl.
    destruct (IH 0%nat ltac:(lia) Hlev (mkItem itemRightRound (bs ")") :: rest) (paren :: ops) vals)
      as (ops1 & vals1 & -> & H1 & Hred); [done|by constructor; [left|]|done|].
    rewrite (filter_loop_close _ _ _ _ ops (tree e :: vals)); [|apply Forall_app; split; [done|by constructor; [left|]]|by apply Hred|done].
    by exists [], [tree e].
Qed.

(** C16: The filter parser implements the grammar: it reads a bracketed filter
    expression, with [&&] binding tighter than [||], both associating to the
    left and brackets overriding both, as exactly the tree the expression
    means, and stops behind its closing bracket. *)
Theorem parseFilter_grammar e rest :
  at_level 0 e →
  parseFilter (mkItem itemLeftRound (bs "(") :: print e ++ mkItem itemRightRound (bs ")") :: rest) =
    Ok (Some (tree e), rest).
Proof.
  intros He. unfold parseFilter. change (negb (Typ _ =? itemLeftRound)) with false. cbv iota.
  set (its := print e ++ mkItem itemRightRound (bs ")") :: rest).
  change (parseFilter_loop _ its [_] []) with (filter_loop its [paren] []).
  destruct (reads_level e 0 ltac:(lia) He (mkItem itemRightRound (bs ")") :: rest) [paren] [])
    as (ops1 & vals1 & Hloop & H1 & Hred); [done|by constructor; [left|]|done|].
  subst its. rewrite Hloop. unfold filter_loop. cbn. unfold evalUntil.
  rewrite (eval_loop_reduce _ 1); [|intros t Ht; apply (stop_prec 1); [|lia]|done].
  - rewrite Hred by lia. done.
  - assert (Forall op_ok (ops1 ++ [paren])) as Hall by (apply Forall_app; split; [done|by constructor; [left|]]).
    rewrite Forall_forall in Hall. by apply Hall.
Qed.

(** [a && (b || c) || d] *)
Definition ex_filter : fexp :=
  let call n := FCall (mkFunction (bs "name") n [bs "x"]) in
  FOr (FAnd (call (bs "a")) (FParen (FOr (call (bs "b")) (call (bs "c"))))) (call (bs "d")).

Lemma parseFilter_grammar_witness :
  at_level 0 ex_filter ∧
  parseFilter (mkItem itemLeftRound (bs "(") :: print ex_filter ++ [mkItem itemRightRound (bs ")")]) =
    Ok (Some (tree ex_filter), []).
Proof.
  assert (at_level 0 ex_filter) as H by (cbn; split_and!; (lia || by intros ?)).
  split; [exact H|]. apply (parseFilter_grammar ex_filter [] H).
Defined.
End gql_filter.
