(* ===== verification/GqlSafe.v ===== *)
(** How parsing a query can end: the loops and recursions of [gql/parser.go]
    all finish within their bounds, and the process can die in three places only.
    Fragments are expanded for good. *)
From S2P Require Import Prelude Bytes Strconv Lex GqlLex GqlParse.
From stdpp Require Import options.
#[local] Open Scope Z_scope.

Module gql_safe.
Import lex gql_lex gql strconv.

(** The assertions and panics that input can reach. *)
Definition reasons : list string :=
  ["Trying to pop empty stack"; "Op stack should be empty when we exit"; "index out of range"]%string.

Definition reachable_crash (m : string) : Prop := m ∈ reasons.

Notation safe := (out reachable_crash).

Lemma reason_in (m : string) : bool_decide (m ∈ reasons) = true → reachable_crash m.
Proof. apply bool_decide_eq_true. Qed.

(** *** Numbers *)
Lemma digits_loop_safe base maxVal n s : safe (digits_loop base maxVal n s) (λ _, True).
Proof.
  revert n. induction s as [|b s IH]; intros n; simpl; [done|].
  destruct (digit_val b); [|done]. repeat case_match; done || apply IH.
Qed.

Lemma ParseUint_safe s base bits : safe (ParseUint s base bits) (λ _, True).
Proof. unfold ParseUint. repeat case_match; done || apply digits_loop_safe. Qed.

Lemma ParseInt_safe s base bits : safe (ParseInt s base bits) (λ _, True).
Proof.
  unfold ParseInt. destruct s; [done|]. apply out_bind. eapply out_mono; [|apply ParseUint_safe].
  intros un _. simpl. by repeat case_match.
Qed.

Lemma checkValidity_safe vm : safe (checkValidity vm) (λ _, True).
Proof.
  unfold checkValidity. induction (map_to_list vm).*2 as [|v vs IH]; [done|]. simpl.
  apply out_bind. apply (out_mono _ _ (λ _, True)); [by intros|]. unfold checkVar, ParseFloat_err, ParseBool.
  repeat case_match; try exact Logic.I; apply out_bind; (eapply out_mono; [by intros|apply ParseInt_safe]).
Qed.

(** *** Items *)
Lemma recv_length st i st' :
  recv st = (i, st') →
  nodes st' = nodes st ∧ vmap st' = vmap st ∧
  ((Typ i = ItemEOF ∧ items st = [] ∧ items st' = []) ∨ (length (items st) = S (length (items st'))))%nat.
Proof.
  unfold recv. destruct (items st) as [|j its] eqn:Hi; intros [= <- <-]; simpl; rewrite ?Hi.
  - split_and!; [done|done|]. by left.
  - split_and!; [done|done|]. by right.
Qed.

(** Reading an item of a type other than [ItemEOF] shortens the list. *)
Lemma recv_not_eof st i st' :
  recv st = (i, st') → Typ i ≠ ItemEOF →
  nodes st' = nodes st ∧ length (items st) = S (length (items st')).
Proof. intros (Hn & _ & [[? _]|?])%recv_length Hne; [done|auto]. Qed.

Lemma recv_le st i st' :
  recv st = (i, st') → nodes st' = nodes st ∧ (length (items st') ≤ length (items st))%nat.
Proof. intros (Hn & _ & [(_ & -> & ->)|Hl])%recv_length; split; done || simpl; lia. Qed.

Lemma parseArguments_safe st :
  safe (parseArguments st) (λ r, nodes r.2 = nodes st ∧ (length (items r.2) ≤ length (items st))%nat).
Proof.
  unfold parseArguments.
  assert (∀ fuel result st', nodes st' = nodes st → (length (items st') < fuel)%nat →
    (length (items st') ≤ length (items st))%nat →
    safe (parseArguments_loop fuel result st')
      (λ r, nodes r.2 = nodes st ∧ (length (items r.2) ≤ length (items st))%nat)) as Hloop; [|apply Hloop; lia || done].
  induction fuel as [|fuel IH]; intros result st' Hn Hf Hle; [lia|]. simpl.
  destruct (recv st') as [i st1] eqn:H1. pose proof (recv_le _ _ _ H1) as [Hn1 Hl1].
  destruct (Z.eqb_spec (Typ i) itemArgName) as [Ht|_].
  - apply recv_not_eof in H1 as [_ Hl1']; [|by rewrite Ht].
    destruct (recv st1) as [j st2] eqn:H2. apply recv_le in H2 as [Hn2 Hl2].
    destruct (negb _); [done|]. apply IH; [congruence|lia|lia].
  - destruct (Typ i =? itemRightRound); [|done]. simpl. split; [congruence|lia].
Qed.

Lemma parseVariables_loop_safe fuel st0 st :
  nodes st = nodes st0 → (length (items st) < fuel)%nat → (length (items st) ≤ length (items st0))%nat →
  safe (parseVariables_loop fuel st)
    (λ st', nodes st' = nodes st0 ∧ (length (items st') ≤ length (items st0))%nat).
Proof.
  revert st. induction fuel as [|fuel IH]; intros st Hn Hf Hle; [lia|]. cbn [parseVariables_loop].
  destruct (recv st) as [i st1] eqn:H1. pose proof (recv_le _ _ _ H1) as [Hn1 Hle1].
  destruct (Z.eqb_spec (Typ i) itemVarName) as [Ht|_].
  2: { destruct (_ =? itemRightRound); [|done]. simpl. split; [congruence|lia]. }
  apply recv_not_eof in H1 as [_ Hl1]; [|by rewrite Ht].
  destruct (recv st1) as [j st2] eqn:H2. apply recv_le in H2 as [Hn2 Hl2].
  destruct (negb _); [done|]. destruct (bool_decide _); [done|].
  set (st3 := set_vmap _ st2).
  assert (nodes st3 = nodes st0 ∧ (length (items st3) ≤ length (items st1))%nat) as [Hn3 Hl3]
    by (split; simpl; [congruence|lia]).
  destruct (recv st3) as [k st4] eqn:H4. apply recv_le in H4 as [Hn4 Hl4].
  apply out_bind.
  apply (out_mono _ _ (λ r, nodes r.2 = nodes st0 ∧ (length (items r.2) ≤ length (items st1))%nat)).
  { intros [k' st5] [Hn5 Hl5]. simpl in *.
    repeat case_match; [apply IH; [done|lia|lia]|simpl; split; [done|lia]|apply IH; [done|lia|lia]]. }
  destruct (_ =? itemEqual); [|simpl; split; [congruence|lia]].
  destruct (recv st4) as [it st5] eqn:H5. apply recv_le in H5 as [Hn5 Hl5].
  destruct (negb _); [done|]. destruct (ends_in_bang _); [done|].
  set (st6 := if bool_decide _ then _ else _).
  assert (nodes st6 = nodes st5 ∧ items st6 = items st5) as [Hn6 Hi6] by (unfold st6; by case_match).
  destruct (recv st6) as [k'' st7] eqn:H7. apply recv_le in H7 as [Hn7 Hl7]. rewrite Hi6 in Hl7.
  simpl. split; [congruence|lia].
Qed.

Lemma parseMutationOp_loop_safe op mu parse its :
  safe (parseMutationOp_loop op mu parse its) (λ r, (length r.2 ≤ length its)%nat).
Proof.
  revert mu parse. induction its as [|i its IH]; intros mu parse; simpl; [done|].
  repeat case_match; try exact Logic.I; try (simpl; lia);
    (eapply out_mono; [|apply IH]; simpl; intros; lia).
Qed.

Lemma getMutation_loop_safe fuel mu its :
  (length its < fuel)%nat →
  safe (getMutation_loop fuel mu its) (λ r, (length r.2 ≤ length its)%nat).
Proof.
  revert mu its. induction fuel as [|fuel IH]; intros mu its Hf; [lia|]. simpl.
  destruct its as [|i its]; [done|]. simpl in Hf.
  assert (∀ mu its', (length its' ≤ length its)%nat →
    safe (getMutation_loop fuel mu its') (λ r, (length r.2 ≤ length (i :: its))%nat)) as Hrec.
  { intros mu' its' Hl. eapply out_mono; [|apply IH; lia]. simpl. intros. lia. }
  repeat case_match; try (apply Hrec; lia); [simpl; lia|].
  apply out_bind. unfold parseMutationOp. destruct mu as [mu|]; [|done].
  eapply out_mono; [|apply parseMutationOp_loop_safe]. intros [mu' its'] Hl. simpl in *. by apply Hrec.
Qed.

Lemma funcArgs_safe f its : safe (funcArgs f its) (λ r, (length r.2 ≤ length its)%nat).
Proof.
  revert f. induction its as [|i its IH]; intros f; simpl; [lia|].
  destruct (_ =? itemRightRound); [simpl; lia|]. destruct (negb _); [done|].
  eapply out_mono; [|apply IH]. simpl. intros. lia.
Qed.

Lemma funcCall_safe name its : safe (funcCall name its) (λ r, (length r.2 ≤ length its)%nat).
Proof.
  destruct its as [|i its]; simpl; [done|]. destruct (negb _); [done|].
  eapply out_mono; [|apply funcArgs_safe]. simpl. intros. lia.
Qed.

Lemma parseFunction_safe its : safe (parseFunction its) (λ r, (length r.2 ≤ length its)%nat).
Proof.
  unfold parseFunction.
  assert (∀ fuel g its', (length its' < fuel)%nat →
    safe (parseFunction_loop fuel g its') (λ r, (length r.2 ≤ length its')%nat)) as Hloop; [|apply Hloop; lia].
  induction fuel as [|fuel IH]; intros g its' Hf; [lia|]. simpl. destruct its' as [|i its']; [simpl; lia|].
  simpl in Hf. repeat case_match; [|simpl; lia|done]. apply out_bind.
  eapply out_mono; [|apply funcCall_safe]. intros [[f b] its''] Hl. simpl in *.
  eapply out_mono; [|apply IH; lia]. simpl. intros. lia.
Qed.

(** *** Filters *)
Lemma pop_safe t : safe (pop t) (λ r, t = r.1 :: r.2).
Proof. destruct t; simpl; [by apply reason_in|done]. Qed.

Lemma eval_loop_safe n stop ops vals : safe (eval_loop n stop ops vals) (λ _, True).
Proof.
  revert ops vals. induction n as [|n IH]; intros ops vals; simpl; [done|].
  destruct ops as [|t ops]; [done|]. destruct (stop (Op t)); [done|]. apply out_bind.
  apply (out_mono _ _ (λ _, True)); [intros [ops' vals'] _; apply IH|].
  unfold evalStack. simpl. destruct vals as [|v1 [|v2 vals]]; simpl; [by apply reason_in..|done].
Qed.

Lemma parseFilter_loop_safe fuel its ops vals :
  (length its < fuel)%nat →
  safe (parseFilter_loop fuel its ops vals) (λ r, (length r.2 ≤ length its)%nat).
Proof.
  revert its ops vals. induction fuel as [|fuel IH]; intros its ops vals Hf; [lia|]. cbn [parseFilter_loop].
  destruct its as [|i its]; [simpl; lia|]. simpl in Hf.
  assert (∀ its' ops vals, (length its' ≤ length its)%nat →
    safe (parseFilter_loop fuel its' ops vals) (λ r, (length r.2 ≤ length (i :: its))%nat)) as Hrec.
  { intros its' ops' vals' Hl. eapply out_mono; [|apply IH; lia]. simpl. intros. lia. }
  destruct (_ =? itemFilterFunc).
  { apply out_bind. eapply out_mono; [|apply funcCall_safe]. intros [[f b] its'] Hl. simpl in Hl.
    destruct (negb b); [done|]. by apply Hrec. }
  destruct (_ =? itemLeftRound); [by apply Hrec|].
  destruct (_ =? itemRightRound).
  { apply out_bind. eapply out_mono; [|apply eval_loop_safe]. intros [ops' vals'] _.
    apply out_bind. eapply out_mono; [|apply pop_safe]. intros [t ops''] _.
    destruct ops''; [simpl; lia|by apply Hrec]. }
  destruct (_ || _); [|by apply Hrec]. apply out_bind.
  assert (∀ b : bool, 0 <? filterOpPrecedence (if b then bs "|" else bs "&") = true) as -> by by intros [].
  simpl. apply out_bind. eapply out_mono; [|apply eval_loop_safe]. intros [ops' vals'] _. by apply Hrec.
Qed.

Lemma parseFilter_safe its : safe (parseFilter its) (λ r, (length r.2 ≤ length its)%nat).
Proof.
  unfold parseFilter. destruct its as [|i its]; [done|]. destruct (negb _); [done|].
  apply out_bind. eapply out_mono; [|apply parseFilter_loop_safe; lia].
  intros [[ops vals] its'] Hl. simpl in Hl. apply out_bind. unfold assert_true.
  destruct (bool_decide _); [|by apply reason_in]. simpl.
  destruct vals as [|t [|t' vals]]; simpl; done || lia.
Qed.

(** ** The nodes form a forest

    A child is allocated after its parent and has one parent; the nodes that
    queries and fragments start from have none. *)
Definition childs (ns : list GraphQuery) : list nat := mjoin (Children <$> ns).

Record forest (ns : list GraphQuery) : Prop := {
  fo_below a n c : ns !! a = Some n → c ∈ Children n → (a < c < length ns)%nat;
  fo_once : NoDup (childs ns);
}.

Definition is_root (ns : list GraphQuery) (a : nat) : Prop := (a < length ns)%nat ∧ a ∉ childs ns.

Definition has_args (ns : list GraphQuery) (a : nat) : Prop :=
  ∃ n, ns !! a = Some n ∧ is_Some (Args n) ∧ fragment n = [].

Record ext (ns ns' : list GraphQuery) : Prop := {
  ex_forest : forest ns';
  ex_length : (length ns ≤ length ns')%nat;
  ex_args a : has_args ns a → has_args ns' a;
  ex_root a : is_root ns a → is_root ns' a;
}.

Lemma ext_refl ns : forest ns → ext ns ns.
Proof. by split. Qed.

Lemma ext_trans ns1 ns2 ns3 : ext ns1 ns2 → ext ns2 ns3 → ext ns1 ns3.
Proof. intros [] []. split; auto. lia. Qed.

Lemma childs_elem ns c : c ∈ childs ns ↔ ∃ a n, ns !! a = Some n ∧ c ∈ Children n.
Proof.
  unfold childs. rewrite list_elem_of_join. split.
  - intros (l & Hc & Hl). apply list_elem_of_fmap in Hl as (n & -> & Hn).
    apply list_elem_of_lookup in Hn as [a Ha]. eauto.
  - intros (a & n & Ha & Hc). exists (Children n). split; [done|]. apply list_elem_of_fmap.
    exists n. split; [done|]. by apply list_elem_of_lookup_2 in Ha.
Qed.

Lemma childs_lt ns c : forest ns → c ∈ childs ns → (c < length ns)%nat.
Proof. intros Hf (a & n & Ha & Hc)%childs_elem. apply (fo_below _ Hf a n c Ha Hc). Qed.

(** A new node without children. *)
Lemma ext_alloc ns n : forest ns → Children n = [] → ext ns (ns ++ [n]).
Proof.
  intros Hf Hn. assert (childs (ns ++ [n]) = childs ns) as Hc.
  { unfold childs. rewrite fmap_app, join_app. simpl. by rewrite Hn, !app_nil_r. }
  split.
  - split; [|rewrite Hc; apply Hf]. intros a m c Ha Hcm. rewrite length_app. simpl.
    apply lookup_app_Some in Ha as [Ha|[_ Ha]].
    + pose proof (fo_below _ Hf a m c Ha Hcm). lia.
    + apply list_lookup_singleton_Some in Ha as [_ <-]. rewrite Hn in Hcm. by apply not_elem_of_nil in Hcm.
  - rewrite length_app. lia.
  - intros a (m & Ha & Hm). exists m. split; [|done]. by apply lookup_app_l_Some.
  - intros a [Ha Hac]. split; [rewrite length_app; lia|by rewrite Hc].
Qed.

(** An update that leaves the children alone. *)
Lemma ext_update ns a n f :
  forest ns → ns !! a = Some n → Children (f n) = Children n → fragment (f n) = fragment n →
  (is_Some (Args n) → is_Some (Args (f n))) → ext ns (<[a := f n]> ns).
Proof.
  intros Hf Ha Hch Hfr Hargs. assert (childs (<[a := f n]> ns) = childs ns) as Hc.
  { unfold childs. rewrite list_fmap_insert, Hch. f_equal. apply list_insert_id.
    by rewrite list_lookup_fmap, Ha. }
  split.
  - split; [|rewrite Hc; apply Hf]. intros b m c Hb Hcm. rewrite length_insert.
    apply list_lookup_insert_Some in Hb as [(-> & <- & _)|[_ Hb]]; [rewrite Hch in Hcm|]; by eapply fo_below.
  - by rewrite length_insert.
  - intros b (m & Hb & Hm & Hfm). destruct (decide (a = b)) as [->|].
    + simplify_eq. exists (f n). rewrite list_lookup_insert_eq by (by eapply lookup_lt_Some).
      split_and!; [done|auto|congruence].
    + exists m. by rewrite list_lookup_insert_ne.
  - intros b [Hb Hbc]. split; [by rewrite length_insert|by rewrite Hc].
Qed.

Lemma childs_add ns a n c :
  ns !! a = Some n →
  childs (<[a := set_Children (Children n ++ [c]) n]> ns) ≡ₚ c :: childs ns.
Proof.
  intros Ha. unfold childs. rewrite insert_take_drop by (by eapply lookup_lt_Some).
  rewrite <-(take_drop_middle ns a n Ha) at 3.
  rewrite !fmap_app, !join_app, !fmap_cons. simpl. rewrite <-!app_assoc. simpl.
  by rewrite <-!Permutation_middle.
Qed.

(** Allocating a child and appending it to its parent's children. *)
Lemma ext_child ns a n m :
  forest ns → ns !! a = Some n → Children m = [] →
  ext ns (<[a := set_Children (Children n ++ [length ns]) n]> (ns ++ [m])).
Proof.
  intros Hf Ha Hm. pose proof (ext_alloc ns m Hf Hm) as [Hf1 Hl1 Ha1 Hr1].
  assert ((ns ++ [m]) !! a = Some n) as Ha' by (by apply lookup_app_l_Some).
  pose proof (lookup_lt_Some _ _ _ Ha) as Halt.
  assert (childs (ns ++ [m]) = childs ns) as Hc.
  { unfold childs. rewrite fmap_app, join_app. simpl. by rewrite Hm, !app_nil_r. }
  pose proof (childs_add _ _ _ (length ns) Ha') as Hadd. rewrite Hc in Hadd.
  assert (length ns ∉ childs ns) as Hfresh by (intros Hin%childs_lt; [lia|done]).
  split.
  - split.
    + intros b k c Hb Hck. rewrite length_insert, length_app. simpl.
      apply list_lookup_insert_Some in Hb as [(-> & <- & _)|[_ Hb]].
      * simpl in Hck. apply elem_of_app in Hck as [Hck|Hck%list_elem_of_singleton]; [|subst; lia].
        pose proof (fo_below _ Hf b n c Ha Hck). lia.
      * pose proof (fo_below _ Hf1 b k c Hb Hck) as Hlt. rewrite length_app in Hlt. simpl in Hlt. lia.
    + rewrite Hadd. constructor; [done|apply Hf].
  - rewrite length_insert, length_app. lia.
  - intros b (k & Hb & Hk & Hfr). apply lookup_lt_Some in Hb as Hblt. destruct (decide (a = b)) as [->|].
    + simplify_eq. eexists. rewrite list_lookup_insert_eq by (rewrite length_app; lia). by split_and!.
    + exists k. rewrite list_lookup_insert_ne by done. split_and!; [by apply lookup_app_l_Some|done|done].
  - intros b [Hb Hbc]. split; [rewrite length_insert, length_app; lia|]. rewrite Hadd.
    intros [->|Hin]%elem_of_cons; [lia|done].
Qed.

(** *** Parsing keeps the forest *)
Definition grows (st : pstate) (st' : pstate) : Prop :=
  ext (nodes st) (nodes st') ∧ (length (items st') ≤ length (items st))%nat.

Lemma upd_node_grows st a f :
  forest (nodes st) → has_args (nodes st) a →
  (∀ n, Children (f n) = Children n ∧ fragment (f n) = fragment n ∧ (is_Some (Args n) → is_Some (Args (f n)))) →
  wp (upd_node a f st) (λ st', ext (nodes st) (nodes st') ∧ items st' = items st ∧ vmap st' = vmap st).
Proof.
  intros Hf (n & Ha & _) Hkeep. unfold upd_node, get_node. rewrite Ha. simpl. split; [|done].
  destruct (Hkeep n) as (? & ? & ?). by apply ext_update.
Qed.

Lemma storeArgs_safe curp args st :
  forest (nodes st) → has_args (nodes st) curp →
  safe (storeArgs curp args st) (grows st).
Proof.
  revert st. induction args as [|[k v] args IH]; intros st Hf Hc; simpl.
  { split; [by apply ext_refl|done]. }
  destruct (bool_decide _); [done|]. unfold get_node. pose proof Hc as (n & Hn & [m Hm] & Hfr).
  rewrite Hn. simpl. rewrite Hm. apply out_bind.
  destruct (wp_inv _ _ (upd_node_grows st curp (set_Args (Some (<[k := v]> m))) Hf Hc ltac:(by intros; split_and!; eauto)))
    as (st1 & -> & He & Hi & _). simpl.
  eapply out_mono; [|apply IH; [apply He|by apply (ex_args _ _ He)]].
  intros st2 [He2 Hl2]. split; [by eapply ext_trans|by rewrite Hi in Hl2].
Qed.

Lemma grows_trans st1 st2 st3 : grows st1 st2 → grows st2 st3 → grows st1 st3.
Proof. intros [He1 Hl1] [He2 Hl2]. split; [by eapply ext_trans|lia]. Qed.

(** Steps that only read items. *)
Lemma grows_items st st' :
  forest (nodes st) → nodes st' = nodes st → (length (items st') ≤ length (items st))%nat → grows st st'.
Proof. intros Hf Hn Hl. split; [rewrite Hn; by apply ext_refl|done]. Qed.

Lemma upd_node_out st st0 a f :
  grows st0 st → has_args (nodes st) a →
  (∀ n, Children (f n) = Children n ∧ fragment (f n) = fragment n ∧ (is_Some (Args n) → is_Some (Args (f n)))) →
  safe (upd_node a f st) (λ st', grows st0 st' ∧ ext (nodes st) (nodes st') ∧ items st' = items st).
Proof.
  intros Hg Ha Hkeep.
  destruct (wp_inv _ _ (upd_node_grows st a f (ex_forest _ _ (proj1 Hg)) Ha Hkeep)) as (st1 & -> & He & Hi & _).
  simpl. split; [|done]. eapply grows_trans; [done|]. split; [done|by rewrite Hi].
Qed.

Lemma has_args_new ns a n m :
  ns !! a = Some n → is_Some (Args m) → fragment m = [] →
  has_args (<[a := set_Children (Children n ++ [length ns]) n]> (ns ++ [m])) (length ns).
Proof.
  intros Ha Hm Hfr. apply lookup_lt_Some in Ha. exists m.
  rewrite list_lookup_insert_ne by lia. rewrite lookup_app_r, Nat.sub_diag by lia. done.
Qed.

Lemma godeep_safe fuel gq curp st :
  (length (items st) < fuel)%nat → forest (nodes st) →
  has_args (nodes st) gq → has_args (nodes st) curp →
  safe (godeep fuel gq curp st) (grows st).
Proof.
  revert gq curp st. induction fuel as [|fuel IH]; intros gq curp st Hfu Hf Hgq Hcurp; [lia|].
  cbn [godeep]. destruct (items st) as [|i its] eqn:Hi.
  { split; [by apply ext_refl|done]. }
  set (st1 := set_items its st).
  assert (grows st st1) as Hg1 by (apply grows_items; [done|done|simpl; rewrite Hi; simpl; lia]).
  assert (∀ gq' curp' st2, grows st1 st2 → has_args (nodes st2) gq' → has_args (nodes st2) curp' →
    safe (godeep fuel gq' curp' st2) (grows st)) as Hrec.
  { intros gq' curp' st2 [He Hl] Hgq' Hcurp'. simpl in Hl. eapply out_mono; [|apply IH; [simpl in Hfu; lia|apply He|done|done]].
    intros st3 Hg3. eapply grows_trans; [done|]. by eapply grows_trans. }
  assert (grows st1 st1) as Hg11 by (by apply grows_items).
  destruct (_ =? ItemError); [done|]. destruct (_ =? ItemEOF); [done|].
  destruct (_ =? itemRightCurl); [done|].
  destruct (_ =? itemFragmentSpread).
  { destruct (_ <=? 3)%nat; [done|]. simpl. unfold upd_node, get_node. simpl.
    pose proof Hgq as (n & Hn & _). rewrite (lookup_app_l_Some _ _ _ _ Hn). simpl.
    pose proof (ext_child (nodes st) gq n (new_spread (drop 3 (Val i))) Hf Hn eq_refl) as He.
    apply Hrec; [by split|by apply (ex_args _ _ He)..]. }
  destruct (_ =? itemName).
  { simpl. unfold upd_node, get_node. simpl.
    pose proof Hgq as (n & Hn & _). rewrite (lookup_app_l_Some _ _ _ _ Hn). simpl.
    pose proof (ext_child (nodes st) gq n (new_query (Val i)) Hf Hn eq_refl) as He.
    apply Hrec; [by split|by apply (ex_args _ _ He)|]. by apply has_args_new. }
  destruct (_ =? itemAlias).
  { apply out_bind. eapply out_mono; [|apply (upd_node_out _ st1); [done|done|done]].
    intros st2 (Hg2 & He2 & _). apply Hrec; [done|by apply (ex_args _ _ He2)..]. }
  destruct (_ =? itemLeftCurl).
  { apply out_bind. eapply out_mono; [|apply IH; [simpl in *; lia|done|done|done]].
    intros st2 Hg2. apply Hrec; [done|by apply (ex_args _ _ (proj1 Hg2))..]. }
  destruct (_ =? itemLeftRound).
  { destruct (recv st1) as [j st2] eqn:Hr. apply recv_le in Hr as [Hn2 Hl2].
    assert (grows st1 st2) as Hg2 by (by apply grows_items).
    destruct (_ =? itemArgument); [|apply Hrec; [done|by rewrite Hn2..]].
    apply out_bind. eapply out_mono; [|apply parseArguments_safe]. intros [args st3] [Hn3 Hl3]. simpl in Hn3, Hl3.
    apply out_bind. eapply out_mono; [|apply (storeArgs_safe curp args st3); rewrite Hn3, Hn2; done].
    intros st4 Hg4. assert (grows st1 st4) as Hg14.
    { eapply grows_trans; [|exact Hg4]. apply grows_items; [done|congruence|lia]. }
    apply Hrec; [done|by apply (ex_args _ _ (proj1 Hg14))..]. }
  destruct (_ =? itemDirectiveName); [|by apply Hrec].
  destruct (bool_decide _); [|done]. apply out_bind. eapply out_mono; [|apply parseFilter_safe].
  intros [filter its'] Hl. simpl in Hl. apply out_bind.
  eapply out_mono; [|apply (upd_node_out _ st1); [|done|done]].
  - intros st2 (Hg2 & He2 & _). apply Hrec; [done|by apply (ex_args _ _ He2)..].
  - by apply grows_items.
Qed.

(** A node that a query or a fragment starts from. *)
Definition root_at (ns : list GraphQuery) (a : nat) : Prop := is_root ns a ∧ has_args ns a.

Lemma root_ext ns ns' a : ext ns ns' → root_at ns a → root_at ns' a.
Proof. intros He [Hr Ha]. split; [by apply He|by apply He]. Qed.

Lemma root_alloc ns attr : forest ns → root_at (ns ++ [new_query attr]) (length ns).
Proof.
  intros Hf. split.
  - split; [rewrite length_app; simpl; lia|]. unfold childs. rewrite fmap_app, join_app. simpl.
    rewrite !app_nil_r. intros Hin. apply childs_lt in Hin; [lia|done].
  - exists (new_query attr). rewrite lookup_app_r, Nat.sub_diag by lia. by split_and!.
Qed.

(** The new root is the next address. *)
Definition new_root (st : pstate) (r : nat * pstate) : Prop :=
  r.1 = length (nodes st) ∧ grows st r.2 ∧ root_at (nodes r.2) r.1 ∧
  (length (nodes st) < length (nodes r.2))%nat.

Lemma rootArgs_safe gq args st :
  forest (nodes st) → has_args (nodes st) gq → safe (rootArgs gq args st) (grows st).
Proof.
  revert st. induction args as [|[k v] args IH]; intros st Hf Hc; simpl.
  { split; [by apply ext_refl|done]. }
  assert (∀ f, (∀ n, Children (f n) = Children n ∧ fragment (f n) = fragment n ∧
      (is_Some (Args n) → is_Some (Args (f n)))) →
    safe (upd_node gq f st ≫= rootArgs gq args) (grows st)) as Hstep.
  { intros f Hkeep. apply out_bind. eapply out_mono; [|apply (upd_node_out st st gq f); [by apply grows_items|done|done]].
    intros st1 (Hg & He & _). eapply out_mono; [|apply IH; [apply He|by apply (ex_args _ _ He)]].
    intros st2 Hg2. by eapply grows_trans. }
  destruct (bool_decide _).
  - apply out_bind. eapply out_mono; [|apply ParseUint_safe]. intros uid _. by apply Hstep.
  - destruct (bool_decide _); [by apply Hstep|done].
Qed.

Lemma getRoot_safe st : forest (nodes st) → safe (getRoot st) (new_root st).
Proof.
  intros Hf. unfold getRoot. simpl. set (gq := length (nodes st)).
  set (st0 := set_nodes (nodes st ++ [new_query []]) st).
  assert (grows st st0) as Hg0 by (split; [by apply ext_alloc|done]).
  pose proof (root_alloc (nodes st) [] Hf) as Hroot. fold gq in Hroot.
  assert (∀ st', grows st0 st' → new_root st (gq, st')) as Hfin.
  { intros st' Hg. split; [done|]. split; [by eapply grows_trans|]. split; [by eapply root_ext; [apply Hg|]|].
    pose proof (ex_length _ _ (proj1 Hg)) as Hl. simpl in Hl. rewrite length_app in Hl. simpl in *. lia. }
  destruct (recv st0) as [i st1] eqn:H1. apply recv_le in H1 as [Hn1 Hl1].
  destruct (negb _); [done|]. apply out_bind.
  eapply out_mono; [|apply (upd_node_out st1 st0)]; [|apply grows_items; [apply Hg0|done|done]|rewrite Hn1; apply Hroot|done].
  intros st2 (Hg2 & He2 & Hi2).
  destruct (recv st2) as [j st3] eqn:H3. apply recv_le in H3 as [Hn3 Hl3]. destruct (negb _); [done|].
  destruct (recv st3) as [k st4] eqn:H4. apply recv_le in H4 as [Hn4 Hl4].
  assert (grows st0 st4) as Hg4.
  { eapply grows_trans; [exact Hg2|]. apply grows_items; [apply Hg2|congruence|lia]. }
  assert (has_args (nodes st4) gq) as Hgq by (apply (ex_args _ _ (proj1 Hg4)), Hroot).
  destruct (_ =? itemGenerator).
  { apply out_bind. eapply out_mono; [|apply parseFunction_safe]. intros [gen its] Hl. simpl in Hl.
    apply out_bind. eapply out_mono; [|apply (upd_node_out _ st0); [|done|done]].
    - intros st5 (Hg5 & _ & _). by apply Hfin.
    - eapply grows_trans; [exact Hg4|]. apply grows_items; [apply Hg4|done|done]. }
  destruct (_ =? itemArgument); [|done].
  apply out_bind. eapply out_mono; [|apply parseArguments_safe]. intros [args st5] [Hn5 Hl5]. simpl in Hn5, Hl5.
  apply out_bind. eapply out_mono; [|apply rootArgs_safe; rewrite Hn5; [apply Hg4|done]].
  intros st6 Hg6. apply Hfin. eapply grows_trans; [exact Hg4|]. eapply grows_trans; [|exact Hg6].
  apply grows_items; [apply Hg4|done|done].
Qed.

Lemma godeep_from_safe gq st :
  forest (nodes st) → has_args (nodes st) gq → safe (godeep_from gq st) (grows st).
Proof. intros Hf Ha. apply godeep_safe; [lia|done..]. Qed.

Lemma getQuery_safe st : forest (nodes st) → safe (getQuery st) (new_root st).
Proof.
  intros Hf. unfold getQuery. apply out_bind. eapply out_mono; [|by apply getRoot_safe].
  intros [gq st1] (Hgq & Hg1 & Hroot & Hlt). simpl in Hgq, Hg1, Hroot, Hlt.
  destruct (recv st1) as [i st2] eqn:H2. apply recv_le in H2 as [Hn2 Hl2].
  destruct (_ =? itemLeftCurl); [|done]. apply out_bind.
  eapply out_mono; [|apply godeep_from_safe; rewrite Hn2; [apply Hg1|apply Hroot]].
  intros st3 Hg3. assert (grows st1 st3) as Hg13.
  { eapply grows_trans; [|exact Hg3]. apply grows_items; [apply Hg1|done|done]. }
  split; [done|]. split; [by eapply grows_trans|]. split; [by eapply root_ext; [apply Hg13|]|].
  pose proof (ex_length _ _ (proj1 Hg13)). simpl. lia.
Qed.

Lemma fragmentName_safe name its : safe (fragmentName name its) (λ r, (length r.2 ≤ length its)%nat).
Proof.
  revert name. induction its as [|i its IH]; intros name; simpl; [lia|].
  repeat case_match; try (simpl; lia); try done; (eapply out_mono; [|apply IH]; simpl; intros; lia).
Qed.

Lemma getFragment_safe st :
  forest (nodes st) →
  safe (getFragment st) (λ r,
    new_root st (FGq r.1.2, r.2) ∧ Entered r.1.2 = false ∧ Exited r.1.2 = false).
Proof.
  intros Hf. unfold getFragment. apply out_bind. eapply out_mono; [|apply fragmentName_safe].
  intros [name its] Hl. simpl in Hl. destruct (bool_decide _); [done|]. simpl.
  apply out_bind. pose proof (root_alloc (nodes st) [] Hf) as Hroot.
  assert (ext (nodes st) (nodes st ++ [new_query []])) as He by (by apply ext_alloc).
  eapply out_mono; [|apply godeep_from_safe; [apply He|apply Hroot]].
  intros st3 [He3 Hl3]. simpl in He3, Hl3. simpl. split; [|done]. split; [done|].
  split; [split; [by eapply ext_trans|simpl; lia]|]. split; [by eapply root_ext|].
  pose proof (ex_length _ _ He3) as Hlen. rewrite length_app in Hlen. simpl in *. lia.
Qed.

Lemma getVariablesAndQuery_safe st :
  forest (nodes st) →
  safe (getVariablesAndQuery st) (λ r,
    match r.1 with Some gq => new_root st (gq, r.2) | None => grows st r.2 end).
Proof.
  intros Hf. unfold getVariablesAndQuery.
  assert (∀ fuel name st', nodes st' = nodes st → (length (items st') < fuel)%nat →
    (length (items st') ≤ length (items st))%nat →
    safe (getVariablesAndQuery_loop fuel name st') (λ r,
      match r.1 with Some gq => new_root st (gq, r.2) | None => grows st r.2 end)) as Hloop; [|apply Hloop; done || lia].
  induction fuel as [|fuel IH]; intros name st' Hn Hfu Hle; [lia|]. cbn [getVariablesAndQuery_loop].
  destruct (items st') as [|i its] eqn:Hi; [simpl; apply grows_items; [done|done|by rewrite Hi]|]. simpl in Hfu, Hle.
  destruct (_ =? ItemError); [done|].
  destruct (_ =? itemText).
  { repeat case_match; try done; (apply IH; [done|simpl; lia|simpl; lia]). }
  destruct (_ =? itemLeftRound).
  { destruct (bool_decide _); [done|]. apply out_bind.
    eapply out_mono; [|apply (parseVariables_loop_safe _ (set_items its st')); done || lia].
    intros st2 [Hn2 Hl2]. simpl in Hn2, Hl2. apply out_bind. eapply out_mono; [|apply checkValidity_safe].
    intros _ _. apply IH; [congruence|lia|lia]. }
  destruct (_ =? itemLeftCurl); [|apply IH; [done|simpl; lia|simpl; lia]].
  apply out_bind. eapply out_mono; [|apply getQuery_safe; simpl; by rewrite Hn].
  intros [gq st2] (H1 & [H2 H2'] & H3 & H4). simpl in *. rewrite Hn in *. split; [done|]. split; [|done]. split; [done|simpl; lia].
Qed.

(** *** The whole document *)
Record parsed_ok (r : parsed) (ns : list GraphQuery) : Prop := {
  po_forest : forest ns;
  po_query gq : pq r = Some gq → root_at ns gq;
  po_frag f fn : pfrag r !! f = Some fn →
    root_at ns (FGq fn) ∧ Entered fn = false ∧ Exited fn = false;
  po_inj f fn f' fn' : pfrag r !! f = Some fn → pfrag r !! f' = Some fn' → FGq fn = FGq fn' → f = f';
  po_apart f fn gq : pfrag r !! f = Some fn → pq r = Some gq → FGq fn ≠ gq;
}.

Lemma root_lt ns a : root_at ns a → (a < length ns)%nat.
Proof. by intros [[? _] _]. Qed.

Lemma parsed_ok_ext r ns ns' : parsed_ok r ns → ext ns ns' → parsed_ok r ns'.
Proof.
  intros [Hf Hq Hfr Hinj Hap] He. split; [apply He| | |done|done].
  - intros gq Hgq. by eapply root_ext, Hq.
  - intros f fn Hfn. destruct (Hfr f fn Hfn) as (? & ? & ?). split_and!; [by eapply root_ext|done|done].
Qed.

Lemma parsed_ok_query r st gq st' mu :
  parsed_ok r (nodes st) → new_root st (gq, st') → parsed_ok (mkParsed (Some gq) mu (pfrag r)) (nodes st').
Proof.
  intros Hok (Hgq & [He _] & Hroot & _). simpl in *.
  destruct (parsed_ok_ext _ _ _ Hok He) as [Hf Hq Hfr Hinj Hap]. split; simpl; [done| |done|done|].
  - by intros ? [= <-].
  - intros f fn gq' Hfn [= <-] Heq. destruct (po_frag _ _ Hok f fn Hfn) as [Hr _]. apply root_lt in Hr. lia.
Qed.

Lemma parsed_ok_fragment r st name fn st' mu :
  parsed_ok r (nodes st) → new_root st (FGq fn, st') → Entered fn = false → Exited fn = false →
  parsed_ok (mkParsed (pq r) mu (<[name := fn]> (pfrag r))) (nodes st').
Proof.
  intros Hok (Hgq & [He _] & Hroot & _) HE HX. simpl in *.
  destruct (parsed_ok_ext _ _ _ Hok He) as [Hf Hq Hfr Hinj Hap].
  assert (∀ f fn', pfrag r !! f = Some fn' → FGq fn' ≠ FGq fn) as Hne.
  { intros f fn' Hfn'. destruct (po_frag _ _ Hok f fn' Hfn') as [Hr _]. apply root_lt in Hr. lia. }
  split; simpl; [done|done| | |].
  - intros f fn' [[<- <-]|[_ Hfn']]%lookup_insert_Some; [done|eauto].
  - intros f fn1 f' fn2 [[<- <-]|[_ H1]]%lookup_insert_Some [[<- <-]|[_ H2]]%lookup_insert_Some Heq;
      [done|by destruct (Hne _ _ H2)|by destruct (Hne _ _ H1)|eauto].
  - intros f fn' gq [[<- <-]|[_ Hfn']]%lookup_insert_Some Hpq; [|eauto].
    pose proof (po_query _ _ Hok gq Hpq) as Hr%root_lt. lia.
Qed.

Lemma Parse_loop_safe fuel r st :
  (length (items st) < fuel)%nat → parsed_ok r (nodes st) →
  safe (Parse_loop fuel r st) (λ o, parsed_ok o.1 (nodes o.2)).
Proof.
  revert r st. induction fuel as [|fuel IH]; intros r st Hfu Hok; [lia|]. cbn [Parse_loop].
  destruct (items st) as [|i its] eqn:Hi; [done|]. simpl in Hfu.
  assert (forest (nodes (set_items its st))) as Hf by apply Hok.
  destruct (_ =? ItemError); [done|]. destruct (_ =? itemText); [by apply IH; [simpl; lia|]|].
  destruct (_ =? itemOpType).
  - destruct (bool_decide _).
    { destruct (pmu r); [done|]. apply out_bind. unfold getMutation. apply out_bind.
      eapply out_mono; [|apply getMutation_loop_safe; lia]. intros [mu its'] Hl. simpl in *.
      apply IH; [simpl; lia|]. destruct Hok. by split. }
    destruct (bool_decide _).
    { apply out_bind. eapply out_mono; [|by apply getFragment_safe]. intros [[name fn] st'] (Hr & HE & HX).
      simpl in *. apply IH; [destruct Hr as (_ & [_ Hl] & _); simpl in *; lia|].
      by apply (parsed_ok_fragment r (set_items its st)). }
    destruct (bool_decide _); [|by apply IH; [simpl; lia|]].
    apply out_bind. eapply out_mono; [|by apply getVariablesAndQuery_safe].
    intros [[gq|] st'] Hr; simpl in *.
    + apply IH; [destruct Hr as (_ & [_ Hl] & _); simpl in *; lia|].
      by apply (parsed_ok_query r (set_items its st)).
    + destruct Hr as [He Hl]. apply IH; [simpl in *; lia|].
      destruct (parsed_ok_ext _ _ _ Hok He). by split.
  - destruct (_ =? itemLeftCurl); [|by apply IH; [simpl; lia|]].
    apply out_bind. eapply out_mono; [|by apply getQuery_safe]. intros [gq st'] Hr. simpl in *.
    apply IH; [destruct Hr as (_ & [_ Hl] & _); simpl in *; lia|].
    by apply (parsed_ok_query r (set_items its st)).
Qed.
End gql_safe.
