(* ===== verification/GqlExpand.v ===== *)
(** Fragment expansion and variable substitution of [gql/parser.go] on the heap
    of query nodes, and what [Parse] promises. *)
From S2P Require Import Prelude Bytes Strconv Lex GqlLex GqlParse GqlSafe.
From stdpp Require Import options.
#[local] Open Scope nat_scope.

Module gql_expand.
Import lex gql_lex gql gql_safe.

(** ** Forests *)
Definition child (ns : list GraphQuery) (a c : nat) : Prop :=
  ∃ n, ns !! a = Some n ∧ c ∈ Children n.

Definition desc (ns : list GraphQuery) : nat → nat → Prop := rtc (child ns).

Lemma NoDup_join_inj {A} (ls : list (list A)) i j l1 l2 x :
  NoDup (mjoin ls) → ls !! i = Some l1 → ls !! j = Some l2 → x ∈ l1 → x ∈ l2 → i = j.
Proof.
  revert i j. induction ls as [|l ls IH]; intros i j Hnd Hi Hj H1 H2; [done|].
  simpl in Hnd. apply NoDup_app in Hnd as (Hl & Hdis & Hls).
  assert (∀ k l', ls !! k = Some l' → x ∈ l' → x ∈ mjoin ls) as Hin.
  { intros k l' Hk Hx. apply list_elem_of_join. exists l'. split; [done|]. by apply list_elem_of_lookup_2 in Hk. }
  destruct i as [|i], j as [|j]; simpl in *; simplify_eq; [done| | |f_equal; eauto].
  - by destruct (Hdis x H1 (Hin _ _ Hj H2)).
  - by destruct (Hdis x H2 (Hin _ _ Hi H1)).
Qed.

Lemma NoDup_join_each {A} (ls : list (list A)) i l : NoDup (mjoin ls) → ls !! i = Some l → NoDup l.
Proof.
  revert i. induction ls as [|l' ls IH]; intros i Hnd Hi; [done|].
  simpl in Hnd. apply NoDup_app in Hnd as (Hl & _ & Hls). destruct i; simpl in Hi; simplify_eq; [done|eauto].
Qed.

Section forest.
Context (H0 : list GraphQuery) (Hf : forest H0).

Lemma child_lt a c : child H0 a c → a < c < length H0.
Proof using Hf. intros (n & Ha & Hc). by apply (fo_below _ Hf a n c). Qed.

Lemma child_inj a a' c : child H0 a c → child H0 a' c → a = a'.
Proof using Hf.
  intros (n & Ha & Hc) (n' & Ha' & Hc'). pose proof (fo_once _ Hf) as Hnd. unfold childs in Hnd.
  eapply NoDup_join_inj; [exact Hnd|by rewrite list_lookup_fmap, Ha|by rewrite list_lookup_fmap, Ha'|done|done].
Qed.

Lemma children_nodup a n : H0 !! a = Some n → NoDup (Children n).
Proof using Hf.
  intros Ha. eapply NoDup_join_each; [apply (fo_once _ Hf)|]. by rewrite list_lookup_fmap, Ha.
Qed.

Lemma desc_le a b : desc H0 a b → a ≤ b.
Proof using Hf. induction 1 as [|a c b Hc _ IH]; [done|]. apply child_lt in Hc. lia. Qed.

Lemma desc_linear a a' b : desc H0 a b → desc H0 a' b → desc H0 a a' ∨ desc H0 a' a.
Proof using Hf.
  intros Ha. revert a'. induction Ha as [b|a c b Hac Hcb IH]; intros a' Ha'; [by right|].
  destruct (IH a' Ha') as [Hca'|Ha'c].
  - left. by eapply rtc_l.
  - apply rtc_inv_r in Ha'c as [->|(p & Ha'p & Hpc)]; [left; by apply rtc_once|].
    right. by rewrite (child_inj a p c).
Qed.

Lemma siblings_apart p a a' b :
  child H0 p a → child H0 p a' → a ≠ a' → desc H0 a b → desc H0 a' b → False.
Proof using Hf.
  assert (∀ a a', child H0 p a → child H0 p a' → a ≠ a' → desc H0 a a' → False) as Hno.
  { intros x y Hx Hy Hne Hd. apply rtc_inv_r in Hd as [->|(q & Hxq & Hqy)]; [done|].
    rewrite (child_inj q p y) in Hxq by done. apply desc_le in Hxq. apply child_lt in Hx. lia. }
  intros Ha Ha' Hne Hb Hb'. destruct (desc_linear _ _ _ Hb Hb') as [Hd|Hd]; eauto.
Qed.

Lemma root_not_below r a : is_root H0 r → desc H0 a r → a = r.
Proof using Hf.
  intros [_ Hr] Hd. apply rtc_inv_r in Hd as [->|(q & _ & (n & Hq & Hn))]; [done|].
  destruct Hr. apply childs_elem. eauto.
Qed.

Lemma roots_apart r r' b :
  is_root H0 r → is_root H0 r' → r ≠ r' → desc H0 r b → desc H0 r' b → False.
Proof using Hf.
  intros Hr Hr' Hne Hb Hb'. destruct (desc_linear _ _ _ Hb Hb') as [Hd|Hd].
  - by apply root_not_below in Hd.
  - by apply root_not_below in Hd.
Qed.
End forest.

(** ** Expansion

    [D] lists the nodes already expanded, in the order in which they were
    finished; a finished node's children are finished before it. *)
Section expansion.
Context (H0 : list GraphQuery) (F0 : fragmentMap) (Hf : forest H0).
Context (Hroots : ∀ f fn, F0 !! f = Some fn → is_root H0 (FGq fn)).
Context (Hinj : ∀ f fn f' fn', F0 !! f = Some fn → F0 !! f' = Some fn' → FGq fn = FGq fn' → f = f').

Definition plain (c : nat) : Prop := ∃ m, H0 !! c = Some m ∧ fragment m = [].

Definition unentered (fmap : fragmentMap) (f : str) (a : nat) : Prop :=
  ∃ fn, fmap !! f = Some fn ∧ Entered fn = false ∧ FGq fn = a.

Record einv (ns : list GraphQuery) (fmap : fragmentMap) (D : list nat) : Prop := {
  ei_len : length ns = length H0;
  ei_same a : a ∉ D → ns !! a = H0 !! a;
  ei_frag a n n0 : ns !! a = Some n → H0 !! a = Some n0 → fragment n = fragment n0;
  ei_done i a : D !! i = Some a →
    ∃ n, ns !! a = Some n ∧ ∀ c, c ∈ Children n → c ∈ take i D ∧ plain c;
  ei_nodup : NoDup D;
  ei_fm f fn : fmap !! f = Some fn → ∃ fn0, F0 !! f = Some fn0 ∧ FGq fn0 = FGq fn;
  ei_exited f fn : fmap !! f = Some fn → Exited fn = true → FGq fn ∈ D;
  ei_fresh f a b : unentered fmap f a → desc H0 a b → b ∉ D;
}.

(** The subtree of a node is still to be expanded, and no fragment that is
    still to be entered is part of it. *)
Definition free (D : list nat) (a : nat) : Prop := ∀ b, desc H0 a b → b ∉ D.
Definition apart (fmap : fragmentMap) (a : nat) : Prop :=
  ∀ f r b, unentered fmap f r → desc H0 r b → desc H0 a b → False.

Notation todo fmap := (cnt (λ fn, Entered fn = false) fmap).

(** What a part of the expansion did: it finished [new], all from [S] or from
    fragments it entered. *)
Record does (S : nat → Prop) (fmap fmap' : fragmentMap) (new : list nat) : Prop := {
  do_less : todo fmap' ≤ todo fmap;
  do_mono f a : unentered fmap' f a → unentered fmap f a;
  do_keep f fn : fmap !! f = Some fn →
    ∃ fn', fmap' !! f = Some fn' ∧ FGq fn' = FGq fn ∧ (Entered fn = true → Entered fn' = true);
  do_new b : b ∈ new →
    S b ∨ ∃ f a, unentered fmap f a ∧ ¬ unentered fmap' f a ∧ desc H0 a b;
}.

Lemma does_refl S fmap : does S fmap fmap [].
Proof. split; [done|done|eauto|]. intros b Hb. by apply not_elem_of_nil in Hb. Qed.

Lemma does_trans S1 S2 (S : nat → Prop) f1 f2 f3 n1 n2 :
  (∀ b, S1 b → S b) → (∀ b, S2 b → S b) →
  does S1 f1 f2 n1 → does S2 f2 f3 n2 → does S f1 f3 (n1 ++ n2).
Proof.
  intros HS1 HS2 [Hl1 Hm1 Hk1 Hn1] [Hl2 Hm2 Hk2 Hn2]. split; [lia|eauto|..].
  { intros f fn (fn' & H1 & H2 & H3)%Hk1. destruct (Hk2 f fn' H1) as (fn'' & ? & ? & ?).
    exists fn''. split_and!; [done|congruence|auto]. }
  intros b [Hb|Hb]%elem_of_app.
  - destruct (Hn1 b Hb) as [?|(f & a & Hu & Hnu & Hd)]; [eauto|]. right. exists f, a. split_and!; eauto.
  - destruct (Hn2 b Hb) as [?|(f & a & Hu & Hnu & Hd)]; [eauto|]. right. exists f, a. split_and!; eauto.
Qed.

Lemma unentered_root fmap ns D f a : einv ns fmap D → unentered fmap f a → ∃ fn0, F0 !! f = Some fn0 ∧ FGq fn0 = a.
Proof. intros Hi (fn & Hfn & _ & <-). by apply (ei_fm _ _ _ Hi). Qed.

Lemma fragments_apart fmap ns D f a f' a' b :
  einv ns fmap D → unentered fmap f a → unentered fmap f' a' → f ≠ f' →
  desc H0 a b → desc H0 a' b → False.
Proof using Hf Hroots Hinj.
  intros Hi Hu Hu' Hne Hb Hb'.
  destruct (unentered_root _ _ _ _ _ Hi Hu) as (fn & Hfn & <-).
  destruct (unentered_root _ _ _ _ _ Hi Hu') as (fn' & Hfn' & <-).
  eapply (roots_apart H0 Hf (FGq fn) (FGq fn')); eauto.
Qed.

(** A subtree apart from the new nodes stays free. *)
Lemma free_new S fmap fmap' D new a :
  does S fmap fmap' new → free D a → apart fmap a → (∀ b, S b → desc H0 a b → False) →
  free (D ++ new) a.
Proof.
  intros Hd Hfree Hap HS b Hb [Hin|Hin]%elem_of_app; [by apply (Hfree b)|].
  destruct (do_new _ _ _ _ Hd b Hin) as [?|(f & r & Hu & _ & Hr)]; [eauto|]. by eapply Hap.
Qed.

Lemma apart_mono S fmap fmap' new a : does S fmap fmap' new → apart fmap a → apart fmap' a.
Proof. intros Hd Hap f r b Hu. eapply Hap. by eapply do_mono. Qed.

Lemma apart_child fmap a c : apart fmap a → child H0 a c → apart fmap c.
Proof. intros Hap Hc f r b Hu Hr Hb. eapply Hap; [done|done|]. by eapply rtc_l. Qed.

(** *** Entering and leaving a fragment *)
Lemma unentered_insert fmap f fn f' a :
  Entered fn = true → unentered (<[f := fn]> fmap) f' a ↔ f ≠ f' ∧ unentered fmap f' a.
Proof.
  intros HE. unfold unentered. split.
  - intros (fn' & [[<- <-]|[Hne Hl]]%lookup_insert_Some & He & Ha); [congruence|eauto].
  - intros (Hne & fn' & Hl & He & Ha). exists fn'. by rewrite lookup_insert_ne.
Qed.

Lemma enter_spec ns fmap D f fn :
  einv ns fmap D → fmap !! f = Some fn → Entered fn = false →
  let fmap' := <[f := mkFragment (FGq fn) true false]> fmap in
  einv ns fmap' D ∧ free D (FGq fn) ∧ apart fmap' (FGq fn) ∧ S (todo fmap') = todo fmap ∧
  FGq fn < length H0.
Proof using Hf Hroots Hinj.
  intros Hi Hfn HE. simpl. assert (unentered fmap f (FGq fn)) as Hu by (by exists fn).
  split_and!.
  - destruct Hi as [H1 H2 H3 H4 H5 H6 H7 H8]. split; try done.
    + intros f' fn' [[<- <-]|[_ Hl]]%lookup_insert_Some; [by apply (H6 f fn)|eauto].
    + intros f' fn' [[<- <-]|[_ Hl]]%lookup_insert_Some; [done|eauto].
    + intros f' a b [_ Hu']%unentered_insert; [eauto|done].
  - intros b Hb. by eapply ei_fresh.
  - intros f' r b [Hne Hu']%unentered_insert; [|done]. intros Hr Hb.
    by eapply (fragments_apart fmap ns D f' r f).
  - rewrite (cnt_update _ fmap f), (cnt_delete _ fmap f fn) by done. simpl. rewrite decide_True by done. done.
  - destruct (ei_fm _ _ _ Hi f fn Hfn) as (fn0 & Hfn0 & <-). apply (Hroots f fn0 Hfn0).
Qed.

Lemma leave_spec ns fmap D f g fn :
  einv ns fmap D → fmap !! f = Some fn → Entered fn = true → FGq fn = g → g ∈ D →
  let fmap' := <[f := mkFragment g true true]> fmap in
  einv ns fmap' D ∧ todo fmap' = todo fmap ∧ ∀ f' a, unentered fmap' f' a ↔ unentered fmap f' a.
Proof.
  intros Hi Hfn HE Hg HD. simpl.
  assert (∀ f' a, unentered (<[f := mkFragment g true true]> fmap) f' a ↔ unentered fmap f' a) as Hun.
  { intros f' a. rewrite unentered_insert by done. split; [by intros [_ ?]|]. intros Hu. split; [|done].
    intros <-. destruct Hu as (fn' & Hl & He & _). simplify_eq. congruence. }
  split_and!; [|..|done].
  - destruct Hi as [H1 H2 H3 H4 H5 H6 H7 H8]. split; try done.
    + intros f' fn' [[<- <-]|[_ Hl]]%lookup_insert_Some; [destruct (H6 f fn Hfn) as (fn0 & ? & ?); exists fn0; by rewrite <-Hg|eauto].
    + intros f' fn' [[<- <-]|[_ Hl]]%lookup_insert_Some; [done|eauto].
    + intros f' a b Hu. apply Hun in Hu. eauto.
  - rewrite (cnt_update _ fmap f), (cnt_delete _ fmap f fn) by done. simpl.
    rewrite !decide_False by congruence. done.
Qed.

(** *** The recursion *)
Notation L := (length H0).
Notation never := (out (λ _, False)).

(** [expandFragments] as its callers may rely on it. *)
Definition rec_ok (rec : nat → estate → res estate) (fuel : nat) : Prop :=
  ∀ gq ns fmap D,
    einv ns fmap D → gq < L → free D gq → apart fmap gq → todo fmap * L + (L - gq) < fuel →
    never (rec gq (ns, fmap)) (λ st, ∃ new,
      einv st.1 st.2 (D ++ new) ∧ does (desc H0 gq) fmap st.2 new ∧ gq ∈ new).

Lemma expand_spec rec fuel f fn ns fmap D :
  rec_ok rec fuel → einv ns fmap D → fmap !! f = Some fn → todo fmap * L < fuel →
  never (expand rec f fn (ns, fmap)) (λ st, ∃ new,
    einv st.1 st.2 (D ++ new) ∧ does (λ _, False) fmap st.2 new ∧ FGq fn ∈ D ++ new).
Proof using Hf Hroots Hinj.
  intros Hrec Hi Hfn Hfu. unfold expand. destruct (Exited fn) eqn:HX.
  { exists []. rewrite app_nil_r. split_and!; [done|apply does_refl|by eapply ei_exited]. }
  destruct (Entered fn) eqn:HE; [done|].
  destruct (enter_spec ns fmap D f fn Hi Hfn HE) as (Hi' & Hfree & Hap & Htodo & Hlt).
  apply out_bind. eapply out_mono; [|apply (Hrec (FGq fn) ns _ D Hi' Hlt Hfree Hap); nia].
  intros [ns' fmap'] (new & Hi1 & Hd & Hin). simpl in *.
  destruct (do_keep _ _ _ _ Hd f (mkFragment (FGq fn) true false)) as (fn' & Hfn' & Hg & He).
  { apply lookup_insert_eq. }
  destruct (leave_spec ns' fmap' (D ++ new) f (FGq fn) fn' Hi1 Hfn' (He eq_refl) Hg)
    as (Hi2 & Ht2 & Hun); [apply elem_of_app; by right|].
  exists new. split_and!; [done| |apply elem_of_app; by right].
  destruct Hd as [Hl Hm Hk Hn]. split.
  - lia.
  - intros f' a Hu. apply Hun, Hm, unentered_insert in Hu as [_ Hu]; done.
  - intros f' fn1 Hl1. destruct (decide (f = f')) as [<-|Hne].
    + rewrite Hfn in Hl1. injection Hl1 as <-. exists (mkFragment (FGq fn) true true). by rewrite lookup_insert_eq.
    + destruct (Hk f' fn1) as (fn2 & ? & ? & ?); [by rewrite lookup_insert_ne|].
      exists fn2. by rewrite lookup_insert_ne.
  - intros b Hb. right. destruct (Hn b Hb) as [Hdb|(f' & a & Hu & Hnu & Hdb)].
    + exists f, (FGq fn). split_and!; [by exists fn| |done].
      rewrite Hun. intros Hu. apply Hm, unentered_insert in Hu as [? _]; done.
    + apply unentered_insert in Hu as [_ Hu]; [|done]. exists f', a. rewrite Hun. done.
Qed.

(** Finished nodes that are no spreads may become children. *)
Definition settled (D : list nat) (cs : list nat) : Prop := ∀ c, c ∈ cs → c ∈ D ∧ plain c.

Lemma settled_app D new cs cs' : settled D cs → settled (D ++ new) cs' → settled (D ++ new) (cs ++ cs').
Proof.
  intros H1 H2 c [Hc|Hc]%elem_of_app; [|by apply H2]. destruct (H1 c Hc). split; [|done].
  apply elem_of_app. by left.
Qed.

Lemma settled_children ns fmap D a n :
  einv ns fmap D → a ∈ D → ns !! a = Some n → settled D (Children n).
Proof.
  intros Hi [i Ha]%list_elem_of_lookup Hn c Hc. destruct (ei_done _ _ _ Hi i a Ha) as (n' & Hn' & Hall).
  simplify_eq. destruct (Hall c Hc) as [Hin Hp]. split; [|done].
  rewrite <-(take_drop i D). apply elem_of_app. by left.
Qed.

Lemma expandChildren_spec rec fuel gq cs newc ns fmap D :
  rec_ok rec fuel → einv ns fmap D → gq < L → NoDup cs → (∀ c, c ∈ cs → child H0 gq c ∧ free D c) →
  apart fmap gq → todo fmap * L + (L - gq) ≤ fuel → settled D newc →
  never (expandChildren rec cs newc (ns, fmap)) (λ r, ∃ new,
    einv r.2.1 r.2.2 (D ++ new) ∧ settled (D ++ new) r.1 ∧
    does (λ b, ∃ c, c ∈ cs ∧ desc H0 c b) fmap r.2.2 new).
Proof using Hf Hroots Hinj.
  intros Hrec. revert newc ns fmap D.
  induction cs as [|c cs IH]; intros newc ns fmap D Hi Hgq Hnd Hcs Hap Hfu Hnewc; simpl.
  { exists []. rewrite app_nil_r. split_and!; [done|done|apply does_refl]. }
  apply NoDup_cons in Hnd as [Hcnot Hnd].
  destruct (Hcs c) as [Hchild Hfree]; [left|].
  assert (c ∉ D) as HcD by (apply Hfree, rtc_refl).
  destruct (lookup_lt_is_Some_2 H0 c) as [n0 Hn0]; [by apply (child_lt H0 Hf gq)|].
  unfold get_node. rewrite (ei_same _ _ _ Hi c HcD), Hn0. cbn [mbind res_bind].
  (* the loop goes on after a part that finished [new1] *)
  assert (∀ S1 ns' fmap' new1 newc1,
    einv ns' fmap' (D ++ new1) → does S1 fmap fmap' new1 → (∀ b, S1 b → desc H0 c b) →
    settled (D ++ new1) newc1 →
    never (expandChildren rec cs (newc ++ newc1) (ns', fmap')) (λ r, ∃ new,
      einv r.2.1 r.2.2 (D ++ new) ∧ settled (D ++ new) r.1 ∧
      does (λ b, ∃ c', c' ∈ c :: cs ∧ desc H0 c' b) fmap r.2.2 new)) as Hgo.
  { intros S1 ns' fmap' new1 newc1 Hi1 Hd1 HS1 Hs1.
    eapply out_mono; [|apply (IH _ ns' fmap' (D ++ new1) Hi1 Hgq Hnd)].
    - intros r (new2 & Hi2 & Hs2 & Hd2). exists (new1 ++ new2). rewrite app_assoc.
      split_and!; [done|done|]. eapply does_trans; [| |exact Hd1|exact Hd2].
      + intros b Hb. exists c. split; [left|auto].
      + intros b (c' & Hc' & Hb). exists c'. split; [by right|done].
    - intros c' Hc'. destruct (Hcs c') as [Hchild' Hfree']; [by right|]. split; [done|].
      eapply free_new; [exact Hd1|done|by eapply apart_child|].
      intros b Hb Hb'. eapply (siblings_apart H0 Hf gq c c' b); auto. intros ->. done.
    - by eapply apart_mono.
    - pose proof (do_less _ _ _ _ Hd1). nia.
    - by apply settled_app. }
  destruct (isFragment n0) eqn:Hfrag.
  - simpl. destruct (fmap !! fragment n0) as [fn|] eqn:Hfn; [|done]. apply out_bind.
    eapply out_mono; [|apply (expand_spec rec fuel _ fn ns fmap D Hrec Hi Hfn); lia].
    intros [ns' fmap'] (new1 & Hi1 & Hd1 & Hin). simpl in *.
    destruct (lookup_lt_is_Some_2 ns' (FGq fn)) as [g Hg].
    { rewrite (ei_len _ _ _ Hi1). destruct (ei_fm _ _ _ Hi _ fn Hfn) as (fn0 & Hfn0 & <-). by apply (Hroots (fragment n0) fn0). }
    rewrite Hg. cbn [mbind res_bind]. eapply Hgo; [done|exact Hd1|done|]. by eapply settled_children.
  - apply out_bind. eapply out_mono; [|apply (Hrec c ns fmap D Hi)].
    + intros [ns' fmap'] (new1 & Hi1 & Hd1 & Hin). eapply Hgo; [done|exact Hd1|done|].
      intros c' ->%list_elem_of_singleton. split; [apply elem_of_app; by right|]. exists n0. split; [done|].
      unfold isFragment in Hfrag. by apply negb_false_iff, bool_decide_eq_true in Hfrag.
    + by apply (child_lt H0 Hf gq).
    + done.
    + by eapply apart_child.
    + apply (child_lt H0 Hf) in Hchild. lia.
Qed.

Lemma expandFragments_spec fuel : rec_ok (expandFragments fuel) fuel.
Proof using Hf Hroots Hinj.
  induction fuel as [|fuel IH]; intros gq ns fmap D Hi Hgq Hfree Hap Hfu; [lia|].
  cbn [expandFragments fst snd]. assert (gq ∉ D) as HD by (apply Hfree, rtc_refl).
  destruct (lookup_lt_is_Some_2 H0 gq Hgq) as [n0 Hn0].
  unfold get_node. rewrite (ei_same _ _ _ Hi gq HD), Hn0. cbn [mbind res_bind].
  apply out_bind. eapply out_mono; [|apply (expandChildren_spec _ fuel gq (Children n0) [] ns fmap D IH Hi Hgq)].
  - intros [newc [ns' fmap']] (new & Hi' & Hs & Hd). cbn [fst snd] in *.
    assert (gq ∉ D ++ new) as HD'.
    { intros [?|Hin]%elem_of_app; [done|].
      destruct (do_new _ _ _ _ Hd gq Hin) as [(c & Hc & Hdesc)|(f & r & Hu & _ & Hr)].
      - apply (desc_le H0 Hf) in Hdesc. pose proof (fo_below _ Hf gq n0 c Hn0 Hc). lia.
      - eapply Hap; [done|done|apply rtc_refl]. }
    rewrite (ei_same _ _ _ Hi' gq HD'), Hn0. cbn [mbind res_bind].
    exists (new ++ [gq]). rewrite app_assoc. cbn [fst snd]. split_and!; [|..|apply elem_of_app; right; left].
    + destruct Hi' as [H1 H2 H3 H4 H5 H6 H7 H8].
      assert (gq < length ns') as Hlt by lia. split.
      * by rewrite length_insert.
      * intros a Ha. rewrite list_lookup_insert_ne; [apply H2|]; set_solver.
      * intros a n m Hn Hm. apply list_lookup_insert_Some in Hn as [(<- & <- & _)|[_ Hn]]; [|eauto].
        simpl. congruence.
      * intros i a [Ha|[Hge Ha]]%lookup_app_Some.
        -- destruct (H4 i a Ha) as (n & Hn & Hall). exists n.
           rewrite list_lookup_insert_ne by (intros ->; by apply list_elem_of_lookup_2 in Ha).
           split; [done|]. intros c Hc. rewrite take_app_le by (apply lookup_lt_Some in Ha; lia). auto.
        -- apply list_lookup_singleton_Some in Ha as [Hz <-]. exists (set_Children newc n0).
           rewrite list_lookup_insert_eq by done. split; [done|]. intros c Hc. simpl in Hc.
           rewrite take_app_length' by lia. by apply Hs.
      * apply NoDup_app. split_and!; [done| |apply NoDup_singleton].
        intros a Ha ->%list_elem_of_singleton. done.
      * done.
      * intros f fn Hl HX. apply elem_of_app. left. eauto.
      * intros f a b Hu Hb [Hin|Hin%list_elem_of_singleton]%elem_of_app; [by eapply H8|]. subst b.
        eapply Hap; [by eapply do_mono|done|apply rtc_refl].
    + destruct Hd as [Hl Hm Hk Hn]. split; [done|done|done|].
      intros b [Hb|Hb%list_elem_of_singleton]%elem_of_app; [|subst; left; apply rtc_refl].
      destruct (Hn b Hb) as [(c & Hc & Hdesc)|?]; [left|by right]. eapply rtc_l; [|exact Hdesc]. by exists n0.
  - by eapply children_nodup.
  - intros c Hc. assert (child H0 gq c) as Hch by (by exists n0). split; [done|].
    intros b Hb. apply Hfree. by eapply rtc_l.
  - done.
  - lia.
  - intros c Hc. by apply not_elem_of_nil in Hc.
Qed.
End expansion.

(** ** Substitution visits finished nodes only *)
(** [D] orders nodes of [ns] children first, and none of them is a spread. *)
Definition ordered (ns : list GraphQuery) (D : list nat) : Prop :=
  ∀ i a, D !! i = Some a →
    ∃ n, ns !! a = Some n ∧ ∀ c, c ∈ Children n → c ∈ take i D ∧
      ∃ m, ns !! c = Some m ∧ fragment m = [].

(** Changing arguments changes neither the shape nor the spreads. *)
Definition same_shape (ns ns' : list GraphQuery) : Prop :=
  ∀ a n, ns !! a = Some n → ∃ n', ns' !! a = Some n' ∧ Children n' = Children n ∧ fragment n' = fragment n.

Lemma same_shape_refl ns : same_shape ns ns.
Proof. intros a n Ha. eauto. Qed.

Lemma same_shape_trans ns1 ns2 ns3 : same_shape ns1 ns2 → same_shape ns2 ns3 → same_shape ns1 ns3.
Proof.
  intros H1 H2 a n Ha. destruct (H1 a n Ha) as (n' & Ha' & Hc & Hfr).
  destruct (H2 a n' Ha') as (n'' & Ha'' & Hc' & Hfr'). exists n''. split_and!; [done|congruence|congruence].
Qed.

Lemma same_shape_args ns a n m : ns !! a = Some n → same_shape ns (<[a := set_Args m n]> ns).
Proof.
  intros Ha c k Hk. destruct (decide (a = c)) as [->|].
  - simplify_eq. eexists. rewrite list_lookup_insert_eq by (by eapply lookup_lt_Some). done.
  - exists k. by rewrite list_lookup_insert_ne.
Qed.

Lemma ordered_shape ns ns' D : same_shape ns ns' → ordered ns D → ordered ns' D.
Proof.
  intros Hsame Ho i b Hb. destruct (Ho i b Hb) as (n' & Hn' & Hall).
  destruct (Hsame b n' Hn') as (k & Hk & Hck & _). exists k. split; [done|]. rewrite Hck. intros c Hc.
  destruct (Hall c Hc) as (Hin & k2 & Hk2 & Hfr). split; [done|].
  destruct (Hsame c k2 Hk2) as (k3 & ? & _ & ?). exists k3. split; [done|congruence].
Qed.

Lemma substArgs_safe vm kvs m : safe (substArgs vm kvs m) (λ _, True).
Proof.
  revert m. induction kvs as [|[k v] kvs IH]; intros m; simpl; [done|]. apply out_bind.
  unfold index. destruct (v !! 0); simpl; [|by apply reason_in].
  destruct (bool_decide _); [|apply IH]. destruct (vm !! v); [apply IH|done].
Qed.

Lemma substituteVariables_safe fuel vm D i gq ns :
  ordered ns D → D !! i = Some gq → i < fuel →
  safe (substituteVariables fuel vm gq ns) (same_shape ns).
Proof.
  revert i gq ns. induction fuel as [|fuel IH]; intros i gq ns Ho Hi Hfu; [lia|].
  cbn [substituteVariables]. destruct (Ho i gq Hi) as (n & Hn & Hall).
  unfold get_node. rewrite Hn. cbn [mbind res_bind].
  apply out_bind. apply (out_mono _ _ (λ _, True)).
  - intros m _. pose proof (same_shape_args ns gq n m Hn) as Hs1.
    revert Hs1. generalize (<[gq := set_Args m n]> ns) as ns1.
    assert (∀ c, c ∈ Children n → c ∈ take i D) as Hin by (intros c Hc; by apply Hall). clear Hall Hn.
    induction (Children n) as [|c cs IHcs]; intros ns1 Hs1; [done|].
    apply out_bind. destruct (list_elem_of_lookup_1 (take i D) c) as [j Hj]; [apply Hin; left|].
    apply lookup_take_Some in Hj as [Hj Hlt].
    eapply out_mono; [|apply (IH j c ns1); [by eapply ordered_shape|done|lia]].
    intros ns2 Hs2. apply IHcs; [|by eapply same_shape_trans]. intros c' Hc'. apply Hin. by right.
  - destruct (Args n); [|done]. apply out_bind. eapply out_mono; [|apply substArgs_safe]. done.
Qed.

(** ** [Parse] *)
(** What the query handed to the executor looks like: every node that can be
    reached exists and is no spread, and no node is below itself. *)
Definition query_ok (gq : nat) (ns : list GraphQuery) : Prop :=
  ∀ a, rtc (child ns) gq a →
    (∃ n, ns !! a = Some n ∧ fragment n = []) ∧ ¬ tc (child ns) a a.

Lemma ordered_child ns D i a c :
  ordered ns D → D !! i = Some a → child ns a c → ∃ j, j < i ∧ D !! j = Some c.
Proof.
  intros Ho Ha (n & Hn & Hc). destruct (Ho i a Ha) as (n' & Hn' & Hall). simplify_eq.
  destruct (Hall c Hc) as [Hin _]. apply list_elem_of_lookup in Hin as [j Hj].
  apply lookup_take_Some in Hj as [Hj Hlt]. eauto.
Qed.

Lemma ordered_query_ok ns D gq :
  ordered ns D → NoDup D → gq ∈ D → (∃ n, ns !! gq = Some n ∧ fragment n = []) → query_ok gq ns.
Proof.
  intros Ho Hnd Hgq Hplain a Hreach.
  assert ((∃ i, D !! i = Some a) ∧ ∃ n, ns !! a = Some n ∧ fragment n = []) as [[i Hi] Hn].
  { induction Hreach as [gq|gq c a Hc _ IH]; [split; [by apply list_elem_of_lookup|done]|].
    apply list_elem_of_lookup in Hgq as [i Hi]. destruct (ordered_child _ _ _ _ _ Ho Hi Hc) as (j & _ & Hj).
    apply IH; [by eapply list_elem_of_lookup_2|]. destruct Hc as (n & Hn & Hc).
    destruct (Ho i gq Hi) as (n' & Hn' & Hall). simplify_eq. by apply Hall. }
  split; [done|]. intros Hcyc.
  assert (∀ x y, tc (child ns) x y → ∀ i, D !! i = Some x → ∃ j, j < i ∧ D !! j = Some y) as Hdec.
  { induction 1 as [x y Hxy|x y z Hxy _ IH]; intros k Hk; destruct (ordered_child _ _ _ _ _ Ho Hk Hxy) as (j & Hj & HDj); [eauto|].
    destruct (IH j HDj) as (j' & ? & ?). exists j'. split; [lia|done]. }
  destruct (Hdec a a Hcyc i Hi) as (j & Hj & HDj).
  pose proof (NoDup_lookup _ _ _ _ Hnd Hi HDj). lia.
Qed.

Lemma expandFragments_ordered r ns gq :
  parsed_ok r ns → pq r = Some gq →
  safe (expandFragments (expand_bound (ns, pfrag r)) gq (ns, pfrag r)) (λ st,
    ∃ D, ordered st.1 D ∧ NoDup D ∧ gq ∈ D ∧ (∀ a, a ∈ D → a < length st.1) ∧
      ∃ n, st.1 !! gq = Some n ∧ fragment n = []).
Proof.
  intros [Hf Hq Hfr Hinj Hap] Hgq. destruct (Hq gq Hgq) as [Hroot (n0 & Hn0 & _ & Hplain)].
  assert (∀ f fn, pfrag r !! f = Some fn → is_root ns (FGq fn)) as Hroots.
  { intros f fn Hfn. by destruct (Hfr f fn Hfn) as [[? _] _]. }
  assert (einv ns (pfrag r) ns (pfrag r) []) as Hi.
  { split; try done.
    - intros a n m -> [= <-]. done.
    - constructor.
    - eauto.
    - intros f fn Hfn HX. destruct (Hfr f fn Hfn) as (_ & _ & ?). congruence.
    - intros f a b _ _ Hb. by apply not_elem_of_nil in Hb. }
  apply (out_impl (λ _, False)); [done|].
  eapply out_mono; [|apply (expandFragments_spec ns (pfrag r) Hf Hroots Hinj _ gq ns (pfrag r) [] Hi)].
  - intros [ns' fmap'] (D & Hi' & _ & HD). simpl in *. exists D. split_and!; [|apply Hi'|done|..].
    + intros i a Ha. destruct (ei_done _ _ _ _ _ Hi' i a Ha) as (n & Hn & Hall). exists n. split; [done|].
      intros c Hc. destruct (Hall c Hc) as [Hin (m & Hm & Hfm)]. split; [done|].
      destruct (lookup_lt_is_Some_2 ns' c) as [k Hk].
      { rewrite (ei_len _ _ _ _ _ Hi'). by eapply lookup_lt_Some. }
      exists k. split; [done|]. by rewrite (ei_frag _ _ _ _ _ Hi' c k m Hk Hm).
    + intros a [i Ha]%list_elem_of_lookup. destruct (ei_done _ _ _ _ _ Hi' i a Ha) as (n & Hn & _).
      by eapply lookup_lt_Some.
    + destruct (lookup_lt_is_Some_2 ns' gq) as [k Hk].
      { rewrite (ei_len _ _ _ _ _ Hi'). by eapply lookup_lt_Some. }
      exists k. split; [done|]. by rewrite (ei_frag _ _ _ _ _ Hi' gq k n0 Hk Hn0).
  - by eapply lookup_lt_Some.
  - intros b _ Hb. by apply not_elem_of_nil in Hb.
  - intros f a b (fn & Hfn & _ & <-) Hb Hb'.
    eapply (roots_apart ns Hf (FGq fn) gq b); [by eapply Hroots|done|by eapply Hap|done|done].
  - unfold expand_bound. cbn [fst snd].
    assert (cnt (λ fn, Entered fn = false) (pfrag r) ≤ size (pfrag r)) by apply cnt_le. nia.
Qed.

(** C15: Parsing ends on every query and every set of variables: with an error,
    or with a query tree in which all fragment spreads have been replaced and
    no node is below itself, so that cyclic fragments are always rejected. The
    process can die in three places only: the filter parser popping an empty
    stack, the filter parser ending with operators left, and the substitution
    of variables reading the first byte of an empty argument. *)
Theorem Parse_outcomes query vm :
  match Parse query vm with
  | Ok (Some (gq, ns), _) => query_ok gq ns
  | Ok (None, _) => True
  | Err _ => True
  | Crash m => m ∈ reasons
  end.
Proof.
  assert (safe (Parse query vm) (λ r, match r.1 with Some (gq, ns) => query_ok gq ns | None => True end)) as Hsafe.
  { unfold Parse. destruct (run_spec query) as (its & -> & _). cbn [mbind res_bind].
    apply out_bind. eapply out_mono; [|apply Parse_loop_safe; [simpl; lia|]].
    2: { split; try done; simpl. split; [done|constructor]. }
    intros [r st] Hok. simpl in Hok. destruct (pq r) as [gq|] eqn:Hgq; [|done].
    apply out_bind. eapply out_mono; [|by apply expandFragments_ordered].
    intros [ns fmap] (D & Ho & Hnd & Hin & Hlt & Hplain). cbn [fst] in *. apply out_bind.
    pose proof Hin as [i Hi]%list_elem_of_lookup.
    assert (length D ≤ length ns) as Hlen.
    { assert (D ⊆+ seq 0 (length ns)) as Hsub%submseteq_length; [|by rewrite length_seq in Hsub].
      apply NoDup_submseteq; [done|]. intros a Ha%Hlt. apply elem_of_seq. lia. }
    eapply out_mono; [|apply (substituteVariables_safe _ _ D i gq ns Ho Hi)].
    2: { apply lookup_lt_Some in Hi. lia. }
    intros ns' Hs. simpl. apply (ordered_query_ok ns' D); [by eapply ordered_shape|done|done|].
    destruct Hplain as (n & Hn & Hfr). destruct (Hs gq n Hn) as (n' & ? & _ & ?). exists n'. split; [done|congruence]. }
  by destruct (Parse query vm) as [[[[gq ns]|] mu]| |].
Qed.

(** A filter that is not closed, a filter without operands, and a fragment with
    an unset variable spread twice. *)
Definition crash_query (m : string) : str :=
  if bool_decide (m = "Op stack should be empty when we exit"%string)
  then bs "{me(_uid_:1){friends @filter("
  else if bool_decide (m = "Trying to pop empty stack"%string)
  then bs "{me(_uid_:1){friends @filter(&&){name}}}"
  else bs "query q($a: int){me(_uid_:1){x{...f} y{...f}}} fragment f{friends(first: $a){name}}".

(** Each of the three deaths is reached by a query: an unclosed filter, a
    filter whose operator lacks operands, and a fragment spread twice whose
    argument is a declared variable without a value. *)
Theorem Parse_crashes : ∀ m, m ∈ reasons → Parse (crash_query m) ∅ = Crash m.
Proof.
  intros m Hm. unfold reasons in Hm.
  repeat (apply elem_of_cons in Hm as [->|Hm]; [vm_compute; reflexivity|]).
  by apply not_elem_of_nil in Hm.
Qed.

Lemma Parse_crashes_witness : Parse (crash_query "index out of range") ∅ = Crash "index out of range".
Proof. apply Parse_crashes. by_decide. Defined.

(** A query whose brackets are not closed is rejected, but not when a
    comment ends the text: the lexer then reports the end of the input as if the
    query were complete. *)
Theorem unclosed_query_accepted :
  Parse (bs "{me(_uid_:1){name ") ∅ = Err "Unclosed action" ∧
  ∃ q, Parse (bs "{me(_uid_:1){name #") ∅ = Ok (Some q, None).
Proof. split; [vm_compute; reflexivity|]. eexists. vm_compute. reflexivity. Qed.
End gql_expand.
