(* ===== verification/Rdf.v ===== *)
(** N-Quads: the lexer ([rdf/state.go]) and the parser ([rdf/parse.go]).

    One definition per state function; those that call another one directly do
    so here. [Parse] consumes the items the lexer sends. The hash of external
    ids (the package farm) and the tables of [unicode] beyond Latin-1 are
    parameters. *)
From S2P Require Import Prelude Bytes Strconv Types Task Lex.
From stdpp Require Import options.
#[local] Open Scope Z_scope.
#[local] Set Default Proof Using "Type*".

Module rdf.
Import strconv lex.

(** *** Item types and depths *)
Definition itemText : Z := 5.
Definition itemSubject : Z := 6.
Definition itemPredicate : Z := 7.
Definition itemObject : Z := 8.
Definition itemLabel : Z := 9.
Definition itemLiteral : Z := 10.
Definition itemLanguage : Z := 11.
Definition itemObjectType : Z := 12.
Definition itemValidEnd : Z := 13.

Definition atSubject : Z := 0.
Definition atPredicate : Z := 1.
Definition atObject : Z := 2.
Definition atLabel : Z := 3.

(** *** Runes *)
Definition less : Z := 60.
Definition greater : Z := 62.
Definition underscore : Z := 95.
Definition dquote : Z := 34.
Definition dot : Z := 46.
Definition colon : Z := 58.
Definition backslash : Z := 0x5c.
Definition at_sign : Z := 64.
Definition caret : Z := 94.

Definition isClosingBracket (r : Z) : bool := r =? greater.
Definition isSpace (r : Z) : bool := (r =? 0x09) || (r =? 0x20).
Definition isEndLiteral (r : Z) : bool := (r =? dquote) || (r =? 0x0d) || (r =? 0x0a).
Definition isLangTagPrefix (r : Z) : bool :=
  if (97 <=? r) && (r <=? 122) then true
  else if (65 <=? r) && (r <=? 90) then true
  else false.
Definition isLangTag (r : Z) : bool :=
  if isLangTagPrefix r then true
  else if r =? 45 then true
  else if (48 <=? r) && (r <=? 57) then true
  else false.

Inductive StateFn : Type := SText | SSubject | SPredicate | SObject | SLabel.

(** *** State functions *)
(** [break Loop] and what follows the loop of [lexText]. *)
Definition lexEnd (l : Lexer) : res (flow Lexer (option StateFn * Lexer)) :=
  l ← (if Start l <? Pos l then Emit itemText l else Ok l);
  l ← Emit ItemEOF l;
  stop l.

(** One turn of the loop of [lexText]; the default case reports an error and
    goes on. *)
Definition text_step (l : Lexer) : res (flow Lexer (option StateFn * Lexer)) :=
  ' (r, l) ← Next l;
  if (r =? less) || (r =? underscore) then
    if Depth l =? atSubject then l ← Emit itemText (Backup l); goto SSubject l
    else if Depth l =? atPredicate then l ← Emit itemText (Backup l); goto SPredicate l
    else if Depth l =? atObject then l ← Emit itemText (Backup l); goto SObject l
    else if Depth l =? atLabel then l ← Emit itemText (Backup l); goto SLabel l
    else stop (Errorf "Invalid input: %c at lexText" l)
  else if r =? dquote then
    if negb (Depth l =? atObject) then stop (Errorf "Invalid quote for non-object." l)
    else l ← Emit itemText (Backup l); goto SObject l
  else if r =? EOF then lexEnd l
  else if r =? dot then
    l ← (if atObject <? Depth l then Emit itemValidEnd l else Ok l);
    lexEnd l
  else if isSpace r then again l
  else again (Errorf "Invalid input: %c at lexText" l).

Definition lexText (l : Lexer) : res (option StateFn * Lexer) := loop text_step l.

(** A state function that returns [sfn], or reports an error. *)
Definition next_state (s : StateFn) (l : Lexer) : res (option StateFn * Lexer) := Ok (Some s, l).
Definition fail (format : string) (l : Lexer) : res (option StateFn * Lexer) := Ok (None, Errorf format l).

Definition lexUntilClosing (styp : Z) (sfn : StateFn) (l : Lexer) : res (option StateFn * Lexer) :=
  l ← AcceptUntil isClosingBracket l;
  ' (r, l) ← Next l;
  if r =? EOF then fail "Unexpected end of subject" l
  else if r =? greater then l ← Emit styp l; next_state sfn l
  else fail "Invalid character %v found for itemType: %v" l.

Definition uid_prefix : list byte := bs "_uid_:".

Definition lexUidNode (styp : Z) (sfn : StateFn) (l : Lexer) : res (option StateFn * Lexer) :=
  l ← AcceptUntil isSpace l;
  ' (r, l) ← Peek l;
  if r =? EOF then fail "Unexpected end of uid subject" l
  else
    word ← slice (Input l) (Start l) (Pos l);
    if negb (HasPrefix word uid_prefix) then fail "Expected _uid_: Found: %v" l
    else
      digits ← slice word 6 (Z.of_nat (length word));
      match ParseUint digits 0 64 with
      | Ok _ =>
          if isSpace r then l ← Emit styp l; next_state sfn l
          else fail "Invalid character %v found for UID node itemType: %v" l
      | Err _ => fail "Unable to convert '%v' to UID" l
      | Crash m => Crash m
      end.

Definition lexBlankNode (styp : Z) (sfn : StateFn) (l : Lexer) : res (option StateFn * Lexer) :=
  l ← AcceptUntil isSpace l;
  ' (r, l) ← Peek l;
  if r =? EOF then fail "Unexpected end of subject" l
  else if isSpace r then l ← Emit styp l; next_state sfn l
  else fail "Invalid character %v found for itemType: %v" l.

Definition lexSubject (l : Lexer) : res (option StateFn * Lexer) :=
  ' (r, l) ← Next l;
  if r =? less then lexUntilClosing itemSubject SText (add_Depth 1 l)
  else if r =? underscore then
    ' (r, l) ← Next (add_Depth 1 l);
    if r =? 117 then lexUidNode itemSubject SText l
    else if r =? colon then lexBlankNode itemSubject SText l
    else fail "Invalid character during lexSubject: %v" l
  else fail "Invalid character during lexSubject: %v" l.

Definition lexPredicate (l : Lexer) : res (option StateFn * Lexer) :=
  ' (r, l) ← Next l;
  if negb (r =? less) then fail "Invalid character in lexPredicate: %v" l
  else lexUntilClosing itemPredicate SText (add_Depth 1 l).

Definition lexLanguage (l : Lexer) : res (option StateFn * Lexer) :=
  ' (r, l) ← Next l;
  if negb (r =? at_sign) then fail "Expected @ prefix for lexLanguage" l
  else
    ' (r, l) ← Next (Ignore l);
    if negb (isLangTagPrefix r) then fail "Invalid language tag prefix: %v" l
    else
      l ← AcceptRun isLangTag l;
      l ← Emit itemLanguage l;
      next_state SText l.

Definition lexObjectType (l : Lexer) : res (option StateFn * Lexer) :=
  ' (r, l) ← Next l;
  if negb (r =? caret) then fail "Expected ^ for lexObjectType" l
  else
    ' (r, l) ← Next l;
    if negb (r =? caret) then fail "Expected ^^ for lexObjectType" l
    else
      ' (r, l) ← Next (Ignore l);
      if negb (r =? less) then fail "Expected < for lexObjectType" l
      else lexUntilClosing itemObjectType SText l.

(** The loop of [lexLiteral]; a backslash skips the rune after it. *)
Definition literal_step (l : Lexer) : res (flow Lexer Lexer) :=
  ' (r, l) ← Next l;
  if r =? backslash then ' (_, l) ← Next l; Ok (Continue l)
  else if (r =? EOF) || isEndLiteral r then Ok (Return l)
  else Ok (Continue l).

Definition literal_loop (l : Lexer) : res Lexer := for_loop (bound l) literal_step l.

Definition lexLiteral (l : Lexer) : res (option StateFn * Lexer) :=
  l ← literal_loop l;
  l ← Emit itemLiteral (Backup l);
  ' (_, l) ← Next l;
  ' (r, l) ← Peek (add_Depth 1 (Ignore l));
  if r =? at_sign then lexLanguage l
  else if r =? caret then lexObjectType l
  else next_state SText l.

Definition lexObject (l : Lexer) : res (option StateFn * Lexer) :=
  ' (r, l) ← Next l;
  if r =? less then lexUntilClosing itemObject SText (add_Depth 1 l)
  else
    let quoted r l :=
      if r =? dquote then lexLiteral (Ignore l) else fail "Invalid char: %v at lexObject" l in
    if r =? underscore then
      ' (r, l) ← Next (add_Depth 1 l);
      if r =? 117 then lexUidNode itemObject SText l
      else if r =? colon then lexBlankNode itemObject SText l
      else quoted r l
    else quoted r l.

Definition lexLabel (l : Lexer) : res (option StateFn * Lexer) :=
  ' (r, l) ← Next l;
  if r =? less then lexUntilClosing itemLabel SText (add_Depth 1 l)
  else if r =? underscore then
    ' (r, l) ← Next (add_Depth 1 l);
    if negb (r =? colon) then fail "Invalid char: %c at lexLabel" l
    else lexBlankNode itemLabel SText (Backup l)
  else fail "Invalid char: %v at lexLabel" l.

Definition exec (s : StateFn) : Lexer → res (option StateFn * Lexer) :=
  match s with
  | SText => lexText
  | SSubject => lexSubject
  | SPredicate => lexPredicate
  | SObject => lexObject
  | SLabel => lexLabel
  end.

Definition run (input : list byte) : res (list item) := run_lexer exec SText input.

(** ** The parser *)
Record NQuad : Type := mkNQuad {
  Subject : list byte;
  Predicate : list byte;
  ObjectId : list byte;
  ObjectValue : option (list byte);
  ObjectType : Z;
  Label : list byte;
}.

Definition emptyNQuad : NQuad := mkNQuad [] [] [] None 0 [].
Definition set_Subject (v : list byte) (q : NQuad) : NQuad :=
  mkNQuad v (Predicate q) (ObjectId q) (ObjectValue q) (ObjectType q) (Label q).
Definition set_Predicate (v : list byte) (q : NQuad) : NQuad :=
  mkNQuad (Subject q) v (ObjectId q) (ObjectValue q) (ObjectType q) (Label q).
Definition set_ObjectId (v : list byte) (q : NQuad) : NQuad :=
  mkNQuad (Subject q) (Predicate q) v (ObjectValue q) (ObjectType q) (Label q).
Definition set_Object (v : list byte) (t : Z) (q : NQuad) : NQuad :=
  mkNQuad (Subject q) (Predicate q) (ObjectId q) (Some v) t (Label q).
Definition set_Label (v : list byte) (q : NQuad) : NQuad :=
  mkNQuad (Subject q) (Predicate q) (ObjectId q) (ObjectValue q) (ObjectType q) v.

Class RdfLib : Type := {
  (** [farm.Fingerprint64] *)
  Fingerprint64 : list byte → Z;
  (** [unicode.IsLetter(r) || unicode.IsDigit(r)] from U+0100 on *)
  unicode_alnum : Z → bool;
}.

(** [strings.Trim(s, " ")]. *)
Fixpoint TrimLeft (s : list byte) : list byte :=
  match s with
  | x20 :: s => TrimLeft s
  | _ => s
  end.
Definition Trim (s : list byte) : list byte := rev (TrimLeft (rev (TrimLeft s))).

(** The slice expressions and index expressions panic on an empty string. *)
Definition stripBracketsAndTrim (val : list byte) : res (list byte) :=
  b ← index val 0;
  e ← index val (length val - 1);
  if negb (bool_decide (b = x3c)) && negb (bool_decide (e = x3e)) then Ok (Trim val)
  else v ← slice val 1 (Z.of_nat (length val) - 1); Ok (Trim v).

(** [strings.Replace] of every single quote by a double quote. *)
Definition requote (s : list byte) : list byte := (λ b, if bool_decide (b = x27) then x22 else b) <$> s.

Definition typeMap : gmap (list byte) Z :=
  list_to_map ((λ e : string * Z, (bs e.1, e.2)) <$>
    [("xs:string", types.StringID);
     ("xs:dateTime", types.DateTimeID);
     ("xs:date", types.DateID);
     ("xs:int", types.Int32ID);
     ("xs:boolean", types.BoolID);
     ("xs:double", types.FloatID);
     ("xs:float", types.FloatID);
     ("geo:geojson", types.GeoID);
     ("http://www.w3.org/2001/XMLSchema#string", types.StringID);
     ("http://www.w3.org/2001/XMLSchema#dateTime", types.DateTimeID);
     ("http://www.w3.org/2001/XMLSchema#date", types.DateID);
     ("http://www.w3.org/2001/XMLSchema#int", types.Int32ID);
     ("http://www.w3.org/2001/XMLSchema#boolean", types.BoolID);
     ("http://www.w3.org/2001/XMLSchema#double", types.FloatID);
     ("http://www.w3.org/2001/XMLSchema#float", types.FloatID)]%string).

Section parser.
Context `{types.ValueLib, RdfLib}.

(** [unicode.IsLetter(r) || unicode.IsDigit(r)]. *)
Definition isAlnum (r : Z) : bool :=
  if r <? 0x100 then
    ((48 <=? r) && (r <=? 57)) || ((65 <=? r) && (r <=? 90)) || ((97 <=? r) && (r <=? 122))
    || (r =? 0xAA) || (r =? 0xB5) || (r =? 0xBA)
    || ((0xC0 <=? r) && (r <=? 0xFF) && negb (r =? 0xD7) && negb (r =? 0xF7))
  else unicode_alnum r.

Definition sane (s : list byte) : bool :=
  match s with
  | [] => true
  | _ => existsb (λ ir, isAlnum ir.2) (range_string s)
  end.

(** The variables of [Parse]'s loop. *)
Record pstate : Type := mkP { rnq : NQuad; oval : list byte; vend : bool }.

Definition objectType (val : list byte) (st : pstate) : res pstate :=
  if (length (oval st) =? 0)%nat
  then Crash "itemObject should be emitted before itemObjectType. Input: [%s]"
  else
    val ← stripBracketsAndTrim val;
    if bool_decide (Trim val = bs "*") then Err "itemObject can't be *"
    else
      match typeMap !! val with
      | Some t =>
          p ← types.UnmarshalText t (oval st);
          v ← types.MarshalBinary p;
          Ok (mkP (set_Object v t (rnq st)) [] (vend st))
      | None => Ok (mkP (rnq st) (oval st ++ bs "@@" ++ val) (vend st))
      end.

Definition parse_item (i : item) (st : pstate) : res pstate :=
  let q := rnq st in
  let upd q := mkP q (oval st) (vend st) in
  if Typ i =? itemSubject then v ← stripBracketsAndTrim (Val i); Ok (upd (set_Subject v q))
  else if Typ i =? itemPredicate then v ← stripBracketsAndTrim (Val i); Ok (upd (set_Predicate v q))
  else if Typ i =? itemObject then v ← stripBracketsAndTrim (Val i); Ok (upd (set_ObjectId v q))
  else if Typ i =? itemLiteral then Ok (mkP q (requote (Val i)) (vend st))
  else if Typ i =? itemLanguage then Ok (upd (set_Predicate (Predicate q ++ bs "." ++ Val i) q))
  else if Typ i =? itemObjectType then objectType (Val i) st
  else if Typ i =? ItemError then Err "item.Val"
  else if Typ i =? itemValidEnd then Ok (mkP q (oval st) true)
  else if Typ i =? itemLabel then v ← stripBracketsAndTrim (Val i); Ok (upd (set_Label v q))
  else Ok st.

Fixpoint parse_items (its : list item) (st : pstate) : res pstate :=
  match its with
  | [] => Ok st
  | i :: its => st ← parse_item i st; parse_items its st
  end.

(** The tests after the loop. *)
Definition finish (st : pstate) : res NQuad :=
  if negb (vend st) then Err "Invalid end of input. Input: [%s]"
  else
    let q := if (0 <? length (oval st))%nat then set_Object (oval st) 0 (rnq st) else rnq st in
    if (length (Subject q) =? 0)%nat || (length (Predicate q) =? 0)%nat
    then Err "Empty required fields in NQuad. Input: [%s]"
    else if (length (ObjectId q) =? 0)%nat && bool_decide (ObjectValue q = None)
    then Err "No Object in NQuad. Input: [%s]"
    else if negb (sane (Subject q)) || negb (sane (Predicate q)) || negb (sane (ObjectId q))
            || negb (sane (Label q))
    then Err "NQuad failed sanity check:%+v"
    else Ok q.

Definition Parse (line : list byte) : res NQuad :=
  its ← run line;
  st ← parse_items its (mkP emptyNQuad [] false);
  finish st.

(** *** Edges *)
Definition GetUid (xid : list byte) : res Z :=
  if HasPrefix xid uid_prefix
  then digits ← slice xid 6 (Z.of_nat (length xid)); ParseUint digits 0 64
  else Ok (Fingerprint64 xid).

Definition ToEdge (nq : NQuad) : res DirectedEdge :=
  sid ← GetUid (Subject nq);
  if (0 <? length (ObjectId nq))%nat then
    oid ← GetUid (ObjectId nq);
    Ok (mkEdge sid (Predicate nq) None 0 oid (Label nq))
  else Ok (mkEdge sid (Predicate nq) (ObjectValue nq) (ObjectType nq) 0 (Label nq)).

Definition toUid (xid : list byte) (newToUid : gmap (list byte) Z) : res Z :=
  match newToUid !! xid with
  | Some id => Ok id
  | None => GetUid xid
  end.

Definition ToEdgeUsing (newToUid : gmap (list byte) Z) (nq : NQuad) : res DirectedEdge :=
  uid ← toUid (Subject nq) newToUid;
  if (length (ObjectId nq) =? 0)%nat
  then Ok (mkEdge uid (Predicate nq) (ObjectValue nq) (ObjectType nq) 0 (Label nq))
  else
    oid ← toUid (ObjectId nq) newToUid;
    Ok (mkEdge uid (Predicate nq) None 0 oid (Label nq)).
End parser.
End rdf.
