(* ===== verification/RdfSafe.v ===== *)
(** The N-Quad lexer ends on every input and sends well-formed items; the
    parser dies only on an empty literal with a type. *)
From S2P Require Import Prelude Bytes Strconv Types Task Lex Rdf.
From stdpp Require Import options.
#[local] Open Scope Z_scope.
#[local] Set Default Proof Using "Type*".

Module rdf_safe.
Import strconv lex rdf.

(** *** Items *)
(** The items whose first and last byte the parser looks at have two bytes. *)
Definition bracketed (t : Z) : bool :=
  bool_decide (t ∈ [itemSubject; itemPredicate; itemObject; itemLabel; itemObjectType]).
Definition good (i : item) : Prop := bracketed (Typ i) = true → (2 ≤ length (Val i))%nat.

Lemma good_send its t v :
  Forall good its → (bracketed t = true → 2 ≤ Z.of_nat (length v)) → Forall good (its ++ [mkItem t v]).
Proof.
  intros Hits Hv. apply Forall_app. split; [done|]. constructor; [|constructor].
  intros Ht. simpl in *. specialize (Hv Ht). lia.
Qed.

Definition rank (s : StateFn) : Z := match s with SText => 1 | _ => 0 end.

(** The outcome of the code called from a state function at [l]. *)
Definition sub_post (l : Lexer) (r : option StateFn * Lexer) : Prop :=
  lexinv r.2 ∧ Input r.2 = Input l ∧ Forall good (Items r.2) ∧
  match r.1 with
  | Some s' => s' = SText ∧ Pos l ≤ Pos r.2
  | None => ended (Items r.2)
  end.

Definition exec_post (s : StateFn) (l : Lexer) (r : option StateFn * Lexer) : Prop :=
  lexinv r.2 ∧ Input r.2 = Input l ∧ Forall good (Items r.2) ∧
  match r.1 with
  | Some s' => True ∧ 3 * remaining r.2 + rank s' < 3 * remaining l + rank s
  | None => ended (Items r.2)
  end.

Lemma sub_exec s l0 l r :
  Input l = Input l0 → Pos l0 < Pos l → s ≠ SText → sub_post l r → exec_post s l0 r.
Proof.
  intros HI HP Hs (H1 & H2 & H3 & H4). split_and!; [done|congruence|done|].
  destruct r as [[s'|] l']; [|done]. destruct H4 as [-> H4]. split; [done|].
  unfold remaining, len. simpl in *. rewrite H2, HI. destruct s; [done|..]; simpl; lia.
Qed.

Lemma sub_from l l' r : Input l' = Input l → Pos l ≤ Pos l' → sub_post l' r → sub_post l r.
Proof.
  intros HI HP (H1 & H2 & H3 & H4). split_and!; [done|congruence|done|].
  destruct r as [[s'|] l'']; [|done]. destruct H4 as [-> H4]. split; [done|simpl in *; lia].
Qed.

(** Solves [Forall good] of the items sent along a path. *)
Ltac items_good :=
  repeat match goal with H : ∃ v, _ ∧ _ |- _ => destruct H as (? & ? & ?) end;
  unfold Errorf, send in *; simpl in *;
  repeat match goal with
  | |- Forall good (Items ?l) => match goal with H : Items l = _ |- _ => rewrite H end
  | |- Forall good (_ ++ [_]) => apply good_send
  end;
  first [assumption | intros; lex_bounds; simpl in *; first [discriminate | lia]].

(** Ends a path of called code. *)
Ltac sub_done :=
  lex_bounds; unfold sub_post; simpl in *;
  split; [lex_inv|split; [congruence|split; [items_good|first [solve [auto with lexer]|split; [done|lia]]]]].

Ltac lex_run :=
  repeat lazymatch goal with
  | |- wp (next_state _ _) _ => apply wp_Ok
  | |- wp (fail _ _) _ => apply wp_Ok
  | |- wp (Peek _) _ => unfold Peek
  | _ => lex_step
  end.

Lemma lexUntilClosing_ok t l :
  lexinv l → t ≠ ItemError → t ≠ ItemEOF → Start l < Pos l → Forall good (Items l) →
  wp (lexUntilClosing t SText l) (sub_post l).
Proof. intros Hl Ht Ht' Hs Hg. unfold lexUntilClosing. lex_run; sub_done. Qed.

Lemma lexBlankNode_ok t l :
  lexinv l → t ≠ ItemError → t ≠ ItemEOF → Start l < Pos l → Forall good (Items l) →
  (Start l + 2 ≤ Pos l ∨ ahead (Input l) (Pos l) = colon) →
  wp (lexBlankNode t SText l) (sub_post l).
Proof.
  intros Hl Ht Ht' Hs Hg Ha. unfold lexBlankNode. do 2 lex_step.
  assert (Start l + 2 ≤ Pos l').
  { destruct Ha as [Ha|Ha]; [lia|]. rewrite Ha in *.
    match goal with H : _ → _ → Pos l < Pos l' |- _ => specialize (H ltac:(done) ltac:(done)); lia end. }
  lex_run; sub_done.
Qed.

Lemma HasPrefix_length s p : HasPrefix s p = true → (length p ≤ length s)%nat.
Proof. intros [t ->]%HasPrefix_spec. rewrite length_app. lia. Qed.

Lemma ParseUint_no_crash s b w m : ParseUint s b w ≠ Crash m.
Proof.
  assert (∀ base maxVal n s, digits_loop base maxVal n s ≠ Crash m) as Hd.
  { intros base maxVal n s'. revert n. induction s' as [|c s' IH]; intros n; simpl; [done|].
    repeat case_match; try done; apply IH. }
  unfold ParseUint. repeat case_match; try done; apply Hd.
Qed.

Lemma lexUidNode_ok t l :
  lexinv l → t ≠ ItemError → t ≠ ItemEOF → Start l + 2 ≤ Pos l → Forall good (Items l) →
  wp (lexUidNode t SText l) (sub_post l).
Proof.
  intros Hl Ht Ht' Hs Hg. unfold lexUidNode. lex_run; try sub_done.
  match goal with H : negb (HasPrefix _ _) = false |- _ =>
    apply negb_false_iff, HasPrefix_length in H; change (length uid_prefix) with 6%nat in H end.
  lex_run. destruct (ParseUint _ _ _) eqn:Hp; [|apply wp_Ok; sub_done|by apply ParseUint_no_crash in Hp].
  lex_run; sub_done.
Qed.

Lemma lexLanguage_ok l :
  lexinv l → Forall good (Items l) → wp (lexLanguage l) (sub_post l).
Proof. intros Hl Hg. unfold lexLanguage. lex_run; sub_done. Qed.

(** Runs called code by its lemma. *)
Ltac side :=
  first [done | solve [lex_inv] | solve [items_good] | lex_bounds; simpl in *; first [lia | congruence | left; lia]].
Ltac call lem := eapply wp_mono; [|apply lem; side]; intros ?.

Lemma lexObjectType_ok l :
  lexinv l → Forall good (Items l) → wp (lexObjectType l) (sub_post l).
Proof.
  intros Hl Hg. unfold lexObjectType. lex_run; try sub_done.
  all: call lexUntilClosing_ok; apply sub_from; side.
Qed.

Lemma literal_loop_ok l (Q : Lexer → Prop) :
  lexinv l → Start l = Pos l → Forall good (Items l) →
  (∀ l', lexinv l' → Input l' = Input l → Start l' ≤ Pos l' - Width l' → 0 ≤ Width l' → Pos l ≤ Pos l' - Width l' →
    Items l' = Items l → Q l') →
  wp (literal_loop l) Q.
Proof.
  intros Hl Hs Hg HQ. unfold literal_loop.
  apply (wp_for_loop (λ l', lexinv l' ∧ Input l' = Input l ∧ Start l' = Start l ∧ Pos l ≤ Pos l' ∧ Items l' = Items l)
    (λ l, Z.to_nat (remaining l))).
  - intros l' (H1 & H2 & H3 & H4 & H5). unfold literal_step. lex_run; try (apply HQ; side);
      lex_norm exec_post; split_and!; try done; try congruence; lia.
  - done.
  - unfold bound. lex_norm exec_post. lia.
Qed.

Lemma lexLiteral_ok l :
  lexinv l → Start l = Pos l → Forall good (Items l) → wp (lexLiteral l) (sub_post l).
Proof.
  intros Hl Hs Hg. unfold lexLiteral. lex_step. apply literal_loop_ok; [done..|].
  intros l1 H1 H2 H3 H4 H5 H6. lex_run; try sub_done.
  all: first [call lexLanguage_ok | call lexObjectType_ok]; apply sub_from; side.
Qed.

(** *** The state functions *)
Lemma rdf_lexText_ok l : lexinv l → Forall good (Items l) → wp (lexText l) (exec_post SText l).
Proof.
  intros Hl Hg. unfold lexText.
  apply (wp_loop (λ l', Forall good (Items l'))); [done|done|]. intros l' Hl' HI HP Hg'. unfold text_step, lexEnd. lex_run.
  all: lex_norm exec_post; try (exfalso; lia).
  all: first
    [ split_and!; [lex_inv|congruence|lia|items_good]
    | split; [lex_inv|split; [congruence|split; [items_good|first [solve [auto with lexer] | split; [done|lia]]]]] ].
Qed.

(** A state function that reads a rune and goes on in called code. *)
Ltac lex_call :=
  first
  [ lex_norm exec_post; split; [lex_inv|split; [congruence|split; [items_good|solve [auto with lexer]]]]
  | first [call lexUntilClosing_ok | call lexUidNode_ok | call lexLiteral_ok | call lexBlankNode_ok];
    apply sub_exec; side ].

Lemma lexSubject_ok l : lexinv l → Forall good (Items l) → wp (lexSubject l) (exec_post SSubject l).
Proof. intros Hl Hg. unfold lexSubject. lex_run; lex_call. Qed.

Lemma lexPredicate_ok l : lexinv l → Forall good (Items l) → wp (lexPredicate l) (exec_post SPredicate l).
Proof. intros Hl Hg. unfold lexPredicate. lex_run; lex_call. Qed.

Lemma rdf_lexObject_ok l : lexinv l → Forall good (Items l) → wp (lexObject l) (exec_post SObject l).
Proof. intros Hl Hg. unfold lexObject. lex_run; lex_call. Qed.

Lemma lexLabel_ok l : lexinv l → Forall good (Items l) → wp (lexLabel l) (exec_post SLabel l).
Proof.
  intros Hl Hg. unfold lexLabel. lex_run; try lex_call.
  match goal with |- wp (lexBlankNode _ _ (Backup ?l1)) _ =>
    assert (ahead (Input (Backup l1)) (Pos (Backup l1)) = colon) as Ha end.
  { simpl in *. repeat match goal with H : Input _ = _ |- _ => rewrite H | H : Pos _ = _ |- _ => rewrite H end.
    rewrite Z.add_simpl_r. apply negb_false_iff, Z.eqb_eq in E1. congruence. }
  call lexBlankNode_ok. apply sub_exec; side.
Qed.

#[export] Instance rdf_progress : LexProgress exec.
Proof.
  refine {| lp_pre := λ _ _, True; lp_rank := rank; lp_item := good |}.
  - intros s. by destruct s.
  - intros s l Hl _ Hg. change (wp (exec s l) (exec_post s l)). destruct s; simpl.
    + by apply rdf_lexText_ok.
    + by apply lexSubject_ok.
    + by apply lexPredicate_ok.
    + by apply rdf_lexObject_ok.
    + by apply lexLabel_ok.
Defined.

Lemma rdf_run_spec input : ∃ its, run input = Ok its ∧ ended its ∧ embeds (texts its) input ∧ Forall good its.
Proof. apply wp_inv. exact (wp_run_lexer exec SText input (λ _, Logic.I)). Qed.

(** ** The parser *)
Section parser.
Context `{types.ValueLib, RdfLib}.

(** The libraries for times and geometry return errors, they do not panic. *)
Class LibSafe : Prop := {
  time_UnmarshalText_safe text m : types.time_UnmarshalText text ≠ Crash m;
  time_Parse_plain_safe text m : types.time_Parse_plain text ≠ Crash m;
  geojson_Unmarshal_safe text m : types.geojson_Unmarshal text ≠ Crash m;
  time_MarshalBinary_safe t m : types.time_MarshalBinary t ≠ Crash m;
  wkb_Marshal_safe g m : types.wkb_Marshal g ≠ Crash m;
}.

Definition fatal : string := "itemObject should be emitted before itemObjectType. Input: [%s]".

Lemma not_crash {A} (m : res A) E : (∀ s, m ≠ Crash s) → out E m (λ _, True).
Proof. destruct m; simpl; [done..|]. intros Hm. by destruct (Hm m). Qed.

Lemma index_ok {A} E (l : list A) i : (i < length l)%nat → out E (index l i) (λ _, True).
Proof. intros Hi. unfold index. destruct (lookup_lt_is_Some_2 l i Hi) as [x ->]. done. Qed.

Lemma strip_safe E v : (2 ≤ length v)%nat → out E (stripBracketsAndTrim v) (λ _, True).
Proof.
  intros Hv. unfold stripBracketsAndTrim. apply out_bind.
  eapply out_mono; [|apply index_ok; lia]. intros b _. apply out_bind.
  eapply out_mono; [|apply index_ok; lia]. intros e _. case_match; [done|].
  apply out_bind. rewrite slice_ok by lia. done.
Qed.

Lemma rdf_ParseInt_safe s b w m : ParseInt s b w ≠ Crash m.
Proof.
  unfold ParseInt. destruct s; [done|]. destruct (ParseUint _ _ _) eqn:Hp; simpl;
    [|done|by apply ParseUint_no_crash in Hp]. repeat case_match; done.
Qed.

Lemma ParseFloat_safe s m : types.ParseFloat s ≠ Crash m.
Proof. unfold types.ParseFloat, ParseFloat_err. repeat (case_match; simpl); done. Qed.

Lemma parse_date_safe s m : types.parse_date s ≠ Crash m.
Proof. unfold types.parse_date. repeat case_match; done. Qed.

Lemma fmap_safe {A B} (f : A → B) (x : res A) : (∀ m, x ≠ Crash m) → ∀ m, f <$> x ≠ Crash m.
Proof. intros Hx m. destruct x; [done|done|]. by destruct (Hx m0). Qed.

Lemma bind_safe {A B} (f : A → res B) (x : res A) :
  (∀ m, x ≠ Crash m) → (∀ a m, f a ≠ Crash m) → ∀ m, x ≫= f ≠ Crash m.
Proof. intros Hx Hf m. destruct x; [apply Hf|done|]. by destruct (Hx m0). Qed.

Definition typed_ids : list Z :=
  [types.StringID; types.DateTimeID; types.DateID; types.Int32ID; types.BoolID; types.FloatID; types.GeoID].

Lemma UnmarshalText_safe `{!LibSafe} t text : t ∈ typed_ids → ∀ m, types.UnmarshalText t text ≠ Crash m.
Proof.
  intros Ht. unfold typed_ids in Ht. set_unfold. destruct_or! Ht; subst t; apply fmap_safe.
  - done.
  - intros m. unfold types.Time_UnmarshalText.
    destruct (types.time_UnmarshalText text) eqn:Hu; [done|apply time_Parse_plain_safe|].
    by apply time_UnmarshalText_safe in Hu.
  - apply bind_safe; [|done]. intros m. apply parse_date_safe.
  - intros m. apply rdf_ParseInt_safe.
  - intros m. unfold types.Bool_UnmarshalText, ParseBool. repeat case_match; done.
  - apply bind_safe; [|done]. intros m. apply ParseFloat_safe.
  - intros m. apply geojson_Unmarshal_safe.
Qed.

Lemma MarshalBinary_safe `{!LibSafe} v m : types.MarshalBinary v ≠ Crash m.
Proof. destruct v; try done; [apply time_MarshalBinary_safe|apply wkb_Marshal_safe]. Qed.

Lemma typeMap_ids : map_Forall (λ _ t, t ∈ typed_ids) typeMap.
Proof. apply (bool_decide_unpack _). vm_compute. exact Logic.I. Qed.

Lemma parse_item_safe `{!LibSafe} i st : good i → out (λ m, m = fatal) (parse_item i st) (λ _, True).
Proof.
  intros Hi. unfold parse_item.
  assert (∀ (f : list byte → pstate), bracketed (Typ i) = true →
    out (λ m, m = fatal) (v ← stripBracketsAndTrim (Val i); Ok (f v)) (λ _, True)) as Hstrip.
  { intros f Hb. apply out_bind. eapply out_mono; [|by apply strip_safe, Hi]. done. }
  repeat match goal with |- context [Typ i =? ?t] =>
    destruct (Z.eqb_spec (Typ i) t) as [Et|_]; [first [done | apply Hstrip; by rewrite Et | idtac]|] end; [|done].
  assert (bracketed (Typ i) = true) as Hb by (by rewrite Et).
  unfold objectType. case_match; [done|]. apply out_bind. eapply out_mono; [|by apply strip_safe, Hi].
  intros v _. case_match; [done|]. destruct (typeMap !! v) as [t|] eqn:Ht; [|done].
  apply typeMap_ids in Ht. apply out_bind. eapply out_mono; [|apply not_crash, (UnmarshalText_safe _ _ Ht)].
  intros p _. apply out_bind. eapply out_mono; [|apply not_crash, MarshalBinary_safe]. done.
Qed.

(** What a parsed statement promises to its users. *)
Definition nquad_ok (q : NQuad) : Prop :=
  Subject q ≠ [] ∧ Predicate q ≠ [] ∧ (ObjectId q ≠ [] ∨ is_Some (ObjectValue q)) ∧
  sane (Subject q) = true ∧ sane (Predicate q) = true ∧ sane (ObjectId q) = true ∧ sane (Label q) = true.

Lemma finish_ok st : out (λ m, m = fatal) (finish st) nquad_ok.
Proof.
  unfold finish. case_match; [done|]. set (q := if (0 <? _)%nat then _ else rnq st). clearbody q.
  repeat (case_match; [done|]). rewrite !orb_false_iff, !negb_false_iff, ?andb_false_iff in *.
  simpl. destruct_and!. split_and!; try done; [by destruct (Subject q)|by destruct (Predicate q)|].
  match goal with H : _ ∨ _ |- _ => destruct H as [E|E] end; [left; by destruct (ObjectId q)|right].
  apply bool_decide_eq_false in E. by apply not_eq_None_Some.
Qed.

Lemma parse_items_safe `{!LibSafe} its st :
  Forall good its → out (λ m, m = fatal) (parse_items its st) (λ _, True).
Proof.
  intros Hits. revert st. induction Hits as [|i its Hi Hits IH]; intros st; simpl; [done|].
  apply out_bind. eapply out_mono; [|by apply parse_item_safe]. intros st' _. apply IH.
Qed.

(** C33: Parsing an N-Quad ends on every line. It returns an error, or a
    statement with a subject, a predicate and an object, each with a letter or
    digit, or the process ends in one way only: the type of a literal when the
    literal is empty. *)
Theorem rdf_Parse_outcomes `{!LibSafe} line : out (λ m, m = fatal) (Parse line) nquad_ok.
Proof.
  unfold Parse. destruct (rdf_run_spec line) as (its & -> & _ & _ & Hits). simpl. apply out_bind.
  eapply out_mono; [|by apply parse_items_safe]. intros st _. apply finish_ok.
Qed.
End parser.

Definition no_hash : RdfLib := {| Fingerprint64 := λ _, 0; unicode_alnum := λ _, false |}.

(** An empty literal with a type. *)
Definition empty_typed : list byte := bs "<a> <b> " ++ [x22; x22] ++ bs "^^<xs:int> .".

Lemma rdf_Parse_outcomes_witness :
  Parse (H := types.lib 0) (H0 := no_hash) empty_typed = Crash fatal ∧
  out (λ m, m = fatal) (Parse (H := types.lib 0) (H0 := no_hash) empty_typed)
    (nquad_ok (H0 := no_hash)).
Proof.
  split; [vm_compute; reflexivity|].
  assert (LibSafe (H := types.lib 0)) as Hsafe by (constructor; discriminate).
  exact (rdf_Parse_outcomes (H := types.lib 0) (H0 := no_hash) empty_typed).
Defined.
End rdf_safe.
