(* ===== verification/RdfPrint.v ===== *)
(** Parsing printed N-Quads: the lexer and the parser of [rdf] run on a
    statement of the usual shape give back its parts. *)
From S2P Require Import Prelude Bytes Strconv Types Task Lex LexText Rdf.
From stdpp Require Import options.
#[local] Open Scope Z_scope.
#[local] Set Default Proof Using "Type*".

Module rdf_print.
Import strconv lex lex_text rdf.

(** The text between quotes: no quote, newline or carriage return except after
    a backslash. *)
Fixpoint lit_ok (s : list byte) : bool :=
  match s with
  | [] => true
  | b :: s =>
      if bool_decide (b = x5c) then match s with [] => false | _ :: s => lit_ok s end
      else negb (isEndLiteral (byte_to_Z b)) && lit_ok s
  end.

Lemma lit_ok_high u s : Forall high u → lit_ok (u ++ s) = true → lit_ok s = true.
Proof.
  induction 1 as [|b u Hb Hu IH]; [done|]. simpl.
  rewrite bool_decide_false by (intros ->; vm_compute in Hb; by apply Hb).
  rewrite andb_true_iff. intros [_ ?]. by apply IH.
Qed.

Lemma rune_bytes b rest p t w its d x q rest' :
  b :: rest = x ++ q :: rest' → x ≠ [] → ascii q →
  ∃ r u y k, x = u ++ y ∧ u ≠ [] ∧ (ascii b → r = byte_to_Z b ∧ u = [b]) ∧ (high b → 0x80 ≤ r ∧ Forall high u) ∧
    Next (L p t (b :: rest) w its d) = Ok (r, L p (t ++ u) (y ++ q :: rest') k its d).
Proof.
  intros Heq Hx Hq. destruct x as [|b' x]; [done|]. simplify_eq/=. destruct (decide (ascii b')) as [Hb|Hb].
  - exists (byte_to_Z b'), [b'], x, 1. rewrite Next_L by done. split_and!; try done.
    unfold high, ascii in *. lia.
  - assert (high b') as Hh by (unfold high, ascii in *; lia).
    destruct (Next_high p t b' (x ++ q :: rest') w its d Hh) as (r & u & v & k & Huv & Hu & Hhu & Hr & ->).
    destruct (high_prefix u v (b' :: x) q rest') as (y & Hy & ->); [done|done|done|].
    exists r, u, y, k. split_and!; done.
Qed.

Lemma literal_step_quote p t rest w its d :
  literal_step (L p t (x22 :: rest) w its d) = Ok (Return (L p (t ++ [x22]) rest 1 its d)).
Proof. unfold literal_step. by rewrite Next_L. Qed.

Lemma literal_step_char p t v rest w its d :
  v ≠ [] → lit_ok v = true →
  ∃ u y k, v = u ++ y ∧ u ≠ [] ∧ lit_ok y = true ∧
    literal_step (L p t (v ++ x22 :: rest) w its d) = Ok (Continue (L p (t ++ u) (y ++ x22 :: rest) k its d)).
Proof.
  intros Hne Hv. destruct v as [|b v]; [done|]. unfold literal_step.
  destruct (rune_bytes b (v ++ x22 :: rest) p t w its d (b :: v) x22 rest) as (r & u & y & k & Hy & Hu & Hasc & Hhigh & Hnext);
    [done|done|done|].
  rewrite <-app_comm_cons, Hnext. simpl mbind. cbv beta iota.
  destruct (decide (high b)) as [Hb|Hb].
  - destruct (Hhigh Hb) as [Hr Hhu]. unfold backslash, isEndLiteral, dquote, EOF.
    rewrite !(proj2 (Z.eqb_neq r _)) by lia. simpl. exists u, y, k. split_and!; [done|done| |done].
    apply (lit_ok_high u); [done|]. by rewrite <-Hy.
  - assert (ascii b) as Ha by (unfold high, ascii in *; lia). destruct (Hasc Ha) as [-> ->]. simplify_eq/=.
    case_bool_decide as Hbs; [subst b|].
    + destruct y as [|e y]; [done|]. rewrite (proj2 (Z.eqb_eq (byte_to_Z x5c) backslash)) by done.
      destruct (rune_bytes e (y ++ x22 :: rest) p (t ++ [x5c]) k its d (e :: y) x22 rest)
        as (r' & u & y' & k' & Hy & Hu' & Hasc' & Hhigh' & Hnext'); [done|done|done|].
      rewrite <-app_comm_cons, Hnext'. simpl. exists (x5c :: u), y', k'. rewrite Hy. split_and!; [done|done| |].
      * destruct u as [|e' u]; [done|]. simplify_eq/=. destruct (decide (high e')) as [He|He].
        -- destruct (Hhigh' He) as [_ Hhu]. apply Forall_cons in Hhu as [_ Hhu]. by apply (lit_ok_high u).
        -- destruct Hasc' as [_ [= ->]]; [unfold high, ascii in *; lia|done].
      * by rewrite <-app_assoc.
    + apply andb_true_iff in Hv as [Hend Hv]. apply negb_true_iff in Hend. rewrite Hend, orb_false_r.
      rewrite (proj2 (Z.eqb_neq _ backslash)).
      2:{ intros Heq. apply Hbs. apply (inj byte_to_Z). by rewrite Heq. }
      rewrite (proj2 (Z.eqb_neq _ EOF)) by (pose proof (byte_to_Z_range b); unfold EOF; lia).
      by exists [b], y, k.
Qed.

Lemma literal_loop_L p t v rest w its d :
  lit_ok v = true →
  literal_loop (L p t (v ++ x22 :: rest) w its d) = Ok (L p ((t ++ v) ++ [x22]) rest 1 its d).
Proof.
  intros Hv. unfold literal_loop.
  enough (∀ n fuel t v w, (length v ≤ n)%nat → (n < fuel)%nat → lit_ok v = true →
    for_loop fuel literal_step (L p t (v ++ x22 :: rest) w its d) = Ok (L p ((t ++ v) ++ [x22]) rest 1 its d)) as Hloop.
  { apply (Hloop (length v)); [done| |done]. unfold bound, L. simpl. rewrite !length_app. lia. }
  clear t v w Hv. induction n as [|n IH]; intros fuel t v w Hn Hf Hv; (destruct fuel as [|fuel]; [lia|]); cbn [for_loop].
  all: destruct v as [|b v]; [rewrite app_nil_l, literal_step_quote; simpl; by rewrite app_nil_r|].
  { simpl in Hn. lia. }
  destruct (literal_step_char p t (b :: v) rest w its d) as (u & y & k & Hy & Hu & Hly & ->); [done|done|]. simpl.
  rewrite Hy. rewrite IH; [by rewrite <-(app_assoc t u y)| |lia|done].
  apply (f_equal length) in Hy. rewrite length_app in Hy. destruct u; [done|]. simpl in *. lia.
Qed.

(** ** The state functions on a printed statement *)
Lemma lexText_steps n p rest w its d r :
  for_loop n text_step (L p [] rest w its d) = Ok r → (n ≤ S (length rest))%nat →
  lexText (L p [] rest w its d) = Ok r.
Proof.
  intros Hr Hn. unfold lexText, loop. eapply for_loop_mono; [exact Hr|]. unfold bound, L. simpl.
  rewrite !length_app. lia.
Qed.

Definition state_at (d : Z) : StateFn :=
  if d =? atSubject then SSubject else if d =? atPredicate then SPredicate
  else if d =? atObject then SObject else SLabel.

Lemma text_step_space p t rest w its d :
  text_step (L p t (x20 :: rest) w its d) = Ok (Continue (L p (t ++ [x20]) rest 1 its d)).
Proof. unfold text_step. by rewrite Next_L. Qed.

Lemma text_step_open p t b rest w its d :
  0 ≤ d ≤ 3 → b = x3c ∨ (b = x22 ∧ d = atObject) →
  text_step (L p t (b :: rest) w its d) =
    Ok (Return (Some (state_at d), L (p ++ t) [] (b :: rest) 1 (its ++ [mkItem itemText t]) d)).
Proof.
  intros Hd Hb. assert (d ∈ [0; 1; 2; 3]) as Hin by (set_unfold; lia). unfold text_step.
  destruct Hb as [->|[-> ->]]; rewrite Next_L by done; [|simpl; by rewrite Backup_L, Emit_L].
  set_unfold. destruct_or! Hin; subst d; simpl; by rewrite Backup_L, Emit_L.
Qed.

(** In front of a bracket or a quote, after at most one space. *)
Lemma lexText_open p t b rest w its d :
  t = [] ∨ t = [x20] → 0 ≤ d ≤ 3 → b = x3c ∨ (b = x22 ∧ d = atObject) →
  lexText (L p [] (t ++ b :: rest) w its d) =
    Ok (Some (state_at d), L (p ++ t) [] (b :: rest) 1 (its ++ [mkItem itemText t]) d).
Proof.
  intros Ht Hd Hb. apply (lexText_steps 2); [|rewrite length_app; simpl; lia].
  destruct Ht as [->| ->]; simpl app at 1; cbn [for_loop].
  - rewrite text_step_open by done. done.
  - rewrite text_step_space. simpl. rewrite text_step_open by done. done.
Qed.

(** The end of a statement: spaces and the dot; what follows is not read. *)
Definition ending (k : nat) : list byte := replicate (S k) x20 ++ [x2e].

Lemma lexText_end k p tail w its d :
  2 < d →
  ∃ p', lexText (L p [] (ending k ++ tail) w its d) =
    Ok (None, L p' [] tail 1 (its ++ [mkItem itemValidEnd (ending k); mkItem ItemEOF []]) d).
Proof.
  intros Hd. exists (p ++ ending k).
  assert (∀ n t w, for_loop (S n) text_step (L p t (replicate n x20 ++ x2e :: tail) w its d) =
    Ok (None, L (p ++ t ++ replicate n x20 ++ [x2e]) [] tail 1
      (its ++ [mkItem itemValidEnd (t ++ replicate n x20 ++ [x2e]); mkItem ItemEOF []]) d)) as Hloop.
  { intros n. induction n as [|n IH]; intros t w'.
    - cbn [for_loop replicate]. unfold text_step. rewrite app_nil_l, Next_L by done. simpl.
      unfold lexEnd, atObject. rewrite (proj2 (Z.ltb_lt 2 d)) by done. rewrite Emit_L. simpl.
      rewrite (proj2 (Z.ltb_ge _ _)) by (rewrite app_nil_r; lia). simpl.
      rewrite Emit_L. simpl. by rewrite app_nil_r, <-(app_assoc its).
    - cbn [replicate]. rewrite <-app_comm_cons. cbn [for_loop]. rewrite text_step_space. cbn [mbind res_bind].
      specialize (IH (t ++ [x20]) 1). cbn [for_loop] in IH. rewrite IH. by rewrite <-!app_assoc. }
  apply (lexText_steps (S (S k))); [|unfold ending; rewrite !length_app, length_replicate; lia].
  unfold ending. rewrite <-app_assoc. simpl app at 3. apply (Hloop (S k) [] w).
Qed.

Definition no_bracket (v : list byte) : Prop := x3e ∉ v.

Lemma lexUntilClosing_L ty p t v rest w its d :
  no_bracket v →
  lexUntilClosing ty SText (L p t (v ++ x3e :: rest) w its d) =
    Ok (Some SText, L (p ++ t ++ v ++ [x3e]) [] rest 1 (its ++ [mkItem ty (t ++ v ++ [x3e])]) d).
Proof.
  intros Hv. unfold lexUntilClosing. rewrite AcceptUntil_L; [|..].
  - simpl. rewrite Next_L by done. simpl. rewrite Emit_L. simpl. by rewrite <-!app_assoc.
  - intros r Hr. unfold isClosingBracket, greater. lia.
  - apply Forall_forall. intros x Hx. unfold isClosingBracket, greater. apply Z.eqb_neq. intros Heq.
    apply Hv. replace x3e with x; [done|]. by apply (inj byte_to_Z).
  - done.
  - done.
Qed.

(** Brackets around a subject, predicate, object or label. *)
Definition iri (v : list byte) : list byte := x3c :: v ++ [x3e].

Definition kind_at (d : Z) : Z :=
  if d =? atSubject then itemSubject else if d =? atPredicate then itemPredicate
  else if d =? atObject then itemObject else itemLabel.

Lemma exec_iri p v rest w its d :
  0 ≤ d ≤ 3 → no_bracket v →
  exec (state_at d) (L p [] (iri v ++ rest) w its d) =
    Ok (Some SText, L (p ++ iri v) [] rest 1 (its ++ [mkItem (kind_at d) (iri v)]) (d + 1)).
Proof.
  intros Hd Hv. assert (d ∈ [0; 1; 2; 3]) as Hin by (set_unfold; lia).
  unfold iri. rewrite <-app_comm_cons, <-app_assoc. simpl app.
  set_unfold. destruct_or! Hin; subst d; simpl; unfold lexSubject, lexPredicate, lexObject, lexLabel;
    rewrite Next_L by done; simpl; rewrite add_Depth_L, lexUntilClosing_L by done; done.
Qed.

(** ** Statements *)
Inductive object : Type :=
| OIri (o : list byte)
| OLit (v : list byte)
| OLang (v lang : list byte)
| OTyped (v ty : list byte).

Record stmt : Type := mkStmt {
  subject : list byte;
  predicate : list byte;
  obj : object;
  label : option (list byte);
}.

Definition quoted (v : list byte) : list byte := x22 :: v ++ [x22].

Definition print_object (o : object) : list byte :=
  match o with
  | OIri o => iri o
  | OLit v => quoted v
  | OLang v lang => quoted v ++ x40 :: lang
  | OTyped v ty => quoted v ++ x5e :: x5e :: iri ty
  end.

(** [<subject> <predicate> object .], with the label before the dot, [k] more
    spaces there and [tail] after it. *)
Definition print (k : nat) (tail : list byte) (s : stmt) : list byte :=
  iri (subject s) ++ x20 :: iri (predicate s) ++ x20 :: print_object (obj s) ++
  (match label s with Some g => x20 :: iri g | None => [] end) ++ ending k ++ tail.

Definition lang_ok (lang : list byte) : Prop :=
  match lang with
  | [] => False
  | b :: t => isLangTagPrefix (byte_to_Z b) = true ∧ Forall (λ x, isLangTag (byte_to_Z x) = true) t
  end.

Definition object_ok (o : object) : Prop :=
  match o with
  | OIri o => no_bracket o
  | OLit v => lit_ok v = true
  | OLang v lang => lit_ok v = true ∧ lang_ok lang
  | OTyped v ty => lit_ok v = true ∧ no_bracket ty
  end.

Definition object_items (o : object) : list item :=
  match o with
  | OIri o => [mkItem itemObject (iri o)]
  | OLit v => [mkItem itemLiteral v]
  | OLang v lang => [mkItem itemLiteral v; mkItem itemLanguage lang]
  | OTyped v ty => [mkItem itemLiteral v; mkItem itemObjectType (iri ty)]
  end.

Lemma isLangTag_ascii b : isLangTag (byte_to_Z b) = true → ascii b.
Proof. unfold isLangTag, isLangTagPrefix, ascii. repeat case_match; lia. Qed.

Lemma isLangTagPrefix_ascii b : isLangTagPrefix (byte_to_Z b) = true → ascii b.
Proof. unfold isLangTagPrefix, ascii. repeat case_match; lia. Qed.

Lemma lexLanguage_L p lang rest w its d :
  lang_ok lang →
  lexLanguage (L p [] (x40 :: lang ++ x20 :: rest) w its d) =
    Ok (Some SText, L (p ++ x40 :: lang) [] (x20 :: rest) 1 (its ++ [mkItem itemLanguage lang]) d).
Proof.
  destruct lang as [|b lang]; [done|]. intros [Hb Hlang]. unfold lexLanguage.
  rewrite Next_L by done. simpl. rewrite Ignore_L. rewrite Next_L by by apply isLangTagPrefix_ascii. simpl.
  rewrite Hb. simpl. rewrite AcceptRun_L; [|..].
  - simpl. rewrite Emit_L. simpl. by rewrite <-app_assoc.
  - eapply Forall_impl; [exact Hlang|]. intros x Hx. split; [by apply isLangTag_ascii|done].
  - done.
  - done.
Qed.

Lemma lexObjectType_L p ty rest w its d :
  no_bracket ty →
  lexObjectType (L p [] (x5e :: x5e :: iri ty ++ rest) w its d) =
    Ok (Some SText, L (p ++ x5e :: x5e :: iri ty) [] rest 1 (its ++ [mkItem itemObjectType (iri ty)]) d).
Proof.
  intros Hty. unfold lexObjectType. rewrite Next_L by done. simpl. rewrite Next_L by done. simpl.
  rewrite Ignore_L. unfold iri. rewrite Next_L by done. simpl. rewrite <-app_assoc. simpl app.
  rewrite lexUntilClosing_L by done. simpl. by rewrite <-app_assoc.
Qed.

(** A literal, up to what follows its closing quote. *)
Lemma lexObject_quote p v b rest w its :
  lit_ok v = true → ascii b →
  lexObject (L p [] (quoted v ++ b :: rest) w its 2) =
    let l := L (p ++ quoted v) [] (b :: rest) 1 (its ++ [mkItem itemLiteral v]) 3 in
    if byte_to_Z b =? at_sign then lexLanguage l
    else if byte_to_Z b =? caret then lexObjectType l
    else Ok (Some SText, l).
Proof.
  intros Hv Hb. unfold quoted. rewrite <-app_comm_cons, <-app_assoc. simpl app. unfold lexObject.
  rewrite Next_L by done. simpl. rewrite Ignore_L. unfold lexLiteral. rewrite literal_loop_L by done.
  simpl. rewrite Backup_L, Emit_L. simpl. rewrite Next_L by done. simpl. rewrite Ignore_L, add_Depth_L, Peek_L by done.
  simpl. repeat f_equal; by rewrite <-!app_assoc.
Qed.

Lemma exec_object p o rest w its :
  object_ok o →
  exec SObject (L p [] (print_object o ++ x20 :: rest) w its 2) =
    Ok (Some SText, L (p ++ print_object o) [] (x20 :: rest) 1 (its ++ object_items o) 3).
Proof.
  destruct o as [o|v|v lang|v ty]; cbn [print_object object_items exec object_ok]; intros Ho.
  - by apply (exec_iri _ _ _ _ _ 2).
  - by rewrite lexObject_quote.
  - destruct Ho as [Hv Hl]. rewrite <-app_assoc, <-app_comm_cons. rewrite lexObject_quote by done. cbv zeta.
    rewrite (proj2 (Z.eqb_eq (byte_to_Z x40) at_sign)) by done.
    rewrite lexLanguage_L by done. by rewrite <-!app_assoc.
  - destruct Ho as [Hv Ht]. rewrite <-app_assoc, <-!app_comm_cons. rewrite lexObject_quote by done. cbv zeta.
    rewrite (proj2 (Z.eqb_neq (byte_to_Z x5e) at_sign)) by done.
    rewrite (proj2 (Z.eqb_eq (byte_to_Z x5e) caret)) by done.
    rewrite lexObjectType_L by done. by rewrite <-!app_assoc.
Qed.

(** The items of a printed statement. *)
Definition gap : item := mkItem itemText [x20].

Definition stmt_items (k : nat) (s : stmt) : list item :=
  [mkItem itemText []; mkItem itemSubject (iri (subject s)); gap; mkItem itemPredicate (iri (predicate s)); gap] ++
  object_items (obj s) ++
  match label s with Some g => [gap; mkItem itemLabel (iri g)] | None => [] end ++
  [mkItem itemValidEnd (ending k); mkItem ItemEOF []].

Definition stmt_ok (s : stmt) : Prop :=
  no_bracket (subject s) ∧ no_bracket (predicate s) ∧ object_ok (obj s) ∧
  match label s with Some g => no_bracket g | None => True end.

(** [n] turns of the run loop end it, with these items sent. *)
Definition runs (n : nat) (s : StateFn) (l : Lexer) (its : list item) : Prop :=
  ∃ l', run_loop n exec s l = Ok l' ∧ Items l' = its.

Lemma runs_eq n s l its its' : runs n s l its → its = its' → runs n s l its'.
Proof. by intros ? <-. Qed.

(** Two turns: the text before a part, and the part. *)
Lemma run_part n p t b rest w its d s' l' r :
  t = [] ∨ t = [x20] → 0 ≤ d ≤ 3 → b = x3c ∨ (b = x22 ∧ d = atObject) →
  exec (state_at d) (L (p ++ t) [] (b :: rest) 1 (its ++ [mkItem itemText t]) d) = Ok (Some s', l') →
  runs n s' l' r → runs (S (S n)) SText (L p [] (t ++ b :: rest) w its d) r.
Proof.
  intros Ht Hd Hb Hexec (l1 & Hr & Hits). exists l1. split; [|done]. cbn [run_loop]. change (exec SText) with lexText.
  rewrite lexText_open by done. simpl mbind. cbv beta iota. by rewrite Hexec.
Qed.

Lemma run_iri n p t v rest w its d r :
  t = [] ∨ t = [x20] → 0 ≤ d ≤ 3 → no_bracket v →
  (∀ p, runs n SText (L p [] rest 1 (its ++ [mkItem itemText t; mkItem (kind_at d) (iri v)]) (d + 1)) r) →
  runs (S (S n)) SText (L p [] (t ++ iri v ++ rest) w its d) r.
Proof.
  intros Ht Hd Hv Hr. eapply (run_part n p t x3c); [done|done|by left|by apply (exec_iri _ v)|].
  rewrite <-(app_assoc its). apply Hr.
Qed.

Lemma run_object n p o rest w its r :
  object_ok o →
  (∀ p, runs n SText (L p [] (x20 :: rest) 1 (its ++ gap :: object_items o) 3) r) →
  runs (S (S n)) SText (L p [] ([x20] ++ print_object o ++ x20 :: rest) w its 2) r.
Proof.
  intros Ho Hr. pose proof (exec_object (p ++ [x20]) o rest 1 (its ++ [gap]) Ho) as He.
  assert (∃ b u, print_object o = b :: u ∧ (b = x3c ∨ b = x22)) as (b & u & Hp & Hb) by (destruct o; simpl; eauto).
  rewrite Hp in *. rewrite <-app_comm_cons in *.
  eapply (run_part n p [x20] b); [by right|done|naive_solver|exact He|]. rewrite <-(app_assoc its). apply Hr.
Qed.

Lemma run_end k p tail w its d :
  2 < d → runs 1 SText (L p [] (ending k ++ tail) w its d) (its ++ [mkItem itemValidEnd (ending k); mkItem ItemEOF []]).
Proof.
  intros Hd. destruct (lexText_end k p tail w its d Hd) as [p' He].
  eexists. cbn [run_loop]. change (exec SText) with lexText. rewrite He. done.
Qed.

Lemma run_print k tail s : stmt_ok s → run (print k tail s) = Ok (stmt_items k s).
Proof.
  intros (Hs & Hp & Ho & Hg). unfold run, run_lexer.
  assert (runs 9 SText (L [] [] (print k tail s) 0 [] 0) (stmt_items k s)) as (l & Hrun & Hits).
  { destruct s as [sub pred o g]. unfold print, stmt_items. simpl subject in *; simpl predicate in *; simpl obj in *; simpl label in *.
    set (lab := match g with Some g => x20 :: iri g | None => [] end).
    assert (∃ rest, lab ++ ending k ++ tail = x20 :: rest) as [rest Hrest] by (unfold lab; destruct g; simpl; eauto).
    assert (∀ n its, (∀ p, runs n SText (L p [] (lab ++ ending k ++ tail) 1
        ([mkItem itemText []; mkItem itemSubject (iri sub); gap; mkItem itemPredicate (iri pred)] ++ gap :: object_items o) 3) its) →
      runs (S (S (S (S (S (S n)))))) SText (L [] [] (iri sub ++ x20 :: iri pred ++ x20 :: print_object o ++
        lab ++ ending k ++ tail) 0 [] 0) its) as Hobj.
    { intros n its Hn. apply (run_iri _ [] []); [by left|done|done|]. intros p1.
      apply (run_iri _ p1 [x20]); [by right|done|done|]. intros p2.
      rewrite Hrest in *. apply (run_object n); [done|exact Hn]. }
    destruct g as [g|]; unfold lab in *.
    - apply (Hobj 3%nat). intros p3. apply (run_iri 1 p3 [x20]); [by right|done|done|]. intros p4.
      eapply runs_eq; [apply run_end; lia|]. simpl. by rewrite <-!app_assoc.
    - destruct (Hobj 1%nat _ (λ p, run_end k p tail 1 _ 3 ltac:(lia))) as (l & Hl & Hits).
      exists l. split; [by eapply run_loop_mono; [exact Hl|lia]|]. by rewrite Hits. }
  change (Init (print k tail s)) with (L [] [] (print k tail s) 0 [] 0).
  rewrite (run_loop_mono 9 _ exec SText _ l Hrun); [simpl; by rewrite Hits|].
  unfold print, iri. simpl. rewrite !length_app. simpl. lia.
Qed.

(** ** The parser on the items *)
Lemma strip_iri v : stripBracketsAndTrim (iri v) = Ok (Trim v).
Proof.
  unfold stripBracketsAndTrim, iri, index.
  replace (length _ - 1)%nat with (length (x3c :: v)) by (simpl; rewrite length_app; simpl; lia).
  change (x3c :: v ++ [x3e]) with ((x3c :: v) ++ [x3e]). rewrite list_lookup_middle by done. simpl.
  rewrite slice_ok by (simpl; rewrite length_app; simpl; lia). simpl. rewrite length_app. simpl.
  replace (Z.to_nat _ - 1)%nat with (length v) by lia. by rewrite drop_0, take_app_length.
Qed.

#[local] Arguments stripBracketsAndTrim : simpl never.
#[local] Arguments iri : simpl never.

(** Trimming twice is trimming. *)
Lemma TrimLeft_head s : head (TrimLeft s) ≠ Some x20.
Proof. induction s as [|b s IH]; [done|]. destruct b; try done. Qed.

Lemma TrimLeft_id s : head s ≠ Some x20 → TrimLeft s = s.
Proof. destruct s as [|b s]; [done|]. by destruct b. Qed.

Lemma TrimLeft_suffix s : ∃ k, s = replicate k x20 ++ TrimLeft s.
Proof.
  induction s as [|b s [k IH]]; [by exists 0%nat|]. destruct (decide (b = x20)) as [->|Hb].
  - exists (S k). simpl. by f_equal.
  - exists 0%nat. symmetry. apply (TrimLeft_id (b :: s)). simpl. congruence.
Qed.

Lemma Trim_idem s : Trim (Trim s) = Trim s.
Proof.
  unfold Trim. set (u := TrimLeft s). assert (head u ≠ Some x20) as Hu by apply TrimLeft_head.
  destruct (TrimLeft_suffix (rev u)) as [k Hk].
  assert (head (rev (TrimLeft (rev u))) ≠ Some x20) as Hh.
  { apply (f_equal (@rev _)) in Hk. rewrite rev_involutive, rev_app_distr in Hk.
    destruct (rev (TrimLeft (rev u))); [done|]. rewrite Hk in Hu. done. }
  rewrite (TrimLeft_id _ Hh), rev_involutive, (TrimLeft_id (TrimLeft (rev u))); [done|apply TrimLeft_head].
Qed.
Section parser.
Context `{types.ValueLib, RdfLib}.

(** What an object stands for: a suffix of the predicate, an id, a value and
    its type. *)
Definition denote_object (o : object) : option (list byte * list byte * option (list byte) * Z) :=
  match o with
  | OIri o => Some ([], Trim o, None, 0)
  | OLit [] | OLang [] _ | OTyped [] _ => None
  | OLit v => Some ([], [], Some (requote v), 0)
  | OLang v lang => Some (bs "." ++ lang, [], Some (requote v), 0)
  | OTyped v ty =>
      if bool_decide (Trim ty = bs "*") then None
      else match typeMap !! Trim ty with
           | Some t =>
               match types.UnmarshalText t (requote v) ≫= types.MarshalBinary with
               | Ok b => Some ([], [], Some b, t)
               | _ => None
               end
           | None => Some ([], [], Some (requote v ++ bs "@@" ++ Trim ty), 0)
           end
  end.

Definition denote (s : stmt) : option NQuad :=
  r ← denote_object (obj s);
  let '(suffix, oid, val, t) := (r : list byte * list byte * option (list byte) * Z) in
  let sub := Trim (subject s) in
  let pred := Trim (predicate s) ++ suffix in
  let lab := default [] (Trim <$> label s) in
  if bool_decide (sub = []) || bool_decide (pred = []) || (bool_decide (oid = []) && bool_decide (val = None)) then None
  else if sane sub && sane pred && sane oid && sane lab then Some (mkNQuad sub pred oid val t lab) else None.


(** One item. *)
Lemma parse_item_iri d v st :
  0 ≤ d ≤ 3 →
  parse_item (mkItem (kind_at d) (iri v)) st =
    Ok (mkP (if d =? atSubject then set_Subject (Trim v) (rnq st)
             else if d =? atPredicate then set_Predicate (Trim v) (rnq st)
             else if d =? atObject then set_ObjectId (Trim v) (rnq st)
             else set_Label (Trim v) (rnq st)) (oval st) (vend st)).
Proof.
  intros Hd. assert (d ∈ [0; 1; 2; 3]) as Hin by (set_unfold; lia).
  set_unfold. destruct_or! Hin; subst d; unfold parse_item; simpl; by rewrite strip_iri.
Qed.

Lemma parse_item_type ty st :
  parse_item (mkItem itemObjectType (iri ty)) st =
    if (length (oval st) =? 0)%nat then Crash "itemObject should be emitted before itemObjectType. Input: [%s]"
    else if bool_decide (Trim ty = bs "*") then Err "itemObject can't be *"
    else match typeMap !! Trim ty with
         | Some t =>
             p ← types.UnmarshalText t (oval st);
             v ← types.MarshalBinary p;
             Ok (mkP (set_Object v t (rnq st)) [] (vend st))
         | None => Ok (mkP (rnq st) (oval st ++ bs "@@" ++ Trim ty) (vend st))
         end.
Proof. unfold parse_item. simpl. unfold objectType. case_match; [done|]. rewrite strip_iri. simpl. by rewrite Trim_idem. Qed.

Lemma parse_items_app i1 i2 st : parse_items (i1 ++ i2) st = (st ← parse_items i1 st; parse_items i2 st).
Proof. revert st. induction i1 as [|i i1 IH]; intros st; simpl; [done|]. destruct (parse_item i st); simpl; auto. Qed.

(** The parser's state after the object's items. *)
Lemma parse_object o q :
  ObjectValue q = None → ObjectId q = [] → ObjectType q = 0 →
  match parse_items (object_items o) (mkP q [] false) with
  | Ok st =>
      vend st = false ∧
      let q' := if (0 <? length (oval st))%nat then set_Object (oval st) 0 (rnq st) else rnq st in
      match denote_object o with
      | Some (suffix, oid, val, t) => q' = mkNQuad (Subject q) (Predicate q ++ suffix) oid val t (Label q)
      | None => ObjectId q' = [] ∧ ObjectValue q' = None
      end
  | _ => denote_object o = None
  end.
Proof.
  intros Hv Hi Ht. destruct q as [sub pred oid val t lab]. simpl in *. subst.
  destruct o as [o|v|v lang|v ty]; cbn [object_items parse_items].
  - rewrite (parse_item_iri 2) by done. simpl. by rewrite app_nil_r.
  - destruct v; simpl; [done|]. by rewrite app_nil_r.
  - by destruct v.
  - change (parse_item (mkItem itemLiteral v) ?st) with (Ok (mkP (rnq st) (requote v) (vend st))). cbn [mbind res_bind].
    rewrite parse_item_type. simpl. destruct v as [|b v]; [done|]. simpl.
    case_bool_decide as Hst; [done|]. destruct (typeMap !! Trim ty) as [t|]; simpl.
    + destruct (types.UnmarshalText t _) as [p| |]; simpl; [|done..].
      destruct (types.MarshalBinary p); simpl; [|done..]. by rewrite app_nil_r.
    + by rewrite app_nil_r.
Qed.

Lemma parse_stmt k s :
  parse_items (stmt_items k s) (mkP emptyNQuad [] false) =
    (st ← parse_items (object_items (obj s)) (mkP (mkNQuad (Trim (subject s)) (Trim (predicate s)) [] None 0 []) [] false);
     Ok (mkP (match label s with Some g => set_Label (Trim g) (rnq st) | None => rnq st end) (oval st) true)).
Proof.
  unfold stmt_items. rewrite parse_items_app.
  change (parse_items (_ :: _) ?st0) with (st ← parse_item (mkItem itemSubject (iri (subject s))) st0;
    st ← parse_item (mkItem itemPredicate (iri (predicate s))) st; Ok st) at 1.
  rewrite (parse_item_iri 0) by done. cbn [mbind res_bind].
  rewrite (parse_item_iri 1) by done. cbn [mbind res_bind].
  match goal with |- context [parse_items _ (mkP (if 1 =? _ then _ else _) ?a ?b)] =>
    change (mkP (if 1 =? _ then _ else _) a b)
      with (mkP (mkNQuad (Trim (subject s)) (Trim (predicate s)) [] None 0 []) [] false) end.
  rewrite parse_items_app. destruct (parse_items (object_items (obj s)) _) as [st| |]; [|done..]. cbn [mbind res_bind].
  destruct (label s) as [g|]; [|done]. rewrite parse_items_app.
  change (parse_items [gap; _] ?st0) with (st ← parse_item (mkItem itemLabel (iri g)) st0; Ok st).
  by rewrite (parse_item_iri 3).
Qed.

Lemma finish_denote st :
  vend st = true →
  let q := if (0 <? length (oval st))%nat then set_Object (oval st) 0 (rnq st) else rnq st in
  ∀ q', finish st = Ok q' ↔
    (if bool_decide (Subject q = []) || bool_decide (Predicate q = []) || (bool_decide (ObjectId q = []) && bool_decide (ObjectValue q = None))
     then None
     else if sane (Subject q) && sane (Predicate q) && sane (ObjectId q) && sane (Label q) then Some q else None) = Some q'.
Proof.
  intros Hv q q'. unfold finish. rewrite Hv. simpl negb. cbv iota. fold q. clearbody q.
  assert (∀ l : list byte, (length l =? 0)%nat = bool_decide (l = [])) as Hlen by (by intros []).
  rewrite !Hlen. destruct (bool_decide (Subject q = [])), (bool_decide (Predicate q = [])); simpl; try done.
  destruct (_ && _); [done|].
  destruct (sane (Subject q)), (sane (Predicate q)), (sane (ObjectId q)), (sane (Label q)); simpl; try done.
  split; congruence.
Qed.

Lemma Parse_print_spec k tail s q : stmt_ok s → Parse (print k tail s) = Ok q ↔ denote s = Some q.
Proof.
  intros Hs. unfold Parse. rewrite run_print by done. cbn [mbind res_bind]. rewrite parse_stmt. unfold denote.
  pose proof (parse_object (obj s) (mkNQuad (Trim (subject s)) (Trim (predicate s)) [] None 0 []) eq_refl eq_refl eq_refl) as Ho.
  destruct (parse_items (object_items (obj s)) _) as [st| |]; cbn [mbind res_bind]; [|rewrite Ho; done..].
  destruct Ho as [_ Ho]. rewrite finish_denote by done. cbn [rnq oval].
  set (relabel q := match label s with Some g => set_Label (Trim g) q | None => q end).
  change (match label s with Some g => set_Label (Trim g) (rnq st) | None => rnq st end) with (relabel (rnq st)).
  replace (if (0 <? length (oval st))%nat then set_Object (oval st) 0 (relabel (rnq st)) else relabel (rnq st))
    with (relabel (if (0 <? length (oval st))%nat then set_Object (oval st) 0 (rnq st) else rnq st))
    by (unfold relabel; by destruct (label s), (0 <? length (oval st))%nat).
  destruct (denote_object (obj s)) as [[[[suffix oid] val] t]|].
  - cbv zeta in Ho. rewrite Ho. unfold relabel. by destruct (label s).
  - destruct Ho as [Hi Hv]. revert Hi Hv. generalize (if (0 <? length (oval st))%nat then set_Object (oval st) 0 (rnq st) else rnq st).
    intros q' Hi Hv. unfold relabel. destruct (label s); simpl; rewrite Hi, Hv; simpl;
      rewrite orb_true_r; done.
Qed.

(** C34: Lexing and parsing a printed statement gives what it denotes: the ids
    without brackets and outer spaces, the language as a suffix of the
    predicate, the value in the binary form of its type; and exactly the
    statements that denote something are accepted. Ids may be any bytes without
    a closing bracket, literals any bytes with quotes and newlines escaped, and
    anything may follow the dot. *)
Theorem Parse_print k tail s q : stmt_ok s → Parse (print k tail s) = Ok q ↔ denote s = Some q.
Proof. apply Parse_print_spec. Qed.
End parser.

(** A typed literal in a labelled statement. *)
Definition example : stmt :=
  mkStmt (bs "alice") (bs "age") (OTyped (bs "-7") (bs "xs:int")) (Some (bs "facts")).

Definition hash0 : RdfLib := {| Fingerprint64 := λ _, 0; unicode_alnum := λ _, false |}.

Lemma Parse_print_witness :
  stmt_ok example ∧
  Parse (H := types.lib 0) (H0 := hash0) (print 0 [] example) =
    Ok (mkNQuad (bs "alice") (bs "age") [] (Some [xf9; xff; xff; xff]) types.Int32ID (bs "facts")).
Proof.
  assert (stmt_ok example) as Hok.
  { repeat split; try (apply (bool_decide_unpack _); vm_compute; exact Logic.I); vm_compute; reflexivity. }
  split; [exact Hok|]. apply (proj2 (Parse_print (H := types.lib 0) (H0 := hash0) 0 [] example _ Hok)).
  vm_compute. reflexivity.
Defined.
End rdf_print.
