(* ===== verification/Backup.v ===== *)
(** Export of a group as N-Quads ([worker/backup.go]).

    [toRDF] prints a posting list; [backup] walks the store and selects the
    lists to print. The goroutines between the two and the file are not part of
    the model, nor is the network protocol around them. *)
From S2P Require Import Prelude Bytes Store Keys PostingPb Strconv Civil Types Task Lex Rdf RdfPrint.
From stdpp Require Import options.
#[local] Open Scope Z_scope.
#[local] Set Default Proof Using "Type*".

Module backup.
Import strconv posting_key.

(** ** Printing *)
Definition newline : byte := x0a.

(** [fmt.Sprintf("<_uid_:%x> <%s> ", uid, pred)]. *)
Definition line_prefix (uid : Z) (pred : list byte) : list byte :=
  bs "<_uid_:" ++ FormatUint16 uid ++ bs "> <" ++ pred ++ bs "> ".

Section print.
Context `{types.ValueLib} (print_table : Z → bool).

(** A value posting, with its type unless that is the default. *)
Definition value_text (p : Posting) : res (list byte) :=
  v ← x_Check (types.UnmarshalBinary (ValType p mod 256) (Value p));
  str ← x_Check (types.MarshalText v);
  Ok (Quote print_table str
      ++ (if negb (ValType p =? 0) then bs "^^<xs:" ++ types.Name (types.Type_ v) ++ bs "> " else [])
      ++ bs " ." ++ [newline]).

Definition uid_text (p : Posting) : list byte := bs "<_uid_:" ++ FormatUint16 (Uid p) ++ bs "> ." ++ [newline].

(** The loop over the postings; a value posting is the last one printed. *)
Fixpoint print_postings (pre : list byte) (ps : list Posting) (buf : list byte) : res (list byte) :=
  match ps with
  | [] => Ok buf
  | p :: ps =>
      let buf := buf ++ pre in
      if (Uid p =? MaxUint64) && negb (bool_decide (Value p = [])) then
        t ← value_text p; Ok (buf ++ t)
      else print_postings pre ps (buf ++ uid_text p)
  end.

Definition toRDF (buf : list byte) (item : list byte * list byte) : res (list byte) :=
  pl ← x_Check (postinglist_pb.Unmarshal item.2 (mkPostingList [] [] 0));
  print_postings item.1 (Postings pl) buf.
End print.

(** ** Walking the store *)
Inductive action : Type :=
| Seek (k : list byte)
| Send (uid : Z) (pred : list byte).

Definition tilde : byte := x7e.
Definition uidPrefix : list byte := bs "_uid_".

Section walk.
Context {St : Type} `{KVStore St} (BelongsTo : list byte → Z).

(** What the loop does at a key. *)
Definition visit (gid : Z) (lastPred key : list byte) : res action :=
  let cidx := IndexByte x3a key in
  if -1 <? cidx then Ok (Seek (take (Z.to_nat cidx + 1) key ++ [tilde]))
  else if HasPrefix key uidPrefix then Ok (Seek (uidPrefix ++ [tilde]))
  else
    ' (pred, uid) ← SplitKey key;
    if negb (bool_decide (pred = lastPred)) && negb (BelongsTo pred =? gid) then Ok (Seek (pred ++ [tilde]))
    else Ok (Send uid pred).

(** The iterator is what it has not yet passed; the result is what is sent to
    the printing goroutines. *)
Fixpoint backup_loop (fuel : nat) (s : St) (gid : Z) (it : list (list byte * list byte)) (lastPred : list byte) :
    res (list (list byte * list byte)) :=
  match fuel with
  | O => Crash out_of_fuel
  | S fuel =>
      match it with
      | [] => Ok []
      | (key, value) :: it' =>
          a ← visit gid lastPred key;
          match a with
          | Seek k => backup_loop fuel s gid (kv_scan s k) lastPred
          | Send uid pred =>
              rest ← backup_loop fuel s gid it' pred;
              Ok ((line_prefix uid pred, value) :: rest)
          end
      end
  end.
End walk.

(** ** Keys the walk handles *)
(** A data key whose predicate sorts below ['|'] and has no colon, and whose uid
    has neither of the two bytes. *)
Definition data_ok (uid : Z) (pred : list byte) : Prop :=
  is_u64 uid ∧ pred ≠ [] ∧ Forall (λ b, byte_to_Z b < 0x7c ∧ b ≠ x3a) pred ∧ HasPrefix pred uidPrefix = false ∧
  x3a ∉ PutUint64_BE uid ∧ pipe ∉ PutUint64_BE uid.

Definition below_tilde (t : list byte) : Prop := bytes_lt t [tilde].

Definition index_ok (k : list byte) : Prop :=
  ∃ attr term, k = attr ++ x3a :: term ∧ x3a ∉ attr ∧ below_tilde term.
Definition uid_ok (k : list byte) : Prop :=
  ∃ rest, k = uidPrefix ++ rest ∧ x3a ∉ k ∧ below_tilde rest.
Definition data_key (k : list byte) (uid : Z) (pred : list byte) : Prop :=
  data_ok uid pred ∧ k = Key uid pred.

Definition clean (k : list byte) : Prop := index_ok k ∨ uid_ok k ∨ ∃ uid pred, data_key k uid pred.

Lemma IndexByte_found c s : c ∈ s → -1 < IndexByte c s.
Proof.
  induction s as [|b s IH]; intros Hc; [by apply elem_of_nil in Hc|]. simpl. case_decide; [lia|].
  apply elem_of_cons in Hc as [->|Hc]; [done|]. specialize (IH Hc). case_match; lia.
Qed.

Lemma pred_ascii pred : Forall (λ b, byte_to_Z b < 0x7c ∧ b ≠ x3a) pred → is_ascii pred ∧ pipe ∉ pred ∧ x3a ∉ pred.
Proof.
  intros Hp. rewrite Forall_forall in Hp. split_and!.
  - apply Forall_forall. intros b Hb. destruct (Hp b Hb). lia.
  - intros Hb. destruct (Hp _ Hb) as [Hlt _]. vm_compute in Hlt. done.
  - intros Hb. by destruct (Hp _ Hb).
Qed.

Lemma data_key_app k uid pred : data_key k uid pred → k = pred ++ pipe :: PutUint64_BE uid.
Proof. intros [(_ & _ & Hp & _) ->]. apply Key_ascii. by apply pred_ascii. Qed.

Lemma data_key_no_colon k uid pred : data_key k uid pred → x3a ∉ k.
Proof.
  intros Hk. rewrite (data_key_app _ _ _ Hk). destruct Hk as [(_ & _ & Hp & _ & Hc & _) _].
  apply pred_ascii in Hp as (_ & _ & Hp). rewrite elem_of_app, elem_of_cons. by intros [?|[?|?]].
Qed.

Lemma prefix_pipe p pred t : pipe ∉ p → HasPrefix (pred ++ pipe :: t) p = true → HasPrefix pred p = true.
Proof.
  revert pred. induction p as [|x p IH]; intros pred Hp; [done|]. destruct pred as [|b pred]; simpl.
  - rewrite andb_true_iff, bool_decide_eq_true. intros [Heq _]. destruct Hp. rewrite <-Heq. apply list_elem_of_here.
  - rewrite !andb_true_iff. intros [Hb H]. split; [done|]. apply IH; [set_solver|done].
Qed.

Lemma data_key_not_uid k uid pred : data_key k uid pred → HasPrefix k uidPrefix = false.
Proof.
  intros Hk. destruct (HasPrefix k uidPrefix) eqn:He; [|done]. rewrite (data_key_app _ _ _ Hk) in He.
  apply prefix_pipe in He; [|by apply (bool_decide_unpack _)]. destruct Hk as [(_ & _ & _ & Hu & _) _]. congruence.
Qed.

Lemma SplitKey_data k uid pred : data_key k uid pred → SplitKey k = Ok (pred, uid).
Proof.
  intros Hk. rewrite (data_key_app _ _ _ Hk). destruct Hk as [(Hu & _ & Hp & _ & _ & Hpipe) _].
  rewrite SplitKey_app by (by apply pred_ascii). rewrite decide_False by done.
  rewrite <-(app_nil_r (PutUint64_BE uid)), Uint64_PutUint64 by done. done.
Qed.

#[local] Arguments HasPrefix : simpl never.

(** ** The walk *)
Lemma lt_prefix p a b : bytes_lt a b → bytes_lt (p ++ a) (p ++ b).
Proof. unfold bytes_lt. by rewrite bytes_compare_app. Qed.

(** What lies between a key with a prefix and that prefix and a tilde. *)
Lemma skipped_prefix p t k :
  bytes_le (p ++ t) k → bytes_lt k (p ++ [tilde]) → HasPrefix k p = true.
Proof.
  intros Hle Hlt. apply (prefix_convex p (p ++ t) k (p ++ [tilde])); [apply HasPrefix_spec; eauto..|done|].
  apply bytes_le_lteq. by left.
Qed.

Lemma bytes_nle_lt a b : ¬ bytes_le a b → bytes_lt b a.
Proof.
  rewrite bytes_le_lteq. intros Hn. destruct (bytes_lt_trichotomy a b) as [?|[?|?]]; [by destruct Hn; left|by destruct Hn; right|done].
Qed.

Lemma omap_filter_none {A B} (f : A → option B) (P : A → Prop) `{∀ x, Decision (P x)} (l : list A) :
  (∀ x, x ∈ l → ¬ P x → f x = None) → omap f (filter P l) = omap f l.
Proof.
  induction l as [|x l IH]; intros Hn; [done|]. rewrite filter_cons.
  assert (omap f (filter P l) = omap f l) as Hl by (apply IH; intros y Hy; apply Hn; by apply list_elem_of_further).
  case_decide as Hx; csimpl; rewrite Hl; [done|]. by rewrite (Hn x (list_elem_of_here _ _) Hx).
Qed.

Section walk_spec.
Context {St : Type} `{KVSpec St view} (BelongsTo : list byte → Z).

(** The entry of the export for a binding of the store. *)
Definition export_of (gid : Z) (kv : list byte * list byte) : option (list byte * list byte) :=
  if bool_decide (x3a ∈ kv.1) || HasPrefix kv.1 uidPrefix then None
  else match SplitKey kv.1 with
       | Ok (pred, uid) => if BelongsTo pred =? gid then Some (line_prefix uid pred, kv.2) else None
       | _ => None
       end.

Lemma export_of_data gid k v uid pred :
  data_key k uid pred →
  export_of gid (k, v) = if BelongsTo pred =? gid then Some (line_prefix uid pred, v) else None.
Proof.
  intros Hk. unfold export_of. simpl. rewrite bool_decide_false by (by eapply data_key_no_colon).
  erewrite data_key_not_uid by done. simpl. by rewrite (SplitKey_data _ _ _ Hk).
Qed.

Lemma export_of_colon gid k v : x3a ∈ k → export_of gid (k, v) = None.
Proof. intros Hk. unfold export_of. simpl. by rewrite bool_decide_true. Qed.

Lemma export_of_uid gid k v : HasPrefix k uidPrefix = true → export_of gid (k, v) = None.
Proof. intros Hk. unfold export_of. simpl. by rewrite Hk, orb_true_r. Qed.

(** Between a data key and its predicate with a tilde only that predicate has
    data keys. *)
Lemma skipped_pred k uid pred k' uid' pred' :
  data_key k uid pred → data_key k' uid' pred' → bytes_le k k' → bytes_lt k' (pred ++ [tilde]) → pred' = pred.
Proof.
  intros Hk Hk' Hle Hlt. rewrite (data_key_app _ _ _ Hk) in Hle.
  pose proof (skipped_prefix _ _ _ Hle Hlt) as Hpre. rewrite (data_key_app _ _ _ Hk') in Hpre, Hle.
  destruct Hk as [(_ & _ & Hp & _) _]. destruct Hk' as [(_ & _ & Hp' & _) _].
  apply prefix_pipe in Hpre; [|by apply pred_ascii]. apply HasPrefix_spec in Hpre as [t ->].
  destruct t as [|b t]; [by rewrite app_nil_r|]. exfalso.
  apply Forall_app in Hp' as [_ Hp']. apply Forall_cons in Hp' as [[Hb _] _].
  rewrite <-app_assoc in Hle. unfold bytes_le in Hle. rewrite bytes_compare_app in Hle. cbn [app bytes_compare] in Hle.
  rewrite (proj2 (Z.compare_gt_iff (byte_to_Z pipe) (byte_to_Z b))) in Hle; [by apply Hle|]. exact Hb.
Qed.

(** What the visit of a clean key does, and that a seek moves forward over
    nothing that is exported. *)
Lemma visit_clean gid lastPred k :
  clean k → lastPred = [] ∨ BelongsTo lastPred = gid →
  match visit BelongsTo gid lastPred k with
  | Ok (Seek k') =>
      bytes_lt k k' ∧ ∀ kv, clean kv.1 → bytes_le k kv.1 → bytes_lt kv.1 k' → export_of gid kv = None
  | Ok (Send uid pred) => ∀ v, export_of gid (k, v) = Some (line_prefix uid pred, v) ∧ BelongsTo pred = gid
  | _ => False
  end.
Proof.
  intros Hk Hlast. unfold visit. destruct Hk as [(attr & term & -> & Ha & Ht)|[(rest & -> & Hc & Hr)|(uid & pred & Hk)]].
  - rewrite IndexByte_app by done. rewrite (proj2 (Z.ltb_lt _ _)) by lia. rewrite Nat2Z.id.
    rewrite take_app_add. simpl. rewrite <-app_assoc. simpl app. split; [apply lt_prefix, (lt_prefix [x3a]), Ht|].
    intros [k' v'] _ Hle Hlt. simpl in *. apply export_of_colon.
    change (attr ++ [x3a; tilde]) with (attr ++ [x3a] ++ [tilde]) in Hlt. rewrite app_assoc in Hlt.
    change (x3a :: term) with ([x3a] ++ term) in Hle. rewrite app_assoc in Hle.
    apply (skipped_prefix _ _ _ Hle), HasPrefix_spec in Hlt as [t ->]. rewrite <-app_assoc.
    apply elem_of_app. right. apply list_elem_of_here.
  - rewrite IndexByte_absent by done. change (-1 <? -1) with false. cbv iota.
    rewrite (proj2 (HasPrefix_spec _ _)) by eauto. split; [apply lt_prefix, Hr|].
    intros [k' v'] _ Hle Hlt. apply export_of_uid. by eapply skipped_prefix.
  - rewrite IndexByte_absent by (by eapply data_key_no_colon). change (-1 <? -1) with false. cbv iota.
    erewrite data_key_not_uid by done. rewrite (SplitKey_data _ _ _ Hk). simpl.
    destruct (negb _ && _) eqn:Hb.
    + apply andb_true_iff in Hb as [_ Hb]. apply negb_true_iff in Hb. split.
      * rewrite (data_key_app _ _ _ Hk). by apply lt_prefix.
      * intros [k' v'] Hk' Hle Hlt. simpl in *. destruct Hk' as [(attr & term & -> & _)|[(rest & -> & _)|(uid' & pred' & Hk')]].
        -- apply export_of_colon. apply elem_of_app. right. apply list_elem_of_here.
        -- apply export_of_uid, HasPrefix_spec. eauto.
        -- rewrite (export_of_data _ _ _ _ _ Hk'). rewrite (skipped_pred _ _ _ _ _ _ Hk Hk' Hle Hlt). by rewrite Hb.
    + assert (BelongsTo pred = gid) as Hg.
      { apply andb_false_iff in Hb as [Hb|Hb]; apply negb_false_iff in Hb; [|by apply Z.eqb_eq].
        apply bool_decide_eq_true in Hb as ->. destruct Hlast as [->|]; [|done].
        destruct Hk as [(_ & Hne & _) _]. done. }
      intros v. split; [|done]. rewrite (export_of_data _ _ _ _ _ Hk). by rewrite Hg, Z.eqb_refl.
Qed.

(** Where the iterator can be: at an upper part of the store. *)
Definition upper (s : St) (it : list (list byte * list byte)) : Prop :=
  StronglySorted bytes_lt it.*1 ∧ (∀ kv, kv ∈ it → kv ∈ kv_scan s []) ∧
  ∀ kv, kv ∈ kv_scan s [] → kv ∈ it ∨ Forall (λ kv', bytes_lt kv.1 kv'.1) it.

#[local] Instance key_lt_strict : StrictOrder (λ a b : list byte * list byte, bytes_lt a.1 b.1).
Proof.
  split; [intros a; apply (irreflexivity bytes_lt)|intros a b c; apply (transitivity (R := bytes_lt))].
Qed.

Lemma upper_tail s kv it : upper s (kv :: it) → upper s it.
Proof.
  intros (Hs & Hin & Hall). rewrite fmap_cons in Hs. apply StronglySorted_cons in Hs as [Hkv Hs].
  split_and!; [done| |].
  - intros kv' Hkv'. apply Hin. by apply list_elem_of_further.
  - intros kv' [Hkv'|Hlt]%Hall.
    + apply elem_of_cons in Hkv' as [->|?]; [right|by left]. by rewrite Forall_fmap in Hkv.
    + right. by apply Forall_cons in Hlt as [_ ?].
Qed.

Lemma seek_filter s kv it k :
  upper s (kv :: it) → bytes_lt kv.1 k →
  kv_scan s k = filter (λ kv', bytes_le k kv'.1) (kv :: it) ∧ upper s (kv_scan s k).
Proof.
  intros Hup Hlt. assert (kv_scan s k = filter (λ kv', bytes_le k kv'.1) (kv :: it)) as Heq.
  { destruct Hup as (Hs & Hin & Hall). apply (ssorted_ext (λ a b, bytes_lt a.1 b.1)).
    - apply ssorted_fmap, kv_scan_sorted.
    - apply ssorted_filter. by apply (ssorted_fmap fst).
    - intros x. rewrite list_elem_of_filter, kv_scan_view.
      assert (x ∈ kv_scan s [] ↔ view s !! x.1 = Some x.2) as Hx.
      { rewrite kv_scan_view. split; [by intros []|]. intros ?. split; [done|]. apply (bytes_le_prefix [] x.1). }
      split.
      + intros [Hv Hle]. split; [done|]. apply Hx, Hall in Hv as [?|Hf]; [done|].
        apply Forall_cons in Hf as [Hf _]. exfalso. apply (irreflexivity bytes_lt x.1).
        apply (bytes_lt_trans _ kv.1); [done|]. apply bytes_le_lteq in Hle as [?| <-]; [by eapply bytes_lt_trans|done].
      + intros [Hle Hx']. split; [by apply Hx, Hin|done]. }
  split; [done|]. rewrite Heq. destruct Hup as (Hs & Hin & Hall). split_and!.
  - apply (ssorted_sublist _ _ (kv :: it).*1); [apply fmap_sublist, sublist_filter|done].
  - intros x [_ Hx]%list_elem_of_filter. by apply Hin.
  - intros x [Hx|Hf]%Hall.
    + destruct (decide (bytes_le k x.1)) as [Hle|Hnle]; [left; by apply list_elem_of_filter|right].
      apply Forall_forall. intros y [Hy _]%list_elem_of_filter.
      apply bytes_nle_lt in Hnle.
      apply bytes_le_lteq in Hy as [?| <-]; [by eapply bytes_lt_trans|done].
    + right. rewrite Forall_forall in Hf |- *. intros y [_ Hy]%list_elem_of_filter. by apply Hf.
Qed.

Lemma backup_loop_spec s gid it lastPred fuel :
  (∀ kv, kv ∈ kv_scan s [] → clean kv.1) → upper s it → lastPred = [] ∨ BelongsTo lastPred = gid →
  (length it < fuel)%nat →
  backup_loop BelongsTo fuel s gid it lastPred = Ok (omap (export_of gid) it).
Proof.
  intros Hclean. revert it lastPred. induction fuel as [|fuel IH]; intros it lastPred Hup Hlast Hf; [lia|].
  cbn [backup_loop]. destruct it as [|[k v] it]; [done|]. simpl in Hf.
  pose proof Hup as (Hs & Hin & _). assert (clean k) as Hk by (apply (Hclean (k, v)), Hin, list_elem_of_here).
  pose proof (visit_clean gid lastPred k Hk Hlast) as Hvisit.
  destruct (visit BelongsTo gid lastPred k) as [[k'|uid pred]| |]; try done; cbn [mbind res_bind].
  - destruct Hvisit as [Hlt Hskip]. destruct (seek_filter s (k, v) it k' Hup Hlt) as [Heq Hup'].
    assert (¬ bytes_le k' k) as Hnle.
    { intros [Hc| ->]%bytes_le_lteq; [|by apply (irreflexivity bytes_lt k)].
      by apply (irreflexivity bytes_lt k), (bytes_lt_trans _ k'). }
    rewrite IH; [|done|done|].
    + rewrite Heq. f_equal. apply omap_filter_none. intros [k1 v1] Hx Hnx. simpl in Hnx. apply Hskip.
      * by apply Hclean, Hin.
      * apply elem_of_cons in Hx as [[= -> ->]|Hx]; [by apply bytes_le_lteq; right|].
        rewrite fmap_cons in Hs. apply StronglySorted_cons in Hs as [Hs _]. rewrite Forall_forall in Hs.
        apply bytes_le_lteq. left. apply Hs. by apply (list_elem_of_fmap_2 fst) in Hx.
      * by apply bytes_nle_lt.
    + rewrite Heq, filter_cons_False by done. pose proof (length_filter (λ kv', bytes_le k' kv'.1) it). lia.
  - destruct (Hvisit v) as [Hx Hg]. rewrite (IH it pred); [|by eapply upper_tail|by right|lia].
    simpl. by rewrite Hx.
Qed.

(** C36: On a store all of whose keys are clean, the walk ends and sends exactly
    the posting lists of the predicates of the group, in key order, whatever
    else the store holds; as many steps as the store has bindings suffice. *)
Theorem backup_exports s gid fuel :
  (∀ kv, kv ∈ kv_scan s [] → clean kv.1) → (length (kv_scan s []) < fuel)%nat →
  backup_loop BelongsTo fuel s gid (kv_scan s []) [] = Ok (omap (export_of gid) (kv_scan s [])).
Proof.
  intros Hclean Hf. apply backup_loop_spec; [done| |by left|done].
  split_and!; [apply kv_scan_sorted|done|by left].
Qed.
End walk_spec.

(** ** The walk can be trapped *)
Section trap.
Context {St : Type} `{KVSpec St view} (BelongsTo : list byte → Z).

(** C37: An index key whose token sorts at or above the tilde traps the walk: from
    any key of that index the seek to the attribute, the colon and the tilde
    stops at a key of the same index, again and again. *)
Theorem backup_trapped s gid attr tok v it lastPred tok' v' fuel :
  x3a ∉ attr → view s !! index_key.IndexKey attr tok' = Some v' → bytes_le [tilde] tok' →
  backup_loop BelongsTo fuel s gid ((index_key.IndexKey attr tok, v) :: it) lastPred = Crash out_of_fuel.
Proof.
  intros Ha Hv Htok. revert tok v it. induction fuel as [|fuel IH]; intros tok v it; [done|].
  cbn [backup_loop]. unfold visit. rewrite index_key.IndexKey_app, IndexByte_app by done.
  rewrite (proj2 (Z.ltb_lt _ _)), Nat2Z.id by lia. cbn [mbind res_bind]. rewrite take_app_add, <-app_assoc. simpl app.
  set (k := attr ++ [index_key.indexRune; tilde]).
  assert (HasPrefix k (attr ++ [x3a]) = true) as Hk.
  { apply HasPrefix_spec. exists [tilde]. unfold k. by rewrite <-app_assoc. }
  assert (bytes_le k (index_key.IndexKey attr tok')) as Hle.
  { rewrite index_key.IndexKey_app. unfold k, bytes_le. by rewrite bytes_compare_app. }
  pose proof (proj2 (kv_scan_view s k (_, v')) (conj Hv Hle)) as Hin.
  pose proof (kv_scan_sorted s k) as Hs. pose proof (λ kv, proj1 (kv_scan_view s k kv)) as Hsc.
  destruct (kv_scan s k) as [|[k1 v1] it1]; [by apply elem_of_nil in Hin|].
  destruct (Hsc _ (list_elem_of_here _ _)) as [_ Hk1]. rewrite fmap_cons in Hs.
  apply StronglySorted_cons in Hs as [Hs _]. rewrite Forall_forall in Hs.
  assert (HasPrefix k1 (attr ++ [x3a]) = true) as Hpre.
  { apply (prefix_convex _ k _ (index_key.IndexKey attr tok')); [done| |done|].
    - apply HasPrefix_spec. exists tok'. rewrite index_key.IndexKey_app. by rewrite <-app_assoc.
    - apply elem_of_cons in Hin as [[= <- <-]|Hin]; apply bytes_le_lteq; [by right|left].
      apply Hs. by apply (list_elem_of_fmap_2 fst) in Hin. }
  apply HasPrefix_spec in Hpre as [t ->]. rewrite <-app_assoc.
  change (attr ++ [x3a] ++ t) with (attr ++ index_key.indexRune :: t). rewrite <-index_key.IndexKey_app. apply IH.
Qed.
End trap.

(** ** Reading an export back *)
(** The value of hexadecimal digits. *)
Definition hval (acc : Z) (ds : list byte) : Z := fold_left (λ a b, a * 16 + default 0 (digit_val b)) ds acc.
Definition is_hex (b : byte) : Prop := ∃ d, 0 ≤ d < 16 ∧ b = posting_key.hex_digit d.

Lemma digit_val_hex d : 0 ≤ d < 16 → digit_val (posting_key.hex_digit d) = Some d.
Proof.
  intros Hd. assert (d ∈ [0; 1; 2; 3; 4; 5; 6; 7; 8; 9; 10; 11; 12; 13; 14; 15]) as Hin by (set_unfold; lia).
  clear Hd. set_unfold. destruct_or! Hin; by subst.
Qed.

Lemma hex_loop_spec fuel v acc :
  (0 < fuel)%nat → 0 ≤ v < 16 ^ Z.of_nat fuel →
  ∃ b ds, hex_loop fuel v acc = (b :: ds) ++ acc ∧ Forall is_hex (b :: ds) ∧ hval 0 (b :: ds) = v ∧
    (0 < v → b ≠ x30) ∧ (ds = [] → v < 16).
Proof.
  revert v acc. induction fuel as [|fuel IH]; intros v acc Hf Hv; [lia|]. cbn [hex_loop].
  pose proof (Z.mod_pos_bound v 16 ltac:(lia)) as Hm. pose proof (Z_div_mod_eq_full v 16) as Hdm.
  assert (is_hex (posting_key.hex_digit (v mod 16))) as Hhex by (by exists (v mod 16)).
  destruct (Z.eqb_spec (v / 16) 0) as [Hz|Hnz].
  - exists (posting_key.hex_digit (v mod 16)), []. split_and!; [done|by constructor| | |lia].
    + unfold hval. simpl. rewrite digit_val_hex by done. simpl. lia.
    + intros Hpos Hb. pose proof (digit_val_hex (v mod 16) Hm) as Hd. rewrite Hb in Hd.
      assert (Some 0 = Some (v mod 16)) as [= ?] by done. lia.
  - rewrite Nat2Z.inj_succ, Z.pow_succ_r in Hv by lia. assert (0 ≤ v / 16) by (apply Z.div_pos; lia).
    destruct (IH (v / 16) (posting_key.hex_digit (v mod 16) :: acc)) as (b & ds & -> & Hds & Hval & Hb & _).
    + destruct fuel; [simpl in Hv; lia|lia].
    + split; [done|]. apply Z.div_lt_upper_bound; lia.
    + exists b, (ds ++ [posting_key.hex_digit (v mod 16)]). split_and!.
      * by rewrite app_comm_cons, <-app_assoc.
      * rewrite app_comm_cons. apply Forall_app. split; [done|by constructor].
      * rewrite app_comm_cons. unfold hval in Hval |- *. rewrite fold_left_app, Hval. simpl.
        rewrite digit_val_hex by done. simpl. lia.
      * intros _. apply Hb. lia.
      * intros Hnil. by apply app_eq_nil in Hnil as [_ ?].
Qed.

Lemma FormatUint16_spec u :
  is_u64 u →
  ∃ b ds, FormatUint16 u = b :: ds ∧ Forall is_hex (b :: ds) ∧ hval 0 (b :: ds) = u ∧
    (0 < u → b ≠ x30) ∧ (ds = [] → u < 16).
Proof.
  intros Hu. destruct (hex_loop_spec 16 u []) as (b & ds & Heq & H);
    [lia|unfold is_u64, MaxUint64 in Hu; change (16 ^ Z.of_nat 16) with 18446744073709551616; lia|].
  exists b, ds. unfold FormatUint16. by rewrite Heq, app_nil_r.
Qed.

(** Hexadecimal digits read as decimal ones give less, where they give
    anything. *)
Lemma decimal_below M n m ds r :
  Forall is_hex ds → 0 ≤ n → digits_loop 10 M n ds = Ok r →
  (n ≤ m → r ≤ hval m ds) ∧ (n < m → r < hval m ds).
Proof.
  intros Hds. revert n m. induction Hds as [|b ds (d & Hd & ->) Hds IH]; intros n m Hn; cbn [digits_loop].
  - intros [= ->]. unfold hval. simpl. lia.
  - unfold hval. cbn [fold_left]. rewrite digit_val_hex by done. destruct (Z.leb_spec 10 d); [done|].
    case_match; [done|]. cbn [default from_option]. intros Hr.
    destruct (IH (n * 10 + d) (m * 16 + d) ltac:(lia) Hr) as [H1 H2]. unfold hval, default, from_option, id in *.
    split; intros; [apply H1|apply H2]; lia.
Qed.

Lemma ParseUint_FormatUint16 u : is_u64 u → ParseUint (FormatUint16 u) 0 64 = Ok u ↔ u < 10.
Proof.
  intros Hu. split.
  - destruct (FormatUint16_spec u Hu) as (b & ds & -> & Hds & Hval & Hb & Hone). intros Hp. destruct (Z.ltb_spec u 10) as [|Hge]; [done|exfalso].
    assert (digits_loop 10 (2 ^ 64 - 1) 0 (b :: ds) = Ok u) as Hl.
    { unfold ParseUint in Hp. change (0 =? 0) with true in Hp. cbv iota in Hp.
      by rewrite bool_decide_false in Hp by (apply Hb; lia). }
    clear Hp. apply Forall_cons in Hds as [(d & Hd & ->) Hds]. cbn [digits_loop] in Hl.
    rewrite digit_val_hex in Hl by done. destruct (Z.leb_spec 10 d); [done|]. destruct (_ <? _); [done|].
    unfold hval in Hval. cbn [fold_left] in Hval. rewrite digit_val_hex in Hval by done. simpl in Hval.
    simpl in Hl. destruct Hds as [|b2 ds (d2 & Hd2 & ->) Hds]; [simpl in Hval; lia|].
    assert (0 < d). { destruct (decide (d = 0)) as [->|]; [|lia]. exfalso. apply Hb; [lia|done]. }
    cbn [digits_loop fold_left] in Hl, Hval. rewrite digit_val_hex in Hl, Hval by done.
    destruct (Z.leb_spec 10 d2); [done|]. destruct (_ <? _); [done|].
    destruct (decimal_below _ (d * 10 + d2) (d * 16 + d2) _ _ Hds ltac:(lia) Hl) as [_ Hlt].
    change (hval (d * 16 + d2) ds = u) in Hval. specialize (Hlt ltac:(lia)). lia.
  - intros Hlt. destruct Hu as [Hu _]. assert (u ∈ [0; 1; 2; 3; 4; 5; 6; 7; 8; 9]) as Hin by (set_unfold; lia).
    clear Hlt Hu. set_unfold. destruct_or! Hin; by subst.
Qed.

(** ** Lines of an export *)
(** Concatenations in right-nested form, with the literals spelled out. *)
Ltac flat_text := repeat (progress (rewrite <-?app_assoc; simpl)).

Section restore.
Context `{types.ValueLib, rdf.RdfLib}.
Import rdf_print.

(** A line read back as the loader does. *)
Definition restore (line : list byte) : res DirectedEdge := q ← rdf.Parse line; rdf.ToEdge q.

(** Predicates the statement syntax can carry. *)
Definition pred_ok (pred : list byte) : Prop :=
  pred ≠ [] ∧ no_bracket pred ∧ rdf.Trim pred = pred ∧ rdf.sane pred = true.

Definition uid_id (u : Z) : list byte := bs "_uid_:" ++ FormatUint16 u.

Lemma hex_ascii b : is_hex b → byte_to_Z b < 0x80 ∧ b ≠ x3e ∧ b ≠ x20.
Proof.
  intros (d & Hd & ->).
  assert (d ∈ [0; 1; 2; 3; 4; 5; 6; 7; 8; 9; 10; 11; 12; 13; 14; 15]) as Hin by (set_unfold; lia).
  clear Hd. set_unfold. destruct_or! Hin; by subst.
Qed.

Lemma FormatUint16_chars u : is_u64 u → FormatUint16 u ≠ [] ∧ Forall is_hex (FormatUint16 u).
Proof. intros Hu. destruct (FormatUint16_spec u Hu) as (b & ds & -> & Hds & _). done. Qed.

Lemma uid_id_ok u : is_u64 u → no_bracket (uid_id u) ∧ rdf.Trim (uid_id u) = uid_id u ∧ rdf.sane (uid_id u) = true.
Proof.
  intros Hu. destruct (FormatUint16_chars u Hu) as [Hne Hhex]. unfold uid_id, no_bracket. split_and!.
  - rewrite elem_of_app. intros [Hc|Hc]; [revert Hc; by apply (bool_decide_unpack _)|].
    rewrite Forall_forall in Hhex. by apply Hhex, hex_ascii in Hc as (_ & ? & _).
  - unfold rdf.Trim. rewrite (TrimLeft_id (_ ++ _)) by done.
    rewrite TrimLeft_id; [apply rev_involutive|].
    destruct (exists_last Hne) as (ds & b & Heq). rewrite Heq in Hhex |- *. rewrite !rev_app_distr. simpl.
    apply Forall_app in Hhex as [_ Hb]. apply Forall_cons in Hb as [Hb _]. apply hex_ascii in Hb as (_ & _ & Hb). congruence.
  - unfold rdf.sane. simpl app. cbv iota. rewrite range_string_ascii; [done|].
    change (is_ascii (bs "_uid_:" ++ FormatUint16 u)). apply Forall_app. split; [by apply (bool_decide_unpack _)|].
    eapply Forall_impl; [exact Hhex|]. intros b Hb. by apply hex_ascii in Hb as [? _].
Qed.

Lemma GetUid_uid_id u : is_u64 u → rdf.GetUid (uid_id u) = ParseUint (FormatUint16 u) 0 64.
Proof.
  intros Hu. unfold rdf.GetUid, uid_id. rewrite (proj2 (HasPrefix_spec _ _)) by eauto.
  rewrite slice_ok by (rewrite length_app; simpl; lia). simpl. rewrite drop_0, take_ge by lia. done.
Qed.

Lemma restore_print u pred o k tail e :
  is_u64 u → pred_ok pred → object_ok o →
  restore (print k tail (mkStmt (uid_id u) pred o None)) = Ok e ↔
  ∃ q, denote (mkStmt (uid_id u) pred o None) = Some q ∧ rdf.ToEdge q = Ok e.
Proof.
  intros Hu (_ & Hb & _) Ho. destruct (uid_id_ok u Hu) as (Hub & _).
  assert (stmt_ok (mkStmt (uid_id u) pred o None)) as Hok by done.
  unfold restore. split.
  - destruct (rdf.Parse _) as [q| |] eqn:Hp; simpl; try done. intros He. exists q. split; [|done].
    by eapply (Parse_print_spec k tail).
  - intros (q & Hq & He). by rewrite (proj2 (Parse_print_spec k tail _ q Hok) Hq).
Qed.

Lemma denote_id u pred o :
  is_u64 u → pred_ok pred →
  denote (mkStmt (uid_id u) pred o None) =
    (r ← denote_object o;
     let '(suffix, oid, val, t) := (r : list byte * list byte * option (list byte) * Z) in
     if (bool_decide (oid = []) && bool_decide (val = None)) || negb (rdf.sane (pred ++ suffix)) || negb (rdf.sane oid) then None
     else Some (rdf.mkNQuad (uid_id u) (pred ++ suffix) oid val t [])).
Proof.
  intros Hu (Hne & _ & Hp & _). destruct (uid_id_ok u Hu) as (_ & Ht & Hs).
  unfold denote. cbn [obj subject predicate label]. destruct (denote_object o) as [[[[suffix oid] val] t]|]; [|done].
  simpl mbind. cbv beta iota. rewrite Hp, Ht, Hs. cbn [default from_option fmap option_fmap option_map id].
  rewrite (bool_decide_false (uid_id u = [])) by done.
  rewrite (bool_decide_false (pred ++ suffix = [])) by (intros [? _]%app_eq_nil; done).
  destruct (bool_decide _ && _), (rdf.sane (pred ++ suffix)), (rdf.sane oid); done.
Qed.

(** A uid posting of an export is read back as the edge it came from exactly
    when both uids are below ten: they are printed in hexadecimal without the
    prefix that the reader needs to take them as such. *)
Theorem restore_edge u pred p :
  is_u64 u → is_u64 (Uid p) → pred_ok pred →
  restore (line_prefix u pred ++ uid_text p) = Ok (mkEdge u pred None 0 (Uid p) []) ↔ u < 10 ∧ Uid p < 10.
Proof.
  intros Hu Hp Hpred. pose proof (uid_id_ok _ Hp) as (Hb & Ht & Hs).
  assert (line_prefix u pred ++ uid_text p = print 0 [newline] (mkStmt (uid_id u) pred (OIri (uid_id (Uid p))) None)) as ->.
  { unfold line_prefix, uid_text, print, iri, uid_id. by flat_text. }
  rewrite restore_print by done. rewrite denote_id by done. cbn [denote_object mbind option_bind]. rewrite Ht, Hs, app_nil_r.
  rewrite (bool_decide_false (uid_id (Uid p) = [])) by done. destruct Hpred as (_ & _ & _ & ->). simpl andb. simpl orb. cbv iota.
  rewrite <-(ParseUint_FormatUint16 u), <-(ParseUint_FormatUint16 (Uid p)) by done.
  assert (∀ e, (∃ q, Some (rdf.mkNQuad (uid_id u) pred (uid_id (Uid p)) None 0 []) = Some q ∧ rdf.ToEdge q = Ok e) ↔
    (sid ← ParseUint (FormatUint16 u) 0 64; oid ← ParseUint (FormatUint16 (Uid p)) 0 64;
     Ok (mkEdge sid pred None 0 oid [])) = Ok e) as ->.
  { intros e. rewrite <-!GetUid_uid_id by done. split; [by intros (q & [= <-] & He)|]. intros He. by eexists. }
  destruct (ParseUint (FormatUint16 u) 0 64) as [a| |]; simpl; [|split; [done|by intros [? _]]..].
  destruct (ParseUint (FormatUint16 (Uid p)) 0 64) as [b| |]; simpl; [|split; [done|by intros [_ ?]]..].
  split; [by intros [= -> ->]|by intros [[= ->] [= ->]]].
Qed.

(** *** Values *)
Definition plain_text (str : list byte) : Prop := str ≠ [] ∧ Forall (λ b, plain b ∧ b ≠ x27) str.

Lemma plain_literal str : plain_text str → lit_ok str = true ∧ rdf.requote str = str.
Proof.
  intros [_ Hs]. induction Hs as [|b s [(Hb & Hq & Hbs) Hap] Hs [IH1 IH2]]; [done|]. simpl.
  rewrite !bool_decide_false by done. split; [|by f_equal].
  apply andb_true_iff. split; [|done]. unfold rdf.isEndLiteral. rewrite !(proj2 (Z.eqb_neq _ _)); [done|lia|lia|].
  intros Heq. apply Hq. by apply (inj byte_to_Z).
Qed.

(** What becomes of a value: its type is kept where its name under [xs:] is one
    the reader knows. *)
Definition restored (v : types.Value) (data : list byte) : list byte * Z :=
  match v with
  | types.VBool b => ((if b then bs "true" else bs "false") ++ bs "@@xs:bool", types.BytesID)
  | _ => (data, types.id (types.Type_ v))
  end.

(** Integers, booleans, and plain strings. *)
Definition exportable (v : types.Value) : Prop :=
  match v with
  | types.VInt32 i => types.MinInt32 ≤ i ≤ types.MaxInt32
  | types.VBool _ => True
  | types.VString s => plain_text s
  | _ => False
  end.

Lemma digits_plain ds : all_digits ds → Forall (λ b, plain b ∧ b ≠ x27) ds.
Proof.
  intros Hds. eapply Forall_impl; [exact Hds|]. intros b Hb. apply digit_val_digit in Hb as [_ Hb].
  unfold plain. split_and!; try lia; intros ->; cbn in Hb; lia.
Qed.

Lemma FormatInt_plain i : plain_text (FormatInt i).
Proof.
  unfold FormatInt. destruct (Z.ltb_spec i 0).
  - destruct (digits_of_spec (- i)) as (Hd & _ & Hne); [lia|]. split; [done|].
    constructor; [|by apply digits_plain]. repeat split; done.
  - destruct (digits_of_spec i) as (Hd & _ & Hne); [lia|]. split; [done|by apply digits_plain].
Qed.

(** What is printed for an exportable value, and what its text is read as. *)
Lemma exportable_text v data :
  exportable v → types.MarshalBinary v = Ok data →
  data ≠ [] ∧ types.UnmarshalBinary (types.id (types.Type_ v) mod 256) data = Ok v ∧ types.id (types.Type_ v) ≠ 0 ∧
  ∃ str, types.MarshalText v = Ok str ∧ plain_text str ∧ no_bracket (bs "xs:" ++ types.Name (types.Type_ v)) ∧
    denote_object (OTyped str (bs "xs:" ++ types.Name (types.Type_ v))) =
      Some ([], [], Some (restored v data).1, (restored v data).2).
Proof.
  destruct v as [b|i|bits|b|t|s|day|g]; cbn [exportable]; intros Hv Hd; try done; apply Ok_inj in Hd; subst data.
  - split_and!; [done| |done|].
    + change (types.id (types.Type_ (types.VInt32 i)) mod 256) with types.Int32ID.
      change (types.UnmarshalBinary types.Int32ID ?d) with (types.VInt32 <$> types.Int32_UnmarshalBinary d).
      unfold types.Int32_UnmarshalBinary.
      destruct (types.le_take_put 4 (u32 i)) as [-> ->]; [apply Z.mod_pos_bound; lia|]. simpl. by rewrite types.i32_u32.
    + exists (FormatInt i). pose proof (FormatInt_plain i) as Hp.
      split_and!; [done|done|by apply (bool_decide_unpack _)|].
      cbn [denote_object types.Type_ types.int32Type types.Name]. rewrite (proj2 (plain_literal _ Hp)).
      rewrite bool_decide_false by done. destruct Hp as [Hne _]. destruct (FormatInt i) eqn:He; [done|].
      change (rdf.typeMap !! rdf.Trim (bs "xs:" ++ bs "int")) with (Some types.Int32ID). cbv beta iota.
      change (types.UnmarshalText types.Int32ID ?d) with (types.VInt32 <$> types.Int32_UnmarshalText d).
      unfold types.Int32_UnmarshalText.
      unfold types.MinInt32, types.MaxInt32 in Hv. rewrite <-He, ParseInt_FormatInt by lia. done.
  - split_and!; [by destruct b|by destruct b|done|]. exists (if b then bs "true" else bs "false").
    split_and!; [done| |by apply (bool_decide_unpack _)|by destruct b].
    destruct b; (split; [done|]); apply (bool_decide_unpack _); vm_compute; exact Logic.I.
  - split_and!; [by destruct Hv|done|done|]. exists s. split_and!; [done|done|by apply (bool_decide_unpack _)|].
    cbn [denote_object types.Type_ types.stringType types.Name]. rewrite (proj2 (plain_literal _ Hv)).
    rewrite bool_decide_false by done. destruct Hv as [Hne _]. destruct s; [done|].
    by change (rdf.typeMap !! rdf.Trim (bs "xs:" ++ bs "string")) with (Some types.StringID).
Qed.

(** A value posting of an export is read back with the bytes and the type it
    had when it is an integer or a plain string, for a uid below ten; a boolean
    comes back as a string with the name of its type in it. *)
Theorem restore_value table v data u pred lbl c o :
  exportable v → types.MarshalBinary v = Ok data → 0 ≤ u < 10 → pred_ok pred →
  (t ← print_postings table (line_prefix u pred) [mkPosting MaxUint64 data (types.id (types.Type_ v)) lbl c o] [];
   restore t) = Ok (mkEdge u pred (Some (restored v data).1) (restored v data).2 0 []).
Proof.
  intros Hv Hd Hu Hp. destruct (exportable_text v data Hv Hd) as (Hne & Hb & Ht & str & Hstr & Hplain & Hty & Hden).
  assert (is_u64 u) as Hu64 by (unfold is_u64, MaxUint64; lia).
  cbn [print_postings Uid Value]. rewrite Z.eqb_refl, bool_decide_false by done. cbn [andb negb].
  unfold value_text. cbn [ValType Value]. rewrite Hb. cbn [x_Check mbind res_bind]. rewrite Hstr. cbn [x_Check mbind res_bind].
  rewrite (proj2 (Z.eqb_neq _ _) Ht). cbn [negb].
  rewrite Quote_plain by (eapply Forall_impl; [apply Hplain|by intros ? [? _]]).
  set (ty := bs "xs:" ++ types.Name (types.Type_ v)) in *.
  match goal with |- restore ?t = _ =>
    assert (t = print 1 [newline] (mkStmt (uid_id u) pred (OTyped str ty) None)) as -> end.
  { unfold line_prefix, print, print_object, quoted, iri, uid_id, ty. by flat_text. }
  apply (restore_print u pred _ 1 [newline]); [done|done|by split; [apply plain_literal|]|].
  rewrite denote_id by done. rewrite Hden. cbn [mbind option_bind]. rewrite app_nil_r.
  pose proof Hp as (_ & _ & _ & ->). eexists. split; [reflexivity|]. unfold rdf.ToEdge.
  cbn [rdf.Subject rdf.ObjectId length Nat.ltb Nat.leb]. rewrite GetUid_uid_id by done.
  rewrite (proj2 (ParseUint_FormatUint16 u Hu64)) by lia. done.
Qed.
End restore.

(** ** Examples *)
(** Two data keys of group 1, one of another group, an index key and a uid
    mapping. *)
Definition ex_store : memstore :=
  list_to_map [(Key 1 (bs "age"), bs "A"); (Key 2 (bs "name"), bs "N"); (Key 7 (bs "age"), bs "B");
               (index_key.IndexKey (bs "name") (bs "alice"), bs "I"); (uidPrefix ++ bs "x", bs "U")].
Definition ex_group (pred : list byte) : Z := if bool_decide (pred = bs "age") then 1 else 0.

Lemma backup_exports_witness :
  (∀ kv, kv ∈ kv_scan ex_store [] → clean kv.1) ∧
  backup_loop ex_group 6 ex_store 1 (kv_scan ex_store []) [] =
    Ok [(bs "<_uid_:1> <age> ", bs "A"); (bs "<_uid_:7> <age> ", bs "B")].
Proof.
  assert (∀ kv, kv ∈ kv_scan ex_store [] → clean kv.1) as Hc.
  { intros kv Hkv. apply (kv_scan_view (view := λ s, s)) in Hkv as [Hkv _]. destruct kv as [k v].
    apply elem_of_list_to_map_2 in Hkv. simpl in Hkv. set_unfold. destruct_or! Hkv; injection Hkv as -> ->.
    1-3: (right; right; do 2 eexists; split; [|reflexivity]; apply (bool_decide_unpack _); vm_compute; exact Logic.I).
    - left. exists (bs "name"), (bs "alice"). repeat split; apply (bool_decide_unpack _); vm_compute; exact Logic.I.
    - right. left. exists (bs "x"). repeat split; apply (bool_decide_unpack _); vm_compute; exact Logic.I. }
  assert (length (kv_scan ex_store []) < 6)%nat as Hlen by (vm_compute; lia).
  split; [exact Hc|]. etransitivity; [exact (backup_exports (view := λ s, s) ex_group ex_store 1 6 Hc Hlen)|].
  vm_compute. reflexivity.
Defined.

(** The index of a negative integer. *)
Definition ex_trap : memstore :=
  list_to_map [(index_key.IndexKey (bs "age") [xff; xff; xff; xff], bs "I"); (Key 2 (bs "name"), bs "N")].

Lemma backup_trapped_witness :
  [[xff; xff; xff; xff]] = types.IntIndex (-1) ∧
  kv_scan ex_trap [] = (index_key.IndexKey (bs "age") [xff; xff; xff; xff], bs "I") :: [(Key 2 (bs "name"), bs "N")] ∧
  backup_loop ex_group 1000 ex_trap 0 (kv_scan ex_trap []) [] = Crash out_of_fuel.
Proof.
  assert (kv_scan ex_trap [] = (index_key.IndexKey (bs "age") [xff; xff; xff; xff], bs "I") :: [(Key 2 (bs "name"), bs "N")])
    as Hs by (vm_compute; reflexivity).
  split; [vm_compute; reflexivity|]. split; [exact Hs|]. rewrite Hs.
  apply (backup_trapped (view := λ s, s) ex_group ex_trap 0 (bs "age") [xff; xff; xff; xff] (bs "I") [(Key 2 (bs "name"), bs "N")] []
    [xff; xff; xff; xff] (bs "I") 1000); [apply (bool_decide_unpack _)|..]; vm_compute; done.
Defined.

Lemma ex_pred : pred_ok (H0 := rdf_print.hash0) (bs "age").
Proof. repeat split; try done; apply (bool_decide_unpack _); vm_compute; exact Logic.I. Defined.

(** The line of uid 16 is read as one of uid 10. *)
Lemma restore_edge_witness :
  restore (H := types.lib 0) (H0 := rdf_print.hash0) (line_prefix 16 (bs "age") ++ uid_text (mkPosting 7 [] 0 [] 0 0)) =
    Ok (mkEdge 10 (bs "age") None 0 7 []) ∧
  restore (H := types.lib 0) (H0 := rdf_print.hash0) (line_prefix 9 (bs "age") ++ uid_text (mkPosting 7 [] 0 [] 0 0)) =
    Ok (mkEdge 9 (bs "age") None 0 7 []).
Proof.
  split; [vm_compute; reflexivity|].
  apply (restore_edge (H := types.lib 0) (H0 := rdf_print.hash0) 9 (bs "age") (mkPosting 7 [] 0 [] 0 0)).
  - unfold is_u64, MaxUint64. lia.
  - unfold is_u64, MaxUint64. simpl. lia.
  - exact ex_pred.
  - simpl. lia.
Defined.

Lemma restore_value_witness :
  (t ← print_postings (H := types.lib 0) (λ _, false) (line_prefix 3 (bs "age"))
         [mkPosting MaxUint64 [x2a; x00; x00; x00] types.Int32ID [] 0 0] [];
   restore (H := types.lib 0) (H0 := rdf_print.hash0) t) = Ok (mkEdge 3 (bs "age") (Some [x2a; x00; x00; x00]) types.Int32ID 0 []).
Proof.
  apply (restore_value (H := types.lib 0) (H0 := rdf_print.hash0) (λ _, false) (types.VInt32 42) [x2a; x00; x00; x00] 3 (bs "age") [] 0 0).
  - vm_compute. split; discriminate.
  - vm_compute. reflexivity.
  - lia.
  - exact ex_pred.
Defined.
End backup.
