(* ===== verification/Schema.v ===== *)
(** The schema: its lexer ([schema/state.go]), its parser ([schema/parse.go])
    and the tables other packages read ([schema/schema.go]).

    The tables are package variables in the code and a record here. The last
    loop of [ParseBytes] ranges over a map it writes to; the order of that
    iteration, which Go leaves open, is an argument. *)
From S2P Require Import Prelude Bytes Types Lex.
From stdpp Require Import options.
#[local] Open Scope Z_scope.

Module schema.
Import lex.

(** ** The lexer *)
Definition leftCurl : Z := 123.
Definition rightCurl : Z := 125.
Definition leftRound : Z := 40.
Definition rightRound : Z := 41.
Definition collon : Z := 58.
Definition at_sign : Z := 64.

Definition itemText : Z := 5.
Definition itemScalar : Z := 6.
Definition itemType : Z := 7.
Definition itemLeftCurl : Z := 8.
Definition itemRightCurl : Z := 9.
Definition itemComment : Z := 10.
Definition itemLeftRound : Z := 11.
Definition itemRightRound : Z := 12.
Definition itemScalarName : Z := 13.
Definition itemScalarType : Z := 14.
Definition itemObject : Z := 15.
Definition itemObjectName : Z := 16.
Definition itemObjectType : Z := 17.
Definition itemCollon : Z := 18.
Definition itemAt : Z := 19.
Definition itemIndex : Z := 20.
Definition itemDummy : Z := 21.

Definition isNameBegin (r : Z) : bool :=
  if (97 <=? r) && (r <=? 122) then true
  else if (65 <=? r) && (r <=? 90) then true
  else false.
Definition isNameSuffix (r : Z) : bool :=
  if isNameBegin r then true
  else if (48 <=? r) && (r <=? 57) then true
  else if (r =? 95) || (r =? 46) || (r =? 45) then true
  else false.
Definition isSpace (r : Z) : bool := (r =? 0x09) || (r =? 0x20).
Definition isEndOfLine (r : Z) : bool := (r =? 0x0A) || (r =? 0x0D).

Inductive StateFn : Type :=
| SText | SStart | SScalar | SScalarBlock | SObject | SObjectBlock | SScalarPair | SScalarPair1 | SObjectPair.

Definition unexpected : string := "Invalid schema. Unexpected %s".

Definition lexText (l : Lexer) : res (option StateFn * Lexer) :=
  loop (λ l,
    ' (r, l) ← Next l;
    if r =? EOF then
      l ← (if Start l <? Pos l then Emit itemText l else Ok l);
      l ← Emit ItemEOF l;
      stop l
    else if isNameBegin r then goto SStart (Backup l)
    else if isSpace r || isEndOfLine r then again (Ignore l)
    else stop (Errorf unexpected l)) l.

(** The loop [r := l.Next(); if isNameSuffix(r) { continue }; l.Backup()]. *)
Definition absorb (l : Lexer) : res Lexer :=
  for_loop (bound l) (λ l,
    ' (r, l) ← Next l;
    Ok (if isNameSuffix r then Continue l else Return (Backup l))) l.

Definition word (l : Lexer) : res (list byte) := slice (Input l) (Start l) (Pos l).

Definition lexStart (l : Lexer) : res (option StateFn * Lexer) :=
  l ← absorb l;
  w ← word l;
  if bool_decide (w = bs "scalar") then l ← Emit itemScalar l; Ok (Some SScalar, l)
  else if bool_decide (w = bs "type") then l ← Emit itemType l; Ok (Some SObject, l)
  else Ok (None, Errorf "Invalid schema" l).

Definition lexScalar (l : Lexer) : res (option StateFn * Lexer) :=
  loop (λ l,
    ' (r, l) ← Next l;
    if isNameBegin r then goto SScalarPair (Backup l)
    else if r =? leftRound then
      l ← Emit itemLeftRound l;
      ' (_, l) ← Next l;
      goto SScalarBlock l
    else if isSpace r || isEndOfLine r then again (Ignore l)
    else stop (Errorf unexpected l)) l.

Definition lexScalarBlock (l : Lexer) : res (option StateFn * Lexer) :=
  loop (λ l,
    ' (r, l) ← Next l;
    if r =? rightRound then l ← Emit itemRightRound l; goto SText l
    else if isNameBegin r then goto SScalarPair1 (Backup l)
    else if isSpace r || isEndOfLine r then again (Ignore l)
    else stop (Errorf unexpected l)) l.

Definition lexObject (l : Lexer) : res (option StateFn * Lexer) :=
  loop (λ l,
    ' (r, l) ← Next l;
    if r =? rightCurl then goto SText l
    else if isSpace r || isEndOfLine r then again (Ignore l)
    else if isNameBegin r then
      l ← absorb l;
      l ← Emit itemObject l;
      goto SObjectBlock l
    else stop (Errorf unexpected l)) l.

Definition block_step (l : Lexer) : res (flow Lexer (option StateFn * Lexer)) :=
  ' (r, l) ← Next l;
  if r =? leftCurl then l ← Emit itemLeftCurl l; again l
  else if isSpace r || isEndOfLine r then again (Ignore l)
  else if r =? rightCurl then l ← Emit itemRightCurl l; goto SText l
  else if isNameBegin r then goto SObjectPair l
  else stop (Errorf unexpected l).

Definition lexObjectBlock (l : Lexer) : res (option StateFn * Lexer) := loop block_step l.

(** The loop [L] between a name and its type; [inl] is [break L], [inr] the
    return with an error. *)
Definition to_type (l : Lexer) : res (Lexer + Lexer) :=
  for_loop (bound l) (λ l,
    ' (r, l) ← Next l;
    if isSpace r || isEndOfLine r then Ok (Continue (Ignore l))
    else if r =? collon then l ← Emit itemCollon l; Ok (Continue l)
    else if isNameBegin r then Ok (Return (inl (Backup l)))
    else Ok (Return (inr (Errorf unexpected l)))) l.

(** The loop [L1] after the type; the flag is [isIndexed]. *)
Definition index_mark (l : Lexer) : res (bool * Lexer + Lexer) :=
  for_loop (bound l) (λ l,
    ' (r, l) ← Next l;
    if isSpace r then Ok (Continue (Ignore l))
    else if isEndOfLine r then Ok (Return (inl (false, l)))
    else if r =? at_sign then
      l ← Emit itemAt l;
      l ← absorb l;
      w ← word l;
      if bool_decide (w = bs "index") then l ← Emit itemIndex l; Ok (Return (inl (true, l)))
      else Ok (Return (inr (Errorf "Invalid mention of index" l)))
    else Ok (Return (inr (Errorf unexpected l)))) l.

(** The body that [lexScalarPair] and [lexScalarPair1] share, with the state
    they end in. *)
Definition scalar_pair (next : StateFn) (l : Lexer) : res (option StateFn * Lexer) :=
  l ← absorb l;
  l ← Emit itemScalarName l;
  o ← to_type l;
  match o with
  | inr l => Ok (None, l)
  | inl l =>
      l ← absorb l;
      l ← Emit itemScalarType l;
      o ← index_mark l;
      match o with
      | inr l => Ok (None, l)
      | inl (isIndexed, l) =>
          l ← (if negb isIndexed then Emit itemDummy l else Ok l);
          Ok (Some next, l)
      end
  end.

Definition lexScalarPair (l : Lexer) : res (option StateFn * Lexer) := scalar_pair SText l.
Definition lexScalarPair1 (l : Lexer) : res (option StateFn * Lexer) := scalar_pair SScalarBlock l.

Definition lexObjectPair (l : Lexer) : res (option StateFn * Lexer) :=
  l ← absorb l;
  l ← Emit itemObjectName l;
  o ← to_type l;
  match o with
  | inr l => Ok (None, l)
  | inl l =>
      l ← absorb l;
      l ← Emit itemObjectType l;
      Ok (Some SObjectBlock, l)
  end.

Definition exec (s : StateFn) : Lexer → res (option StateFn * Lexer) :=
  match s with
  | SText => lexText
  | SStart => lexStart
  | SScalar => lexScalar
  | SScalarBlock => lexScalarBlock
  | SObject => lexObject
  | SObjectBlock => lexObjectBlock
  | SScalarPair => lexScalarPair
  | SScalarPair1 => lexScalarPair1
  | SObjectPair => lexObjectPair
  end.

Definition run (input : list byte) : res (list item) := run_lexer exec SText input.

(** ** Types and tables *)
Inductive Typ_ : Type :=
| TScalar (s : types.Scalar)
| TObject (Name : list byte) (Fields : gmap (list byte) (list byte)).

Definition IsScalar (t : Typ_) : bool := match t with TScalar _ => true | TObject _ _ => false end.

Record tables : Type := mkTables {
  str : gmap (list byte) Typ_;
  indexedFields : gset (list byte);
}.

Definition set_str (name : list byte) (t : Typ_) (st : tables) : tables :=
  mkTables (<[name := t]> (str st)) (indexedFields st).
Definition set_indexed (name : list byte) (st : tables) : tables :=
  mkTables (str st) ({[name]} ∪ indexedFields st).

Definition getScalar (typ : list byte) : option Typ_ := TScalar <$> types.TypeForName typ.

Definition IsIndexed (st : tables) (pred : list byte) : bool := bool_decide (pred ∈ indexedFields st).

Definition TypeOf (st : tables) (pred : list byte) : option Typ_ :=
  match str st !! pred with
  | Some obj => Some obj
  | None => getScalar pred
  end.

(** The scalars among the fields of an object, in the order of the map's
    iteration. *)
Definition ScalarList (range : gmap (list byte) (list byte) → list (list byte * list byte)) (st : tables) (obj : list byte) :
    list (list byte * Typ_) :=
  match str st !! obj with
  | Some (TObject _ fields) => omap (λ kv, pair kv.1 <$> getScalar kv.2) (range fields)
  | _ => []
  end.

Definition IndexedFields (st : tables) : list (list byte) := elements (indexedFields st).

(** ** The parser *)
(** [<-l.Items]: the zero item once the channel is closed. *)
Definition recv (its : list item) : item * list item :=
  match its with
  | [] => (mkItem 0 [], [])
  | i :: its => (i, its)
  end.

(** What follows the name of a scalar, in both loops that read them. *)
Definition scalar_decl (name : list byte) (its : list item) (st : tables) : res (list item * tables) :=
  let '(next, its) := recv its in
  if negb (Typ next =? itemCollon) then Err "Missing collon"
  else
    let '(next, its) := recv its in
    if negb (Typ next =? itemScalarType) then Err "Missing Type"
    else
      match getScalar (Val next) with
      | None => Err "Invalid type"
      | Some t =>
          let st := set_str name t st in
          let '(next, its) := recv its in
          if Typ next =? itemAt then
            let '(index, its) := recv its in
            if Typ index =? itemIndex then Ok (its, set_indexed name st)
            else Err "Invalid index specification"
          else Ok (its, st)
      end.

(** The loops over the channel take at least one item per round, so as many
    rounds as there are items, and one at the end, suffice. *)
Fixpoint processScalarBlock (fuel : nat) (its : list item) (st : tables) : res (list item * tables) :=
  match fuel with
  | O => Crash out_of_fuel
  | S fuel =>
      match its with
      | [] => Ok ([], st)
      | i :: its =>
          if Typ i =? itemRightRound then Ok (its, st)
          else if Typ i =? itemScalarName then
            ' (its, st) ← scalar_decl (Val i) its st;
            processScalarBlock fuel its st
          else if Typ i =? ItemError then Err "item.Val"
          else processScalarBlock fuel its st
      end
  end.

Fixpoint processScalar (fuel : nat) (its : list item) (st : tables) : res (list item * tables) :=
  match fuel with
  | O => Crash out_of_fuel
  | S fuel =>
      match its with
      | [] => Ok ([], st)
      | i :: its =>
          if Typ i =? itemLeftRound then processScalarBlock (S (length its)) its st
          else if Typ i =? itemScalarName then scalar_decl (Val i) its st
          else if Typ i =? ItemError then Err "item.Val"
          else processScalar fuel its st
      end
  end.

(** A failed type assertion [t1.(types.Scalar)]. *)
Definition conversion : string := "interface conversion: types.Type is types.Object, not types.Scalar".

(** What follows the name of a field: [obj.Fields] and the tables. *)
Definition field_decl (name : list byte) (its : list item) (fields : gmap (list byte) (list byte)) (st : tables) :
    res (list item * gmap (list byte) (list byte) * tables) :=
  let '(next, its) := recv its in
  if negb (Typ next =? itemCollon) then Err "Missing collon"
  else
    let '(next, its) := recv its in
    if negb (Typ next =? itemObjectType) then Err "Missing Type"
    else
      let typ := Val next in
      st ← match types.TypeForName typ with
           | Some t =>
               match str st !! name with
               | Some (TScalar t1) =>
                   if negb (bool_decide (types.Name t1 = types.Name t)) then Err "Same field cant have multiple types"
                   else Ok st
               | Some (TObject _ _) => Crash conversion
               | None => Ok (set_str name (TScalar t) st)
               end
           | None => Ok st
           end;
      match fields !! name with
      | Some _ => Err "Repeated field %v in object %v"
      | None => Ok (its, <[name := typ]> fields, st)
      end.

Fixpoint object_fields (fuel : nat) (its : list item) (fields : gmap (list byte) (list byte)) (st : tables) :
    res (list item * gmap (list byte) (list byte) * tables) :=
  match fuel with
  | O => Crash out_of_fuel
  | S fuel =>
      match its with
      | [] => Ok ([], fields, st)
      | i :: its =>
          if Typ i =? itemRightCurl then Ok (its, fields, st)
          else if Typ i =? itemObjectName then
            ' (its, fields, st) ← field_decl (Val i) its fields st;
            object_fields fuel its fields st
          else if Typ i =? ItemError then Err "item.Val"
          else object_fields fuel its fields st
      end
  end.

Definition processObject (its : list item) (st : tables) : res (list item * tables) :=
  let '(next, its) := recv its in
  if negb (Typ next =? itemObject) then Err "Missing object name"
  else
    let objName := Val next in
    let '(next, its) := recv its in
    if negb (Typ next =? itemLeftCurl) then Err "Missing left curly brace"
    else
      ' (its, fields, st) ← object_fields (S (length its)) its ∅ st;
      if decide (fields = ∅) then Err "Object type %v with no fields"
      else Ok (its, set_str objName (TObject objName fields) st).

Fixpoint parse_items (fuel : nat) (its : list item) (st : tables) : res tables :=
  match fuel with
  | O => Crash out_of_fuel
  | S fuel =>
      match its with
      | [] => Ok st
      | i :: its =>
          if Typ i =? itemScalar then
            ' (its, st) ← processScalar (S (length its)) its st;
            parse_items fuel its st
          else if Typ i =? itemType then
            ' (its, st) ← processObject its st;
            parse_items fuel its st
          else if Typ i =? ItemError then Err "item.Val"
          else parse_items fuel its st
      end
  end.

(** The orders of the two iterations over maps in the last loop: the keys
    visited when the loop starts on a map, and the fields of an object. *)
Record order : Type := mkOrder {
  keys : gmap (list byte) Typ_ → list (list byte);
  fields_of : gmap (list byte) (list byte) → list (list byte * list byte);
}.

(** The orders Go allows: every key of the map is visited, no key twice; a key
    added meanwhile may be visited; the fields of an object are visited once. *)
Definition order_ok (o : order) : Prop :=
  (∀ m, NoDup (keys o m) ∧ ∀ k, is_Some (m !! k) → k ∈ keys o m) ∧ ∀ f, fields_of o f ≡ₚ map_to_list f.

Fixpoint resolve_fields (fields : list (list byte * list byte)) (st : tables) : res tables :=
  match fields with
  | [] => Ok st
  | (p, q) :: fields =>
      match TypeOf st q with
      | None => Err "Type not defined %v"
      | Some typ => resolve_fields fields (if negb (IsScalar typ) then set_str p typ st else st)
      end
  end.

Fixpoint resolve (o : order) (ks : list (list byte)) (st : tables) : res tables :=
  match ks with
  | [] => Ok st
  | k :: ks =>
      match str st !! k with
      | Some (TObject _ fields) => st ← resolve_fields (fields_of o fields) st; resolve o ks st
      | _ => resolve o ks st
      end
  end.

(** [ParseBytes] on the tables [st], empty at start-up. *)
Definition ParseBytes (o : order) (schema : list byte) (st : tables) : res tables :=
  its ← run schema;
  st ← parse_items (S (length its)) its st;
  resolve o (keys o (str st)) st.

Definition init : tables := mkTables ∅ ∅.

(** [Parse]: the file's contents, [None] when it cannot be read. *)
Definition Parse (o : order) (file : option (list byte)) (st : tables) : res tables :=
  match file with
  | None => Err "Error reading file: %v"
  | Some b => ParseBytes o b st
  end.
End schema.
