(* ===== verification/SchemaSafe.v ===== *)
(** The schema lexer ends on every input; the schema parser ends too, dies only
    in one failed type assertion, and leaves consistent tables. *)
From S2P Require Import Prelude Bytes Types Lex Schema.
From stdpp Require Import options.
#[local] Open Scope Z_scope.
#[local] Set Default Proof Using "Type*".

Module schema_safe.
Import lex schema.

(** ** The lexer *)
Definition rank (s : StateFn) : Z :=
  match s with SText | SScalar | SScalarBlock | SObjectPair => 1 | _ => 0 end.

Definition name_ahead (l : Lexer) : Prop := isNameBegin (ahead (Input l) (Pos l)) = true.

Definition pre (s : StateFn) (l : Lexer) : Prop := match s with SStart => name_ahead l | _ => True end.

Definition exec_post (s : StateFn) (l0 : Lexer) (r : option StateFn * Lexer) : Prop :=
  lexinv r.2 ∧ Input r.2 = Input l0 ∧
  match r.1 with
  | Some s' => pre s' r.2 ∧ 3 * remaining r.2 + rank s' < 3 * remaining l0 + rank s
  | None => ended (Items r.2)
  end.

Lemma suffix_of_begin r : isNameBegin r = true → isNameSuffix r = true.
Proof. unfold isNameSuffix. by intros ->. Qed.

Lemma exec_absorb l (Q : Lexer → Prop) :
  lexinv l →
  (∀ l', lexinv l' → Input l' = Input l → Start l' = Start l → Pos l ≤ Pos l' → Items l' = Items l →
    (name_ahead l → Pos l < Pos l') → Q l') →
  wp (absorb l) Q.
Proof.
  intros Hl HQ. unfold absorb.
  apply (wp_for_loop (λ l', lexinv l' ∧ Input l' = Input l ∧ Start l' = Start l ∧ Items l' = Items l ∧ Pos l ≤ Pos l')
    (λ l, Z.to_nat (remaining l))).
  - intros l1 (H1 & HI & HS & HIt & HP). do 2 lex_step; lex_step.
    + change (isNameSuffix EOF) with false. cbv iota. apply HQ; [lex_inv|simpl; congruence..| |simpl; congruence|].
      * simpl. lia.
      * intros Hn. simpl. destruct (decide (Pos l1 = Pos l)) as [Heq|]; [|lia]. unfold name_ahead in Hn.
        rewrite <-HI, <-Heq in Hn. match goal with H : ahead _ _ = EOF |- _ => by rewrite H in Hn end.
    + destruct (isNameSuffix r) eqn:Hs.
      * lex_norm exec_post. split_and!; [done|congruence|congruence|congruence|lia|lia].
      * apply HQ; [lex_inv|simpl; congruence..| |simpl; congruence|].
        -- simpl. lia.
        -- intros Hn. simpl. destruct (decide (Pos l1 = Pos l)) as [Heq|]; [|lia]. unfold name_ahead in Hn.
           rewrite <-HI, <-Heq in Hn. match goal with H : r = ahead _ _ |- _ => rewrite <-H in Hn end.
           apply suffix_of_begin in Hn. congruence.
  - split_and!; done || lia.
  - unfold bound. lex_norm exec_post. lia.
Qed.

Lemma exec_to_type l (Q : Lexer + Lexer → Prop) :
  lexinv l →
  (∀ l', lexinv l' → Input l' = Input l → Pos l ≤ Pos l' → name_ahead l' → Q (inl l')) →
  (∀ l', lexinv l' → Input l' = Input l → ended (Items l') → Q (inr l')) →
  wp (to_type l) Q.
Proof.
  intros Hl HB HE. unfold to_type.
  apply (wp_for_loop (λ l', lexinv l' ∧ Input l' = Input l ∧ Pos l ≤ Pos l') (λ l, Z.to_nat (remaining l))).
  - intros l1 (H1 & HI & HP). repeat lex_step.
    all: try (apply HE; [lex_inv|simpl; congruence|apply ended_Errorf]).
    all: try (lex_norm exec_post; split_and!; [lex_inv|congruence|lia|lia]).
    apply HB; [lex_inv|simpl; congruence|simpl; lia|]. unfold name_ahead. simpl.
    match goal with HI : Input ?l' = Input l1, HP : Pos ?l' = Pos l1 + Width ?l' |- _ =>
      rewrite HI, HP, Z.add_simpl_r end. congruence.
  - split_and!; done || lia.
  - unfold bound. lex_norm exec_post. lia.
Qed.

Lemma exec_index_mark l (Q : bool * Lexer + Lexer → Prop) :
  lexinv l →
  (∀ b l', lexinv l' → Input l' = Input l → Pos l ≤ Pos l' → Q (inl (b, l'))) →
  (∀ l', lexinv l' → Input l' = Input l → ended (Items l') → Q (inr l')) →
  wp (index_mark l) Q.
Proof.
  intros Hl HB HE. unfold index_mark.
  apply (wp_for_loop (λ l', lexinv l' ∧ Input l' = Input l ∧ Pos l ≤ Pos l') (λ l, Z.to_nat (remaining l))).
  - intros l1 (H1 & HI & HP). unfold word.
    repeat first [lex_step | apply exec_absorb; [lex_inv|intros ? ? ? ? ? ? ?]].
    all: try (apply HE; [lex_inv|simpl; congruence|apply ended_Errorf]).
    all: try (lex_norm exec_post; split_and!; [lex_inv|congruence|lia|lia]).
    all: apply HB; [lex_inv|simpl; congruence|simpl; lia].
  - split_and!; done || lia.
  - unfold bound. lex_norm exec_post. lia.
Qed.

(** Runs a state function, its loops by their lemmas. *)
#[local] Ltac lex_state :=
  repeat lazymatch goal with
  | |- wp (loop _ _) _ => apply (wp_loop (λ _, True)); [lex_inv|done|intros ? ? ? ? _]
  | |- wp (absorb _) _ => apply exec_absorb; [lex_inv|intros ? ? ? ? ? ? ?]
  | |- wp (to_type _) _ => apply exec_to_type; [lex_inv|intros ? ? ? ? ?|intros ? ? ? ?]
  | |- wp (index_mark _) _ => apply exec_index_mark; [lex_inv|intros ? ? ? ? ?|intros ? ? ? ?]
  | _ => lex_step
  end.

(** A state entered in front of the rune that was read. *)
Lemma name_ahead_Backup l l' r :
  Input l' = Input l → Pos l' = Pos l + Width l' → r = ahead (Input l) (Pos l) → isNameBegin r = true →
  name_ahead (Backup l').
Proof. intros HI HP -> Hr. unfold name_ahead. simpl. by rewrite HI, HP, Z.add_simpl_r. Qed.

Lemma schema_lexText_ok l : lexinv l → wp (lexText l) (exec_post SText l).
Proof.
  intros Hl. unfold lexText. lex_state; try lex_done exec_post.
  match goal with |- exec_post _ _ (_, Backup ?l1) => assert (name_ahead (Backup l1)) by (by eapply name_ahead_Backup) end.
  lex_norm exec_post. split; [lex_inv|]. split; [congruence|]. split; [done|lia].
Qed.

(** A name ahead is consumed. *)
#[local] Ltac consumed :=
  repeat match goal with H : name_ahead ?l → _, H' : name_ahead ?l |- _ => specialize (H H') end.

Lemma lexStart_ok l : lexinv l → pre SStart l → wp (lexStart l) (exec_post SStart l).
Proof.
  intros Hl Hpre. simpl in Hpre. unfold lexStart, word. lex_state; consumed; lex_done exec_post.
Qed.

Lemma lexScalar_ok l : lexinv l → wp (lexScalar l) (exec_post SScalar l).
Proof. intros Hl. unfold lexScalar. lex_state; lex_done exec_post. Qed.

Lemma lexScalarBlock_ok l : lexinv l → wp (lexScalarBlock l) (exec_post SScalarBlock l).
Proof. intros Hl. unfold lexScalarBlock. lex_state; lex_done exec_post. Qed.

Lemma schema_lexObject_ok l : lexinv l → wp (lexObject l) (exec_post SObject l).
Proof. intros Hl. unfold lexObject. lex_state; lex_done exec_post. Qed.

Lemma lexObjectBlock_ok l : lexinv l → wp (lexObjectBlock l) (exec_post SObjectBlock l).
Proof. intros Hl. unfold lexObjectBlock, block_step. lex_state; lex_done exec_post. Qed.

Lemma scalar_pair_ok s next l :
  lexinv l → next = SText ∨ next = SScalarBlock → rank s = 0 → wp (scalar_pair next l) (exec_post s l).
Proof.
  intros Hl Hn Hs. unfold scalar_pair. lex_state; try lex_done exec_post.
  all: try destruct b; lex_state; consumed; lex_norm exec_post.
  all: (split; [lex_inv|split; [congruence|]]); split; [by destruct Hn as [->| ->]|];
    destruct Hn as [->| ->]; simpl; lia.
Qed.

Lemma lexObjectPair_ok l : lexinv l → wp (lexObjectPair l) (exec_post SObjectPair l).
Proof. intros Hl. unfold lexObjectPair. lex_state; consumed; lex_done exec_post. Qed.

#[export] Instance schema_progress : LexProgress exec.
Proof.
  refine {| lp_pre := pre; lp_rank := rank; lp_item := λ _, True |}.
  - intros s. by destruct s.
  - intros s l Hl Hpre _. apply (wp_mono _ (exec_post s l)).
    { intros r (? & ? & ?). split_and!; [done|done|by apply Forall_true|done]. }
    destruct s; simpl.
    all: first
      [ by apply schema_lexText_ok | by apply lexStart_ok | by apply lexScalar_ok | by apply lexScalarBlock_ok
      | by apply schema_lexObject_ok | by apply lexObjectBlock_ok | by apply lexObjectPair_ok
      | apply scalar_pair_ok; [done|auto|done] ].
Defined.

Lemma schema_run_spec input : ∃ its, run input = Ok its ∧ ended its ∧ embeds (texts its) input.
Proof.
  assert (wp (run_lexer exec SText input) (λ its, ended its ∧ embeds (texts its) input ∧ Forall (λ _, True) its)) as H
    by exact (wp_run_lexer exec SText input (λ _, Logic.I)).
  destruct (wp_inv _ _ H) as (its & ? & ? & ? & _). by exists its.
Qed.

(** ** The parser *)
(** A predicate marked as indexed has a type. *)
Definition typed_index (st : tables) : Prop := ∀ k, k ∈ indexedFields st → is_Some (str st !! k).

Lemma typed_index_str name t st : typed_index st → typed_index (set_str name t st).
Proof.
  intros Hst k Hk. simpl. destruct (decide (k = name)) as [->|]; [by rewrite lookup_insert_eq|].
  rewrite lookup_insert_ne by done. by apply Hst.
Qed.

Lemma typed_index_mark name st : typed_index st → is_Some (str st !! name) → typed_index (set_indexed name st).
Proof. intros Hst Hn k. simpl. rewrite elem_of_union, elem_of_singleton. intros [->|?]; [done|by apply Hst]. Qed.

#[local] Hint Resolve typed_index_str typed_index_mark : core.

(** The one way to die. *)
Definition dies (m : string) : Prop := m = conversion.

Lemma schema_recv_length its : (length (recv its).2 ≤ length its)%nat.
Proof. destruct its; simpl; lia. Qed.

(** Takes the next item of the channel. *)
#[local] Ltac take_item :=
  match goal with |- context [recv ?its] =>
    pose proof (schema_recv_length its); destruct (recv its) as [? ?]; cbn [fst snd] in * end.

Lemma scalar_decl_ok name its st :
  typed_index st → out dies (scalar_decl name its st) (λ r, typed_index r.2 ∧ (length r.1 ≤ length its)%nat).
Proof.
  intros Hst. unfold scalar_decl. take_item. case_match; [done|]. take_item. case_match; [done|].
  destruct (getScalar _); [|done]. take_item. case_match; [take_item; case_match; [|done]|]; simpl.
  - split; [|lia]. apply typed_index_mark; [by apply typed_index_str|]. simpl. by rewrite lookup_insert_eq.
  - split; [by apply typed_index_str|lia].
Qed.

Lemma processScalarBlock_ok fuel its st :
  typed_index st → (length its < fuel)%nat →
  out dies (processScalarBlock fuel its st) (λ r, typed_index r.2 ∧ (length r.1 ≤ length its)%nat).
Proof.
  revert its st. induction fuel as [|fuel IH]; intros its st Hst Hf; [lia|]. cbn [processScalarBlock].
  destruct its as [|i its]; [done|]. simpl in Hf. case_match; [simpl; split; [done|lia]|]. case_match.
  - apply out_bind. eapply out_mono; [|by apply scalar_decl_ok]. intros [its' st'] [Hst' Hl]. simpl in Hst', Hl.
    eapply out_mono; [|apply IH; [done|lia]]. intros r [? ?]. split; [done|simpl; lia].
  - case_match; [done|]. eapply out_mono; [|apply IH; [done|lia]]. intros r [? ?]. split; [done|simpl; lia].
Qed.

Lemma processScalar_ok fuel its st :
  typed_index st → (length its < fuel)%nat →
  out dies (processScalar fuel its st) (λ r, typed_index r.2 ∧ (length r.1 ≤ length its)%nat).
Proof.
  revert its st. induction fuel as [|fuel IH]; intros its st Hst Hf; [lia|]. cbn [processScalar].
  destruct its as [|i its]; [done|]. simpl in Hf. case_match; [|case_match; [|case_match; [done|]]].
  - eapply out_mono; [|apply processScalarBlock_ok; [done|lia]]. intros r [? ?]. split; [done|simpl; lia].
  - eapply out_mono; [|by apply scalar_decl_ok]. intros r [? ?]. split; [done|simpl; lia].
  - eapply out_mono; [|apply IH; [done|lia]]. intros r [? ?]. split; [done|simpl; lia].
Qed.

Lemma field_decl_ok name its fields st :
  typed_index st →
  out dies (field_decl name its fields st) (λ r, typed_index r.2 ∧ (length r.1.1 ≤ length its)%nat).
Proof.
  intros Hst. unfold field_decl. take_item. case_match; [done|]. take_item. case_match; [done|]. apply out_bind.
  apply (out_mono _ _ typed_index).
  - intros st' Hst'. case_match; [done|]. simpl. split; [done|lia].
  - destruct (types.TypeForName _); [|done]. destruct (str st !! name) as [[t1|n f]|]; [by case_match|done|].
    by apply typed_index_str.
Qed.

Lemma object_fields_ok fuel its fields st :
  typed_index st → (length its < fuel)%nat →
  out dies (object_fields fuel its fields st) (λ r, typed_index r.2 ∧ (length r.1.1 ≤ length its)%nat).
Proof.
  revert its fields st. induction fuel as [|fuel IH]; intros its fields st Hst Hf; [lia|]. cbn [object_fields].
  destruct its as [|i its]; [done|]. simpl in Hf. case_match; [simpl; split; [done|lia]|]. case_match.
  - apply out_bind. eapply out_mono; [|by apply field_decl_ok]. intros [[its' f'] st'] [Hst' Hl]. simpl in Hst', Hl.
    eapply out_mono; [|apply IH; [done|lia]]. intros r [? ?]. split; [done|simpl; lia].
  - case_match; [done|]. eapply out_mono; [|apply IH; [done|lia]]. intros r [? ?]. split; [done|simpl; lia].
Qed.

Lemma processObject_ok its st :
  typed_index st → out dies (processObject its st) (λ r, typed_index r.2 ∧ (length r.1 ≤ length its)%nat).
Proof.
  intros Hst. unfold processObject. take_item. case_match; [done|]. take_item. case_match; [done|]. apply out_bind.
  eapply out_mono; [|apply object_fields_ok; [done|lia]]. intros [[its' f'] st'] [Hst' Hl]. simpl in Hst', Hl.
  case_decide; [done|]. simpl. split; [by apply typed_index_str|lia].
Qed.

Lemma parse_items_ok fuel its st :
  typed_index st → (length its < fuel)%nat → out dies (parse_items fuel its st) typed_index.
Proof.
  revert its st. induction fuel as [|fuel IH]; intros its st Hst Hf; [lia|]. cbn [parse_items].
  destruct its as [|i its]; [done|]. simpl in Hf. case_match; [|case_match; [|case_match; [done|]]].
  - apply out_bind. eapply out_mono; [|apply processScalar_ok; [done|lia]]. intros [its' st'] [Hst' Hl].
    simpl in Hst', Hl. apply IH; [done|lia].
  - apply out_bind. eapply out_mono; [|by apply processObject_ok]. intros [its' st'] [Hst' Hl].
    simpl in Hst', Hl. apply IH; [done|lia].
  - apply IH; [done|lia].
Qed.

Lemma resolve_fields_ok fields st : typed_index st → out dies (resolve_fields fields st) typed_index.
Proof.
  revert st. induction fields as [|[p q] fields IH]; intros st Hst; simpl; [done|].
  destruct (TypeOf st q); [|done]. apply IH. case_match; [by apply typed_index_str|done].
Qed.

Lemma resolve_ok o ks st : typed_index st → out dies (resolve o ks st) typed_index.
Proof.
  revert st. induction ks as [|k ks IH]; intros st Hst; simpl; [done|].
  destruct (str st !! k) as [[t|n f]|]; [by apply IH| |by apply IH].
  apply out_bind. eapply out_mono; [|by apply resolve_fields_ok]. intros st' Hst'. by apply IH.
Qed.


(** A field with the name of an object. *)
Definition clash : list byte :=
  bs "type A { b: int" ++ [x0a] ++ bs "}" ++ [x0a] ++ bs "type B { A: int" ++ [x0a] ++ bs "}" ++ [x0a].

End schema_safe.
