(* ===== verification/SchemaResolve.v ===== *)
(** The last loop of [schema.ParseBytes]: which types it gives to predicates,
    when that is independent of the order in which Go visits the maps, and a
    schema for which it is not. *)
From S2P Require Import Prelude Bytes Types Lex Schema.
From stdpp Require Import options.
#[local] Open Scope Z_scope.
#[local] Set Default Proof Using "Type*".

Module schema_resolve.
Import schema.

(** Some object of the tables declares the field [p] with the type named [q]. *)
Definition declares (st : tables) (p q : list byte) : Prop :=
  ∃ k n f, str st !! k = Some (TObject n f) ∧ f !! p = Some q.

(** Some object declares the field [p] with the object type [typ]. *)
Definition refers (st : tables) (p : list byte) (typ : Typ_) : Prop :=
  ∃ q, declares st p q ∧ TypeOf st q = Some typ ∧ IsScalar typ = false.

(** Fields of object type have one type each, and names that are neither
    objects nor types. *)
Definition consistent (st : tables) : Prop :=
  ∀ p typ, refers st p typ →
    (∀ typ', refers st p typ' → typ' = typ) ∧
    (∀ n f, str st !! p ≠ Some (TObject n f)) ∧ ∀ p', ¬ declares st p' p.

Definition all_defined (st : tables) : Prop := ∀ p q, declares st p q → is_Some (TypeOf st q).

(** What the loop makes of the tables. *)
Definition resolved (st st' : tables) : Prop :=
  indexedFields st' = indexedFields st ∧
  ∀ p, (∀ typ, refers st p typ → str st' !! p = Some typ) ∧
       ((∀ typ, ¬ refers st p typ) → str st' !! p = str st !! p).

Section loop.
Context (st0 : tables) (Hc : consistent st0).

(** On the way, every predicate has its old type or the one it refers to. *)
Definition between (st : tables) : Prop :=
  indexedFields st = indexedFields st0 ∧
  ∀ p, str st !! p = str st0 !! p ∨ ∃ typ, refers st0 p typ ∧ str st !! p = Some typ.

Lemma TypeOf_object st q n f : TypeOf st q = Some (TObject n f) → str st !! q = Some (TObject n f).
Proof.
  unfold TypeOf. destruct (str st !! q); [done|]. unfold getScalar. by destruct (types.TypeForName q).
Qed.

Lemma between_TypeOf st p q : between st → declares st0 p q → TypeOf st q = TypeOf st0 q.
Proof.
  intros [_ Hst] Hd. unfold TypeOf. destruct (Hst q) as [->|(typ & Hr & _)]; [done|].
  by destruct (Hc q typ Hr) as (_ & _ & Hnot); destruct (Hnot p).
Qed.

(** Every object met is one of the original objects. *)
Lemma between_object st k n f :
  between st → str st !! k = Some (TObject n f) → ∃ k0, str st0 !! k0 = Some (TObject n f).
Proof.
  intros [_ Hst] Hk. destruct (Hst k) as [Heq|(typ & (q & Hd & Ht & _) & Heq)]; rewrite Heq in Hk; [by exists k|].
  injection Hk as ->. exists q. by apply TypeOf_object.
Qed.

Lemma between_set st p q typ :
  between st → declares st0 p q → TypeOf st0 q = Some typ → IsScalar typ = false → between (set_str p typ st).
Proof.
  intros [Hi Hst] Hd Ht Hs. split; [done|]. intros p'. simpl. destruct (decide (p' = p)) as [->|].
  - right. exists typ. split; [by exists q|]. by rewrite lookup_insert_eq.
  - rewrite lookup_insert_ne by done. apply Hst.
Qed.

(** The references among [fields] have been followed. *)
Definition followed (fields : list (list byte * list byte)) (st : tables) : Prop :=
  ∀ p q typ, (p, q) ∈ fields → TypeOf st0 q = Some typ → IsScalar typ = false → str st !! p = Some typ.

(** What was followed stays. *)
Definition keeps (st st' : tables) : Prop :=
  ∀ p typ, refers st0 p typ → str st !! p = Some typ → str st' !! p = Some typ.

Lemma keeps_trans st1 st2 st3 : keeps st1 st2 → keeps st2 st3 → keeps st1 st3.
Proof. intros H1 H2 p typ Hr Hp. by apply H2, H1. Qed.

Lemma resolve_fields_spec fields st :
  between st → (∀ p q, (p, q) ∈ fields → declares st0 p q) →
  match resolve_fields fields st with
  | Ok st' => between st' ∧ keeps st st' ∧ followed fields st' ∧ ∀ p q, (p, q) ∈ fields → is_Some (TypeOf st0 q)
  | Err _ => ¬ all_defined st0
  | Crash _ => False
  end.
Proof.
  revert st. induction fields as [|[p q] fields IH]; intros st Hb Hf; simpl.
  { split_and!; [done|by intros ?|..]; intros p q; intros; exfalso; by eapply not_elem_of_nil. }
  assert (declares st0 p q) as Hd by (apply Hf, list_elem_of_here).
  rewrite (between_TypeOf st p q Hb Hd). destruct (TypeOf st0 q) as [typ|] eqn:Ht.
  2:{ intros Hall. destruct (Hall p q Hd). congruence. }
  set (st1 := if negb (IsScalar typ) then _ else _).
  assert (between st1) as Hb1.
  { unfold st1. destruct (IsScalar typ) eqn:Hs; [done|]. by eapply between_set. }
  assert (keeps st st1) as Hk1.
  { unfold st1. destruct (IsScalar typ) eqn:Hs; [by intros ?|]. intros p' typ' Hr Hp'. simpl.
    destruct (decide (p' = p)) as [->|]; [|by rewrite lookup_insert_ne]. rewrite lookup_insert_eq. f_equal.
    destruct (Hc p typ' Hr) as (Hu & _). apply Hu. by exists q. }
  specialize (IH st1 Hb1 (λ p' q' Hin, Hf p' q' (list_elem_of_further _ _ _ Hin))).
  destruct (resolve_fields fields st1) as [st'| |]; [|done..]. destruct IH as (Hb' & Hk' & Hfo & Hdef).
  split_and!; [done|by eapply keeps_trans| |].
  - intros p' q' typ' [[= -> ->]|Hin]%elem_of_cons Ht' Hs'; [|by eapply Hfo].
    rewrite Ht in Ht'. injection Ht' as ->. apply Hk'; [by exists q|]. unfold st1. rewrite Hs'. simpl. by rewrite lookup_insert_eq.
  - intros p' q' [[= -> ->]|Hin]%elem_of_cons; [by eexists|by eapply Hdef].
Qed.

Lemma resolve_loop o ks st :
  (∀ f, fields_of o f ≡ₚ map_to_list f) → between st →
  match resolve o ks st with
  | Ok st' =>
      between st' ∧ keeps st st' ∧
      ∀ k n f, k ∈ ks → str st0 !! k = Some (TObject n f) → followed (map_to_list f) st' ∧ ∀ p q, f !! p = Some q → is_Some (TypeOf st0 q)
  | Err _ => ¬ all_defined st0
  | Crash _ => False
  end.
Proof.
  intros Ho. revert st. induction ks as [|k ks IH]; intros st Hb; simpl.
  { split_and!; [done|by intros ?|]. intros; exfalso; by eapply not_elem_of_nil. }
  assert (∀ n f, str st0 !! k = Some (TObject n f) → str st !! k = Some (TObject n f)) as Hk.
  { intros n f Hk. destruct Hb as [_ Hb]. destruct (Hb k) as [->|(typ & Hr & _)]; [done|].
    by destruct (Hc k typ Hr) as (_ & Hno & _); destruct (Hno n f). }
  destruct (str st !! k) as [[t|n f]|] eqn:Hs.
  1,3: specialize (IH st Hb); destruct (resolve o ks st) as [st'| |]; [|done..]; destruct IH as (H1 & H2 & H3);
    (split_and!; [done|done|]); intros k' n f [->|Hin]%elem_of_cons Hk'; [by apply Hk in Hk'|by eapply H3].
  destruct (between_object st k n f Hb Hs) as [k0 Hk0].
  pose proof (resolve_fields_spec (fields_of o f) st Hb) as Hf.
  destruct (resolve_fields (fields_of o f) st) as [st1| |].
  - destruct Hf as (Hb1 & Hk1 & Hfo & Hdef).
    { intros p q. rewrite Ho, elem_of_map_to_list. intros Hp. by exists k0, n, f. }
    cbn [mbind res_bind]. specialize (IH st1 Hb1). destruct (resolve o ks st1) as [st'| |]; [|done..].
    destruct IH as (H1 & H2 & H3). split_and!; [done|by eapply keeps_trans|].
    intros k' n' f' [->|Hin]%elem_of_cons Hk'; [|by eapply H3]. apply Hk in Hk'.
    assert (n' = n ∧ f' = f) as [-> ->] by (split; congruence). split.
    + intros p q typ Hin Ht Hsc. apply H2.
      * exists q. split_and!; [|done|done]. exists k0, n, f. by rewrite elem_of_map_to_list in Hin.
      * eapply Hfo; [by rewrite Ho|done|done].
    + intros p q Hp. apply (Hdef p q). by rewrite Ho, elem_of_map_to_list.
  - apply Hf. intros p q. rewrite Ho, elem_of_map_to_list. intros Hp. by exists k0, n, f.
  - apply Hf. intros p q. rewrite Ho, elem_of_map_to_list. intros Hp. by exists k0, n, f.
Qed.
End loop.

(** When fields of object type are declared with one type each and bear no
    name of an object or of a type, the last loop of [ParseBytes] has one outcome
    for all orders of map iteration: it gives each such field its object as type
    and changes nothing else, and it fails exactly when some field's type is not
    defined. *)
Theorem resolve_deterministic o st :
  order_ok o → consistent st →
  match resolve o (keys o (str st)) st with
  | Ok st' => all_defined st ∧ resolved st st'
  | Err _ => ¬ all_defined st
  | Crash _ => False
  end.
Proof.
  intros [Hk Hf] Hc. assert (between st st) as Hb by (split; [done|by left]).
  pose proof (resolve_loop st Hc o (keys o (str st)) st Hf Hb) as Hr.
  destruct (resolve o _ st) as [st'| |]; [|done..]. destruct Hr as ([Hi Hb'] & _ & Hall).
  assert (∀ k n f, str st !! k = Some (TObject n f) → k ∈ keys o (str st)) as Hin.
  { intros k n f Hkn. apply Hk. by eexists. }
  split; [|split; [done|intros p; split]].
  - intros p q (k & n & f & Hkn & Hp). destruct (Hall k n f (Hin _ _ _ Hkn) Hkn) as [_ Hdef]. by eapply Hdef.
  - intros typ (q & (k & n & f & Hkn & Hp) & Ht & Hs). destruct (Hall k n f (Hin _ _ _ Hkn) Hkn) as [Hfo _].
    eapply Hfo; [by apply elem_of_map_to_list|done|done].
  - intros Hno. destruct (Hb' p) as [|(typ & Hr & _)]; [done|]. by destruct (Hno typ).
Qed.

(** ** Examples *)
Definition forward : order := mkOrder (λ m, (map_to_list m).*1) map_to_list.
Definition backward : order := mkOrder (λ m, reverse (map_to_list m).*1) map_to_list.

Lemma forward_ok : order_ok forward.
Proof.
  split; [|done]. intros m. split; [apply NoDup_fst_map_to_list|]. intros k [t Hk]. simpl.
  apply list_elem_of_fmap. exists (k, t). split; [done|]. by apply elem_of_map_to_list.
Qed.

Lemma backward_ok : order_ok backward.
Proof.
  split; [|done]. intros m. destruct (proj1 forward_ok m) as [Hnd Hin]. simpl in *. split; [by rewrite reverse_Permutation|].
  intros k Hk. by apply elem_of_reverse, Hin.
Qed.

Definition lines (ls : list string) : list byte := concat ((λ l, bs l ++ [x0a]) <$> ls).

(** The same field with two object types. *)
Definition two_types : list byte := lines ["type A {"; "f: A"; "}"; "type B {"; "f: B"; "}"].

(** The type of the field is then the one visited last. *)
Lemma order_matters :
  ∃ st1 st2, ParseBytes forward two_types init = Ok st1 ∧ ParseBytes backward two_types init = Ok st2 ∧
    TypeOf st1 (bs "f") = Some (TObject (bs "A") {[bs "f" := bs "A"]}) ∧
    TypeOf st2 (bs "f") = Some (TObject (bs "B") {[bs "f" := bs "B"]}).
Proof. do 2 eexists. split; [vm_compute; reflexivity|]. split; [vm_compute; reflexivity|]. split; vm_compute; reflexivity. Qed.

(** A person with a name and friends. *)
Definition person : Typ_ := TObject (bs "Person") {[bs "name" := bs "string"; bs "friend" := bs "Person"]}.
Definition ex_tables : tables :=
  mkTables {[bs "Person" := person; bs "name" := TScalar types.stringType]} {[bs "name"]}.

Lemma ex_declares p q : declares ex_tables p q → (p = bs "name" ∧ q = bs "string") ∨ (p = bs "friend" ∧ q = bs "Person").
Proof.
  intros (k & n & f & Hk & Hp). simpl in Hk. apply lookup_insert_Some in Hk as [[_ [= <- <-]]|[_ Hk]].
  - apply lookup_insert_Some in Hp as [[<- <-]|[_ Hp]]; [by left|].
    apply lookup_singleton_Some in Hp as [<- <-]. by right.
  - by apply lookup_singleton_Some in Hk as [_ ?].
Qed.

Lemma ex_types :
  TypeOf ex_tables (bs "string") = Some (TScalar types.stringType) ∧ TypeOf ex_tables (bs "Person") = Some person ∧
  str ex_tables !! bs "friend" = None.
Proof. split_and!; vm_compute; reflexivity. Qed.

Lemma resolve_deterministic_witness :
  consistent ex_tables ∧ order_ok backward ∧
  ∃ st', resolve backward (keys backward (str ex_tables)) ex_tables = Ok st' ∧ TypeOf st' (bs "friend") = Some person.
Proof.
  assert (consistent ex_tables) as Hc.
  { destruct ex_types as (H1 & H2 & H3). intros p typ (q & [[-> ->]|[-> ->]]%ex_declares & Ht & Hs).
    - rewrite H1 in Ht. injection Ht as <-. done.
    - rewrite H2 in Ht. apply (inj Some) in Ht as <-. split_and!.
      + intros typ' (q & [[? ->]|[_ ->]]%ex_declares & Ht & _); [done|]. rewrite H2 in Ht. by apply (inj Some) in Ht as <-.
      + intros n f. by rewrite H3.
      + intros p' [[_ ?]|[_ ?]]%ex_declares; done. }
  split; [exact Hc|]. split; [exact backward_ok|].
  pose proof (resolve_deterministic backward ex_tables backward_ok Hc) as Hr.
  destruct (resolve backward (keys backward (str ex_tables)) ex_tables) as [st'|m|m] eqn:He.
  - exists st'. split; [reflexivity|]. destruct Hr as [_ [_ Hr]]. unfold TypeOf. destruct (Hr (bs "friend")) as [Hp _].
    rewrite (Hp person); [reflexivity|]. exists (bs "Person"). split; [|split; vm_compute; reflexivity].
    exists (bs "Person"), (bs "Person"), {[bs "name" := bs "string"; bs "friend" := bs "Person"]}.
    split; vm_compute; reflexivity.
  - vm_compute in He. discriminate He.
  - destruct Hr.
Defined.
End schema_resolve.
