(* ===== verification/SchemaPrint.v ===== *)
(** Reading a printed schema: lexer and parser of [schema] run on a list of
    declarations do to the tables what the declarations say. *)
From S2P Require Import Prelude Bytes Types Lex LexText Schema SchemaSafe.
From stdpp Require Import options.
#[local] Open Scope Z_scope.
#[local] Set Default Proof Using "Type*".

Module schema_print.
Import lex lex_text schema.

(** ** Declarations and their text *)
Record scalar_decl : Type := mkScalarDecl { sname : list byte; stype : list byte; sindex : bool }.

Inductive decl : Type :=
| DScalar (d : scalar_decl)
| DBlock (ds : list scalar_decl)
| DObject (name : list byte) (fields : list (list byte * list byte)).

Definition nl : byte := x0a.
Definition print_pair (name ty : list byte) : list byte := name ++ bs ": " ++ ty.
Definition print_scalar (d : scalar_decl) : list byte :=
  print_pair (sname d) (stype d) ++ (if sindex d then bs " @index" else []) ++ [nl].
Definition print_field (f : list byte * list byte) : list byte := print_pair f.1 f.2 ++ [nl].

Definition print_decl (d : decl) : list byte :=
  match d with
  | DScalar d => bs "scalar " ++ print_scalar d
  | DBlock ds => bs "scalar (  " ++ concat (print_scalar <$> ds) ++ bs ")" ++ [nl]
  | DObject n fs => bs "type " ++ n ++ bs " { " ++ concat (print_field <$> fs) ++ bs "}" ++ [nl]
  end.

Definition print (ds : list decl) : list byte := concat (print_decl <$> ds).

(** Names: a letter, then letters, digits, dots, dashes and underscores. *)
Definition name_ok (n : list byte) : Prop :=
  match n with [] => False | b :: _ => isNameBegin (byte_to_Z b) = true end ∧
  Forall (λ b, isNameSuffix (byte_to_Z b) = true) n.

Definition pair_ok (n ty : list byte) : Prop := name_ok n ∧ name_ok ty.
Definition decl_ok (d : decl) : Prop :=
  match d with
  | DScalar d => pair_ok (sname d) (stype d)
  | DBlock ds => Forall (λ d, pair_ok (sname d) (stype d)) ds
  | DObject n fs => name_ok n ∧ Forall (λ f, pair_ok f.1 f.2) fs
  end.

(** ** What declarations mean *)
Definition declare_scalar (d : scalar_decl) (st : tables) : res tables :=
  match types.TypeForName (stype d) with
  | None => Err "Invalid type"
  | Some t =>
      let st := set_str (sname d) (TScalar t) st in
      Ok (if sindex d then set_indexed (sname d) st else st)
  end.

Fixpoint declare_all {D} (f : D → tables → res tables) (ds : list D) (st : tables) : res tables :=
  match ds with
  | [] => Ok st
  | d :: ds => st ← f d st; declare_all f ds st
  end.

(** A field of scalar type declares its predicate, unless that has a type, which
    must then be the same. *)
Definition declare_field (f : list byte * list byte) (st : tables) : res tables :=
  match types.TypeForName f.2, str st !! f.1 with
  | None, _ => Ok st
  | Some t, None => Ok (set_str f.1 (TScalar t) st)
  | Some t, Some (TScalar t1) =>
      if bool_decide (types.Name t1 = types.Name t) then Ok st else Err "Same field cant have multiple types"
  | Some t, Some (TObject _ _) => Crash conversion
  end.

Definition repeated : string := "Repeated field %v in object %v".

Fixpoint declare_fields (fs : list (list byte * list byte)) (seen : gmap (list byte) (list byte)) (st : tables) :
    res (gmap (list byte) (list byte) * tables) :=
  match fs with
  | [] => Ok (seen, st)
  | f :: fs =>
      st ← declare_field f st;
      if bool_decide (is_Some (seen !! f.1)) then Err repeated
      else declare_fields fs (<[f.1 := f.2]> seen) st
  end.

Definition declare (d : decl) (st : tables) : res tables :=
  match d with
  | DScalar d => declare_scalar d st
  | DBlock ds => declare_all declare_scalar ds st
  | DObject n fs =>
      ' (fields, st) ← declare_fields fs ∅ st;
      if decide (fields = ∅) then Err "Object type %v with no fields"
      else Ok (set_str n (TObject n fields) st)
  end.

(** ** The loops of the lexer on a known text *)
Lemma suffix_ascii b : isNameSuffix (byte_to_Z b) = true → ascii b.
Proof. unfold isNameSuffix, isNameBegin, ascii. repeat case_match; lia. Qed.

Lemma begin_ascii b : isNameBegin (byte_to_Z b) = true → ascii b.
Proof. unfold isNameBegin, ascii. repeat case_match; lia. Qed.

Lemma absorb_L p t v b rest w its d :
  Forall (λ x, isNameSuffix (byte_to_Z x) = true) v → ascii b → isNameSuffix (byte_to_Z b) = false →
  absorb (L p t (v ++ b :: rest) w its d) = Ok (L p (t ++ v) (b :: rest) 1 its d).
Proof.
  intros Hv Hb Hs. unfold absorb.
  enough (∀ fuel t w, (length v < fuel)%nat →
    for_loop fuel (λ l, ' (r, l) ← Next l; Ok (if isNameSuffix r then Continue l else Return (Backup l)))
      (L p t (v ++ b :: rest) w its d) = Ok (L p (t ++ v) (b :: rest) 1 its d)) as Hl.
  { apply Hl. unfold bound, L. simpl. rewrite !length_app. lia. }
  clear t w. induction Hv as [|x v Hx Hv IH]; intros fuel t w Hf; (destruct fuel as [|fuel]; [simpl in Hf; lia|]); cbn [for_loop].
  - rewrite app_nil_l, Next_L by done. simpl. by rewrite Hs, Backup_L, app_nil_r.
  - rewrite <-app_comm_cons, Next_L by by apply suffix_ascii. simpl. rewrite Hx. rewrite IH by (simpl in Hf; lia).
    by rewrite <-(app_assoc t [x] v).
Qed.

Lemma word_L p t rest w its d : word (L p t rest w its d) = Ok t.
Proof.
  unfold word, L. simpl. rewrite slice_ok by (rewrite !length_app; lia). rewrite !Nat2Z.id, drop_app_length.
  rewrite length_app, Nat.add_sub_swap, Nat.sub_diag by lia. simpl. by rewrite take_app_length.
Qed.

(** [n] rounds of a loop. *)
Definition goes {X R} (body : X → res (flow X R)) (n : nat) (x y : X) : Prop :=
  ∀ m, for_loop (n + m) body x = for_loop m body y.

Lemma goes_0 {X R} (body : X → res (flow X R)) x : goes body 0 x x.
Proof. done. Qed.

Lemma goes_cons {X R} (body : X → res (flow X R)) n x y z :
  body x = Ok (Continue y) → goes body n y z → goes body (S n) x z.
Proof. intros Hb Hg m. simpl. rewrite Hb. simpl. apply Hg. Qed.

(** The end of a loop: a last round that returns. *)
Lemma goes_return {X R} (body : X → res (flow X R)) n fuel x y r :
  goes body n x y → body y = Ok (Return r) → (n < fuel)%nat → for_loop fuel body x = Ok r.
Proof.
  intros Hg Hb Hf. eapply (for_loop_mono (n + 1)); [|lia]. rewrite Hg. simpl. by rewrite Hb.
Qed.

Lemma bound_L p t rest w its d : bound (L p t rest w its d) = S (length p + length t + length rest).
Proof. unfold bound, L. simpl. rewrite !length_app. lia. Qed.

Definition white (b : byte) : Prop := b = x20 ∨ b = nl.

(** A loop that ignores white space, and what was read before it. *)
Lemma goes_white {R} (body : Lexer → res (flow Lexer R)) p u t rest w its d :
  (∀ p u b rest w, white b → body (L p u (b :: rest) w its d) = Ok (Continue (L (p ++ u ++ [b]) [] rest 1 its d))) →
  Forall white t → (t = [] → u = []) →
  ∃ w', goes body (length t) (L p u (t ++ rest) w its d) (L (p ++ u ++ t) [] rest w' its d).
Proof.
  intros Hb Ht. revert p u w. induction Ht as [|x t Hx Ht IH]; intros p u w Hu.
  { rewrite Hu by done. exists w. by rewrite !app_nil_r. }
  destruct (IH (p ++ u ++ [x]) [] 1) as [w' Hg]; [done|]. exists w'. eapply goes_cons; [by apply Hb|].
  by rewrite <-!app_assoc in Hg.
Qed.

Lemma Backup_1 p b rest its d : Backup (L p [b] rest 1 its d) = L p [] (b :: rest) 1 its d.
Proof. apply (Backup_L p []). Qed.

Lemma byte_not_EOF b : (byte_to_Z b =? EOF) = false.
Proof. apply Z.eqb_neq. pose proof (byte_to_Z_range b). unfold EOF. lia. Qed.

(** A round of a loop on white space. *)
#[local] Ltac on_white := intros ? ? ? ? ? [->| ->]; rewrite Next_L by done; simpl; by rewrite Ignore_L.
#[local] Ltac skip_white :=
  lazymatch goal with
  | |- for_loop _ ?f (L ?p ?u (?t ++ ?rest) ?w ?its ?d) = _ =>
      let w' := fresh "w'" in let Hg := fresh "Hg" in
      destruct (goes_white f p u t rest w its d) as [w' Hg]; [on_white|done|done|];
      eapply goes_return; [exact Hg| |rewrite bound_L, !length_app; simpl; lia]; cbv beta
  end.

(** ** State functions *)
Lemma lexText_L p t b rest w its d :
  Forall white t → isNameBegin (byte_to_Z b) = true →
  lexText (L p [] (t ++ b :: rest) w its d) = Ok (Some SStart, L (p ++ t) [] (b :: rest) 1 its d).
Proof.
  intros Ht Hb. unfold lexText, loop.
  skip_white.
  rewrite Next_L by by apply begin_ascii. cbn [mbind res_bind]. rewrite byte_not_EOF, Hb. simpl app. by rewrite Backup_1.
Qed.

Lemma schema_lexText_end p t w its d :
  Forall white t →
  ∃ p', lexText (L p [] t w its d) = Ok (None, L p' [] [] 0 (its ++ [mkItem ItemEOF []]) d).
Proof.
  intros Ht. unfold lexText, loop. exists (p ++ t). rewrite <-(app_nil_r t) at 1 2.
  skip_white.
  rewrite Next_end. simpl. rewrite (proj2 (Z.ltb_ge _ _)) by (rewrite app_nil_r; lia). simpl.
  rewrite Emit_L. simpl. by rewrite app_nil_r.
Qed.

Lemma lexStart_L kw p rest w its d b :
  (kw = bs "scalar" ∨ kw = bs "type") → white b →
  lexStart (L p [] (kw ++ b :: rest) w its d) =
    Ok (Some (if bool_decide (kw = bs "scalar") then SScalar else SObject),
        L (p ++ kw) [] (b :: rest) 1 (its ++ [mkItem (if bool_decide (kw = bs "scalar") then itemScalar else itemType) kw]) d).
Proof.
  intros Hkw Hb. unfold lexStart. rewrite absorb_L.
  - cbn [mbind res_bind]. rewrite word_L. cbn [mbind res_bind].
    destruct Hkw as [->| ->]; simpl; by rewrite Emit_L.
  - destruct Hkw as [->| ->]; apply (bool_decide_unpack _); vm_compute; exact Logic.I.
  - by destruct Hb as [->| ->].
  - by destruct Hb as [->| ->].
Qed.

Lemma lexScalar_name p t b rest w its d :
  Forall white t → isNameBegin (byte_to_Z b) = true →
  lexScalar (L p [] (t ++ b :: rest) w its d) = Ok (Some SScalarPair, L (p ++ t) [] (b :: rest) 1 its d).
Proof.
  intros Ht Hb. unfold lexScalar, loop.
  skip_white.
  rewrite Next_L by by apply begin_ascii. cbn [mbind res_bind]. rewrite Hb. simpl app. by rewrite Backup_1.
Qed.

(** The byte after the bracket is skipped without being looked at. *)
Lemma lexScalar_round p t b rest w its d :
  Forall white t → ascii b →
  lexScalar (L p [] (t ++ x28 :: b :: rest) w its d) =
    Ok (Some SScalarBlock, L (p ++ t ++ [x28]) [b] rest 1 (its ++ [mkItem itemLeftRound [x28]]) d).
Proof.
  intros Ht Hb. unfold lexScalar, loop.
  skip_white.
  rewrite Next_L by done. simpl. rewrite Emit_L. simpl. rewrite Next_L by done. simpl. unfold goto.
  by rewrite <-app_assoc.
Qed.

(** In a block [t] has been read, the skipped byte at its start. *)
Lemma lexScalarBlock_name p u t b rest w its d :
  Forall white t → (t = [] → u = []) → isNameBegin (byte_to_Z b) = true →
  lexScalarBlock (L p u (t ++ b :: rest) w its d) = Ok (Some SScalarPair1, L (p ++ u ++ t) [] (b :: rest) 1 its d).
Proof.
  intros Ht Hu Hb. unfold lexScalarBlock, loop.
  skip_white.
  rewrite Next_L by by apply begin_ascii. cbn [mbind res_bind]. rewrite Hb. simpl app. rewrite Backup_1.
  assert (byte_to_Z b =? rightRound = false) as ->; [|done].
  apply Z.eqb_neq. intros Heq. by rewrite Heq in Hb.
Qed.

Lemma lexScalarBlock_end p u t rest w its d :
  Forall white t → (t = [] → u = []) →
  lexScalarBlock (L p u (t ++ x29 :: rest) w its d) =
    Ok (Some SText, L (p ++ u ++ t ++ [x29]) [] rest 1 (its ++ [mkItem itemRightRound [x29]]) d).
Proof.
  intros Ht Hu. unfold lexScalarBlock, loop.
  skip_white.
  rewrite Next_L by done. simpl. rewrite Emit_L. simpl. unfold goto. by rewrite <-!app_assoc.
Qed.

Lemma lexObject_L p t n b rest w its d :
  Forall white t → name_ok n → white b →
  lexObject (L p [] (t ++ n ++ b :: rest) w its d) =
    Ok (Some SObjectBlock, L (p ++ t ++ n) [] (b :: rest) 1 (its ++ [mkItem itemObject n]) d).
Proof.
  intros Ht [Hn Hs] Hb. unfold lexObject, loop.
  skip_white.
  destruct n as [|c n]; [done|]. apply Forall_cons in Hs as [_ Hs].
  rewrite <-app_comm_cons, Next_L by by apply begin_ascii. cbn [mbind res_bind].
  assert (byte_to_Z c =? rightCurl = false) as ->. { apply Z.eqb_neq. intros Heq. by rewrite Heq in Hn. }
  assert (isSpace (byte_to_Z c) || isEndOfLine (byte_to_Z c) = false) as ->.
  { unfold isSpace, isEndOfLine. unfold isNameBegin in Hn. repeat case_match; try done; lia. }
  rewrite Hn. rewrite absorb_L; [|done|by destruct Hb as [->| ->]|by destruct Hb as [->| ->]].
  simpl. rewrite Emit_L. simpl. unfold goto. by rewrite <-!app_assoc.
Qed.

(** The loop between a name and its type. *)
Lemma to_type_L p b rest w its d :
  isNameBegin (byte_to_Z b) = true →
  to_type (L p [] (bs ": " ++ b :: rest) w its d) =
    Ok (inl (L (p ++ bs ": ") [] (b :: rest) 1 (its ++ [mkItem itemCollon (bs ":")]) d)).
Proof.
  intros Hb. unfold to_type. rewrite bound_L. simpl length. rewrite Nat.add_0_r.
  destruct (length p + _)%nat as [|[|n]] eqn:Hn; [simpl in Hn; lia..|]. clear Hn. simpl app. cbn [for_loop].
  rewrite Next_L by done. simpl. rewrite Emit_L. simpl. rewrite Next_L by done. simpl. rewrite Ignore_L.
  rewrite Next_L by by apply begin_ascii. simpl.
  assert (isSpace (byte_to_Z b) || isEndOfLine (byte_to_Z b) = false) as ->.
  { unfold isSpace, isEndOfLine. unfold isNameBegin in Hb. repeat case_match; try done; lia. }
  assert (byte_to_Z b =? collon = false) as ->. { apply Z.eqb_neq. intros Heq. by rewrite Heq in Hb. }
  rewrite Hb. simpl. rewrite Backup_1. by rewrite <-!app_assoc.
Qed.

Lemma index_mark_none p rest w its d :
  index_mark (L p [] (nl :: rest) w its d) = Ok (inl (false, L p [nl] rest 1 its d)).
Proof. unfold index_mark. rewrite bound_L. cbn [for_loop]. by rewrite Next_L. Qed.

Lemma index_mark_L p rest w its d :
  index_mark (L p [] (bs " @index" ++ nl :: rest) w its d) =
    Ok (inl (true, L (p ++ bs " @index") [] (nl :: rest) 1 (its ++ [mkItem itemAt (bs "@"); mkItem itemIndex (bs "index")]) d)).
Proof.
  unfold index_mark. rewrite bound_L. simpl length. rewrite Nat.add_0_r.
  destruct (length p + _)%nat as [|n] eqn:Hn; [lia|]. clear Hn.
  change (bs " @index" ++ nl :: rest) with (x20 :: x40 :: bs "index" ++ nl :: rest). cbn [for_loop].
  rewrite Next_L by done. simpl. rewrite Ignore_L. rewrite Next_L by done. simpl. rewrite Emit_L. simpl.
  change (x69 :: x6e :: x64 :: x65 :: x78 :: nl :: rest) with (bs "index" ++ nl :: rest).
  rewrite absorb_L; [|by apply (bool_decide_unpack _)|done|done]. simpl.
  rewrite word_L. simpl. rewrite Emit_L. simpl. by rewrite <-!app_assoc.
Qed.

Definition pair_items (tn tt : Z) (n ty : list byte) : list item :=
  [mkItem tn n; mkItem itemCollon (bs ":"); mkItem tt ty].
Definition scalar_items (d : scalar_decl) : list item :=
  pair_items itemScalarName itemScalarType (sname d) (stype d) ++
  if sindex d then [mkItem itemAt (bs "@"); mkItem itemIndex (bs "index")] else [mkItem itemDummy [nl]].

(** The newline after an index mark is left to the next state. *)
Definition left_over (d : scalar_decl) : list byte := if sindex d then [nl] else [].

Lemma scalar_pair_L next p d rest w its dp :
  pair_ok (sname d) (stype d) →
  ∃ p', scalar_pair next (L p [] (print_scalar d ++ rest) w its dp) =
    Ok (Some next, L p' [] (left_over d ++ rest) 1 (its ++ scalar_items d) dp).
Proof.
  destruct d as [n ty idx]. cbn [sname stype]. intros [[Hn Hns] [Ht Hts]]. unfold print_scalar, print_pair, scalar_pair.
  cbn [sname stype sindex]. rewrite <-!app_assoc. change (bs ": " ++ ?x) with (x3a :: x20 :: x).
  rewrite absorb_L by done. cbn [mbind res_bind]. rewrite Emit_L. cbn [mbind res_bind].
  destruct ty as [|b ty]; [done|]. change (x3a :: x20 :: ?x) with (bs ": " ++ x). rewrite <-app_comm_cons, to_type_L by done.
  cbn [mbind res_bind]. rewrite app_comm_cons.
  destruct idx; eexists.
  - change (bs " @index" ++ [nl] ++ rest) with (x20 :: bs "@index" ++ nl :: rest).
    rewrite absorb_L by done.
    cbn [mbind res_bind]. rewrite Emit_L. cbn [mbind res_bind].
    change (x20 :: bs "@index" ++ nl :: rest) with (bs " @index" ++ nl :: rest). rewrite index_mark_L. simpl.
    unfold scalar_items. simpl. by rewrite <-!app_assoc.
  - change ([] ++ [nl] ++ rest) with (nl :: rest). rewrite absorb_L by done. cbn [mbind res_bind]. rewrite Emit_L. cbn [mbind res_bind].
    rewrite index_mark_none. simpl. rewrite Emit_L. simpl. unfold scalar_items. simpl. by rewrite <-!app_assoc.
Qed.

Lemma lexObjectPair_L p b n ty rest w its d :
  name_ok (b :: n) → name_ok ty →
  lexObjectPair (L p [b] (n ++ bs ": " ++ ty ++ nl :: rest) w its d) =
    Ok (Some SObjectBlock, L (p ++ b :: n ++ bs ": " ++ ty) [] (nl :: rest) 1
      (its ++ pair_items itemObjectName itemObjectType (b :: n) ty) d).
Proof.
  intros [_ Hns] [Ht Hts]. apply Forall_cons in Hns as [_ Hns]. unfold lexObjectPair.
  change (bs ": " ++ ?x) with (x3a :: x20 :: x) at 1. rewrite absorb_L by done. cbn [mbind res_bind]. rewrite Emit_L.
  cbn [mbind res_bind]. destruct ty as [|c ty]; [done|]. change (x3a :: x20 :: ?x) with (bs ": " ++ x).
  change ((c :: ty) ++ nl :: rest) with (c :: ty ++ nl :: rest). rewrite to_type_L by done. cbn [mbind res_bind].
  change (c :: ty ++ nl :: rest) with ((c :: ty) ++ nl :: rest). rewrite absorb_L by done. simpl.
  rewrite Emit_L. simpl. unfold pair_items. by rewrite <-!app_assoc.
Qed.

(** Inside an object: up to the next field, or the end of the object. *)
Lemma block_field p b rest w its d :
  isNameBegin (byte_to_Z b) = true →
  block_step (L p [] (b :: rest) w its d) = Ok (Return (Some SObjectPair, L p [b] rest 1 its d)).
Proof.
  intros Hb. unfold block_step. rewrite Next_L by by apply begin_ascii. cbn [mbind res_bind].
  assert (byte_to_Z b =? leftCurl = false) as ->. { apply Z.eqb_neq. intros Heq. by rewrite Heq in Hb. }
  assert (byte_to_Z b =? rightCurl = false) as ->. { apply Z.eqb_neq. intros Heq. by rewrite Heq in Hb. }
  assert (isSpace (byte_to_Z b) || isEndOfLine (byte_to_Z b) = false) as ->.
  { unfold isSpace, isEndOfLine. unfold isNameBegin in Hb. repeat case_match; try done; lia. }
  by rewrite Hb.
Qed.

Lemma block_end p rest w its d :
  block_step (L p [] (x7d :: rest) w its d) =
    Ok (Return (Some SText, L (p ++ [x7d]) [] rest 1 (its ++ [mkItem itemRightCurl [x7d]]) d)).
Proof. unfold block_step. rewrite Next_L by done. simpl. by rewrite Emit_L. Qed.

Lemma block_white p u b rest w its d :
  white b → block_step (L p u (b :: rest) w its d) = Ok (Continue (L (p ++ u ++ [b]) [] rest 1 its d)).
Proof. unfold block_step. intros [->| ->]; rewrite Next_L by done; simpl; by rewrite Ignore_L. Qed.

(** What stands in front of a field: the opening of the object, or the end of
    the line before. *)
Definition lead (first : bool) : list byte := if first then bs " { " else [nl].
Definition lead_items (first : bool) : list item := if first then [mkItem itemLeftCurl (bs "{")] else [].

Lemma lead_goes first p rest w its d :
  ∃ p' n, (n ≤ length (lead first))%nat ∧
    goes block_step n (L p [] (lead first ++ rest) w its d) (L p' [] rest 1 (its ++ lead_items first) d).
Proof.
  destruct first; simpl lead; simpl lead_items.
  - do 2 eexists. split; [|eapply goes_cons; [apply block_white; by left|]; eapply goes_cons;
      [|eapply goes_cons; [apply block_white; by left|apply goes_0]]]; [simpl; lia|].
    unfold block_step. rewrite Next_L by done. simpl. rewrite Emit_L. reflexivity.
  - do 2 eexists. rewrite app_nil_r. split; [|eapply goes_cons; [apply block_white; by right|apply goes_0]]. simpl. lia.
Qed.

Lemma lexObjectBlock_field first p b rest w its d :
  isNameBegin (byte_to_Z b) = true →
  ∃ p', lexObjectBlock (L p [] (lead first ++ b :: rest) w its d) =
    Ok (Some SObjectPair, L p' [b] rest 1 (its ++ lead_items first) d).
Proof.
  intros Hb. destruct (lead_goes first p (b :: rest) w its d) as (p' & n & Hn & Hg). exists p'.
  unfold lexObjectBlock, loop.
  eapply goes_return; [exact Hg|by apply block_field|]. rewrite bound_L, length_app. simpl. lia.
Qed.

Lemma lexObjectBlock_end first p rest w its d :
  ∃ p', lexObjectBlock (L p [] (lead first ++ x7d :: rest) w its d) =
    Ok (Some SText, L p' [] rest 1 (its ++ lead_items first ++ [mkItem itemRightCurl [x7d]]) d).
Proof.
  destruct (lead_goes first p (x7d :: rest) w its d) as (p' & n & Hn & Hg). eexists.
  unfold lexObjectBlock, loop.
  eapply goes_return; [exact Hg|rewrite block_end, <-app_assoc; reflexivity|]. rewrite bound_L, length_app. simpl. lia.
Qed.

(** ** The run on a printed schema *)
(** Some turns of the run loop. *)
Definition reach (s : StateFn) (l : Lexer) (s' : StateFn) (l' : Lexer) : Prop :=
  ∃ k, ∀ fuel, run_loop (k + fuel) exec s l = run_loop fuel exec s' l'.

Lemma reach_refl s l : reach s l s l.
Proof. by exists 0%nat. Qed.

Lemma reach_step s l s1 l1 s' l' : exec s l = Ok (Some s1, l1) → reach s1 l1 s' l' → reach s l s' l'.
Proof. intros He [k Hk]. exists (S k). intros fuel. simpl. rewrite He. simpl. apply Hk. Qed.

Definition decl_items (d : decl) : list item :=
  match d with
  | DScalar d => mkItem itemScalar (bs "scalar") :: scalar_items d
  | DBlock ds =>
      mkItem itemScalar (bs "scalar") :: mkItem itemLeftRound (bs "(") ::
      concat (scalar_items <$> ds) ++ [mkItem itemRightRound (bs ")")]
  | DObject n fs =>
      mkItem itemType (bs "type") :: mkItem itemObject n :: mkItem itemLeftCurl (bs "{") ::
      concat ((λ f : list byte * list byte, pair_items itemObjectName itemObjectType f.1 f.2) <$> fs) ++ [mkItem itemRightCurl (bs "}")]
  end.

Definition white_nl (t : list byte) : Prop := t = [] ∨ t = [nl].

Lemma white_nl_white t : white_nl t → Forall white t.
Proof. intros [->| ->]; [constructor|constructor; [by right|constructor]]. Qed.

Lemma left_over_white d : white_nl (left_over d).
Proof. unfold left_over. case_match; [by right|by left]. Qed.

(** One declaration: from the text state to the text state, with at most a
    newline left over. *)
Definition decl_runs (d : decl) : Prop :=
  ∀ t p rest w its, white_nl t →
  ∃ t' p' w', white_nl t' ∧
    reach SText (L p [] (t ++ print_decl d ++ rest) w its 0) SText (L p' [] (t' ++ rest) w' (its ++ decl_items d) 0).

Lemma scalar_runs d : pair_ok (sname d) (stype d) → decl_runs (DScalar d).
Proof.
  intros Hd t p rest w its Ht. pose proof Hd as [[Hn _] _].
  assert (∃ b n, print_scalar d ++ rest = b :: n ∧ isNameBegin (byte_to_Z b) = true) as (b & n & Hbn & Hb).
  { unfold print_scalar, print_pair. destruct (sname d) as [|b n]; [done|]. by do 2 eexists. }
  destruct (scalar_pair_L SText ((((p ++ t) ++ bs "scalar") ++ [x20])) d rest 1 (its ++ [mkItem itemScalar (bs "scalar")]) 0 Hd) as (p' & Hpair).
  exists (left_over d), p', 1. split; [apply left_over_white|].
  eapply reach_step. { simpl exec. apply (lexText_L _ _ x73); [by apply white_nl_white|done]. }
  eapply reach_step. { simpl exec. change (x73 :: ?x) with (bs "scalar" ++ x20 :: print_scalar d ++ rest). apply lexStart_L; [by left|by left]. }
  eapply reach_step. { simpl exec. change (x20 :: ?x) with ([x20] ++ x). rewrite Hbn. apply lexScalar_name; [repeat constructor; by left|done]. }
  eapply reach_step; [|apply reach_refl]. simpl exec. rewrite <-Hbn. unfold lexScalarPair. rewrite Hpair.
  simpl decl_items. by rewrite <-app_assoc.
Qed.

Lemma reach_trans s l s1 l1 s' l' : reach s l s1 l1 → reach s1 l1 s' l' → reach s l s' l'.
Proof. intros [k Hk] [k' Hk']. exists (k + k')%nat. intros fuel. by rewrite <-Nat.add_assoc, Hk, Hk'. Qed.

(** The scalars of a block, up to the closing bracket. *)
Lemma block_runs ds u t p rest w its :
  Forall (λ d, pair_ok (sname d) (stype d)) ds → Forall white t → (t = [] → u = []) →
  ∃ p' w', reach SScalarBlock (L p u (t ++ concat (print_scalar <$> ds) ++ x29 :: rest) w its 0)
    SText (L p' [] rest w' (its ++ concat (scalar_items <$> ds) ++ [mkItem itemRightRound (bs ")")]) 0).
Proof.
  intros Hds. revert u t p w its. induction Hds as [|d ds Hd Hds IH]; intros u t p w its Ht Hu.
  - do 2 eexists. eapply reach_step; [|apply reach_refl]. simpl. by apply lexScalarBlock_end.
  - pose proof Hd as [[Hn _] _]. rewrite !fmap_cons. cbn [concat]. rewrite <-!app_assoc.
    set (rest' := concat (print_scalar <$> ds) ++ x29 :: rest).
    assert (∃ b n, print_scalar d ++ rest' = b :: n ∧ isNameBegin (byte_to_Z b) = true) as (b & n & Hbn & Hb).
    { unfold print_scalar, print_pair. destruct (sname d) as [|b n]; [done|]. by do 2 eexists. }
    destruct (scalar_pair_L SScalarBlock (p ++ u ++ t) d rest' 1 its 0 Hd) as (p1 & Hpair).
    destruct (IH [] (left_over d) p1 1 (its ++ scalar_items d)) as (p' & w' & Hr);
      [by apply white_nl_white, left_over_white|done|].
    exists p', w'. eapply reach_step. { simpl exec. rewrite Hbn. by apply lexScalarBlock_name. }
    eapply reach_step. { simpl exec. rewrite <-Hbn. exact Hpair. }
    rewrite <-app_assoc in Hr. exact Hr.
Qed.

Lemma DBlock_runs ds : Forall (λ d, pair_ok (sname d) (stype d)) ds → decl_runs (DBlock ds).
Proof.
  intros Hds t p rest w its Ht.
  destruct (block_runs ds [x20] [x20] (((p ++ t) ++ bs "scalar") ++ [x20] ++ [x28]) (nl :: rest) 1
    ((its ++ [mkItem itemScalar (bs "scalar")]) ++ [mkItem itemLeftRound [x28]])) as (p' & w' & Hr);
    [done|repeat constructor; by left|done|].
  exists [nl], p', w'. split; [by right|]. unfold print_decl. rewrite <-!app_assoc.
  eapply reach_step. { simpl exec. apply (lexText_L _ _ x73); [by apply white_nl_white|done]. }
  eapply reach_step. { simpl exec. change (x73 :: x63 :: x61 :: x6c :: x61 :: x72 :: ?x) with (bs "scalar" ++ x). apply lexStart_L; [by left|by left]. }
  eapply reach_step. { simpl exec. change (x20 :: x28 :: ?x) with ([x20] ++ x28 :: x). apply lexScalar_round; [repeat constructor; by left|done]. }
  rewrite <-!app_assoc in Hr. rewrite <-?app_assoc. exact Hr.
Qed.

(** The fields of an object, up to the closing bracket. *)
Lemma fields_run fs first p rest w its :
  Forall (λ f : list byte * list byte, pair_ok f.1 f.2) fs →
  ∃ p' w', reach SObjectBlock
      (L p [] (lead first ++ concat (print_field <$> fs) ++ x7d :: rest) w its 0)
    SText (L p' [] rest w' (its ++ lead_items first ++
      concat ((λ f : list byte * list byte, pair_items itemObjectName itemObjectType f.1 f.2) <$> fs) ++ [mkItem itemRightCurl (bs "}")]) 0).
Proof.
  intros Hfs. revert first p w its. induction Hfs as [|[n ty] fs [Hn Ht] Hfs IH]; intros first p w its.
  - destruct (lexObjectBlock_end first p rest w its 0) as (p' & He). exists p', 1.
    eapply reach_step; [|apply reach_refl]. exact He.
  - simpl in Hn, Ht. rewrite !fmap_cons. cbn [concat]. unfold print_field at 1, print_pair. cbn [fst snd]. rewrite <-!app_assoc.
    set (rest' := concat (print_field <$> fs) ++ x7d :: rest).
    destruct n as [|b n]; [by destruct Hn|].
    destruct (lexObjectBlock_field first p b (n ++ bs ": " ++ ty ++ nl :: rest') w its 0) as (p1 & Hf); [by destruct Hn|].
    destruct (IH false (p1 ++ b :: n ++ bs ": " ++ ty) 1
      ((its ++ lead_items first) ++ pair_items itemObjectName itemObjectType (b :: n) ty)) as (p' & w' & Hr).
    exists p', w'. eapply reach_step; [exact Hf|]. eapply reach_step; [by apply lexObjectPair_L|].
    rewrite <-!app_assoc in Hr. rewrite <-?app_assoc. exact Hr.
Qed.

Lemma DObject_runs n fs : decl_ok (DObject n fs) → decl_runs (DObject n fs).
Proof.
  intros [Hn Hfs] t p rest w its Ht.
  destruct (fields_run fs true (((p ++ t) ++ bs "type") ++ [x20] ++ n) (nl :: rest) 1
    ((its ++ [mkItem itemType (bs "type")]) ++ [mkItem itemObject n])) as (p' & w' & Hr); [done|].
  exists [nl], p', w'. split; [by right|]. unfold print_decl. rewrite <-!app_assoc.
  eapply reach_step. { simpl exec. apply (lexText_L _ _ x74); [by apply white_nl_white|done]. }
  eapply reach_step. { simpl exec. change (x74 :: x79 :: x70 :: x65 :: ?x) with (bs "type" ++ x). apply lexStart_L; [by right|by left]. }
  eapply reach_step. { simpl exec. change (x20 :: ?x) with ([x20] ++ x) at 1. apply lexObject_L; [repeat constructor; by left|done|by left]. }
  rewrite <-!app_assoc in Hr. rewrite <-?app_assoc. exact Hr.
Qed.

Lemma decl_run d : decl_ok d → decl_runs d.
Proof. destruct d; [apply scalar_runs|apply DBlock_runs|apply DObject_runs]. Qed.

Lemma decls_run ds t p w its :
  Forall decl_ok ds → white_nl t →
  ∃ n l, run_loop n exec SText (L p [] (t ++ print ds) w its 0) = Ok l ∧
    Items l = its ++ concat (decl_items <$> ds) ++ [mkItem ItemEOF []].
Proof.
  intros Hds. revert t p w its. induction Hds as [|d ds Hd Hds IH]; intros t p w its Ht.
  - destruct (schema_lexText_end p t w its 0) as (p' & He); [by apply white_nl_white|]. exists 1%nat. eexists.
    unfold print. simpl. rewrite app_nil_r, He. simpl. split; done.
  - unfold print. rewrite !fmap_cons. cbn [concat]. destruct (decl_run d Hd t p (print ds) w its Ht) as (t' & p' & w' & Ht' & k & Hk).
    destruct (IH t' p' w' (its ++ decl_items d) Ht') as (m & l & Hl & Hits). exists (k + m)%nat, l.
    split; [by rewrite Hk|]. by rewrite Hits, <-!app_assoc.
Qed.

Lemma schema_run_print ds : Forall decl_ok ds → run (print ds) = Ok (concat (decl_items <$> ds) ++ [mkItem ItemEOF []]).
Proof.
  intros Hds. destruct (decls_run ds [] [] 0 [] Hds) as (n & l & Hl & Hits); [by left|].
  destruct (schema_safe.schema_run_spec (print ds)) as (its & Hr & _). rewrite Hr. f_equal.
  unfold run, run_lexer in Hr. apply bind_Ok in Hr as (l' & Hl' & Hits'). apply Ok_inj in Hits'. subst its.
  assert (l' = l) as ->; [|done]. apply (run_loop_mono _ (n + (3 * length (print ds) + 3))) in Hl, Hl'; [|lia..].
  change (L [] [] ([] ++ print ds) 0 [] 0) with (Init (print ds)) in Hl. congruence.
Qed.

(** ** The parser on the items *)
(** The outcome of a declaration, with the items after it. *)
Definition with_rest (rest : list item) (m : res tables) : res (list item * tables) := st ← m; Ok (rest, st).

Lemma scalar_decl_items d rest st :
  schema.scalar_decl (sname d) (drop 1 (scalar_items d) ++ rest) st = with_rest rest (declare_scalar d st).
Proof.
  destruct d as [n ty idx]. unfold schema.scalar_decl, declare_scalar, scalar_items, getScalar. simpl.
  destruct (types.TypeForName ty); [|done]. by destruct idx.
Qed.

Lemma block_items ds rest st fuel :
  (length (concat (scalar_items <$> ds)) < fuel)%nat →
  processScalarBlock fuel (concat (scalar_items <$> ds) ++ mkItem itemRightRound (bs ")") :: rest) st =
    with_rest rest (declare_all declare_scalar ds st).
Proof.
  revert st fuel. induction ds as [|d ds IH]; intros st fuel Hf; (destruct fuel as [|fuel]; [lia|]); cbn [processScalarBlock].
  { done. }
  rewrite fmap_cons in *. cbn [concat] in *. rewrite length_app in Hf.
  change (scalar_items d) with (mkItem itemScalarName (sname d) :: drop 1 (scalar_items d)) at 1.
  rewrite <-app_assoc, <-app_comm_cons. simpl Typ. simpl Val. simpl Z.eqb. cbv iota. rewrite scalar_decl_items.
  unfold with_rest. simpl declare_all. destruct (declare_scalar d st) as [st'| |]; [|done..]. simpl.
  rewrite IH; [done|]. assert (1 ≤ length (scalar_items d))%nat by (simpl; lia). lia.
Qed.

Lemma field_decl_items f rest seen st :
  field_decl f.1 (drop 1 (pair_items itemObjectName itemObjectType f.1 f.2) ++ rest) seen st =
    (st ← declare_field f st;
     if bool_decide (is_Some (seen !! f.1)) then Err repeated else Ok (rest, <[f.1 := f.2]> seen, st)).
Proof.
  unfold field_decl, declare_field. simpl. destruct (types.TypeForName f.2) as [t|]; simpl.
  - destruct (str st !! f.1) as [[t1|n g]|]; simpl; [|done|].
    + case_bool_decide; simpl; [|done]. destruct (seen !! f.1) eqn:Hs; [rewrite bool_decide_true by by eexists|rewrite bool_decide_false by by intros []]; done.
    + destruct (seen !! f.1) eqn:Hs; [rewrite bool_decide_true by by eexists|rewrite bool_decide_false by by intros []]; done.
  - destruct (seen !! f.1) eqn:Hs; [rewrite bool_decide_true by by eexists|rewrite bool_decide_false by by intros []]; done.
Qed.

Lemma object_items fs rest seen st fuel :
  (length (concat ((λ f : list byte * list byte, pair_items itemObjectName itemObjectType f.1 f.2) <$> fs)) < fuel)%nat →
  object_fields fuel
    (concat ((λ f : list byte * list byte, pair_items itemObjectName itemObjectType f.1 f.2) <$> fs) ++ mkItem itemRightCurl (bs "}") :: rest)
    seen st =
  (' (seen, st) ← declare_fields fs seen st; Ok (rest, seen, st)).
Proof.
  revert seen st fuel. induction fs as [|f fs IH]; intros seen st fuel Hf; (destruct fuel as [|fuel]; [lia|]); cbn [object_fields].
  { done. }
  rewrite fmap_cons in *. cbn [concat] in *. rewrite length_app in Hf.
  change (pair_items itemObjectName itemObjectType f.1 f.2) with
    (mkItem itemObjectName f.1 :: drop 1 (pair_items itemObjectName itemObjectType f.1 f.2)) at 1.
  rewrite <-app_assoc, <-app_comm_cons. simpl Typ. simpl Val. simpl Z.eqb. cbv iota. rewrite field_decl_items.
  simpl declare_fields. destruct (declare_field f st) as [st'| |]; [|done..]. simpl. case_bool_decide; [done|]. simpl.
  rewrite IH; [done|]. cbn [pair_items length] in Hf. lia.
Qed.

Lemma decl_parsed d rest st fuel :
  parse_items (S fuel) (decl_items d ++ rest) st = (st ← declare d st; parse_items fuel rest st).
Proof.
  destruct d as [d|ds|n fs]; simpl decl_items; rewrite <-app_comm_cons; cbn [parse_items].
  - change (scalar_items d) with (mkItem itemScalarName (sname d) :: drop 1 (scalar_items d)) at 1 2.
    simpl Typ. simpl Z.eqb. cbv iota. rewrite <-app_comm_cons. cbn [processScalar]. simpl Typ. simpl Val. simpl Z.eqb. cbv iota.
    rewrite scalar_decl_items. unfold with_rest. simpl declare. by destruct (declare_scalar d st).
  - simpl Typ. simpl Z.eqb. cbv iota. rewrite <-app_comm_cons, <-app_assoc. cbn [processScalar]. simpl Typ. simpl Z.eqb. cbv iota.
    change ([?i] ++ rest) with (i :: rest). rewrite block_items by (rewrite length_app; simpl; lia). unfold with_rest. simpl declare.
    by destruct (declare_all declare_scalar ds st).
  - simpl Typ. simpl Z.eqb. cbv iota. unfold processObject. rewrite <-!app_comm_cons, <-app_assoc. change ([?i] ++ rest) with (i :: rest).
    cbn [recv Typ Val Z.eqb Pos.eqb negb itemObject itemLeftCurl]. rewrite object_items by (rewrite length_app; simpl; lia). simpl declare.
    destruct (declare_fields fs ∅ st) as [[seen st']| |]; [|done..]. simpl. by case_decide.
Qed.

Lemma decls_parsed ds st fuel :
  (S (length ds) < fuel)%nat →
  parse_items fuel (concat (decl_items <$> ds) ++ [mkItem ItemEOF []]) st = declare_all declare ds st.
Proof.
  revert st fuel. induction ds as [|d ds IH]; intros st fuel Hf.
  - destruct fuel as [|[|fuel]]; [simpl in Hf; lia..|]. done.
  - destruct fuel as [|fuel]; [lia|]. rewrite fmap_cons. cbn [concat]. rewrite <-app_assoc, decl_parsed. simpl declare_all.
    destruct (declare d st) as [st'| |]; [|done..]. simpl. apply IH. simpl in Hf. lia.
Qed.

(** C39: Reading a printed schema does to the tables what its declarations say,
    errors and the one crash included: scalars and blocks of scalars set types and
    index marks, objects declare their scalar fields and themselves; the types of
    the other fields are then resolved. *)
Theorem ParseBytes_print o ds st :
  Forall decl_ok ds →
  ParseBytes o (print ds) st = (st ← declare_all declare ds st; resolve o (keys o (str st)) st).
Proof.
  intros Hds. unfold ParseBytes. rewrite schema_run_print by done. cbn [mbind res_bind]. rewrite decls_parsed; [done|].
  rewrite length_app. simpl. enough (length ds ≤ length (concat (decl_items <$> ds)))%nat by lia. clear.
  induction ds as [|d ds IH]; [done|]. rewrite fmap_cons. cbn [concat]. rewrite length_app. destruct d; simpl; lia.
Qed.

(** A scalar, a block and an object. *)
Definition ex_decls : list decl :=
  [DScalar (mkScalarDecl (bs "age") (bs "int") true);
   DBlock [mkScalarDecl (bs "name") (bs "string") false];
   DObject (bs "Person") [(bs "name", bs "string"); (bs "friend", bs "Person")]].

Definition ex_order : order := mkOrder (λ m, (map_to_list m).*1) map_to_list.

Lemma ParseBytes_print_witness :
  Forall decl_ok ex_decls ∧
  ∃ st, ParseBytes ex_order (print ex_decls) init = Ok st ∧ IsIndexed st (bs "age") = true ∧
    TypeOf st (bs "name") = Some (TScalar types.stringType) ∧
    TypeOf st (bs "friend") = Some (TObject (bs "Person") {[bs "name" := bs "string"; bs "friend" := bs "Person"]}).
Proof.
  assert (Forall decl_ok ex_decls) as Hok.
  { repeat constructor; try (vm_compute; reflexivity); apply (bool_decide_unpack _); vm_compute; exact Logic.I. }
  split; [exact Hok|]. eexists. rewrite (ParseBytes_print ex_order ex_decls init Hok).
  split; [vm_compute; reflexivity|]. split; [|split]; vm_compute; reflexivity.
Defined.

(** A name right after a bracket and a newline: the newline becomes part of it. *)
Lemma block_newline :
  ∃ st, ParseBytes ex_order (bs "scalar (" ++ [nl] ++ bs "age: int" ++ [nl] ++ bs ")" ++ [nl]) init = Ok st ∧
    TypeOf st (bs "age") = None ∧ TypeOf st (nl :: bs "age") = Some (TScalar types.int32Type).
Proof. eexists. split; [vm_compute; reflexivity|]. split; vm_compute; reflexivity. Qed.
End schema_print.
