(* ===== verification/Index.v ===== *)
(** Maintenance of the value index ([posting/index.go]: [indexTokens],
    [addIndexMutations], [AddMutationWithIndex]).

    Committed mutations are applied one after the other, so the operations are
    functions on the state of the process: the store, the posting lists in
    memory, and the token tables. Reference counts, which [Lists] models, play no
    role here: [GetOrCreate] yields the list of a key. *)
From S2P Require Import Prelude Bytes Store Keys Proto PostingPb Task PostingList PostingIter Tokens Types Geo Lex Schema.
From stdpp Require Import options.
#[local] Open Scope Z_scope.
#[local] Set Default Proof Using "Type*".

Module index.
Import posting posting_read.

(** The tokenizer over ICU: the tokens of a text, [None] when the tokenizer
    cannot be created. *)
Class IndexLib `{geo.S2Lib} : Type := {
  tok_Tokens : list byte → option (list (list byte));
}.

(** The fingerprints of [farm]. *)
Class Farm : Type := {
  Fingerprint32 : list byte → Z;
  Fingerprint64 : list byte → Z;
}.

Section tokens_of.
Context `{IndexLib}.

(** [types.DefaultIndexKeys]. *)
Definition DefaultIndexKeys (val : list byte) : list (list byte) := default [] (tok_Tokens val).

Definition indexTokens (sch : schema.tables) (attr : list byte) (p : types.Value) : res (list (list byte)) :=
  match schema.TypeOf sch attr with
  | None => Crash "nil pointer dereference"
  | Some (schema.TObject _ _) => Err "Cannot index attribute %s of type object."
  | Some (schema.TScalar s) =>
      schemaVal ← types.Convert s p;
      match schemaVal with
      | types.VGeo v => geo.IndexTokens v
      | types.VInt32 v => Ok (types.IntIndex v)
      | types.VFloat v => Ok (types.FloatIndex v)
      | types.VDate v => Ok (types.DateIndex v)
      | types.VTime v => Ok (types.TimeIndex v)
      | types.VString v => Ok (DefaultIndexKeys v)
      | _ => Ok []
      end
  end.
End tokens_of.

Section ops.
Context {St : Type} `{KVStore St} `{IndexLib} `{Farm}.
Context (sch : schema.tables) (now : Z).

Record world : Type := mkWorld {
  store : St;
  lists : gmap (list byte) List;
  tables : gmap (list byte) (list (list byte));
  dirtyChan : option (list Z);
}.

(** [GetOrCreate]. *)
Definition GetOrCreate (w : world) (k : list byte) : List :=
  default (init Fingerprint32 Fingerprint64 k getNew) (lists w !! k).

Definition put (k : list byte) (l : List) (ch : option (list Z)) (w : world) : world :=
  mkWorld (store w) (<[k := l]> (lists w)) (tables w) ch.
Definition set_table (attr : list byte) (t : list (list byte)) (w : world) : world :=
  mkWorld (store w) (lists w) (<[attr := t]> (tables w)) (dirtyChan w).

(** A call of [AddMutation] on the list of a key: the outcome, and the world
    after it. *)
Definition mutate_list (k : list byte) (t : DirectedEdge) (op : Z) (w : world) : res (world * (bool + string)) :=
  match AddMutation (store w) (dirtyChan w) now (GetOrCreate w k) t op with
  | Ok (l, _, ch, hasMutated) => Ok (put k l ch w, inl hasMutated)
  | Err e => Ok (put k (GetOrCreate w k) (dirtyChan w) w, inr e)
  | Crash m => Crash m
  end.

(** An error of [AddMutation] is only traced. *)
Definition addIndexMutation (attr token : list byte) (edge : DirectedEdge) (del : bool) (w : world) : res world :=
  let k := index_key.IndexKey attr token in
  if del then
    ' (w, _) ← mutate_list k edge Del w; Ok w
  else
    ' (w, _) ← mutate_list k edge Set_ w;
    Ok (set_table attr (tokens.Add (default [] (tables w !! attr)) token) w).

Fixpoint add_tokens (attr : list byte) (tokens : list (list byte)) (edge : DirectedEdge) (del : bool) (w : world) :
    res world :=
  match tokens with
  | [] => Ok w
  | token :: tokens => w ← addIndexMutation attr token edge del w; add_tokens attr tokens edge del w
  end.

Definition idx : list byte := bs "idx".
Definition index_edge (attr : list byte) (uid : Z) : DirectedEdge := mkEdge 0 attr None 0 uid idx.

Definition addIndexMutations (attr : list byte) (uid : Z) (p : types.Value) (del : bool) (w : world) : res world :=
  assert_true (negb (uid =? 0)) "Assert failed";;
  match indexTokens sch attr p with
  | Err _ => Ok w
  | Crash m => Crash m
  | Ok tokens =>
      assert_true (bool_decide (is_Some (tables w !! attr))) "TokensTable missing for attr %s";;
      add_tokens attr tokens (index_edge attr uid) del w
  end.

(** The two halves of the index update: the terms of the value that was there,
    and those of the new one. An error leaves what was done before it. *)
Definition delete_terms (t : DirectedEdge) (v : option (list byte * Z)) (w : world) : res (world * option string) :=
  match v with
  | Some (delTerm, delType) =>
      if (0 <? length delTerm)%nat then
        match types.UnmarshalBinary delType delTerm with
        | Ok p => w ← addIndexMutations (Attr t) (Entity t) p true w; Ok (w, None)
        | Err e => Ok (w, Some e)
        | Crash m => Crash m
        end
      else Ok (w, None)
  | None => Ok (w, None)
  end.

Definition set_terms (t : DirectedEdge) (op : Z) (w : world) : res (world * option string) :=
  if op =? Set_ then
    match types.UnmarshalBinary (ValueType t mod 256) (value_bytes t) with
    | Ok p => w ← addIndexMutations (Attr t) (Entity t) p false w; Ok (w, None)
    | Err e => Ok (w, Some e)
    | Crash m => Crash m
    end
  else Ok (w, None).

(** [AddMutationWithIndex] on the list of the key [k]. *)
Definition AddMutationWithIndex (k : list byte) (t : DirectedEdge) (op : Z) (w : world) : res (world * option string) :=
  assert_true ((0 <? length (Attr t))%nat && negb (bool_decide (head (Attr t) = Some x3a))) "[%s] [%d] [%v] %d %d";;
  let doUpdateIndex := bool_decide (is_Some (EValue t)) && schema.IsIndexed sch (Attr t) in
  ' (v, w) ← (if doUpdateIndex
               then ' (v, l) ← ValueOf (store w) (GetOrCreate w k); Ok (v, put k l (dirtyChan w) w)
               else Ok (None, w));
  ' (w, o) ← mutate_list k t op w;
  match o with
  | inr e => Ok (w, Some e)
  | inl hasMutated =>
      if negb hasMutated || negb doUpdateIndex then Ok (w, None)
      else
        ' (w, err) ← delete_terms t v w;
        match err with
        | Some e => Ok (w, Some e)
        | None => set_terms t op w
        end
  end.
End ops.

(** ** What the lists of the process denote *)
Arguments world _ : clear implicits.

Section denotation.
Context {St : Type} `{KVStore St} `{Farm}.
Implicit Types (w : world St).

(** The posting list the store holds under a key. *)
Definition stored_list (s : St) (k : list byte) : PostingList :=
  match kv_get s k with
  | Ok [] => emptyPostingList
  | Ok data => match postinglist_pb.Unmarshal data emptyPostingList with Ok pl => pl | _ => emptyPostingList end
  | _ => emptyPostingList
  end.

Lemma stored_stored_list s k ipl : stored s k ipl → ipl = stored_list s k.
Proof.
  intros (data & Hd & Hs). unfold stored_list. rewrite Hd. destruct Hs as [[-> ->]|[Hne Hu]]; [done|].
  destruct data; [done|]. by rewrite Hu.
Qed.

(** The map a key stands for: uids to contents. *)
Definition den (w : world St) (k : list byte) : gmap Z (Z * list byte * list byte) :=
  view_of (stored_list (store w) k) (GetOrCreate w k).

(** Every list, in memory or not, is well formed, and none is being evicted. *)
Definition world_ok (w : world St) : Prop :=
  ∀ k, inv (store w) (GetOrCreate w k) (stored_list (store w) k) ∧ key (GetOrCreate w k) = k ∧
       deleteMe (GetOrCreate w k) ≠ 1.

Lemma GetOrCreate_put w k l ch k' : GetOrCreate (put k l ch w) k' = if decide (k' = k) then l else GetOrCreate w k'.
Proof.
  unfold GetOrCreate, put. simpl. case_decide as Hk; [subst; by rewrite lookup_insert_eq|].
  by rewrite lookup_insert_ne by congruence.
Qed.

Lemma put_ok w k l ch :
  world_ok w → inv (store w) l (stored_list (store w) k) → key l = k → deleteMe l ≠ 1 → world_ok (put k l ch w).
Proof. intros Hw Hi Hk Hd k'. rewrite GetOrCreate_put. simpl. case_decide as Hk'; [by subst|apply Hw]. Qed.

Lemma den_put w k l ch k' :
  den (put k l ch w) k' = if decide (k' = k) then view_of (stored_list (store w) k) l else den w k'.
Proof. unfold den. rewrite GetOrCreate_put. simpl. by case_decide; subst. Qed.

(** [AddMutation] does not touch the eviction mark. *)
Lemma AddMutation_deleteMe s ch now l ipl t op l' t' ch' b :
  inv s l ipl → edge_ok t → op = Set_ ∨ op = Del → ValueId (effective t) ≠ 0 →
  AddMutation s ch now l t op = Ok (l', t', ch', b) → deleteMe l' = deleteMe l.
Proof.
  intros Hinv Hok Hop Hnz. unfold AddMutation, AddMutation_body. case_match; [done|]. fold (effective t).
  rewrite (proj2 (Z.eqb_neq _ _)) by done. rewrite newPosting_effective by apply Hok. simpl mbind.
  destruct (updateMutationLayer_spec s l ipl (post_of t op)) as (l1 & b1 & -> & Hfr & _); [done|by apply post_of_valid|].
  simpl mbind. assert (deleteMe l1 = deleteMe l) as Hd by (by destruct Hfr as [-> | ->]).
  case_match; intros [= <- _ _ _]; done.
Qed.

Lemma mutate_list_spec now w k t op :
  world_ok w → edge_ok t → op = Set_ ∨ op = Del → now ≠ 0 → ValueId (effective t) ≠ 0 →
  ∃ w', mutate_list now k t op w = Ok (w', inl (spec_update (post_of t op) (den w k)).2) ∧
    world_ok w' ∧ tables w' = tables w ∧
    ∀ k', den w' k' = if decide (k' = k) then (spec_update (post_of t op) (den w k)).1 else den w k'.
Proof.
  intros Hw Hok Hop Hnow Hnz. destruct (Hw k) as (Hinv & Hk & Hd). unfold mutate_list.
  destruct (AddMutation_spec (store w) (dirtyChan w) now (GetOrCreate w k) _ t op Hinv Hok Hop Hnow Hd Hnz)
    as (l' & b & Heq & Hinv' & Hk' & Hspec).
  pose proof (AddMutation_deleteMe _ _ _ _ _ _ _ _ _ _ _ Hinv Hok Hop Hnz Heq) as Hd'. rewrite Heq.
  change (abs _ (mlayer (GetOrCreate w k))) with (den w k) in Hspec. rewrite <-Hspec.
  eexists. split; [reflexivity|]. split; [by apply put_ok; [| |congruence|congruence]|]. split; [done|].
  intros k'. rewrite den_put. by case_decide.
Qed.

(** Reading the value changes nothing that is denoted. *)
Lemma value_read w k :
  world_ok w →
  ∃ l, ValueOf (store w) (GetOrCreate w k) =
      Ok (match den w k !! MaxUint64 with Some (vt, val, _) => Some (val, vt mod 256) | None => None end, l) ∧
    world_ok (put k l (dirtyChan w) w) ∧ ∀ k', den (put k l (dirtyChan w) w) k' = den w k'.
Proof.
  intros Hw. destruct (Hw k) as (Hinv & Hk & Hd). eexists. split; [by apply ValueOf_spec|]. split.
  - apply put_ok; [done| |done|done]. destruct Hinv. split; try done. by right.
  - intros k'. rewrite den_put. case_decide; [by subst|done].
Qed.
End denotation.

(** ** Keys *)
(** Predicates whose keys can be told apart. *)
Definition attr_ok (attr : list byte) : Prop :=
  attr ≠ [] ∧ is_ascii attr ∧ posting_key.pipe ∉ attr ∧ index_key.indexRune ∉ attr.

Lemma first_mark a b c d (x y : list byte) :
  attr_ok a → attr_ok b → (c = posting_key.pipe ∨ c = index_key.indexRune) → (d = posting_key.pipe ∨ d = index_key.indexRune) →
  a ++ c :: x = b ++ d :: y → a = b ∧ c = d ∧ x = y.
Proof.
  intros (_ & _ & Ha1 & Ha2) (_ & _ & Hb1 & Hb2) Hc Hd. revert b Hb1 Hb2.
  induction a as [|e a IH]; intros [|f b] Hb1 Hb2; simpl; intros [= -> Heq]; [done|set_solver|set_solver|].
  destruct (IH ltac:(set_solver) ltac:(set_solver) b) as (-> & -> & ->); [set_solver|set_solver|done|done].
Qed.

Lemma Key_IndexKey u a b tok : attr_ok a → attr_ok b → posting_key.Key u a ≠ index_key.IndexKey b tok.
Proof.
  intros Ha Hb. rewrite index_key.IndexKey_app, posting_key.Key_ascii by apply Ha. intros Heq.
  destruct (first_mark a b _ _ _ _ Ha Hb (or_introl eq_refl) (or_intror eq_refl) Heq) as (_ & Hc & _). done.
Qed.

Lemma IndexKey_inj a b tok tok' :
  attr_ok a → attr_ok b → index_key.IndexKey a tok = index_key.IndexKey b tok' → a = b ∧ tok = tok'.
Proof.
  intros Ha Hb. rewrite !index_key.IndexKey_app. intros Heq.
  destruct (first_mark a b _ _ _ _ Ha Hb (or_intror eq_refl) (or_intror eq_refl) Heq) as (? & _ & ?). done.
Qed.

Lemma Key_inj u a v b :
  attr_ok a → attr_ok b → is_u64 u → is_u64 v → posting_key.Key u a = posting_key.Key v b → u = v ∧ a = b.
Proof.
  intros Ha Hb Hu Hv. rewrite !posting_key.Key_ascii by (apply Ha || apply Hb). intros Heq.
  destruct (first_mark a b _ _ _ _ Ha Hb (or_introl eq_refl) (or_introl eq_refl) Heq) as (-> & _ & Hp). split; [|done].
  unfold is_u64, MaxUint64 in *. eapply (be_put_inj 8); [simpl; lia..|done].
Qed.

(** ** The index against the values *)
Section exact.
Context {St : Type} `{KVStore St} `{IndexLib} `{Farm} (sch : schema.tables) (now : Z) (Hnow : now ≠ 0).
Implicit Types (w : world St).

Definition idxc : Z * list byte * list byte := (0, [], idx).

(** The tokens of a stored value, none when it cannot be indexed. *)
Definition value_tokens (attr : list byte) (vt : Z) (val : list byte) : list (list byte) :=
  match types.UnmarshalBinary (vt mod 256) val ≫= indexTokens sch attr with Ok ts => ts | _ => [] end.

Definition tokens_at (w : world St) (attr : list byte) (u : Z) : list (list byte) :=
  match den w (posting_key.Key u attr) !! MaxUint64 with
  | Some (vt, val, _) => if bool_decide (val = []) then [] else value_tokens attr vt val
  | None => []
  end.

(** A value that can be read back, and that the index functions accept or
    reject but do not die on. *)
Definition indexable (attr : list byte) (vt : Z) (val : list byte) : Prop :=
  ∃ v, types.UnmarshalBinary (vt mod 256) val = Ok v ∧ ∀ m, indexTokens sch attr v ≠ Crash m.

(** The index of [attr] is exact: the list of a token has the uids whose value
    has the token, and the table has every token in use. *)
Record index_ok (w : world St) (attr : list byte) : Prop := {
  io_table : ∃ t, tables w !! attr = Some t ∧ tokens.sorted t ∧
    ∀ tok u, is_Some (den w (index_key.IndexKey attr tok) !! u) → tok ∈ t;
  io_values u vt val lab :
    is_u64 u → den w (posting_key.Key u attr) !! MaxUint64 = Some (vt, val, lab) → val ≠ [] → indexable attr vt val;
  io_exact tok u :
    is_u64 u → u ≠ 0 →
    den w (index_key.IndexKey attr tok) !! u = if decide (tok ∈ tokens_at w attr u) then Some idxc else None;
}.

Lemma index_edge_ok attr uid : is_u64 uid → edge_ok (index_edge attr uid).
Proof. intros Hu. split; [done|]. simpl. change (2 ^ 32) with 4294967296. change (2 ^ 63) with 9223372036854775808. lia. Qed.

(** One token set or deleted for a uid. *)
Lemma addIndexMutation_spec attr tok uid del w :
  world_ok w → is_u64 uid → uid ≠ 0 →
  (del = true → den w (index_key.IndexKey attr tok) !! uid = Some idxc ∨ den w (index_key.IndexKey attr tok) !! uid = None) →
  ∃ w', addIndexMutation now attr tok (index_edge attr uid) del w = Ok w' ∧ world_ok w' ∧
    (∀ k u, den w' k !! u =
      if decide (k = index_key.IndexKey attr tok ∧ u = uid) then if del then None else Some idxc else den w k !! u) ∧
    tables w' = if del then tables w else <[attr := tokens.Add (default [] (tables w !! attr)) tok]> (tables w).
Proof.
  intros Hw Hu Hnz Hdel. unfold addIndexMutation. set (k0 := index_key.IndexKey attr tok) in *.
  destruct del.
  - destruct (mutate_list_spec now w k0 (index_edge attr uid) Del) as (w' & -> & Hw' & Ht & Hden);
      [done|by apply index_edge_ok|by right|done|done|].
    exists w'. split_and!; [done|done| |done]. intros k u. rewrite Hden.
    unfold spec_update. simpl. case_decide as Hk; [subst k|by rewrite decide_False by naive_solver].
    destruct (Hdel eq_refl) as [Hc|Hc]; rewrite Hc; [rewrite bool_decide_true by done|rewrite bool_decide_false by done]; simpl.
    + destruct (decide (u = uid)) as [->|]; [by rewrite lookup_delete_eq, decide_True|].
      rewrite lookup_delete_ne by done. by rewrite decide_False by naive_solver.
    + case_decide as Hku; [|done]. by destruct Hku as [_ ->].
  - destruct (mutate_list_spec now w k0 (index_edge attr uid) Set_) as (w' & -> & Hw' & Ht & Hden);
      [done|by apply index_edge_ok|by left|done|done|].
    eexists. split; [reflexivity|]. split; [done|]. split; [|simpl; by rewrite Ht]. intros k u.
    change (den (set_table _ _ w') k) with (den w' k). rewrite Hden. unfold spec_update. simpl.
    case_decide as Hk; [subst k|by rewrite decide_False by naive_solver].
    destruct (decide (u = uid)) as [->|].
    + rewrite decide_True by done. case_bool_decide as Hs; simpl; [done|]. by rewrite lookup_insert_eq.
    + rewrite decide_False by naive_solver. case_bool_decide; simpl; [done|]. by rewrite lookup_insert_ne.
Qed.

(** What a list of tokens does to the lists and the table. *)
Definition index_effect (attr : list byte) (toks : list (list byte)) (uid : Z) (del : bool) (w w' : world St) : Prop :=
  world_ok w' ∧
  (∀ k u, den w' k !! u =
    if decide (u = uid ∧ k ∈ index_key.IndexKey attr <$> toks) then if del then None else Some idxc else den w k !! u) ∧
  (∀ a, a ≠ attr → tables w' !! a = tables w !! a) ∧
  ∀ t, tables w !! attr = Some t → tokens.sorted t →
    ∃ t', tables w' !! attr = Some t' ∧ tokens.sorted t' ∧ ∀ x, x ∈ t' ↔ x ∈ t ∨ (del = false ∧ x ∈ toks).

Lemma index_effect_nil attr uid del w : world_ok w → index_effect attr [] uid del w w.
Proof.
  intros Hw. split_and!; [done| |done|].
  - intros k u. rewrite decide_False; [done|]. intros [_ Hk]. by apply elem_of_nil in Hk.
  - intros t Ht Hs. exists t. split_and!; [done|done|]. intros x. rewrite elem_of_nil. tauto.
Qed.

Lemma add_tokens_spec attr toks uid del w t :
  world_ok w → attr_ok attr → is_u64 uid → uid ≠ 0 → tables w !! attr = Some t → tokens.sorted t →
  (del = true → ∀ tok, den w (index_key.IndexKey attr tok) !! uid = Some idxc ∨ den w (index_key.IndexKey attr tok) !! uid = None) →
  ∃ w', add_tokens now attr toks (index_edge attr uid) del w = Ok w' ∧ index_effect attr toks uid del w w'.
Proof.
  intros Hw Ha Hu Hnz. revert w t Hw. induction toks as [|tok toks IH]; intros w t Hw Ht Hs Hdel; cbn [add_tokens].
  { exists w. split; [done|]. by apply index_effect_nil. }
  destruct (addIndexMutation_spec attr tok uid del w) as (w1 & -> & Hw1 & Hden1 & Ht1); [done|done|done|by intros ->; apply Hdel|].
  cbn [mbind res_bind].
  assert (∃ t1, tables w1 !! attr = Some t1 ∧ tokens.sorted t1 ∧ ∀ x, x ∈ t1 ↔ x ∈ t ∨ (del = false ∧ x = tok))
    as (t1 & Hta & Hs1 & Hx1).
  { rewrite Ht1. destruct del; [exists t; split_and!; [done|done|naive_solver]|].
    rewrite Ht. simpl. rewrite lookup_insert_eq. destruct (tokens.Add_spec t tok Hs) as [Hs' Hx].
    eexists. split_and!; [done|done|]. intros x. rewrite Hx. naive_solver. }
  destruct (IH w1 t1 Hw1 Hta Hs1) as (w' & -> & Hw' & Hden & Hto & Htab).
  { intros -> tok'. rewrite Hden1. case_decide; [by right|by apply Hdel]. }
  exists w'. split; [done|]. split_and!; [done| | |].
  - intros k u. rewrite Hden, Hden1, fmap_cons. repeat case_decide; try done; set_solver.
  - intros a Hne. rewrite Hto by done. rewrite Ht1. destruct del; [done|]. by rewrite lookup_insert_ne by congruence.
  - intros t0 Ht0 _. replace t0 with t by congruence. destruct (Htab t1 Hta Hs1) as (t' & ? & ? & Hx).
    exists t'. split_and!; [done|done|]. intros x. rewrite Hx, Hx1, elem_of_cons. naive_solver.
Qed.

Lemma addIndexMutations_spec attr v uid del w t :
  world_ok w → attr_ok attr → is_u64 uid → uid ≠ 0 → tables w !! attr = Some t → tokens.sorted t →
  (del = true → ∀ tok, den w (index_key.IndexKey attr tok) !! uid = Some idxc ∨ den w (index_key.IndexKey attr tok) !! uid = None) →
  (∀ m, indexTokens sch attr v ≠ Crash m) →
  ∃ w', addIndexMutations sch now attr uid v del w = Ok w' ∧
    index_effect attr (match indexTokens sch attr v with Ok ts => ts | _ => [] end) uid del w w'.
Proof.
  intros Hw Ha Hu Hnz Ht Hs Hdel Hv. unfold addIndexMutations. rewrite (proj2 (Z.eqb_neq _ _)) by done. simpl.
  destruct (indexTokens sch attr v) as [ts|e|m] eqn:Hts; [| |by destruct (Hv m)].
  - rewrite bool_decide_true by by eexists. simpl. by eapply add_tokens_spec.
  - exists w. split; [done|]. by apply index_effect_nil.
Qed.

(** Only the index entries of [attr] for [uid] may differ. *)
Definition apart (attr : list byte) (uid : Z) (w w' : world St) : Prop :=
  (∀ k u, (∀ tok, k ≠ index_key.IndexKey attr tok) ∨ u ≠ uid → den w' k !! u = den w k !! u) ∧
  ∀ a, a ≠ attr → tables w' !! a = tables w !! a.

Definition table_has (w : world St) (attr : list byte) (P : list byte → Prop) : Prop :=
  ∃ t, tables w !! attr = Some t ∧ tokens.sorted t ∧ ∀ x, P x → x ∈ t.

Lemma index_effect_apart attr toks uid del w w' : index_effect attr toks uid del w w' → apart attr uid w w'.
Proof.
  intros (_ & Hden & Hto & _). split; [|done]. intros k u Hku. rewrite Hden. rewrite decide_False; [done|].
  intros [-> Hk]. apply list_elem_of_fmap in Hk as (tok & -> & _). naive_solver.
Qed.

(** The terms of an old value. *)
Definition old_tokens (attr : list byte) (v : option (list byte * Z)) : list (list byte) :=
  match v with
  | Some (val, ty) =>
      if bool_decide (val = []) then []
      else match types.UnmarshalBinary ty val ≫= indexTokens sch attr with Ok ts => ts | _ => [] end
  | None => []
  end.

Lemma delete_terms_spec t v w P :
  world_ok w → attr_ok (Attr t) → is_u64 (Entity t) → Entity t ≠ 0 → table_has w (Attr t) P →
  (∀ tok, den w (index_key.IndexKey (Attr t) tok) !! Entity t = if decide (tok ∈ old_tokens (Attr t) v) then Some idxc else None) →
  (∀ val ty, v = Some (val, ty) → val ≠ [] →
    ∃ p, types.UnmarshalBinary ty val = Ok p ∧ ∀ m, indexTokens sch (Attr t) p ≠ Crash m) →
  ∃ w', delete_terms sch now t v w = Ok (w', None) ∧ world_ok w' ∧ apart (Attr t) (Entity t) w w' ∧ table_has w' (Attr t) P ∧
    ∀ tok, den w' (index_key.IndexKey (Attr t) tok) !! Entity t = None.
Proof.
  intros Hw Ha Hu Hnz (tab & Ht & Hs & HP) Hold Hv. unfold delete_terms.
  assert (old_tokens (Attr t) v = [] → ∃ w', Ok (w, None) = Ok (w', @None string) ∧ world_ok w' ∧ apart (Attr t) (Entity t) w w' ∧ table_has w' (Attr t) P ∧
    ∀ tok, den w' (index_key.IndexKey (Attr t) tok) !! Entity t = None) as Hnone.
  { intros Hnil. exists w. split_and!; [done|done|done|by exists tab|]. intros tok. rewrite Hold, Hnil.
    rewrite decide_False; [done|]. apply not_elem_of_nil. }
  destruct v as [[val ty]|]; [|by apply Hnone]. destruct val as [|b val]; [by apply Hnone|].
  destruct (Hv _ _ eq_refl) as (p & Hp & Hc); [done|]. simpl Nat.ltb. cbv iota. rewrite Hp. clear Hnone.
  simpl old_tokens in Hold. rewrite Hp in Hold. cbn [mbind res_bind] in Hold.
  destruct (addIndexMutations_spec (Attr t) p (Entity t) true w tab) as (w' & -> & Heff); try done.
  { intros _ tok. rewrite Hold. case_decide; [by left|by right]. }
  exists w'. pose proof (index_effect_apart _ _ _ _ _ _ Heff) as Hap. destruct Heff as (Hw' & Hden & _ & Htab).
  split_and!; [done|done|done| |].
  - destruct (Htab tab Ht Hs) as (t' & ? & ? & Hx). exists t'. split_and!; [done|done|]. intros x Hx'. apply Hx. left. by apply HP.
  - intros tok. rewrite Hden. case_decide as Hd; [done|]. rewrite Hold. rewrite decide_False; [done|].
    intros Hin. apply Hd. split; [done|]. by apply list_elem_of_fmap_2.
Qed.

Lemma set_terms_spec t op w P :
  world_ok w → attr_ok (Attr t) → is_u64 (Entity t) → Entity t ≠ 0 → table_has w (Attr t) P →
  (∀ tok, den w (index_key.IndexKey (Attr t) tok) !! Entity t = None) →
  indexable (Attr t) (ValueType t) (value_bytes t) →
  let new := if op =? Set_ then value_tokens (Attr t) (ValueType t) (value_bytes t) else [] in
  ∃ w', set_terms sch now t op w = Ok (w', None) ∧ world_ok w' ∧ apart (Attr t) (Entity t) w w' ∧
    table_has w' (Attr t) (λ x, P x ∨ x ∈ new) ∧
    ∀ tok, den w' (index_key.IndexKey (Attr t) tok) !! Entity t = if decide (tok ∈ new) then Some idxc else None.
Proof.
  intros Hw Ha Hu Hnz (tab & Ht & Hs & HP) Hnone (p & Hp & Hc). unfold set_terms. destruct (op =? Set_); cbv zeta.
  - rewrite Hp. unfold value_tokens. rewrite Hp. cbn [mbind res_bind].
    destruct (addIndexMutations_spec (Attr t) p (Entity t) false w tab) as (w' & -> & Heff); try done.
    exists w'. pose proof (index_effect_apart _ _ _ _ _ _ Heff) as Hap. destruct Heff as (Hw' & Hden & _ & Htab).
    split_and!; [done|done|done| |].
    + destruct (Htab tab Ht Hs) as (t' & ? & ? & Hx). exists t'. split_and!; [done|done|]. intros x Hx'. apply Hx.
      destruct Hx'; [left; by apply HP|by right].
    + intros tok. rewrite Hden, Hnone. repeat case_decide; try done; [|set_solver].
      match goal with H : _ ∧ _ |- _ => destruct H as [_ (tok' & [_ ->]%IndexKey_inj & ?)%list_elem_of_fmap] end; done.
  - exists w. split_and!; [done|done|done| |].
    + exists tab. split_and!; [done|done|]. intros x [?|Hx]; [by apply HP|]. by apply elem_of_nil in Hx.
    + intros tok. rewrite Hnone, decide_False; [done|]. apply not_elem_of_nil.
Qed.

(** The index of an attribute that is not touched. *)
Lemma index_ok_frame a w w' :
  index_ok w a →
  (∀ u, is_u64 u → den w' (posting_key.Key u a) !! MaxUint64 = den w (posting_key.Key u a) !! MaxUint64) →
  (∀ tok u, den w' (index_key.IndexKey a tok) !! u = den w (index_key.IndexKey a tok) !! u) →
  tables w' !! a = tables w !! a → index_ok w' a.
Proof.
  intros [(t & Ht & Hs & Htok) Hval Hex] Hk Hi Htab. split.
  - exists t. split_and!; [congruence|done|]. intros tok u. rewrite Hi. apply Htok.
  - intros u vt val lab Hu. rewrite Hk by done. by apply Hval.
  - intros tok u Hu Hnz. rewrite Hi, Hex by done. unfold tokens_at. by rewrite Hk.
Qed.

(** Edges the front end produces: a value edge has a value that can be read
    back, a uid edge a target other than 0 and the uid reserved for values. *)
Definition edge_valid (t : DirectedEdge) : Prop :=
  attr_ok (Attr t) ∧ is_u64 (Entity t) ∧ Entity t ≠ 0 ∧ edge_ok t ∧
  match EValue t with
  | Some val => val ≠ [] ∧ (schema.IsIndexed sch (Attr t) = true → indexable (Attr t) (ValueType t) val)
  | None => ValueId t ≠ 0 ∧ ValueId t ≠ MaxUint64
  end.

Definition all_exact (w : world St) : Prop :=
  ∀ a, attr_ok a → schema.IsIndexed sch a = true → index_ok w a.

Lemma edge_valid_target t : edge_valid t → ValueId (effective t) ≠ 0.
Proof.
  intros (_ & _ & _ & _ & Hv). unfold effective, value_bytes. destruct (EValue t) as [val|]; simpl.
  - destruct Hv as [Hne _]. by rewrite bool_decide_false.
  - by destruct Hv.
Qed.

Lemma edge_valid_assert t : edge_valid t → (0 <? length (Attr t))%nat && negb (bool_decide (head (Attr t) = Some x3a)) = true.
Proof.
  intros ((Hne & _ & _ & Hc) & _). destruct (Attr t) as [|b a]; [done|]. simpl.
  rewrite bool_decide_false; [done|]. intros [= ->]. apply Hc, list_elem_of_here.
Qed.

(** The outcome of one mutation. *)
Definition mutated (t : DirectedEdge) (op : Z) (w w' : world St) : Prop :=
  world_ok w' ∧ all_exact w' ∧
  den w' (posting_key.Key (Entity t) (Attr t)) =
    (spec_update (post_of t op) (den w (posting_key.Key (Entity t) (Attr t)))).1 ∧
  ∀ k, k ≠ posting_key.Key (Entity t) (Attr t) → (∀ tok, k ≠ index_key.IndexKey (Attr t) tok) → den w' k = den w k.

(** A mutation that does not concern the index. *)
Lemma plain_mutation t op w w' :
  all_exact w → attr_ok (Attr t) → is_u64 (Entity t) → world_ok w' → tables w' = tables w →
  (∀ k, den w' k = if decide (k = posting_key.Key (Entity t) (Attr t))
                   then (spec_update (post_of t op) (den w (posting_key.Key (Entity t) (Attr t)))).1 else den w k) →
  ((spec_update (post_of t op) (den w (posting_key.Key (Entity t) (Attr t)))).2 = false ∨
   schema.IsIndexed sch (Attr t) = false ∨ Uid (post_of t op) ≠ MaxUint64) →
  mutated t op w w'.
Proof.
  intros Hex Ha Hu Hw' Ht Hden Hcase. split_and!; [done| |by rewrite Hden, decide_True|].
  - intros a Haa Hi. apply (index_ok_frame a w w'); [by apply Hex| | |by rewrite Ht].
    + intros u Hu'. rewrite Hden. case_decide as Hk; [|done]. apply Key_inj in Hk as [-> ->]; [|done..].
      unfold spec_update in *. destruct Hcase as [Hc|[Hc|Hc]]; [|congruence|].
      * repeat case_match; simpl in *; done.
      * repeat case_match; simpl; [done|by rewrite lookup_insert_ne|by rewrite lookup_delete_ne|done].
    + intros tok u. rewrite Hden. case_decide as Hk; [|done]. symmetry in Hk. by apply Key_IndexKey in Hk.
  - intros k Hk _. by rewrite Hden, decide_False.
Qed.

Notation ekey t := (posting_key.Key (Entity t) (Attr t)).
Notation updated t op w := (spec_update (post_of t op) (den w (ekey t))).

(** The value posting of a list after a mutation that changed it. *)
Definition new_tokens (t : DirectedEdge) (op : Z) : list (list byte) :=
  if op =? Set_ then value_tokens (Attr t) (ValueType t) (value_bytes t) else [].

Lemma value_updated t op m :
  value_bytes t ≠ [] → op = Set_ ∨ op = Del → (spec_update (post_of t op) m).2 = true →
  (spec_update (post_of t op) m).1 !! MaxUint64 =
    if op =? Set_ then Some (ValueType t, value_bytes t, ELabel t) else None.
Proof.
  intros Hv Hop. unfold spec_update, post_of, effective. rewrite bool_decide_false by done. simpl.
  destruct Hop as [-> | ->]; simpl; case_bool_decide; simpl; intros Hc; try done.
  - by rewrite lookup_insert_eq.
  - by rewrite lookup_delete_eq.
Qed.

Lemma updated_tokens t op w w' :
  value_bytes t ≠ [] → op = Set_ ∨ op = Del → (updated t op w).2 = true →
  den w' (ekey t) !! MaxUint64 = (updated t op w).1 !! MaxUint64 → tokens_at w' (Attr t) (Entity t) = new_tokens t op.
Proof.
  intros Hv Hop Hch Hden. unfold tokens_at, new_tokens. rewrite Hden, value_updated by done.
  destruct (op =? Set_); [|done]. by rewrite bool_decide_false.
Qed.

(** After the values and then the index of [Attr t] changed for [Entity t]. *)
Lemma index_ok_update t op w w' :
  index_ok w (Attr t) → attr_ok (Attr t) → is_u64 (Entity t) → value_bytes t ≠ [] →
  indexable (Attr t) (ValueType t) (value_bytes t) → op = Set_ ∨ op = Del → (updated t op w).2 = true →
  (∀ u, is_u64 u → den w' (posting_key.Key u (Attr t)) = if decide (u = Entity t) then (updated t op w).1 else den w (posting_key.Key u (Attr t))) →
  (∀ tok u, u ≠ Entity t → den w' (index_key.IndexKey (Attr t) tok) !! u = den w (index_key.IndexKey (Attr t) tok) !! u) →
  (∀ tok, den w' (index_key.IndexKey (Attr t) tok) !! Entity t = if decide (tok ∈ new_tokens t op) then Some idxc else None) →
  table_has w' (Attr t) (λ x, (∃ u, is_Some (den w (index_key.IndexKey (Attr t) x) !! u)) ∨ x ∈ new_tokens t op) →
  index_ok w' (Attr t).
Proof.
  intros [_ Hval Hex] Ha Hu Hv Hix Hop Hch Hk Hi Hnew (tab & Ht & Hs & Htok). split.
  - exists tab. split_and!; [done|done|]. intros tok u Hin. apply Htok. destruct (decide (u = Entity t)) as [->|].
    + rewrite Hnew in Hin. case_decide; [by right|]. by destruct Hin.
    + left. exists u. by rewrite <-Hi.
  - intros u vt val lab Hu'. rewrite Hk by done. case_decide as Hue; [|by apply Hval].
    rewrite value_updated by done. destruct (op =? Set_); [|done]. by intros [= <- <- <-].
  - intros tok u Hu' Hnz. destruct (decide (u = Entity t)) as [->|Hne].
    + rewrite Hnew. rewrite (updated_tokens t op w w'); [done..|]. by rewrite Hk, decide_True.
    + rewrite Hi, Hex by done. unfold tokens_at. rewrite Hk by done. by rewrite (decide_False (P := u = _)).
Qed.

(** Worlds in which every key denotes the same. *)
Definition same_den (w w' : world St) : Prop := tables w' = tables w ∧ ∀ k, den w' k = den w k.

Lemma all_exact_same w w' : same_den w w' → all_exact w → all_exact w'.
Proof.
  intros [Ht Hd] Hex a Ha Hi. apply (index_ok_frame a w); [by apply Hex| | |by rewrite Ht]; intros; by rewrite Hd.
Qed.

Lemma mutated_same t op w0 w w' : same_den w0 w → mutated t op w w' → mutated t op w0 w'.
Proof. intros [_ Hd] (Hw & Hex & Hk & Hfr). split_and!; [done|done|by rewrite <-Hd|]. intros k Hk1 Hk2. by rewrite Hfr, Hd. Qed.

(** The value [AddMutationWithIndex] has read before it mutates the list. *)
Definition old_value (w : world St) (t : DirectedEdge) : option (list byte * Z) :=
  match den w (ekey t) !! MaxUint64 with Some (vt, val, _) => Some (val, vt mod 256) | None => None end.

Lemma old_value_tokens w t : old_tokens (Attr t) (old_value w t) = tokens_at w (Attr t) (Entity t).
Proof. unfold old_tokens, old_value, tokens_at. by destruct (den w (ekey t) !! MaxUint64) as [[[vt val] lab]|]. Qed.

(** The index update of a value that changed: the old terms, then the new. *)
Lemma update_index t op w w1 :
  edge_valid t → EValue t ≠ None → schema.IsIndexed sch (Attr t) = true → op = Set_ ∨ op = Del →
  all_exact w → world_ok w1 → tables w1 = tables w → (updated t op w).2 = true →
  (∀ k, den w1 k = if decide (k = ekey t) then (updated t op w).1 else den w k) →
  ∃ w2 w3, delete_terms sch now t (old_value w t) w1 = Ok (w2, None) ∧ set_terms sch now t op w2 = Ok (w3, None) ∧ mutated t op w w3.
Proof.
  intros (Ha & Hu & Hnz & Hok & Hv) HvN Hi Hop Hex Hw1 Ht1 Hch Hd1. pose proof (Hex _ Ha Hi) as Hia.
  assert (value_bytes t ≠ [] ∧ indexable (Attr t) (ValueType t) (value_bytes t)) as [Hvb Hix].
  { unfold value_bytes. destruct (EValue t); [|done]. naive_solver. }
  assert (∀ tok u, den w1 (index_key.IndexKey (Attr t) tok) !! u = den w (index_key.IndexKey (Attr t) tok) !! u) as Hi1.
  { intros tok u. rewrite Hd1, decide_False; [done|]. intros Hk. symmetry in Hk. by apply Key_IndexKey in Hk. }
  destruct (delete_terms_spec t (old_value w t) w1 (λ x, ∃ u, is_Some (den w (index_key.IndexKey (Attr t) x) !! u)))
    as (w2 & Hdel & Hw2 & Hap2 & Htab2 & Hnone); [done|done|done|done| | | |].
  { destruct Hia as [(tab & Htab & Hs & Htok) _ _]. exists tab. split_and!; [congruence|done|]. intros x [u Hx]. by eapply Htok. }
  { intros tok. rewrite Hi1, old_value_tokens. by apply Hia. }
  { intros val ty. unfold old_value. destruct (den w _ !! _) as [[[vt val'] lab]|] eqn:Hold; [|done]. intros [= <- <-] Hne.
    by eapply (io_values _ _ Hia). }
  destruct (set_terms_spec t op w2 _ Hw2 Ha Hu Hnz Htab2 Hnone Hix) as (w3 & Hset & Hw3 & Hap3 & Htab3 & Hnew).
  exists w2, w3. split_and!; [done|done|].
  assert (∀ k u, (∀ tok, k ≠ index_key.IndexKey (Attr t) tok) ∨ u ≠ Entity t → den w3 k !! u = den w1 k !! u) as Hd3.
  { intros k u Hku. destruct Hap2 as [Hap2 _], Hap3 as [Hap3 _]. by rewrite Hap3, Hap2. }
  assert (∀ k, (∀ tok, k ≠ index_key.IndexKey (Attr t) tok) → den w3 k = den w1 k) as Hd3'.
  { intros k Hk. apply map_eq. intros u. apply Hd3. by left. }
  split_and!; [done| | |].
  - intros a Haa Hia'. destruct (decide (a = Attr t)) as [->|Hne].
    + apply (index_ok_update t op w w3); try done.
      * intros u Hu'. rewrite Hd3' by (intros tok; by apply Key_IndexKey). rewrite Hd1.
        destruct (decide (u = Entity t)) as [->|Hne]; [by rewrite decide_True|]. rewrite decide_False; [done|].
        by intros [? _]%Key_inj.
      * intros tok u Hne. by rewrite Hd3, Hi1 by by right.
    + apply (index_ok_frame a w w3); [by apply Hex| | |].
      * intros u Hu'. rewrite Hd3' by (intros tok; by apply Key_IndexKey). rewrite Hd1, decide_False; [done|]. by intros [_ ?]%Key_inj.
      * intros tok u. rewrite Hd3' by (intros tok' [? _]%IndexKey_inj; done). rewrite Hd1, decide_False; [done|].
        intros Hk. symmetry in Hk. by apply Key_IndexKey in Hk.
      * destruct Hap2 as [_ Hap2], Hap3 as [_ Hap3]. rewrite Hap3, Hap2 by done. by rewrite Ht1.
  - rewrite Hd3' by (intros tok; by apply Key_IndexKey). by rewrite Hd1, decide_True.
  - intros k Hk Hktok. by rewrite Hd3', Hd1, decide_False.
Qed.

Lemma AddMutationWithIndex_spec t op w :
  world_ok w → all_exact w → edge_valid t → op = Set_ ∨ op = Del →
  ∃ w', AddMutationWithIndex sch now (ekey t) t op w = Ok (w', None) ∧ mutated t op w w'.
Proof.
  intros Hw Hex Hv Hop. unfold AddMutationWithIndex. rewrite edge_valid_assert by done. simpl assert_true. cbn [mbind res_bind].
  pose proof (edge_valid_target t Hv) as Htgt. pose proof Hv as (Ha & Hu & Hnz & Hok & Hvv).
  destruct (bool_decide (is_Some (EValue t)) && schema.IsIndexed sch (Attr t)) eqn:Hdo.
  - apply andb_prop in Hdo as [HvN%bool_decide_eq_true Hi].
    destruct (value_read w (ekey t) Hw) as (l & -> & Hw0 & Hd0). cbn [mbind res_bind].
    set (w0 := put (ekey t) l (dirtyChan w) w) in *. assert (same_den w w0) as Hsame by done.
    destruct (mutate_list_spec now w0 (ekey t) t op) as (w1 & -> & Hw1 & Ht1 & Hd1); [done..|]. cbn [mbind res_bind].
    apply (all_exact_same w w0 Hsame) in Hex. fold (old_value w t).
    assert (old_value w t = old_value w0 t) as -> by (unfold old_value; by rewrite Hd0).
    destruct (updated t op w0).2 eqn:Hch; cbn [negb orb].
    + destruct (update_index t op w0 w1) as (w2 & w3 & -> & Hset & Hmut); try done.
      { intros Hn. rewrite Hn in HvN. by destruct HvN. }
      cbn [mbind res_bind]. rewrite Hset. exists w3. split; [done|]. by apply (mutated_same _ _ _ w0).
    + exists w1. split; [done|]. apply (mutated_same _ _ _ w0); [done|]. apply plain_mutation; try done. by left.
  - cbn [mbind res_bind]. destruct (mutate_list_spec now w (ekey t) t op) as (w1 & -> & Hw1 & Ht1 & Hd1); [done..|]. cbn [mbind res_bind].
    rewrite orb_true_r. exists w1. split; [done|]. apply plain_mutation; try done. right.
    apply andb_false_iff in Hdo as [Hn%bool_decide_eq_false|Hi]; [right|by left].
    unfold post_of, effective, value_bytes. simpl. destruct (EValue t); [by destruct Hn|]. by apply Hvv.
Qed.

(** C6: The value index stays exact. From well-formed posting lists and an index
    in which, for every indexed predicate, the list of each token has exactly the
    uids whose value has the token, [AddMutationWithIndex] of a set or delete
    succeeds, updates the list of the entity as the map of its postings
    prescribes, touches no other list but those of the predicate's index, and
    leaves the index exact, every token in use being in the token table. *)
Theorem index_stays_exact t op w :
  world_ok w → all_exact w → edge_valid t → op = Set_ ∨ op = Del →
  ∃ w', AddMutationWithIndex sch now (ekey t) t op w = Ok (w', None) ∧ world_ok w' ∧ all_exact w' ∧
    den w' (ekey t) = (spec_update (post_of t op) (den w (ekey t))).1 ∧
    ∀ k, k ≠ ekey t → (∀ tok, k ≠ index_key.IndexKey (Attr t) tok) → den w' k = den w k.
Proof. apply AddMutationWithIndex_spec. Qed.

(** A process that has just started over an empty store. *)
Lemma fresh_world s tabs :
  (∀ k, kv_get s k = Ok []) →
  (∀ a, schema.IsIndexed sch a = true → ∃ t, tabs !! a = Some t ∧ tokens.sorted t) →
  let w := mkWorld s ∅ tabs None in world_ok w ∧ all_exact w ∧ ∀ k, den w k = ∅.
Proof.
  intros Hs Htab w.
  assert (∀ k, stored_list s k = emptyPostingList) as Hst by (intros k; unfold stored_list; by rewrite Hs).
  assert (∀ k, den w k = ∅) as Hd by (intros k; unfold den; by rewrite Hst).
  split_and!; [|intros a _ Hi|done].
  - intros k. split_and!; [|done|done]. split; [done| |by left|rewrite Hst; split; simpl; by try constructor|done].
    exists []. split; [apply Hs|]. left. split; [done|apply Hst].
  - destruct (Htab a Hi) as (t & Ht & Hts). split.
    + exists t. split_and!; [done|done|]. intros tok u. rewrite Hd, lookup_empty. by intros [].
    + intros u vt val lab _. by rewrite Hd, lookup_empty.
    + intros tok u _ _. unfold tokens_at. by rewrite !Hd, !lookup_empty.
Qed.
End exact.

(** ** An instance *)
(** The tokens of a text are the text. *)
#[local] Existing Instances geo.ex_values geo.ex_s2.
Definition ex_index : IndexLib := Build_IndexLib _ _ (λ v, Some [v]).
Definition ex_farm : Farm := Build_Farm (λ _, 7) (λ _, 7).
#[local] Existing Instances ex_index ex_farm.

Definition ex_attr : list byte := bs "name".
Definition ex_sch : schema.tables :=
  schema.set_indexed ex_attr (schema.set_str ex_attr (schema.TScalar types.stringType) schema.init).
Definition ex_edge : DirectedEdge := mkEdge 1 ex_attr (Some (bs "ann")) types.StringID 0 (bs "src").
Definition ex_world : world memstore := mkWorld ∅ ∅ {[ex_attr := []]} None.

Lemma ex_attr_ok : attr_ok ex_attr.
Proof. split_and!; [done|by_decide|by_decide|by_decide]. Qed.

Lemma ex_edge_valid : edge_valid ex_sch ex_edge.
Proof.
  split_and!; [apply ex_attr_ok|by_decide|done|split_and!; by_decide|]. split; [done|]. intros _.
  eexists. split; [vm_compute; reflexivity|]. intros m. by vm_compute.
Qed.

Lemma ex_world_ok : world_ok ex_world ∧ all_exact ex_sch ex_world ∧
  ∀ k, den ex_world k = ∅.
Proof.
  apply (fresh_world ex_sch (∅ : memstore) {[ex_attr := []]}); [done|]. intros a Hi. apply bool_decide_eq_true in Hi.
  exists []. split; [|constructor]. assert (a = ex_attr) as -> by set_solver. done.
Qed.

Lemma index_stays_exact_witness :
  world_ok ex_world ∧ edge_valid ex_sch ex_edge ∧
  ∃ w', AddMutationWithIndex ex_sch 1 (posting_key.Key 1 ex_attr) ex_edge Set_ ex_world = Ok (w', None) ∧
    all_exact ex_sch w'.
Proof.
  destruct ex_world_ok as (Hw & Hex & _). split; [done|]. split; [apply ex_edge_valid|].
  destruct (index_stays_exact ex_sch 1 (Z.neq_succ_diag_l 0) ex_edge Set_ ex_world
    Hw Hex ex_edge_valid (or_introl eq_refl)) as (w' & Heq & _ & Hex' & _).
  exists w'. split; [exact Heq|exact Hex'].
Defined.
End index.
