(* ===== verification/Mutation.v ===== *)
(** The application of mutations ([worker/mutation.go]): [runMutations] and
    [mutate] on the server of a group, [addToMutationMap] and
    [MutateOverNetwork] on the server that takes an update.

    The update is split by the group of the predicates, and each group applies
    its part; the theorems relate both to the update as a whole. *)
From S2P Require Import Prelude Bytes Store Keys Task PostingPb PostingList PostingIter Tokens Types Geo Lex Schema Group Index.
From stdpp Require Import options.
#[local] Open Scope Z_scope.
#[local] Set Default Proof Using "Type*".

Module mutation.
Import posting posting_read index.

Record Mutations : Type := mkMutations { GroupId : Z; MSet : list DirectedEdge; MDel : list DirectedEdge }.

Section ops.
Context {St : Type} `{KVStore St} `{IndexLib} `{Farm}.
Context (sch : schema.tables) (now : Z) (conf : group.config) (local : gset Z).
Implicit Types (w : world St).

Notation BelongsTo := (group.BelongsTo Fingerprint32 conf).

(** [groups().ServesGroup]: the keys of the map of local nodes. *)
Definition ServesGroup (groupId : Z) : bool := bool_decide (groupId ∈ local).

Fixpoint runMutations (edges : list DirectedEdge) (op : Z) w : res (world St * option string) :=
  match edges with
  | [] => Ok (w, None)
  | edge :: edges =>
      gid ← BelongsTo (Attr edge);
      if negb (ServesGroup gid) then Ok (w, Some "Predicate fingerprint doesn't match this instance")
      else
        ' (w, err) ← AddMutationWithIndex sch now (posting_key.Key (Entity edge) (Attr edge)) edge op w;
        match err with
        | Some e => Ok (w, Some e)
        | None => runMutations edges op w
        end
  end.

Definition mutate (m : Mutations) w : res (world St * option string) :=
  ' (w, err) ← runMutations (MSet m) Set_ w;
  match err with
  | Some e => Ok (w, Some e)
  | None => runMutations (MDel m) Del w
  end.

Definition set : string := "set".
Definition del : string := "delete".

Fixpoint addToMutationMap (mutationMap : gmap Z Mutations) (edges : list DirectedEdge) (op : string) :
    res (gmap Z Mutations) :=
  match edges with
  | [] => Ok mutationMap
  | edge :: edges =>
      gid ← BelongsTo (Attr edge);
      let mu := default (mkMutations gid [] []) (mutationMap !! gid) in
      let mu := if bool_decide (op = set) then mkMutations (GroupId mu) (MSet mu ++ [edge]) (MDel mu)
                else if bool_decide (op = del) then mkMutations (GroupId mu) (MSet mu) (MDel mu ++ [edge])
                else mu in
      addToMutationMap (<[gid := mu]> mutationMap) edges op
  end.

(** The loop that collects the replies. [Done i] tells whether the context is
    done when the [i]th reply is awaited and that branch is taken. *)
Fixpoint await (Done : nat → option string) (i : nat) (errors : list (option string)) : option string :=
  match errors with
  | [] => None
  | err :: errors =>
      match Done i with
      | Some e => Some e
      | None => match err with Some e => Some e | None => await Done (S i) errors end
      end
  end.

(** [MutateOverNetwork]: [order] is the order in which the map is iterated, and
    [proposeOrSend] proposes a part to the group's Raft node, or sends it to the
    leader's server. The parts sent come with the result. *)
Definition MutateOverNetwork (order : gmap Z Mutations → list Z) (proposeOrSend : Z → Mutations → option string)
    (Done : nat → option string) (m : Mutations) : res (list (Z * Mutations) * option string) :=
  mutationMap ← addToMutationMap ∅ (MSet m) set;
  mutationMap ← addToMutationMap mutationMap (MDel m) del;
  let sent := omap (λ gid, mu ← mutationMap !! gid; Some (gid, mu)) (order mutationMap) in
  Ok (sent, await Done 0 ((λ '(gid, mu), proposeOrSend gid mu) <$> sent)).
End ops.

(** ** What an update means *)
(** The edges of each entity and predicate. *)
Definition graph : Type := Z → list byte → gmap Z (Z * list byte * list byte).

Definition apply_one (g : graph) (m : DirectedEdge * Z) : graph := λ u a,
  if decide (u = Entity m.1 ∧ a = Attr m.1) then (spec_update (post_of m.1 m.2) (g u a)).1 else g u a.
Definition apply (ms : list (DirectedEdge * Z)) (g : graph) : graph := foldl apply_one g ms.

Definition tagged (op : Z) (edges : list DirectedEdge) : list (DirectedEdge * Z) := (λ t, (t, op)) <$> edges.
(** The mutations of an update, in the order they are applied. *)
Definition ops_of (m : Mutations) : list (DirectedEdge * Z) := tagged Set_ (MSet m) ++ tagged Del (MDel m).

Lemma apply_app ms ms' g : apply (ms ++ ms') g = apply ms' (apply ms g).
Proof. apply foldl_app. Qed.

(** Only the mutations of a predicate matter to it. *)
Lemma apply_filter (f : list byte → Z) (gid : Z) ms g u a :
  f a = gid → apply (filter (λ m, f (Attr m.1) = gid) ms) g u a = apply ms g u a.
Proof.
  intros Ha. unfold apply. revert g. assert (∀ g g', g u a = g' u a →
    foldl apply_one g (filter (λ m, f (Attr m.1) = gid) ms) u a = foldl apply_one g' ms u a) as Hg; [|by intros g; apply Hg].
  induction ms as [|m ms IH]; intros g g' Heq; [done|]. rewrite filter_cons. case_decide as Hm; simpl; apply IH.
  - unfold apply_one. by case_decide; rewrite Heq.
  - unfold apply_one. rewrite decide_False; [done|]. by intros [_ ->].
Qed.

Section spec.
Context {St : Type} `{KVStore St} `{IndexLib} `{Farm}.
Context (sch : schema.tables) (now : Z) (Hnow : now ≠ 0) (conf : group.config) (Hconf : u32 (group.n conf) ≠ 0).
Implicit Types (w : world St).

(** The group of a predicate. *)
Definition group_of (a : list byte) : Z :=
  match group.BelongsTo Fingerprint32 conf a with Ok g => g | _ => 0 end.

Lemma BelongsTo_group_of a : group.BelongsTo Fingerprint32 conf a = Ok (group_of a).
Proof.
  unfold group_of, group.BelongsTo. destruct (group.first_match _ _); [done|]. unfold group.fpGroup.
  by rewrite (proj2 (Z.eqb_neq _ _)).
Qed.

(** The mutations up to the first of a group that is not served. *)
Fixpoint served (local : gset Z) (ms : list (DirectedEdge * Z)) : list (DirectedEdge * Z) :=
  match ms with
  | [] => []
  | m :: ms => if decide (group_of (Attr m.1) ∈ local) then m :: served local ms else []
  end.
Definition all_served (local : gset Z) (ms : list (DirectedEdge * Z)) : bool :=
  forallb (λ m, bool_decide (group_of (Attr m.1) ∈ local)) ms.

Lemma served_app local ms ms' :
  served local (ms ++ ms') = if all_served local ms then ms ++ served local ms' else served local ms.
Proof.
  induction ms as [|m ms IH]; [done|]. simpl. rewrite IH. unfold all_served. simpl. case_decide.
  - rewrite bool_decide_true by done. simpl. unfold all_served. by destruct (forallb _ ms).
  - by rewrite bool_decide_false.
Qed.

Lemma served_all local ms : all_served local ms = true → served local ms = ms.
Proof.
  induction ms as [|m ms IH]; [done|]. simpl. intros [Hm%bool_decide_eq_true Hms]%andb_prop.
  rewrite decide_True by done. f_equal. by apply IH.
Qed.

(** A server in a good state that has the edges of [g] for the predicates [P]. *)
Definition serves (P : list byte → Prop) (g : graph) (w : world St) : Prop :=
  world_ok w ∧ all_exact sch w ∧ ∀ u a, is_u64 u → attr_ok a → P a → den w (posting_key.Key u a) = g u a.

Lemma serves_step P g w t op :
  serves P g w → edge_valid sch t → op = Set_ ∨ op = Del →
  ∃ w', AddMutationWithIndex sch now (posting_key.Key (Entity t) (Attr t)) t op w = Ok (w', None) ∧ serves P (apply_one g (t, op)) w'.
Proof.
  intros (Hw & Hex & Hg) Hv Hop. destruct (AddMutationWithIndex_spec sch now Hnow t op w) as (w' & Heq & Hw' & Hex' & Hk & Hfr); [done..|].
  exists w'. split; [done|]. split_and!; [done|done|]. intros u a Hu Ha HP. unfold apply_one. simpl.
  destruct Hv as (Hat & Hut & _). case_decide as Hd.
  - destruct Hd as [-> ->]. by rewrite Hk, Hg.
  - rewrite Hfr; [by apply Hg| |intros tok; by apply Key_IndexKey]. intros Heq'. apply Hd. by apply Key_inj in Heq'.
Qed.

Definition outcome (local : gset Z) (ms : list (DirectedEdge * Z)) : option string :=
  if all_served local ms then None else Some "Predicate fingerprint doesn't match this instance".

Lemma runMutations_spec local P g w edges op :
  serves P g w → Forall (edge_valid sch) edges → op = Set_ ∨ op = Del →
  ∃ w', runMutations sch now conf local edges op w = Ok (w', outcome local (tagged op edges)) ∧
    serves P (apply (served local (tagged op edges)) g) w'.
Proof.
  intros Hs Hv Hop. revert g w Hs. induction Hv as [|t edges Ht Hv IH]; intros g w Hs; [by exists w|].
  cbn [runMutations]. rewrite BelongsTo_group_of. cbn [mbind res_bind]. unfold ServesGroup, outcome, all_served. simpl.
  case_bool_decide as Hl; simpl; [|rewrite decide_False by done; by exists w].
  destruct (serves_step P g w t op) as (w1 & -> & Hs1); [done..|]. cbn [mbind res_bind].
  rewrite decide_True by done. destruct (IH _ _ Hs1) as (w' & -> & Hs'). by exists w'.
Qed.

Lemma mutate_spec local P g w m :
  serves P g w → Forall (edge_valid sch) (MSet m) → Forall (edge_valid sch) (MDel m) →
  ∃ w', mutate sch now conf local m w = Ok (w', outcome local (ops_of m)) ∧ serves P (apply (served local (ops_of m)) g) w'.
Proof.
  intros Hs Hset Hdel. unfold mutate.
  destruct (runMutations_spec local P g w (MSet m) Set_) as (w1 & -> & Hs1); [done|done|by left|]. cbn [mbind res_bind].
  unfold ops_of, outcome. rewrite served_app. unfold all_served at 2. rewrite forallb_app. fold (all_served local (tagged Set_ (MSet m))).
  destruct (all_served local (tagged Set_ (MSet m))) eqn:Hall; simpl; [|by exists w1].
  rewrite apply_app. rewrite served_all in Hs1 by done.
  destruct (runMutations_spec local P (apply (tagged Set_ (MSet m)) g) w1 (MDel m) Del) as (w2 & -> & Hs2); [done|done|by right|]. by exists w2.
Qed.

(** ** The split by group *)
Definition edges_of (gid : Z) (edges : list DirectedEdge) : list DirectedEdge :=
  filter (λ t, group_of (Attr t) = gid) edges.

Definition join (op : string) (es : list DirectedEdge) (mu : Mutations) : Mutations :=
  if bool_decide (op = set) then mkMutations (GroupId mu) (MSet mu ++ es) (MDel mu)
  else if bool_decide (op = del) then mkMutations (GroupId mu) (MSet mu) (MDel mu ++ es)
  else mu.

Lemma join_cons op t es mu : join op es (join op [t] mu) = join op (t :: es) mu.
Proof. unfold join. by repeat case_bool_decide; simpl; rewrite <-?app_assoc. Qed.

Lemma addToMutationMap_spec edges op mm :
  ∃ mm', addToMutationMap conf mm edges op = Ok mm' ∧ ∀ gid,
    mm' !! gid = if bool_decide (edges_of gid edges = []) then mm !! gid
                 else Some (join op (edges_of gid edges) (default (mkMutations gid [] []) (mm !! gid))).
Proof.
  revert mm. induction edges as [|t edges IH]; intros mm; [by exists mm|]. cbn [addToMutationMap]. rewrite BelongsTo_group_of.
  cbn [mbind res_bind]. set (mu := default _ _). fold (join op [t] mu).
  destruct (IH (<[group_of (Attr t) := join op [t] mu]> mm)) as (mm' & -> & Hmm). exists mm'. split; [done|]. intros gid.
  rewrite Hmm. unfold edges_of in *. rewrite filter_cons. case_decide as Hg.
  - subst gid. rewrite lookup_insert_eq. simpl. rewrite join_cons.
    case_bool_decide as Hn; [|done]. by rewrite Hn.
  - by rewrite lookup_insert_ne.
Qed.

(** The part of an update for a group, and what [MutateOverNetwork] sends. *)
Definition part (m : Mutations) (gid : Z) : Mutations := mkMutations gid (edges_of gid (MSet m)) (edges_of gid (MDel m)).
Definition concerned (m : Mutations) (gid : Z) : Prop := MSet (part m gid) ≠ [] ∨ MDel (part m gid) ≠ [].

Lemma mutation_map_spec m :
  ∃ mm, (mm ← addToMutationMap conf ∅ (MSet m) set; addToMutationMap conf mm (MDel m) del) = Ok mm ∧
    ∀ gid mu, mm !! gid = Some mu ↔ concerned m gid ∧ mu = part m gid.
Proof.
  destruct (addToMutationMap_spec (MSet m) set ∅) as (mm1 & -> & Hm1). cbn [mbind res_bind].
  destruct (addToMutationMap_spec (MDel m) del mm1) as (mm2 & -> & Hm2). exists mm2. split; [done|]. intros gid mu.
  rewrite Hm2, Hm1, lookup_empty. unfold concerned, part. simpl.
  destruct (edges_of gid (MSet m)), (edges_of gid (MDel m)); simpl; naive_solver.
Qed.

Lemma await_None Done i errors : await Done i errors = None → Forall (λ e, e = None) errors.
Proof.
  revert i. induction errors as [|e errors IH]; intros i; simpl; [done|]. destruct (Done i); [done|].
  destruct e; [done|]. intros Ha. constructor; [done|]. by eapply IH.
Qed.

Lemma await_ok Done i errors : (∀ j, Done j = None) → Forall (λ e, e = None) errors → await Done i errors = None.
Proof. intros Hd He. revert i. induction He as [|e errors -> _ IH]; intros i; simpl; [done|]. by rewrite Hd. Qed.

(** Every group concerned is sent its part, once; no error comes back only when
    every part was accepted. *)
Lemma MutateOverNetwork_spec order proposeOrSend Done m :
  (∀ mm, order mm ≡ₚ elements (dom mm)) →
  ∃ sent err, MutateOverNetwork conf order proposeOrSend Done m = Ok (sent, err) ∧
    NoDup sent.*1 ∧ (∀ gid mu, (gid, mu) ∈ sent ↔ concerned m gid ∧ mu = part m gid) ∧
    (err = None → ∀ gid mu, (gid, mu) ∈ sent → proposeOrSend gid mu = None) ∧
    ((∀ i, Done i = None) → (∀ gid mu, (gid, mu) ∈ sent → proposeOrSend gid mu = None) → err = None).
Proof.
  intros Hord. unfold MutateOverNetwork. destruct (mutation_map_spec m) as (mm & Hmm & Hlook).
  apply bind_Ok in Hmm as (mm1 & -> & Hmm). cbn [mbind res_bind]. rewrite Hmm. cbn [mbind res_bind].
  eexists _, _. split; [reflexivity|].
  assert ((omap (λ gid, mu ← mm !! gid; Some (gid, mu)) (order mm)).*1 ≡ₚ elements (dom mm)) as Hkeys.
  { rewrite <-(Hord mm). assert (∀ gid, gid ∈ order mm → is_Some (mm !! gid)) as Hin.
    { intros gid. rewrite (Hord mm), elem_of_elements. apply elem_of_dom. }
    induction (order mm) as [|gid l IH]; [done|]. simpl. destruct (Hin gid) as [mu Hmu]; [apply list_elem_of_here|].
    rewrite Hmu. simpl. constructor. apply IH. intros g Hg. apply Hin. by apply list_elem_of_further. }
  split_and!.
  - rewrite Hkeys. apply NoDup_elements.
  - intros gid mu. rewrite list_elem_of_omap, <-Hlook. split.
    + intros (g & _ & Hg). destruct (mm !! g) as [mu'|] eqn:Hg'; [|done]. simpl in Hg. by simplify_eq.
    + intros Hg. exists gid. rewrite Hg. split; [|done]. rewrite (Hord mm). apply elem_of_elements, elem_of_dom. by eexists.
  - intros He%await_None gid mu Hin. rewrite Forall_fmap, Forall_forall in He. by apply (He (gid, mu)).
  - intros Hd Hall. apply await_ok; [done|]. apply Forall_fmap, Forall_forall. intros [gid mu] Hin. by apply Hall.
Qed.

Lemma tagged_edges_of gid op edges :
  tagged op (edges_of gid edges) = filter (λ m : DirectedEdge * Z, group_of (Attr m.1) = gid) (tagged op edges).
Proof.
  unfold tagged, edges_of. induction edges as [|t edges IH]; [done|]. rewrite fmap_cons, !filter_cons. simpl.
  case_decide; [|done]. rewrite fmap_cons. by f_equal.
Qed.

Lemma ops_of_part m gid : ops_of (part m gid) = filter (λ x, group_of (Attr x.1) = gid) (ops_of m).
Proof. unfold ops_of, part. simpl. by rewrite !tagged_edges_of, filter_app. Qed.

Lemma part_served m gid local : gid ∈ local → all_served local (ops_of (part m gid)) = true.
Proof.
  intros Hl. unfold all_served. apply forallb_forall. intros x Hx%list_elem_of_In. rewrite ops_of_part in Hx.
  apply list_elem_of_filter in Hx as [Hx _]. apply bool_decide_eq_true. by rewrite Hx.
Qed.

Lemma edges_of_Forall (P : DirectedEdge → Prop) gid edges : Forall P edges → Forall P (edges_of gid edges).
Proof. rewrite !Forall_forall. intros HP t [_ Ht]%list_elem_of_filter. by apply HP. Qed.

Lemma part_mutate local gid g w m :
  gid ∈ local → serves (λ a, group_of a = gid) g w → Forall (edge_valid sch) (MSet m) → Forall (edge_valid sch) (MDel m) →
  ∃ w', mutate sch now conf local (part m gid) w = Ok (w', None) ∧ serves (λ a, group_of a = gid) (apply (ops_of m) g) w'.
Proof.
  intros Hl Hs Hset Hdel.
  destruct (mutate_spec local (λ a, group_of a = gid) g w (part m gid)) as (w' & -> & Hw' & Hex & Hg);
    [done|by apply edges_of_Forall|by apply edges_of_Forall|].
  exists w'. unfold outcome. rewrite part_served by done. split; [done|]. split_and!; [done|done|]. intros u a Hu Ha Hga.
  rewrite Hg by done. rewrite served_all by by apply part_served. rewrite ops_of_part.
  by apply (apply_filter group_of gid).
Qed.

Lemma distributed_update_spec order proposeOrSend Done m g (local : Z → gset Z) (servers : Z → world St) :
  (∀ mm, order mm ≡ₚ elements (dom mm)) →
  Forall (edge_valid sch) (MSet m) → Forall (edge_valid sch) (MDel m) →
  (∀ gid, gid ∈ local gid ∧ serves (λ a, group_of a = gid) g (servers gid)) →
  ∃ sent err, MutateOverNetwork conf order proposeOrSend Done m = Ok (sent, err) ∧ NoDup sent.*1 ∧
    (err = None → ∀ gid mu, (gid, mu) ∈ sent → proposeOrSend gid mu = None) ∧
    ((∀ i, Done i = None) → (∀ gid mu, (gid, mu) ∈ sent → proposeOrSend gid mu = None) → err = None) ∧
    ∀ gid, ∃ w', serves (λ a, group_of a = gid) (apply (ops_of m) g) w' ∧
      (∀ mu, (gid, mu) ∈ sent → GroupId mu = gid ∧ mutate sch now conf (local gid) mu (servers gid) = Ok (w', None)) ∧
      ((∀ mu, (gid, mu) ∉ sent) → w' = servers gid).
Proof.
  intros Hord Hset Hdel Hs. destruct (MutateOverNetwork_spec order proposeOrSend Done m Hord) as (sent & err & -> & Hnd & Hin & Herr & Hnone).
  exists sent, err. split_and!; [done|done|done|done|]. intros gid. destruct (Hs gid) as [Hl Hsg].
  destruct (part_mutate (local gid) gid g (servers gid) m) as (w' & Hrun & Hw'); [done..|].
  destruct (decide (MSet (part m gid) = [] ∧ MDel (part m gid) = [])) as [[Hn1 Hn2]|Hsome].
  - exists w'. split_and!; [done| |].
    + intros mu [Hc _]%Hin. destruct Hc; done.
    + intros _. unfold mutate in Hrun. rewrite Hn1, Hn2 in Hrun. simpl in Hrun. by simplify_eq.
  - exists w'. split_and!; [done| |].
    + intros mu [_ ->]%Hin. done.
    + intros Hno. destruct (Hno (part m gid)). apply Hin. split; [|done]. unfold concerned.
      destruct (MSet (part m gid)); [|by left]. destruct (MDel (part m gid)); [|by right]. by destruct Hsome.
Qed.

(** C12: An update over the network is the update as a whole: [MutateOverNetwork]
    sends each group that has edges in it exactly one part; when the server of a
    group, whose posting lists are well formed and whose index is exact, runs
    [mutate] on its part, the run succeeds, the index is exact again, and for
    every predicate of the group the edges are those of the graph after all the
    sets and then all the deletes of the update. A group that was sent nothing
    needs to do nothing. The result is an error exactly when a part was refused,
    or the request was given up before all answers were in. *)
Theorem distributed_update order proposeOrSend Done m g (local : Z → gset Z) (servers : Z → world St) :
  (∀ mm, order mm ≡ₚ elements (dom mm)) →
  Forall (edge_valid sch) (MSet m) → Forall (edge_valid sch) (MDel m) →
  (∀ gid, gid ∈ local gid ∧ serves (λ a, group_of a = gid) g (servers gid)) →
  ∃ sent err, MutateOverNetwork conf order proposeOrSend Done m = Ok (sent, err) ∧ NoDup sent.*1 ∧
    (err = None → ∀ gid mu, (gid, mu) ∈ sent → proposeOrSend gid mu = None) ∧
    ((∀ i, Done i = None) → (∀ gid mu, (gid, mu) ∈ sent → proposeOrSend gid mu = None) → err = None) ∧
    ∀ gid, ∃ w', serves (λ a, group_of a = gid) (apply (ops_of m) g) w' ∧
      (∀ mu, (gid, mu) ∈ sent → GroupId mu = gid ∧ mutate sch now conf (local gid) mu (servers gid) = Ok (w', None)) ∧
      ((∀ mu, (gid, mu) ∉ sent) → w' = servers gid).
Proof. apply distributed_update_spec. Qed.
End spec.

(** ** Replaying a log *)
Section replay.
Implicit Types (g : graph) (ms : list (DirectedEdge * Z)).

(** One slot of a posting list under one mutation. *)
Definition slot (u : Z) (a : list byte) (x : Z) (s : option (Z * list byte * list byte)) (m : DirectedEdge * Z) :
    option (Z * list byte * list byte) :=
  let p := posting.post_of m.1 m.2 in
  if decide (u = Entity m.1 ∧ a = Attr m.1 ∧ x = Uid p) then
    if Op p =? posting.Set_ then Some (posting.content p)
    else if bool_decide (s = Some (posting.content p)) then None else s
  else s.

Lemma apply_slot ms g u a x : apply ms g u a !! x = foldl (slot u a x) (g u a !! x) ms.
Proof.
  revert g. induction ms as [|m ms IH]; intros g; [done|]. cbn [foldl].
  change (apply (m :: ms) g u a) with (apply ms (apply_one g m) u a). rewrite IH. f_equal. unfold apply_one, slot.
  set (p := posting.post_of m.1 m.2). destruct (decide (u = Entity m.1 ∧ a = Attr m.1)) as [[-> ->]|Hne].
  - unfold posting.spec_update. destruct (decide (x = Uid p)) as [->|Hx].
    + rewrite decide_True by done. destruct (Op p =? posting.Set_); case_bool_decide as Hs; simpl; rewrite ?lookup_insert_eq, ?lookup_delete_eq; done.
    + rewrite decide_False by naive_solver. destruct (Op p =? posting.Set_); case_bool_decide; simpl; rewrite ?lookup_insert_ne, ?lookup_delete_ne; done.
  - rewrite decide_False; [done|]. naive_solver.
Qed.

(** A log either fixes a slot, or empties it or leaves it. *)
Lemma slot_dichotomy u a x ms :
  (∀ s s', foldl (slot u a x) s ms = foldl (slot u a x) s' ms) ∨
  (∀ s, foldl (slot u a x) s ms = None ∨ foldl (slot u a x) s ms = s).
Proof.
  induction ms as [|m ms IH] using rev_ind; [right; intros s; by right|].
  setoid_rewrite foldl_app. cbn [foldl]. unfold slot at 1 3 5 7. set (p := posting.post_of m.1 m.2). case_decide as Hhit.
  - destruct (Op p =? posting.Set_); [by left|]. destruct IH as [IH|IH]; [left|right].
    + intros s s'. by rewrite (IH s s').
    + intros s. case_bool_decide; [by left|apply IH].
  - done.
Qed.

Lemma slot_idempotent u a x ms s : foldl (slot u a x) (foldl (slot u a x) s ms) ms = foldl (slot u a x) s ms.
Proof.
  destruct (slot_dichotomy u a x ms) as [Hc|Hk]; [by apply Hc|].
  destruct (Hk s) as [Hs|Hs]; rewrite Hs; [|by rewrite Hs]. by destruct (Hk None) as [-> | ->].
Qed.

(** Replaying a log on what a crash left gives what the log gives: every slot
    may have lost a suffix of its own of the updates. *)
Lemma replay_apply ms k g g' u a x :
  g' u a !! x = apply (take k ms) g u a !! x → apply ms g' u a !! x = apply ms g u a !! x.
Proof.
  rewrite !apply_slot. intros ->. rewrite <-(take_drop k ms) at 2. rewrite foldl_app.
  rewrite <-(take_drop k ms) at 4. rewrite foldl_app. by rewrite slot_idempotent.
Qed.
End replay.

(** ** An instance *)
#[local] Existing Instances geo.ex_values geo.ex_s2 ex_index ex_farm.

Definition ex_conf : group.config := group.mkConfig 3 0 [].
Definition ex_update : Mutations := mkMutations 0 [ex_edge] [].

Lemma distributed_update_witness :
  Forall (edge_valid ex_sch) (MSet ex_update) ∧
  ∃ sent err, MutateOverNetwork ex_conf (λ mm, elements (dom mm)) (λ _ _, None) (λ _, None) ex_update = Ok (sent, err) ∧
    NoDup sent.*1 ∧
    ∀ gid, ∃ w', serves ex_sch (λ a, group_of ex_conf a = gid) (apply (ops_of ex_update) (λ _ _, ∅)) w' ∧
      ∀ mu, (gid, mu) ∈ sent → mutate ex_sch 1 ex_conf {[gid]} mu ex_world = Ok (w', None).
Proof.
  assert (Forall (edge_valid ex_sch) (MSet ex_update)) as Hv by (constructor; [apply ex_edge_valid|constructor]).
  split; [exact Hv|]. destruct ex_world_ok as (Hw & Hex & Hd).
  destruct (distributed_update ex_sch 1 (Z.neq_succ_diag_l 0) ex_conf ltac:(by_decide) (λ mm, elements (dom mm)) (λ _ _, None)
    (λ _, None) ex_update (λ _ _, ∅) (λ gid, {[gid]}) (λ _, ex_world)) as (sent & err & Heq & Hnd & _ & _ & Hall).
  - done.
  - exact Hv.
  - constructor.
  - intros gid. split; [apply elem_of_singleton; done|]. split_and!; [exact Hw|exact Hex|]. intros u a _ _ _. apply Hd.
  - exists sent, err. split; [exact Heq|]. split; [exact Hnd|]. intros gid. destruct (Hall gid) as (w' & Hs & Hrun & _).
    exists w'. split; [exact Hs|]. intros mu Hmu. by apply Hrun.
Defined.
End mutation.
