(* ===== verification/Process.v ===== *)
(** Answering a task ([worker/task.go], [worker/tokens.go]): [processTask] reads
    the posting lists a query names, by entity and predicate or through the
    index, and [ProcessTaskOverNetwork] sends the query to the server of the
    predicate's group.

    Reading changes no list but its cache, and adds lists to the map; the world
    is passed along for that. *)
From S2P Require Import Prelude Bytes Store Keys Task Algo PostingList PostingIter Tokens Types Geo Lex Schema Group Index Mutation.
From stdpp Require Import options.
#[local] Open Scope Z_scope.
#[local] Set Default Proof Using "Type*".

Module process.
Import posting posting_read index.

(** [task.Query], [task.Value] as type and bytes, and [task.Result]; a
    [task.List] is its uids. *)
Record Query : Type := mkQuery {
  QAttr : list byte;
  QCount : Z;
  QOffset : Z;
  AfterUid : Z;
  DoCount : bool;
  QUids : list Z;
  SrcFunc : list (list byte);
}.
Record Result : Type := mkResult {
  UidMatrix : list (list Z);
  Values : list (Z * list byte);
  Counts : list Z;
  IntersectDest : bool;
}.

Section ops.
Context {St : Type} `{KVStore St} `{IndexLib} `{Farm}.
Implicit Types (w : world St).

(** [pl, decr := posting.GetOrCreate(key)] and one read of the list. *)
Definition read {A} (f : List → res (A * List)) (k : list byte) w : res (A * world St) :=
  ' (a, l) ← f (GetOrCreate w k);
  Ok (a, put k l (dirtyChan w) w).

Definition getStringTokens (term : list byte) : res (list (list byte)) :=
  match tok_Tokens term with
  | Some ts => Ok ts
  | None => Err "Could not create tokenizer: %v"
  end.

Definition getTokens (funcArgs : list (list byte)) : res (list (list byte)) :=
  assert_true (1 <? length funcArgs)%nat "Invalid function";;
  if negb (length funcArgs =? 2)%nat then Err "Function requires 2 arguments, but got %d"
  else term ← index funcArgs 1; getStringTokens term.

(** The value of a list for the answer: nil, of type 0, when there is none. *)
Definition task_value (v : option (list byte * Z)) : Z * list byte :=
  match v with Some (val, ty) => (ty, val) | None => (0, []) end.

Definition add_row (row : list Z) (v : Z * list byte) (cnt : list Z) (out : Result) : Result :=
  mkResult (UidMatrix out ++ [row]) (Values out ++ [v]) (Counts out ++ cnt) (IntersectDest out).

(** The body of the loop over the keys. *)
Definition one_list (q : Query) (useFunc : bool) (key : list byte) (out : Result) w : res (Result * world St) :=
  ' (v, w) ← read (ValueOf (store w)) key w;
  let newValue := task_value v in
  if DoCount q then
    ' (n, w) ← read (λ l, Length (store w) l 0) key w;
    Ok (add_row [] newValue [u32 n] out, w)
  else
    let opts := mkOptions (AfterUid q) (if useFunc && (0 <? length (QUids q))%nat then Some (QUids q) else None) in
    ' (row, w) ← read (λ l, Uids (store w) l opts) key w;
    Ok (add_row row newValue [] out, w).

Fixpoint all_lists (q : Query) (useFunc : bool) (keys : list (list byte)) (out : Result) w : res (Result * world St) :=
  match keys with
  | [] => Ok (out, w)
  | key :: keys => ' (out, w) ← one_list q useFunc key out w; all_lists q useFunc keys out w
  end.

Fixpoint all_values (attr : list byte) (uids : list Z) (values : list (Z * list byte)) w : res (list (Z * list byte) * world St) :=
  match uids with
  | [] => Ok (values, w)
  | uid :: uids =>
      ' (v, w) ← read (ValueOf (store w)) (posting_key.Key uid attr) w;
      all_values attr uids (values ++ [task_value v]) w
  end.

Fixpoint intersect_rows (rows : list (list Z)) (filtered : list Z) : res (list (list Z)) :=
  match rows with
  | [] => Ok []
  | row :: rows =>
      row ← algo.IntersectSorted [row; filtered];
      rows ← intersect_rows rows filtered;
      Ok (row :: rows)
  end.

(** The tokens of the query's function, what to filter geometries by, and
    whether every token must match. *)
Definition function_tokens (f : list (list byte)) : res (list (list byte) * option geo.QueryData * bool) :=
  name ← index f 0;
  if geo.IsGeoFunc name then
    ' (tokens, geoQuery) ← geo.GetTokens f;
    Ok (tokens, Some geoQuery, false)
  else
    tokens ← getTokens f;
    Ok (tokens, None, bool_decide (geo.ToLower name = bs "allof")).

(** The check of the geometries themselves. *)
Definition geo_filter (attr : list byte) (geoQuery : geo.QueryData) (out : Result) w : res (Result * world St) :=
  uids ← algo.MergeSorted (UidMatrix out);
  ' (values, w) ← all_values attr uids [] w;
  filtered ← geo.FilterUids uids values geoQuery;
  rows ← intersect_rows (UidMatrix out) filtered;
  Ok (mkResult rows (Values out) (Counts out) (IntersectDest out), w).

(** The keys to read: of the index for a function, else of the entities. *)
Definition task_keys (q : Query) (useFunc : bool) : res (list (list byte) * option geo.QueryData * bool) :=
  if useFunc then
    ' (tokens, geoQuery, intersectDest) ← function_tokens (SrcFunc q);
    Ok ((λ t, index_key.IndexKey (QAttr q) t) <$> (tokens : list (list byte)), geoQuery, intersectDest)
  else Ok ((λ u, posting_key.Key u (QAttr q)) <$> QUids q, None, false).

Definition geo_check (attr : list byte) (geoQuery : option geo.QueryData) (out : Result) w : res (Result * world St) :=
  match geoQuery with
  | Some geoQuery => geo_filter attr geoQuery out w
  | None => Ok (out, w)
  end.

Definition processTask (q : Query) w : res (Result * world St) :=
  let useFunc := negb (length (SrcFunc q) =? 0)%nat in
  ' (keys, geoQuery, intersectDest) ← task_keys q useFunc;
  ' (out, w) ← all_lists q useFunc keys (mkResult [] [] [] false) w;
  ' (out, w) ← geo_check (QAttr q) geoQuery out w;
  Ok (mkResult (UidMatrix out) (Values out) (Counts out) intersectDest, w).

(** The servers that answer for the groups: this one for the groups it serves,
    another one's for the rest; a connection that fails is an error [Down]. *)
Definition cluster : Type := Z → world St.
Definition set_server (gid : Z) (w : world St) (cl : cluster) : cluster := λ g, if decide (g = gid) then w else cl g.

Context (conf : group.config) (Down : Z → option string).

Definition ProcessTaskOverNetwork (q : Query) (cl : cluster) : res (Result * cluster) :=
  gid ← group.BelongsTo Fingerprint32 conf (QAttr q);
  match Down gid with
  | Some e => Err e
  | None => ' (r, w) ← processTask q (cl gid); Ok (r, set_server gid w cl)
  end.
End ops.

(** ** Answers in terms of the maps that lists denote *)
Notation postings := (gmap Z (Z * list byte * list byte)).

(** The postings of each entity and predicate, and of each index token. *)
Record view : Type := mkView {
  data : Z → list byte → postings;
  idx : list byte → list byte → postings;
}.

(** The uids of a map after one, in order, without the value's. *)
Definition keys_after (after : Z) (m : postings) : list Z :=
  merge_sort Z.le (filter (λ u, after < u ∧ u ≠ MaxUint64) (elements (dom m : gset Z))).

Lemma keys_after_spec after m :
  StronglySorted Z.lt (keys_after after m) ∧ ∀ u, u ∈ keys_after after m ↔ after < u ∧ u ≠ MaxUint64 ∧ is_Some (m !! u).
Proof.
  assert (keys_after after m ≡ₚ filter (λ u, after < u ∧ u ≠ MaxUint64) (elements (dom m : gset Z))) as Hp by apply merge_sort_Permutation.
  split.
  - apply ssorted_le_lt; [apply (StronglySorted_merge_sort Z.le)|]. rewrite Hp. apply NoDup_filter, NoDup_elements.
  - intros u. rewrite Hp, list_elem_of_filter, elem_of_elements, elem_of_dom. naive_solver.
Qed.

Definition value_in (m : postings) : option (list byte * Z) :=
  match m !! MaxUint64 with Some (vt, val, _) => Some (val, vt mod 256) | None => None end.

(** A row of an answer: the uids of a list, cut down to [its] if that is not
    empty; but the code panics when the list goes on beyond [its]. *)
Definition row_of (after : Z) (its : list Z) (m : postings) : res (list Z) :=
  let us := keys_after after m in
  if bool_decide (its = []) then Ok us
  else if bool_decide (Exists (past its) us) then Crash "index out of range"
  else Ok (filter (λ x, x ∈ its) us).

Definition a_list (q : Query) (useFunc : bool) (m : postings) (out : Result) : res Result :=
  let v := task_value (value_in m) in
  if DoCount q then Ok (add_row [] v [u32 (Z.of_nat (size (filter (λ kv, 0 < kv.1) m)))] out)
  else row ← row_of (AfterUid q) (if useFunc then QUids q else []) m; Ok (add_row row v [] out).

Fixpoint a_lists (q : Query) (useFunc : bool) (ms : list postings) (out : Result) : res Result :=
  match ms with
  | [] => Ok out
  | m :: ms => out ← a_list q useFunc m out; a_lists q useFunc ms out
  end.

Definition value_at (v : view) (attr : list byte) (u : Z) : Z * list byte := task_value (value_in (data v u attr)).

Section answers.
Context `{IndexLib}.

Definition a_geo (v : view) (attr : list byte) (geoQuery : option geo.QueryData) (out : Result) : res Result :=
  match geoQuery with
  | Some geoQuery =>
      uids ← algo.MergeSorted (UidMatrix out);
      filtered ← geo.FilterUids uids (value_at v attr <$> uids) geoQuery;
      rows ← intersect_rows (UidMatrix out) filtered;
      Ok (mkResult rows (Values out) (Counts out) (IntersectDest out))
  | None => Ok out
  end.

Definition a_keys (v : view) (q : Query) : res (list postings * option geo.QueryData * bool) :=
  match SrcFunc q with
  | [] => Ok ((λ u, data v u (QAttr q)) <$> QUids q, None, false)
  | f => ' (tokens, geoQuery, intersectDest) ← function_tokens f;
         Ok (idx v (QAttr q) <$> (tokens : list (list byte)), geoQuery, intersectDest)
  end.

(** The answer to a query over a view. *)
Definition a_task (v : view) (q : Query) : res Result :=
  ' (ms, geoQuery, intersectDest) ← a_keys v q;
  out ← a_lists q (negb (length (SrcFunc q) =? 0)%nat) ms (mkResult [] [] [] false);
  out ← a_geo v (QAttr q) geoQuery out;
  Ok (mkResult (UidMatrix out) (Values out) (Counts out) intersectDest).
End answers.

Section refine.
Context {St : Type} `{KVStore St} `{IndexLib} `{Farm}.
Implicit Types (w : world St).

(** A computation that only reads: its result is the one of [spec], and every
    list denotes afterwards what it denoted before. *)
Definition unchanged w w' : Prop := world_ok w' ∧ store w' = store w ∧ same_den w w'.
Definition reads {A} w (r : res (A * world St)) (spec : res A) : Prop :=
  match spec with
  | Ok a => ∃ w', r = Ok (a, w') ∧ unchanged w w'
  | Err e => r = Err e
  | Crash m => r = Crash m
  end.

(** The uids of a list that is well formed. *)
Lemma den_uids w k x : world_ok w → is_Some (den w k !! x) → is_u64 x ∧ 0 < x.
Proof using.
  intros Hw. destruct (Hw k) as (Hinv & _ & _). pose proof (inv_layers _ _ _ Hinv) as Hly.
  unfold den, view_of. rewrite lookup_abs, fmap_is_Some.
  unfold live_at. destruct (ufind _ _) as [mp|] eqn:Hm.
  - apply ufind_Some in Hm as [Hm <-]. intros _. destruct (proj1 (Forall_forall _ _) (ly_mwf _ _ Hly) _ Hm) as [Hwf ?].
    split; [apply Hwf|done].
  - intros [p Hp]. apply ufind_Some in Hp as [Hp <-].
    destruct (proj1 (Forall_forall _ _) (ly_iwf _ _ Hly) _ Hp) as [Hwf ?]. split; [apply Hwf|done].
Qed.

Lemma unchanged_refl w : world_ok w → unchanged w w.
Proof. by intros Hw. Qed.

Lemma unchanged_trans w1 w2 w3 : unchanged w1 w2 → unchanged w2 w3 → unchanged w1 w3.
Proof.
  intros (_ & Hs & Ht & Hd) (Hw & Hs' & Ht' & Hd'). split_and!; [done|congruence|]. split; [congruence|]. intros k. by rewrite Hd'.
Qed.

Lemma reads_ret {A} w (a : A) : world_ok w → reads w (Ok (a, w)) (Ok a).
Proof. intros Hw. exists w. split; [done|]. by apply unchanged_refl. Qed.

Lemma reads_bind {A B} w (r : res (A * world St)) spec (f : A * world St → res (B * world St)) (g : A → res B) :
  reads w r spec → (∀ a w', spec = Ok a → unchanged w w' → reads w' (f (a, w')) (g a)) → reads w (r ≫= f) (spec ≫= g).
Proof.
  intros Hr Hf. destruct spec as [a|e|m]; simpl in *; [|by rewrite Hr..]. destruct Hr as (w1 & -> & Hu). simpl.
  specialize (Hf a w1 eq_refl Hu). destruct (g a) as [b|e|m]; simpl in *; [|done..].
  destruct Hf as (w2 & -> & Hu2). exists w2. split; [done|]. by eapply unchanged_trans.
Qed.

(** The same with a step that does not read. *)
Lemma reads_pure {A B} w (m : res A) (f : A → res (B * world St)) (g : A → res B) :
  (∀ a, m = Ok a → reads w (f a) (g a)) → reads w (m ≫= f) (m ≫= g).
Proof. intros Hf. destruct m; simpl; [by apply Hf|done..]. Qed.

Lemma read_list {A} (f : List → res (A * List)) k w a :
  world_ok w → f (GetOrCreate w k) = Ok (a, set_pbuffer (Some (stored_list (store w) k)) (GetOrCreate w k)) →
  reads w (read f k w) (Ok a).
Proof.
  intros Hw Hf. unfold read. rewrite Hf. destruct (Hw k) as (Hinv & Hk & Hd). eexists. split; [reflexivity|]. split_and!; [|done|].
  - apply put_ok; [done| |done|done]. destruct Hinv. split; try done. by right.
  - split; [done|]. intros k'. rewrite den_put. case_decide; [by subst|done].
Qed.

Lemma read_value_spec k w : world_ok w → reads w (read (ValueOf (store w)) k w) (Ok (value_in (den w k))).
Proof. intros Hw. apply read_list; [done|]. apply (ValueOf_spec (store w)), Hw. Qed.

Lemma read_length_spec k w :
  world_ok w → reads w (read (λ l, Length (store w) l 0) k w) (Ok (Z.of_nat (size (filter (λ kv, 0 < kv.1) (den w k))))).
Proof. intros Hw. apply read_list; [done|]. by apply (Length_spec (store w)); [apply Hw|]. Qed.

Lemma read_uids_spec k w after its :
  world_ok w → 0 ≤ after → StronglySorted Z.le its →
  reads w (read (λ l, Uids (store w) l (mkOptions after (if bool_decide (its = []) then None else Some its))) k w)
    (row_of after its (den w k)).
Proof.
  intros Hw Ha Hs. destruct (Hw k) as (Hinv & _).
  pose proof (Uids_spec (store w) _ _ (mkOptions after (if bool_decide (its = []) then None else Some its)) Hinv Ha) as Hu.
  assert (plain_uids (posting_read.after after (live (stored_list (store w) k) (GetOrCreate w k))) = keys_after after (den w k)) as Hk.
  { destruct (keys_after_spec after (den w k)) as [Hs1 Hk1]. destruct (live_uids (store w) _ _ after Hinv) as [Hs2 Hk2].
    apply ssorted_lt_ext; [done..|]. intros x. by rewrite Hk1, Hk2. }
  cbn [AfterUID Intersect] in Hu. rewrite Hk in Hu. unfold row_of.
  destruct (bool_decide (its = [])) eqn:Hn.
  - apply read_list; [done|]. by apply Hu.
  - apply bool_decide_eq_false in Hn.
    rewrite (bool_decide_ext _ (Exists (past its) (keys_after after (den w k)))) in Hu by naive_solver.
    specialize (Hu ltac:(by intros ? [= <-])). destruct (bool_decide (Exists _ _)).
    + unfold read. by rewrite Hu.
    + by apply read_list.
Qed.

Definition query_ok (q : Query) : Prop :=
  0 ≤ AfterUid q ∧ (SrcFunc q ≠ [] → StronglySorted Z.le (QUids q)).

Lemma one_list_spec q useFunc k out w :
  world_ok w → 0 ≤ AfterUid q → (useFunc = true → StronglySorted Z.le (QUids q)) →
  reads w (one_list q useFunc k out w) (a_list q useFunc (den w k) out).
Proof.
  intros Hw Ha Hs. unfold one_list, a_list.
  apply (reads_bind _ _ (Ok (value_in (den w k))) _
    (λ v, if DoCount q then Ok (add_row [] (task_value v) [u32 (Z.of_nat (size (filter (λ kv, 0 < kv.1) (den w k))))] out)
          else row ← row_of (AfterUid q) (if useFunc then QUids q else []) (den w k); Ok (add_row row (task_value v) [] out))).
  { by apply read_value_spec. }
  intros v w1 [= <-] Hu1. pose proof Hu1 as (Hw1 & Hs1 & _ & Hd1). destruct (DoCount q).
  - apply (reads_bind _ _ (Ok (Z.of_nat (size (filter (λ kv, 0 < kv.1) (den w k))))) _ (λ n, Ok (add_row [] _ [u32 n] out))).
    { rewrite <-Hd1. by apply read_length_spec. }
    intros n w2 _ (Hw2 & _). by apply reads_ret.
  - apply (reads_bind _ _ _ _ (λ row, Ok (add_row row _ [] out))).
    2: { intros row w2 _ (Hw2 & _). by apply reads_ret. }
    rewrite <-Hd1. destruct useFunc; simpl.
    + pose proof (read_uids_spec k w1 (AfterUid q) (QUids q) Hw1 Ha (Hs eq_refl)) as Hr.
      destruct (QUids q); [exact Hr|]. exact Hr.
    + apply (read_uids_spec k w1 (AfterUid q) [] Hw1 Ha). constructor.
Qed.

Lemma all_lists_spec q useFunc keys out w :
  world_ok w → 0 ≤ AfterUid q → (useFunc = true → StronglySorted Z.le (QUids q)) →
  reads w (all_lists q useFunc keys out w) (a_lists q useFunc (den w <$> keys) out).
Proof.
  intros Hw Ha Hs. revert out w Hw. induction keys as [|k keys IH]; intros out w Hw; simpl; [by apply reads_ret|].
  apply (reads_bind _ _ _ _ (λ out, a_lists q useFunc (den w <$> keys) out)); [by apply one_list_spec|].
  intros out1 w1 _ (Hw1 & _ & _ & Hd). replace (den w <$> keys) with (den w1 <$> keys); [by apply IH|].
  apply list_fmap_ext. intros i k' _. apply Hd.
Qed.

Definition wview w : view := mkView (λ u a, den w (posting_key.Key u a)) (λ a t, den w (index_key.IndexKey a t)).

Lemma all_values_spec attr uids values w :
  world_ok w → reads w (all_values attr uids values w) (Ok (values ++ (value_at (wview w) attr <$> uids))).
Proof.
  revert values w. induction uids as [|u uids IH]; intros values w Hw; cbn [all_values].
  { rewrite app_nil_r. by apply reads_ret. }
  match goal with |- reads _ ?r _ =>
    change (reads w r (Ok (value_in (den w (posting_key.Key u attr))) ≫= λ v, Ok (values ++ [task_value v] ++ (value_at (wview w) attr <$> uids)))) end.
  apply reads_bind; [by apply read_value_spec|].
  intros v w1 [= <-] (Hw1 & _ & _ & Hd). cbn beta iota. specialize (IH (values ++ [task_value (value_in (den w (posting_key.Key u attr)))]) w1 Hw1).
  rewrite <-app_assoc in IH. replace (value_at (wview w) attr <$> uids) with (value_at (wview w1) attr <$> uids); [done|].
  apply list_fmap_ext. intros i u' _. unfold value_at. simpl. by rewrite Hd.
Qed.

Lemma geo_check_spec attr gq out w : world_ok w → reads w (geo_check attr gq out w) (a_geo (wview w) attr gq out).
Proof.
  intros Hw. unfold geo_check, a_geo. destruct gq as [gq|]; [|by apply reads_ret]. unfold geo_filter.
  apply reads_pure. intros uids _.
  match goal with |- reads _ ?r _ =>
    change (reads w r (Ok ([] ++ (value_at (wview w) attr <$> uids)) ≫= λ values,
      filtered ← geo.FilterUids uids values gq; rows ← intersect_rows (UidMatrix out) filtered;
      Ok (mkResult rows (Values out) (Counts out) (IntersectDest out)))) end.
  apply reads_bind; [by apply all_values_spec|].
  intros values w1 _ (Hw1 & _). apply reads_pure. intros filtered _. apply reads_pure. intros rows _. by apply reads_ret.
Qed.

Lemma processTask_spec q w : world_ok w → query_ok q → reads w (processTask q w) (a_task (wview w) q).
Proof.
  intros Hw [Ha Hs]. unfold processTask, a_task.
  assert (a_keys (wview w) q = ' (keys, gq, b) ← task_keys q (negb (length (SrcFunc q) =? 0)%nat); Ok (den w <$> (keys : list (list byte)), gq, b)) as ->.
  { unfold a_keys, task_keys. destruct (SrcFunc q) as [|f fs]; simpl.
    - do 3 f_equal. by rewrite <-list_fmap_compose.
    - destruct (function_tokens (f :: fs)) as [[[tokens gq] b]| |]; simpl; [|done..]. do 3 f_equal. by rewrite <-list_fmap_compose. }
  destruct (task_keys q _) as [[[keys gq] b]|e|m]; cbn [mbind res_bind]; [|done..].
  apply (reads_bind _ _ _ _ (λ out, out ← a_geo (wview w) (QAttr q) gq out; Ok (mkResult (UidMatrix out) (Values out) (Counts out) b))).
  { apply all_lists_spec; [done|done|]. intros Hf. apply Hs. intros Hn. by rewrite Hn in Hf. }
  intros out w1 _ (Hw1 & _ & _ & Hd). apply (reads_bind _ _ _ _ (λ out, Ok (mkResult (UidMatrix out) (Values out) (Counts out) b))).
  2: { intros out' w2 _ (Hw2 & _). by apply reads_ret. }
  replace (a_geo (wview w) (QAttr q) gq out) with (a_geo (wview w1) (QAttr q) gq out); [by apply geo_check_spec|].
  unfold a_geo. destruct gq; [|done]. destruct (algo.MergeSorted (UidMatrix out)) as [uids| |]; [|done..]. simpl.
  replace (value_at (wview w1) (QAttr q) <$> uids) with (value_at (wview w) (QAttr q) <$> uids); [done|].
  apply list_fmap_ext. intros i u' _. unfold value_at. simpl. by rewrite Hd.
Qed.
End refine.

(** ** The servers of a cluster *)
Section network.
Context {St : Type} `{KVStore St} `{IndexLib} `{Farm}.
Context (conf : group.config) (Hconf : u32 (group.n conf) ≠ 0).
Implicit Types (w : world St) (cl : cluster (St := St)).

Notation group_of := (mutation.group_of conf).

(** The server of each predicate's group has the postings of the view. *)
Definition sees cl (v : view) : Prop :=
  (∀ gid, world_ok (cl gid)) ∧
  (∀ u a, den (cl (group_of a)) (posting_key.Key u a) = data v u a) ∧
  ∀ a t, den (cl (group_of a)) (index_key.IndexKey a t) = idx v a t.

Lemma a_task_ext (v v' : view) q :
  (∀ u, data v u (QAttr q) = data v' u (QAttr q)) → (∀ t, idx v (QAttr q) t = idx v' (QAttr q) t) → a_task v q = a_task v' q.
Proof.
  intros Hd Hi. unfold a_task, a_keys.
  assert ((λ u, data v u (QAttr q)) <$> QUids q = (λ u, data v' u (QAttr q)) <$> QUids q) as -> by (apply list_fmap_ext; intros; apply Hd).
  assert (∀ toks : list (list byte), idx v (QAttr q) <$> toks = idx v' (QAttr q) <$> toks) as Hi' by (intros; apply list_fmap_ext; intros; apply Hi).
  assert (∀ gq out, a_geo v (QAttr q) gq out = a_geo v' (QAttr q) gq out) as Hg.
  { intros [gq|] out; [|done]. unfold a_geo. destruct (algo.MergeSorted _) as [uids| |]; [|done..]. simpl.
    assert (value_at v (QAttr q) <$> uids = value_at v' (QAttr q) <$> uids) as ->; [|done].
    apply list_fmap_ext. intros. unfold value_at. by rewrite Hd. }
  destruct (SrcFunc q) as [|f fs].
  - done.
  - destruct (function_tokens (f :: fs)) as [[[toks gq] b]| |]; [|done..]. simpl. rewrite Hi'.
    destruct (a_lists _ _ _ _); [|done..]. simpl. by rewrite Hg.
Qed.

(** No server has changed what its lists denote. *)
Definition kept cl cl' : Prop := ∀ gid, unchanged (cl gid) (cl' gid).

Lemma kept_refl cl : (∀ gid, world_ok (cl gid)) → kept cl cl.
Proof. intros Hw gid. by apply unchanged_refl. Qed.

Lemma kept_trans cl1 cl2 cl3 : kept cl1 cl2 → kept cl2 cl3 → kept cl1 cl3.
Proof. intros H12 H23 gid. by eapply unchanged_trans. Qed.

Lemma sees_kept cl cl' v : sees cl v → kept cl cl' → sees cl' v.
Proof.
  intros (Hw & Hd & Hi) Hk. split_and!.
  - intros gid. apply Hk.
  - intros u a. destruct (Hk (group_of a)) as (_ & _ & _ & Hden). by rewrite Hden.
  - intros a t. destruct (Hk (group_of a)) as (_ & _ & _ & Hden). by rewrite Hden.
Qed.

Lemma ProcessTaskOverNetwork_spec q cl v r :
  sees cl v → query_ok q → a_task v q = Ok r →
  ∃ cl', ProcessTaskOverNetwork conf (λ _, None) q cl = Ok (r, cl') ∧ kept cl cl'.
Proof.
  intros (Hw & Hd & Hi) Hq Hr. unfold ProcessTaskOverNetwork. rewrite mutation.BelongsTo_group_of by done. cbn [mbind res_bind].
  pose proof (processTask_spec q (cl (group_of (QAttr q))) (Hw _) Hq) as Hp.
  rewrite (a_task_ext _ v) in Hp; [|intros; apply Hd|intros; apply Hi]. rewrite Hr in Hp. destruct Hp as (w' & -> & Hu).
  cbn [mbind res_bind]. eexists. split; [reflexivity|]. intros gid. unfold set_server.
  case_decide as He; [by subst gid|by apply unchanged_refl].
Qed.
End network.
End process.
