(* ===== verification/Sort.v ===== *)
(** Sorting by a predicate's value ([worker/sort.go], [types/sort.go]).

    [processSort] walks the token table of the predicate, in index order, and
    takes from each bucket the uids of each row, sorted by value, until every
    row has its page. [sort.Sort] is the class [GoSort]: some sorted
    permutation. *)
From Stdlib Require Import SpecFloat.
From S2P Require Import Prelude Bytes Store Keys Task Algo PostingList PostingIter Tokens Types Geo Lex Schema Group Index Mutation Process.
From stdpp Require Import options.
#[local] Open Scope Z_scope.
#[local] Set Default Proof Using "Type*".

Class GoSort : Type := {
  sort_Sort {A} : (A → A → bool) → list A → list A;
}.
Class GoSortLaws `{GoSort} : Prop := {
  sort_perm {A} (less : A → A → bool) l : sort_Sort less l ≡ₚ l;
  sort_sorted {A} (less : A → A → bool) l :
    (∀ a b, a ∈ l → b ∈ l → less a b = true → less b a = false) →
    (∀ a b c, a ∈ l → b ∈ l → c ∈ l → less a b = false → less b c = false → less a c = false) →
    StronglySorted (λ a b, less b a = false) (sort_Sort less l);
}.

Module sort.
Import posting posting_read index process.

Section scalars.
Context `{types.ValueLib} `{GoSort}.

(** [Less] of the type's order, with the type assertions it makes. *)
Definition typed (tid : Z) (v : types.Value) : bool :=
  match v with
  | types.VDate _ => tid =? types.DateID
  | types.VTime _ => tid =? types.DateTimeID
  | types.VInt32 _ => tid =? types.Int32ID
  | types.VFloat _ => tid =? types.FloatID
  | types.VString _ => tid =? types.StringID
  | types.VBytes _ => tid =? types.BytesID
  | _ => false
  end.

Definition Less (a b : types.Value) : bool :=
  match a, b with
  | types.VDate a, types.VDate b => a <? b
  | types.VTime a, types.VTime b =>
      (types.Unix a <? types.Unix b) || ((types.Unix a =? types.Unix b) && (types.Nanosecond a <? types.Nanosecond b))
  | types.VInt32 a, types.VInt32 b => a <? b
  | types.VFloat a, types.VFloat b => SFltb (types.f_view a) (types.f_view b)
  | types.VString a, types.VString b => bool_decide (bytes_lt a b)
  | types.VBytes a, types.VBytes b => bool_decide (bytes_lt a b)
  | _, _ => false
  end.

Definition sortable (tid : Z) : bool :=
  bool_decide (tid ∈ [types.DateID; types.DateTimeID; types.Int32ID; types.FloatID; types.StringID; types.BytesID]).

(** [Scalar.Sort] of the uids by their values; the values are sorted along.
    Fewer than two elements are not compared. *)
Definition Sort (s : types.Scalar) (v : list types.Value) (ul : list Z) : res (list Z) :=
  if negb (sortable (types.id s)) then Err "Scalar doesn't support sorting %s"
  else if (1 <? length v)%nat && negb (forallb (typed (types.id s)) v) then Crash "interface conversion"
  else Ok (sort_Sort (λ a b, Less a.1 b.1) (zip v ul)).*2.
End scalars.

Section ops.
Context {St : Type} `{KVStore St} `{IndexLib} `{Farm} `{GoSort}.
Context (sch : schema.tables).
Implicit Types (w : world St).

(** [task.Sort]. *)
Record SortQ : Type := mkSort {
  SAttr : list byte;
  SMatrix : list (list Z);
  SCount : Z;
  SOffset : Z;
}.

(** The value of an entity in the type of the schema, or an error. *)
Definition fetchValue (uid : Z) (attr : list byte) (scalar : types.Scalar) w : res ((types.Value + string) * world St) :=
  ' (v, w) ← read (ValueOf (store w)) (posting_key.Key uid attr) w;
  match v with
  | None => Ok (inr "No value found", w)
  | Some (valBytes, vType) =>
      if types.ValueForType vType false false false false false false false false true then Ok (inr "Invalid type: %v", w)
      else
        match types.UnmarshalBinary vType valBytes ≫= types.Convert scalar with
        | Ok schemaVal => Ok (inl schemaVal, w)
        | Err e => Ok (inr e, w)
        | Crash m => Crash m
        end
  end.

(** The values of all uids, or nothing after the first error. *)
Fixpoint fetch_all (uids : list Z) (attr : list byte) (scalar : types.Scalar) (values : list types.Value) w :
    res (option (list types.Value) * world St) :=
  match uids with
  | [] => Ok (Some values, w)
  | uid :: uids =>
      ' (v, w) ← fetchValue uid attr scalar w;
      match v with
      | inl val => fetch_all uids attr scalar (values ++ [val]) w
      | inr _ => Ok (None, w)
      end
  end.

(** Its error is ignored by the caller: the uids then stay as they are. *)
Definition sortByValue (attr : list byte) (ul : list Z) (scalar : types.Scalar) w : res (list Z * world St) :=
  ' (values, w) ← fetch_all ul attr scalar [] w;
  match values with
  | None => Ok (ul, w)
  | Some values =>
      match Sort scalar values ul with
      | Ok ul => Ok (ul, w)
      | Err _ => Ok (ul, w)
      | Crash m => Crash m
      end
  end.

(** A row of the result in the making. *)
Record intersectedList : Type := mkIl { offset : Z; ulist : list Z }.

(** The body of the loop over the rows; [key] is the bucket's list. *)
Definition bucket_row (attr key : list byte) (count : Z) (scalar : types.Scalar) (ul : list Z) (il : intersectedList) w :
    res (intersectedList * world St) :=
  if (0 <? count) && (count <=? Z.of_nat (length (ulist il))) then Ok (il, w)
  else
    ' (result, w) ← read (λ l, Uids (store w) l (mkOptions 0 (Some ul))) key w;
    let n := Z.of_nat (length result) in
    if n <=? offset il then Ok (mkIl (offset il - n) (ulist il), w)
    else
      ' (result, w) ← sortByValue attr result scalar w;
      result ← (if 0 <? offset il then slice result (offset il) n else Ok result);
      let off := if 0 <? offset il then 0 else offset il in
      let n := Z.of_nat (length result) in
      let slack := count - Z.of_nat (length (ulist il)) in
      let n := if (0 <? count) && (slack <? n) then slack else n in
      Ok (mkIl off (ulist il ++ take (Z.to_nat n) result), w).

Fixpoint bucket_rows (attr key : list byte) (count : Z) (scalar : types.Scalar) (rows : list (list Z)) (out : list intersectedList) w :
    res (list intersectedList * world St) :=
  match rows, out with
  | ul :: rows, il :: out =>
      ' (il, w) ← bucket_row attr key count scalar ul il w;
      ' (out, w) ← bucket_rows attr key count scalar rows out w;
      Ok (il :: out, w)
  | _, _ => Ok (out, w)
  end.

(** The loop at the end: [true] is [errDone], [false] [errContinue]. *)
Fixpoint all_full (count : Z) (out : list intersectedList) : res bool :=
  match out with
  | [] => Ok true
  | il :: out =>
      if Z.of_nat (length (ulist il)) <? count then Ok false
      else assert_true (Z.of_nat (length (ulist il)) =? count) "Assert failed";; all_full count out
  end.

Definition intersectBucket (ts : SortQ) (attr token : list byte) (out : list intersectedList) w :
    res (bool * list intersectedList * world St) :=
  match schema.TypeOf sch attr with
  | None => Crash "nil pointer dereference"
  | Some (schema.TObject _ _) => Err "Cannot sort attribute %s of type object."
  | Some (schema.TScalar scalar) =>
      ' (out, w) ← bucket_rows attr (index_key.IndexKey attr token) (SCount ts) scalar (SMatrix ts) out w;
      b ← all_full (SCount ts) out;
      Ok (b, out, w)
  end.

(** The loop [BUCKETS] over a table of [n] tokens takes at most [n] rounds. *)
Fixpoint buckets (fuel : nat) (ts : SortQ) (t : list (list byte)) (token : list byte) (out : list intersectedList) w :
    res (list intersectedList * world St) :=
  match fuel with
  | O => Crash out_of_fuel
  | S fuel =>
      if (length token =? 0)%nat then Ok (out, w)
      else
        ' (b, out, w) ← intersectBucket ts (SAttr ts) token out w;
        if (b : bool) then Ok (out, w) else buckets fuel ts t (tokens.GetNext t token) out w
  end.

(** The walk over the table of the predicate, which [GetFirst] assumes there. *)
Definition all_buckets (ts : SortQ) (out : list intersectedList) w : res (list intersectedList * world St) :=
  match tables w !! SAttr ts with
  | None => Crash "nil pointer dereference"
  | Some t => buckets (S (length t)) ts t (tokens.GetFirst t) out w
  end.

Definition processSort (ts : SortQ) w : res (list (list Z) * world St) :=
  assert_true (0 <? SCount ts) "We do not yet support negative or infinite count with sorting: %s %d.";;
  ' (out, w) ← all_buckets ts (replicate (length (SMatrix ts)) (mkIl (SOffset ts) [])) w;
  Ok (ulist <$> (out : list intersectedList), w).

Context (conf : group.config) (Down : Z → option string).

Definition SortOverNetwork (q : SortQ) (cl : cluster) : res (list (list Z) * cluster) :=
  gid ← group.BelongsTo Fingerprint32 conf (SAttr q);
  match Down gid with
  | Some e => Err e
  | None => ' (r, w) ← processSort q (cl gid); Ok (r, set_server gid w cl)
  end.
End ops.

(** ** What a sort returns *)
Section pages.
Context {St : Type} `{KVStore St} `{IndexLib} `{Farm} `{GoSortLaws}.
Context (sch : schema.tables) (attr : list byte) (scalar : types.Scalar) (val : Z → types.Value).
Implicit Types (w : world St).

(** The uids of a row that have a token, in the order of the uids and in the
    order of their values. *)
Definition bucket w (ul : list Z) (tok : list byte) : list Z :=
  filter (λ x, x ∈ ul) (keys_after 0 (den w (index_key.IndexKey attr tok))).
Definition sort_by (ul : list Z) : list Z := (sort_Sort (λ a b, Less a.1 b.1) (zip (val <$> ul) ul)).*2.

(** The order a sort produces: token after token, each sorted by value. *)
Definition ordered w (toks : list (list byte)) (ul : list Z) : list Z := mjoin ((λ tok, sort_by (bucket w ul tok)) <$> toks).

(** The uid has a value of the type of the schema. *)
Definition has_value w (u : Z) : Prop :=
  ∃ vt v lab p, den w (posting_key.Key u attr) !! MaxUint64 = Some (vt, v, lab) ∧ types.UnmarshalBinary (vt mod 256) v = Ok p ∧
    types.Convert scalar p = Ok (val u) ∧ typed (types.id scalar) (val u) = true.

(** No list of the index goes on beyond the row, and what is in both has a value. *)
Definition row_ok w (toks : list (list byte)) (ul : list Z) : Prop :=
  StronglySorted Z.lt ul ∧
  ∀ tok, tok ∈ toks → (ul ≠ [] → ¬ Exists (past ul) (keys_after 0 (den w (index_key.IndexKey attr tok)))) ∧
    ∀ u, u ∈ bucket w ul tok → has_value w u.

Lemma sort_by_perm ul : sort_by ul ≡ₚ ul.
Proof. unfold sort_by. rewrite sort_perm, snd_zip; [done|]. by rewrite length_fmap. Qed.

Lemma sort_by_length ul : length (sort_by ul) = length ul.
Proof. apply Permutation_length, sort_by_perm. Qed.

Lemma has_value_same w w' u : unchanged w w' → has_value w u → has_value w' u.
Proof. intros (_ & _ & _ & Hd) (vt & v & lab & p & Hv & Hr). exists vt, v, lab, p. by rewrite Hd. Qed.

Lemma bucket_same w w' ul tok : unchanged w w' → bucket w' ul tok = bucket w ul tok.
Proof. intros (_ & _ & _ & Hd). unfold bucket. by rewrite Hd. Qed.

Lemma known_type id v p :
  types.UnmarshalBinary id v = Ok p → types.ValueForType id false false false false false false false false true = false.
Proof. unfold types.UnmarshalBinary, types.ValueForType, types.nil_method. repeat (destruct (_ =? _); [done|]). done. Qed.

Lemma fetchValue_spec u w : world_ok w → has_value w u → reads w (fetchValue u attr scalar w) (Ok (inl (val u))).
Proof.
  intros Hw (vt & v & lab & p & Hv & Hp & Hc & _). unfold fetchValue.
  match goal with |- reads _ ?r _ =>
    change (reads w r (Ok (Some (v, vt mod 256)) ≫= λ _, Ok (inl (val u)))) end.
  apply reads_bind.
  - pose proof (read_value_spec (posting_key.Key u attr) w Hw) as Hr. unfold value_in in Hr. by rewrite Hv in Hr.
  - intros x w1 [= <-] (Hw1 & _). rewrite (known_type _ _ _ Hp), Hp. simpl. rewrite Hc. by apply reads_ret.
Qed.

Lemma fetch_all_spec uids values w :
  world_ok w → Forall (has_value w) uids → reads w (fetch_all uids attr scalar values w) (Ok (Some (values ++ (val <$> uids)))).
Proof.
  intros Hw Hv. revert values w Hw Hv. induction uids as [|u uids IH]; intros values w Hw Hv; cbn [fetch_all].
  { rewrite app_nil_r. by apply reads_ret. }
  apply Forall_cons in Hv as [Hu Hv].
  match goal with |- reads _ ?r _ =>
    change (reads w r (Ok (inl (B := string) (val u)) ≫= λ _, Ok (Some (values ++ [val u] ++ (val <$> uids))))) end.
  apply reads_bind; [by apply fetchValue_spec|]. intros x w1 [= <-] Hu1. cbn beta iota. rewrite app_assoc. apply IH; [apply Hu1|].
  eapply Forall_impl; [exact Hv|]. intros u'. by apply has_value_same.
Qed.

Lemma sortByValue_spec ul w :
  sortable (types.id scalar) = true → world_ok w → Forall (has_value w) ul → reads w (sortByValue attr ul scalar w) (Ok (sort_by ul)).
Proof.
  intros Hso Hw Hv. unfold sortByValue.
  match goal with |- reads _ ?r _ => change (reads w r (Ok (Some ([] ++ (val <$> ul))) ≫= λ _, Ok (sort_by ul))) end.
  apply reads_bind; [by apply fetch_all_spec|]. intros x w1 [= <-] (Hw1 & _). cbn beta iota. unfold Sort. rewrite Hso. simpl.
  assert (forallb (typed (types.id scalar)) (val <$> ul) = true) as ->.
  { apply forallb_forall. intros v Hin%list_elem_of_In. apply list_elem_of_fmap in Hin as (u & -> & Hu).
    rewrite Forall_forall in Hv. by destruct (Hv u Hu) as (? & ? & ? & ? & _ & _ & _ & ?). }
  rewrite andb_false_r. by apply reads_ret.
Qed.

Lemma bucket_read tok ul w :
  world_ok w → StronglySorted Z.lt ul → (ul ≠ [] → ¬ Exists (past ul) (keys_after 0 (den w (index_key.IndexKey attr tok)))) →
  reads w (read (λ l, Uids (store w) l (mkOptions 0 (Some ul))) (index_key.IndexKey attr tok) w) (Ok (bucket w ul tok)).
Proof.
  intros Hw Hs Hn. destruct (decide (ul = [])) as [->|Hne].
  - apply read_list; [done|]. destruct (Hw (index_key.IndexKey attr tok)) as (Hinv & _).
    rewrite (Uids_spec (store w) _ _ _ Hinv); [|simpl; lia|intros ? [= <-]; constructor]. cbn [Intersect AfterUID].
    rewrite bool_decide_false by (by intros [? _]). unfold bucket.
    rewrite !filter_none; [done|..]; apply Forall_forall; intros x _; apply not_elem_of_nil.
  - pose proof (read_uids_spec (index_key.IndexKey attr tok) w 0 ul Hw ltac:(lia) (ssorted_lt_le _ Hs)) as Hr.
    unfold row_of in Hr. rewrite (bool_decide_false (ul = [])) in Hr by done. rewrite bool_decide_false in Hr by by apply Hn. done.
Qed.

(** The state of a row after the uids [L] have been seen. *)
Definition page (c o : nat) (L : list Z) : intersectedList := mkIl (Z.of_nat (o - length L)) (take c (drop o L)).

Lemma page_full c o L B : (c ≤ length (take c (drop o L)))%nat → (0 < c)%nat → page c o (L ++ B) = page c o L.
Proof.
  rewrite length_take, length_drop. intros Hc Hpos. unfold page. rewrite length_app, drop_app_le, take_app_le by (rewrite ?length_drop; lia).
  f_equal. lia.
Qed.

Lemma page_skip c o L B :
  (length B ≤ o - length L)%nat → mkIl (offset (page c o L) - Z.of_nat (length B)) (ulist (page c o L)) = page c o (L ++ B).
Proof.
  intros Hle. unfold page. cbn [offset ulist]. rewrite length_app. f_equal; [lia|]. rewrite drop_app. f_equal.
  destruct (decide (B = [])) as [->|Hne]; [by rewrite drop_nil, app_nil_r|].
  assert (0 < length B)%nat by (destruct B; [done|simpl; lia]). rewrite (drop_ge B) by lia. by rewrite app_nil_r.
Qed.

Lemma page_take c o L B :
  (o - length L < length B)%nat → (length (take c (drop o L)) < c)%nat →
  page c o (L ++ B) = mkIl 0 (ulist (page c o L) ++ take (c - length (ulist (page c o L))) (drop (o - length L) B)).
Proof.
  intros Hlt Hlen. unfold page. cbn [ulist]. rewrite length_app, drop_app. f_equal; [lia|].
  rewrite length_take in Hlen. rewrite (take_ge (drop o L)) by lia. rewrite take_app_ge by lia. done.
Qed.

Lemma bucket_row_spec c o tok toks ul L w :
  sortable (types.id scalar) = true → world_ok w → (0 < c)%nat → row_ok w toks ul → tok ∈ toks →
  reads w (bucket_row attr (index_key.IndexKey attr tok) (Z.of_nat c) scalar ul (page c o L) w)
    (Ok (page c o (L ++ sort_by (bucket w ul tok)))).
Proof.
  intros Hso Hw Hc [Hs Hrow] Htok. destruct (Hrow tok Htok) as [Hn Hv]. unfold bucket_row.
  rewrite (proj2 (Z.ltb_lt 0 (Z.of_nat c))) by lia. cbn [andb].
  destruct (Z.leb_spec (Z.of_nat c) (Z.of_nat (length (ulist (page c o L))))) as [Hfull|Hlen].
  { rewrite page_full by (cbn in Hfull; lia). by apply reads_ret. }
  set (B := sort_by (bucket w ul tok)). assert (length (bucket w ul tok) = length B) as HlenB by (symmetry; apply sort_by_length).
  match goal with |- reads _ ?r _ => change (reads w r (Ok (bucket w ul tok) ≫= λ _, Ok (page c o (L ++ B)))) end.
  apply reads_bind; [by apply bucket_read|]. intros x w1 [= <-] Hu1. cbn beta iota. rewrite HlenB.
  destruct (Z.leb_spec (Z.of_nat (length B)) (offset (page c o L))) as [Hle|Hgt].
  { rewrite page_skip by (cbn in Hle; lia). apply reads_ret, Hu1. }
  match goal with |- reads _ ?r _ => change (reads w1 r (Ok B ≫= λ _, Ok (page c o (L ++ B)))) end.
  apply reads_bind.
  { apply sortByValue_spec; [done|apply Hu1|]. apply Forall_forall. intros u Hin. by eapply has_value_same; [|apply Hv]. }
  intros x w2 [= <-] (Hw2 & _). cbn beta iota.
  assert ((if 0 <? offset (page c o L) then slice B (offset (page c o L)) (Z.of_nat (length B)) else Ok B) = Ok (drop (o - length L) B)) as ->.
  { destruct (Z.ltb_spec 0 (offset (page c o L))) as [Hpos|Hz]; cbn in *.
    - rewrite slice_ok by lia. do 2 f_equal. rewrite take_ge by (rewrite length_drop; lia). f_equal. lia.
    - replace (o - length L)%nat with 0%nat by lia. done. }
  cbn [mbind res_bind]. cbv zeta. cbn in Hgt, Hlen.
  replace (if 0 <? offset (page c o L) then 0 else offset (page c o L)) with 0 by (destruct (Z.ltb_spec 0 (offset (page c o L))); cbn in *; lia).
  rewrite page_take by lia. cbn [andb].
  match goal with |- reads _ (Ok (mkIl 0 ?a, w2)) (Ok (mkIl 0 ?b)) => assert (a = b) as -> end; [|by apply reads_ret].
  f_equal. destruct (Z.ltb_spec (Z.of_nat c - Z.of_nat (length (ulist (page c o L)))) (Z.of_nat (length (drop (o - length L) B)))) as [Hlt|Hge].
  - f_equal. lia.
  - rewrite !take_ge; [done|lia..].
Qed.

Lemma ordered_app w ts1 ts2 ul : ordered w (ts1 ++ ts2) ul = ordered w ts1 ul ++ ordered w ts2 ul.
Proof. unfold ordered. by rewrite fmap_app, join_app. Qed.

Lemma ordered_one w tok ul : ordered w [tok] ul = sort_by (bucket w ul tok).
Proof. unfold ordered. simpl. apply app_nil_r. Qed.

Lemma row_ok_same w w' toks ul : unchanged w w' → row_ok w toks ul → row_ok w' toks ul.
Proof.
  intros Hu [Hs Hr]. split; [done|]. intros tok Htok. destruct (Hr tok Htok) as [Hn Hv]. rewrite (bucket_same w w') by done.
  split; [destruct Hu as (_ & _ & _ & Hd); by rewrite Hd|]. intros u Hin. eapply has_value_same; [done|]. by apply Hv.
Qed.

(** The rows after the tokens [ts] of a table, in a world that has not changed
    since [w0]. *)
Definition pages w0 c o (ts : list (list byte)) (rows : list (list Z)) : list intersectedList :=
  (λ ul, page c o (ordered w0 ts ul)) <$> rows.

Context (w0 : world St) (toks : list (list byte)) (c o : nat).
Context (Hsort : sortable (types.id scalar) = true) (Hc : (0 < c)%nat).

Lemma bucket_rows_spec ts tok rows w :
  world_ok w → unchanged w0 w → tok ∈ toks → Forall (row_ok w0 toks) rows →
  reads w (bucket_rows attr (index_key.IndexKey attr tok) (Z.of_nat c) scalar rows (pages w0 c o ts rows) w)
    (Ok (pages w0 c o (ts ++ [tok]) rows)).
Proof.
  intros Hw Hu Htok Hrows. revert w Hw Hu. induction Hrows as [|ul rows Hul Hrows IH]; intros w Hw Hu; cbn [bucket_rows pages fmap list_fmap].
  { by apply reads_ret. }
  match goal with |- reads _ ?r _ =>
    change (reads w r (Ok (page c o (ordered w0 (ts ++ [tok]) ul)) ≫= λ il, Ok (pages w0 c o (ts ++ [tok]) rows) ≫= λ out, Ok (il :: out))) end.
  apply reads_bind.
  { rewrite ordered_app, ordered_one, <-(bucket_same w0 w) by done. eapply bucket_row_spec; try done. by eapply row_ok_same. }
  intros il w1 _ Hu1. apply reads_bind; [apply IH; [apply Hu1|by eapply unchanged_trans]|].
  intros out w2 _ (Hw2 & _). by apply reads_ret.
Qed.

(** Whether every row has its page. *)
Definition full (out : list intersectedList) : bool := forallb (λ il, c <=? length (ulist il))%nat out.

Lemma all_full_spec ts rows : all_full (Z.of_nat c) (pages w0 c o ts rows) = Ok (full (pages w0 c o ts rows)).
Proof.
  unfold full. induction rows as [|ul rows IH]; [done|]. cbn [pages fmap list_fmap all_full forallb].
  assert (length (ulist (page c o (ordered w0 ts ul))) ≤ c)%nat as Hle by (cbn; rewrite length_take; lia).
  destruct (Z.ltb_spec (Z.of_nat (length (ulist (page c o (ordered w0 ts ul))))) (Z.of_nat c)) as [Hlt|Hge].
  - by rewrite (proj2 (Nat.leb_gt _ _)) by lia.
  - rewrite (proj2 (Z.eqb_eq _ _)) by lia. rewrite (proj2 (Nat.leb_le _ _)) by lia. simpl. apply IH.
Qed.

Lemma full_pages ts ts' rows : full (pages w0 c o ts rows) = true → pages w0 c o (ts ++ ts') rows = pages w0 c o ts rows.
Proof.
  unfold full. induction rows as [|ul rows IH]; [done|]. cbn [pages fmap list_fmap forallb]. intros [Hl Hr]%andb_prop.
  f_equal; [|by apply IH]. rewrite ordered_app. apply page_full; [|done]. by apply Nat.leb_le.
Qed.

Lemma intersectBucket_spec ts tok rows off w :
  world_ok w → unchanged w0 w → tok ∈ toks → schema.TypeOf sch attr = Some (schema.TScalar scalar) → Forall (row_ok w0 toks) rows →
  reads w (intersectBucket sch (mkSort attr rows (Z.of_nat c) off) attr tok (pages w0 c o ts rows) w)
    (Ok (full (pages w0 c o (ts ++ [tok]) rows), pages w0 c o (ts ++ [tok]) rows)).
Proof.
  intros Hw Hu Htok Hty Hrows. unfold intersectBucket. rewrite Hty. cbn [SAttr SMatrix SCount].
  match goal with |- reads _ ?r _ => change (reads w r (Ok (pages w0 c o (ts ++ [tok]) rows) ≫= λ out,
    Ok (full (pages w0 c o (ts ++ [tok]) rows), out))) end.
  apply reads_bind; [by apply bucket_rows_spec|]. intros out w1 [= <-] (Hw1 & _). rewrite all_full_spec. by apply reads_ret.
Qed.

Lemma buckets_spec ts rest rows fuel off w :
  world_ok w → unchanged w0 w → toks = ts ++ rest → tokens.sorted toks → Forall (λ k, k ≠ []) toks →
  schema.TypeOf sch attr = Some (schema.TScalar scalar) → Forall (row_ok w0 toks) rows → (length rest < fuel)%nat →
  reads w (buckets sch fuel (mkSort attr rows (Z.of_nat c) off) toks (default [] (toks !! length ts)) (pages w0 c o ts rows) w)
    (Ok (pages w0 c o toks rows)).
Proof.
  intros Hw Hu Ht Hsorted Hne Hty Hrows. revert ts fuel w Hw Hu Ht.
  induction rest as [|tok rest IH]; intros ts fuel w Hw Hu Ht Hf; (destruct fuel as [|fuel]; [lia|]); cbn [buckets].
  { rewrite lookup_ge_None_2 by (rewrite Ht, app_nil_r; lia). cbn. rewrite Ht, app_nil_r. by apply reads_ret. }
  assert (toks !! length ts = Some tok) as Hl by (rewrite Ht; by rewrite lookup_app_r, Nat.sub_diag by lia).
  rewrite Hl. cbn [default from_option id]. assert (tok ≠ []) as Hnt by (rewrite Forall_forall in Hne; by eapply Hne, list_elem_of_lookup_2).
  rewrite (proj2 (Nat.eqb_neq _ _)) by (by destruct tok). cbn [SAttr].
  assert (toks = (ts ++ [tok]) ++ rest) as Ht' by (by rewrite <-app_assoc).
  match goal with |- reads _ ?r _ => change (reads w r (Ok (full (pages w0 c o (ts ++ [tok]) rows), pages w0 c o (ts ++ [tok]) rows) ≫= λ _,
    Ok (pages w0 c o toks rows))) end.
  apply reads_bind; [apply intersectBucket_spec; try done; by eapply list_elem_of_lookup_2|].
  intros x w1 [= <-] Hu1. cbn beta iota. destruct (full (pages w0 c o (ts ++ [tok]) rows)) eqn:Hfull.
  - rewrite Ht', (full_pages (ts ++ [tok]) rest) by done. apply reads_ret, Hu1.
  - rewrite (tokens.GetNext_lookup toks (length ts) tok) by done.
    specialize (IH (ts ++ [tok]) fuel w1). rewrite length_app, Nat.add_1_r in IH.
    apply IH; [apply Hu1|by eapply unchanged_trans|done|simpl in Hf; lia].
Qed.
End pages.

(** ** The order by value *)
Section order.
Context {St : Type} `{KVStore St} `{IndexLib} `{Farm} `{GoSortLaws}.
Context (attr : list byte) (val : Z → types.Value).
Implicit Types (w : world St).

(** Uids in the order of their values. *)
Definition by_value (u u' : Z) : Prop := Less (val u') (val u) = false.

(** [Less] is an order on the values of the uids: no value is a NaN, and all are
    of one type. *)
Definition orders (ul : list Z) : Prop :=
  (∀ a b, a ∈ ul → b ∈ ul → by_value a b ∨ by_value b a) ∧
  ∀ a b c, a ∈ ul → b ∈ ul → c ∈ ul → by_value b a → by_value c b → by_value c a.

Lemma ssorted_impl_elem {A} (R R' : relation A) l :
  (∀ a b, a ∈ l → b ∈ l → R a b → R' a b) → StronglySorted R l → StronglySorted R' l.
Proof.
  intros HR. induction 1 as [|x l _ IH HF]; constructor.
  - apply IH. intros a b Ha Hb. apply HR; by apply list_elem_of_further.
  - rewrite Forall_forall in *. intros y Hy. apply HR; [apply list_elem_of_here|by apply list_elem_of_further|by apply HF].
Qed.

Lemma sort_by_sorted ul : orders ul → StronglySorted by_value (sort_by val ul).
Proof.
  intros [Hrefl Htrans]. unfold sort_by. set (l := zip (val <$> ul) ul).
  assert (∀ a, a ∈ l → a.1 = val a.2 ∧ a.2 ∈ ul) as Hl.
  { intros a Ha. unfold l in Ha. clear Hrefl Htrans l. induction ul as [|u ul IH]; [by apply elem_of_nil in Ha|].
    simpl in Ha. apply elem_of_cons in Ha as [->|Ha]; [by split; [|apply list_elem_of_here]|].
    destruct (IH Ha) as [? ?]. split; [done|]. by apply list_elem_of_further. }
  pose proof (sort_sorted (λ a b : types.Value * Z, Less a.1 b.1) l) as Hs. pose proof (sort_perm (λ a b : types.Value * Z, Less a.1 b.1) l) as Hp.
  assert (∀ a, a ∈ sort_Sort (λ a b, Less a.1 b.1) l → a.1 = val a.2) as Hval by (intros a Ha; rewrite Hp in Ha; by apply Hl).
  apply ssorted_fmap. eapply ssorted_impl_elem; [|apply Hs].
  - intros a b Ha Hb Hr. unfold by_value. rewrite <-(Hval a), <-(Hval b) by done. exact Hr.
  - intros a b Ha Hb. destruct (Hl a Ha) as [-> Ha2], (Hl b Hb) as [-> Hb2]. intros Hab.
    destruct (Hrefl a.2 b.2 Ha2 Hb2) as [Ho|Ho]; unfold by_value in Ho; congruence.
  - intros a b c Ha Hb Hc. destruct (Hl a Ha) as [-> Ha2], (Hl b Hb) as [-> Hb2], (Hl c Hc) as [-> Hc2]. by apply Htrans.
Qed.

Lemma ordered_elem w toks ul u :
  u ∈ ordered attr val w toks ul ↔ u ∈ ul ∧ ∃ tok, tok ∈ toks ∧ u ∈ keys_after 0 (den w (index_key.IndexKey attr tok)).
Proof.
  unfold ordered. rewrite list_elem_of_join. setoid_rewrite list_elem_of_fmap. split.
  - intros (l & Hu & tok & -> & Htok). rewrite sort_by_perm in Hu. apply list_elem_of_filter in Hu as [Hul Hk]. eauto.
  - intros (Hul & tok & Htok & Hk). eexists. split; [|by exists tok]. rewrite sort_by_perm. by apply list_elem_of_filter.
Qed.

(** The buckets follow the order of the values. *)
Definition monotone w (toks : list (list byte)) (ul : list Z) : Prop :=
  StronglySorted (λ t t', ∀ u u', u ∈ bucket attr w ul t → u' ∈ bucket attr w ul t' → by_value u u') toks.

Lemma ordered_sorted w toks ul :
  orders ul → monotone w toks ul → StronglySorted by_value (ordered attr val w toks ul).
Proof.
  intros Ho. induction toks as [|tok toks IH]; intros Hm; [constructor|]. apply StronglySorted_cons in Hm as [Hf Hm].
  change (ordered attr val w (tok :: toks) ul) with (sort_by val (bucket attr w ul tok) ++ ordered attr val w toks ul).
  assert (∀ u t, u ∈ bucket attr w ul t → u ∈ ul) as Hin by (intros u t Hu; by apply list_elem_of_filter in Hu as [? _]).
  apply StronglySorted_app_2; [| |by apply IH].
  - intros u u' Hu Hu'. rewrite sort_by_perm in Hu. rewrite Forall_forall in Hf. unfold ordered in Hu'. rewrite list_elem_of_join in Hu'.
    destruct Hu' as (l & Hu' & (t & -> & Ht)%list_elem_of_fmap). rewrite sort_by_perm in Hu'. by eapply Hf.
  - apply sort_by_sorted. destruct Ho as [Hr Ht]. split; [intros a b Ha Hb; apply Hr; by eapply Hin|].
    intros a b c Ha Hb Hc. apply Ht; by eapply Hin.
Qed.
End order.

Section properties.
Context {St : Type} `{KVStore St} `{IndexLib} `{Farm} `{GoSortLaws}.
Implicit Types (w : world St).

End properties.

(** ** An instance *)
#[local] Existing Instances geo.ex_values geo.ex_s2 ex_index ex_farm.

(** Insertion sort. *)
Fixpoint insert_by {A} (less : A → A → bool) (x : A) (l : list A) : list A :=
  match l with
  | [] => [x]
  | y :: l => if less y x then y :: insert_by less x l else x :: y :: l
  end.
Definition ex_sort : GoSort := {| sort_Sort A less l := foldr (insert_by less) [] l |}.
#[local] Existing Instance ex_sort.

Lemma insert_by_perm {A} (less : A → A → bool) x l : insert_by less x l ≡ₚ x :: l.
Proof. induction l as [|y l IH]; simpl; [done|]. case_match; [|done]. rewrite IH. apply Permutation_swap. Qed.

Lemma insert_by_sorted {A} (less : A → A → bool) x l :
  (∀ a b, a ∈ x :: l → b ∈ x :: l → less a b = true → less b a = false) →
  (∀ a b c, a ∈ x :: l → b ∈ x :: l → c ∈ x :: l → less a b = false → less b c = false → less a c = false) →
  StronglySorted (λ a b, less b a = false) l → StronglySorted (λ a b, less b a = false) (insert_by less x l).
Proof.
  intros Ha Ht Hs. induction Hs as [|y l Hs IH Hf]; simpl; [by repeat constructor|]. destruct (less y x) eqn:Hyx.
  - apply StronglySorted_cons. split.
    + rewrite insert_by_perm. apply Forall_cons. split; [|done]. apply Ha; [set_solver..|done].
    + apply IH; [intros a b ??; apply Ha; set_solver|intros a b c ???; apply Ht; set_solver].
  - repeat (apply StronglySorted_cons; split); [|done|done]. apply Forall_cons. split; [done|].
    rewrite Forall_forall in *. intros z Hz. eapply (Ht z y x); [set_solver..|by apply Hf|done].
Qed.

Lemma ex_sort_laws : GoSortLaws.
Proof.
  assert (∀ A (less : A → A → bool) l, sort_Sort less l ≡ₚ l) as Hp.
  { intros A less l. simpl. induction l as [|x l IH]; simpl; [done|]. by rewrite insert_by_perm, IH. }
  split; [apply Hp|]. intros A less l Ha Ht. simpl. induction l as [|x l IH]; simpl; [constructor|].
  pose proof (Hp A less l) as Hl. simpl in Hl. apply insert_by_sorted.
  - intros a b Hina Hinb. rewrite Hl in Hina, Hinb. by apply Ha.
  - intros a b c Hina Hinb Hinc. rewrite Hl in Hina, Hinb, Hinc. by apply Ht.
  - apply IH; [intros a b ??; apply Ha; set_solver|intros a b c ???; apply Ht; set_solver].
Qed.

(** The world after the name of an entity was set. *)
Definition ex_named : world memstore :=
  match AddMutationWithIndex ex_sch 1 (posting_key.Key 1 ex_attr) ex_edge Set_ ex_world with
  | Ok (w, _) => w
  | _ => ex_world
  end.

Lemma ex_named_ok : world_ok ex_named.
Proof.
  destruct ex_world_ok as (Hw & Hex & _).
  destruct (AddMutationWithIndex_spec ex_sch 1 (Z.neq_succ_diag_l 0) ex_edge Set_ ex_world Hw Hex ex_edge_valid (or_introl eq_refl))
    as (w' & Heq & Hw' & _).
  unfold ex_named. change (posting_key.Key 1 ex_attr) with (posting_key.Key (Entity ex_edge) (Attr ex_edge)). rewrite Heq. exact Hw'.
Qed.

Definition ex_query : SortQ := mkSort ex_attr [[1; 2]; [1]] 1 0.

Lemma ex_row_ok ul : ul = [1; 2] ∨ ul = [1] → row_ok ex_attr types.stringType (λ _, types.VString (bs "ann")) ex_named [bs "ann"] ul.
Proof.
  intros Hul. split; [by destruct Hul as [-> | ->]; by_decide|]. intros tok ->%list_elem_of_singleton.
  assert (keys_after 0 (den ex_named (index_key.IndexKey ex_attr (bs "ann"))) = [1]) as Hk by (vm_compute; reflexivity).
  unfold bucket. rewrite Hk. split.
  - intros _ [x [->%list_elem_of_singleton Hx]]%Exists_exists. destruct Hul as [-> | ->]; unfold past in Hx; rewrite Forall_cons in Hx; lia.
  - intros u [_ ->%list_elem_of_singleton]%list_elem_of_filter. eexists _, _, _, _.
    split; [vm_compute; reflexivity|]. split; [vm_compute; reflexivity|]. split; [vm_compute; reflexivity|done].
Qed.

End sort.
