(* ===== verification/Query.v ===== *)
(** Queries ([query/query.go]): the [SubGraph] a parsed query is turned into
    ([ToSubGraph]) and its processing ([ProcessGraph]), which asks the servers
    for the uids of each level, applies filters, order and pagination, and goes
    on with the children.

    The goroutines of a level run one after the other, in the order of the
    children; they only read. The error that is reported is then the first in
    that order. *)
From S2P Require Import Prelude Bytes Strconv Store Keys Task Algo PostingList Tokens Types Geo Lex GqlLex GqlParse Schema Group Index Mutation Process Sort.
From stdpp Require Import options.
#[local] Open Scope Z_scope.
#[local] Set Default Proof Using "Type*".

Module query.
Import process.

Record params : Type := mkParams {
  AttrType : option schema.Typ_;
  Alias : list byte;
  Count : Z;
  Offset : Z;
  AfterUID : Z;
  PDoCount : bool;
  GetUID : bool;
  Order : list byte;
  isDebug : bool;
}.

(** A nil list of uids is [None]. *)
Inductive SubGraph : Type := mkSG {
  Attr : list byte;
  Params : params;
  counts : list Z;
  values : list (Z * list byte);
  uidMatrix : list (list Z);
  SrcUIDs : option (list Z);
  SgFunc : list (list byte);
  FilterOp : list byte;
  Filters : list SubGraph;
  Children : list SubGraph;
  DestUIDs : option (list Z);
}.

Definition no_params : params := mkParams None [] 0 0 0 false false [] false.
Definition new_SubGraph (attr : list byte) (p : params) : SubGraph := mkSG attr p [] [] [] None [] [] [] [] None.

(** Updates of fields. *)
Definition set_Children (v : list SubGraph) (s : SubGraph) : SubGraph :=
  mkSG (Attr s) (Params s) (counts s) (values s) (uidMatrix s) (SrcUIDs s) (SgFunc s) (FilterOp s) (Filters s) v (DestUIDs s).
Definition set_Filters (v : list SubGraph) (s : SubGraph) : SubGraph :=
  mkSG (Attr s) (Params s) (counts s) (values s) (uidMatrix s) (SrcUIDs s) (SgFunc s) (FilterOp s) v (Children s) (DestUIDs s).
Definition set_Params (v : params) (s : SubGraph) : SubGraph :=
  mkSG (Attr s) v (counts s) (values s) (uidMatrix s) (SrcUIDs s) (SgFunc s) (FilterOp s) (Filters s) (Children s) (DestUIDs s).
Definition set_Src (v : option (list Z)) (s : SubGraph) : SubGraph :=
  mkSG (Attr s) (Params s) (counts s) (values s) (uidMatrix s) v (SgFunc s) (FilterOp s) (Filters s) (Children s) (DestUIDs s).
Definition set_Dest (v : option (list Z)) (s : SubGraph) : SubGraph :=
  mkSG (Attr s) (Params s) (counts s) (values s) (uidMatrix s) (SrcUIDs s) (SgFunc s) (FilterOp s) (Filters s) (Children s) v.
Definition set_matrix (v : list (list Z)) (s : SubGraph) : SubGraph :=
  mkSG (Attr s) (Params s) (counts s) (values s) v (SrcUIDs s) (SgFunc s) (FilterOp s) (Filters s) (Children s) (DestUIDs s).
Definition set_counts (v : list Z) (s : SubGraph) : SubGraph :=
  mkSG (Attr s) (Params s) v (values s) (uidMatrix s) (SrcUIDs s) (SgFunc s) (FilterOp s) (Filters s) (Children s) (DestUIDs s).
Definition set_result (r : Result) (s : SubGraph) : SubGraph :=
  mkSG (Attr s) (Params s) (Counts r) (Values r) (UidMatrix r) (SrcUIDs s) (SgFunc s) (FilterOp s) (Filters s) (Children s) (DestUIDs s).

Definition set_DoCount (p : params) : params :=
  mkParams (AttrType p) (Alias p) (Count p) (Offset p) (AfterUID p) true (GetUID p) (Order p) (isDebug p).
Definition set_GetUID (p : params) : params :=
  mkParams (AttrType p) (Alias p) (Count p) (Offset p) (AfterUID p) (PDoCount p) true (Order p) (isDebug p).
Definition set_Count (v : Z) (p : params) : params :=
  mkParams (AttrType p) (Alias p) v (Offset p) (AfterUID p) (PDoCount p) (GetUID p) (Order p) (isDebug p).

(** ** From the query to the subgraph *)
Definition isPresent (l : list (list byte)) (str : list byte) : bool := bool_decide (str ∈ l).

Fixpoint filterCopy (ft : gql.FilterTree) : res SubGraph :=
  match ft with
  | gql.mkFilter op func child =>
      filters ← (fix go (cs : list gql.FilterTree) : res (list SubGraph) :=
        match cs with
        | [] => Ok []
        | c :: cs => f ← filterCopy c; fs ← go cs; Ok (f :: fs)
        end) child;
      if (0 <? length op)%nat then Ok (mkSG [] no_params [] [] [] None [] op filters [] None)
      else
        match func with
        | Some f => Ok (mkSG (gql.FAttr f) no_params [] [] [] None (gql.FName f :: gql.FArgs f) [] filters [] None)
        | None => Crash "nil pointer dereference"
        end
  end.

Section copy.
(** The tables of the schema, and the order in which Go ranges over the fields
    of an object. *)
Context (sch : schema.tables) (range : gmap (list byte) (list byte) → list (list byte * list byte)).

(** The fields that are scalars come first. *)
Definition scalar_children (p : params) : list SubGraph * list (list byte) :=
  match AttrType p with
  | Some (schema.TObject name _) =>
      let l := schema.ScalarList range sch name in
      ((λ it, new_SubGraph it.1 (mkParams (Some it.2) [] 0 0 0 false false [] (isDebug p))) <$> l, l.*1)
  | _ => ([], [])
  end.

Definition child_type (p : params) (attr : list byte) : option schema.Typ_ :=
  match AttrType p with
  | Some (schema.TObject _ fields) => schema.TypeOf sch (default [] (fields !! attr))
  | Some (schema.TScalar _) => None
  | None =>
      match schema.TypeOf sch attr with
      | Some (schema.TObject name fields) =>
          if bool_decide (name = attr) then Some (schema.TObject name fields) else None
      | _ => None
      end
  end.

(** An argument of a node, read by [parse] if it is there. *)
Definition argument {A : Type} (args : option (gmap (list byte) (list byte))) (name : list byte) (parse : list byte → res A) (none : A) : res A :=
  match args ≫= lookup name with
  | Some v => parse v
  | None => Ok none
  end.

Definition child_params (p : params) (n : gql.GraphQuery) : res params :=
  offset ← argument (gql.Args n) (bs "offset") (λ v, strconv.ParseInt v 0 32) 0;
  after ← argument (gql.Args n) (bs "after") (λ v, strconv.ParseUint v 0 64) 0;
  first ← argument (gql.Args n) (bs "first") (λ v, strconv.ParseInt v 0 32) 0;
  order ← argument (gql.Args n) (bs "order") Ok [];
  Ok (mkParams (child_type p (gql.Attr n)) (gql.Alias n) first offset after false false order (isDebug p)).

Definition child_filters (n : gql.GraphQuery) : res (list SubGraph) :=
  match gql.Filter n with
  | Some ft => f ← filterCopy ft; Ok [f]
  | None => Ok []
  end.

(** [treeCopy] over the heap of nodes; a node is deeper than its children, so as
    much fuel as there are nodes suffices for a tree. *)
Fixpoint treeCopy (fuel : nat) (ns : list gql.GraphQuery) (gq : gql.GraphQuery) (sg : SubGraph) : res SubGraph :=
  match fuel with
  | O => Crash out_of_fuel
  | S fuel =>
      let '(kids, scalars) := scalar_children (Params sg) in
      (fix go (cs : list nat) (sg : SubGraph) : res SubGraph :=
        match cs with
        | [] => Ok sg
        | c :: cs =>
            gchild ← gql.get_node ns c;
            if isPresent scalars (gql.Attr gchild) then go cs sg
            else if bool_decide (gql.Attr gchild = bs "_count_") then
              if (1 <? length (gql.Children gq))%nat then Err "Cannot have other attributes with count"
              else if negb (bool_decide (gql.Children gchild = [])) then Err "Count cannot have other attributes"
              else Ok (set_Params (set_DoCount (Params sg)) sg)
            else
              let sg := if bool_decide (gql.Attr gchild = bs "_uid_") then set_Params (set_GetUID (Params sg)) sg else sg in
              fs ← child_filters gchild;
              p ← child_params (Params sg) gchild;
              dst ← treeCopy fuel ns gchild (set_Filters fs (new_SubGraph (gql.Attr gchild) p));
              go cs (set_Children (Children sg ++ [dst]) sg)
        end) (gql.Children gq) (set_Children (Children sg ++ kids) sg)
  end.

Context `{Farm : index.Farm}.

Definition newGraph (gq : gql.GraphQuery) : res SubGraph :=
  let exid := gql.XID gq in
  assert_true ((length exid =? 0)%nat || negb (HasPrefix exid (bs "_new_:"))) "Query shouldn't contain _new_";;
  let euid := if (0 <? length exid)%nat then index.Fingerprint64 exid else gql.UID gq in
  if (euid =? 0) && bool_decide (gql.Func gq = None) then Err "Invalid query, query internal id is zero and generator is nil"
  else
    let p := mkParams (schema.TypeOf sch (gql.Alias gq)) (gql.Alias gq) 0 0 0 false false [] (bool_decide (gql.Alias gq = bs "debug")) in
    let '(attr, f) := match gql.Func gq with Some f => (gql.FAttr f, gql.FName f :: gql.FArgs f) | None => ([], []) end in
    let '(src, m) := if 0 <? euid then (Some [euid], [[euid]]) else (None, []) in
    Ok (mkSG attr p [] [(0, [])] m src f [] [] [] None).

Definition ToSubGraph (ns : list gql.GraphQuery) (gq : nat) : res SubGraph :=
  n ← gql.get_node ns gq;
  sg ← newGraph n;
  treeCopy (S (length ns)) ns n sg.
End copy.

(** ** Processing *)
Definition createTaskQuery (sg : SubGraph) : process.Query :=
  process.mkQuery (Attr sg) (i32 (Count (Params sg))) (i32 (Offset (Params sg))) (AfterUID (Params sg))
    ((length (Filters sg) =? 0)%nat && PDoCount (Params sg)) (default [] (SrcUIDs sg)) (SgFunc sg).

Definition pageRange (p : params) (n : Z) : res (Z * Z) :=
  if (Count p =? 0) && (Offset p =? 0) then Ok (0, n)
  else if Count p <? 0 then
    if n =? 0 then Crash "integer divide by zero"
    else Ok (Z.rem (Z.rem (n + Count p) n + n) n, n)
  else
    let start := if Offset p <? 0 then 0 else Offset p in
    if Count p =? 0 then Ok (start, n)
    else
      let e := start + Count p in
      Ok (start, if n <? e then n else e).

Fixpoint page_rows (p : params) (rows : list (list Z)) (dest : list Z) : res (list (list Z)) :=
  match rows with
  | [] => Ok []
  | l :: rows =>
      l ← algo.IntersectWith l dest;
      ' (start, e) ← pageRange p (Z.of_nat (length l));
      l ← slice l start e;
      rows ← page_rows p rows dest;
      Ok (l :: rows)
  end.

(** The uids of a list that may be nil. *)
Definition uids_of (l : option (list Z)) : res (list Z) :=
  match l with Some l => Ok l | None => Crash "nil pointer dereference" end.

Definition applyPagination (sg : SubGraph) : res SubGraph :=
  if (Count (Params sg) =? 0) && (Offset (Params sg) =? 0) then Ok sg
  else
    src ← uids_of (SrcUIDs sg);
    assert_true (length src =? length (uidMatrix sg))%nat "Assert failed";;
    dest ← uids_of (DestUIDs sg);
    rows ← page_rows (Params sg) (uidMatrix sg) dest;
    dest ← algo.MergeSorted rows;
    Ok (set_Dest (Some dest) (set_matrix rows sg)).

(** The positions of [DestUIDs] that occur in a row. *)
Definition mark_row (dest : list Z) (included : list bool) (row : list Z) : list bool :=
  foldl (λ inc uid, let i := algo.IndexOf dest uid in if 0 <=? i then <[Z.to_nat i := true]> inc else inc) included row.

Section process.
Context {St : Type} `{KVStore St} `{index.IndexLib} `{index.Farm} `{GoSort}.
Context (sch : schema.tables) (conf : group.config) (Down : Z → option string).
Implicit Types (cl : cluster (St := St)).

Definition applyOrderAndPagination (sg : SubGraph) cl : res (SubGraph * cluster) :=
  if (length (Order (Params sg)) =? 0)%nat then Ok (sg, cl)
  else
    let sg := if Count (Params sg) =? 0 then set_Params (set_Count 1000 (Params sg)) sg else sg in
    ' (rows, cl) ← sort.SortOverNetwork sch conf Down
       (sort.mkSort (Order (Params sg)) (uidMatrix sg) (i32 (Count (Params sg))) (i32 (Offset (Params sg)))) cl;
    assert_true (length rows =? length (uidMatrix sg))%nat "Assert failed";;
    dest ← uids_of (DestUIDs sg);
    let included := foldl (mark_row dest) (replicate (length dest) false) rows in
    dest ← algo.ApplyFilter dest (λ _ i, default false (included !! i));
    Ok (set_Dest (Some dest) (set_matrix rows sg), cl).

(** The first part: the uids before filters. [true] when the answer is a count
    and nothing more is to be done. *)
Definition first_uids (sg : SubGraph) (root : bool) cl : res (bool * SubGraph * cluster) :=
  if (length (Attr sg) =? 0)%nat then Ok (false, set_Dest (SrcUIDs sg) sg, cl)
  else if root && (length (SgFunc sg) =? 0)%nat then
    dest ← algo.MergeSorted (uidMatrix sg);
    Ok (false, set_Dest (Some dest) sg, cl)
  else
    ' (result, cl) ← ProcessTaskOverNetwork conf Down (createTaskQuery sg) cl;
    let sg := set_result result sg in
    if PDoCount (Params sg) && (length (Filters sg) =? 0)%nat then Ok (true, sg, cl)
    else
      dest ← (if IntersectDest result then algo.IntersectSorted (UidMatrix result) else algo.MergeSorted (UidMatrix result));
      Ok (false, set_Dest (Some dest) sg, cl).

Fixpoint filter_lists (fs : list SubGraph) : res (list (list Z)) :=
  match fs with
  | [] => Ok []
  | f :: fs => l ← uids_of (DestUIDs f); ls ← filter_lists fs; Ok (l :: ls)
  end.

(** The results of the filters, combined. *)
Definition apply_filters (sg : SubGraph) : res SubGraph :=
  if (length (Filters sg) =? 0)%nat then Ok sg
  else
    lists ← filter_lists (Filters sg);
    dest ← (if bool_decide (FilterOp sg = bs "|") then algo.MergeSorted lists else algo.IntersectSorted lists);
    Ok (set_Dest (Some dest) sg).

Definition order_and_page (sg : SubGraph) cl : res (SubGraph * cluster) :=
  if (length (Order (Params sg)) =? 0)%nat then sg ← applyPagination sg; Ok (sg, cl)
  else applyOrderAndPagination sg cl.

Fixpoint count_rows (rows : list (list Z)) (dest : list Z) : res (list (list Z)) :=
  match rows with
  | [] => Ok []
  | ul :: rows => ul ← algo.IntersectWith ul dest; rows ← count_rows rows dest; Ok (ul :: rows)
  end.

(** Counting with filters. *)
Definition filtered_counts (sg : SubGraph) : res SubGraph :=
  assert_true (0 <? length (Filters sg))%nat "Assert failed";;
  dest ← uids_of (DestUIDs sg);
  rows ← count_rows (uidMatrix sg) dest;
  Ok (set_counts ((λ ul, u32 (Z.of_nat (length ul))) <$> rows) (set_matrix rows sg)).

(** The subgraphs of a level, one after the other. *)
Definition each (f : SubGraph → cluster → res (SubGraph * cluster)) : list SubGraph → cluster → res (list SubGraph * cluster) :=
  fix go gs cl :=
    match gs with
    | [] => Ok ([], cl)
    | g :: gs => ' (g, cl) ← f g cl; ' (gs, cl) ← go gs cl; Ok (g :: gs, cl)
    end.

(** [ProcessGraph(sg, parent)]: [src] is the value [SrcUIDs] has been given,
    [root] whether the parent is nil. *)
Fixpoint ProcessGraph (sg : SubGraph) (src : option (list Z)) (root : bool) cl : res (SubGraph * cluster) :=
  match sg with
  | mkSG attr p cts vals m _ f op filters children dst =>
      ' (counted, sg, cl) ← first_uids (mkSG attr p cts vals m src f op filters children dst) root cl;
      if counted : bool then Ok (sg, cl)
      else
        dest ← uids_of (DestUIDs sg);
        if (length dest =? 0)%nat then Ok (sg, cl)
        else
          ' (filters, cl) ← each (λ g, ProcessGraph g (DestUIDs sg) false) filters cl;
          sg ← apply_filters (set_Filters filters sg);
          ' (sg, cl) ← order_and_page sg cl;
          if PDoCount (Params sg) then sg ← filtered_counts sg; Ok (sg, cl)
          else
            ' (children, cl) ← each (λ g, ProcessGraph g (DestUIDs sg) false) children cl;
            Ok (set_Children children sg, cl)
  end.
End process.
End query.
