(* ===== verification/QueryAnswer.v ===== *)
(** What a query answers: the meaning of a [SubGraph] over the postings of the
    cluster, and that [ProcessGraph] computes it. *)
From S2P Require Import Prelude Bytes Store Keys Task Algo PostingList PostingIter Tokens Types Geo Lex GqlLex GqlParse Schema Group Index Mutation Process Sort Query.
From stdpp Require Import options.
#[local] Open Scope Z_scope.
#[local] Set Default Proof Using "Type*".

Module query_answer.
Import process query.

(** Induction over a subgraph, its filters and its children. *)
Lemma SubGraph_ind' (P : SubGraph → Prop) :
  (∀ attr p c vs m src f op filters children d, Forall P filters → Forall P children → P (mkSG attr p c vs m src f op filters children d)) →
  ∀ sg, P sg.
Proof.
  intros HP. fix IH 1. intros [attr p c vs m src f op filters children d]. apply HP.
  - induction filters as [|g gs IHg]; constructor; [apply IH|apply IHg].
  - induction children as [|g gs IHg]; constructor; [apply IH|apply IHg].
Qed.

(** ** Pages *)
(** A part of a list: so many from the end, or so many after an offset. *)
Definition paged (p : params) : bool := negb ((Count p =? 0) && (Offset p =? 0)).

Definition page (p : params) (l : list Z) : list Z :=
  if Count p <? 0 then drop (length l - Z.to_nat (- Count p)) l
  else
    let l := drop (Z.to_nat (Offset p)) l in
    if Count p =? 0 then l else take (Z.to_nat (Count p)) l.

Definition page_fits (p : params) (l : list Z) : Prop :=
  if Count p <? 0 then l ≠ [] ∧ - Count p ≤ Z.of_nat (length l) else Offset p ≤ Z.of_nat (length l).

Lemma page_unpaged p l : paged p = false → page p l = l.
Proof.
  unfold paged, page. intros [->%Z.eqb_eq ->%Z.eqb_eq]%negb_false_iff%andb_prop. done.
Qed.

Lemma page_sublist p l : sublist (page p l) l.
Proof.
  unfold page. destruct (Count p <? 0); [apply sublist_drop|]. destruct (Count p =? 0); [apply sublist_drop|].
  etrans; [apply sublist_take|apply sublist_drop].
Qed.

Lemma page_nil p : page p [] = [].
Proof. apply sublist_nil_r, page_sublist. Qed.

Lemma sorted_sublist (l k : list Z) : sublist l k → StronglySorted Z.lt k → StronglySorted Z.lt l.
Proof.
  intros Hs. induction Hs as [|x l k Hs IH|x l k Hs IH]; [done| |]; intros [Hk Hx]%StronglySorted_inv; [|by apply IH].
  constructor; [by apply IH|]. rewrite Forall_forall in *. intros y Hy. apply Hx. by eapply elem_of_sublist.
Qed.

Lemma pageRange_fits p l :
  paged p = true → page_fits p l →
  ∃ s e, pageRange p (Z.of_nat (length l)) = Ok (s, e) ∧ slice l s e = Ok (page p l).
Proof.
  unfold paged, page_fits, pageRange, page. intros ->%negb_true_iff. destruct (Z.ltb_spec (Count p) 0) as [Hc|Hc].
  - intros [Hl Hn]. destruct (Z.eqb_spec (Z.of_nat (length l)) 0) as [H0|H0]; [destruct l; [done|simpl in H0; lia]|].
    set (n := Z.of_nat (length l)) in *. assert (0 < n) by lia.
    assert (Z.rem (Z.rem (n + Count p) n + n) n = n + Count p) as ->.
    { rewrite (Z.rem_mod_nonneg (n + Count p)) by lia. rewrite Z.rem_mod_nonneg by (pose proof (Z.mod_pos_bound (n + Count p) n); lia).
      rewrite (Z.mod_small (n + Count p)) by lia.
      replace (n + Count p + n) with (n + Count p + 1 * n) by lia. rewrite Z.mod_add by lia. by rewrite Z.mod_small by lia. }
    eexists _, _. split; [reflexivity|]. rewrite slice_ok by lia. rewrite take_ge; [|rewrite length_drop; lia].
    do 2 f_equal. lia.
  - intros Hn. set (start := if Offset p <? 0 then 0 else Offset p).
    assert (0 ≤ start ≤ Z.of_nat (length l) ∧ Z.to_nat (Offset p) = Z.to_nat start) as [Hst ->].
    { unfold start. destruct (Z.ltb_spec (Offset p) 0); lia. }
    destruct (Z.eqb_spec (Count p) 0) as [Hz|Hz]; (eexists _, _; split; [reflexivity|]).
    + rewrite slice_ok by lia. rewrite take_ge; [done|rewrite length_drop; lia].
    + destruct (Z.ltb_spec (Z.of_nat (length l)) (start + Count p)).
      * rewrite slice_ok by lia. by rewrite !take_ge by (rewrite length_drop; lia).
      * rewrite slice_ok by lia. do 2 f_equal. lia.
Qed.

Lemma page_rows_spec p rows dst :
  paged p = true → Forall (StronglySorted Z.lt) rows → StronglySorted Z.lt dst →
  Forall (λ l, page_fits p (filter (.∈ dst) l)) rows →
  page_rows p rows dst = Ok ((λ l, page p (filter (.∈ dst) l)) <$> rows).
Proof.
  intros Hp Hs Hd. induction Hs as [|l rows Hl Hs IH]; [done|]. intros [Hf Hfs]%Forall_cons. cbn [page_rows].
  rewrite algo.IntersectWith_spec by by apply ssorted_lt_le. cbn [mbind res_bind].
  destruct (pageRange_fits p (filter (.∈ dst) l) Hp Hf) as (s & e & -> & Hsl). cbn [mbind res_bind]. rewrite Hsl. cbn [mbind res_bind].
  by rewrite IH.
Qed.

(** What one row gives, whether it fits or not. *)
Definition row_page (p : params) (l : list Z) : res (list Z) :=
  if Count p <? 0 then
    if bool_decide (l = []) then Crash "integer divide by zero" else Ok (drop (Z.to_nat (Count p mod Z.of_nat (length l))) l)
  else if Offset p <=? Z.of_nat (length l) then Ok (page p l) else Crash "slice bounds out of range".



(** ** The meaning *)
Definition set_of (l : option (list Z)) : option (Z → Prop) := (λ l x, x ∈ l) <$> l.
Definition src_eq (s s' : option (Z → Prop)) : Prop := option_Forall2 (λ P Q, ∀ x, P x ↔ Q x) s s'.
Definition uids (l : list Z) : Prop := StronglySorted Z.lt l ∧ Forall is_u64 l.
Definition uid_list (l : option (list Z)) : Prop := ∀ us, l = Some us → uids us.

Section meaning.
Context `{index.IndexLib} (sch : schema.tables) (g : mutation.graph).
Implicit Types (P : Z → Prop) (src : option (Z → Prop)).

(** The terms under which the value of an entity is indexed. *)
Definition graph_tokens (attr : list byte) (u : Z) : list (list byte) :=
  match g u attr !! MaxUint64 with
  | Some (vt, val, _) => if bool_decide (val = []) then [] else index.value_tokens sch attr vt val
  | None => []
  end.

Definition reach (after : Z) (attr : list byte) (u x : Z) : Prop := after < x ∧ x ≠ MaxUint64 ∧ is_Some (g u attr !! x).
Definition has_term (after : Z) (attr tok : list byte) (x : Z) : Prop :=
  after < x ∧ x ≠ MaxUint64 ∧ is_u64 x ∧ tok ∈ graph_tokens attr x.

(** The uids of a level before its filters. Without a function they are those
    the source reaches by the predicate; a function selects the entities whose
    value has the terms of its text, among the source if there is one. *)
Definition base (attr : list byte) (after : Z) (f : list (list byte)) src (x : Z) : Prop :=
  match attr, f with
  | [], _ => ∃ s, src = Some s ∧ s x
  | _, [] => ∃ s u, src = Some s ∧ s u ∧ reach after attr u x
  | _, _ =>
      match function_tokens f with
      | Ok (toks, _, all) =>
          (∀ s, src = Some s → s x) ∧
          if all : bool then toks ≠ [] ∧ ∀ tok, tok ∈ toks → has_term after attr tok x
          else ∃ tok, tok ∈ toks ∧ has_term after attr tok x
      | _ => False
      end
  end.

(** What an entity reaches, among [P]. *)
Definition full_row (after : Z) (attr : list byte) P (u : Z) (l : list Z) : Prop :=
  StronglySorted Z.lt l ∧ ∀ x, x ∈ l ↔ reach after attr u x ∧ P x.

(** A uid passes the filters: one of them for the operator [|], else all. Then
    the pages of the rows are taken. *)
Definition take_pages (p : params) (attr : list byte) src P (x : Z) : Prop :=
  if paged p then ∃ s u l, src = Some s ∧ s u ∧ full_row (AfterUID p) attr P u l ∧ x ∈ page p l else P x.

Fixpoint dest (sg : SubGraph) src : Z → Prop :=
  match sg with
  | mkSG attr p _ _ _ _ f op filters _ _ =>
      let b := base attr (AfterUID p) f src in
      take_pages p attr src (λ x, b x ∧
        (filters = [] ∨
         if bool_decide (op = bs "|")
         then (fix any (fs : list SubGraph) : Prop := match fs with [] => False | g :: fs => dest g (Some b) x ∨ any fs end) filters
         else (fix all (fs : list SubGraph) : Prop := match fs with [] => True | g :: fs => dest g (Some b) x ∧ all fs end) filters))
  end.

Definition sbase (sg : SubGraph) src : Z → Prop := base (Attr sg) (AfterUID (Params sg)) (SgFunc sg) src.
Definition filtered (sg : SubGraph) src (x : Z) : Prop :=
  sbase sg src x ∧ (Filters sg = [] ∨
    if bool_decide (FilterOp sg = bs "|") then Exists (λ g, dest g (Some (sbase sg src)) x) (Filters sg)
    else Forall (λ g, dest g (Some (sbase sg src)) x) (Filters sg)).

(** A level that can be answered. It has no order. It has a source, unless it
    has a function; a function is one whose terms can be computed, on an indexed
    predicate, and no list of the index goes on beyond the last uid of the source.
    Only a level without a function has pages and counts; its pages fit. A filter
    is a function or combines filters, a child has a predicate and no function. *)
Record level_ok (attr : list byte) (p : params) (f : list (list byte)) src P : Prop := {
  lv_after : 0 ≤ AfterUID p;
  lv_order : Order p = [];
  lv_attr : attr ≠ [] → index.attr_ok attr;
  lv_src : attr = [] ∨ f = [] → is_Some src;
  lv_reach : paged p = true ∨ PDoCount p = true → attr ≠ [] ∧ f = [];
  lv_func : attr ≠ [] → f ≠ [] → schema.IsIndexed sch attr = true ∧
    ∃ toks all, function_tokens f = Ok (toks, None, all) ∧
    ∀ s tok x, src = Some s → tok ∈ toks → has_term (AfterUID p) attr tok x → ∃ y, s y ∧ x ≤ y;
  lv_page : paged p = true → (∃ x, base attr (AfterUID p) f src x) →
    ∀ s u l, src = Some s → s u → full_row (AfterUID p) attr P u l → page_fits p l;
}.

Fixpoint good (sg : SubGraph) src : Prop :=
  match sg with
  | mkSG attr p _ _ _ _ f op filters children _ =>
      level_ok attr p f src (filtered sg src) ∧
      (fix go (fs : list SubGraph) : Prop :=
         match fs with [] => True | g :: fs => ((Attr g = [] ∨ SgFunc g ≠ []) ∧ good g (Some (sbase sg src))) ∧ go fs end) filters ∧
      (fix go (fs : list SubGraph) : Prop :=
         match fs with [] => True | g :: fs => ((Attr g ≠ [] ∧ SgFunc g = []) ∧ good g (Some (dest sg src))) ∧ go fs end) children
  end.

(** ** What a processed subgraph holds *)
(** A row of the matrix. Filters cut rows down only when there are pages. *)
Definition row_answer (p : params) (attr : list byte) P (u : Z) (row : list Z) : Prop :=
  if paged p then ∃ l, full_row (AfterUID p) attr P u l ∧ row = page p l else row = keys_after (AfterUID p) (g u attr).
Definition count_answer (p : params) (attr : list byte) P (u : Z) (c : Z) : Prop :=
  ∃ l, full_row (AfterUID p) attr P u l ∧ c = u32 (Z.of_nat (length (page p l))).
Definition degree (attr : list byte) (u : Z) : Z := u32 (Z.of_nat (size (filter (λ kv, 0 < kv.1) (g u attr)))).
Definition value_of (attr : list byte) (u : Z) : Z * list byte := task_value (value_in (g u attr)).

(** The parts of a level that do not depend on the data; whether there are
    children. *)
Definition same_level (sg : SubGraph) (us : option (list Z)) (sg' : SubGraph) : Prop :=
  Attr sg' = Attr sg ∧ Params sg' = Params sg ∧ SrcUIDs sg' = us ∧ (Children sg' = [] ↔ Children sg = []).

(** The rows and values as the servers sent them. *)
Definition sent (attr : list byte) (after : Z) (l : list Z) (sg' : SubGraph) : Prop :=
  uidMatrix sg' = (λ u, keys_after after (g u attr)) <$> l ∧ values sg' = value_of attr <$> l ∧ counts sg' = [].

Fixpoint answers (sg : SubGraph) (us : option (list Z)) (sg' : SubGraph) : Prop :=
  match sg with
  | mkSG attr p _ _ _ _ f op filters children _ =>
      let src := set_of us in
      same_level sg us sg' ∧
      if PDoCount p then
        ∀ l, us = Some l →
          match filters with
          | [] => counts sg' = degree attr <$> l ∧ length (uidMatrix sg') = length l
          | _ => ((∃ x, sbase sg src x) →
                    Forall2 (count_answer p attr (filtered sg src)) l (counts sg') ∧ length (uidMatrix sg') = length l) ∧
                 ((∀ x, ¬ sbase sg src x) → sent attr (AfterUID p) l sg')
          end
      else
        ∃ d, DestUIDs sg' = Some d ∧ uids d ∧ (∀ x, x ∈ d ↔ dest sg src x) ∧
          (attr ≠ [] → f = [] → ∀ l, us = Some l →
             Forall2 (row_answer p attr (filtered sg src)) l (uidMatrix sg') ∧ values sg' = value_of attr <$> l ∧ counts sg' = []) ∧
          ((∃ x, sbase sg src x) →
            (fix go (cs cs' : list SubGraph) : Prop :=
               match cs, cs' with
               | [], [] => True
               | c :: cs, c' :: cs' => answers c (Some d) c' ∧ go cs cs'
               | _, _ => False
               end) children (Children sg'))
  end.
End meaning.

Section facts.
Context `{index.IndexLib} (sch : schema.tables) (g : mutation.graph).
Implicit Types (P Q : Z → Prop) (src : option (Z → Prop)).
Notation base := (base sch g).
Notation sbase := (sbase sch g).
Notation dest := (dest sch g).
Notation filtered := (filtered sch g).
Notation good := (good sch g).
Notation full_row := (full_row g).

Lemma src_eq_Some P Q : (∀ x, P x ↔ Q x) → src_eq (Some P) (Some Q).
Proof. by constructor. Qed.

Lemma base_ext attr after f s s' x : src_eq s s' → base attr after f s x ↔ base attr after f s' x.
Proof.
  intros Hs. unfold query_answer.base. destruct Hs as [P Q HPQ|]; [|done]. destruct attr as [|a attr].
  - split; intros (? & [= <-] & ?); eexists; (split; [done|]); by apply HPQ.
  - destruct f as [|f fs].
    + split; intros (? & u & [= <-] & Hu & Hr); eexists _, u; (split; [done|]); (split; [by apply HPQ|done]).
    + destruct (function_tokens (f :: fs)) as [[[toks gq] all]| |]; [|done..].
      split; (intros [Hx Hr]; split; [|done]); intros ? [= <-]; apply HPQ; by apply Hx.
Qed.

Lemma full_row_ext after attr P Q u l : (∀ x, P x ↔ Q x) → full_row after attr P u l ↔ full_row after attr Q u l.
Proof. intros HPQ. unfold query_answer.full_row. by setoid_rewrite HPQ. Qed.

Lemma full_row_unique after attr P u l l' : full_row after attr P u l → full_row after attr P u l' → l = l'.
Proof. intros [Hs Hl] [Hs' Hl']. apply ssorted_lt_ext; [done..|]. intros x. by rewrite Hl, Hl'. Qed.

Lemma take_pages_ext p attr s s' P Q x :
  src_eq s s' → (∀ x, P x ↔ Q x) → take_pages g p attr s P x ↔ take_pages g p attr s' Q x.
Proof.
  intros Hs HPQ. unfold take_pages. destruct (paged p); [|apply HPQ].
  destruct Hs as [S S' HS|]; [|split; intros (? & ? & ? & ? & _); done].
  split; intros (? & u & l & [= <-] & Hu & Hf & Hx); eexists _, u, l; (split; [done|]); (split; [by apply HS|]); (split; [|done]);
    (eapply full_row_ext; [|exact Hf]); intros y; [symmetry|]; apply HPQ.
Qed.

Lemma dest_filtered sg src x : dest sg src x ↔ take_pages g (Params sg) (Attr sg) src (filtered sg src) x.
Proof.
  destruct sg as [attr p c vs m s f op filters children d]. unfold query_answer.filtered, query_answer.sbase.
  cbn [query_answer.dest Attr Params SgFunc FilterOp Filters AfterUID].
  set (b := base attr (AfterUID p) f src). apply take_pages_ext; [destruct src; by constructor|]. clear x. intros x.
  apply and_iff_compat_l, or_iff_compat_l. destruct (bool_decide _).
  - induction filters as [|h gs IH]; [by rewrite Exists_nil|]. by rewrite Exists_cons, IH.
  - induction filters as [|h gs IH]; [by rewrite Forall_nil|]. by rewrite Forall_cons, IH.
Qed.

Lemma dest_ext sg s s' x : src_eq s s' → dest sg s x ↔ dest sg s' x.
Proof.
  revert s s' x. induction sg as [attr p c vs m src f op filters children d IHf _] using SubGraph_ind'. intros s s' x Hs.
  rewrite !dest_filtered. apply take_pages_ext; [done|]. clear x. intros x.
  unfold query_answer.filtered, query_answer.sbase. cbn [Attr Params SgFunc FilterOp Filters]. rewrite (base_ext _ _ _ s s') by done.
  apply and_iff_compat_l, or_iff_compat_l.
  assert (src_eq (Some (base attr (AfterUID p) f s)) (Some (base attr (AfterUID p) f s'))) as Hb
    by (apply src_eq_Some; intros y; by apply base_ext).
  destruct (bool_decide _).
  - induction IHf as [|h gs Hg _ IH]; [by rewrite !Exists_nil|]. rewrite !Exists_cons, IH. by rewrite (Hg _ _ x Hb).
  - induction IHf as [|h gs Hg _ IH]; [by rewrite !Forall_nil|]. rewrite !Forall_cons, IH. by rewrite (Hg _ _ x Hb).
Qed.

Lemma filtered_ext sg s s' x : src_eq s s' → filtered sg s x ↔ filtered sg s' x.
Proof.
  intros Hs. unfold query_answer.filtered. unfold query_answer.sbase at 1 4. rewrite (base_ext _ _ _ s s') by done. apply and_iff_compat_l, or_iff_compat_l.
  assert (src_eq (Some (sbase sg s)) (Some (sbase sg s'))) as Hb by (apply src_eq_Some; intros y; by apply base_ext).
  assert (∀ h, dest h (Some (sbase sg s)) x ↔ dest h (Some (sbase sg s')) x) as Hd by (intros h; by apply dest_ext).
  destruct (bool_decide _); [rewrite !Exists_exists|rewrite !Forall_forall]; by setoid_rewrite Hd.
Qed.

Lemma level_ok_ext attr p f s s' P Q :
  src_eq s s' → (∀ x, P x ↔ Q x) → level_ok sch g attr p f s P → level_ok sch g attr p f s' Q.
Proof.
  intros Hs HPQ [Ha Ho Hat Hsrc Hre Hf Hp]. split; try done.
  - intros Ho'. destruct (Hsrc Ho') as [S ->]. inversion Hs. by eexists.
  - intros Hna Hnf. destruct (Hf Hna Hnf) as (Hi & toks & all & Ht & Hfit). split; [done|]. exists toks, all. split; [done|].
    intros S tok x -> Htok Hx. inversion Hs as [S0 S1 HS|]; subst. destruct (Hfit S0 tok x eq_refl Htok Hx) as (y & Hy & Hle).
    exists y. split; [by apply HS|done].
  - intros Hpg [x Hx] S u l -> Hu Hrow. inversion Hs as [S0 S1 HS|]; subst. eapply (Hp Hpg); [|done|by apply HS|].
    + exists x. eapply base_ext; [|exact Hx]. done.
    + by eapply full_row_ext.
Qed.

Lemma good_iff sg src :
  good sg src ↔ level_ok sch g (Attr sg) (Params sg) (SgFunc sg) src (filtered sg src) ∧
    Forall (λ h, (Attr h = [] ∨ SgFunc h ≠ []) ∧ good h (Some (sbase sg src))) (Filters sg) ∧
    Forall (λ h, (Attr h ≠ [] ∧ SgFunc h = []) ∧ good h (Some (dest sg src))) (Children sg).
Proof.
  destruct sg as [attr p c vs m s f op filters children d]. set (sg := mkSG attr p c vs m s f op filters children d).
  assert (∀ (Q : SubGraph → Prop) gs, (fix go (fs : list SubGraph) : Prop := match fs with [] => True | g :: fs => Q g ∧ go fs end) gs ↔ Forall Q gs) as Hgo.
  { intros Q gs. induction gs as [|h gs IH]; [by rewrite Forall_nil|]. by rewrite Forall_cons, IH. }
  cbn [query_answer.good sg]. fold sg. rewrite (Hgo (λ h, _ ∧ good h _)), (Hgo (λ h, (Attr h ≠ [] ∧ SgFunc h = []) ∧ good h _)). done.
Qed.

Lemma good_ext sg s s' : src_eq s s' → good sg s → good sg s'.
Proof.
  revert s s'. induction sg as [attr p c vs m src f op filters children d IHf IHc] using SubGraph_ind'. intros s s' Hs.
  set (sg := mkSG attr p c vs m src f op filters children d). rewrite !good_iff.
  intros (Hl & Hfs & Hcs). split_and!.
  - eapply level_ok_ext; [done| |exact Hl]. intros x. by apply filtered_ext.
  - rewrite Forall_forall in *. intros h Hh. destruct (Hfs h Hh) as [Hsh Hgg]. split; [done|].
    eapply IHf; [done| |exact Hgg]. apply src_eq_Some. intros y. by apply base_ext.
  - rewrite Forall_forall in *. intros h Hh. destruct (Hcs h Hh) as [Hgf Hgg]. split; [done|].
    eapply IHc; [done| |exact Hgg]. apply src_eq_Some. intros y. by apply dest_ext.
Qed.

Lemma answers_iff sg us sg' :
  answers sch g sg us sg' ↔ same_level sg us sg' ∧
    if PDoCount (Params sg) then
      ∀ l, us = Some l →
        match Filters sg with
        | [] => counts sg' = degree g (Attr sg) <$> l ∧ length (uidMatrix sg') = length l
        | _ => ((∃ x, sbase sg (set_of us) x) →
                  Forall2 (count_answer g (Params sg) (Attr sg) (filtered sg (set_of us))) l (counts sg') ∧ length (uidMatrix sg') = length l) ∧
               ((∀ x, ¬ sbase sg (set_of us) x) → sent g (Attr sg) (AfterUID (Params sg)) l sg')
        end
    else
      ∃ d, DestUIDs sg' = Some d ∧ uids d ∧ (∀ x, x ∈ d ↔ dest sg (set_of us) x) ∧
        (Attr sg ≠ [] → SgFunc sg = [] → ∀ l, us = Some l →
           Forall2 (row_answer g (Params sg) (Attr sg) (filtered sg (set_of us))) l (uidMatrix sg') ∧
           values sg' = value_of g (Attr sg) <$> l ∧ counts sg' = []) ∧
        ((∃ x, sbase sg (set_of us) x) → Forall2 (λ c c', answers sch g c (Some d) c') (Children sg) (Children sg')).
Proof.
  destruct sg as [attr p c vs m s f op filters children dd]. set (sg := mkSG attr p c vs m s f op filters children dd).
  assert (∀ (Q : SubGraph → SubGraph → Prop) cs cs', (fix go (cs cs' : list SubGraph) : Prop :=
    match cs, cs' with [], [] => True | c :: cs, c' :: cs' => Q c c' ∧ go cs cs' | _, _ => False end) cs cs' ↔ Forall2 Q cs cs') as Hgo.
  { intros Q cs. induction cs as [|a cs IH]; intros [|a' cs']; [by split|by split; [|intros ?%Forall2_nil_cons_inv]|by split; [|intros ?%Forall2_cons_nil_inv]|].
    by rewrite Forall2_cons, IH. }
  cbn [answers sg]. fold sg. apply and_iff_compat_l. change (PDoCount (Params sg)) with (PDoCount p). destruct (PDoCount p); [done|].
  split; intros (d & Hd & Hu & Hx & Hr & Hc); exists d; (split_and!; [done..|]); intros Hn;
    apply (Hgo (λ c c', answers sch g c (Some d) c')), Hc, Hn.
Qed.
End facts.

(** ** Filters *)
Section filters.
Context `{index.IndexLib} (sch : schema.tables) (g : mutation.graph).

Lemma filter_within h P x :
  Attr h = [] ∨ SgFunc h ≠ [] → good sch g h (Some P) → dest sch g h (Some P) x → P x.
Proof.
  intros Hsh [Hl _]%good_iff Hx%dest_filtered. unfold take_pages in Hx.
  destruct (paged (Params h)) eqn:Hp; [destruct (lv_reach _ _ _ _ _ _ _ Hl (or_introl Hp)); by destruct Hsh|].
  destruct Hx as [Hx _]. unfold sbase, base in Hx. destruct (Attr h) as [|b a]; [by destruct Hx as (s & [= <-] & ?)|].
  destruct (SgFunc h) as [|f fs]; [by destruct Hsh|]. destruct (function_tokens (f :: fs)) as [[[toks gq] all]| |]; [|done..].
  by apply Hx.
Qed.

(** A list of the uids of a set. *)
Definition lists (P : Z → Prop) (l : list Z) : Prop := uids l ∧ ∀ x, x ∈ l ↔ P x.

Lemma filter_lists_spec P fs fs' :
  Forall2 (λ h h', ∃ d, DestUIDs h' = Some d ∧ lists (dest sch g h (Some P)) d) fs fs' →
  ∃ ls, filter_lists fs' = Ok ls ∧ Forall2 (λ h, lists (dest sch g h (Some P))) fs ls.
Proof.
  induction 1 as [|h h' fs fs' (d & Hd & Hl) _ (ls & Heq & Hls)]; [by exists []|]. exists (d :: ls). cbn [filter_lists]. rewrite Hd, Heq.
  split; [done|by constructor].
Qed.

Lemma combine_filters (any : bool) P d fs ls :
  lists P d → fs ≠ [] → (∀ h x, h ∈ fs → dest sch g h (Some P) x → P x) → Forall2 (λ h, lists (dest sch g h (Some P))) fs ls →
  ∃ d', (if any then algo.MergeSorted ls else algo.IntersectSorted ls) = Ok d' ∧
    lists (λ x, P x ∧ (fs = [] ∨ if any then Exists (λ h, dest sch g h (Some P) x) fs else Forall (λ h, dest sch g h (Some P) x) fs)) d'.
Proof.
  intros [[Hsd Hud] Hd] Hne Hw Hls.
  assert (Forall (StronglySorted Z.lt) ls) as Hss.
  { rewrite Forall_forall. intros l (i & Hi)%list_elem_of_lookup_1. destruct (Forall2_lookup_r _ _ _ _ _ Hls Hi) as (h & _ & [Hu _]). apply Hu. }
  assert (∀ x, (∃ l, l ∈ ls ∧ x ∈ l) ↔ Exists (λ h, dest sch g h (Some P) x) fs) as Hex.
  { intros x. clear Hne Hw Hss. induction Hls as [|h l fs ls [_ Hl] _ IH]; [rewrite Exists_nil; set_solver|].
    rewrite Exists_cons, <-IH, <-Hl. setoid_rewrite elem_of_cons. naive_solver. }
  assert (∀ x, (∀ l, l ∈ ls → x ∈ l) ↔ Forall (λ h, dest sch g h (Some P) x) fs) as Hall.
  { intros x. clear Hne Hw Hss Hex. induction Hls as [|h l fs ls [_ Hl] _ IH]; [rewrite Forall_nil; set_solver|].
    rewrite Forall_cons, <-IH, <-Hl. setoid_rewrite elem_of_cons. naive_solver. }
  assert (∃ d', (if any then algo.MergeSorted ls else algo.IntersectSorted ls) = Ok d' ∧ StronglySorted Z.lt d' ∧
    ∀ x, x ∈ d' ↔ if any then Exists (λ h, dest sch g h (Some P) x) fs else Forall (λ h, dest sch g h (Some P) x) fs) as (d' & -> & Hsd' & Hin).
  { destruct any.
    - destruct (algo.MergeSorted_spec ls) as (d' & -> & Hs & Hin); [eapply Forall_impl; [exact Hss|apply ssorted_lt_le]|].
      exists d'. split_and!; [done..|]. intros x. by rewrite Hin.
    - destruct (algo.IntersectSorted_spec ls) as (d' & -> & Hs & Hin); [by intros ->; apply Hne; inversion Hls|done|].
      exists d'. split_and!; [done..|]. intros x. by rewrite Hin. }
  assert (∀ x, x ∈ d' → P x) as HP.
  { intros x Hx%Hin. destruct any.
    - apply Exists_exists in Hx as (h & Hh & Hx). by eapply Hw.
    - destruct fs as [|h fs]; [done|]. apply Forall_cons in Hx as [Hx _]. eapply Hw; [apply list_elem_of_here|exact Hx]. }
  exists d'. split; [done|]. split; [split; [done|]|].
  - rewrite Forall_forall in *. intros x Hx. by apply Hud, Hd, HP.
  - intros x. split; [intros Hx; split; [by apply HP|right; by apply Hin]|]. intros [_ [?|Hx]]; [done|by apply Hin].
Qed.
End filters.

(** ** One level *)
Section tasks.
Context `{index.IndexLib} (v : view).

(** Rows that can all be computed. *)
Lemma a_lists_rows q (useFunc : bool) ms out (row : gmap Z (Z * list byte * list byte) → list Z) :
  DoCount q = false → (∀ m, m ∈ ms → row_of (AfterUid q) (if useFunc then QUids q else []) m = Ok (row m)) →
  a_lists q useFunc ms out =
    Ok (mkResult (UidMatrix out ++ (row <$> ms)) (Values out ++ ((λ m, task_value (value_in m)) <$> ms)) (Counts out) (IntersectDest out)).
Proof.
  intros Hd. revert out. induction ms as [|m ms IH]; intros out Hr; cbn [a_lists].
  { by rewrite !app_nil_r; destruct out. }
  unfold a_list at 1. rewrite Hd, Hr by apply list_elem_of_here. cbn [mbind res_bind].
  rewrite IH by (intros; apply Hr; by apply list_elem_of_further). unfold add_row. cbn [UidMatrix Values Counts IntersectDest].
  by rewrite app_nil_r, <-!app_assoc.
Qed.

Lemma a_lists_counts q useFunc ms out :
  DoCount q = true →
  ∃ m vs, a_lists q useFunc ms out =
    Ok (mkResult m vs (Counts out ++ ((λ m, u32 (Z.of_nat (size (filter (λ kv, 0 < kv.1) m)))) <$> ms)) (IntersectDest out)) ∧
    length m = (length (UidMatrix out) + length ms)%nat.
Proof.
  intros Hd. revert out. induction ms as [|m ms IH]; intros out; cbn [a_lists].
  { exists (UidMatrix out), (Values out). split; [by rewrite app_nil_r; destruct out|simpl; lia]. }
  unfold a_list at 1. rewrite Hd. cbn [mbind res_bind].
  destruct (IH (add_row [] (task_value (value_in m)) [u32 (Z.of_nat (size (filter (λ kv, 0 < kv.1) m)))] out)) as (m' & vs' & -> & Hm).
  exists m', vs'. unfold add_row in *. cbn [Counts IntersectDest UidMatrix] in *. rewrite <-app_assoc. split; [done|].
  rewrite Hm, length_app. simpl. lia.
Qed.

(** The answer for a level without a function: a row, or a count, for each
    source. *)
Lemma a_task_reach q us :
  DoCount q = false → SrcFunc q = [] → QUids q = us →
  a_task v q = Ok (mkResult ((λ u, keys_after (AfterUid q) (data v u (QAttr q))) <$> us) (value_at v (QAttr q) <$> us) [] false).
Proof.
  intros Hd Hf <-. unfold a_task, a_keys. rewrite Hf. cbn [mbind res_bind length Nat.eqb negb].
  rewrite (a_lists_rows _ _ _ _ (keys_after (AfterUid q))) by done. cbn. by rewrite <-!list_fmap_compose.
Qed.

Lemma a_task_count q us :
  DoCount q = true → SrcFunc q = [] → QUids q = us →
  ∃ m vs, a_task v q = Ok (mkResult m vs ((λ u, u32 (Z.of_nat (size (filter (λ kv, 0 < kv.1) (data v u (QAttr q)))))) <$> us) false) ∧ length m = length us.
Proof.
  intros Hd Hf <-. unfold a_task, a_keys. rewrite Hf. cbn [mbind res_bind length Nat.eqb negb].
  destruct (a_lists_counts q false ((λ u, data v u (QAttr q)) <$> QUids q) (mkResult [] [] [] false) Hd) as (m & vs & -> & Hm).
  exists m, vs. cbn in *. rewrite length_fmap in Hm. by rewrite <-!list_fmap_compose.
Qed.

(** The row of a token, cut down to the source. *)
Definition token_row (after : Z) (us : list Z) (m : gmap Z (Z * list byte * list byte)) : list Z :=
  if bool_decide (us = []) then keys_after after m else filter (λ x, x ∈ us) (keys_after after m).

Lemma a_task_tokens q toks all :
  DoCount q = false → SrcFunc q ≠ [] → function_tokens (SrcFunc q) = Ok (toks, None, all) →
  (QUids q ≠ [] → ∀ tok x, tok ∈ toks → x ∈ keys_after (AfterUid q) (idx v (QAttr q) tok) → ∃ y, y ∈ QUids q ∧ x ≤ y) →
  ∃ vs, a_task v q = Ok (mkResult ((λ tok, token_row (AfterUid q) (QUids q) (idx v (QAttr q) tok)) <$> toks) vs [] all).
Proof.
  intros Hd Hf Ht Hfit. unfold a_task, a_keys. destruct (SrcFunc q) as [|f fs]; [done|]. rewrite Ht. cbn [mbind res_bind length Nat.eqb negb].
  rewrite (a_lists_rows _ _ _ _ (token_row (AfterUid q) (QUids q))); [|done|].
  - eexists. cbn. by rewrite <-!list_fmap_compose.
  - intros m (tok & -> & Htok)%list_elem_of_fmap. unfold row_of, token_row. case_bool_decide as Hn; [done|].
    rewrite bool_decide_false; [done|]. intros (x & Hx & Hp)%Exists_exists.
    destruct (Hfit Hn tok x Htok Hx) as (y & Hy & Hle). unfold posting_read.past in Hp. rewrite Forall_forall in Hp. specialize (Hp y Hy). lia.
Qed.

Lemma token_row_spec after us m :
  StronglySorted Z.lt (token_row after us m) ∧
  ∀ x, x ∈ token_row after us m ↔ (us = [] ∨ x ∈ us) ∧ x ∈ keys_after after m.
Proof.
  unfold token_row. destruct (keys_after_spec after m) as [Hs Hk]. case_bool_decide as Hn.
  - split; [done|]. intros x. naive_solver.
  - split; [by apply ssorted_filter|]. intros x. rewrite list_elem_of_filter. naive_solver.
Qed.

(** Rows that are merged or intersected. *)
Lemma combine_rows {A : Type} (all : bool) (toks : list A) (row : A → list Z) :
  (∀ tok, StronglySorted Z.lt (row tok)) →
  ∃ d, (if all then algo.IntersectSorted (row <$> toks) else algo.MergeSorted (row <$> toks)) = Ok d ∧ StronglySorted Z.lt d ∧
    ∀ x, x ∈ d ↔ if all then toks ≠ [] ∧ ∀ tok, tok ∈ toks → x ∈ row tok else ∃ tok, tok ∈ toks ∧ x ∈ row tok.
Proof.
  intros Hrow. assert (Forall (StronglySorted Z.lt) (row <$> toks)) as Hrs by (apply Forall_fmap, Forall_true; done). destruct all.
  - destruct (decide (toks = [])) as [->|Hnt].
    + exists []. split; [done|]. split; [constructor|]. intros x. rewrite elem_of_nil. naive_solver.
    + destruct (algo.IntersectSorted_spec (row <$> toks)) as (d & -> & Hsd & Hin); [by intros ?%fmap_nil_inv|done|].
      exists d. split; [done|]. split; [done|]. intros x. rewrite Hin. setoid_rewrite list_elem_of_fmap. naive_solver.
  - destruct (algo.MergeSorted_spec (row <$> toks)) as (d & -> & Hsd & Hin); [eapply Forall_impl; [exact Hrs|apply ssorted_lt_le]|].
    exists d. split; [done|]. split; [done|]. intros x. rewrite Hin. setoid_rewrite list_elem_of_fmap. naive_solver.
Qed.
End tasks.

Section level.
Context {St : Type} `{KVStore St} `{index.IndexLib} `{index.Farm} `{GoSort}.
Context (sch : schema.tables) (conf : group.config) (Hconf : u32 (group.n conf) ≠ 0) (g : mutation.graph) (v : view).
Implicit Types (cl : cluster (St := St)).

(** The servers hold the graph, and an index that is exact for it. *)
Record describes : Prop := {
  ds_data a u : index.attr_ok a → is_u64 u → data v u a = g u a;
  ds_idx a tok x : index.attr_ok a → schema.IsIndexed sch a = true → 0 < x →
    is_Some (idx v a tok !! x) ↔ is_u64 x ∧ tok ∈ graph_tokens sch g a x;
  ds_uids a u x : index.attr_ok a → is_u64 u → is_Some (g u a !! x) → is_u64 x;
}.
Context (Hv : describes).

Notation sbase := (sbase sch g).

(** The parts of a subgraph that say what is asked. *)
Definition same_query (s s' : SubGraph) : Prop :=
  Attr s' = Attr s ∧ Params s' = Params s ∧ SrcUIDs s' = SrcUIDs s ∧ SgFunc s' = SgFunc s ∧ FilterOp s' = FilterOp s ∧
  Filters s' = Filters s ∧ Children s' = Children s.

(** The outcome of the first part, before the filters. *)
Definition first_ok (sg : SubGraph) (src : option (list Z)) (sg1 : SubGraph) (d : list Z) : Prop :=
  same_query sg sg1 ∧ DestUIDs sg1 = Some d ∧ uids d ∧ (∀ x, x ∈ d ↔ sbase sg (set_of src) x) ∧
  (Attr sg ≠ [] → SgFunc sg = [] → ∀ us, src = Some us → sent g (Attr sg) (AfterUID (Params sg)) us sg1).

Lemma in_set_of us x : (∃ s, set_of (Some us) = Some s ∧ s x) ↔ x ∈ us.
Proof. split; [by intros (s & [= <-] & ?)|]. intros Hx. by eexists. Qed.

Lemma keys_after_reach after a u x :
  index.attr_ok a → is_u64 u → x ∈ keys_after after (g u a) ↔ reach g after a u x.
Proof. intros. apply keys_after_spec. Qed.

Lemma keys_after_term after a tok x :
  index.attr_ok a → schema.IsIndexed sch a = true → 0 ≤ after → x ∈ keys_after after (idx v a tok) ↔ has_term sch g after a tok x.
Proof.
  intros Ha Hi H0'. destruct (keys_after_spec after (idx v a tok)) as [_ ->]. unfold has_term.
  split; intros (Hx & Hm & Ht); (split; [done|]); (split; [done|]); apply (ds_idx Hv a tok x Ha Hi ltac:(lia)); done.
Qed.

Lemma task_uids sg : QUids (createTaskQuery sg) = default [] (SrcUIDs sg).
Proof. done. Qed.

Lemma task_ok sg src :
  SrcUIDs sg = src → uid_list src → 0 ≤ AfterUID (Params sg) → query_ok (createTaskQuery sg).
Proof.
  intros Hsrc Hul Ha. split; [done|]. intros _. rewrite task_uids, Hsrc.
  destruct src as [us|]; [apply ssorted_lt_le; by apply Hul|constructor].
Qed.

Lemma fmap_u64 {A} (f h : Z → A) us : Forall is_u64 us → (∀ u, is_u64 u → f u = h u) → f <$> us = h <$> us.
Proof. intros Hu Hfh. apply list_fmap_ext. intros i u Hi. apply Hfh. by eapply Forall_lookup_1. Qed.

(** A level without a predicate. *)
Lemma first_uids_plain sg src root cl :
  Attr sg = [] → SrcUIDs sg = src → uid_list src → is_Some src → (∀ gid, index.world_ok (cl gid)) →
  ∃ d sg1, first_uids conf (λ _, None) sg root cl = Ok (false, sg1, cl) ∧ first_ok sg src sg1 d.
Proof.
  intros Ha Hsrc Hul [us ->] Hw. unfold first_uids. rewrite Ha. cbn [length Nat.eqb]. rewrite Hsrc.
  eexists us, _. split; [reflexivity|]. split; [done|]. split; [done|]. split; [by apply Hul|]. split; [|by rewrite Ha].
  intros x. unfold query_answer.sbase, base. by rewrite Ha, in_set_of.
Qed.

Lemma first_uids_reach sg us root cl :
  Attr sg ≠ [] → SgFunc sg = [] → SrcUIDs sg = Some us → uids us → index.attr_ok (Attr sg) → 0 ≤ AfterUID (Params sg) →
  PDoCount (Params sg) && (length (Filters sg) =? 0)%nat = false → root = false → sees conf cl v →
  ∃ d sg1 cl1, first_uids conf (λ _, None) sg root cl = Ok (false, sg1, cl1) ∧ kept cl cl1 ∧ first_ok sg (Some us) sg1 d.
Proof.
  intros Hne Hf Hsrc [Hss Hu64] Ha Haf Hdc -> Hcl. unfold first_uids.
  destruct (Nat.eqb_spec (length (Attr sg)) 0) as [Hl%nil_length_inv|_]; [done|]. cbn [andb]. set (q := createTaskQuery sg).
  pose proof (a_task_reach v q us) as Hr. rewrite andb_comm in Hdc. unfold q in Hr. rewrite task_uids, Hsrc in Hr.
  specialize (Hr Hdc Hf eq_refl). fold q in Hr. cbn [q createTaskQuery QAttr AfterUid] in Hr. fold q in Hr.
  rewrite (fmap_u64 (λ u, keys_after _ (data v u _)) (λ u, keys_after (AfterUID (Params sg)) (g u (Attr sg)))) in Hr
    by (done || intros u Hu; by rewrite (ds_data Hv)).
  rewrite (fmap_u64 (value_at v (Attr sg)) (value_of g (Attr sg))) in Hr
    by (done || intros u Hu; unfold value_at, value_of; by rewrite (ds_data Hv)).
  assert (query_ok q) as Hq by (apply (task_ok sg (Some us)); [done| |done]; by intros ? [= <-]).
  destruct (ProcessTaskOverNetwork_spec conf Hconf q cl v _ Hcl Hq Hr) as (cl1 & -> & Hcl1). cbn [mbind res_bind set_result Params Filters].
  rewrite andb_comm, Hdc. cbn [IntersectDest UidMatrix].
  destruct (combine_rows false us (λ u, keys_after (AfterUID (Params sg)) (g u (Attr sg)))) as (d & -> & Hsd & Hin);
    [intros; apply keys_after_spec|].
  cbn [mbind res_bind]. eexists d, _, cl1. split; [reflexivity|]. split; [done|].
  split; [done|]. split; [done|]. rewrite Forall_forall in Hu64.
  assert (∀ x, x ∈ d ↔ sbase sg (set_of (Some us)) x) as Hd.
  { intros x. rewrite Hin. unfold query_answer.sbase, base. destruct (Attr sg) as [|b attr] eqn:Hattr; [done|]. rewrite Hf.
    split.
    - intros (u & Hu & Hx). eexists _, u. split; [reflexivity|]. split; [done|]. apply keys_after_reach; [done|by apply Hu64|done].
    - intros (s & u & [= <-] & Hu & Hx). exists u. split; [done|]. apply keys_after_reach; [done|by apply Hu64|done]. }
  split; [|split; [done|by intros _ _ ? [= <-]]]. split; [done|]. apply Forall_forall. intros x (u & Hu & Hx)%Hin.
  apply keys_after_reach in Hx as (_ & _ & Hx); [|done|by apply Hu64]. eapply (ds_uids Hv); [done|by apply Hu64|done].
Qed.

Lemma first_uids_count sg us cl :
  Attr sg ≠ [] → SgFunc sg = [] → SrcUIDs sg = Some us → uids us → index.attr_ok (Attr sg) → 0 ≤ AfterUID (Params sg) →
  PDoCount (Params sg) = true → Filters sg = [] → sees conf cl v →
  ∃ sg1 cl1, first_uids conf (λ _, None) sg false cl = Ok (true, sg1, cl1) ∧ kept cl cl1 ∧ same_query sg sg1 ∧
    counts sg1 = degree g (Attr sg) <$> us ∧ length (uidMatrix sg1) = length us.
Proof.
  intros Hne Hf Hsrc [Hss Hu64] Ha Haf Hdc Hfs Hcl. unfold first_uids.
  destruct (Nat.eqb_spec (length (Attr sg)) 0) as [Hl%nil_length_inv|_]; [done|]. cbn [andb].
  destruct (a_task_count v (createTaskQuery sg) us) as (m & vs & Hr & Hm).
  { unfold createTaskQuery. cbn [DoCount]. by rewrite Hdc, Hfs. }
  { done. }
  { by rewrite task_uids, Hsrc. }
  assert (query_ok (createTaskQuery sg)) as Hq by (apply (task_ok sg (Some us)); [done| |done]; by intros ? [= <-]).
  destruct (ProcessTaskOverNetwork_spec conf Hconf _ cl v _ Hcl Hq Hr) as (cl1 & -> & Hcl1). cbn [mbind res_bind set_result Params Filters].
  rewrite Hdc, Hfs. cbn [andb length Nat.eqb]. eexists _, cl1. split; [reflexivity|]. split; [done|]. split; [done|]. cbn [counts Counts uidMatrix UidMatrix]. split; [|done].
  apply fmap_u64; [done|]. intros u Hu. unfold degree. by rewrite <-(ds_data Hv).
Qed.

Lemma first_uids_func sg src root cl toks all :
  Attr sg ≠ [] → SgFunc sg ≠ [] → SrcUIDs sg = src → src ≠ Some [] → uid_list src →
  index.attr_ok (Attr sg) → schema.IsIndexed sch (Attr sg) = true → 0 ≤ AfterUID (Params sg) → PDoCount (Params sg) = false →
  function_tokens (SgFunc sg) = Ok (toks, None, all) →
  (∀ s tok x, set_of src = Some s → tok ∈ toks → has_term sch g (AfterUID (Params sg)) (Attr sg) tok x → ∃ y, s y ∧ x ≤ y) →
  sees conf cl v →
  ∃ d sg1 cl1, first_uids conf (λ _, None) sg root cl = Ok (false, sg1, cl1) ∧ kept cl cl1 ∧ first_ok sg src sg1 d.
Proof.
  intros Hne Hf Hsrc Hns Hul Ha Hi Haf Hdc Ht Hfit Hcl. unfold first_uids.
  destruct (Nat.eqb_spec (length (Attr sg)) 0) as [Hl%nil_length_inv|_]; [done|].
  destruct (Nat.eqb_spec (length (SgFunc sg)) 0) as [Hl%nil_length_inv|_]; [done|]. rewrite andb_false_r.
  assert (∀ x, (default [] src = [] ∨ x ∈ default [] src) ↔ ∀ s, set_of src = Some s → s x) as Hsel.
  { intros x. destruct src as [us|]; simpl; [|by split; [|by left]].
    split; [intros [->|Hx] s [= <-]; done|]. intros Hx. right. by apply (Hx (λ x, x ∈ us)). }
  destruct (a_task_tokens v (createTaskQuery sg) toks all) as (vs & Hr); [|done|done| |].
  { unfold createTaskQuery. cbn [DoCount]. by rewrite Hdc, andb_false_r. }
  { rewrite task_uids, Hsrc. intros Hn tok x Htok Hx. destruct src as [us|]; [|done].
    apply (Hfit (λ x, x ∈ us) tok x eq_refl Htok). by apply keys_after_term. }
  assert (query_ok (createTaskQuery sg)) as Hq by by apply (task_ok sg src).
  destruct (ProcessTaskOverNetwork_spec conf Hconf _ cl v _ Hcl Hq Hr) as (cl1 & -> & Hcl1). cbn [mbind res_bind set_result Params Filters].
  rewrite Hdc, task_uids, Hsrc. cbn [andb IntersectDest UidMatrix createTaskQuery QAttr AfterUid].
  set (row := λ tok, token_row (AfterUID (Params sg)) (default [] src) (idx v (Attr sg) tok)).
  destruct (combine_rows all toks row) as (d & -> & Hsd & Hin); [intros; apply token_row_spec|].
  assert (∀ x tok, x ∈ row tok ↔ (∀ s, set_of src = Some s → s x) ∧ has_term sch g (AfterUID (Params sg)) (Attr sg) tok x) as Hrow.
  { intros x tok. rewrite <-Hsel, <-keys_after_term by done. apply token_row_spec. }
  assert (∀ x, x ∈ d ↔ sbase sg (set_of src) x) as Hd.
  { intros x. rewrite Hin. unfold query_answer.sbase, base. destruct (Attr sg) as [|b attr] eqn:Hattr; [done|].
    destruct (SgFunc sg) as [|f fs] eqn:Hfunc; [done|]. rewrite Ht. destruct all.
    - split.
      + intros [Hnt Hall]. split; [|by split; [|intros tok Htok; apply Hrow, Hall]].
        destruct toks as [|tok toks]; [done|]. by apply (Hrow x tok), Hall, list_elem_of_here.
      + intros (Hs & Hnt & Hall). split; [done|]. intros tok Htok. apply Hrow. by split; [|apply Hall].
    - split.
      + intros (tok & Htok & [Hs Hr']%Hrow). split; [done|by exists tok].
      + intros (Hs & tok & Htok & Hr'). exists tok. split; [done|]. by apply Hrow. }
  cbn [mbind res_bind]. eexists d, _, cl1. split; [reflexivity|]. split; [done|]. split; [done|]. split; [done|].
  split; [|by split]. split; [done|]. apply Forall_forall. intros x Hx%Hin. destruct all.
  - destruct Hx as [Hnt Hall]. destruct toks as [|tok toks]; [done|].
    by destruct (proj1 (Hrow x tok) (Hall tok (list_elem_of_here _ _))) as (_ & _ & _ & ? & _).
  - destruct Hx as (tok & _ & (_ & _ & _ & ? & _)%Hrow). done.
Qed.

(** All levels that go on. *)
Lemma first_uids_spec sg src root cl P :
  SrcUIDs sg = src → uid_list src → level_ok sch g (Attr sg) (Params sg) (SgFunc sg) (set_of src) P → sees conf cl v →
  (SgFunc sg ≠ [] → src ≠ Some []) → (root = true → Attr sg = [] ∨ SgFunc sg ≠ []) →
  PDoCount (Params sg) && (length (Filters sg) =? 0)%nat = false →
  ∃ d sg1 cl1, first_uids conf (λ _, None) sg root cl = Ok (false, sg1, cl1) ∧ kept cl cl1 ∧ first_ok sg src sg1 d.
Proof.
  intros Hsrc Hul [Ha Ho Hat Hss Hre Hf _] Hcl Hne Hroot Hdc. destruct (decide (Attr sg = [])) as [Hattr|Hattr].
  - destruct (first_uids_plain sg src root cl) as (d & sg1 & Heq & Hok); [done..| | |].
    + destruct (Hss (or_introl Hattr)) as [S HS]. destruct src; [by eexists|done].
    + apply Hcl.
    + exists d, sg1, cl. split; [done|]. split; [apply kept_refl, Hcl|done].
  - specialize (Hat Hattr). destruct (decide (SgFunc sg = [])) as [Hfunc|Hfunc].
    + destruct (Hss (or_intror Hfunc)) as [S HS]. destruct src as [us|]; [|done].
      apply first_uids_reach; try done; [by apply Hul|].
      destruct root; [|done]. by destruct (Hroot eq_refl).
    + destruct (Hf Hattr Hfunc) as (Hi & toks & all & Ht & Hfit). eapply (first_uids_func sg src root cl toks all); try done; [by apply Hne|].
      destruct (PDoCount (Params sg)) eqn:Hp; [|done]. by destruct (Hre (or_intror eq_refl)).
Qed.

(** ** Filters, pages and counts of a level *)
Lemma apply_filters_spec sg d P fs :
  DestUIDs sg = Some d → lists P d → (∀ h x, h ∈ fs → dest sch g h (Some P) x → P x) →
  Forall2 (λ h h', ∃ d, DestUIDs h' = Some d ∧ lists (dest sch g h (Some P)) d) fs (Filters sg) →
  ∃ d', apply_filters sg = Ok (set_Dest (Some d') sg) ∧
    lists (λ x, P x ∧ (fs = [] ∨ if bool_decide (FilterOp sg = bs "|") then Exists (λ h, dest sch g h (Some P) x) fs
                               else Forall (λ h, dest sch g h (Some P) x) fs)) d'.
Proof using.
  intros Hd Hl Hw Hfs. unfold apply_filters. rewrite <-(Forall2_length _ _ _ Hfs). destruct fs as [|h fs]; cbn [length Nat.eqb].
  - exists d. split; [by destruct sg; simpl in *; subst|]. destruct Hl as [Hu Hx]. split; [done|]. intros x. rewrite Hx. naive_solver.
  - destruct (filter_lists_spec sch g P _ _ Hfs) as (ls & -> & Hls). cbn [mbind res_bind].
    destruct (combine_filters sch g (bool_decide (FilterOp sg = bs "|")) P d (h :: fs) ls) as (d' & -> & Hd'); [done..|].
    by exists d'.
Qed.

Definition matrix_of (sg : SubGraph) (us : list Z) : Prop :=
  uids us ∧ index.attr_ok (Attr sg) ∧ uidMatrix sg = (λ u, keys_after (AfterUID (Params sg)) (g u (Attr sg))) <$> us.

Lemma full_row_filter after attr F P u :
  lists P F → full_row g after attr P u (filter (.∈ F) (keys_after after (g u attr))).
Proof using.
  intros [_ HF]. destruct (keys_after_spec after (g u attr)) as [Hs Hk]. split; [by apply ssorted_filter|].
  intros x. rewrite list_elem_of_filter, Hk, HF. unfold reach. tauto.
Qed.

Lemma order_and_page_spec sg src F P cl :
  Order (Params sg) = [] → DestUIDs sg = Some F → lists P F → SrcUIDs sg = src →
  (paged (Params sg) = true → ∃ us, src = Some us ∧ matrix_of sg us ∧
     ∀ u l, u ∈ us → full_row g (AfterUID (Params sg)) (Attr sg) P u l → page_fits (Params sg) l) →
  ∃ rows d, order_and_page sch conf (λ _, None) sg cl = Ok (set_Dest (Some d) (set_matrix rows sg), cl) ∧
    lists (take_pages g (Params sg) (Attr sg) (set_of src) P) d ∧
    ∀ us, src = Some us → matrix_of sg us → Forall2 (row_answer g (Params sg) (Attr sg) P) us rows.
Proof using.
  intros Ho HF Hl Hsrc Hp. unfold order_and_page, applyPagination, take_pages, row_answer. rewrite Ho. cbn [length Nat.eqb].
  unfold paged in *. destruct ((Count (Params sg) =? 0) && (Offset (Params sg) =? 0)) eqn:Hpg; cbn [negb mbind res_bind] in *.
  { exists (uidMatrix sg), F. split; [by destruct sg; simpl in *; subst|]. split; [done|].
    intros us _ (_ & _ & ->). by apply Forall2_fmap_r, Forall_Forall2_diag, Forall_true. }
  destruct (Hp eq_refl) as (us & -> & (Hus & Ha & Hm) & Hfit). rewrite Hsrc. cbn [uids_of mbind res_bind].
  assert (length us =? length (uidMatrix sg) = true)%nat as -> by (by rewrite Hm, length_fmap, Nat.eqb_refl). cbn [assert_true mbind res_bind]. rewrite HF. cbn [uids_of mbind res_bind].
  assert (paged (Params sg) = true) as Hpg' by (unfold paged; by rewrite Hpg).
  set (full := λ u, filter (.∈ F) (keys_after (AfterUID (Params sg)) (g u (Attr sg)))).
  assert (∀ u, full_row g (AfterUID (Params sg)) (Attr sg) P u (full u)) as Hfull by (intros; by apply full_row_filter).
  rewrite (page_rows_spec _ _ F Hpg'); [| |apply Hl|].
  2:{ rewrite Hm. apply Forall_fmap, Forall_true. intros u. apply keys_after_spec. }
  2:{ rewrite Hm. apply Forall_fmap, Forall_forall. intros u Hu. by apply (Hfit u). }
  rewrite Hm, <-list_fmap_compose. cbn [mbind res_bind].
  destruct (combine_rows false us (λ u, page (Params sg) (full u))) as (d & Hd & Hsd & Hin).
  { intros u. eapply sorted_sublist; [apply page_sublist|apply Hfull]. }
  unfold compose. unfold full in Hd at 1. rewrite Hd. cbn [mbind res_bind]. eexists _, d. split; [reflexivity|].
  assert (∀ x, x ∈ d ↔ ∃ s u l, set_of (Some us) = Some s ∧ s u ∧ full_row g (AfterUID (Params sg)) (Attr sg) P u l ∧ x ∈ page (Params sg) l) as Hx.
  { intros x. rewrite Hin. split.
    - intros (u & Hu & Hx). eexists _, u, (full u). split; [reflexivity|]. done.
    - intros (s & u & l & [= <-] & Hu & Hfl & Hx). exists u. split; [done|]. by rewrite (full_row_unique g _ _ _ _ _ _ (Hfull u) Hfl). }
  split; [split; [split; [done|]|exact Hx]|].
  - apply Forall_forall. intros x (u & Hu & Hxp)%Hin. eapply elem_of_sublist in Hxp; [|apply page_sublist].
    apply Hfull in Hxp as [_ HP]. apply Hl in HP. destruct Hl as [[_ Hu64] _]. by eapply Forall_forall in Hu64.
  - intros ? [= <-] _. apply Forall2_fmap_r, Forall_Forall2_diag, Forall_true. intros u. by exists (full u).
Qed.

Lemma count_rows_spec rows d :
  Forall (StronglySorted Z.lt) rows → StronglySorted Z.lt d → count_rows rows d = Ok ((λ l, filter (.∈ d) l) <$> rows).
Proof using.
  intros Hs Hd. induction Hs as [|l rows Hl Hs IH]; [done|]. cbn [count_rows].
  rewrite algo.IntersectWith_spec by by apply ssorted_lt_le. cbn [mbind res_bind]. by rewrite IH.
Qed.

Lemma filtered_counts_spec sg us d P F :
  Filters sg ≠ [] → lists P F → DestUIDs sg = Some d → lists (take_pages g (Params sg) (Attr sg) (set_of (Some us)) P) d →
  Forall2 (row_answer g (Params sg) (Attr sg) P) us (uidMatrix sg) →
  ∃ cs rows, filtered_counts sg = Ok (set_counts cs (set_matrix rows sg)) ∧
    Forall2 (count_answer g (Params sg) (Attr sg) P) us cs ∧ length rows = length us.
Proof using.
  intros Hf HF Hd Hl Hrows. unfold filtered_counts.
  assert (0 <? length (Filters sg) = true)%nat as -> by (destruct (Filters sg); done). cbn [assert_true mbind res_bind].
  rewrite Hd. cbn [uids_of mbind res_bind]. unfold row_answer, take_pages in *.
  assert (Forall2 (λ u row, StronglySorted Z.lt row ∧
    ∃ l, full_row g (AfterUID (Params sg)) (Attr sg) P u l ∧ filter (.∈ d) row = page (Params sg) l) us (uidMatrix sg)) as Hr.
  { destruct Hl as [_ Hx]. apply Forall2_same_length_lookup. split; [by eapply Forall2_length|]. intros i u row Hu Hi.
    pose proof (Forall2_lookup_lr _ _ _ _ _ _ Hrows Hu Hi) as Hrow. simpl in Hrow. destruct (paged (Params sg)) eqn:Hp.
    - destruct Hrow as (l & Hfl & ->). split; [eapply sorted_sublist; [apply page_sublist|apply Hfl]|]. exists l. split; [done|].
      apply filter_all, Forall_forall. intros x Hxl. apply Hx. eexists _, u, l. split; [reflexivity|]. split; [by eapply list_elem_of_lookup_2|done].
    - subst row. split; [apply keys_after_spec|]. eexists. split; [by apply full_row_filter|]. rewrite page_unpaged by done.
      apply list_filter_iff. intros x. rewrite Hx. symmetry. apply HF. }
  rewrite count_rows_spec; [| |apply Hl].
  - cbn [mbind res_bind]. eexists _, _. split; [reflexivity|].
    split; [|rewrite length_fmap; symmetry; by eapply Forall2_length]. rewrite <-list_fmap_compose. apply Forall2_fmap_r. eapply Forall2_impl; [exact Hr|]. intros u row (_ & l & Hfl & Heq).
    exists l. split; [done|]. unfold compose. by rewrite Heq.
  - apply Forall_forall. intros row (i & Hi)%list_elem_of_lookup_1. by destruct (Forall2_lookup_r _ _ _ _ _ Hr Hi) as (u & _ & ? & _).
Qed.

(** ** The whole graph *)
Lemma each_spec (f : SubGraph → cluster → res (SubGraph * cluster)) (Q : SubGraph → SubGraph → Prop) gs cl :
  sees conf cl v →
  (∀ h cl, h ∈ gs → sees conf cl v → ∃ h' cl', f h cl = Ok (h', cl') ∧ kept cl cl' ∧ Q h h') →
  ∃ gs' cl', each f gs cl = Ok (gs', cl') ∧ kept cl cl' ∧ Forall2 Q gs gs'.
Proof using Hconf.
  revert cl. induction gs as [|h gs IH]; intros cl Hcl Hf.
  { exists [], cl. split; [done|]. split; [apply kept_refl, Hcl|constructor]. }
  cbn [each]. destruct (Hf h cl (list_elem_of_here _ _) Hcl) as (h' & cl1 & -> & Hk1 & Hq). cbn [mbind res_bind].
  destruct (IH cl1) as (gs' & cl2 & -> & Hk2 & Hqs); [by eapply sees_kept|intros; apply Hf; [by apply list_elem_of_further|done]|].
  eexists _, cl2. split; [reflexivity|]. split; [by eapply kept_trans|by constructor].
Qed.

Lemma dest_sbase sg src x : dest sch g sg src x → sbase sg src x.
Proof using.
  intros Hx%dest_filtered. unfold take_pages in Hx. destruct (paged (Params sg)); [|apply Hx].
  destruct Hx as (s & u & l & _ & _ & [_ Hl] & Hx). eapply elem_of_sublist in Hx; [|apply page_sublist]. apply Hl in Hx as [_ Hx]. apply Hx.
Qed.

Definition processed (sg : SubGraph) : Prop := ∀ src root cl,
  sees conf cl v → uid_list src → good sch g sg (set_of src) →
  (SgFunc sg ≠ [] → src ≠ Some []) → (root = true → Attr sg = [] ∨ SgFunc sg ≠ []) →
  ∃ sg' cl', ProcessGraph sch conf (λ _, None) sg src root cl = Ok (sg', cl') ∧ kept cl cl' ∧ answers sch g sg src sg'.

(** A level without uids ends there. *)
Lemma same_query_level sg src sg1 : SrcUIDs sg = src → same_query sg sg1 → same_level sg src sg1.
Proof using. intros Hs (Ha & Hp & Hs' & _ & _ & _ & Hc). split_and!; [done|done|by rewrite Hs'|by rewrite Hc]. Qed.

Lemma no_uids sg src sg1 :
  SrcUIDs sg = src → first_ok sg src sg1 [] → level_ok sch g (Attr sg) (Params sg) (SgFunc sg) (set_of src) (filtered sch g sg (set_of src)) → PDoCount (Params sg) && (length (Filters sg) =? 0)%nat = false → answers sch g sg src sg1.
Proof using.
  intros Hsrc (Hsame & Hd1 & Hud & Hd & Hrows) Hl Hc. apply answers_iff. split; [by apply same_query_level|].
  assert (∀ x, ¬ sbase sg (set_of src) x) as Hno by (intros x Hx%Hd; by apply elem_of_nil in Hx).
  destruct (PDoCount (Params sg)) eqn:Hdc.
  - intros l ->. destruct (Filters sg); [done|]. split; [intros [x Hx]; by destruct (Hno x)|]. intros _.
    destruct (lv_reach _ _ _ _ _ _ _ Hl (or_intror Hdc)) as [Ha Hf]. by apply Hrows.
  - exists []. split; [done|]. split; [done|]. split; [|split; [|intros [x Hx]; by destruct (Hno x)]].
    { intros x. split; [by intros ?%elem_of_nil|]. intros Hx%dest_sbase. by destruct (Hno x). }
    intros Ha Hf us ->. destruct (Hrows Ha Hf us eq_refl) as (-> & -> & ->). split; [|done].
    apply Forall2_fmap_r, Forall_Forall2_diag, Forall_forall. intros u Hu. unfold row_answer. destruct (paged (Params sg)); [|done].
    exists []. split.
    + split; [constructor|]. intros x. split; [by intros ?%elem_of_nil|]. intros [_ [Hx _]]. by destruct (Hno x).
    + rewrite page_nil. apply elem_of_nil_inv. intros x Hx. apply (Hno x). apply keys_after_spec in Hx.
      unfold query_answer.sbase, base. destruct (Attr sg); [done|]. rewrite Hf. by eexists _, u.
Qed.

(** A count without filters. *)
Lemma counted sg src cl :
  SrcUIDs sg = src → PDoCount (Params sg) && (length (Filters sg) =? 0)%nat = true →
  sees conf cl v → uid_list src → level_ok sch g (Attr sg) (Params sg) (SgFunc sg) (set_of src) (filtered sch g sg (set_of src)) →
  ∃ sg1 cl1, first_uids conf (λ _, None) sg false cl = Ok (true, sg1, cl1) ∧ kept cl cl1 ∧ answers sch g sg src sg1.
Proof.
  intros Hsrc [Hdc Hnf%Nat.eqb_eq%nil_length_inv]%andb_prop Hcl Hul Hl.
  destruct (lv_reach _ _ _ _ _ _ _ Hl (or_intror Hdc)) as [Ha Hf]. destruct (lv_src _ _ _ _ _ _ _ Hl (or_intror Hf)) as [S HS].
  destruct src as [us|]; [|done].
  destruct (first_uids_count sg us cl) as (sg1 & cl1 & -> & Hk & Hsq & Hc & Hm); try done; [by apply Hul|by apply Hl|by apply Hl|].
  eexists _, cl1. split; [reflexivity|]. split; [done|]. apply answers_iff. split; [by apply same_query_level|]. rewrite Hdc.
  intros ? [= <-]. by rewrite Hnf.
Qed.

(** The filters of a level. *)
Lemma run_filters fs P d cl :
  Forall processed fs → Forall (λ h, (Attr h = [] ∨ SgFunc h ≠ []) ∧ good sch g h (Some P)) fs →
  lists P d → d ≠ [] → sees conf cl v →
  ∃ fs' cl', each (λ h, ProcessGraph sch conf (λ _, None) h (Some d) false) fs cl = Ok (fs', cl') ∧ kept cl cl' ∧
    Forall2 (λ h h', ∃ d, DestUIDs h' = Some d ∧ lists (dest sch g h (Some P)) d) fs fs'.
Proof.
  intros Hp Hg [Hud Hd] Hne Hcl. rewrite Forall_forall in Hp, Hg. apply each_spec; [done|]. intros h cl1 Hh Hcl1.
  destruct (Hg h Hh) as [Hsh Hgh]. assert (src_eq (Some P) (set_of (Some d))) as Heq by (apply src_eq_Some; intros x; by rewrite Hd).
  destruct (Hp h Hh (Some d) false cl1) as (h' & cl2 & -> & Hk & Ha); [done|by intros ? [= <-]|by eapply good_ext|by intros _ [= ->]|done|].
  eexists _, cl2. split; [done|]. split; [done|]. apply answers_iff in Ha.
  destruct (PDoCount (Params h)) eqn:Hdc.
  { apply good_iff in Hgh as [Hl _]. destruct (lv_reach _ _ _ _ _ _ _ Hl (or_intror Hdc)). by destruct Hsh. }
  destruct Ha as (_ & dh & Hdh & Hu & Hx & _). exists dh. split; [done|]. split; [done|]. intros x. rewrite Hx. symmetry. by apply dest_ext.
Qed.

(** The rest of a level that has uids: filters, pages, and then the count or the
    children. *)
Lemma run_rest sg src sg1 d cl :
  Forall processed (Filters sg) → Forall processed (Children sg) → good sch g sg (set_of src) → uid_list src → SrcUIDs sg = src →
  first_ok sg src sg1 d → d ≠ [] → PDoCount (Params sg) && (length (Filters sg) =? 0)%nat = false → sees conf cl v →
  ∃ sg' cl', (' (filters, cl) ← each (λ g, ProcessGraph sch conf (λ _, None) g (DestUIDs sg1) false) (Filters sg) cl;
     sg ← apply_filters (set_Filters filters sg1);
     ' (sg, cl) ← order_and_page sch conf (λ _, None) sg cl;
     if PDoCount (Params sg) then sg ← filtered_counts sg; Ok (sg, cl)
     else
       ' (children, cl) ← each (λ g, ProcessGraph sch conf (λ _, None) g (DestUIDs sg) false) (Children sg1) cl;
       Ok (set_Children children sg, cl)) = Ok (sg', cl') ∧ kept cl cl' ∧ answers sch g sg src sg'.
Proof.
  intros IHf IHc (Hl & Hgf & Hgc)%good_iff Hul Hsrc ((Ha & Hpa & Hs & Hfu & Hop & Hfi & Hch) & Hd1 & Hud & Hd & Hrows) Hne Hcnt Hcl.
  rewrite Hd1. destruct (run_filters (Filters sg) (sbase sg (set_of src)) d cl) as (fs' & cl1 & -> & Hk1 & Hfs); [done..|].
  cbn [mbind res_bind].
  destruct (apply_filters_spec (set_Filters fs' sg1) d (sbase sg (set_of src)) (Filters sg)) as (F & -> & HF); [done|done| |done|].
  { rewrite Forall_forall in Hgf. intros h x Hh. destruct (Hgf h Hh). by apply filter_within. }
  change (FilterOp (set_Filters fs' sg1)) with (FilterOp sg1) in HF. rewrite Hop in HF.
  change (lists (filtered sch g sg (set_of src)) F) in HF. cbn [mbind res_bind].
  set (sg2 := set_Dest (Some F) (set_Filters fs' sg1)).
  assert (∀ us, Attr sg ≠ [] → SgFunc sg = [] → src = Some us → matrix_of sg2 us) as Hm.
  { intros us Hna Hnf ->. split; [by apply Hul|]. cbn [Attr sg2 set_Dest set_Filters Params uidMatrix]. rewrite Ha, Hpa.
    split; [by apply Hl|]. by apply Hrows. }
  destruct (order_and_page_spec sg2 src F (filtered sch g sg (set_of src)) cl1) as (rows & d2 & -> & Hd2 & Hro); [| done|done| | |].
  { cbn [sg2 set_Dest set_Filters Params]. rewrite Hpa. apply Hl. }
  { cbn [sg2 set_Dest set_Filters SrcUIDs]. by rewrite Hs. }
  { cbn [sg2 set_Dest set_Filters Params Attr]. rewrite Hpa, Ha. intros Hp.
    destruct (lv_reach _ _ _ _ _ _ _ Hl (or_introl Hp)) as [Hna Hnf]. destruct (lv_src _ _ _ _ _ _ _ Hl (or_intror Hnf)) as [S HS].
    destruct src as [us|]; [|done]. exists us. split; [done|]. split; [by apply Hm|]. intros u l Hu Hfl.
    eapply (lv_page _ _ _ _ _ _ _ Hl Hp); [|reflexivity|exact Hu|exact Hfl]. destruct d as [|x d]; [done|].
    exists x. apply Hd, list_elem_of_here. }
  cbn [mbind res_bind sg2 set_Dest set_matrix set_Filters Params Attr DestUIDs] in Hd2, Hro |- *. rewrite Hpa, Ha in Hd2, Hro. rewrite Hpa.
  destruct (PDoCount (Params sg)) eqn:Hdc; cbn [andb] in Hcnt.
  - destruct (lv_reach _ _ _ _ _ _ _ Hl (or_intror Hdc)) as [Hna Hnf]. destruct (lv_src _ _ _ _ _ _ _ Hl (or_intror Hnf)) as [S HS].
    destruct src as [us|]; [|done]. assert (Filters sg ≠ []) as Hnfs by (by intros Hn; rewrite Hn in Hcnt).
    destruct (filtered_counts_spec (set_Dest (Some d2) (set_matrix rows sg2)) us d2 (filtered sch g sg (set_of (Some us))) F)
      as (cs & rows' & Heq & Hco & Hlen); cbn [set_Dest set_matrix sg2 set_Filters Filters Params Attr DestUIDs uidMatrix]; rewrite ?Hpa, ?Ha; try done.
    { intros ->. by apply Hnfs; inversion Hfs. }
    { by apply Hro, Hm. }
    cbn [sg2 set_Dest set_matrix set_Filters] in Heq. rewrite Heq. cbn [mbind res_bind]. eexists _, cl1. split; [reflexivity|]. split; [done|].
    apply answers_iff. split; [by split_and!; cbn; rewrite ?Hpa, ?Ha, ?Hs, ?Hch|]. rewrite Hdc. intros ? [= <-]. destruct (Filters sg); [done|].
    cbn [set_Dest set_matrix sg2 set_Filters Params Attr] in Hco. rewrite Hpa, Ha in Hco. split; [by intros _|].
    intros Hno. destruct d as [|x d]; [done|]. destruct (Hno x). apply Hd, list_elem_of_here.
  - rewrite Hch. destruct (each_spec (λ g, ProcessGraph sch conf (λ _, None) g (Some d2) false) (λ c c', answers sch g c (Some d2) c') (Children sg) cl1)
      as (cs' & cl2 & -> & Hk2 & Hcs); [by eapply sees_kept| |].
    { rewrite Forall_forall in IHc, Hgc. intros h cl' Hh Hcl'. destruct (Hgc h Hh) as [[_ Hhf] Hgh].
      apply (IHc h Hh); [done|intros ? [= <-]; apply Hd2| |by rewrite Hhf|done].
      eapply good_ext; [|exact Hgh]. apply src_eq_Some. intros x. rewrite dest_filtered. symmetry. apply Hd2. }
    cbn [mbind res_bind]. eexists _, cl2. split; [reflexivity|]. split; [by eapply kept_trans|]. apply answers_iff.
    split; [split_and!; cbn; rewrite ?Hpa, ?Ha, ?Hs; try done; split; intros Hn; rewrite Hn in Hcs; by inversion Hcs|]. rewrite Hdc.
    exists d2. split; [done|]. split; [apply Hd2|]. split; [intros x; rewrite dest_filtered; apply Hd2|]. split; [|done].
    intros Hna Hnf us ->. split; [by apply Hro, Hm|]. by destruct (Hrows Hna Hnf us eq_refl) as (_ & ? & ?).
Qed.

Lemma ProcessGraph_spec sg : processed sg.
Proof.
  induction sg as [attr p c vs m src0 f op filters children d0 IHf IHc] using SubGraph_ind'.
  intros src root cl Hcl Hul Hgood Hne Hroot. set (sg := mkSG attr p c vs m src f op filters children d0).
  change (good sch g sg (set_of src)) in Hgood. change (∃ sg' cl', ProcessGraph sch conf (λ _, None) sg src root cl = Ok (sg', cl') ∧ kept cl cl' ∧ answers sch g sg src sg').
  cbn [ProcessGraph sg]. fold sg. pose proof (proj1 (proj1 (good_iff _ _ _ _) Hgood)) as Hl.
  destruct (PDoCount (Params sg) && (length (Filters sg) =? 0)%nat) eqn:Hcnt.
  { assert (root = false) as ->.
    { destruct root; [|done]. apply andb_prop in Hcnt as [Hdc _]. destruct (lv_reach _ _ _ _ _ _ _ Hl (or_intror Hdc)).
      by destruct (Hroot eq_refl). }
    destruct (counted sg src cl) as (sg1 & cl1 & -> & Hk & Ha); [done..|]. cbn [mbind res_bind]. by eexists _, cl1. }
  destruct (first_uids_spec sg src root cl (filtered sch g sg (set_of src))) as (d & sg1 & cl1 & -> & Hk1 & Hok); [done..|].
  cbn [mbind res_bind]. pose proof Hok as ((_ & _ & _ & _ & _ & Hfi & Hch) & Hd1 & _). rewrite Hd1. cbn [uids_of mbind res_bind].
  destruct d as [|x d]; cbn [length Nat.eqb].
  { eexists _, cl1. split; [reflexivity|]. split; [done|]. by eapply no_uids. }
  destruct (run_rest sg src sg1 (x :: d) cl1) as (sg' & cl2 & Heq & Hk2 & Ha); try done; [by eapply sees_kept|].
  exists sg', cl2. split; [|split; [by eapply kept_trans|done]]. rewrite Hd1, Hch in Heq. exact Heq.
Qed.
End level.

(** ** The claim *)
Section claim.
Context {St : Type} `{KVStore St} `{index.IndexLib} `{index.Farm} `{GoSort}.
Context (sch : schema.tables) (conf : group.config) (Hconf : u32 (group.n conf) ≠ 0) (g : mutation.graph).
Implicit Types (cl : cluster (St := St)).

(** Every server holds the edges of its predicates, with an exact index. *)
Definition holds cl : Prop := ∀ gid, mutation.serves sch (λ a, mutation.group_of conf a = gid) g (cl gid).

Lemma holds_describes cl : holds cl → ∃ v, sees conf cl v ∧ describes sch g v.
Proof using.
  intros Hcl. exists (mkView (λ u a, index.den (cl (mutation.group_of conf a)) (posting_key.Key u a))
    (λ a t, index.den (cl (mutation.group_of conf a)) (index_key.IndexKey a t))).
  assert (∀ gid, index.world_ok (cl gid)) as Hw by (intros gid; apply Hcl).
  assert (∀ a u, index.attr_ok a → is_u64 u → index.den (cl (mutation.group_of conf a)) (posting_key.Key u a) = g u a) as Hd.
  { intros a u Ha Hu. destruct (Hcl (mutation.group_of conf a)) as (_ & _ & Hg). by apply Hg. }
  split; [by split_and!|]. split; cbn [data idx].
  - done.
  - intros a tok x Ha Hi Hx. destruct (Hcl (mutation.group_of conf a)) as (_ & Hex & _).
    assert (is_u64 x → is_Some (index.den (cl (mutation.group_of conf a)) (index_key.IndexKey a tok) !! x) ↔ tok ∈ graph_tokens sch g a x) as Hiff.
    { intros Hu. rewrite (index.io_exact _ _ _ (Hex a Ha Hi)) by (done || lia). unfold index.tokens_at, graph_tokens. rewrite Hd by done.
      case_decide; by split. }
    split; [|intros [Hu Ht]; by apply Hiff]. intros Hs. destruct (den_uids _ _ _ (Hw _) Hs) as [Hu _]. split; [done|by apply Hiff].
  - intros a u x Ha Hu. rewrite <-Hd by done. intros Hs. by destruct (den_uids _ _ _ (Hw _) Hs).
Qed.

Lemma holds_kept cl cl' : holds cl → kept cl cl' → holds cl'.
Proof using.
  intros Hcl Hk gid. destruct (Hcl gid) as (Hw & Hex & Hg). destruct (Hk gid) as (Hw' & _ & Hsame). split_and!.
  - done.
  - by eapply index.all_exact_same.
  - intros u a Hu Ha Hp. destruct Hsame as [_ Hd]. rewrite Hd. by apply Hg.
Qed.

(** C4: A query returns the right answer. Let every server hold the edges of a
    graph for its predicates, with an exact index. For a subgraph that can be
    answered (see [level_ok]), [ProcessGraph] succeeds, and the processed
    subgraph is the answer over the graph: each level has the uids, ascending,
    that the function selects by its terms or that the source reaches, passed
    through the filters and cut to the page; it has the value of each source, the
    row of each source or the count of that row; and so on for the children, with
    the uids of the level as source. The servers hold the same graph as before. *)
Theorem query_answers sg src root cl :
  holds cl → uid_list src → good sch g sg (set_of src) →
  (SgFunc sg ≠ [] → src ≠ Some []) → (root = true → Attr sg = [] ∨ SgFunc sg ≠ []) →
  ∃ sg' cl', ProcessGraph sch conf (λ _, None) sg src root cl = Ok (sg', cl') ∧ answers sch g sg src sg' ∧ holds cl'.
Proof.
  intros Hcl Hul Hg Hne Hroot. destruct (holds_describes cl Hcl) as (v & Hv & Hds).
  destruct (ProcessGraph_spec sch conf Hconf g v Hds sg src root cl) as (sg' & cl' & Heq & Hk & Ha); [done..|].
  exists sg', cl'. split; [done|]. split; [done|by eapply holds_kept].
Qed.
End claim.

(** ** An instance *)
#[local] Existing Instances geo.ex_values geo.ex_s2 index.ex_index index.ex_farm sort.ex_sort.

Definition ex_graph : mutation.graph := mutation.apply_one (λ _ _, ∅) (index.ex_edge, posting.Set_).

(** The entities whose name has the term ann, their names, and how many edges
    the predicate has for them. *)
Definition ex_params (cnt : bool) : params := mkParams None [] 0 0 0 cnt false [] false.
Definition ex_func : list (list byte) := [bs "anyof"; bs "ann"].
Definition ex_filter : SubGraph := mkSG index.ex_attr (ex_params false) [] [] [] None ex_func [] [] [] None.
Definition ex_children : list SubGraph :=
  [mkSG index.ex_attr (ex_params false) [] [] [] None [] [] [] [] None;
   mkSG index.ex_attr (ex_params true) [] [] [] None [] [] [] [] None].
Definition ex_sg : SubGraph := mkSG index.ex_attr (ex_params false) [] [] [] None ex_func [] [ex_filter] ex_children None.

Lemma ex_tokens : function_tokens ex_func = Ok ([bs "ann"], None, false).
Proof. vm_compute. reflexivity. Qed.

Lemma ex_level cnt f src P :
  f = [] ∧ is_Some src ∨ cnt = false ∧ f = ex_func ∧
    (∀ s x, src = Some s → has_term index.ex_sch ex_graph 0 index.ex_attr (bs "ann") x → s x) →
  level_ok index.ex_sch ex_graph index.ex_attr (ex_params cnt) f src P.
Proof.
  intros Hf. split; try done.
  - intros _. apply index.ex_attr_ok.
  - destruct Hf as [[_ ?]|(_ & -> & _)]; [done|]. by intros [?|?].
  - destruct Hf as [[-> ?]|(-> & -> & _)]; [done|]. by intros [?|?].
  - destruct Hf as [[-> ?]|(_ & -> & Hs)]; [done|]. intros _ _. split; [by_decide|]. exists [bs "ann"], false. split; [apply ex_tokens|].
    intros s tok x -> ->%list_elem_of_singleton Hx. exists x. split; [by apply Hs|lia].
Qed.

Lemma ex_base : ∀ x, sbase index.ex_sch ex_graph ex_sg None x ↔ has_term index.ex_sch ex_graph 0 index.ex_attr (bs "ann") x.
Proof.
  intros x. unfold sbase, base. cbn [Attr SgFunc ex_sg Params ex_params AfterUID]. rewrite ex_tokens. split.
  - intros (_ & tok & ->%list_elem_of_singleton & Hx). done.
  - intros Hx. split; [done|]. exists (bs "ann"). by split; [apply list_elem_of_singleton|].
Qed.

Lemma ex_good : good index.ex_sch ex_graph ex_sg None.
Proof.
  apply good_iff. split_and!.
  - apply ex_level. right. done.
  - apply Forall_singleton. split; [by right|]. apply good_iff. split_and!; [|constructor..]. apply ex_level. right.
    split_and!; [done..|]. intros s x [= <-] Hx. by apply ex_base.
  - apply Forall_forall. intros h Hh. assert (∃ cnt, h = mkSG index.ex_attr (ex_params cnt) [] [] [] None [] [] [] [] None) as [cnt ->].
    { apply elem_of_cons in Hh as [Hh|Hh%list_elem_of_singleton]; subst h; by eexists. }
    split; [done|]. apply good_iff. split_and!; [|constructor..]. apply ex_level. left. by split; [|eexists].
Qed.

Lemma query_answers_witness :
  good index.ex_sch ex_graph ex_sg None ∧
  ∃ w, index.AddMutationWithIndex index.ex_sch 1 (posting_key.Key 1 index.ex_attr) index.ex_edge posting.Set_ index.ex_world = Ok (w, None) ∧
  ∃ sg' cl' d, ProcessGraph index.ex_sch mutation.ex_conf (λ _, None) ex_sg None true (λ _, w) = Ok (sg', cl') ∧
    answers index.ex_sch ex_graph ex_sg None sg' ∧ DestUIDs sg' = Some d ∧ 1 ∈ d.
Proof.
  split; [exact ex_good|]. destruct index.ex_world_ok as (Hw & Hex & Hd).
  destruct (mutation.serves_step index.ex_sch 1 (Z.neq_succ_diag_l 0) (λ _, True) (λ _ _, ∅) index.ex_world index.ex_edge posting.Set_)
    as (w & Heq & Hs).
  { split_and!; [exact Hw|exact Hex|]. intros u a _ _ _. apply Hd. }
  { exact index.ex_edge_valid. }
  { left. reflexivity. }
  exists w. split; [exact Heq|].
  destruct (query_answers index.ex_sch mutation.ex_conf ltac:(by_decide) ex_graph ex_sg None true (λ _, w)) as (sg' & cl' & Hrun & Ha & _).
  - intros gid. destruct Hs as (Hw' & Hex' & Hg). split_and!; [exact Hw'|exact Hex'|]. intros u a Hu Hat _. by apply Hg.
  - intros us Hus. discriminate Hus.
  - exact ex_good.
  - intros _ Hn. discriminate Hn.
  - intros _. right. discriminate.
  - pose proof (proj1 (answers_iff _ _ _ _ _) Ha) as (_ & d & Hd1 & _ & Hx & _).
    exists sg', cl', d. split; [exact Hrun|]. split; [exact Ha|]. split; [exact Hd1|]. apply Hx, dest_filtered.
    assert (has_term index.ex_sch ex_graph 0 index.ex_attr (bs "ann") 1) as Ht.
    { unfold has_term. split_and!; [lia|done|by_decide|]. vm_compute. apply list_elem_of_here. }
    change (filtered index.ex_sch ex_graph ex_sg None 1). split; [by apply ex_base|]. right. apply Forall_singleton.
    apply dest_filtered. change (filtered index.ex_sch ex_graph ex_filter (Some (sbase index.ex_sch ex_graph ex_sg None)) 1).
    split; [|by left]. unfold sbase at 1, base. cbn [Attr SgFunc ex_filter Params ex_params AfterUID]. rewrite ex_tokens.
    split; [intros s [= <-]; by apply ex_base|]. exists (bs "ann"). by split; [apply list_elem_of_singleton|].
Defined.
End query_answer.
