(* ===== verification/Output.v ===== *)
(** The answer of a query as a tree ([query/query.go]: [preTraverse] with its
    two kinds of output nodes, [ToProtocolBuffer], [ToJSON]; [query/proto.go]).

    The output nodes are an interface of the code and a class here. The rendering
    of the final map by encoding/json and the pool of recycled nodes are not
    modelled: a new node is an empty one. *)
From S2P Require Import Prelude Bytes Strconv Store Keys Task Algo PostingList PostingIter Tokens Types Geo Lex GqlLex GqlParse Schema Group Index Mutation Process Sort Query QueryAnswer.
From stdpp Require Import options.
#[local] Open Scope Z_scope.
#[local] Set Default Proof Using "Type*".

(** The interface [outputNode]. *)
Class OutputNode `{types.ValueLib} (N : Type) : Type := {
  AddValue : list byte → types.Value → N → res N;
  AddChild : list byte → N → N → res N;
  New : list byte → N;
  SetUID : Z → N → N;
  SetXID : list byte → N → N;
  IsEmpty : N → bool;
}.

Module output.
Import process query query_answer.

Section traverse.
Context `{types.ValueLib} {N : Type} `{!OutputNode N} (sch : schema.tables).

Definition getValue (tv : Z * list byte) : res types.Value :=
  let id := tv.1 mod 256 in
  if types.ValueForType id true true true true true true true true false then types.UnmarshalBinary id tv.2
  else Err "Invalid type: %v".

Definition INV : string := "_INV_".

(** The value of a leaf predicate: what is done to the output node. *)
Definition converted (attr : list byte) (t : option schema.Typ_) (tv : Z * list byte) (v : types.Value) (dst : N) : res N :=
  match t with
  | Some (schema.TObject _ _) => Err "Unknown Scalar:%v. Leaf predicate:'%v' must be one of the scalar types defined in the schema."
  | Some (schema.TScalar st) =>
      match types.Convert st v with
      | Crash m => Crash m
      | Err _ => Err INV
      | Ok sv => if bool_decide (tv.2 = []) then Err INV else AddValue attr sv dst
      end
  | None =>
      match schema.TypeOf sch attr with
      | Some (schema.TObject _ _) => Err "Leaf predicate:'%v' must be a scalar."
      | Some (schema.TScalar gt) =>
          match types.Convert gt v with
          | Crash m => Crash m
          | Err _ => Ok dst
          | Ok sv => if bool_decide (tv.2 = []) then Ok dst else AddValue attr sv dst
          end
      | None => AddValue attr v dst
      end
  end.

Definition leaf (attr : list byte) (t : option schema.Typ_) (uid : Z) (tv : Z * list byte) (dst : N) : res N :=
  v ← getValue tv;
  if bool_decide (attr = bs "_xid_") then txt ← types.MarshalText v; Ok (SetXID txt dst)
  else if bool_decide (attr = bs "_uid_") then Ok (SetUID uid dst)
  else converted attr t tv v dst.

(** The entities of a row, each traversed by [f] into a node of its own. An
    entity that turns out invalid is left out, also in later rows. *)
Definition row_nodes (attr : list byte) (show_uid : bool) (f : Z → N → res N) :
    list Z → gset Z → N → res (gset Z * N) :=
  fix go row invalid dst :=
    match row with
    | [] => Ok (invalid, dst)
    | uid :: row =>
        if bool_decide (uid ∈ invalid) then go row invalid dst
        else
          let uc := New attr in
          match f uid (if show_uid then SetUID uid uc else uc) with
          | Ok uc => if IsEmpty uc then go row invalid dst else dst ← AddChild attr uc dst; go row invalid dst
          | Err e => if bool_decide (e = INV) then go row ({[uid]} ∪ invalid) dst else Err e
          | Crash m => Crash m
          end
    end.

(** [IndexOf] on a list that may be nil. *)
Definition index_of (src : option (list Z)) (uid : Z) : res Z :=
  match src with Some l => Ok (algo.IndexOf l uid) | None => Crash "nil pointer dereference" end.

(** The predicates of an entity, one after the other. *)
Definition child_nodes (f : SubGraph → Z → N → res N) (p : params) (uid : Z) : list SubGraph → gset Z → N → res N :=
  fix go cs invalid dst :=
    match cs with
    | [] => Ok dst
    | pc :: cs =>
        i ← index_of (SrcUIDs pc) uid;
        if i <? 0 then go cs invalid dst
        else
          ul ← index (uidMatrix pc) (Z.to_nat i);
          if (0 <? length (counts pc))%nat then
            c ← index (counts pc) (Z.to_nat i);
            uc ← AddValue (bs "_count_") (types.VInt32 (i32 c)) (New (Attr pc));
            dst ← AddChild (Attr pc) uc dst;
            go cs invalid dst
          else if (0 <? length (ul : list Z))%nat || (0 <? length (Children pc))%nat then
            ' (invalid, dst) ← row_nodes (Attr pc) (GetUID p || isDebug p) (f pc) ul invalid dst;
            go cs invalid dst
          else
            tv ← index (values pc) (Z.to_nat i);
            dst ← leaf (Attr pc) (AttrType (Params pc)) uid tv dst;
            go cs invalid dst
    end.

Fixpoint preTraverse (sg : SubGraph) (uid : Z) (dst : N) : res N :=
  match sg with
  | mkSG _ p _ _ _ _ _ _ _ children _ => child_nodes preTraverse p uid children ∅ dst
  end.

(** The nodes of the root, until one fails. *)
Definition root_node (sg : SubGraph) (uid : Z) : res N :=
  let n1 := New (Alias (Params sg)) in
  preTraverse sg uid (if GetUID (Params sg) || isDebug (Params sg) then SetUID uid n1 else n1).
End traverse.

(** ** Protocol buffers *)
Section proto.
Context `{types.ValueLib}.

Inductive ProtoValue : Type :=
| Value_BytesVal (b : list byte)
| Value_IntVal (i : Z)
| Value_BoolVal (b : bool)
| Value_StrVal (s : list byte)
| Value_DoubleVal (bits : Z)
| Value_GeoVal (b : list byte).

Inductive Node : Type := mkNode {
  Uid : Z;
  Xid : list byte;
  Attribute : list byte;
  Properties : list (list byte * option ProtoValue);
  NChildren : list Node;
}.

Definition toProtoValue (v : types.Value) : res (option ProtoValue) :=
  match v with
  | types.VBytes b => Ok (Some (Value_BytesVal b))
  | types.VString s => Ok (Some (Value_StrVal s))
  | types.VInt32 i => Ok (Some (Value_IntVal i))
  | types.VFloat f => Ok (Some (Value_DoubleVal f))
  | types.VBool b => Ok (Some (Value_BoolVal b))
  | types.VGeo _ =>
      match types.MarshalBinary v with
      | Ok b => Ok (Some (Value_GeoVal b))
      | Err _ => Ok (Some (Value_GeoVal []))
      | Crash m => Crash m
      end
  | types.VTime _ | types.VDate _ => Ok None
  end.

Definition createProperty (prop : list byte) (v : types.Value) : res (list byte * option ProtoValue) :=
  pval ← toProtoValue v; Ok (prop, pval).

Definition proto_AddValue (attr : list byte) (v : types.Value) (p : Node) : res Node :=
  prop ← createProperty attr v;
  Ok (mkNode (Uid p) (Xid p) (Attribute p) (Properties p ++ [prop]) (NChildren p)).
Definition proto_AddChild (attr : list byte) (child p : Node) : res Node :=
  Ok (mkNode (Uid p) (Xid p) (Attribute p) (Properties p) (NChildren p ++ [child])).
Definition proto_New (attr : list byte) : Node := mkNode 0 [] attr [] [].
Definition proto_SetUID (uid : Z) (p : Node) : Node := mkNode uid (Xid p) (Attribute p) (Properties p) (NChildren p).
Definition proto_SetXID (xid : list byte) (p : Node) : Node := mkNode (Uid p) xid (Attribute p) (Properties p) (NChildren p).
Definition proto_IsEmpty (p : Node) : bool :=
  if 0 <? Uid p then false
  else if (0 <? length (NChildren p))%nat then false
  else if (0 <? length (Properties p))%nat then false
  else true.

#[export] Instance protoOutputNode : OutputNode Node := {|
  AddValue := proto_AddValue; AddChild := proto_AddChild; New := proto_New;
  SetUID := proto_SetUID; SetXID := proto_SetXID; IsEmpty := proto_IsEmpty;
|}.

Context (sch : schema.tables).

Fixpoint root_nodes (sg : SubGraph) (uids : list Z) (n : Node) : res (Node * option string) :=
  match uids with
  | [] => Ok (n, None)
  | uid :: uids =>
      match root_node sch sg uid with
      | Ok n1 => n ← proto_AddChild (Alias (Params sg)) n1 n; root_nodes sg uids n
      | Err e => Ok (n, Some e)
      | Crash m => Crash m
      end
  end.

(** The node comes with the error, if there is one. *)
Definition ToProtocolBuffer (sg : SubGraph) : res (Node * option string) :=
  match DestUIDs sg with
  | None => Ok (proto_New (Alias (Params sg)), None)
  | Some uids => root_nodes sg uids (proto_New (bs "_root_"))
  end.
End proto.

(** ** JSON *)
Section json.
Context `{types.ValueLib}.

(** What [interface{}] holds here. *)
Inductive jval : Type :=
| JValue (v : types.Value)
| JString (s : list byte)
| JList (l : list (gmap (list byte) jval))
| JStrings (m : gmap (list byte) (list byte)).
Notation object := (gmap (list byte) jval).

Definition json_AddValue (attr : list byte) (v : types.Value) (p : object) : res object := Ok (<[attr := JValue v]> p).
Definition json_AddChild (attr : list byte) (child p : object) : res object :=
  match default (JList []) (p !! attr) with
  | JList l => Ok (<[attr := JList (l ++ [child])]> p)
  | _ => Crash "interface conversion"
  end.
Definition json_New (attr : list byte) : object := ∅.
Definition json_SetUID (uid : Z) (p : object) : object := <[bs "_uid_" := JString (bs "0x" ++ posting_key.FormatUint16 uid)]> p.
Definition json_SetXID (xid : list byte) (p : object) : object := <[bs "_xid_" := JString xid]> p.
Definition json_IsEmpty (p : object) : bool := (size p =? 0)%nat.

#[export] Instance jsonOutputNode : OutputNode object := {|
  AddValue := json_AddValue; AddChild := json_AddChild; New := json_New;
  SetUID := json_SetUID; SetXID := json_SetXID; IsEmpty := json_IsEmpty;
|}.

Context (sch : schema.tables).

Fixpoint root_objects (sg : SubGraph) (uids : list Z) (n : object) : res object :=
  match uids with
  | [] => Ok n
  | uid :: uids =>
      n1 ← root_node sch sg uid;
      n ← json_AddChild (Alias (Params sg)) n1 n;
      root_objects sg uids n
  end.

(** Up to [json.Marshal]; [latency] is [l.ToMap()]. *)
Definition ToJSON (sg : SubGraph) (latency : gmap (list byte) (list byte)) : res object :=
  uids ← uids_of (DestUIDs sg);
  res ← root_objects sg uids (json_New (bs "_root_"));
  Ok (if isDebug (Params sg) then <[bs "server_latency" := JStrings latency]> res else res).
End json.

(** ** The tree over the graph *)
Section spec.
Context `{index.IndexLib} {N : Type} `{!OutputNode N} (sch : schema.tables) (g : mutation.graph).

(** What follows a step that can fail. *)
Definition and_then {A B : Type} (m : res A) (k : A → res B → Prop) (r : res B) : Prop :=
  match m with Ok a => k a r | Err e => r = Err e | Crash e => r = Crash e end.

(** [row_nodes] for a traversal [f] given by its outcomes. *)
Definition row_shown (attr : list byte) (show_uid : bool) (f : Z → N → res N → Prop) :
    list Z → gset Z → N → res (gset Z * N) → Prop :=
  fix go row invalid dst m :=
    match row with
    | [] => m = Ok (invalid, dst)
    | uid :: row =>
        if bool_decide (uid ∈ invalid) then go row invalid dst m
        else ∃ r, f uid (if show_uid then SetUID uid (New attr) else New attr) r ∧
          match r with
          | Ok uc => if IsEmpty uc then go row invalid dst m else and_then (AddChild attr uc dst) (go row invalid) m
          | Err e => if bool_decide (e = INV) then go row ({[uid]} ∪ invalid) dst m else m = Err e
          | Crash e => m = Crash e
          end
    end.

(** A level shows counts, except that a count with filters of no uids at all
    shows the value of the predicate instead. *)
Definition shows_count (pc : SubGraph) (src : option (Z → Prop)) : Prop :=
  PDoCount (Params pc) = true ∧ (Filters pc = [] ∨ ∃ x, sbase sch g pc src x).
Definition count_shown (pc : SubGraph) (src : option (Z → Prop)) (uid c : Z) : Prop :=
  match Filters pc with
  | [] => c = degree g (Attr pc) uid
  | _ => count_answer g (Params pc) (Attr pc) (filtered sch g pc src) uid c
  end.

(** The predicates of an entity that has passed the filters and is on the page
    of its level; of other entities nothing is shown. *)
Definition child_shown (f : SubGraph → Z → N → res N → Prop) (p : params) (d : list Z) (uid : Z) :
    list SubGraph → gset Z → N → res N → Prop :=
  fix go cs invalid dst r :=
    match cs with
    | [] => r = Ok dst
    | pc :: cs =>
        let src := set_of (Some d) in
        uid ∉ d ∧ go cs invalid dst r ∨
        uid ∈ d ∧ shows_count pc src ∧
          (∃ c, count_shown pc src uid c ∧
             and_then (uc ← AddValue (bs "_count_") (types.VInt32 (i32 c)) (New (Attr pc)); AddChild (Attr pc) uc dst) (go cs invalid) r) ∨
        uid ∈ d ∧ ¬ shows_count pc src ∧
          (∃ row, row_answer g (Params pc) (Attr pc) (filtered sch g pc src) uid row ∧
             if bool_decide (row = []) && bool_decide (Children pc = [])
             then and_then (leaf sch (Attr pc) (AttrType (Params pc)) uid (value_of g (Attr pc) uid) dst) (go cs invalid) r
             else ∃ m, row_shown (Attr pc) (GetUID p || isDebug p) (f pc) row invalid dst m ∧
               and_then m (λ im, go cs im.1 im.2) r)
    end.

Fixpoint shows (sg : SubGraph) (us : option (list Z)) (uid : Z) (dst : N) (r : res N) : Prop :=
  match sg with
  | mkSG _ p _ _ _ _ _ _ _ children _ =>
      ∃ d, uids d ∧ (∀ x, x ∈ d ↔ dest sch g sg (set_of us) x) ∧
        child_shown (λ pc, shows pc (Some d)) p d uid children ∅ dst r
  end.

Lemma and_then_bind {A B : Type} (m : res A) (k : A → res B → Prop) (h : A → res B) : (∀ a, k a (h a)) → and_then m k (m ≫= h).
Proof. intros Hk. by destruct m; simpl. Qed.

Lemma row_nodes_shown attr show_uid (f : Z → N → res N → Prop) (F : Z → N → res N) row invalid dst :
  (∀ x dst, x ∈ row → f x dst (F x dst)) →
  row_shown attr show_uid f row invalid dst (row_nodes attr show_uid F row invalid dst).
Proof using.
  revert invalid dst. induction row as [|x row IH]; intros invalid dst Hf; [done|]. cbn [row_shown row_nodes].
  assert (∀ invalid dst, row_shown attr show_uid f row invalid dst (row_nodes attr show_uid F row invalid dst)) as IH'
    by (intros; apply IH; intros; apply Hf; by apply list_elem_of_further).
  destruct (bool_decide (x ∈ invalid)); [done|]. set (uc := if show_uid then _ else _).
  exists (F x uc). split; [apply Hf, list_elem_of_here|]. destruct (F x uc) as [uc'|e|e]; [|by destruct (bool_decide (e = INV))|done].
  destruct (IsEmpty uc'); [done|]. by apply and_then_bind.
Qed.

(** The rows of a level without a function lie in its base. *)
Lemma row_in_base pc us uid row x :
  Attr pc ≠ [] → SgFunc pc = [] → uid ∈ us →
  row_answer g (Params pc) (Attr pc) (filtered sch g pc (set_of (Some us))) uid row → x ∈ row → sbase sch g pc (set_of (Some us)) x.
Proof using.
  intros Ha Hf Hu Hr Hx. assert (reach g (AfterUID (Params pc)) (Attr pc) uid x) as Hre.
  { unfold row_answer in Hr. destruct (paged (Params pc)).
    - destruct Hr as (l & [_ Hl] & ->). eapply elem_of_sublist in Hx; [|apply page_sublist]. by apply Hl.
    - subst row. by apply keys_after_spec in Hx. }
  unfold sbase, base. destruct (Attr pc); [done|]. rewrite Hf. by eexists _, uid.
Qed.

Lemma base_some_or_none pc us :
  Attr pc ≠ [] → SgFunc pc = [] →
  (∃ x, sbase sch g pc (set_of (Some us)) x) ∨ (∀ x, ¬ sbase sch g pc (set_of (Some us)) x).
Proof using.
  intros Ha Hf. set (l := mjoin ((λ u, keys_after (AfterUID (Params pc)) (g u (Attr pc))) <$> us)).
  assert (∀ x, sbase sch g pc (set_of (Some us)) x ↔ x ∈ l) as Hl.
  { intros x. unfold l, sbase, base. destruct (Attr pc) as [|b a]; [done|]. rewrite Hf, list_elem_of_join. split.
    - intros (s & u & [= <-] & Hu & Hx). eexists. split; [by apply keys_after_spec|]. apply list_elem_of_fmap. by exists u.
    - intros (k & Hx & (u & -> & Hu)%list_elem_of_fmap). eexists _, u. split; [reflexivity|]. split; [done|]. by apply keys_after_spec. }
  destruct l as [|x l']; [right; intros x Hx%Hl; by apply elem_of_nil in Hx|left; exists x; apply Hl, list_elem_of_here].
Qed.

(** What a processed child holds for a source. *)
Lemma child_data pc d pc' i uid :
  answers sch g pc (Some d) pc' → Attr pc ≠ [] → SgFunc pc = [] → d !! i = Some uid →
  ∃ row, uidMatrix pc' !! i = Some row ∧
    (shows_count pc (set_of (Some d)) ∧ counts pc' ≠ [] ∧ (∃ c, counts pc' !! i = Some c ∧ count_shown pc (set_of (Some d)) uid c) ∨
     ¬ shows_count pc (set_of (Some d)) ∧ counts pc' = [] ∧
       row_answer g (Params pc) (Attr pc) (filtered sch g pc (set_of (Some d))) uid row ∧
       values pc' !! i = Some (value_of g (Attr pc) uid)).
Proof using.
  intros [_ Hans]%answers_iff Ha Hf Hi.
  assert (∀ {A} (l : list A), length l = length d → ∃ a, l !! i = Some a) as Hlook.
  { intros A l Hl. apply lookup_lt_is_Some_2. rewrite Hl. by eapply lookup_lt_Some. }
  assert (∀ {A} (R : Z → A → Prop) (l : list A), Forall2 R d l → l ≠ [] ∧ ∃ a, l !! i = Some a ∧ R uid a) as Hall.
  { intros A R l HR. destruct (Forall2_lookup_l _ _ _ _ _ HR Hi) as (a & Hla & Hra). split; [by intros ->|by exists a]. }
  unfold shows_count, count_shown. destruct (PDoCount (Params pc)) eqn:Hdc.
  - specialize (Hans d eq_refl). destruct (Filters pc) as [|h fs].
    + destruct Hans as [Hc Hm]. destruct (Hlook _ (uidMatrix pc') Hm) as [row Hrow]. exists row. split; [done|]. left. split; [by split; [|left]|].
      destruct (Hall _ (λ u c, c = degree g (Attr pc) u) (counts pc')) as (Hn & c & Hic & ->); [|split; [done|by eexists]].
      rewrite Hc. by apply Forall2_fmap_r, Forall_Forall2_diag, Forall_true.
    + destruct Hans as [Hsome Hnone]. destruct (base_some_or_none pc d Ha Hf) as [Hex|Hno].
      * destruct (Hsome Hex) as [Hc Hm]. destruct (Hlook _ (uidMatrix pc') Hm) as [row Hrow]. exists row. split; [done|]. left.
        split; [by split; [|right]|]. destruct (Hall _ _ _ Hc) as (Hn & c & Hic & Hcc). split; [done|by exists c].
      * destruct (Hnone Hno) as (Hm & Hvs & Hc). eexists. rewrite Hm, Hvs, !list_lookup_fmap, Hi. split; [reflexivity|]. right.
        split; [intros [_ [?|[x Hx]]]; [done|by destruct (Hno x)]|]. split; [done|]. split; [|done].
        assert (keys_after (AfterUID (Params pc)) (g uid (Attr pc)) = []) as Hk.
        { apply elem_of_nil_inv. intros x Hx. apply (Hno x). apply keys_after_spec in Hx. unfold sbase, base.
          destruct (Attr pc); [done|]. rewrite Hf. eexists _, uid. split; [reflexivity|]. split; [by eapply list_elem_of_lookup_2|done]. }
        unfold row_answer. destruct (paged (Params pc)); [|done]. exists []. split; [|by rewrite Hk, page_nil].
        split; [constructor|]. intros x. split; [by intros ?%elem_of_nil|]. intros [_ [Hx _]]. by destruct (Hno x).
  - destruct Hans as (d' & _ & _ & _ & Hrows & _). destruct (Hrows Ha Hf d eq_refl) as (Hr & Hvs & Hc).
    destruct (Hall _ _ _ Hr) as (_ & row & Hrow & Hra). exists row. split; [done|]. right. split; [by intros []|]. split; [done|].
    split; [done|]. by rewrite Hvs, list_lookup_fmap, Hi.
Qed.

Lemma child_nodes_shown (f : SubGraph → Z → N → res N → Prop) (F : SubGraph → Z → N → res N) p d uid cs cs' invalid dst :
  uids d → Forall2 (λ pc pc', answers sch g pc (Some d) pc') cs cs' → Forall (λ pc, Attr pc ≠ [] ∧ SgFunc pc = []) cs →
  Forall2 (λ pc pc', ∀ x dst, (∃ y, sbase sch g pc (set_of (Some d)) y) → ¬ shows_count pc (set_of (Some d)) → f pc x dst (F pc' x dst)) cs cs' →
  child_shown f p d uid cs invalid dst (child_nodes sch F p uid cs' invalid dst).
Proof using.
  intros [Hsd _] Hans Hshape. revert invalid dst. induction Hans as [|pc pc' cs cs' Ha Hans IH]; intros invalid dst; [done|].
  intros [Hf Hfs]%Forall2_cons. apply Forall_cons in Hshape as [[Hattr Hfunc] Hshape]. specialize (IH Hshape).
  cbn [child_shown child_nodes]. pose proof (proj1 (proj1 (answers_iff _ _ _ _ _) Ha)) as (Hat & Hpar & Hsrc & Hch).
  rewrite Hsrc. cbn [index_of mbind res_bind]. destruct (algo.IndexOf_spec d uid Hsd) as (Hi1 & Hi2 & Hi3).
  destruct (decide (uid ∈ d)) as [Hu|Hu]; [right|left; rewrite (Hi3 Hu); split; [done|]; by apply IH].
  specialize (Hi2 Hu). rewrite (proj2 (Z.ltb_ge _ _)) by lia. specialize (Hi1 ltac:(lia)). set (i := Z.to_nat (algo.IndexOf d uid)) in *.
  destruct (child_data pc d pc' i uid) as (row & Hrow & Hcase); [done..|]. unfold index. rewrite Hrow. cbn [mbind res_bind].
  destruct Hcase as [(Hsc & Hcn & c & Hc & Hcs)|(Hsc & Hcn & Hra & Hv)]; [left|right]; (split; [done|]); (split; [done|]).
  - rewrite (proj2 (Nat.ltb_lt _ _)) by (destruct (counts pc'); [done|simpl; lia]). rewrite Hc. cbn [mbind res_bind].
    exists c. split; [done|]. rewrite Hat. destruct (AddValue _ _ _) as [uc| |]; [|done..]. cbn [mbind res_bind].
    apply and_then_bind. intros dst'. by apply IH.
  - exists row. split; [done|]. assert ((0 <? length (counts pc'))%nat = false) as -> by by rewrite Hcn.
    rewrite Hat, Hpar, Hv. cbn [mbind res_bind].
    rewrite (bool_decide_ext (Children pc = []) (Children pc' = [])) by by rewrite Hch.
    assert ((0 <? length row)%nat || (0 <? length (Children pc'))%nat = negb (bool_decide (row = []) && bool_decide (Children pc' = []))) as ->.
    { by destruct row, (Children pc'). }
    destruct (bool_decide (row = []) && bool_decide (Children pc' = [])); cbn [negb].
    + apply and_then_bind. intros dst'. by apply IH.
    + eexists. split; [|apply and_then_bind; intros [inv' dst']; by apply IH].
      apply row_nodes_shown. intros x dst' Hx. apply Hf; [|done]. exists x. by eapply row_in_base.
Qed.

Lemma preTraverse_eq (sg' : SubGraph) uid (dst : N) :
  preTraverse sch sg' uid dst = child_nodes sch (preTraverse sch) (Params sg') uid (Children sg') ∅ dst.
Proof using. by destruct sg'. Qed.

Lemma preTraverse_spec sg : ∀ us sg' uid (dst : N),
  answers sch g sg us sg' → good sch g sg (set_of us) → PDoCount (Params sg) = false → (∃ x, sbase sch g sg (set_of us) x) →
  shows sg us uid dst (preTraverse sch sg' uid dst).
Proof using.
  induction sg as [attr p c vs m src0 f op filters children d0 _ IHc] using SubGraph_ind'. intros us sg' uid dst Ha Hg Hdc Hex.
  set (sg := mkSG attr p c vs m src0 f op filters children d0) in *. rewrite preTraverse_eq.
  pose proof (proj1 (answers_iff _ _ _ _ _) Ha) as [(_ & -> & _ & _) Hans]. rewrite Hdc in Hans.
  destruct Hans as (d & _ & Hud & Hd & _ & Hch). specialize (Hch Hex). cbn [shows sg]. fold sg. exists d. split; [done|]. split; [done|].
  apply good_iff in Hg as (_ & _ & Hgc). cbn [Params sg Children] in *.
  apply child_nodes_shown; [done|done| |].
  - eapply Forall_impl; [exact Hgc|]. by intros h [? _].
  - apply Forall2_same_length_lookup. split; [by eapply Forall2_length|]. intros i h h' Hh Hh' x dst' Hexh Hns.
    pose proof (proj1 (Forall_lookup _ _) IHc i h Hh) as IH. pose proof (proj1 (Forall_lookup _ _) Hgc i h Hh) as [[Hna Hnf] Hgh].
    pose proof (Forall2_lookup_lr _ _ _ _ _ _ Hch Hh Hh') as Hah. simpl in IH, Hah, Hgh.
    apply IH; [done| | |done].
    + eapply good_ext; [|exact Hgh]. apply src_eq_Some. intros y. by rewrite Hd.
    + destruct (PDoCount (Params h)) eqn:Hp; [|done]. destruct Hns. split; [done|by right].
Qed.

(** Of an entity that is not in the result of its level nothing is shown; its
    node is left out, unless the uid has been put into it. *)
Lemma filtered_shows_nothing sg us uid (dst : N) r :
  ¬ dest sch g sg (set_of us) uid → shows sg us uid dst r → r = Ok dst.
Proof using.
  destruct sg as [attr p c vs m src0 f op filters children d0]. intros Hno (d & _ & Hd & Hch). revert Hch.
  generalize (∅ : gset Z). induction children as [|pc cs IH]; intros inv; [done|]. cbn [child_shown].
  intros [[_ Hs]|[[Hu _]|[Hu _]]]; [by eapply IH|by apply Hd in Hu..].
Qed.
End spec.

(** ** The claim *)
Section claim.
Context {St : Type} `{KVStore St} `{index.IndexLib} `{index.Farm} `{GoSort}.
Context (sch : schema.tables) (conf : group.config) (Hconf : u32 (group.n conf) ≠ 0) (g : mutation.graph).
Implicit Types (cl : cluster (St := St)).

(** The node of an entity of the root, and the nodes put together. *)
Definition root_shown {N : Type} `{!OutputNode N} (sg : SubGraph) (us : option (list Z)) (uid : Z) (r : res N) : Prop :=
  let n1 := New (Alias (Params sg)) in
  shows sch g sg us uid (if GetUID (Params sg) || isDebug (Params sg) then SetUID uid n1 else n1) r.

Fixpoint collect_nodes (rs : list (res Node)) (n : Node) : res (Node * option string) :=
  match rs with
  | [] => Ok (n, None)
  | Ok n1 :: rs => collect_nodes rs (mkNode (Uid n) (Xid n) (Attribute n) (Properties n) (NChildren n ++ [n1]))
  | Err e :: _ => Ok (n, Some e)
  | Crash m :: _ => Crash m
  end.
Fixpoint collect_objects (rs : list (res (gmap (list byte) jval))) (l : list (gmap (list byte) jval)) : res (list (gmap (list byte) jval)) :=
  match rs with
  | [] => Ok l
  | r :: rs => n ← r; collect_objects rs (l ++ [n])
  end.

Lemma root_nodes_collect sg uids n : root_nodes sch sg uids n = collect_nodes (root_node sch sg <$> uids) n.
Proof using.
  revert n. induction uids as [|u uids IH]; intros n; [done|]. cbn [root_nodes collect_nodes fmap list_fmap].
  destruct (root_node sch sg u); [|done..]. cbn [mbind res_bind proto_AddChild]. apply IH.
Qed.

Lemma root_objects_collect sg uids l :
  uids ≠ [] ∨ l ≠ [] →
  root_objects sch sg uids (if bool_decide (l = []) then ∅ else {[Alias (Params sg) := JList l]}) =
    (l' ← collect_objects (root_node sch sg <$> uids) l; Ok {[Alias (Params sg) := JList l']}).
Proof using.
  revert l. induction uids as [|u uids IH]; intros l Hl.
  - destruct Hl as [?|Hl]; [done|]. cbn. by rewrite bool_decide_false.
  - cbn [root_objects collect_objects fmap list_fmap]. destruct (root_node sch sg u) as [n| |]; [|done..]. cbn [mbind res_bind].
    assert (json_AddChild (Alias (Params sg)) n (if bool_decide (l = []) then ∅ else {[Alias (Params sg) := JList l]})
      = Ok (if bool_decide (l ++ [n] = []) then ∅ else {[Alias (Params sg) := JList (l ++ [n])]})) as ->.
    { rewrite (bool_decide_false (l ++ [n] = [])) by (by destruct l). unfold json_AddChild. case_bool_decide as Hn.
      - by rewrite Hn, lookup_empty.
      - by rewrite lookup_singleton_eq; cbn; rewrite insert_singleton_eq. }
    cbn [mbind res_bind]. apply IH. right. by destruct l.
Qed.

Lemma query_output_spec sg src cl latency :
  holds sch conf g cl → uid_list src → good sch g sg (set_of src) →
  (SgFunc sg ≠ [] → src ≠ Some []) → Attr sg = [] ∨ SgFunc sg ≠ [] →
  ∃ sg' cl' d ns os,
    ProcessGraph sch conf (λ _, None) sg src true cl = Ok (sg', cl') ∧ holds sch conf g cl' ∧
    uids d ∧ (∀ x, x ∈ d ↔ dest sch g sg (set_of src) x) ∧
    Forall2 (root_shown sg src) d ns ∧ ToProtocolBuffer sch sg' = collect_nodes ns (proto_New (bs "_root_")) ∧
    Forall2 (root_shown sg src) d os ∧
    ToJSON sch sg' latency =
      (l ← collect_objects os [];
       let o := if bool_decide (d = []) then ∅ else {[Alias (Params sg) := JList l]} in
       Ok (if isDebug (Params sg) then <[bs "server_latency" := JStrings latency]> o else o)).
Proof.
  intros Hcl Hul Hg Hne Hroot. destruct (holds_describes sch conf g cl Hcl) as (v & Hv & Hds).
  destruct (ProcessGraph_spec sch conf Hconf g v Hds sg src true cl) as (sg' & cl' & Heq & Hk & Ha); [done..|].
  pose proof (proj1 (good_iff _ _ _ _) Hg) as (Hl & _).
  assert (PDoCount (Params sg) = false) as Hdc.
  { destruct (PDoCount (Params sg)) eqn:Hdc; [|done]. destruct (lv_reach _ _ _ _ _ _ _ Hl (or_intror Hdc)). by destruct Hroot. }
  pose proof (proj1 (answers_iff _ _ _ _ _) Ha) as [(_ & Hp & _ & _) Hans]. rewrite Hdc in Hans. destruct Hans as (d & Hd & Hud & Hx & _).
  assert (∀ {N : Type} {on : OutputNode N}, Forall2 (root_shown sg src) d (root_node sch sg' <$> d)) as Hshow.
  { intros N on. apply Forall2_fmap_r, Forall_Forall2_diag, Forall_forall. intros u Hu. unfold root_shown, root_node. rewrite Hp.
    apply preTraverse_spec; [done..|]. exists u. apply dest_sbase. by apply Hx. }
  exists sg', cl', d, (root_node sch sg' <$> d), (root_node sch sg' <$> d). split_and!; [done|by eapply holds_kept|done|done|apply Hshow| |apply Hshow|].
  - unfold ToProtocolBuffer. rewrite Hd. apply root_nodes_collect.
  - unfold ToJSON. rewrite Hd. cbn [uids_of mbind res_bind]. rewrite Hp. destruct d as [|u d]; [done|].
    assert (u :: d ≠ [] ∨ ([] : list (gmap (list byte) jval)) ≠ []) as Hnn by by left.
    pose proof (root_objects_collect sg' (u :: d) [] Hnn) as Hc. rewrite Hp in Hc. rewrite bool_decide_true in Hc by done. unfold json_New. rewrite Hc. rewrite bool_decide_false by done.
    by destruct (collect_objects _ _).
Qed.

End claim.

(** ** An instance *)
#[local] Existing Instances geo.ex_values geo.ex_s2 index.ex_index index.ex_farm sort.ex_sort.


End output.
