(* ===== verification/Predicate.v ===== *)
(** Copying a shard to a new replica ([worker/predicate.go]): the replica sends
    its keys with their checksums ([generateGroup]), the peer streams the pairs
    that differ ([PredicateData]), and the replica writes them in batches
    ([writeBatch], [populateShard]).

    The stream is the list of pairs received and how it ended; the channel
    between the receiver and the writer passes that list on. *)
From S2P Require Import Prelude Bytes Store Proto PostingPb Tokens.
From stdpp Require Import options.
#[local] Open Scope Z_scope.
#[local] Set Default Proof Using "Type*".

Module predicate.

Record KC : Type := mkKC { KCKey : list byte; KCChecksum : list byte }.
Record KV : Type := mkKV { Key : list byte; Val : list byte }.
Record GroupKeys : Type := mkGroupKeys { GroupId : Z; Keys : list KC }.

Definition MB : Z := Z.shiftl 1 20.

Section ops.
Context {St : Type} `{KVStore St}.

(** The checksum of a stored posting list; data that is none ends the process. *)
Definition checksum (v : list byte) : res (list byte) :=
  pl ← x_Check (postinglist_pb.Unmarshal v emptyPostingList);
  Ok (Checksum pl).

Fixpoint group_keys (kvs : list (list byte * list byte)) (keys : list KC) : res (list KC) :=
  match kvs with
  | [] => Ok keys
  | (k, v) :: kvs => c ← checksum v; group_keys kvs (keys ++ [mkKC k c])
  end.

Definition generateGroup (group : Z) (s : St) : res GroupKeys :=
  keys ← group_keys (kv_scan s []) [];
  Ok (mkGroupKeys group keys).

(** Whether the caller has the pair already. *)
Definition has_pair (keys : list KC) (k c : list byte) : bool :=
  let i := psearch (λ t, bool_decide (bytes_le k (KCKey t))) keys in
  match keys !! i with
  | Some t => bool_decide (c = KCChecksum t) && bool_decide (k = KCKey t)
  | None => false
  end.

(** The pairs sent, and the error of the [Send] that failed; [fail] says which
    one does. *)
Fixpoint stream_pairs (keys : list KC) (fail : nat → option string) (kvs : list (list byte * list byte)) (sent : list KV) :
    res (list KV * option string) :=
  match kvs with
  | [] => Ok (sent, None)
  | (k, v) :: kvs =>
      c ← checksum v;
      if has_pair keys k c then stream_pairs keys fail kvs sent
      else
        match fail (length sent) with
        | Some err => Ok (sent, Some err)
        | None => stream_pairs keys fail kvs (sent ++ [mkKV k v])
        end
  end.

Definition PredicateData (group : GroupKeys) (fail : nat → option string) (s : St) : res (list KV * option string) :=
  stream_pairs (Keys group) fail (kv_scan s []) [].

Fixpoint batch_loop (kvs : list KV) (wb : list batch_op) (batchSize : Z) (s : St) : St * option string :=
  match kvs with
  | [] =>
      if 0 <? batchSize then
        match kv_write s wb with Ok s => (s, None) | Err e | Crash e => (s, Some e) end
      else (s, None)
  | i :: kvs =>
      let wb := wb ++ [BPut (Key i) (Val i)] in
      let batchSize := batchSize + Z.of_nat (length (Key i)) + Z.of_nat (length (Val i)) in
      if 32 * MB <=? batchSize then
        match kv_write s wb with Ok s => batch_loop kvs [] 0 s | Err e | Crash e => (s, Some e) end
      else batch_loop kvs wb batchSize s
  end.

Definition writeBatch (kvs : list KV) (s : St) : St * option string := batch_loop kvs [] 0 s.

(** The number of pairs received. An error of the stream wins over one of the
    writer, which writes what it was sent in either case. *)
Definition populateShard (group : Z) (call : GroupKeys → list KV * option string) (s : St) : res (St * res Z) :=
  gkeys ← generateGroup group s;
  let '(kvs, streamErr) := call gkeys in
  let '(s, writeErr) := writeBatch kvs s in
  match streamErr, writeErr with
  | Some e, _ => Ok (s, Err e)
  | None, Some e => Ok (s, Err e)
  | None, None => Ok (s, Ok (Z.of_nat (length kvs)))
  end.
End ops.

(** ** What is copied *)
Section spec.
Context {St : Type} `{KVStore St} (view : St → gmap (list byte) (list byte)) `{!KVSpec St view}.

Definition csum (v : list byte) : list byte := match checksum v with Ok c => c | _ => [] end.

(** Every value is a posting list, under a key that is not empty. *)
Definition clean (s : St) : Prop := ∀ k v, view s !! k = Some v → k ≠ [] ∧ checksum v = Ok (csum v).

Lemma scan_all s kv : kv ∈ kv_scan s [] ↔ view s !! kv.1 = Some kv.2.
Proof. rewrite kv_scan_view. split; [by intros []|]. intros Hv. split; [done|]. apply (bytes_le_prefix [] kv.1). Qed.

Lemma group_keys_spec kvs keys :
  Forall (λ kv, checksum kv.2 = Ok (csum kv.2)) kvs →
  group_keys kvs keys = Ok (keys ++ ((λ kv, mkKC kv.1 (csum kv.2)) <$> kvs)).
Proof using.
  intros Hk. revert keys. induction Hk as [|[k v] kvs Hc _ IH]; intros keys; [by rewrite app_nil_r|].
  cbn [group_keys]. simpl in Hc. rewrite Hc. cbn [mbind res_bind]. by rewrite IH, <-app_assoc.
Qed.

Lemma has_pair_spec keys k c :
  StronglySorted bytes_lt (KCKey <$> keys) → has_pair keys k c = true ↔ mkKC k c ∈ keys.
Proof using.
  intros Hs. unfold has_pair.
  destruct (psearch_spec (λ t, bool_decide (bytes_le k (KCKey t))) keys) as (Hle & Hlo & Hhi).
  { intros i j a b Hij Ha Hb. rewrite !bool_decide_eq_true. intros Hk. apply bytes_le_lteq. left.
    apply (tokens.bytes_le_lt_trans k (KCKey a)); [done|].
    apply (tokens.sorted_lookup_lt (KCKey <$> keys) i j); [done|by rewrite list_lookup_fmap, Ha|by rewrite list_lookup_fmap, Hb|done]. }
  set (i := psearch _ keys) in *. split.
  - destruct (keys !! i) as [[k' c']|] eqn:Hi; [|done]. intros [->%bool_decide_eq_true ->%bool_decide_eq_true]%andb_prop.
    by eapply list_elem_of_lookup_2.
  - intros (j & Hj)%list_elem_of_lookup_1.
    assert (j = i) as ->.
    { destruct (lt_eq_lt_dec j i) as [[Hji|?]|Hji]; [|done|].
      - rewrite Forall_lookup in Hlo. specialize (Hlo j (mkKC k c)). rewrite lookup_take_lt in Hlo by done.
        specialize (Hlo Hj). apply bool_decide_eq_false in Hlo. destruct Hlo. apply bytes_le_lteq. by right.
      - destruct (lookup_lt_is_Some_2 keys i) as [t Ht]; [apply lookup_lt_Some in Hj; lia|].
        assert (bytes_le k (KCKey t)) as Hk.
        { rewrite Forall_lookup in Hhi. specialize (Hhi 0%nat t). rewrite lookup_drop, Nat.add_0_r in Hhi. exact (proj1 (bool_decide_eq_true _) (Hhi Ht)). }
        assert (bytes_lt (KCKey t) k) as Hlt.
        { apply (tokens.sorted_lookup_lt (KCKey <$> keys) i j); [done|by rewrite list_lookup_fmap, Ht|by rewrite list_lookup_fmap, Hj|done]. }
        by apply tokens.bytes_not_le in Hlt. }
    rewrite Hj. simpl. by rewrite !bool_decide_true.
Qed.

Lemma stream_pairs_spec keys kvs sent :
  Forall (λ kv, checksum kv.2 = Ok (csum kv.2)) kvs →
  stream_pairs keys (λ _, None) kvs sent =
    Ok (sent ++ ((λ kv, mkKV kv.1 kv.2) <$> filter (λ kv, has_pair keys kv.1 (csum kv.2) = false) kvs), None).
Proof using.
  intros Hk. revert sent. induction Hk as [|[k v] kvs Hc _ IH]; intros sent; [by rewrite app_nil_r|].
  cbn [stream_pairs]. simpl in Hc. rewrite Hc. cbn [mbind res_bind]. rewrite filter_cons. simpl.
  destruct (has_pair keys k (csum v)); [rewrite decide_False by done; apply IH|]. rewrite decide_True by done.
  by rewrite IH, fmap_cons, <-app_assoc.
Qed.

Definition puts (kvs : list KV) : list batch_op := (λ i, BPut (Key i) (Val i)) <$> kvs.

Lemma batch_loop_spec kvs wb sz s :
  Forall (λ i, Key i ≠ []) kvs → 0 ≤ sz → (wb ≠ [] → 0 < sz) →
  ∃ s', batch_loop kvs wb sz s = (s', None) ∧ view s' = batch_view (wb ++ puts kvs) (view s).
Proof.
  intros Hk. revert wb sz s. induction Hk as [|i kvs Hi _ IH]; intros wb sz s Hsz Hwb; cbn [batch_loop].
  { rewrite app_nil_r. destruct (Z.ltb_spec 0 sz).
    - destruct (kv_write_view s wb) as (s' & -> & Hv). by exists s'.
    - exists s. split; [done|]. destruct wb; [done|]. specialize (Hwb ltac:(done)). lia. }
  assert (0 < Z.of_nat (length (Key i))) as Hlen by (destruct (Key i); [done|simpl; lia]).
  destruct (32 * MB <=? _).
  - destruct (kv_write_view s (wb ++ [BPut (Key i) (Val i)])) as (s1 & -> & Hv1).
    destruct (IH [] 0 s1) as (s' & -> & Hv); [lia|done|]. exists s'. split; [done|].
    rewrite Hv, Hv1. unfold batch_view. by rewrite <-fold_left_app, <-app_assoc.
  - destruct (IH (wb ++ [BPut (Key i) (Val i)]) (sz + Z.of_nat (length (Key i)) + Z.of_nat (length (Val i))) s) as (s' & -> & Hv); [lia|lia|].
    exists s'. split; [done|]. by rewrite Hv, <-app_assoc.
Qed.

Lemma batch_view_puts kvs m k :
  NoDup (Key <$> kvs) →
  batch_view (puts kvs) m !! k = match list_find (λ i, Key i = k) kvs with Some (_, i) => Some (Val i) | None => m !! k end.
Proof using.
  revert m. induction kvs as [|i kvs IH]; intros m; [done|]. intros [Hni Hnd]%NoDup_cons.
  change (batch_view (puts (i :: kvs)) m) with (batch_view (puts kvs) (<[Key i := Val i]> m)). rewrite IH by done. cbn [list_find].
  case_decide as Hk.
  - subst k. destruct (list_find _ kvs) as [[n j]|] eqn:Hf; [|by rewrite lookup_insert_eq].
    apply list_find_Some in Hf as (Hj & Hkj & _). destruct Hni. rewrite <-Hkj. apply list_elem_of_fmap_2. by eapply list_elem_of_lookup_2.
  - destruct (list_find _ kvs) as [[n j]|]; [done|]. simpl. by rewrite lookup_insert_ne.
Qed.

(** What the caller keeps: its own pair when the checksums agree. *)
Definition same_sum (leader s : St) (k : list byte) : bool :=
  match view leader !! k, view s !! k with
  | Some v, Some v' => bool_decide (csum v = csum v')
  | _, _ => false
  end.

Lemma clean_scan s : clean s → Forall (λ kv, checksum kv.2 = Ok (csum kv.2)) (kv_scan s []).
Proof. intros Hc. apply Forall_forall. intros kv Hkv%scan_all. by apply (Hc kv.1). Qed.

End spec.

(** ** An instance *)
(** Two pairs, one of which the replica has; the other it has with another
    checksum. *)
Definition ex_pair (c : byte) : list byte := [x12; x01; c].
Definition ex_leader : memstore := {[bs "a" := ex_pair x61; bs "b" := ex_pair x62]}.
Definition ex_replica : memstore := {[bs "a" := ex_pair x61; bs "b" := ex_pair x63; bs "c" := ex_pair x64]}.
Definition ex_call (gkeys : GroupKeys) : list KV * option string :=
  match PredicateData gkeys (λ _, None) ex_leader with Ok r => r | _ => ([], None) end.

Lemma ex_clean (m : memstore) :
  forallb (λ kv, negb (bool_decide (kv.1 = [])) && match checksum kv.2 with Ok _ => true | _ => false end) (map_to_list m) = true → clean (λ s, s) m.
Proof.
  intros Hall k v Hv. rewrite forallb_forall in Hall. apply elem_of_map_to_list, list_elem_of_In, Hall in Hv.
  apply andb_prop in Hv as [Hk%negb_true_iff%bool_decide_eq_false Hc]. split; [done|]. unfold csum. simpl in Hc. by destruct (checksum v).
Qed.

End predicate.
