(* ===== verification/Groups.v ===== *)
(** Cluster membership ([worker/groups.go]): which servers serve which group, as
    group zero records it ([applyMembershipUpdate]) and as the other servers learn
    it ([MembershipUpdateAfter], [UpdateMembership], [syncMemberships]).

    Connections and the RAFT log are not modelled: proposals to group zero and
    the remote call are arguments. A map that is nil is an empty one. *)
From S2P Require Import Prelude Bytes.
From stdpp Require Import options.
#[local] Open Scope Z_scope.
#[local] Set Default Proof Using "Type*".

Module groups.

Record server : Type := mkServer {
  NodeId : Z;
  Addr : list byte;
  Leader : bool;
  RaftIdx : Z;
}.

Record Membership : Type := mkMembership { MId : Z; MGroup : Z; MAddr : list byte; MLeader : bool }.
Record MembershipUpdate : Type := mkUpdate {
  Members : list Membership;
  LastUpdate_ : Z;
  Redirect : bool;
  RedirectAddr : list byte;
}.

(** A node of this server in a group: its raft context, and whether it leads. *)
Record node : Type := mkNode { NId : Z; NGroup : Z; NAddr : list byte; AmLeader : bool }.

Notation servers := (list server).
Record groupi : Type := mkGroupi {
  local : gmap Z node;
  all : gmap Z servers;
  lastUpdate : Z;
}.

Definition set_all (v : gmap Z servers) (g : groupi) : groupi := mkGroupi (local g) v (lastUpdate g).

Definition Node (g : groupi) (groupId : Z) : option node := local g !! groupId.
Definition ServesGroup (g : groupi) (groupId : Z) : bool := bool_decide (is_Some (local g !! groupId)).

Definition newNode (g : groupi) (groupId : Z) (n : node) : res groupi :=
  assert_true (negb (ServesGroup g groupId)) "Didn't expect a node in RAFT group mapping: %v";;
  Ok (mkGroupi (<[groupId := n]> (local g)) (all g) (lastUpdate g)).

Definition Server (g : groupi) (id groupId : Z) : option server :=
  match all g !! groupId with
  | Some sl => snd <$> list_find (λ s, NodeId s = id) sl
  | None => None
  end.

(** [pick] is [rand.Intn(sz)], which panics when there is nothing to choose. *)
Definition AnyServer (g : groupi) (group : Z) (pick : nat) : res (list byte) :=
  match all g !! group with
  | None => Ok []
  | Some sl => if (length sl =? 0)%nat then Crash "invalid argument to Intn" else s ← index sl (pick mod length sl); Ok (Addr s)
  end.

Definition HasPeer (g : groupi) (group : Z) : bool :=
  match all g !! group with None => false | Some sl => (0 <? length sl)%nat end.

Definition Leader_ (g : groupi) (group : Z) : res (Z * list byte) :=
  match all g !! group with
  | None => Ok (0, [])
  | Some sl => s ← index sl 0; Ok (NodeId s, Addr s)
  end.

(** In the order in which Go ranges over the map. *)
Definition KnownGroups (range : gmap Z servers → list (Z * servers)) (g : groupi) : list Z := (range (all g)).*1.

Definition duplicate (g : groupi) (gid nid : Z) (addr : list byte) (leader : bool) : bool :=
  match all g !! gid with
  | None => false
  | Some sl => existsb (λ s, (NodeId s =? nid) && bool_decide (Addr s = addr) && Bool.eqb (Leader s) leader) sl
  end.

Definition TouchLastUpdate (g : groupi) (u : Z) : groupi :=
  if lastUpdate g <? u then mkGroupi (local g) (all g) u else g.

(** One round of the loop that removes a node. The range goes over the slice as
    it was at the start, [n] elements of the array; [len] is the length of the
    slice that is being shortened, of the same array. *)
Fixpoint remove_pass (k i : nat) (id : Z) (found : bool) (arr : servers) (len : nat) : res (bool * servers * nat) :=
  match k with
  | O => Ok (found, arr, len)
  | S k =>
      s ← index arr i;
      if NodeId s =? id then
        if (i <? len)%nat then
          last ← index arr (len - 1);
          remove_pass k (S i) id true (<[i := last]> arr) (len - 1)
        else Crash "index out of range"
      else remove_pass k (S i) id found arr len
  end.

Fixpoint remove_node (fuel : nat) (id : Z) (list : servers) : res servers :=
  match fuel with
  | O => Crash out_of_fuel
  | S fuel =>
      ' (found, arr, len) ← remove_pass (length list) 0 id false list (length list);
      if (found : bool) then remove_node fuel id (take len arr) else Ok (take len arr)
  end.

Definition follower (s : server) : server := mkServer (NodeId s) (Addr s) false (RaftIdx s).

(** The new entry goes to the end, or to the front if it is a leader, in
    exchange with the one there; all behind the first are followers. *)
Definition place (update : server) (list : servers) : servers :=
  let list := list ++ [update] in
  let last := (length list - 1)%nat in
  let list :=
    if Leader update then
      match list !! 0%nat, list !! last with
      | Some a, Some b => <[last := a]> (<[0%nat := b]> list)
      | _, _ => list
      end
    else list in
  match list with [] => [] | s :: rest => s :: (follower <$> rest) end.

Definition applyMembershipUpdate (raftIdx : Z) (mm : Membership) (g : groupi) : res groupi :=
  let update := mkServer (MId mm) (MAddr mm) (MLeader mm) raftIdx in
  let sl := default [] (all g !! MGroup mm) in
  sl ← remove_node (S (length sl)) (MId mm) sl;
  Ok (set_all (<[MGroup mm := place update sl]> (all g)) g).

(** The updates after an index, group by group. *)
Definition member_of (gid : Z) (s : server) : Membership := mkMembership (NodeId s) gid (Addr s) (Leader s).

Definition MembershipUpdateAfter (range : gmap Z servers → list (Z * servers)) (ridx : Z) (g : groupi) : MembershipUpdate :=
  let new := (λ gl, (gl.1, filter (λ s, ridx < RaftIdx s) gl.2)) <$> range (all g) in
  mkUpdate (mjoin ((λ gl, member_of gl.1 <$> gl.2) <$> new)) (foldl Z.max ridx (RaftIdx <$> mjoin new.*2)) false [].

(** The call of a server that does not serve group zero. [propose] is
    [ProposeAndWait] on group zero: the log applies the membership, or fails. *)
Fixpoint propose_all (propose : Membership → groupi → res (groupi * option string)) (ms : list Membership) (g : groupi) : res (groupi * option string) :=
  match ms with
  | [] => Ok (g, None)
  | mm :: ms =>
      if duplicate g (MGroup mm) (MId mm) (MAddr mm) (MLeader mm) then propose_all propose ms g
      else
        ' (g, err) ← propose mm g;
        match err with Some e => Ok (g, Some e) | None => propose_all propose ms g end
  end.

Definition emptyMembershipUpdate : MembershipUpdate := mkUpdate [] 0 false [].

Definition UpdateMembership (range : gmap Z servers → list (Z * servers)) (pick : nat)
    (propose : Membership → groupi → res (groupi * option string)) (update : MembershipUpdate) (g : groupi) :
    res (groupi * MembershipUpdate * option string) :=
  if negb (ServesGroup g 0) then
    addr ← AnyServer g 0 pick;
    Ok (g, mkUpdate [] 0 true addr, None)
  else
    ' (g, err) ← propose_all propose (Members update) g;
    match err with
    | Some e => Ok (g, emptyMembershipUpdate, Some e)
    | None => Ok (g, MembershipUpdateAfter range (LastUpdate_ update) g, None)
    end.

(** ** The side of the caller *)
(** The report on the nodes of this server. *)
Definition report (range : gmap Z node → list (Z * node)) (g : groupi) : MembershipUpdate :=
  mkUpdate ((λ n, mkMembership (NId n.2) (NGroup n.2) (NAddr n.2) (AmLeader n.2)) <$> range (local g)) (lastUpdate g) false [].

Fixpoint apply_members (raftIdx : Z) (ms : list Membership) (g : groupi) : res groupi :=
  match ms with
  | [] => Ok g
  | mm :: ms => g ← applyMembershipUpdate raftIdx mm g; apply_members raftIdx ms g
  end.

(** The end of [syncMemberships], with the reply that is no redirect. *)
Definition apply_reply (update : MembershipUpdate) (g : groupi) : res groupi :=
  g ← apply_members (LastUpdate_ update) (Members update) g;
  Ok (TouchLastUpdate g (if (0 <? length (Members update))%nat && (0 <? LastUpdate_ update) then LastUpdate_ update else 0)).

(** [syncMemberships] of a server that does not serve group zero. [call] is the
    remote call to an address, the empty one standing for any known peer. *)
Fixpoint sync (fuel : nat) (call : list byte → MembershipUpdate → option MembershipUpdate) (mu : MembershipUpdate) (addr : list byte) (g : groupi) : res groupi :=
  match fuel with
  | O => Crash out_of_fuel
  | S fuel =>
      match call addr mu with
      | None => Ok g
      | Some update =>
          if Redirect update then
            if (length (RedirectAddr update) =? 0)%nat then Ok g else sync fuel call mu (RedirectAddr update) g
          else apply_reply update g
      end
  end.

(** ** What a list of servers says *)
(** The address and index of each node, and the leader. *)
Definition entries (l : servers) : gmap Z (list byte * Z) := list_to_map ((λ s, (NodeId s, (Addr s, RaftIdx s))) <$> l).
Definition leader (l : servers) : option Z :=
  match l with s :: _ => if Leader s then Some (NodeId s) else None | [] => None end.

Definition list_ok (l : servers) : Prop := NoDup (NodeId <$> l) ∧ Forall (λ s, Leader s = false) (tail l).

Lemma remove_pass_none k i id found arr len :
  (i + k ≤ length arr)%nat → (∀ j s, (i ≤ j < i + k)%nat → arr !! j = Some s → NodeId s ≠ id) →
  remove_pass k i id found arr len = Ok (found, arr, len).
Proof.
  revert i. induction k as [|k IH]; intros i Hle Hne; [done|]. cbn [remove_pass]. unfold index.
  destruct (lookup_lt_is_Some_2 arr i) as [s Hs]; [lia|]. rewrite Hs. cbn [mbind res_bind].
  rewrite (proj2 (Z.eqb_neq _ _)) by (apply (Hne i); [lia|done]). apply IH; [lia|]. intros j s' Hj. apply Hne. lia.
Qed.

Lemma remove_pass_skip k i j id arr len :
  (i + j ≤ length arr)%nat → (j ≤ k)%nat → (∀ n s, (i ≤ n < i + j)%nat → arr !! n = Some s → NodeId s ≠ id) →
  remove_pass k i id false arr len = remove_pass (k - j) (i + j) id false arr len.
Proof.
  revert i k. induction j as [|j IH]; intros i k Hle Hjk Hne; [by rewrite Nat.sub_0_r, Nat.add_0_r|].
  destruct k as [|k]; [lia|]. cbn [remove_pass]. destruct (lookup_lt_is_Some_2 arr i) as [s Hs]; [lia|].
  assert (index arr i = Ok s) as -> by (unfold index; by rewrite Hs). cbn [mbind res_bind]. rewrite (proj2 (Z.eqb_neq _ _)) by (apply (Hne i); [lia|done]).
  rewrite (IH (S i)); [|lia|lia|]; [by rewrite Nat.add_succ_r|]. intros n s' Hn. apply Hne. lia.
Qed.

Lemma remove_node_none fuel l id : Forall (λ s, NodeId s ≠ id) l → remove_node (S fuel) id l = Ok l.
Proof.
  intros Hne. cbn [remove_node]. rewrite remove_pass_none; [|lia|]; [|intros j s _ Hj; rewrite Forall_lookup in Hne; by apply (Hne j)].
  cbn [mbind res_bind]. by rewrite firstn_all.
Qed.

(** The first round removes the node, the second finds none. *)
Lemma remove_node_spec l id :
  NoDup (NodeId <$> l) →
  ∃ l', remove_node (S (length l)) id l = Ok l' ∧ l' ≡ₚ filter (λ s, NodeId s ≠ id) l ∧
    (∀ s rest, l = s :: rest → NodeId s ≠ id → ∃ rest', l' = s :: rest').
Proof.
  intros Hnd. destruct (decide (id ∈ NodeId <$> l)) as [(x & -> & (a & b & ->)%list_elem_of_split)%list_elem_of_fmap|Hni].
  2:{ exists l. assert (Forall (λ s, NodeId s ≠ id) l) as Hne.
      { apply Forall_forall. intros s Hs Heq. apply Hni. rewrite <-Heq. by apply list_elem_of_fmap_2. }
      split; [by apply remove_node_none|]. split; [by rewrite filter_all|]. intros s rest -> _. by exists rest. }
  rewrite fmap_app, fmap_cons in Hnd. apply NoDup_app in Hnd as (Hna & Hax & [Hxb Hnb]%NoDup_cons).
  assert (∀ s, s ∈ a → NodeId s ≠ NodeId x) as Ha.
  { intros s Hs Heq. apply (Hax (NodeId s)); [by apply list_elem_of_fmap_2|]. rewrite Heq. apply list_elem_of_here. }
  assert (∀ s, s ∈ b → NodeId s ≠ NodeId x) as Hb.
  { intros s Hs Heq. apply Hxb. rewrite <-Heq. by apply list_elem_of_fmap_2. }
  cbn [remove_node]. set (n := length (a ++ x :: b)). assert (n = length a + S (length b))%nat as Hn by (unfold n; by rewrite length_app).
  rewrite (remove_pass_skip n 0 (length a)); [|rewrite length_app; simpl; lia|lia|].
  2:{ intros j s Hj Hs. rewrite lookup_app_l in Hs by lia. apply Ha. by eapply list_elem_of_lookup_2. }
  replace (n - length a)%nat with (S (length b)) by lia. cbn [remove_pass Nat.add].
  assert (index (a ++ x :: b) (length a) = Ok x) as -> by (unfold index; by rewrite list_lookup_middle). cbn [mbind res_bind]. rewrite Z.eqb_refl, (proj2 (Nat.ltb_lt _ _)) by lia.
  destruct b as [|y b' _] using rev_ind.
  - exists a. assert (index (a ++ [x]) (n - 1) = Ok x) as -> by (unfold index; by rewrite list_lookup_middle by (simpl in Hn; lia)).
    cbn [mbind res_bind length remove_pass]. rewrite list_insert_id by by rewrite list_lookup_middle.
    replace (n - 1)%nat with (length a) by (simpl in Hn; lia). rewrite take_app_length.
    assert (Forall (λ s, NodeId s ≠ NodeId x) a) as Hfa by by apply Forall_forall.
    split; [rewrite Hn; simpl; rewrite Nat.add_1_r; by apply remove_node_none|].
    rewrite filter_app, (filter_all _ a) by done. rewrite filter_cons, decide_False by (by intros []). split; [by rewrite app_nil_r|].
    intros s rest Heq Hs. destruct a; simpl in Heq; injection Heq as <- <-; [done|by eexists].
  - exists (a ++ y :: b'). rewrite length_app in Hn. simpl in Hn.
    assert (index (a ++ x :: b' ++ [y]) (n - 1) = Ok y) as ->.
    { unfold index. replace (a ++ x :: b' ++ [y]) with ((a ++ x :: b') ++ y :: []) by by rewrite <-app_assoc.
      by rewrite list_lookup_middle by (rewrite length_app; simpl; lia). }
    cbn [mbind res_bind]. rewrite insert_app_r_alt, Nat.sub_diag by lia. cbn [insert list_insert].
    assert (Forall (λ s, NodeId s ≠ NodeId x) (a ++ y :: b' ++ [y])) as Hall.
    { apply Forall_forall. intros s. rewrite elem_of_app, elem_of_cons. intros [?|[->|?]]; [by apply Ha|apply Hb; set_solver|by apply Hb]. }
    rewrite remove_pass_none; [|rewrite !length_app; simpl; rewrite !length_app; simpl; lia|].
    2:{ intros j s _ Hj. rewrite Forall_lookup in Hall. by apply (Hall j). }
    cbn [mbind res_bind].
    assert (take (n - 1) (a ++ y :: b' ++ [y]) = a ++ y :: b') as ->.
    { replace (a ++ y :: b' ++ [y]) with ((a ++ y :: b') ++ [y]) by by rewrite <-app_assoc.
      rewrite take_app_le by (rewrite length_app; simpl; lia). apply take_ge. rewrite length_app. simpl. lia. }
    split.
    { replace n with (S (n - 1)) by lia. apply remove_node_none. apply Forall_app in Hall as [Hfa Hfy].
      apply Forall_cons in Hfy as [Hy Hfb]. apply Forall_app in Hfb as [Hfb _]. apply Forall_app. by split; [|constructor]. }
    split.
    { rewrite filter_app, filter_cons, decide_False by (by intros []). rewrite filter_all by (apply Forall_forall; apply Ha).
      rewrite filter_all by (apply Forall_forall; apply Hb). f_equiv. by rewrite Permutation_app_comm. }
    intros s rest Heq Hs. destruct a as [|a0 a]; simpl in Heq; injection Heq as <- <-; [done|by eexists].
Qed.

Lemma entries_perm l l' : NoDup (NodeId <$> l) → l ≡ₚ l' → entries l = entries l'.
Proof.
  intros Hnd Hp. unfold entries. apply list_to_map_proper; [|by rewrite Hp]. rewrite <-list_fmap_compose. exact Hnd.
Qed.

Lemma entries_follower l : entries (follower <$> l) = entries l.
Proof. unfold entries. by rewrite <-list_fmap_compose. Qed.

Lemma entries_cons s l : entries (s :: l) = <[NodeId s := (Addr s, RaftIdx s)]> (entries l).
Proof. done. Qed.

Lemma entries_filter l id : NoDup (NodeId <$> l) → entries (filter (λ s, NodeId s ≠ id) l) = delete id (entries l).
Proof.
  intros Hnd. induction l as [|s l IH]; [symmetry; apply delete_empty|]. rewrite fmap_cons in Hnd. apply NoDup_cons in Hnd as [Hs Hnd].
  rewrite filter_cons, entries_cons. case_decide as Hd.
  - rewrite entries_cons, IH by done. by rewrite delete_insert_ne.
  - subst id. rewrite IH by done. by rewrite delete_insert_eq.
Qed.

(** Putting a node that is not in the list into it. *)
Lemma place_spec update l :
  list_ok l → NodeId update ∉ NodeId <$> l →
  list_ok (place update l) ∧ place update l ≠ [] ∧
  entries (place update l) = <[NodeId update := (Addr update, RaftIdx update)]> (entries l) ∧
  leader (place update l) = if Leader update then Some (NodeId update) else leader l.
Proof.
  intros [Hnd Hf] Hni.
  assert (∃ s rest, place update l = s :: (follower <$> rest) ∧ s :: rest ≡ₚ update :: l ∧
    (if Leader update then s = update else match l with [] => s = update | s0 :: _ => s = s0 end)) as (s & rest & -> & Hp & Hs).
  { unfold place. rewrite length_app. cbn [length]. rewrite Nat.add_sub. destruct (Leader update).
    - destruct l as [|s0 l]; [by eexists update, []|]. 
      assert (((s0 :: l) ++ [update]) !! length (s0 :: l) = Some update) as -> by by rewrite list_lookup_middle.
      change (((s0 :: l) ++ [update]) !! 0%nat) with (Some s0). cbv iota beta.
      change (<[0%nat := update]> ((s0 :: l) ++ [update])) with ((update :: l) ++ [update]).
      rewrite insert_app_r_alt by done. rewrite Nat.sub_diag. cbn [insert list_insert app].
      eexists update, (l ++ [s0]). split; [done|]. split; [|done]. by rewrite Permutation_app_comm.
    - destruct l as [|s0 l]; [by eexists update, []|]. eexists s0, (l ++ [update]). split; [done|]. split; [|done].
      rewrite (Permutation_app_comm l [update]). apply Permutation_swap. }
  assert (NodeId <$> s :: (follower <$> rest) = NodeId <$> s :: rest) as Hids by (cbn; by rewrite <-list_fmap_compose).
  assert (NoDup (NodeId <$> s :: rest)) as Hnd'.
  { rewrite Hp. rewrite fmap_cons. by constructor. }
  split_and!.
  - split; [by rewrite Hids|]. cbn. apply Forall_fmap, Forall_true. done.
  - done.
  - rewrite entries_cons, entries_follower, <-entries_cons. by rewrite (entries_perm _ _ Hnd' Hp).
  - cbn [leader]. destruct (Leader update) eqn:Hl; [subst s; by rewrite Hl|]. destruct l; subst s; [by rewrite Hl|done].
Qed.

(** ** The state of a cluster *)
Definition servers_of (g : groupi) (gid : Z) : servers := default [] (all g !! gid).
Definition groups_ok (g : groupi) : Prop := ∀ gid, list_ok (servers_of g gid).

(** What an update does to one group. *)
Definition next_leader (mm : Membership) (old : option Z) : option Z :=
  if MLeader mm then Some (MId mm) else if decide (old = Some (MId mm)) then None else old.

Lemma apply_spec raftIdx mm g :
  groups_ok g →
  ∃ g', applyMembershipUpdate raftIdx mm g = Ok g' ∧ groups_ok g' ∧ local g' = local g ∧ lastUpdate g' = lastUpdate g ∧
    (∀ gid, entries (servers_of g' gid) =
       if decide (gid = MGroup mm) then <[MId mm := (MAddr mm, raftIdx)]> (entries (servers_of g gid)) else entries (servers_of g gid)) ∧
    (∀ gid, leader (servers_of g' gid) =
       if decide (gid = MGroup mm) then next_leader mm (leader (servers_of g gid)) else leader (servers_of g gid)).
Proof.
  intros Hok. destruct (Hok (MGroup mm)) as [Hnd Hf]. unfold applyMembershipUpdate. fold (servers_of g (MGroup mm)).
  set (l := servers_of g (MGroup mm)) in *. set (u := mkServer (MId mm) (MAddr mm) (MLeader mm) raftIdx).
  destruct (remove_node_spec l (MId mm) Hnd) as (l' & -> & Hp & Hhead). cbn [mbind res_bind].
  assert (NoDup (NodeId <$> l')) as Hnd' by (rewrite Hp; by apply NoDup_fmap_filter).
  assert (Forall (λ s, Leader s = false) (tail l') ∧ leader l' = if decide (leader l = Some (MId mm)) then None else leader l) as [Hf' Hlead].
  { assert (∀ s, s ∈ l' → s ∈ l ∧ NodeId s ≠ MId mm) as Hin by (intros s; rewrite Hp, list_elem_of_filter; tauto).
    rewrite Forall_forall in Hf. destruct l as [|s0 rest] eqn:Hl.
    { destruct l' as [|s l']; [done|]. destruct (Hin s) as [Hs _]; [apply list_elem_of_here|]. by apply elem_of_nil in Hs. }
    simpl in Hf. destruct (decide (NodeId s0 = MId mm)) as [Heq|Hne].
    - assert (∀ s, s ∈ l' → Leader s = false) as Hall.
      { intros s [Hs Hid]%Hin. apply elem_of_cons in Hs as [->|Hs]; [done|by apply Hf]. }
      split.
      + apply Forall_forall. intros s Hs. apply Hall. destruct l'; [done|]. by apply list_elem_of_further.
      + cbn [leader]. rewrite Heq. destruct l' as [|s l']; cbn [leader].
        * destruct (Leader s0); [by rewrite decide_True|by rewrite decide_False].
        * rewrite (Hall s) by apply list_elem_of_here. destruct (Leader s0); [by rewrite decide_True|by rewrite decide_False].
    - destruct (Hhead s0 rest eq_refl Hne) as [rest' ->]. split.
      + apply Forall_forall. intros s Hs. simpl in Hs. destruct (Hin s) as [Hs' _]; [by apply list_elem_of_further|].
        apply elem_of_cons in Hs' as [->|Hs']; [|by apply Hf]. rewrite fmap_cons in Hnd'. apply NoDup_cons in Hnd' as [Hno _].
        destruct Hno. by apply list_elem_of_fmap_2.
      + cbn [leader]. destruct (Leader s0); [|by rewrite decide_False]. rewrite decide_False; [done|]. by intros [= ?]. }
  destruct (place_spec u l') as (Hok' & _ & Hent & Hld).
  { by split. }
  { rewrite list_elem_of_fmap. intros (s & Hs & Hin). rewrite Hp in Hin. apply list_elem_of_filter in Hin as [Hne _]. by apply Hne. }
  eexists. split; [reflexivity|].
  assert (∀ gid, servers_of (set_all (<[MGroup mm := place u l']> (all g)) g) gid = if decide (gid = MGroup mm) then place u l' else servers_of g gid) as Hso.
  { intros gid. unfold servers_of. cbn [all set_all]. destruct (decide (gid = MGroup mm)) as [Hd|Hd]; [subst; by rewrite lookup_insert_eq|by rewrite lookup_insert_ne]. }
  split_and!; [|done|done|..]; intros gid; rewrite Hso; (destruct (decide (gid = MGroup mm)) as [Hd|Hd]; [subst gid|done]); fold l.
  - done.
  - rewrite Hent, (entries_perm l' _ Hnd' Hp), entries_filter by done. cbn [u NodeId Addr RaftIdx]. by rewrite insert_delete_eq.
  - rewrite Hld. cbn [u Leader NodeId]. unfold next_leader. by rewrite Hlead.
Qed.

(** ** Learning from group zero *)
Notation E g gid := (entries (servers_of g gid)).
Notation L g gid := (leader (servers_of g gid)).

(** The updates group zero has applied, with their indices in its log. *)
Fixpoint run (us : list (Z * Membership)) (g : groupi) : res groupi :=
  match us with
  | [] => Ok g
  | (i, mm) :: us => g ← applyMembershipUpdate i mm g; run us g
  end.

(** Entries that are not newer than [ridx] have not changed, and a leader that
    is not newer led before. *)
Lemma run_updates_spec ridx us g :
  groups_ok g → Forall (λ u, ridx < u.1) us → (∀ gid id, L g gid = Some id → is_Some (E g gid !! id)) →
  ∃ g', run us g = Ok g' ∧ groups_ok g' ∧
    (∀ gid id, L g' gid = Some id → is_Some (E g' gid !! id)) ∧
    ∀ gid id,
      (E g gid !! id = E g' gid !! id ∨ ∃ a i, E g' gid !! id = Some (a, i) ∧ ridx < i) ∧
      (L g' gid = Some id → L g gid = Some id ∨ ∃ a i, E g' gid !! id = Some (a, i) ∧ ridx < i).
Proof.
  intros Hok Hus. revert g Hok. induction Hus as [|[i mm] us Hi _ IH]; intros g Hok Hlead.
  { exists g. split_and!; [done..|]. intros gid id. split; [by left|]. by left. }
  cbn [run]. simpl in Hi. destruct (apply_spec i mm g Hok) as (g1 & -> & Hok1 & _ & _ & HE & HL). cbn [mbind res_bind].
  destruct (IH g1 Hok1) as (g' & -> & Hok' & Hlead' & Hrel).
  { intros gid id. rewrite HL, HE. destruct (decide (gid = MGroup mm)) as [->|]; [|apply Hlead]. unfold next_leader.
    destruct (MLeader mm); [intros [= ->]; by rewrite lookup_insert_eq|].
    destruct (decide (L g (MGroup mm) = Some (MId mm))) as [|Hne]; [done|]. intros Hl. rewrite lookup_insert_ne by naive_solver. by apply Hlead. }
  exists g'. split_and!; [done..|]. intros gid id. destruct (Hrel gid id) as [Hrel1 Hrel2]. rewrite HE in Hrel1. rewrite HL in Hrel2. split.
  - destruct Hrel1 as [Heq|]; [|by right]. destruct (decide (gid = MGroup mm)) as [->|]; [|by left].
    destruct (decide (id = MId mm)) as [->|Hid]; [|left; by rewrite <-Heq, lookup_insert_ne].
    right. rewrite lookup_insert_eq in Heq. rewrite <-Heq. by eexists _, i.
  - intros Hl'. destruct (Hrel2 Hl') as [Hl|]; [|by right]. destruct (decide (gid = MGroup mm)) as [->|]; [|by left].
    unfold next_leader in Hl. destruct (MLeader mm).
    + injection Hl as <-. destruct Hrel1 as [Heq|]; [|by right]. right. rewrite lookup_insert_eq in Heq. rewrite <-Heq. by eexists _, i.
    + destruct (decide (L g (MGroup mm) = Some (MId mm))); [done|by left].
Qed.

(** Applying the members of a reply. *)
Definition mkey (mm : Membership) : Z * Z := (MGroup mm, MId mm).

Lemma apply_members_spec i ms g :
  groups_ok g → NoDup (mkey <$> ms) →
  (∀ m m', m ∈ ms → m' ∈ ms → MGroup m = MGroup m' → MLeader m = true → MLeader m' = true → m = m') →
  ∃ g', apply_members i ms g = Ok g' ∧ groups_ok g' ∧ lastUpdate g' = lastUpdate g ∧
    (∀ mm, mm ∈ ms → E g' (MGroup mm) !! MId mm = Some (MAddr mm, i)) ∧
    (∀ gid id, (gid, id) ∉ mkey <$> ms → E g' gid !! id = E g gid !! id) ∧
    (∀ mm, mm ∈ ms → MLeader mm = true → L g' (MGroup mm) = Some (MId mm)) ∧
    (∀ gid id, L g gid = Some id → (gid, id) ∉ mkey <$> ms → (∀ mm, mm ∈ ms → MGroup mm = gid → MLeader mm = false) → L g' gid = Some id).
Proof.
  intros Hok. revert g Hok. induction ms as [|mm ms IH]; intros g Hok Hnd Hone.
  { exists g. split_and!; try done; intros mm Hmm; by apply elem_of_nil in Hmm. }
  rewrite fmap_cons in Hnd. apply NoDup_cons in Hnd as [Hni Hnd]. cbn [apply_members].
  destruct (apply_spec i mm g Hok) as (g1 & -> & Hok1 & _ & Hlu & HE & HL). cbn [mbind res_bind].
  destruct (IH g1 Hok1 Hnd) as (g' & -> & Hok' & Hlu' & H1 & H2 & H3 & H4).
  { intros m m' Hm Hm'. apply Hone; by apply list_elem_of_further. }
  exists g'. split_and!; [done|done|by rewrite Hlu'|..].
  - intros m [->|Hm]%elem_of_cons; [|by apply H1]. rewrite H2 by done. rewrite HE, decide_True by done. by rewrite lookup_insert_eq.
  - intros gid id Hk. rewrite fmap_cons, not_elem_of_cons in Hk. destruct Hk as [Hk1 Hk2]. rewrite H2, HE by done.
    destruct (decide (gid = MGroup mm)) as [->|]; [|done]. rewrite lookup_insert_ne; [done|]. intros <-. by apply Hk1.
  - intros m [->|Hm]%elem_of_cons Hml; [|by apply H3]. apply H4; [|done|].
    + rewrite HL, decide_True by done. unfold next_leader. by rewrite Hml.
    + intros m' Hm' Hg. destruct (MLeader m') eqn:Hl'; [|done]. exfalso. apply Hni.
      rewrite <-(Hone m' mm); [by apply list_elem_of_fmap_2|by apply list_elem_of_further|apply list_elem_of_here|done..].
  - intros gid id Hl Hk Hno. rewrite fmap_cons, not_elem_of_cons in Hk. destruct Hk as [Hk1 Hk2].
    apply H4; [|done|intros m Hm; apply Hno; by apply list_elem_of_further]. rewrite HL.
    destruct (decide (gid = MGroup mm)) as [->|]; [|done]. unfold next_leader. rewrite (Hno mm); [|apply list_elem_of_here|done].
    rewrite decide_False; [done|]. rewrite Hl. intros [= ->]. by apply Hk1.
Qed.

Lemma entries_lookup l id a i :
  NoDup (NodeId <$> l) → entries l !! id = Some (a, i) ↔ ∃ s, s ∈ l ∧ NodeId s = id ∧ Addr s = a ∧ RaftIdx s = i.
Proof.
  intros Hnd. unfold entries. rewrite <-elem_of_list_to_map, list_elem_of_fmap by by rewrite <-list_fmap_compose.
  split; [intros (s & [= -> -> ->] & Hs); by exists s|]. intros (s & Hs & <- & <- & <-). by exists s.
Qed.

Lemma leader_Some l id : list_ok l → leader l = Some id ↔ ∃ s, s ∈ l ∧ NodeId s = id ∧ Leader s = true.
Proof.
  intros [_ Hf]. destruct l as [|s l]; [split; [done|intros (s & Hs & _); by apply elem_of_nil in Hs]|]. cbn [leader]. simpl in Hf.
  rewrite Forall_forall in Hf. split.
  - destruct (Leader s) eqn:Hl; [|done]. intros [= <-]. exists s. split; [apply list_elem_of_here|done].
  - intros (s' & [->|Hs]%elem_of_cons & <- & Hl); [by rewrite Hl|]. by rewrite (Hf s') in Hl.
Qed.

Definition new_members (ridx : Z) (r : list (Z * servers)) : list Membership :=
  mjoin ((λ gl, member_of gl.1 <$> gl.2) <$> ((λ gl, (gl.1, filter (λ s, ridx < RaftIdx s) gl.2)) <$> r)).

Lemma new_members_elem ridx r mm :
  mm ∈ new_members ridx r ↔ ∃ gid l s, (gid, l) ∈ r ∧ s ∈ l ∧ ridx < RaftIdx s ∧ mm = member_of gid s.
Proof.
  unfold new_members. rewrite <-list_fmap_compose, list_elem_of_join. split.
  - intros (ms & Hmm & ([gid l] & -> & Hgl)%list_elem_of_fmap). simpl in Hmm.
    apply list_elem_of_fmap in Hmm as (s & -> & [Hi Hs]%list_elem_of_filter). by exists gid, l, s.
  - intros (gid & l & s & Hgl & Hs & Hi & ->). eexists. split; [|apply list_elem_of_fmap_2; exact Hgl]. simpl.
    apply list_elem_of_fmap_2, list_elem_of_filter. done.
Qed.

Lemma new_members_NoDup ridx r :
  NoDup r.*1 → (∀ gid l, (gid, l) ∈ r → NoDup (NodeId <$> l)) → NoDup (mkey <$> new_members ridx r).
Proof.
  induction r as [|[gid l] r IH]; [constructor|]. rewrite fmap_cons. intros [Hni Hnd]%NoDup_cons Hl. simpl in Hni.
  change (new_members ridx ((gid, l) :: r)) with ((member_of gid <$> filter (λ s, ridx < RaftIdx s) l) ++ new_members ridx r).
  rewrite fmap_app. apply NoDup_app. split_and!.
  - rewrite <-list_fmap_compose. specialize (Hl gid l (list_elem_of_here _ _)). apply NoDup_fmap_filter.
    change (NoDup ((λ s, (gid, NodeId s)) <$> l)). replace ((λ s, (gid, NodeId s)) <$> l) with (pair gid <$> (NodeId <$> l)) by by rewrite <-list_fmap_compose.
    apply NoDup_fmap; [intros ? ? [= ->]; done|done].
  - intros k (mm & -> & (s & -> & _)%list_elem_of_fmap)%list_elem_of_fmap. intros (mm' & Heq & Hin)%list_elem_of_fmap.
    apply new_members_elem in Hin as (gid' & l' & s' & Hin & _ & _ & ->). injection Heq as -> _. apply Hni. by apply (list_elem_of_fmap_2 fst) in Hin.
  - apply IH; [done|]. intros gid' l' Hin. by apply (Hl gid' l'), list_elem_of_further.
Qed.

Lemma foldl_max_le (i0 : Z) idxs : i0 ≤ foldl Z.max i0 idxs ∧ ∀ i, i ∈ idxs → i ≤ foldl Z.max i0 idxs.
Proof.
  revert i0. induction idxs as [|j idxs IH]; intros i0; simpl; [split; [lia|by intros i ?%elem_of_nil]|].
  destruct (IH (Z.max i0 j)) as [Hle Hin]. split; [lia|]. intros i [->|Hi]%elem_of_cons; [lia|by apply Hin].
Qed.

(** Every entry is known up to an index, and a leader has an entry. *)
Definition known (g : groupi) (idx : Z) : Prop := ∀ gid id a i, E g gid !! id = Some (a, i) → i ≤ idx.
Definition address (g : groupi) (gid id : Z) : option (list byte) := fst <$> E g gid !! id.

Lemma leader_entry g gid id : groups_ok g → L g gid = Some id → is_Some (E g gid !! id).
Proof.
  intros Hok (s & Hs & <- & _)%leader_Some; [|done]. exists (Addr s, RaftIdx s). apply entries_lookup; [apply Hok|]. by exists s.
Qed.

(** The reply of group zero. *)
Section reply.
Context (range : gmap Z servers → list (Z * servers)) (Hrange : ∀ m, range m ≡ₚ map_to_list m).
Context (ridx : Z) (zero : groupi) (Hz : groups_ok zero).
Notation upd := (MembershipUpdateAfter range ridx zero).

Lemma reply_elem mm :
  mm ∈ Members upd ↔ ∃ gid s, s ∈ servers_of zero gid ∧ ridx < RaftIdx s ∧ mm = member_of gid s.
Proof.
  change (Members upd) with (new_members ridx (range (all zero))). rewrite new_members_elem.
  assert (∀ gid l, (gid, l) ∈ range (all zero) ↔ all zero !! gid = Some l) as Hr by (intros; rewrite Hrange; apply elem_of_map_to_list).
  unfold servers_of. split.
  - intros (gid & l & s & Hl%Hr & Hs & Hi & ->). exists gid, s. by rewrite Hl.
  - intros (gid & s & Hs & Hi & ->). destruct (all zero !! gid) as [l|] eqn:Hl; [|by apply elem_of_nil in Hs].
    exists gid, l, s. split; [by apply Hr|done].
Qed.

Lemma reply_NoDup : NoDup (mkey <$> Members upd).
Proof.
  apply (new_members_NoDup ridx (range (all zero))).
  - rewrite Hrange. apply NoDup_fst_map_to_list.
  - intros gid l Hin. rewrite Hrange in Hin. apply elem_of_map_to_list in Hin. destruct (Hz gid) as [Hnd _].
    unfold servers_of in Hnd. by rewrite Hin in Hnd.
Qed.

Lemma reply_keys gid id : (gid, id) ∈ mkey <$> Members upd ↔ ∃ a i, E zero gid !! id = Some (a, i) ∧ ridx < i.
Proof.
  rewrite list_elem_of_fmap. split.
  - intros (mm & [= -> ->] & (gid' & s & Hs & Hi & ->)%reply_elem). exists (Addr s), (RaftIdx s). split; [|done].
    apply entries_lookup; [apply Hz|]. by exists s.
  - intros (a & i & (s & Hs & <- & <- & <-)%entries_lookup & Hi); [|apply Hz]. exists (member_of gid s). split; [done|].
    apply reply_elem. by exists gid, s.
Qed.

Lemma reply_one_leader m m' :
  m ∈ Members upd → m' ∈ Members upd → MGroup m = MGroup m' → MLeader m = true → MLeader m' = true → m = m'.
Proof.
  intros (gid & s & Hs & _ & ->)%reply_elem (gid' & s' & Hs' & _ & ->)%reply_elem. simpl. intros <- Hl Hl'. f_equal.
  pose proof (proj2 (leader_Some _ (NodeId s) (Hz gid)) ltac:(by exists s)) as H1.
  pose proof (proj2 (leader_Some _ (NodeId s') (Hz gid)) ltac:(by exists s')) as H2. rewrite H1 in H2. injection H2 as Hid.
  destruct (Hz gid) as [Hnd _]. apply list_elem_of_lookup_1 in Hs as [i Hi]. apply list_elem_of_lookup_1 in Hs' as [j Hj].
  assert (i = j) as <-; [|congruence]. eapply NoDup_lookup; [exact Hnd| |]; rewrite list_lookup_fmap; [by rewrite Hi|rewrite Hj; simpl; by rewrite Hid].
Qed.

Lemma reply_last gid id a i : E zero gid !! id = Some (a, i) → i ≤ ridx ∨ Members upd ≠ [] ∧ i ≤ LastUpdate_ upd.
Proof.
  intros He. destruct (decide (ridx < i)) as [Hi|]; [right|left; lia]. split.
  - assert ((gid, id) ∈ mkey <$> Members upd) as Hk by (apply reply_keys; by exists a, i). by destruct (Members upd); [apply elem_of_nil in Hk|].
  - apply entries_lookup in He as (s & Hs & _ & _ & <-); [|apply Hz]. apply (foldl_max_le ridx).
    apply list_elem_of_fmap_2, list_elem_of_join. rewrite <-!list_fmap_compose. unfold servers_of in Hs.
    destruct (all zero !! gid) as [l|] eqn:Hl; [|by apply elem_of_nil in Hs]. eexists. split; [|apply (list_elem_of_fmap_2 _ _ (gid, l))].
    + simpl. by apply list_elem_of_filter.
    + rewrite Hrange. by apply elem_of_map_to_list.
Qed.
End reply.

(** C9: A server that does not serve group zero stays in step with it. Let it
    agree with group zero on addresses and leaders up to its last update. Whatever
    updates group zero applies after that, the reply it then gives, applied by
    [syncMemberships], brings the server to the same nodes and addresses in every
    group, and to the same leader wherever group zero knows one; and it is again
    up to date with everything group zero knows. Applying an update keeps the
    lists free of duplicates, with at most one leader, at the front. *)
Theorem membership_sync range us zero mine :
  (∀ m, range m ≡ₚ map_to_list m) → groups_ok zero → groups_ok mine → 0 ≤ lastUpdate mine →
  (∀ gid id, address mine gid id = address zero gid id) → (∀ gid, L mine gid = L zero gid) → known zero (lastUpdate mine) →
  Forall (λ u, lastUpdate mine < u.1) us →
  ∃ zero' mine', run us zero = Ok zero' ∧ apply_reply (MembershipUpdateAfter range (lastUpdate mine) zero') mine = Ok mine' ∧
    groups_ok zero' ∧ groups_ok mine' ∧
    (∀ gid id, address mine' gid id = address zero' gid id) ∧
    (∀ gid id, L zero' gid = Some id → L mine' gid = Some id) ∧
    known zero' (lastUpdate mine').
Proof.
  intros Hrange Hz Hm Hlu Haddr Hlead Hknown Hus. set (ridx := lastUpdate mine) in *.
  destruct (run_updates_spec ridx us zero Hz Hus) as (zero' & Hrun & Hz' & _ & Hrel); [intros gid id; by apply leader_entry|].
  set (upd := MembershipUpdateAfter range ridx zero'). pose proof (reply_keys range Hrange ridx zero' Hz') as Hkeys. fold upd in Hkeys.
  destruct (apply_members_spec (LastUpdate_ upd) (Members upd) mine Hm) as (mine1 & Happ & Hm1 & Hlu1 & H1 & H2 & H3 & H4);
    [by apply reply_NoDup|by apply reply_one_leader|].
  eexists zero', _. split; [done|]. unfold apply_reply. fold upd. rewrite Happ. cbn [mbind res_bind]. split; [reflexivity|].
  set (lu := if _ && _ then _ else _).
  assert (∀ gid, servers_of (TouchLastUpdate mine1 lu) gid = servers_of mine1 gid) as Hso by (intros; unfold TouchLastUpdate; by destruct (lastUpdate mine1 <? lu)).
  assert (ridx ≤ lastUpdate (TouchLastUpdate mine1 lu) ∧ lu ≤ lastUpdate (TouchLastUpdate mine1 lu)) as [Hge Hgl].
  { unfold TouchLastUpdate. destruct (Z.ltb_spec (lastUpdate mine1) lu); simpl; unfold ridx in *; lia. }
  split_and!; [done|intros gid; by rewrite Hso|..].
  - intros gid id. unfold address. rewrite Hso. destruct (decide ((gid, id) ∈ mkey <$> Members upd)) as [Hin|Hni].
    + apply list_elem_of_fmap in Hin as (mm & [= -> ->] & Hmm). rewrite (H1 mm Hmm). apply reply_elem in Hmm as (gid' & s & Hs & _ & ->); [|done..].
      simpl. rewrite (proj2 (entries_lookup _ (NodeId s) (Addr s) (RaftIdx s) (proj1 (Hz' gid')))); [done|by exists s].
    + rewrite H2 by done. destruct (Hrel gid id) as [[Heq|Hnew] _]; [|by apply Hkeys in Hnew]. rewrite <-Heq. apply Haddr.
  - intros gid id Hl. rewrite Hso. destruct (proj1 (leader_Some _ _ (Hz' gid)) Hl) as (s & Hs & Hid & Hsl).
    destruct (decide ((gid, id) ∈ mkey <$> Members upd)) as [Hin|Hni].
    + assert (member_of gid s ∈ Members upd) as Hmm.
      { apply reply_elem; [done..|]. exists gid, s. split; [done|]. split; [|done]. apply Hkeys in Hin as (a & i & He & Hi).
        pose proof (proj2 (entries_lookup _ id (Addr s) (RaftIdx s) (proj1 (Hz' gid))) ltac:(by exists s)) as He'. rewrite He in He'. injection He' as Ha' Hi'. lia. }
      rewrite <-Hid. by apply (H3 (member_of gid s)).
    + destruct (Hrel gid id) as [_ Hrl]. destruct (Hrl Hl) as [Hl0|Hnew]; [|by apply Hkeys in Hnew].
      apply H4; [by rewrite Hlead|done|]. intros mm Hmm Hg. destruct (MLeader mm) eqn:Hml; [|done]. exfalso. apply Hni.
      apply list_elem_of_fmap. exists mm. split; [|done]. apply reply_elem in Hmm as (gid' & s' & Hs' & _ & ->); [|done..]. simpl in *. subst gid'.
      pose proof (proj2 (leader_Some _ (NodeId s') (Hz' gid)) ltac:(by exists s')) as Hl'. rewrite Hl in Hl'. injection Hl' as Heq. unfold mkey. simpl. by rewrite Heq.
  - intros gid id a i He. destruct (reply_last range Hrange ridx zero' Hz' gid id a i He) as [?|[Hne Hi]]; [lia|].
    etrans; [|exact Hgl]. fold upd in Hne, Hi. unfold lu. destruct (Z.ltb_spec 0 (LastUpdate_ upd)).
    + assert ((0 <? length (Members upd))%nat = true) as -> by (by destruct (Members upd)). done.
    + rewrite andb_false_r. lia.
Qed.

(** ** Instances *)
Definition ex_empty : groupi := mkGroupi ∅ ∅ 0.
Definition ex_updates : list (Z * Membership) :=
  [(1, mkMembership 1 0 (bs "a:1") true); (2, mkMembership 2 0 (bs "b:1") true); (3, mkMembership 3 4 (bs "c:1") false)].

Lemma membership_sync_witness :
  groups_ok ex_empty ∧
  ∃ zero' mine', run ex_updates ex_empty = Ok zero' ∧ apply_reply (MembershipUpdateAfter map_to_list 0 zero') ex_empty = Ok mine' ∧
    (∀ gid id, address mine' gid id = address zero' gid id) ∧ known zero' (lastUpdate mine').
Proof.
  assert (groups_ok ex_empty) as Hok by (intros gid; split; constructor). split; [exact Hok|].
  destruct (membership_sync map_to_list ex_updates ex_empty ex_empty) as (zero' & mine' & Hrun & Happ & _ & _ & Ha & _ & Hk).
  - intros m. reflexivity.
  - exact Hok.
  - exact Hok.
  - reflexivity || done.
  - intros gid id. reflexivity.
  - intros gid. reflexivity.
  - intros gid id a i He. discriminate He.
  - repeat constructor.
  - exists zero', mine'. split; [exact Hrun|]. split; [exact Happ|]. split; [exact Ha|exact Hk].
Defined.

(** A leader that has been deposed by one that then stepped down is still the
    leader for a server that saw neither: the entry of the deposed one is not
    newer than the server's last update. *)
Example stale_leader :
  let a := mkMembership 1 0 (bs "a:1") true in
  let b := mkMembership 2 0 (bs "b:1") in
  ∃ zero mine zero' mine',
    run [(1, a)] ex_empty = Ok zero ∧ apply_reply (MembershipUpdateAfter map_to_list 0 zero) ex_empty = Ok mine ∧
    run [(2, b true); (3, b false)] zero = Ok zero' ∧ apply_reply (MembershipUpdateAfter map_to_list 1 zero') mine = Ok mine' ∧
    L zero' 0 = None ∧ L mine' 0 = Some 1.
Proof.
  eexists _, _, _, _. split; [reflexivity|]. split; [reflexivity|]. split; [reflexivity|]. split; [reflexivity|]. split; vm_compute; reflexivity.
Qed.
End groups.
