(* ===== verification/TaskPb.v ===== *)
(** The encoding of the messages of [task/task.pb.go] that go through the Raft
    log: edges and mutations, memberships, contexts of nodes, and the proposals
    that hold them, with [Size], [MarshalTo], [Marshal] and [Unmarshal]. *)
From S2P Require Import Prelude Bytes Proto Store Task Types Geo Lex Schema Group Index Mutation Groups.
From stdpp Require Import options.
#[local] Open Scope Z_scope.

(** ** Fields the posting lists do not have *)
Definition put_bool_field (tag : byte) (b : bool) (st : wstate) : res wstate :=
  if b then st ← put_byte tag st; put_byte x01 st else Ok st.
Definition size_bool_field (b : bool) : nat := if b then 2 else 0.
Definition enc_bool (tag : byte) (b : bool) : list byte := enc_varint tag (Z.b2z b).

Lemma writes_bool_field tag b : writes (put_bool_field tag b) (enc_bool tag b).
Proof.
  destruct b; [|apply writes_nil]. change (enc_bool tag true) with ([tag] ++ [x01]).
  apply writes_bind; apply writes_put_byte.
Qed.

Lemma sov_le v : (sov v ≤ 11)%nat.
Proof.
  unfold sov. enough (∀ fuel x, sov_loop fuel x 0 ≤ fuel)%nat as He by apply He.
  intros fuel. induction fuel as [|fuel IH]; intros x; simpl; [lia|]. destruct (Z.shiftr x 7 =? 0); [lia|].
  rewrite sov_loop_acc. specialize (IH (Z.shiftr x 7)). lia.
Qed.

Lemma length_enc_bool tag b : length (enc_bool tag b) = size_bool_field b.
Proof. by destruct b. Qed.

(** [for _, msg := range m.Set {...}]. *)
Section messages.
Context {A : Type} (tag : byte) (Size : A → nat) (MarshalTo : A → wstate → res wstate) (enc : A → list byte).

Fixpoint put_messages (l : list A) (st : wstate) : res wstate :=
  match l with
  | [] => Ok st
  | msg :: l =>
      st ← put_message_field tag (Size msg) (MarshalTo msg) st;
      put_messages l st
  end.
Definition size_messages (l : list A) : nat := sum_list_with (λ e, size_message_field (Size e)) l.
Definition enc_messages (l : list A) : list byte := mjoin ((λ m, enc_delim tag (enc m)) <$> l).

Lemma enc_messages_cons m l : enc_messages (m :: l) = enc_delim tag (enc m) ++ enc_messages l.
Proof. done. Qed.

Lemma writes_messages l :
  Forall (λ m, Size m = length (enc m) ∧ writes (MarshalTo m) (enc m)) l → writes (put_messages l) (enc_messages l).
Proof.
  induction 1 as [|m l [Hs Hw] _ IH]; [apply writes_nil|]. rewrite enc_messages_cons. apply writes_bind; [|done].
  rewrite Hs. by apply writes_message_field.
Qed.

Lemma enc_messages_bound l m : m ∈ l → (length (enc m) < length (enc_messages l))%nat.
Proof.
  induction l as [|m' l IH]; [by intros ?%elem_of_nil|]. rewrite enc_messages_cons, length_app.
  unfold enc_delim. cbn [length]. rewrite length_app. intros [->|Hin]%elem_of_cons; [lia|]. specialize (IH Hin). lia.
Qed.

Lemma length_enc_messages l :
  Forall (λ m, Size m = length (enc m)) l → Z.of_nat (length (enc_messages l)) < two64 → length (enc_messages l) = size_messages l.
Proof.
  induction 1 as [|m l Hs _ IH]; [done|]. rewrite enc_messages_cons, length_app. intros Hl. unfold size_messages. cbn [sum_list_with].
  rewrite length_enc_delim, IH.
  - by rewrite Hs.
  - lia.
  - unfold enc_delim in Hl. cbn [length] in Hl. rewrite length_app in Hl. lia.
Qed.
End messages.

Lemma reads_messages {A M : Type} (name : string) (field : field_reader M) (tag : byte) (num : Z) (enc : A → list byte)
    (set : list byte → M → res M) (add : A → M → M) (l : list A) (m : M) :
  good_tag tag num 2 →
  (∀ x m, x ∈ l → set (enc x) m = Ok (add x m)) →
  (∀ m data i, field num 2 data i m = Some (' (x, i) ← read_bytes data i; m ← set x m; Ok (m, i))) →
  reads name field m (enc_messages tag enc l) (foldl (λ m x, add x m) m l).
Proof.
  intros Htag Hset Hfield. revert m. induction l as [|x l IH]; intros m; [constructor|].
  rewrite enc_messages_cons. cbn [foldl]. apply (reads_app _ _ _ _ (add x m)).
  - apply (reads_delim _ _ tag num (enc x) (λ d, set d m)); [done|apply Hset; left|done].
  - apply IH. intros y m' Hy. apply Hset. by right.
Qed.

(** ** [DirectedEdge] *)
Module edge_pb.
Definition emptyEdge : DirectedEdge := mkEdge 0 [] None 0 0 [].

Definition Size (m : DirectedEdge) : nat :=
  size_fixed64_field (Entity m) + size_bytes_field (length (Attr m)) + size_bytes_field (length (value_bytes m)) +
  size_varint_field (ValueType m) + size_fixed64_field (ValueId m) + size_bytes_field (length (ELabel m)).

Definition MarshalTo (m : DirectedEdge) (st : wstate) : res wstate :=
  st ← put_fixed64_field x09 (Entity m) st;
  st ← put_bytes_field x12 (Attr m) st;
  st ← put_bytes_field x1a (value_bytes m) st;
  st ← put_varint_field x20 (ValueType m) st;
  st ← put_fixed64_field x29 (ValueId m) st;
  put_bytes_field x32 (ELabel m) st.

Definition Marshal (m : DirectedEdge) : res (list byte) := marshal_with (Size m) (MarshalTo m).

Definition field : field_reader DirectedEdge := λ fieldNum wireType data iNdEx m,
  let '(mkEdge entity attr value ty vid label) := m in
  if fieldNum =? 1 then Some (
    if negb (wireType =? 1) then Err "proto: wrong wireType = %d for field Entity" else
    ' (x, iNdEx) ← read_fixed64 data iNdEx; Ok (mkEdge x attr value ty vid label, iNdEx))
  else if fieldNum =? 2 then Some (
    if negb (wireType =? 2) then Err "proto: wrong wireType = %d for field Attr" else
    ' (x, iNdEx) ← read_bytes data iNdEx; Ok (mkEdge entity x value ty vid label, iNdEx))
  else if fieldNum =? 3 then Some (
    if negb (wireType =? 2) then Err "proto: wrong wireType = %d for field Value" else
    ' (x, iNdEx) ← read_bytes data iNdEx; Ok (mkEdge entity attr (Some x) ty vid label, iNdEx))
  else if fieldNum =? 4 then Some (
    if negb (wireType =? 0) then Err "proto: wrong wireType = %d for field ValueType" else
    ' (x, iNdEx) ← read_varint 32 data iNdEx; Ok (mkEdge entity attr value x vid label, iNdEx))
  else if fieldNum =? 5 then Some (
    if negb (wireType =? 1) then Err "proto: wrong wireType = %d for field ValueId" else
    ' (x, iNdEx) ← read_fixed64 data iNdEx; Ok (mkEdge entity attr value ty x label, iNdEx))
  else if fieldNum =? 6 then Some (
    if negb (wireType =? 2) then Err "proto: wrong wireType = %d for field Label" else
    ' (x, iNdEx) ← read_bytes data iNdEx; Ok (mkEdge entity attr value ty vid x, iNdEx))
  else None.

Definition Unmarshal (data : list byte) (m : DirectedEdge) : res DirectedEdge := unmarshal "DirectedEdge" field data m.

Definition enc (m : DirectedEdge) : list byte :=
  enc_fixed64 x09 (Entity m) ++ enc_bytes x12 (Attr m) ++ enc_bytes x1a (value_bytes m) ++ enc_varint x20 (ValueType m) ++
  enc_fixed64 x29 (ValueId m) ++ enc_bytes x32 (ELabel m).

(** Fields in their ranges; on the wire an empty value is no value. *)
Definition wf (m : DirectedEdge) : Prop :=
  is_u64 (Entity m) ∧ is_u64 (ValueId m) ∧ 0 ≤ ValueType m < 2 ^ 32 ∧ EValue m ≠ Some [] ∧
  Z.of_nat (length (Attr m)) < 2 ^ 63 ∧ Z.of_nat (length (value_bytes m)) < 2 ^ 63 ∧ Z.of_nat (length (ELabel m)) < 2 ^ 63.

Lemma edge_writes m : writes (MarshalTo m) (enc m).
Proof.
  unfold MarshalTo, enc.
  repeat (apply writes_bind; [first [apply writes_fixed64_field|apply writes_bytes_field|apply writes_varint_field]|]).
  apply writes_bytes_field.
Qed.

Lemma edge_Size m : wf m → Size m = length (enc m).
Proof.
  intros (Hu & Hv & Ht & _ & ? & ? & ?). unfold is_u64, MaxUint64 in *. unfold Size, enc.
  rewrite !length_app, !length_enc_fixed64, !length_enc_bytes, !length_enc_varint by (unfold two64; lia). lia.
Qed.

Lemma edge_reads m : wf m → reads "DirectedEdge" field emptyEdge (enc m) m.
Proof.
  intros (Hu & Hv & Ht & Hne & _). destruct m as [u a v t i l]. simpl in *. unfold enc, value_bytes. simpl.
  eapply reads_app; [apply (reads_fixed64 _ _ x09 1 u (λ x, mkEdge x [] None 0 0 []))|]; try done; [intros ->; done|].
  eapply reads_app; [apply (reads_bytes _ _ x12 2 a (λ x, mkEdge u x None 0 0 []))|]; try done; [intros ->; done|].
  apply (reads_app _ _ _ _ (mkEdge u a v 0 0 [])).
  { destruct v as [v|]; [|constructor]. simpl. apply (reads_bytes _ _ x1a 3 v (λ x, mkEdge u a (Some x) 0 0 [])); try done. intros ->. done. }
  eapply reads_app; [apply (reads_varint _ _ x20 4 32 t (λ x, mkEdge u a v x 0 []))|]; try done; [intros ->; done|].
  eapply reads_app; [apply (reads_fixed64 _ _ x29 5 i (λ x, mkEdge u a v t x []))|]; try done; [intros ->; done|].
  apply (reads_bytes _ _ x32 6 l (λ x, mkEdge u a v t i x)); try done. intros ->. done.
Qed.

Lemma edge_Unmarshal m : wf m → Z.of_nat (length (enc m)) < 2 ^ 63 → Unmarshal (enc m) emptyEdge = Ok m.
Proof. intros Hwf Hl. apply reads_unmarshal; [by apply edge_reads|done]. Qed.
End edge_pb.

(** ** [Mutations] *)
Module mutations_pb.
Import mutation.
Definition emptyMutations : Mutations := mkMutations 0 [] [].

Definition Size (m : Mutations) : nat :=
  size_varint_field (GroupId m) + size_messages edge_pb.Size (MSet m) + size_messages edge_pb.Size (MDel m).

Definition MarshalTo (m : Mutations) (st : wstate) : res wstate :=
  st ← put_varint_field x08 (GroupId m) st;
  st ← put_messages x12 edge_pb.Size edge_pb.MarshalTo (MSet m) st;
  put_messages x1a edge_pb.Size edge_pb.MarshalTo (MDel m) st.

Definition Marshal (m : Mutations) : res (list byte) := marshal_with (Size m) (MarshalTo m).

Definition add_set (e : DirectedEdge) (m : Mutations) : Mutations := mkMutations (GroupId m) (MSet m ++ [e]) (MDel m).
Definition add_del (e : DirectedEdge) (m : Mutations) : Mutations := mkMutations (GroupId m) (MSet m) (MDel m ++ [e]).

Definition field : field_reader Mutations := λ fieldNum wireType data iNdEx m,
  if fieldNum =? 1 then Some (
    if negb (wireType =? 0) then Err "proto: wrong wireType = %d for field GroupId" else
    ' (x, iNdEx) ← read_varint 32 data iNdEx; Ok (mkMutations x (MSet m) (MDel m), iNdEx))
  else if fieldNum =? 2 then Some (
    if negb (wireType =? 2) then Err "proto: wrong wireType = %d for field Set" else
    ' (x, iNdEx) ← read_bytes data iNdEx;
    m ← (e ← edge_pb.Unmarshal x edge_pb.emptyEdge; Ok (add_set e m));
    Ok (m, iNdEx))
  else if fieldNum =? 3 then Some (
    if negb (wireType =? 2) then Err "proto: wrong wireType = %d for field Del" else
    ' (x, iNdEx) ← read_bytes data iNdEx;
    m ← (e ← edge_pb.Unmarshal x edge_pb.emptyEdge; Ok (add_del e m));
    Ok (m, iNdEx))
  else None.

Definition Unmarshal (data : list byte) (m : Mutations) : res Mutations := unmarshal "Mutations" field data m.

Definition enc (m : Mutations) : list byte :=
  enc_varint x08 (GroupId m) ++ enc_messages x12 edge_pb.enc (MSet m) ++ enc_messages x1a edge_pb.enc (MDel m).

Definition wf (m : Mutations) : Prop :=
  0 ≤ GroupId m < 2 ^ 32 ∧ Forall edge_pb.wf (MSet m) ∧ Forall edge_pb.wf (MDel m) ∧ Z.of_nat (length (enc m)) < 2 ^ 63.

Lemma edges_written l : Forall edge_pb.wf l → Forall (λ m, edge_pb.Size m = length (edge_pb.enc m) ∧ writes (edge_pb.MarshalTo m) (edge_pb.enc m)) l.
Proof. intros Hl. eapply Forall_impl; [exact Hl|]. intros e He. split; [by apply edge_pb.edge_Size|apply edge_pb.edge_writes]. Qed.

Lemma mutations_writes m : wf m → writes (MarshalTo m) (enc m).
Proof.
  intros (_ & Hs & Hd & _). apply writes_bind; [apply writes_varint_field|].
  apply writes_bind; by apply writes_messages, edges_written.
Qed.

Lemma mutations_Size m : wf m → Size m = length (enc m).
Proof.
  intros (Hg & Hs & Hd & Hl). unfold enc in Hl. rewrite !length_app in Hl. unfold Size, enc.
  assert (∀ l, Forall edge_pb.wf l → Forall (λ m, edge_pb.Size m = length (edge_pb.enc m)) l) as Hsz.
  { intros l Hwl. eapply Forall_impl; [exact Hwl|]. intros e He. by apply edge_pb.edge_Size. }
  rewrite !length_app, length_enc_varint by (unfold two64; lia).
  rewrite !(length_enc_messages _ edge_pb.Size) by (try apply Hsz; done || (unfold two64; lia)). lia.
Qed.

Lemma foldl_add_set l m : foldl (λ m x, add_set x m) m l = mkMutations (GroupId m) (MSet m ++ l) (MDel m).
Proof. revert m. induction l as [|e l IH]; intros m; simpl; [rewrite app_nil_r; by destruct m|]. rewrite IH. simpl. by rewrite <-app_assoc. Qed.
Lemma foldl_add_del l m : foldl (λ m x, add_del x m) m l = mkMutations (GroupId m) (MSet m) (MDel m ++ l).
Proof. revert m. induction l as [|e l IH]; intros m; simpl; [rewrite app_nil_r; by destruct m|]. rewrite IH. simpl. by rewrite <-app_assoc. Qed.

Lemma mutations_Unmarshal m : wf m → Unmarshal (enc m) emptyMutations = Ok m.
Proof.
  intros (Hg & Hs & Hd & Hl). apply reads_unmarshal; [|done]. unfold enc in *. rewrite !length_app in Hl.
  assert (∀ tag l e, Forall edge_pb.wf l → Z.of_nat (length (enc_messages tag edge_pb.enc l)) < 2 ^ 63 → e ∈ l →
    edge_pb.Unmarshal (edge_pb.enc e) edge_pb.emptyEdge = Ok e) as Hedge.
  { intros tag l e Hwf Hlen Hin. apply edge_pb.edge_Unmarshal; [by apply (proj1 (Forall_forall _ _) Hwf)|].
    pose proof (enc_messages_bound tag edge_pb.enc l e Hin). lia. }
  eapply reads_app; [apply (reads_varint _ _ x08 1 32 (GroupId m) (λ x, mkMutations x [] []))|]; try done; [intros ->; done|].
  eapply reads_app.
  - apply (reads_messages _ _ x12 2 edge_pb.enc (λ x m, e ← edge_pb.Unmarshal x edge_pb.emptyEdge; Ok (add_set e m)) add_set); [done| |done].
    intros e m' Hin. rewrite (Hedge x12 (MSet m)) by (done || lia). done.
  - rewrite foldl_add_set. simpl.
    assert (∀ m', foldl (λ m x, add_del x m) (mkMutations (GroupId m) (MSet m) []) (MDel m) = m' →
      reads "Mutations" field (mkMutations (GroupId m) (MSet m) []) (enc_messages x1a edge_pb.enc (MDel m)) m') as Hm;
      [intros ? <-|apply Hm; rewrite foldl_add_del; by destruct m].
    apply (reads_messages _ _ x1a 3 edge_pb.enc (λ x m, e ← edge_pb.Unmarshal x edge_pb.emptyEdge; Ok (add_del e m)) add_del); [done| |done].
    intros e m' Hin. rewrite (Hedge x1a (MDel m)) by (done || lia). done.
Qed.
End mutations_pb.

(** ** [Membership] *)
Module membership_pb.
Import groups.
(** The message, with the fields that membership updates do not use. *)
Record message : Type := mkMessage { member : Membership; AmDead : bool; MLastUpdate : Z }.
Definition emptyMessage : message := mkMessage (mkMembership 0 0 [] false) false 0.

Definition Size (m : message) : nat :=
  size_fixed64_field (MId (member m)) + size_varint_field (MGroup (member m)) + size_bytes_field (length (MAddr (member m))) +
  size_bool_field (MLeader (member m)) + size_bool_field (AmDead m) + size_varint_field (MLastUpdate m).

Definition MarshalTo (m : message) (st : wstate) : res wstate :=
  st ← put_fixed64_field x09 (MId (member m)) st;
  st ← put_varint_field x10 (MGroup (member m)) st;
  st ← put_bytes_field x1a (MAddr (member m)) st;
  st ← put_bool_field x20 (MLeader (member m)) st;
  st ← put_bool_field x28 (AmDead m) st;
  put_varint_field x30 (MLastUpdate m) st.

Definition Marshal (m : message) : res (list byte) := marshal_with (Size m) (MarshalTo m).

Definition field : field_reader message := λ fieldNum wireType data iNdEx m,
  let '(mkMessage (mkMembership id group addr leader) dead last) := m in
  if fieldNum =? 1 then Some (
    if negb (wireType =? 1) then Err "proto: wrong wireType = %d for field Id" else
    ' (x, iNdEx) ← read_fixed64 data iNdEx; Ok (mkMessage (mkMembership x group addr leader) dead last, iNdEx))
  else if fieldNum =? 2 then Some (
    if negb (wireType =? 0) then Err "proto: wrong wireType = %d for field Group" else
    ' (x, iNdEx) ← read_varint 32 data iNdEx; Ok (mkMessage (mkMembership id x addr leader) dead last, iNdEx))
  else if fieldNum =? 3 then Some (
    if negb (wireType =? 2) then Err "proto: wrong wireType = %d for field Addr" else
    ' (x, iNdEx) ← read_bytes data iNdEx; Ok (mkMessage (mkMembership id group x leader) dead last, iNdEx))
  else if fieldNum =? 4 then Some (
    if negb (wireType =? 0) then Err "proto: wrong wireType = %d for field Leader" else
    ' (x, iNdEx) ← read_varint 64 data iNdEx; Ok (mkMessage (mkMembership id group addr (negb (x =? 0))) dead last, iNdEx))
  else if fieldNum =? 5 then Some (
    if negb (wireType =? 0) then Err "proto: wrong wireType = %d for field AmDead" else
    ' (x, iNdEx) ← read_varint 64 data iNdEx; Ok (mkMessage (mkMembership id group addr leader) (negb (x =? 0)) last, iNdEx))
  else if fieldNum =? 6 then Some (
    if negb (wireType =? 0) then Err "proto: wrong wireType = %d for field LastUpdate" else
    ' (x, iNdEx) ← read_varint 64 data iNdEx; Ok (mkMessage (mkMembership id group addr leader) dead x, iNdEx))
  else None.

Definition Unmarshal (data : list byte) (m : message) : res message := unmarshal "Membership" field data m.

Definition enc (m : message) : list byte :=
  enc_fixed64 x09 (MId (member m)) ++ enc_varint x10 (MGroup (member m)) ++ enc_bytes x1a (MAddr (member m)) ++
  enc_bool x20 (MLeader (member m)) ++ enc_bool x28 (AmDead m) ++ enc_varint x30 (MLastUpdate m).

Definition wf (m : message) : Prop :=
  is_u64 (MId (member m)) ∧ 0 ≤ MGroup (member m) < 2 ^ 32 ∧ is_u64 (MLastUpdate m) ∧ Z.of_nat (length (MAddr (member m))) < 2 ^ 62.

Lemma membership_writes m : writes (MarshalTo m) (enc m).
Proof.
  unfold MarshalTo, enc.
  repeat (apply writes_bind; [first [apply writes_fixed64_field|apply writes_bytes_field|apply writes_bool_field|apply writes_varint_field]|]).
  apply writes_varint_field.
Qed.

Lemma membership_Size m : wf m → Size m = length (enc m).
Proof.
  intros (Hu & Hg & Hl & ?). unfold is_u64, MaxUint64 in *. unfold Size, enc.
  rewrite !length_app, !length_enc_fixed64, !length_enc_bytes, !length_enc_bool, !length_enc_varint by (unfold two64; lia). lia.
Qed.

Lemma membership_reads m : wf m → reads "Membership" field emptyMessage (enc m) m.
Proof.
  intros (Hu & Hg & Hl & _). destruct m as [[i g a b] d l]. simpl in *. unfold is_u64, MaxUint64 in Hl. unfold enc, enc_bool. simpl.
  eapply reads_app; [apply (reads_fixed64 _ _ x09 1 i (λ x, mkMessage (mkMembership x 0 [] false) false 0))|]; try done; [intros ->; done|].
  eapply reads_app; [apply (reads_varint _ _ x10 2 32 g (λ x, mkMessage (mkMembership i x [] false) false 0))|]; try done; [intros ->; done|].
  eapply reads_app; [apply (reads_bytes _ _ x1a 3 a (λ x, mkMessage (mkMembership i g x false) false 0))|]; try done; [intros ->; done|].
  apply (reads_app _ _ _ _ (mkMessage (mkMembership i g a b) false 0)).
  { replace b with (negb (Z.b2z b =? 0)) at 2 by by destruct b.
    apply (reads_varint _ _ x20 4 64 (Z.b2z b) (λ x, mkMessage (mkMembership i g a (negb (x =? 0))) false 0)); try done; [by destruct b|].
    by destruct b. }
  apply (reads_app _ _ _ _ (mkMessage (mkMembership i g a b) d 0)).
  { replace d with (negb (Z.b2z d =? 0)) at 2 by by destruct d.
    apply (reads_varint _ _ x28 5 64 (Z.b2z d) (λ x, mkMessage (mkMembership i g a b) (negb (x =? 0)) 0)); try done; [by destruct d|].
    by destruct d. }
  apply (reads_varint _ _ x30 6 64 l (λ x, mkMessage (mkMembership i g a b) d x)); try done; [lia|]. intros ->. done.
Qed.
End membership_pb.

(** ** [RaftContext] *)
Module context_pb.
Record RaftContext : Type := mkContext { CId : Z; CGroup : Z; CAddr : list byte }.
Definition emptyContext : RaftContext := mkContext 0 0 [].

Definition Size (m : RaftContext) : nat :=
  size_fixed64_field (CId m) + size_varint_field (CGroup m) + size_bytes_field (length (CAddr m)).

Definition MarshalTo (m : RaftContext) (st : wstate) : res wstate :=
  st ← put_fixed64_field x09 (CId m) st;
  st ← put_varint_field x10 (CGroup m) st;
  put_bytes_field x1a (CAddr m) st.

Definition Marshal (m : RaftContext) : res (list byte) := marshal_with (Size m) (MarshalTo m).

Definition field : field_reader RaftContext := λ fieldNum wireType data iNdEx m,
  let '(mkContext id group addr) := m in
  if fieldNum =? 1 then Some (
    if negb (wireType =? 1) then Err "proto: wrong wireType = %d for field Id" else
    ' (x, iNdEx) ← read_fixed64 data iNdEx; Ok (mkContext x group addr, iNdEx))
  else if fieldNum =? 2 then Some (
    if negb (wireType =? 0) then Err "proto: wrong wireType = %d for field Group" else
    ' (x, iNdEx) ← read_varint 32 data iNdEx; Ok (mkContext id x addr, iNdEx))
  else if fieldNum =? 3 then Some (
    if negb (wireType =? 2) then Err "proto: wrong wireType = %d for field Addr" else
    ' (x, iNdEx) ← read_bytes data iNdEx; Ok (mkContext id group x, iNdEx))
  else None.

Definition Unmarshal (data : list byte) (m : RaftContext) : res RaftContext := unmarshal "RaftContext" field data m.

Definition enc (m : RaftContext) : list byte := enc_fixed64 x09 (CId m) ++ enc_varint x10 (CGroup m) ++ enc_bytes x1a (CAddr m).

Definition wf (m : RaftContext) : Prop := is_u64 (CId m) ∧ 0 ≤ CGroup m < 2 ^ 32 ∧ Z.of_nat (length (CAddr m)) < 2 ^ 62.

Lemma context_Marshal m : wf m → Marshal m = Ok (enc m).
Proof.
  intros (Hu & Hg & ?). unfold Marshal.
  assert (Size m = length (enc m)) as ->.
  { unfold is_u64, MaxUint64 in *. unfold Size, enc.
    rewrite !length_app, !length_enc_fixed64, !length_enc_bytes, !length_enc_varint by (unfold two64; lia). lia. }
  apply marshal_with_writes. apply writes_bind; [apply writes_fixed64_field|].
  apply writes_bind; [apply writes_varint_field|apply writes_bytes_field].
Qed.

Lemma context_reads m : wf m → reads "RaftContext" field emptyContext (enc m) m.
Proof.
  intros (Hu & Hg & _). destruct m as [i g a]. simpl in *. unfold enc. simpl.
  eapply reads_app; [apply (reads_fixed64 _ _ x09 1 i (λ x, mkContext x 0 []))|]; try done; [intros ->; done|].
  eapply reads_app; [apply (reads_varint _ _ x10 2 32 g (λ x, mkContext i x []))|]; try done; [intros ->; done|].
  apply (reads_bytes _ _ x1a 3 a (λ x, mkContext i g x)); try done. intros ->. done.
Qed.

Lemma context_Unmarshal m : wf m → Unmarshal (enc m) emptyContext = Ok m.
Proof.
  intros Hwf. apply reads_unmarshal; [by apply context_reads|]. destruct Hwf as (Hu & Hg & Ha). unfold is_u64, MaxUint64 in *. unfold enc.
  rewrite !length_app, !length_enc_fixed64, !length_enc_bytes, !length_enc_varint by (unfold two64; lia).
  unfold size_fixed64_field, size_varint_field, size_bytes_field. pose proof (sov_le (CGroup m)). pose proof (sov_le (Z.of_nat (length (CAddr m)))).
  destruct (CId m =? 0), (CGroup m =? 0), (length (CAddr m) =? 0)%nat; lia.
Qed.
End context_pb.

(** ** [Proposal] *)
Module proposal_pb.
Import mutation.
Record Proposal : Type := mkProposal { PId : Z; PMutations : option Mutations; PMembership : option membership_pb.message }.
Definition emptyProposal : Proposal := mkProposal 0 None None.

(** [if m.Mutations != nil {...}]. *)
Definition put_optional {A} (tag : byte) (size : A → nat) (marshalTo : A → wstate → res wstate) (o : option A) (st : wstate) : res wstate :=
  match o with Some m => put_message_field tag (size m) (marshalTo m) st | None => Ok st end.
Definition size_optional {A} (size : A → nat) (o : option A) : nat := match o with Some m => size_message_field (size m) | None => 0 end.

Definition Size (m : Proposal) : nat :=
  size_varint_field (PId m) + size_optional mutations_pb.Size (PMutations m) + size_optional membership_pb.Size (PMembership m).

Definition MarshalTo (m : Proposal) (st : wstate) : res wstate :=
  st ← put_varint_field x08 (PId m) st;
  st ← put_optional x12 mutations_pb.Size mutations_pb.MarshalTo (PMutations m) st;
  put_optional x1a membership_pb.Size membership_pb.MarshalTo (PMembership m) st.

Definition Marshal (m : Proposal) : res (list byte) := marshal_with (Size m) (MarshalTo m).

Definition field : field_reader Proposal := λ fieldNum wireType data iNdEx m,
  let '(mkProposal id mu mm) := m in
  if fieldNum =? 1 then Some (
    if negb (wireType =? 0) then Err "proto: wrong wireType = %d for field Id" else
    ' (x, iNdEx) ← read_varint 32 data iNdEx; Ok (mkProposal x mu mm, iNdEx))
  else if fieldNum =? 2 then Some (
    if negb (wireType =? 2) then Err "proto: wrong wireType = %d for field Mutations" else
    ' (x, iNdEx) ← read_bytes data iNdEx;
    m ← (p ← mutations_pb.Unmarshal x (default mutations_pb.emptyMutations mu); Ok (mkProposal id (Some p) mm));
    Ok (m, iNdEx))
  else if fieldNum =? 3 then Some (
    if negb (wireType =? 2) then Err "proto: wrong wireType = %d for field Membership" else
    ' (x, iNdEx) ← read_bytes data iNdEx;
    m ← (p ← membership_pb.Unmarshal x (default membership_pb.emptyMessage mm); Ok (mkProposal id mu (Some p)));
    Ok (m, iNdEx))
  else None.

Definition Unmarshal (data : list byte) (m : Proposal) : res Proposal := unmarshal "Proposal" field data m.

Definition enc_optional {A} (tag : byte) (enc : A → list byte) (o : option A) : list byte :=
  match o with Some m => enc_delim tag (enc m) | None => [] end.

Definition enc (m : Proposal) : list byte :=
  enc_varint x08 (PId m) ++ enc_optional x12 mutations_pb.enc (PMutations m) ++ enc_optional x1a membership_pb.enc (PMembership m).

Definition wf (m : Proposal) : Prop :=
  0 ≤ PId m < 2 ^ 32 ∧ (∀ x, PMutations m = Some x → mutations_pb.wf x) ∧ (∀ x, PMembership m = Some x → membership_pb.wf x) ∧
  Z.of_nat (length (enc m)) < 2 ^ 63.

Lemma writes_optional {A} tag (size : A → nat) marshalTo encA o :
  (∀ x, o = Some x → size x = length (encA x) ∧ writes (marshalTo x) (encA x)) →
  writes (put_optional tag size marshalTo o) (enc_optional tag encA o).
Proof.
  intros Ho. destruct o as [x|]; [|apply writes_nil]. destruct (Ho x eq_refl) as [Hs Hw]. unfold put_optional. rewrite Hs.
  by apply writes_message_field.
Qed.

Lemma length_optional {A} tag (size : A → nat) (encA : A → list byte) o :
  (∀ x, o = Some x → size x = length (encA x)) → Z.of_nat (length (enc_optional tag encA o)) < 2 ^ 63 →
  length (enc_optional tag encA o) = size_optional size o.
Proof.
  intros Ho Hl. destruct o as [x|]; [|done]. unfold enc_optional, size_optional in *. rewrite (Ho x eq_refl). apply length_enc_delim.
  unfold enc_delim in Hl. cbn [length] in Hl. rewrite length_app in Hl. unfold two64. lia.
Qed.

Lemma optional_bound {A} tag (encA : A → list byte) x :
  Z.of_nat (length (enc_optional tag encA (Some x))) < 2 ^ 63 → Z.of_nat (length (encA x)) < 2 ^ 63.
Proof. unfold enc_optional, enc_delim. cbn [length]. rewrite length_app. lia. Qed.

Lemma proposal_Marshal m : wf m → Marshal m = Ok (enc m).
Proof.
  intros (Hid & Hmu & Hmm & Hl). unfold Marshal.
  assert (Size m = length (enc m)) as ->.
  { unfold enc in *. rewrite !length_app in *. rewrite length_enc_varint by (unfold two64; lia).
    rewrite !(length_optional _ mutations_pb.Size), !(length_optional _ membership_pb.Size); [unfold Size; lia|..].
    - intros x Hx. by apply membership_pb.membership_Size, Hmm.
    - lia.
    - intros x Hx. by apply mutations_pb.mutations_Size, Hmu.
    - lia. }
  apply marshal_with_writes. apply writes_bind; [apply writes_varint_field|]. apply writes_bind; apply writes_optional.
  - intros x Hx. split; [by apply mutations_pb.mutations_Size, Hmu|by apply mutations_pb.mutations_writes, Hmu].
  - intros x Hx. split; [by apply membership_pb.membership_Size, Hmm|apply membership_pb.membership_writes].
Qed.

Lemma proposal_Unmarshal m : wf m → Unmarshal (enc m) emptyProposal = Ok m.
Proof.
  intros (Hid & Hmu & Hmm & Hl). apply reads_unmarshal; [|done]. unfold enc in *. rewrite !length_app in Hl.
  destruct m as [i mu mm]. cbn [PId PMutations PMembership] in *.
  eapply reads_app; [apply (reads_varint _ _ x08 1 32 i (λ x, mkProposal x None None))|]; try done; [intros ->; done|].
  apply (reads_app _ _ _ _ (mkProposal i mu None)).
  - destruct mu as [x|]; [|constructor].
    apply (reads_delim _ _ x12 2 (mutations_pb.enc x)
      (λ d, p ← mutations_pb.Unmarshal d mutations_pb.emptyMutations; Ok (mkProposal i (Some p) None))); [done| |done].
    by rewrite mutations_pb.mutations_Unmarshal by by apply Hmu.
  - destruct mm as [x|]; [|constructor].
    apply (reads_delim _ _ x1a 3 (membership_pb.enc x)
      (λ d, p ← membership_pb.Unmarshal d membership_pb.emptyMessage; Ok (mkProposal i mu (Some p)))); [done| |done].
    unfold membership_pb.Unmarshal. rewrite (reads_unmarshal _ _ _ _ x); [done|by apply membership_pb.membership_reads, Hmm|].
    apply (optional_bound x1a). lia.
Qed.
End proposal_pb.
