(* ===== verification/Draft.v ===== *)
(** The Raft node of a group ([worker/draft.go]): what it does with the batches
    the Raft library hands it, proposals and their answers, restarting from the
    write-ahead log, and the messages between nodes.

    The library (etcd's raft) is a parameter: [RaftLib] is what the node uses of
    its entries, messages and storage. A goroutine that only waits for another
    one is a call. *)
From S2P Require Import Prelude Bytes Proto Store Keys Task PostingPb PostingList PostingIter Tokens Types Geo Lex Schema Group Raftwal Index Mutation Predicate Groups TaskPb.
From stdpp Require Import options.
#[local] Open Scope Z_scope.
#[local] Set Default Proof Using "Type*".

Class RaftLib (Entry Snapshot HardState Message Storage : Type) `{!RaftPb Entry Snapshot HardState} : Type := {
  (** [e.Data], nil as [None]; [e.Type] *)
  Data : Entry → option (list byte);
  EntryConfChange : Entry → bool;
  EntryNormal : Entry → bool;
  (** [cc.Unmarshal(e.Data)], then [cc.Context] *)
  conf_Context : list byte → list byte;
  (** [raftpb.Message] *)
  To : Message → Z;
  From : Message → Z;
  Context_ : Message → list byte;
  set_Context : list byte → Message → Message;
  msg_Marshal : Message → res (list byte);
  msg_Unmarshal : list byte → res Message;
  (** [s.Metadata] *)
  snap_Index : Snapshot → Z;
  snap_Term : Snapshot → Z;
  (** [raft.MemoryStorage] *)
  LastIndex : Storage → res Z;
  ApplySnapshot : Snapshot → Storage → res Storage;
  SetHardState : HardState → Storage → res Storage;
  Append : list Entry → Storage → res Storage;
}.

Module draft.
Import mutation predicate groups context_pb proposal_pb.

Section node.
Context {Entry Snapshot HardState Message Storage : Type} `{RaftLib Entry Snapshot HardState Message Storage}.
Context {W : Type} `{KVStore W}.
Context {St : Type} `{KVStore St} `{index.IndexLib} `{index.Farm}.
Context (sch : schema.tables) (now : Z) (conf : group.config) (local : gset Z).
Notation world := (index.world St).

(** [peers] are addresses by id, [props] the channels that wait for a proposal;
    [replies] what was sent on the channels, [messages] the queue to the peers. *)
Record node : Type := mkNode {
  id : Z;
  gid : Z;
  myAddr : list byte;
  peers : gmap Z (list byte);
  props : gmap Z Z;
  replies : list (Z * option string);
  messages : list (Z * list byte);
  store : Storage;
  wal : W;
  lists : world;
  members : groupi;
}.
Implicit Types (n : node).

Definition set_peers (v : gmap Z (list byte)) n : node :=
  mkNode (id n) (gid n) (myAddr n) v (props n) (replies n) (messages n) (store n) (wal n) (lists n) (members n).
Definition set_props (v : gmap Z Z) (r : list (Z * option string)) n : node :=
  mkNode (id n) (gid n) (myAddr n) (peers n) v r (messages n) (store n) (wal n) (lists n) (members n).
Definition set_messages (v : list (Z * list byte)) n : node :=
  mkNode (id n) (gid n) (myAddr n) (peers n) (props n) (replies n) v (store n) (wal n) (lists n) (members n).
Definition set_store (v : Storage) n : node :=
  mkNode (id n) (gid n) (myAddr n) (peers n) (props n) (replies n) (messages n) v (wal n) (lists n) (members n).
Definition set_wal (v : W) n : node :=
  mkNode (id n) (gid n) (myAddr n) (peers n) (props n) (replies n) (messages n) (store n) v (lists n) (members n).
Definition set_lists (v : world) n : node :=
  mkNode (id n) (gid n) (myAddr n) (peers n) (props n) (replies n) (messages n) (store n) (wal n) v (members n).
Definition set_members (v : groupi) n : node :=
  mkNode (id n) (gid n) (myAddr n) (peers n) (props n) (replies n) (messages n) (store n) (wal n) (lists n) v.

(** A node that has just been made, over the server's log, lists and groups. *)
Definition newNode (gid id : Z) (myAddr : list byte) (store : Storage) (wal : W) (lists : world) (members : groupi) : node :=
  mkNode id gid myAddr ∅ ∅ [] [] store wal lists members.

(** ** Proposals *)
Definition Store (pid ch : Z) n : res node :=
  assert_true (bool_decide (props n !! pid = None)) "Same proposal is being stored again.";;
  Ok (set_props (<[pid := ch]> (props n)) (replies n) n).

Definition Done (pid : Z) (err : option string) n : node :=
  match props n !! pid with
  | None => n
  | Some ch => set_props (delete pid (props n)) (replies n ++ [(ch, err)]) n
  end.

(** [ProposeAndWait] up to the wait: [pid] is the random id, [ch] the channel
    made for it, [Propose] the library's answer. *)
Definition ProposeAndWait (pid ch : Z) (Propose : list byte → option string) (mu : option Mutations) (mm : option membership_pb.message) n :
    res (node * res (list byte)) :=
  match proposal_pb.Marshal (mkProposal pid mu mm) with
  | Crash m => Crash m
  | Err e => Ok (n, Err e)
  | Ok proposalData =>
      n ← Store pid ch n;
      match Propose proposalData with
      | Some e => Ok (n, Err e)
      | None => Ok (n, Ok proposalData)
      end
  end.

Definition Connect (pid : Z) (addr : list byte) n : node :=
  if pid =? id n then n
  else if bool_decide (default [] (peers n !! pid) = addr) then n
  else set_peers (<[pid := addr]> (peers n)) n.

(** ** Committed entries *)
Definition processMutation (m : Mutations) n : res (node * option string) :=
  ' (w, err) ← mutate sch now conf local m (lists n);
  Ok (set_lists w n, err).

Definition processMembership (e : Entry) (mm : Membership) n : res (node * option string) :=
  assert_true (gid n =? 0) "Assert failed";;
  g ← applyMembershipUpdate (Index e) mm (members n);
  Ok (set_members g n, None).

Definition process (e : Entry) n : res (node * option string) :=
  match Data e with
  | None => Ok (n, None)
  | Some data =>
      if EntryConfChange e then
        let ctx := conf_Context data in
        n ← (if (0 <? length ctx)%nat then
               rc ← x_Check (context_pb.Unmarshal ctx emptyContext); Ok (Connect (CId rc) (CAddr rc) n)
             else Ok n : res node);
        Ok (n, None)
      else if EntryNormal e then
        match proposal_pb.Unmarshal data emptyProposal with
        | Crash m => Crash m
        | Err err => Ok (n, Some err)
        | Ok proposal =>
            ' (n, err) ← (match PMutations proposal, PMembership proposal with
                          | Some m, _ => processMutation m n
                          | None, Some mm => processMembership e (membership_pb.member mm) n
                          | None, None => Ok (n, None)
                          end : res (node * option string));
            Ok (Done (PId proposal) err n, None)
        end
      else Ok (n, None)
  end.

Fixpoint process_all (es : list Entry) n : res node :=
  match es with
  | [] => Ok n
  | e :: es =>
      ' (n, err) ← process e n;
      match err with
      | Some m => Crash m
      | None => process_all es n
      end
  end.

(** ** A batch of the library *)
Record Ready : Type := mkReady {
  RSnapshot : Snapshot;
  RHardState : HardState;
  REntries : list Entry;
  RMessages : list Message;
  CommittedEntries : list Entry;
}.

Definition fatal {A} (m : res A) : res A := x_Check m.

(** The errors of [SetHardState] and [Append] are dropped. *)
Definition or_same (m : res Storage) (old : Storage) : res Storage :=
  match m with
  | Err _ => Ok old
  | r => r
  end.

Definition saveToStorage (s : Snapshot) (h : HardState) (es : list Entry) (old : Storage) : res Storage :=
  ' (st, stale) ← (if negb (IsEmptySnap s) then
                     le ← fatal (LastIndex old);
                     if snap_Index s <=? le then Ok (old, true)
                     else st ← fatal (ApplySnapshot s old); Ok (st, false)
                   else Ok (old, false) : res (Storage * bool));
  if (stale : bool) then Ok st
  else
    st ← (if negb (IsEmptyHardState h) then or_same (SetHardState h st) st else Ok st : res Storage);
    or_same (Append es st) st.

(** The queue of messages holds 1000. *)
Definition send (m : Message) n : res node :=
  assert_true (negb (id n =? To m)) "Seding message to itself";;
  data ← x_Check (msg_Marshal m);
  if (length (messages n) <? 1000)%nat then Ok (set_messages (messages n ++ [(To m, data)]) n)
  else Crash "Unable to push messages to channel in send".

Fixpoint send_all (rcBytes : res (list byte)) (ms : list Message) n : res node :=
  match ms with
  | [] => Ok n
  | m :: ms =>
      ctx ← x_Check rcBytes;
      n ← send (set_Context ctx m) n;
      send_all rcBytes ms n
  end.

(** [lead] is the leader by the library's status, [call] the stream of the server
    at an address. *)
Definition processSnapshot (lead : Z) (call : list byte → GroupKeys → list KV * option string) n : res node :=
  if lead =? 0 then Ok n
  else
    let addr := default [] (peers n !! lead) in
    assert_true (negb (bool_decide (addr = []))) "Should have the leader address: %v";;
    ' (s, r) ← populateShard 0 (call addr) (index.store (lists n));
    _ ← x_Check r;
    Ok (set_lists (index.mkWorld s (index.lists (lists n)) (index.tables (lists n)) (index.dirtyChan (lists n))) n).

Definition handle_ready (lead : Z) (call : list byte → GroupKeys → list KV * option string) (rd : Ready) n : res node :=
  w ← x_Check (raftwal.Store_ (wal n) (id n) (gid n) (RSnapshot rd) (RHardState rd) (REntries rd));
  st ← saveToStorage (RSnapshot rd) (RHardState rd) (REntries rd) (store n);
  let n := set_store st (set_wal w n) in
  n ← send_all (context_pb.Marshal (mkContext (id n) (gid n) (myAddr n))) (RMessages rd) n;
  n ← (if negb (IsEmptySnap (RSnapshot rd)) then processSnapshot lead call n else Ok n : res node);
  process_all (CommittedEntries rd) n.

(** [Run] takes the batches of the library one by one; before each of them
    [batchAndSendMessages] has taken some messages off the queue. *)
Fixpoint run (lead : Z) (call : list byte → GroupKeys → list KV * option string) (evs : list (nat * Ready)) n : res node :=
  match evs with
  | [] => Ok n
  | (taken, rd) :: evs =>
      n ← handle_ready lead call rd (set_messages (drop taken (messages n)) n);
      run lead call evs n
  end.

(** ** Restarting *)
Definition initFromWal (n : node) : res (bool * list Entry * node) :=
  sp ← raftwal.Snapshot_ (wal n) (id n) (gid n);
  ' (restart, st, term, idx) ←
    (if negb (IsEmptySnap sp) then st ← ApplySnapshot sp (store n); Ok (true, st, snap_Term sp, snap_Index sp)
     else Ok (false, store n, 0, 0) : res (bool * Storage * Z * Z));
  hd ← raftwal.HardState_ (wal n) (id n) (gid n);
  ' (restart, st) ← (if negb (IsEmptyHardState hd) then st ← SetHardState hd st; Ok (true, st) else Ok (restart, st) : res (bool * Storage));
  es ← raftwal.Entries (wal n) (id n) (gid n) term idx;
  let restart := if (0 <? length es)%nat then true else restart in
  st ← Append es st;
  Ok (restart, es, set_store st n).
End node.

(** ** Messages between nodes *)
Section transport.
Context {Entry Snapshot HardState Message Storage : Type} `{RaftLib Entry Snapshot HardState Message Storage}.
Context {W : Type} {St : Type}.
Notation node := (node (Storage := Storage) (W := W) (St := St)).

(** [batchAndSendMessages] collects a buffer per receiver, and sends those with
    something in them on a tick; [order] is the order of ranging over the map. *)
Definition add_to_batch (batches : gmap Z (list byte)) (sm : Z * list byte) : gmap Z (list byte) :=
  <[sm.1 := default [] (batches !! sm.1) ++ le_put 4 (Z.of_nat (length sm.2)) ++ sm.2]> batches.

Definition tick (order : gmap Z (list byte) → list (Z * list byte)) (batches : gmap Z (list byte)) :
    list (Z * list byte) * gmap Z (list byte) :=
  (filter (λ b, b.2 ≠ []) (order batches), (λ _, []) <$> batches).

(** [answer] is what comes first, the end of the context or the answer of [Step];
    the second component is the messages that were stepped. *)
Definition applyMessage (answer : Message → option string) (msg : Message) (nodes : gmap Z node) :
    res (gmap Z node * list (Z * Message) * option string) :=
  rc ← x_Check (context_pb.Unmarshal (Context_ msg) emptyContext);
  match nodes !! CGroup rc with
  | None => Crash "nil pointer dereference"
  | Some n => Ok (<[CGroup rc := Connect (From msg) (CAddr rc) n]> nodes, [(CGroup rc, msg)], answer msg)
  end.

(** [spare] is what lies between the length and the capacity of the data: a slice
    may reach into it. *)
Fixpoint RaftMessage_loop (fuel : nat) (answer : Message → option string) (data spare : list byte) (idx : Z) (nodes : gmap Z node)
    (stepped : list (Z * Message)) : res (gmap Z node * list (Z * Message) * option string) :=
  match fuel with
  | O => Crash out_of_fuel
  | S fuel =>
      if idx <? Z.of_nat (length data) then
        hd ← slice (data ++ spare) idx (idx + 4);
        let sz := le_get hd in
        let idx := idx + 4 in
        if Z.of_nat (length data) <? idx + sz - 1 then Ok (nodes, stepped, Some "Invalid query. Size specified: %v. Size of array: %v")
        else
          body ← slice (data ++ spare) idx (idx + sz);
          msg ← x_Check (msg_Unmarshal body);
          ' (nodes, one, err) ← applyMessage answer msg nodes;
          match err with
          | Some e => Ok (nodes, stepped ++ one, Some e)
          | None => RaftMessage_loop fuel answer data spare (idx + sz) nodes (stepped ++ one)
          end
      else Ok (nodes, stepped, None)
  end.

Definition RaftMessage (ctxErr : option string) (answer : Message → option string) (data spare : list byte) (nodes : gmap Z node) :
    res (gmap Z node * list (Z * Message) * option string) :=
  match ctxErr with
  | Some e => Ok (nodes, [], Some e)
  | None => RaftMessage_loop (S (length data)) answer data spare 0 nodes []
  end.

(** [propose] is the answer to the change of the configuration that adds a node,
    with its context. *)
Definition AddToCluster (propose : Z → list byte → option string) (pid : Z) (n : node) : res (option string) :=
  let addr := default [] (peers n !! pid) in
  assert_true (negb (bool_decide (addr = []))) "Unable to find conn pool for peer: %d";;
  rcBytes ← x_Check (context_pb.Marshal (mkContext pid (gid n) addr));
  Ok (propose pid rcBytes).

(** [late] is the error of a context that ends before the answer is there. *)
Definition JoinCluster (ctxErr late : option string) (propose : Z → list byte → option string) (rc : RaftContext) (nodes : gmap Z node) :
    res (gmap Z node * option string) :=
  match ctxErr with
  | Some e => Ok (nodes, Some e)
  | None =>
      match nodes !! CGroup rc with
      | None => Ok (nodes, None)
      | Some n =>
          let n := Connect (CId rc) (CAddr rc) n in
          err ← AddToCluster propose (CId rc) n;
          Ok (<[CGroup rc := n]> nodes, match late with Some e => Some e | None => err end)
      end
  end.
End transport.

(** ** The log of a group *)
Section log.
Context {Entry Snapshot HardState Message Storage : Type} `{RaftLib Entry Snapshot HardState Message Storage}.
Context {W : Type} `{KVStore W}.
Context {St : Type} `{KVStore St} `{index.IndexLib} `{index.Farm}.
Context (sch : schema.tables) (now : Z) (Hnow : now ≠ 0) (conf : group.config) (Hconf : u32 (group.n conf) ≠ 0) (local : gset Z).
Notation node := (node (Storage := Storage) (W := W) (St := St)).
Implicit Types (n : node) (g : graph) (P : list byte → Prop).

(** The entry of a proposal. *)
Definition carries (e : Entry) (p : Proposal) : Prop :=
  EntryConfChange e = false ∧ EntryNormal e = true ∧ ∃ data, proposal_pb.Marshal p = Ok data ∧ Data e = Some data.

(** An update that a client may send, to a group that is served here. *)
Definition update_ok (m : Mutations) : Prop :=
  Forall (index.edge_valid sch) (MSet m) ∧ Forall (index.edge_valid sch) (MDel m) ∧ all_served conf local (ops_of m) = true.

(** An entry of the log: a proposed update, or the empty entry of a new leader. *)
Definition logged (e : Entry) (o : option Mutations) : Prop :=
  match o with
  | None => Data e = None
  | Some m => update_ok m ∧ ∃ pid, proposal_pb.wf (mkProposal pid (Some m) None) ∧ carries e (mkProposal pid (Some m) None)
  end.
Definition log_ops (os : list (option Mutations)) : list (DirectedEdge * Z) := os ≫= λ o, match o with Some m => ops_of m | None => [] end.

(** What processing entries leaves alone. *)
Definition same_base n n' : Prop := id n' = id n ∧ gid n' = gid n ∧ wal n' = wal n ∧ store n' = store n ∧ messages n' = messages n ∧ myAddr n' = myAddr n.

Lemma same_base_trans n1 n2 n3 : same_base n1 n2 → same_base n2 n3 → same_base n1 n3.
Proof using. intros (? & ? & ? & ? & ? & ?) (? & ? & ? & ? & ? & ?). split_and!; congruence. Qed.

Lemma Done_base pid err n : same_base n (Done pid err n) ∧ lists (Done pid err n) = lists n.
Proof using. unfold Done, same_base. by destruct (props n !! pid). Qed.

Lemma process_logged P g n e o :
  serves sch P g (lists n) → logged e o →
  ∃ n', process sch now conf local e n = Ok (n', None) ∧ same_base n n' ∧ serves sch P (apply (log_ops [o]) g) (lists n').
Proof.
  intros Hs Hlog. unfold process. destruct o as [m|]; simpl in Hlog.
  - destruct Hlog as ((Hset & Hdel & Hall) & pid & Hwf & Hcc & Hn & data & Hm & ->). rewrite Hcc, Hn.
    rewrite proposal_pb.proposal_Marshal in Hm by done. apply Ok_inj in Hm as <-. rewrite proposal_pb.proposal_Unmarshal by done.
    cbn [PMutations PMembership PId]. unfold processMutation.
    destruct (mutate_spec sch now Hnow conf Hconf local P g (lists n) m) as (w & -> & Hw); [done..|]. cbn [mbind res_bind].
    unfold outcome. rewrite Hall. destruct (Done_base pid None (set_lists w n)) as [Hb Hl].
    eexists. split; [done|]. split; [done|]. rewrite Hl. cbn [lists set_lists]. rewrite served_all in Hw by done.
    unfold log_ops. simpl. by rewrite app_nil_r.
  - rewrite Hlog. exists n. done.
Qed.

Lemma process_log P g n es os :
  serves sch P g (lists n) → Forall2 logged es os →
  ∃ n', process_all sch now conf local es n = Ok n' ∧ same_base n n' ∧ serves sch P (apply (log_ops os) g) (lists n').
Proof.
  intros Hs Hlog. revert g n Hs. induction Hlog as [|e o es os Ho _ IH]; intros g n Hs; [by exists n|].
  cbn [process_all]. destruct (process_logged P g n e o) as (n1 & -> & Hb & Hs1); [done..|]. cbn [mbind res_bind].
  destruct (IH _ n1 Hs1) as (n' & -> & Hb' & Hs'). exists n'. split; [done|]. split; [by eapply same_base_trans|].
  change (log_ops (o :: os)) with ((match o with Some m => ops_of m | None => [] end) ++ log_ops os). rewrite apply_app.
  unfold log_ops in Hs' at 2. simpl in Hs'. by rewrite app_nil_r in Hs'.
Qed.
End log.

(** ** Crash and restart *)
Section recovery.
Context {Entry Snapshot HardState Message Storage : Type} {pb : RaftPb Entry Snapshot HardState} {spec : RaftPbSpec pb}.
Context `{!RaftLib Entry Snapshot HardState Message Storage}.
Context {W : Type} `{KVSpec W view}.
Context {St : Type} `{KVStore St} `{index.IndexLib} `{index.Farm}.
Context (sch : schema.tables) (now : Z) (Hnow : now ≠ 0) (conf : group.config) (Hconf : u32 (group.n conf) ≠ 0) (local : gset Z).
Notation node := (node (Storage := Storage) (W := W) (St := St)).
Implicit Types (n : node) (g : graph) (P : list byte → Prop).
Notation Ready := (Ready (Entry := Entry) (Snapshot := Snapshot) (HardState := HardState) (Message := Message)).
Implicit Types (rd : Ready).

(** What the node relies on in the library: bytes that were never written decode
    to the empty messages, and the storage takes entries that follow its last. *)
Context (last : Storage → Z).
Fixpoint contiguous (i : Z) (es : list Entry) : Prop :=
  match es with
  | [] => True
  | e :: es => Index e = i + 1 ∧ contiguous (i + 1) es
  end.
Context (Hsnap : ∃ sn, snap_Unmarshal [] = Ok sn ∧ IsEmptySnap sn = true) (Hhard : ∃ h, hard_Unmarshal [] = Ok h).
Context (HSetHardState : ∀ h st, ∃ st', SetHardState h st = Ok st' ∧ last st' = last st).
Context (HAppend : ∀ es st, contiguous (last st) es → ∃ st', Append es st = Ok st' ∧ last st' = last st + Z.of_nat (length es)).

Lemma contiguous_app i es es' : contiguous i (es ++ es') ↔ contiguous i es ∧ contiguous (i + Z.of_nat (length es)) es'.
Proof using.
  revert i. induction es as [|e es IH]; intros i; simpl.
  - rewrite Z.add_0_r. tauto.
  - rewrite IH. replace (i + 1 + Z.of_nat (length es)) with (i + Z.of_nat (S (length es))) by lia. tauto.
Qed.

Lemma contiguous_after i es e : contiguous i es → e ∈ es → i < Index e.
Proof using.
  revert i. induction es as [|x es IH]; intros i; [by intros _ ?%elem_of_nil|]. intros [Hx Hes] [->|He]%elem_of_cons; [lia|].
  specialize (IH (i + 1) Hes He). lia.
Qed.

(** Terms never go down along a log. *)
Definition log_ok (es : list Entry) : Prop :=
  contiguous 0 es ∧ StronglySorted (λ a b, Term a ≤ Term b) es ∧ raftwal.index_ok es.

Lemma log_ascending i es : contiguous i es → StronglySorted (λ a b, Term a ≤ Term b) es → raftwal.ascending es.
Proof using.
  revert i. induction es as [|e es IH]; intros i Hc Ht; [constructor|]. destruct Hc as [He Hc].
  apply StronglySorted_inv in Ht as [Ht Hle]. constructor; [by eapply IH|]. apply Forall_forall. intros e' He'.
  pose proof (contiguous_after _ _ _ Hc He'). rewrite Forall_forall in Hle. specialize (Hle e' He').
  unfold raftwal.pos_lt, raftwal.pos_compare, raftwal.epos. simpl. destruct (Z.compare_spec (Term e) (Term e')); [apply Z.compare_lt_iff; lia|done|lia].
Qed.

(** Where the log of a node stands. *)
Record wal_at (n : node) (old : list Entry) : Prop := {
  wa_ok : raftwal.wal_ok (id n) (gid n) (view (wal n));
  wa_entries : raftwal.Entries (wal n) (id n) (gid n) 0 0 = Ok old;
  wa_snapshot : view (wal n) !! raftwal.snapshotKey (id n) (gid n) = None;
  wa_hard : ∀ d, view (wal n) !! raftwal.hardStateKey (id n) (gid n) = Some d → ∃ h, d = hard_enc h;
  wa_last : last (store n) = Z.of_nat (length old);
}.

Lemma scan_prefix_has (s : W) start p kv : kv ∈ scan_prefix s start p → HasPrefix kv.1 p = true.
Proof using.
  unfold scan_prefix. generalize (kv_scan s start). intros l. induction l as [|x l IH]; [by intros ?%elem_of_nil|]. simpl.
  destruct (HasPrefix x.1 p) eqn:Hx; [|by intros ?%elem_of_nil]. by intros [->|?]%elem_of_cons; [|apply IH].
Qed.

(** What a write without a snapshot does to the rest of the log's keys. *)
Lemma Store_meta i gd s sn h es s' :
  is_u64 i → raftwal.small_gid gd → raftwal.index_ok es → IsEmptySnap sn = true → raftwal.Store_ s i gd sn h es = Ok s' →
  view s' !! raftwal.snapshotKey i gd = view s !! raftwal.snapshotKey i gd ∧
  view s' !! raftwal.hardStateKey i gd = if IsEmptyHardState h then view s !! raftwal.hardStateKey i gd else Some (hard_enc h).
Proof.
  intros Hi Hg Hix Hsn. unfold raftwal.Store_. rewrite Hsn, hard_Marshal_ok. cbn [wrapf mbind res_bind].
  set (meta := if IsEmptyHardState h then [] else [BPut (raftwal.hardStateKey i gd) (hard_enc h)]).
  assert ((if IsEmptyHardState h then Ok [] else Ok ([] ++ [BPut (raftwal.hardStateKey i gd) (hard_enc h)])) = Ok meta) as ->
    by (unfold meta; by destruct (IsEmptyHardState h)).
  cbn [mbind res_bind]. rewrite raftwal.put_entries_spec. cbn [mbind res_bind].
  assert (∀ k, raftwal.meta_key i gd k → ∀ start,
    batch_view ((meta ++ raftwal.puts i gd es) ++ (BDelete <$> (scan_prefix s start (raftwal.prefix i gd)).*1)) (view s) !! k =
      batch_view meta (view s) !! k ∧
    batch_view (meta ++ raftwal.puts i gd es) (view s) !! k = batch_view meta (view s) !! k) as Hk.
  { intros k Hk start. rewrite !raftwal.batch_view_app, raftwal.batch_view_deletes, decide_False.
    - by rewrite raftwal.puts_other by (intros e _; by apply raftwal.meta_not_entry).
    - intros (kv & -> & Hkv)%list_elem_of_fmap. assert (HasPrefix kv.1 (raftwal.prefix i gd) = true) as Hp.
      { by eapply scan_prefix_has. }
      rewrite (raftwal.meta_outside i gd gd) in Hp; [done|done| |done|done]. unfold raftwal.small_gid in Hg. lia. }
  intros Hst. set (t := (from_option raftwal.epos (0, 0) (list.last es)).1) in *. set (j := (from_option raftwal.epos (0, 0) (list.last es)).2) in *.
  assert (∀ k, raftwal.meta_key i gd k → view s' !! k = batch_view meta (view s) !! k) as Hv.
  { intros k Hmk. destruct (Hk k Hmk (raftwal.entryKey i gd t (u64 (j + 1)))) as [H1' H2'].
    destruct ((0 <? t) || (0 <? j)).
    - destruct (kv_write_view s ((meta ++ raftwal.puts i gd es) ++ (BDelete <$> (scan_prefix s (raftwal.entryKey i gd t (u64 (j + 1))) (raftwal.prefix i gd)).*1))) as (s1 & Hw & Hv).
      rewrite Hw in Hst. cbn [wrapf] in Hst. apply Ok_inj in Hst as <-. by rewrite Hv.
    - destruct (kv_write_view s (meta ++ raftwal.puts i gd es)) as (s1 & Hw & Hv).
      rewrite Hw in Hst. cbn [wrapf] in Hst. apply Ok_inj in Hst as <-. by rewrite Hv. }
  assert (raftwal.hardStateKey i gd ≠ raftwal.snapshotKey i gd) as Hne.
  { intros Heq. rewrite raftwal.hardStateKey_app, raftwal.snapshotKey_app in Heq. apply (inj (app _)) in Heq. done. }
  split.
  - rewrite Hv by by left. unfold meta. destruct (IsEmptyHardState h); [done|]. by apply lookup_insert_ne.
  - rewrite Hv by by right. unfold meta. destruct (IsEmptyHardState h); [done|]. apply lookup_insert_eq.
Qed.

(** The queue never overflows. *)
Fixpoint fits (q : nat) (evs : list (nat * Ready)) : Prop :=
  match evs with
  | [] => True
  | (taken, rd) :: evs => let q := (q - taken + length (RMessages rd))%nat in (q ≤ 1000)%nat ∧ fits q evs
  end.

(** A batch without a snapshot, with messages for other nodes. *)
Definition ready_ok (self : Z) rd : Prop :=
  IsEmptySnap (RSnapshot rd) = true ∧
  Forall (λ m, ∀ c, To (set_Context c m) ≠ self ∧ ∃ d, msg_Marshal (set_Context c m) = Ok d) (RMessages rd).

Definition appended (evs : list (nat * Ready)) : list Entry := evs ≫= λ ev, REntries ev.2.
Definition committed (evs : list (nat * Ready)) : list Entry := evs ≫= λ ev, CommittedEntries ev.2.

Lemma send_all_spec ctx ms n :
  Forall (λ m, ∀ c, To (set_Context c m) ≠ id n ∧ ∃ d, msg_Marshal (set_Context c m) = Ok d) ms →
  (length (messages n) + length ms ≤ 1000)%nat →
  ∃ q, send_all (Ok ctx) ms n = Ok (set_messages q n) ∧ length q = (length (messages n) + length ms)%nat.
Proof using.
  intros Hms. revert n Hms. induction ms as [|m ms IH]; intros n Hms Hlen.
  { exists (messages n). split; [by destruct n|simpl; lia]. }
  apply Forall_cons in Hms as [Hm Hms]. destruct (Hm ctx) as (Hto & d & Hd). cbn [send_all x_Check mbind res_bind]. unfold send.
  rewrite (proj2 (Z.eqb_neq _ _)) by congruence. simpl assert_true. cbn [mbind res_bind]. rewrite Hd. cbn [x_Check mbind res_bind].
  simpl in Hlen. rewrite (proj2 (Nat.ltb_lt _ _)) by lia. cbn [mbind res_bind].
  destruct (IH (set_messages (messages n ++ [(To (set_Context ctx m), d)]) n)) as (q & Hq & Hql).
  - exact Hms.
  - cbn [messages set_messages]. rewrite length_app. simpl. lia.
  - exists q. rewrite Hq. split; [by destruct n|]. rewrite Hql. cbn [messages set_messages]. rewrite length_app. simpl. lia.
Qed.

Lemma serves_same P g g' w : (∀ u a, g u a = g' u a) → serves sch P g w → serves sch P g' w.
Proof using. intros Hg (Hw & Hex & Hs). split_and!; [done..|]. intros u a Hu Ha HP. by rewrite <-Hg, Hs. Qed.

Lemma saveToStorage_spec sn h es st :
  IsEmptySnap sn = true → contiguous (last st) es →
  ∃ st', saveToStorage sn h es st = Ok st' ∧ last st' = last st + Z.of_nat (length es).
Proof.
  intros Hsn Hc. unfold saveToStorage. rewrite Hsn. cbn [negb mbind res_bind].
  destruct (HSetHardState h st) as (st1 & Hh & Hl). destruct (IsEmptyHardState h); cbn [negb mbind res_bind].
  - destruct (HAppend es st Hc) as (st2 & -> & Hl2). by exists st2.
  - rewrite Hh. cbn [or_same mbind res_bind]. rewrite <-Hl in Hc. destruct (HAppend es st1 Hc) as (st2 & -> & Hl2).
    exists st2. split; [done|lia].
Qed.

Definition self_ok n : Prop := raftwal.small_gid (gid n) ∧ context_pb.wf (mkContext (id n) (gid n) (myAddr n)).

Lemma log_after old es : log_ok (old ++ es) →
  contiguous (Z.of_nat (length old)) es ∧ raftwal.ascending es ∧ raftwal.index_ok es ∧
  ∀ a b, a ∈ old → b ∈ es → raftwal.pos_lt (raftwal.epos a) (raftwal.epos b).
Proof using.
  intros (Hc & Ht & Hix). pose proof (log_ascending _ _ Hc Ht) as Hasc. apply contiguous_app in Hc as [_ Hc].
  apply StronglySorted_app in Hasc as (Hab & _ & Hasc). apply Forall_app in Hix as [_ Hix]. split_and!; done.
Qed.

Lemma wal_step n old sn h es s' :
  self_ok n → wal_at n old → log_ok (old ++ es) → IsEmptySnap sn = true →
  raftwal.Store_ (wal n) (id n) (gid n) sn h es = Ok s' →
  ∀ n', id n' = id n → gid n' = gid n → wal n' = s' → last (store n') = Z.of_nat (length (old ++ es)) → wal_at n' (old ++ es).
Proof.
  intros (Hg & Hi & _) [Hok Hes Hsp Hh Hl] Hlog Hsn Hst n' Hid Hgid Hw Hl'. destruct (log_after old es Hlog) as (Hc & Hasc & Hix & Hab). simpl in Hi.
  destruct (Store_meta _ _ _ _ _ _ _ Hi Hg Hix Hsn Hst) as [Hm1 Hm2]. split; rewrite ?Hid, ?Hgid, ?Hw.
  - by eapply raftwal.Store_wal_ok.
  - destruct (raftwal.wal_append (id n) (gid n) (wal n) sn h es old) as (s'' & Hst' & Hes'); [done..|].
    rewrite Hst in Hst'. by apply Ok_inj in Hst' as <-.
  - by rewrite Hm1.
  - intros d. rewrite Hm2. destruct (IsEmptyHardState h); [apply Hh|]. intros [= <-]. by eexists.
  - done.
Qed.

Lemma ready_step lead call P g n old rd os :
  self_ok n → ready_ok (id n) rd → (length (messages n) + length (RMessages rd) ≤ 1000)%nat →
  wal_at n old → log_ok (old ++ REntries rd) → serves sch P g (lists n) → Forall2 (logged sch conf local) (CommittedEntries rd) os →
  ∃ n', handle_ready sch now conf local lead call rd n = Ok n' ∧ self_ok n' ∧ id n' = id n ∧ gid n' = gid n ∧
    length (messages n') = (length (messages n) + length (RMessages rd))%nat ∧
    wal_at n' (old ++ REntries rd) ∧ serves sch P (apply (log_ops os) g) (lists n').
Proof.
  intros Hself [Hsn Hms] Hq Hwal Hlog Hs Hos. pose proof Hself as (Hg & Hi & _ & Ha). destruct (log_after old _ Hlog) as (Hc & Hasc & Hix & Hab).
  unfold handle_ready. rewrite Hsn. cbn [negb].
  destruct (raftwal.wal_append (id n) (gid n) (wal n) (RSnapshot rd) (RHardState rd) (REntries rd) old) as (w & Hst & _);
    [done|done|apply Hwal|done|done|apply Hwal|done|]. rewrite Hst. cbn [x_Check mbind res_bind].
  destruct (saveToStorage_spec (RSnapshot rd) (RHardState rd) (REntries rd) (store n)) as (st & -> & Hl); [done|by rewrite (wa_last _ _ Hwal)|].
  cbn [mbind res_bind]. set (n1 := set_store st (set_wal w n)). rewrite context_pb.context_Marshal by apply Hself.
  destruct (send_all_spec (context_pb.enc (mkContext (id n1) (gid n1) (myAddr n1))) (RMessages rd) n1) as (q & -> & Hql); [exact Hms|exact Hq|].
  cbn [mbind res_bind]. destruct (process_log sch now Hnow conf Hconf local P g (set_messages q n1) (CommittedEntries rd) os) as (n' & -> & Hb & Hs'); [exact Hs|done|].
  destruct Hb as (Hbi & Hbg & Hbw & Hbs & Hbm & Hba). exists n'. split; [done|].
  split; [unfold self_ok; by rewrite Hbi, Hbg, Hba|]. split; [by rewrite Hbi|]. split; [by rewrite Hbg|].
  split; [by rewrite Hbm|]. split; [|done].
  eapply (wal_step n old (RSnapshot rd) (RHardState rd) (REntries rd) w); [done..| | | |]; [by rewrite Hbi|by rewrite Hbg|by rewrite Hbw|].
  rewrite Hbs, length_app. cbn [store set_messages set_store n1]. rewrite Hl, (wa_last _ _ Hwal). lia.
Qed.

Lemma log_ok_app es es' : log_ok (es ++ es') → log_ok es.
Proof using.
  intros (Hc & Ht & Hix). apply contiguous_app in Hc as [Hc _]. apply StronglySorted_app in Ht as (_ & Ht & _).
  by apply Forall_app in Hix as [Hix _].
Qed.

Lemma log_ops_app os os' : log_ops (os ++ os') = log_ops os ++ log_ops os'.
Proof using. apply bind_app. Qed.

Lemma run_log lead call P evs : ∀ g n old os,
  self_ok n → Forall (λ ev, ready_ok (id n) ev.2) evs → fits (length (messages n)) evs →
  wal_at n old → log_ok (old ++ appended evs) → serves sch P g (lists n) → Forall2 (logged sch conf local) (committed evs) os →
  ∃ n', run sch now conf local lead call evs n = Ok n' ∧ self_ok n' ∧ id n' = id n ∧ gid n' = gid n ∧
    wal_at n' (old ++ appended evs) ∧ serves sch P (apply (log_ops os) g) (lists n').
Proof.
  induction evs as [|[taken rd] evs IH]; intros g n old os Hself Hok Hfit Hwal Hlog Hs Hos.
  { exists n. apply Forall2_nil_inv_l in Hos as ->. change (appended []) with ([] : list Entry). by rewrite app_nil_r. }
  change (appended ((taken, rd) :: evs)) with (REntries rd ++ appended evs) in *.
  change (committed ((taken, rd) :: evs)) with (CommittedEntries rd ++ committed evs) in Hos.
  apply Forall2_app_inv_l in Hos as (os1 & os2 & Hos1 & Hos2 & ->). apply Forall_cons in Hok as [Hrd Hok].
  cbn [fits] in Hfit. destruct Hfit as [Hq Hfit]. rewrite app_assoc in Hlog |- *. cbn [run].
  destruct (ready_step lead call P g (set_messages (drop taken (messages n)) n) old rd os1) as (n1 & -> & Hself1 & Hi & Hg & Hm & Hwal1 & Hs1);
    [done|done| |by destruct Hwal|by eapply log_ok_app|done|done|].
  { cbn [messages set_messages]. by rewrite length_drop. }
  cbn [mbind res_bind]. cbn [messages set_messages id gid] in Hm, Hi, Hg. rewrite length_drop in Hm.
  destruct (IH (apply (log_ops os1) g) n1 (old ++ REntries rd) os2) as (n' & -> & Hself' & Hi' & Hg' & Hwal' & Hs'); [done|by rewrite Hi|by rewrite Hm|done..|].
  exists n'. split_and!; [done|done|by rewrite Hi'|by rewrite Hg'|done|]. by rewrite log_ops_app, apply_app.
Qed.

Lemma initFromWal_spec n1 n2 old :
  wal_at n1 old → log_ok old → id n2 = id n1 → gid n2 = gid n1 → wal n2 = wal n1 → last (store n2) = 0 →
  ∃ b st, initFromWal n2 = Ok (b, old, set_store st n2) ∧ (old ≠ [] → b = true) ∧ wal_at (set_store st n2) old.
Proof.
  intros [Hok Hes Hsp Hh Hl] (Hc & _ & _) Hid Hgid Hw Hl2. unfold initFromWal, raftwal.Snapshot_, raftwal.HardState_.
  rewrite Hid, Hgid, Hw, !kv_get_view, Hsp. cbn [default wrapf mbind res_bind]. destruct Hsnap as (sn & -> & Hsn).
  cbn [wrapf mbind res_bind]. rewrite Hsn. cbn [negb mbind res_bind].
  set (d := default [] _). assert (∃ h, hard_Unmarshal d = Ok h) as [h ->].
  { unfold d. destruct (view (wal n1) !! raftwal.hardStateKey (id n1) (gid n1)) as [d0|] eqn:Hd; [|done].
    destruct (Hh d0 eq_refl) as [h ->]. exists h. apply hard_Unmarshal_ok. }
  cbn [wrapf mbind res_bind]. rewrite Hes.
  assert (∃ b st, (if negb (IsEmptyHardState h) then st ← SetHardState h (store n2); Ok (true, st) else Ok (false, store n2) : res (bool * Storage)) = Ok (b, st) ∧ last st = 0)
    as (b & st & -> & Hst).
  { destruct (IsEmptyHardState h); cbn [negb]; [by eexists _, _|]. destruct (HSetHardState h (store n2)) as (st & -> & Hst). exists true, st. split; [done|lia]. }
  cbn [mbind res_bind]. destruct (HAppend old st) as (st' & -> & Hst'); [by rewrite Hst|]. cbn [mbind res_bind].
  eexists _, st'. split; [done|]. split; [by destruct old|]. split; cbn [id gid wal store set_store]; rewrite ?Hid, ?Hgid, ?Hw; try done. lia.
Qed.

Lemma wal_at_empty n : view (wal n) = ∅ → last (store n) = 0 → wal_at n [].
Proof.
  intros He Hl. assert (raftwal.wal_ok (id n) (gid n) (view (wal n))) as Hok by (rewrite He; intros k0 v0 Hk0; by rewrite lookup_empty in Hk0).
  split; [done| |by rewrite He|by rewrite He|done].
  destruct (raftwal.Entries_spec (id n) (gid n) (wal n) (0, 0) Hok) as (es & Hes & _ & Hel); [by_decide|]. rewrite He in Hel.
  destruct es as [|e es]; [done|]. destruct (proj1 (Hel e)) as [Hk _]; [left|]. by rewrite lookup_empty in Hk.
Qed.

Lemma log_ops_prefix k c (os os2 : list (option Mutations)) : (k ≤ c)%nat → log_ops (take k os) `prefix_of` log_ops (take c (os ++ os2)).
Proof using.
  intros Hkc. assert (take k os `prefix_of` take c (os ++ os2)) as [l ->].
  { destruct (decide (k ≤ length os)%nat).
    - rewrite <-(take_app_le os os2 k) by lia. exists (drop k (take c (os ++ os2))). by rewrite <-(take_drop k (take c (os ++ os2))) at 1; rewrite take_take, Nat.min_l by lia.
    - rewrite take_ge by lia. rewrite take_app_ge by lia. by eexists. }
  rewrite log_ops_app. by eexists.
Qed.

Lemma take_min_length {A} j (l : list A) : take (j `min` length l) l = take j l.
Proof using. destruct (decide (j ≤ length l)%nat); [by rewrite Nat.min_l by lia|]. rewrite Nat.min_r, !take_ge by lia. done. Qed.

End recovery.

(** ** Delivery of messages *)
Section delivery.
Context {Entry Snapshot HardState Message Storage : Type} `{RaftLib Entry Snapshot HardState Message Storage}.
Context {W St : Type}.
Notation node := (node (Storage := Storage) (W := W) (St := St)).
Implicit Types (n r : node) (m : Message).

(** The library's messages: the codec is faithful, and the context is a field of
    its own. *)
Context (msg_roundtrip : ∀ m d, msg_Marshal m = Ok d → msg_Unmarshal d = Ok m).
Context (Context_set : ∀ c m, Context_ (set_Context c m) = c) (To_set : ∀ c m, To (set_Context c m) = To m)
  (From_set : ∀ c m, From (set_Context c m) = From m).

Definition frame (d : list byte) : list byte := le_put 4 (Z.of_nat (length d)) ++ d.

Lemma slice_mid {A} (a b c : list A) (i j : Z) :
  i = Z.of_nat (length a) → j = i + Z.of_nat (length b) → slice (a ++ b ++ c) i j = Ok b.
Proof using.
  intros -> ->. rewrite slice_ok by (rewrite ?length_app; lia). f_equal. rewrite Nat2Z.id, drop_app_length.
  by rewrite take_app_length' by lia.
Qed.

Lemma add_lookup bt sm t :
  default [] (add_to_batch bt sm !! t) = default [] (bt !! t) ++ (if decide (sm.1 = t) then frame sm.2 else []) ∧
  (is_Some (add_to_batch bt sm !! t) ↔ sm.1 = t ∨ is_Some (bt !! t)).
Proof using.
  unfold add_to_batch, frame. case_decide as Ht.
  - rewrite Ht, lookup_insert_eq. split; [done|]. split; [by left|by eexists].
  - rewrite lookup_insert_ne by done. rewrite app_nil_r. split; [done|]. tauto.
Qed.

Lemma batch_lookup q bt t :
  default [] (foldl add_to_batch bt q !! t) = default [] (bt !! t) ++ mjoin (frame <$> (filter (λ sm, sm.1 = t) q).*2) ∧
  (is_Some (foldl add_to_batch bt q !! t) ↔ is_Some (bt !! t) ∨ t ∈ q.*1).
Proof using.
  revert bt. induction q as [|sm q IH]; intros bt; cbn [foldl].
  - split; [by rewrite app_nil_r|]. split; [by left|]. intros [?|?%elem_of_nil]; done.
  - destruct (IH (add_to_batch bt sm)) as [-> Hsome]. destruct (add_lookup bt sm t) as [-> Hs]. rewrite Hsome, Hs, fmap_cons, elem_of_cons.
    split; [|split; [intros [[?|?]|?]; eauto|intros [?|[?|?]]; eauto]]. rewrite <-app_assoc. f_equal. case_decide.
    + by rewrite filter_cons_True.
    + by rewrite filter_cons_False.
Qed.

(** What receiving one message does to the node of its group. *)
Definition received (c : RaftContext) m (nodes : gmap Z node) : gmap Z node :=
  match nodes !! CGroup c with
  | None => nodes
  | Some r => <[CGroup c := Connect (From m) (CAddr c) r]> nodes
  end.

Lemma frame_length d : (4 ≤ length (frame d))%nat.
Proof using. unfold frame. rewrite length_app, length_le_put. lia. Qed.

Lemma loop_frames answer c spare : context_pb.wf c → (∀ m, answer m = None) → ∀ ms ds pre fuel nodes stepped,
  Forall2 (λ m d, msg_Marshal m = Ok d ∧ Context_ m = context_pb.enc c ∧ Z.of_nat (length d) < 2 ^ 32) ms ds →
  is_Some (nodes !! CGroup c) → (length ds < fuel)%nat →
  RaftMessage_loop fuel answer (pre ++ mjoin (frame <$> ds)) spare (Z.of_nat (length pre)) nodes stepped =
    Ok (foldl (λ ns m, received c m ns) nodes ms, stepped ++ (pair (CGroup c) <$> ms), None).
Proof.
  intros Hwf Hans ms ds pre fuel nodes stepped Hms. revert pre fuel nodes stepped.
  induction Hms as [|m d ms ds (Hm & Hc & Hd) _ IH]; intros pre fuel nodes stepped [r Hr] Hfuel; (destruct fuel as [|fuel]; [lia|]); cbn [RaftMessage_loop].
  - change (mjoin (frame <$> [])) with ([] : list byte). cbn [fmap list_fmap]. rewrite !app_nil_r, Z.ltb_irrefl. done.
  - change (mjoin (frame <$> d :: ds)) with (frame d ++ mjoin (frame <$> ds)). set (rest := mjoin (frame <$> ds)) in *.
    pose proof (frame_length d). rewrite (proj2 (Z.ltb_lt _ _)) by (rewrite !length_app; lia).
    assert ((pre ++ frame d ++ rest) ++ spare = pre ++ le_put 4 (Z.of_nat (length d)) ++ d ++ rest ++ spare) as Hdata
      by (unfold frame; by rewrite <-!app_assoc).
    rewrite Hdata, slice_mid by (rewrite ?length_le_put; lia). cbn [mbind res_bind]. rewrite le_get_put. change (256 ^ Z.of_nat 4) with (2 ^ 32).
    rewrite Z.mod_small by lia.
    rewrite (proj2 (Z.ltb_ge _ _)) by (unfold frame; rewrite !length_app, length_le_put; lia).
    rewrite (app_assoc pre (le_put 4 (Z.of_nat (length d)))), slice_mid by (rewrite ?length_app, ?length_le_put; lia). cbn [mbind res_bind].
    rewrite (msg_roundtrip _ _ Hm). cbn [x_Check mbind res_bind]. unfold applyMessage. rewrite Hc, context_pb.context_Unmarshal by done.
    cbn [x_Check mbind res_bind]. rewrite Hr, Hans. cbn [mbind res_bind].
    specialize (IH (pre ++ frame d) fuel (received c m nodes) (stepped ++ [(CGroup c, m)])).
    assert (received c m nodes = <[CGroup c := Connect (From m) (CAddr c) r]> nodes) as Hrec by (unfold received; by rewrite Hr).
    rewrite <-Hrec. rewrite <-app_assoc in IH. replace (Z.of_nat (length pre) + 4 + Z.of_nat (length d)) with (Z.of_nat (length (pre ++ frame d)))
      by (unfold frame; rewrite !length_app, length_le_put; lia).
    rewrite IH; [|rewrite Hrec, lookup_insert_eq; by eexists|simpl in Hfuel; lia].
    cbn [foldl fmap list_fmap]. by rewrite <-app_assoc.
Qed.

Lemma Connect_id pid addr n : id (Connect pid addr n) = id n.
Proof using. unfold Connect. destruct (pid =? id n); [done|]. by case_bool_decide. Qed.

Lemma Connect_twice pid addr n : Connect pid addr (Connect pid addr n) = Connect pid addr n.
Proof using.
  unfold Connect at 1. rewrite Connect_id. destruct (pid =? id n) eqn:Hid; [done|]. rewrite bool_decide_true; [done|].
  unfold Connect. rewrite Hid. case_bool_decide as Hp; [done|]. cbn [peers set_peers]. by rewrite lookup_insert_eq.
Qed.

Lemma received_all c i ms nodes r : Forall (λ m, From m = i) ms → nodes !! CGroup c = Some r → ms ≠ [] →
  foldl (λ ns m, received c m ns) nodes ms = <[CGroup c := Connect i (CAddr c) r]> nodes.
Proof using.
  intros Hms Hr Hne. destruct ms as [|m ms]; [done|]. apply Forall_cons in Hms as [Hm Hms]. cbn [foldl]. clear Hne.
  unfold received at 2. rewrite Hr, Hm. generalize Hms. clear Hms. induction ms as [|m' ms IH]; intros Hms; [done|].
  apply Forall_cons in Hms as [Hm' Hms]. cbn [foldl]. unfold received at 2. rewrite lookup_insert_eq, Hm', Connect_twice, insert_insert_eq.
  by apply IH.
Qed.

(** What a node queues for its peers. *)
Lemma send_all_queue ctx ms n :
  Forall (λ m, To m ≠ id n ∧ ∃ d, msg_Marshal (set_Context ctx m) = Ok d ∧ Z.of_nat (length d) < 2 ^ 32) ms →
  (length (messages n) + length ms ≤ 1000)%nat →
  ∃ q, send_all (Ok ctx) ms n = Ok (set_messages (messages n ++ q) n) ∧
    Forall2 (λ m sm, sm.1 = To m ∧ msg_Marshal (set_Context ctx m) = Ok sm.2 ∧ Z.of_nat (length sm.2) < 2 ^ 32) ms q.
Proof.
  intros Hms. revert n Hms. induction ms as [|m ms IH]; intros n Hms Hlen.
  { exists []. rewrite app_nil_r. split; [by destruct n|constructor]. }
  apply Forall_cons in Hms as [(Hto & d & Hd & Hl) Hms]. cbn [send_all x_Check mbind res_bind]. unfold send. rewrite To_set.
  rewrite (proj2 (Z.eqb_neq _ _)) by congruence. simpl assert_true. cbn [mbind res_bind]. rewrite Hd. cbn [x_Check mbind res_bind].
  simpl in Hlen. rewrite (proj2 (Nat.ltb_lt _ _)) by lia. cbn [mbind res_bind].
  destruct (IH (set_messages (messages n ++ [(To m, d)]) n)) as (q & Hq & Hall).
  - exact Hms.
  - cbn [messages set_messages]. rewrite length_app. simpl. lia.
  - exists ((To m, d) :: q). rewrite Hq. cbn [messages set_messages]. rewrite <-app_assoc. split; [done|]. by constructor.
Qed.

Lemma queue_filter (ctx : list byte) ms q t :
  Forall2 (λ m sm, sm.1 = To m ∧ msg_Marshal (set_Context ctx m) = Ok sm.2 ∧ Z.of_nat (length sm.2) < 2 ^ 32) ms q →
  Forall2 (λ m d, msg_Marshal m = Ok d ∧ Context_ m = ctx ∧ Z.of_nat (length d) < 2 ^ 32)
    (set_Context ctx <$> filter (λ m, To m = t) ms) (filter (λ sm, sm.1 = t) q).*2 ∧ q.*1 = To <$> ms.
Proof.
  induction 1 as [|m sm ms q (Hto & Hm & Hl) _ [IH Hq]]; [by split; [constructor|]|]. split; [|by rewrite !fmap_cons, Hto, Hq].
  destruct (decide (To m = t)) as [Ht|Ht].
  - rewrite !filter_cons_True by congruence. rewrite !fmap_cons. by constructor.
  - by rewrite !filter_cons_False by congruence.
Qed.

Lemma frames_length ds : (length ds ≤ length (mjoin (frame <$> ds)))%nat.
Proof using.
  induction ds as [|d ds IH]; [done|]. change (mjoin (frame <$> d :: ds)) with (frame d ++ mjoin (frame <$> ds)).
  rewrite length_app. pose proof (frame_length d). simpl. lia.
Qed.

Lemma frames_not_nil (q : list (Z * list byte)) t : t ∈ q.*1 → mjoin (frame <$> (filter (λ sm, sm.1 = t) q).*2) ≠ [].
Proof using.
  intros (sm & -> & Hsm)%list_elem_of_fmap Hnil. pose proof (frames_length (filter (λ sm', sm'.1 = sm.1) q).*2) as Hl.
  rewrite Hnil, length_fmap in Hl. assert (sm ∈ filter (λ sm', sm'.1 = sm.1) q) as Hin by (by apply list_elem_of_filter).
  destruct (filter (λ sm', sm'.1 = sm.1) q); [by apply elem_of_nil in Hin|simpl in Hl; lia].
Qed.

End delivery.

(** ** An instance *)
#[local] Existing Instances geo.ex_values geo.ex_s2 index.ex_index index.ex_farm.

(** Entries with one byte of term and one of index, messages with one of receiver
    and one of sender, and a storage that knows its last index. *)
Definition ex_entry : Type := byte * byte * list byte.
Definition ex_message : Type := byte * byte * list byte.
#[local] Instance ex_pb : RaftPb ex_entry (list byte) (list byte) := {|
  Term e := byte_to_Z e.1.1;
  Index e := byte_to_Z e.1.2;
  entry_Marshal e := Ok (e.1.1 :: e.1.2 :: e.2);
  entry_Unmarshal d := match d with t :: i :: d => Ok (t, i, d) | _ => Err "unexpected EOF" end;
  IsEmptySnap s := bool_decide (s = []);
  snap_Marshal s := Ok s;
  snap_Unmarshal s := Ok s;
  IsEmptyHardState s := bool_decide (s = []);
  hard_Marshal s := Ok s;
  hard_Unmarshal s := Ok s;
|}.
#[local, program] Instance ex_pb_spec : RaftPbSpec ex_pb := {|
  entry_enc e := e.1.1 :: e.1.2 :: e.2;
  snap_enc s := s;
  hard_enc s := s;
|}.
Next Obligation. done. Qed.
Next Obligation. by intros [[] ]. Qed.
Next Obligation. intros [[t i] d]. pose proof (byte_to_Z_range t). unfold is_u64, MaxUint64. simpl. lia. Qed.
Next Obligation. intros [[t i] d]. pose proof (byte_to_Z_range i). unfold is_u64, MaxUint64. simpl. lia. Qed.
Next Obligation. done. Qed.
Next Obligation. done. Qed.
Next Obligation. done. Qed.
Next Obligation. done. Qed.

#[local] Instance ex_raft : RaftLib ex_entry (list byte) (list byte) ex_message Z := {|
  Data e := match e.2 with [] => None | d => Some d end;
  EntryConfChange _ := false;
  EntryNormal _ := true;
  conf_Context d := d;
  To m := byte_to_Z m.1.1;
  From m := byte_to_Z m.1.2;
  Context_ m := m.2;
  set_Context c m := (m.1, c);
  msg_Marshal m := Ok (m.1.1 :: m.1.2 :: m.2);
  msg_Unmarshal d := match d with t :: f :: c => Ok (t, f, c) | _ => Err "unexpected EOF" end;
  snap_Index _ := 0;
  snap_Term _ := 0;
  LastIndex st := Ok st;
  ApplySnapshot _ st := Ok st;
  SetHardState _ st := Ok st;
  Append es st := Ok (st + Z.of_nat (length es));
|}.

Definition ex_proposal : Proposal := mkProposal 7 (Some ex_update) None.
Definition ex_first : ex_entry := (x01, x01, []).
Definition ex_second : ex_entry := (x01, x02, proposal_pb.enc ex_proposal).
(** The new leader's entry is committed, the update is not yet. *)
Definition ex_batch : Ready (Entry := ex_entry) (Snapshot := list byte) (HardState := list byte) (Message := ex_message) :=
  mkReady [] (bs "term 1") [ex_first; ex_second] [(x02, x01, [])] [ex_first].
Definition ex_replay : Ready (Entry := ex_entry) (Snapshot := list byte) (HardState := list byte) (Message := ex_message) :=
  mkReady [] [] [] [] [ex_first; ex_second].
Definition ex_node (w : memstore) : node (Storage := Z) (W := memstore) (St := memstore) :=
  newNode 0 1 (bs "localhost:12345") 0 w index.ex_world (mkGroupi ∅ ∅ 0).
Definition ex_local : gset Z := {[0; 1; 2]}.
Definition no_call : list byte → GroupKeys → list KV * option string := λ _ _, ([], None).

Lemma ex_proposal_wf : proposal_pb.wf ex_proposal.
Proof.
  split_and!; [by_decide|by_decide| |by intros x|by_decide]. intros x [= <-].
  split_and!; [by_decide|by_decide| |constructor|by_decide]. constructor; [|constructor].
  split_and!; by_decide.
Qed.

Lemma ex_logged : Forall2 (logged index.ex_sch ex_conf ex_local) [ex_first; ex_second] [None; Some ex_update].
Proof.
  constructor; [done|]. constructor; [|constructor]. split.
  - split_and!; [constructor; [apply index.ex_edge_valid|constructor]|constructor|by vm_compute].
  - exists 7. split; [apply ex_proposal_wf|]. split_and!; [done|done|]. exists (proposal_pb.enc ex_proposal).
    split; [apply proposal_pb.proposal_Marshal, ex_proposal_wf|]. by vm_compute.
Qed.

Lemma ex_log_ok : log_ok [ex_first; ex_second].
Proof. split_and!; [by vm_compute| |unfold raftwal.index_ok; repeat constructor]. repeat constructor. by vm_compute. Qed.


(** Three messages for two peers. *)
Definition ex_messages : list ex_message := [(x02, x01, []); (x03, x01, []); (x02, x01, [])].

End draft.
