(* ===== verification/Assign.v ===== *)
(** Handing out uids ([uid/assigner.go], [worker/assign.go]).

    The generator of random numbers is the list of fingerprints it leads to; the
    loop that draws them does not end when none is free, which is the list being
    used up. One server hands out all uids: the leader of the group of the
    predicate _uid_, whose lists record the uids in use. *)
From S2P Require Import Prelude Bytes Store Keys Task PostingList PostingIter Tokens Types Geo Lex Schema Group Index Mutation Process.
From stdpp Require Import options.
#[local] Open Scope Z_scope.
#[local] Set Default Proof Using "Type*".

Module assign.
Import posting index mutation process.

(** The uids proposed of late, with the time; durations are in nanoseconds. *)
Notation lockManager := (gmap Z Z).
Definition Minute : Z := 60 * 1000000000.

Definition isNew (lm : lockManager) (uid now : Z) : bool * lockManager :=
  match lm !! uid with
  | Some _ => (false, lm)
  | None => (true, <[uid := now]> lm)
  end.

(** One tick of [clean]. *)
Definition clean (lm : lockManager) (now : Z) : lockManager := filter (λ e, now - e.2 ≤ Minute) lm.

Definition uid_attr : list byte := bs "_uid_".

Record Num : Type := mkNum { NGroup : Z; NVal : Z; NUids : list Z }.

Section ops.
Context {St : Type} `{KVStore St} `{IndexLib} `{Farm}.
Implicit Types (w : world St).

(** What the leader works on. *)
Record state : Type := mkState { lists_ : world St; lmgr : lockManager; rand : list Z }.

Fixpoint allocate_loop (rnd : list Z) (mod_ minIdx now : Z) (lm : lockManager) w : res (Z * state) :=
  match rnd with
  | [] => Crash out_of_fuel
  | uidb :: rnd =>
      let uid := u64 (uidb mod mod_ + minIdx) in
      if uid =? MaxUint64 then allocate_loop rnd mod_ minIdx now lm w
      else
        let '(new, lm) := isNew lm uid now in
        if negb new then allocate_loop rnd mod_ minIdx now lm w
        else
          ' (n, w) ← read (λ l, Length (store w) l 0) (posting_key.Key uid uid_attr) w;
          if n =? 0 then Ok (uid, mkState w lm rnd) else allocate_loop rnd mod_ minIdx now lm w
  end.

Definition allocateUniqueUid (instanceIdx numInstances now : Z) (s : state) : res (Z * state) :=
  if numInstances =? 0 then Crash "integer divide by zero"
  else
    let mod_ := MaxUint64 / numInstances in
    let minIdx := u64 (instanceIdx * mod_) in
    allocate_loop (rand s) mod_ minIdx now (lmgr s) (lists_ s).

Definition assigner_edge (label : list byte) (uid : Z) : DirectedEdge := mkEdge uid uid_attr (Some (bs "_")) 0 0 label.

Fixpoint AssignNew (N : nat) (instanceIdx numInstances now : Z) (s : state) : res (list DirectedEdge * state) :=
  match N with
  | O => Ok ([], s)
  | S N =>
      ' (uid, s) ← allocateUniqueUid instanceIdx numInstances now s;
      ' (set, s) ← AssignNew N instanceIdx numInstances now s;
      Ok (assigner_edge (bs "_assigner_") uid :: set, s)
  end.

(** [umap] as Go ranges over it. *)
Definition createNumQuery (group : Z) (umap : list (list byte * Z)) : Num :=
  foldl (λ out kv, if negb (kv.2 =? 0) then mkNum (NGroup out) (NVal out) (NUids out ++ [kv.2])
                   else mkNum (NGroup out) (NVal out + 1) (NUids out)) (mkNum group 0 []) umap.

Context (propose : Mutations → world St → res (world St * option string)).

Definition assignUids (leader : bool) (num : Num) (now : Z) (s : state) : res (state * res (list Z)) :=
  if negb leader then Ok (s, Err "Assigning UIDs is only allowed on leader.")
  else
    let val := NVal num in
    if (val =? 0) && (length (NUids num) =? 0)%nat then Ok (s, Err "Nothing to be marked or assigned")
    else
      if val <? 0 then Crash "makeslice: len out of range"
      else
        ' (set, s) ← AssignNew (Z.to_nat val) 0 1 now s;
        let mutations := mkMutations 0 (set ++ (assigner_edge (bs "A") <$> NUids num)) [] in
        ' (w, err) ← propose mutations (lists_ s);
        let s := mkState w (lmgr s) (rand s) in
        match err with
        | Some e => Ok (s, Err e)
        | None => Ok (s, Ok (Entity <$> take (Z.to_nat val) (MSet mutations)))
        end.

(** The second pass over the map, which Go may range over in another order. *)
Fixpoint write_uids (order : list (list byte * Z)) (ul : list Z) (i : nat) (umap : gmap (list byte) Z) : res (gmap (list byte) Z) :=
  match order with
  | [] => Ok umap
  | (k, v) :: order =>
      if v =? 0 then uid ← index ul i; write_uids order ul (S i) (<[k := uid]> umap)
      else write_uids order ul i umap
  end.

Definition AssignUidsOverNetwork (conf : group.config) (range1 range2 : gmap (list byte) Z → list (list byte * Z)) (leader : bool)
    (umap : gmap (list byte) Z) (now : Z) (s : state) : res (state * res (gmap (list byte) Z)) :=
  gid ← group.BelongsTo Fingerprint32 conf uid_attr;
  let num := createNumQuery gid (range1 umap) in
  ' (s, r) ← assignUids leader num now s;
  match r with
  | Err e => Ok (s, Err e)
  | Crash m => Crash m
  | Ok ul =>
      assert_true (Z.of_nat (length ul) =? NVal num) "Requested: %d != Retrieved Uids: %d";;
      umap ← write_uids (range2 umap) ul 0 umap;
      Ok (s, Ok umap)
  end.
End ops.

(** ** Uids are new *)
Section spec.
Context {St : Type} `{KVStore St} `{IndexLib} `{Farm}.
Context (sch : schema.tables) (P : list byte → Prop) (HP : P uid_attr).
Implicit Types (w : world St) (g : graph).

(** A uid is in use when its list records it. *)
Definition used g (u : Z) : Prop := g u uid_attr ≠ ∅.

Lemma uid_attr_ok : attr_ok uid_attr.
Proof using. split_and!; [done|by_decide|by_decide|by_decide]. Qed.

Lemma length_used g w u :
  serves sch P g w → is_u64 u →
  size (filter (λ kv, 0 < kv.1) (den w (posting_key.Key u uid_attr))) = 0%nat ↔ ¬ used g u.
Proof.
  intros (Hw & _ & Hg) Hu. unfold used. rewrite <-(Hg u uid_attr Hu uid_attr_ok HP).
  set (m := den w (posting_key.Key u uid_attr)).
  assert (filter (λ kv : Z * (Z * list byte * list byte), 0 < kv.1) m = m) as ->.
  { apply map_filter_id. intros x v Hx. by destruct (den_uids w (posting_key.Key u uid_attr) x Hw). }
  rewrite map_size_empty_iff. destruct (decide (m = ∅)); tauto.
Qed.

(** The uids the generator leads to, for one instance. *)
Definition drawn (rnd : list Z) : list Z := (λ h, h mod MaxUint64) <$> rnd.
Definition fair (rnd : list Z) : Prop := Forall (λ u, u ≠ 0) (drawn rnd).

(** A uid that is drawn, has not been proposed of late and is not in use. *)
Definition free g (s : state (St := St)) (u : Z) : Prop := u ∈ drawn (rand s) ∧ lmgr s !! u = None ∧ ¬ used g u.

Lemma drawn_uid h : u64 (h mod MaxUint64 + 0) = h mod MaxUint64 ∧ is_u64 (h mod MaxUint64) ∧ h mod MaxUint64 ≠ MaxUint64.
Proof using.
  pose proof (Z.mod_pos_bound h MaxUint64 ltac:(done)) as Hb. rewrite Z.add_0_r. unfold u64, is_u64.
  change two64 with (MaxUint64 + 1). rewrite (Z.mod_small (h mod MaxUint64) (MaxUint64 + 1)) by lia. lia.
Qed.

Lemma allocate_loop_spec g now rnd lm w :
  serves sch P g w → (∃ u, free g (mkState w lm rnd) u) →
  ∃ u s', allocate_loop rnd MaxUint64 0 now lm w = Ok (u, s') ∧ serves sch P g (lists_ s') ∧
    free g (mkState w lm rnd) u ∧ is_Some (lmgr s' !! u) ∧ (∀ x, is_Some (lm !! x) → is_Some (lmgr s' !! x)) ∧
    (∀ x, x ∈ drawn (rand s') → x ∈ drawn rnd) ∧ (∀ x, free g (mkState w lm rnd) x → x ≠ u → free g s' x).
Proof.
  intros Hs. revert lm w Hs. induction rnd as [|h rnd IH]; intros lm w Hs (f & Hf & Hflm & Hfu); [by apply elem_of_nil in Hf|].
  simpl in Hflm. cbn [allocate_loop]. destruct (drawn_uid h) as (-> & Hu64 & Hmax). set (u := h mod MaxUint64) in *.
  rewrite (proj2 (Z.eqb_neq _ _)) by done. unfold isNew.
  assert (∀ w' lm', serves sch P g w' → lm' !! f = None → f ≠ u → (∀ x, is_Some (lm !! x) → is_Some (lm' !! x)) →
    (∀ x, lm !! x = None → ¬ used g x → lm' !! x = None) → (is_Some (lm !! u) ∨ used g u) →
    ∃ u s', allocate_loop rnd MaxUint64 0 now lm' w' = Ok (u, s') ∧ serves sch P g (lists_ s') ∧
    free g (mkState w lm (h :: rnd)) u ∧ is_Some (lmgr s' !! u) ∧ (∀ x, is_Some (lm !! x) → is_Some (lmgr s' !! x)) ∧
    (∀ x, x ∈ drawn (rand s') → x ∈ drawn (h :: rnd)) ∧ (∀ x, free g (mkState w lm (h :: rnd)) x → x ≠ u → free g s' x)) as Hgo.
  { intros w' lm' Hs' Hf' Hfn Hsub Hnone Hno. destruct (IH lm' w' Hs') as (x & s' & Heq & Hsx & Hfx & Hx & Hall & Hd & Hrest).
    { exists f. split; [|done]. simpl in Hf. apply elem_of_cons in Hf as [?|?]; [done|done]. }
    exists x, s'. split; [done|]. split; [done|].
    assert (∀ y, free g (mkState w lm (h :: rnd)) y → free g (mkState w' lm' rnd) y) as Hfree.
    { intros y (Hy & Hyl & Hyu). simpl in *. split_and!; [|by apply Hnone|done]. simpl.
      apply elem_of_cons in Hy as [->|Hy]; [|done]. destruct Hno as [[? Hno]|Hno]; [|done]. change (lm !! u = None) in Hyl. by rewrite Hyl in Hno. }
    destruct Hfx as (Hxd & Hxl & Hxu). simpl in *. split; [split; [by apply list_elem_of_further|split; [|done]]|split_and!].
    - simpl. destruct (lm !! x) eqn:Hlx; [|done]. destruct (Hsub x) as [? Hc]; [by eexists|]. by rewrite Hc in Hxl.
    - done.
    - intros y Hy. by apply Hall, Hsub.
    - intros y Hy. by apply list_elem_of_further, Hd.
    - intros y Hy Hne. by apply Hrest; [apply Hfree|]. }
  destruct (lm !! u) as [ts|] eqn:Hlu; cbn [negb].
  { apply Hgo; [done|done|intros ->; by rewrite Hflm in Hlu|done|done|by left; eexists]. }
  pose proof (read_length_spec (posting_key.Key u uid_attr) w (proj1 Hs)) as Hread. destruct Hread as (w' & Heq & Hunch).
  rewrite Heq. cbn [mbind res_bind]. assert (serves sch P g w') as Hs'.
  { destruct Hs as (Hw & Hex & Hg). destruct Hunch as (Hw' & _ & Hsame). split_and!; [done|by eapply all_exact_same|].
    intros u' a Hu' Ha HPa. destruct Hsame as [_ Hd]. rewrite Hd. by apply Hg. }
  pose proof (length_used g w u Hs Hu64) as Hlen. destruct (Z.eqb_spec (Z.of_nat (size (filter (λ kv, 0 < kv.1) (den w (posting_key.Key u uid_attr))))) 0) as [Hz|Hz].
  - assert (¬ used g u) as Hnu by (apply Hlen; lia). eexists u, _. split; [reflexivity|]. cbn [lists_ lmgr rand]. split_and!.
    + done.
    + split; [apply list_elem_of_here|done].
    + by rewrite lookup_insert_eq.
    + intros x Hx. rewrite lookup_insert_is_Some'. by right.
    + intros x Hx. by apply list_elem_of_further.
    + intros x (Hx & Hxl & Hxu) Hne. simpl in *. split_and!; [|simpl; by rewrite lookup_insert_ne|done]. simpl.
      by apply elem_of_cons in Hx as [?|?].
  - assert (used g u) as Hu by (apply dec_stable; intros Hnu; apply Hz; apply Hlen in Hnu; lia).
    apply Hgo; [done| |by intros ->| | |by right].
    + rewrite lookup_insert_ne; [done|]. by intros ->.
    + intros x Hx. rewrite lookup_insert_is_Some'. by right.
    + intros x Hx Hxu. rewrite lookup_insert_ne; [done|]. by intros ->.
Qed.

Lemma AssignNew_spec g now N s fs :
  serves sch P g (lists_ s) → NoDup fs → (N ≤ length fs)%nat → Forall (free g s) fs →
  ∃ us s', AssignNew N 0 1 now s = Ok (assigner_edge (bs "_assigner_") <$> us, s') ∧ serves sch P g (lists_ s') ∧
    length us = N ∧ NoDup us ∧ Forall (free g s) us ∧ (∀ u, u ∈ us → is_Some (lmgr s' !! u)) ∧
    (∀ u, is_Some (lmgr s !! u) → is_Some (lmgr s' !! u)) ∧ (∀ x, x ∈ drawn (rand s') → x ∈ drawn (rand s)).
Proof.
  revert s fs. induction N as [|N IH]; intros s fs Hs Hnd HN Hfs.
  { exists [], s. split; [done|]. split_and!; try done; try constructor. by intros u Hu%elem_of_nil. }
  cbn [AssignNew]. destruct s as [w lm rnd]. cbn [lists_] in Hs.
  destruct (allocate_loop_spec g now rnd lm w Hs) as (u & s1 & Heq & Hs1 & Hfree & Hlu & Hmono & Hdrawn & Hrest).
  { destruct fs as [|f fs]; [simpl in HN; lia|]. exists f. by apply Forall_cons in Hfs as [Hf _]. }
  assert (allocateUniqueUid 0 1 now (mkState w lm rnd) = Ok (u, s1)) as ->.
  { unfold allocateUniqueUid. cbn [Z.eqb rand lmgr lists_]. rewrite Z.mul_0_l, Z.div_1_r. exact Heq. }
  cbn [mbind res_bind].
  assert (∃ fs', NoDup fs' ∧ (N ≤ length fs')%nat ∧ Forall (free g s1) fs') as (fs' & Hnd' & HN' & Hfs').
  { rewrite Forall_forall in Hfs. destruct (decide (u ∈ fs)) as [[k Hk]%elem_of_Permutation|Hni].
    - exists k. rewrite Hk in Hnd, HN. apply NoDup_cons in Hnd as [Huk Hnd]. split_and!; [done|simpl in HN; lia|].
      apply Forall_forall. intros x Hx. apply Hrest; [apply Hfs; rewrite Hk; by apply list_elem_of_further|]. by intros ->.
    - exists fs. split_and!; [done|lia|]. apply Forall_forall. intros x Hx. apply Hrest; [by apply Hfs|]. by intros ->. }
  destruct (IH s1 fs' Hs1 Hnd' HN' Hfs') as (us & s' & -> & Hs' & Hlen & Hndu & Hfu & Hin & Hmono' & Hdr).
  cbn [mbind res_bind]. exists (u :: us), s'. split; [done|]. rewrite Forall_forall in Hfu.
  split_and!; [done|simpl; lia|..].
  - constructor; [|done]. intros (_ & Hno & _)%Hfu. destruct Hlu as [? Hlu]. by rewrite Hlu in Hno.
  - constructor; [done|]. apply Forall_forall. intros x (Hxd & Hxl & Hxu)%Hfu. split; [by apply Hdrawn|]. split; [|done].
    simpl. destruct (lm !! x) eqn:Hlx; [|done]. destruct (Hmono x) as [? Hc]; [by eexists|]. by rewrite Hc in Hxl.
  - intros x [->|Hx]%elem_of_cons; [by apply Hmono'|by apply Hin].
  - intros x Hx. by apply Hmono', Hmono.
  - intros x Hx. by apply Hdrawn, Hdr.
Qed.

(** Marking a uid. *)
Lemma mark_one g lbl u x a :
  let g' := apply_one g (assigner_edge lbl u, Set_) in
  (used g x ∨ x = u → used g' x) ∧ (a ≠ uid_attr → g' x a = g x a).
Proof using.
  simpl. unfold used, apply_one. simpl. split.
  - intros Hx. destruct (decide (x = u ∧ uid_attr = uid_attr)) as [[-> _]|Hne].
    + unfold spec_update. simpl. case_bool_decide as Hsame; simpl; [intros He; by rewrite He in Hsame|apply insert_non_empty].
    + destruct Hx as [Hx| ->]; [done|]. by destruct Hne.
  - intros Ha. rewrite decide_False; [done|]. by intros [_ ->].
Qed.

Lemma mark_all g es x a :
  Forall (λ e, ∃ lbl u, e = assigner_edge lbl u) es →
  let g' := apply (tagged Set_ es) g in
  (used g x ∨ x ∈ Entity <$> es → used g' x) ∧ (a ≠ uid_attr → g' x a = g x a).
Proof using.
  intros Hes. simpl. revert g. induction Hes as [|e es (lbl & u & ->) _ IH]; intros g.
  { split; [|done]. intros [?|Hx]; [done|by apply elem_of_nil in Hx]. }
  destruct (mark_one g lbl u x a) as [Hm1 Hm2]. destruct (IH (apply_one g (assigner_edge lbl u, Set_))) as [Hm3 Hm4].
  split; [|intros Ha; rewrite <-Hm2 by done; by apply Hm4].
  intros Hx. apply Hm3. rewrite fmap_cons, elem_of_cons in Hx. destruct Hx as [Hx|[Hx|Hx]]; [left; apply Hm1; by left|left; apply Hm1; by right|by right].
Qed.

Lemma mark_valid lbl u :
  lbl ∈ [bs "_assigner_"; bs "A"] → schema.IsIndexed sch uid_attr = false → is_u64 u → u ≠ 0 → edge_valid sch (assigner_edge lbl u).
Proof using.
  intros Hlbl Hix Hu Hu0. unfold edge_valid. cbn [assigner_edge Attr Entity EValue ValueType]. rewrite Hix. split; [apply uid_attr_ok|].
  split; [done|]. split; [done|]. split; [|done]. unfold edge_ok. cbn [assigner_edge ValueId ValueType ELabel]. split_and!; [by_decide..| |].
  - change (value_bytes (assigner_edge lbl u)) with (bs "_"). by_decide.
  - apply elem_of_cons in Hlbl as [->|[->|Hc%elem_of_nil]%elem_of_cons]; [by_decide|by_decide|done].
Qed.

(** The leader marks and hands out uids. *)
Lemma assignUids_spec tnow conf local g num now s fs :
  tnow ≠ 0 → u32 (group.n conf) ≠ 0 → group_of conf uid_attr ∈ local → schema.IsIndexed sch uid_attr = false →
  serves sch P g (lists_ s) → fair (rand s) →
  NoDup fs → NVal num = Z.of_nat (length fs) → Forall (free g s) fs →
  Forall (λ u, is_u64 u ∧ u ≠ 0) (NUids num) → NVal num ≠ 0 ∨ NUids num ≠ [] →
  ∃ us s' g', assignUids (mutate sch tnow conf local) true num now s = Ok (s', Ok us) ∧ serves sch P g' (lists_ s') ∧
    Z.of_nat (length us) = NVal num ∧ NoDup us ∧ Forall (free g s) us ∧
    (∀ u, used g u ∨ u ∈ us ++ NUids num → used g' u) ∧ (∀ u a, a ≠ uid_attr → g' u a = g u a) ∧
    (∀ u, u ∈ us ∨ is_Some (lmgr s !! u) → is_Some (lmgr s' !! u)) ∧ fair (rand s').
Proof.
  intros Ht Hconf Hl Hix Hs Hfair Hnd Hval Hfs Hmark Hsome. unfold assignUids. cbn [negb].
  replace ((NVal num =? 0) && (length (NUids num) =? 0)%nat) with false.
  2:{ symmetry. apply andb_false_iff. destruct Hsome as [?|Hsome]; [left; by apply Z.eqb_neq|right].
      apply Nat.eqb_neq. by destruct (NUids num). }
  rewrite (proj2 (Z.ltb_ge _ _)) by lia. rewrite Hval, Nat2Z.id.
  destruct (AssignNew_spec g now (length fs) s fs) as (us & s1 & -> & Hs1 & Hlen & Hndu & Hfu & Hin & Hmono & Hdr); [done|done|lia|done|].
  cbn [mbind res_bind]. set (es := (assigner_edge (bs "_assigner_") <$> us) ++ (assigner_edge (bs "A") <$> NUids num)).
  assert (Entity <$> es = us ++ NUids num) as Hent.
  { unfold es. rewrite fmap_app, <-!list_fmap_compose. f_equal; apply list_fmap_id. }
  assert (Forall (λ e, ∃ lbl u, e = assigner_edge lbl u) es) as Hes.
  { apply Forall_app; split; apply Forall_fmap, Forall_forall; intros u _; simpl; eauto. }
  assert (Forall (edge_valid sch) es) as Hv.
  { apply Forall_app; split; apply Forall_fmap, Forall_forall; intros u Hu; apply mark_valid; try done; [by_decide| | |by_decide| |].
    - apply (proj1 (Forall_forall _ _) Hfu) in Hu as (Hu & _). unfold drawn in Hu. apply list_elem_of_fmap in Hu as (h & -> & _).
      by destruct (drawn_uid h) as (_ & ? & _).
    - apply (proj1 (Forall_forall _ _) Hfu) in Hu as (Hu & _). by apply (proj1 (Forall_forall _ _) Hfair).
    - by apply (proj1 (Forall_forall _ _) Hmark) in Hu as [? _].
    - by apply (proj1 (Forall_forall _ _) Hmark) in Hu as [_ ?]. }
  assert (all_served conf local (ops_of (mkMutations 0 es [])) = true) as Hall.
  { unfold all_served, ops_of. simpl. rewrite app_nil_r. unfold tagged. apply forallb_forall. intros m Hm%list_elem_of_In.
    apply list_elem_of_fmap in Hm as (e & -> & He). apply (proj1 (Forall_forall _ _) Hes) in He as (? & ? & ->).
    by apply bool_decide_eq_true. }
  destruct (mutate_spec sch tnow Ht conf Hconf local P g (lists_ s1) (mkMutations 0 es [])) as (w' & -> & Hw');
    [done|done|by constructor|].
  cbn [mbind res_bind]. unfold outcome. rewrite Hall. eexists us, _, _. split.
  { cbn [MSet]. do 3 f_equal. unfold es. rewrite take_app_length' by by rewrite length_fmap.
    rewrite <-list_fmap_compose. apply list_fmap_id. }
  split; [exact Hw'|]. rewrite served_all by done. unfold ops_of. simpl. rewrite app_nil_r.
  split_and!; [by rewrite Hlen|done|done| | | |].
  - intros u Hu. apply (mark_all g es u []); [done|]. by rewrite Hent.
  - intros u a. by apply (mark_all g es u a).
  - intros u [Hu|Hu]; [by apply Hin|by apply Hmono].
  - apply Forall_forall. intros x Hx%Hdr. by apply (proj1 (Forall_forall _ _) Hfair).
Qed.

(** ** The names a request introduces *)
Definition asks (umap : list (list byte * Z)) : list (list byte) := (filter (λ kv, kv.2 = 0) umap).*1.

Lemma createNumQuery_spec gid kvs :
  createNumQuery gid kvs = mkNum gid (Z.of_nat (length (asks kvs))) (filter (λ u, u ≠ 0) kvs.*2).
Proof using.
  unfold createNumQuery, asks.
  assert (∀ n us, foldl (λ out kv, if negb (kv.2 =? 0) then mkNum (NGroup out) (NVal out) (NUids out ++ [kv.2])
     else mkNum (NGroup out) (NVal out + 1) (NUids out)) (mkNum gid n us) kvs =
     mkNum gid (n + Z.of_nat (length (filter (λ kv, kv.2 = 0) kvs).*1)) (us ++ filter (λ u, u ≠ 0) kvs.*2)) as Hgen; [|apply (Hgen 0 [])].
  induction kvs as [|[k v] kvs IH]; intros n us; [simpl; rewrite Z.add_0_r, app_nil_r; done|].
  cbn [foldl snd]. rewrite fmap_cons, !filter_cons. cbn [snd]. destruct (Z.eqb_spec v 0) as [->|Hv]; cbn [negb NGroup NVal NUids]; rewrite IH.
  - rewrite decide_True by done. rewrite decide_False by tauto. rewrite fmap_cons. cbn [length]. f_equal. lia.
  - rewrite decide_False by done. rewrite decide_True by done. by rewrite <-app_assoc.
Qed.

(** The uids go to the names in the order they are met. *)
Lemma write_uids_spec kvs ul i umap :
  NoDup kvs.*1 → (length (asks kvs) + i ≤ length ul)%nat →
  ∃ umap', write_uids kvs ul i umap = Ok umap' ∧
    (∀ j k, asks kvs !! j = Some k → umap' !! k = ul !! (i + j)%nat) ∧ (∀ k, k ∉ asks kvs → umap' !! k = umap !! k).
Proof using.
  revert i umap. induction kvs as [|[k v] kvs IH]; intros i umap Hnd Hlen.
  { exists umap. split; [done|]. split; [by intros j k Hj|done]. }
  apply NoDup_cons in Hnd as [Hk Hnd]. revert Hlen. cbn [write_uids]. unfold asks. rewrite filter_cons. cbn [snd]. intros Hlen.
  assert (∀ k', k' ∈ asks kvs → k' ∈ kvs.*1) as Hsub.
  { intros k' ([? ?] & -> & [_ Hin]%list_elem_of_filter)%list_elem_of_fmap. by apply (list_elem_of_fmap_2 fst) in Hin. }
  destruct (Z.eqb_spec v 0) as [->|Hv].
  - rewrite decide_True in * by done. rewrite fmap_cons in *. cbn [length fst] in *. unfold index.
    destruct (lookup_lt_is_Some_2 ul i) as [u Hu]; [lia|]. rewrite Hu. cbn [mbind res_bind].
    destruct (IH (S i) (<[k := u]> umap)) as (umap' & -> & Hin & Hout); [done|unfold asks; lia|].
    exists umap'. split; [done|]. split.
    + intros [|j] k' Hj; simpl in Hj; [|rewrite (Hin j) by done; f_equal; lia]. simplify_eq.
      rewrite Hout by (intros Hc; by apply Hk, Hsub). rewrite lookup_insert_eq, Nat.add_0_r. done.
    + intros k' [Hne Hni]%not_elem_of_cons. rewrite Hout by done. by rewrite lookup_insert_ne.
  - rewrite decide_False in * by done. by apply IH.
Qed.

Lemma asks_spec (m : gmap (list byte) Z) kvs k : kvs ≡ₚ map_to_list m → k ∈ asks kvs ↔ m !! k = Some 0.
Proof using.
  intros Hp. unfold asks. rewrite list_elem_of_fmap. split.
  - intros ([k' v] & -> & [Hv Hin]%list_elem_of_filter). simpl in *. subst v. rewrite Hp in Hin. by apply elem_of_map_to_list in Hin.
  - intros Hk. exists (k, 0). split; [done|]. apply list_elem_of_filter. split; [done|]. rewrite Hp. by apply elem_of_map_to_list.
Qed.

Lemma asks_length kvs kvs' : kvs ≡ₚ kvs' → length (asks kvs) = length (asks kvs').
Proof using. intros Hp. unfold asks. by rewrite Hp. Qed.

(** Every name that asks gets a uid of its own; the others keep theirs. *)
Lemma write_uids_given umap kvs ul :
  kvs ≡ₚ map_to_list umap → length ul = length (asks kvs) → NoDup ul →
  ∃ umap', write_uids kvs ul 0 umap = Ok umap' ∧ (∀ k, umap !! k ≠ Some 0 → umap' !! k = umap !! k) ∧
    (∀ k, umap !! k = Some 0 → ∃ u, umap' !! k = Some u ∧ u ∈ ul ∧ ∀ k', umap !! k' = Some 0 → umap' !! k' = Some u → k' = k).
Proof using.
  intros Hp Hlen Hndu. assert (NoDup kvs.*1) as Hnd by (rewrite Hp; apply NoDup_fst_map_to_list).
  destruct (write_uids_spec kvs ul 0 umap) as (umap' & -> & Hin & Hout); [done|lia|].
  assert (∀ k, umap !! k = Some 0 → ∃ j u, asks kvs !! j = Some k ∧ ul !! j = Some u ∧ umap' !! k = Some u) as Hgot.
  { intros k [j Hj]%(asks_spec _ _ _ Hp)%list_elem_of_lookup. destruct (lookup_lt_is_Some_2 ul j) as [u Hu].
    { rewrite Hlen. by eapply lookup_lt_Some. } exists j, u. split_and!; [done|done|]. by rewrite (Hin j k Hj). }
  exists umap'. split_and!; [done| |].
  - intros k Hk. apply Hout. by rewrite (asks_spec _ _ _ Hp).
  - intros k Hk. destruct (Hgot k Hk) as (j & u & Hj & Hu & ->). exists u. split_and!; [done|by eapply list_elem_of_lookup_2|].
    intros k' Hk' Heq. destruct (Hgot k' Hk') as (j' & u' & Hj' & Hu' & Hk''). rewrite Hk'' in Heq. apply Some_inj in Heq. subst u'.
    assert (j = j') as -> by (eapply (NoDup_lookup ul); eauto). rewrite Hj in Hj'. by simplify_eq.
Qed.

Lemma AssignUids_spec tnow conf local range1 range2 umap now g s fs :
  tnow ≠ 0 → u32 (group.n conf) ≠ 0 → group_of conf uid_attr ∈ local → schema.IsIndexed sch uid_attr = false →
  (∀ m, range1 m ≡ₚ map_to_list m) → (∀ m, range2 m ≡ₚ map_to_list m) →
  umap ≠ ∅ → (∀ k u, umap !! k = Some u → is_u64 u) →
  serves sch P g (lists_ s) → fair (rand s) →
  NoDup fs → length fs = length (asks (map_to_list umap)) → Forall (free g s) fs →
  ∃ s' umap' g', AssignUidsOverNetwork (mutate sch tnow conf local) conf range1 range2 true umap now s = Ok (s', Ok umap') ∧
    serves sch P g' (lists_ s') ∧
    (∀ k, umap !! k ≠ Some 0 → umap' !! k = umap !! k) ∧
    (∀ k, umap !! k = Some 0 → ∃ u, umap' !! k = Some u ∧ is_u64 u ∧ u ≠ 0 ∧ u ≠ MaxUint64 ∧ ¬ used g u ∧ lmgr s !! u = None ∧
       is_Some (lmgr s' !! u) ∧ ∀ k', umap !! k' = Some 0 → umap' !! k' = Some u → k' = k) ∧
    (∀ u, used g u ∨ (∃ k, umap' !! k = Some u) → used g' u) ∧ (∀ u a, a ≠ uid_attr → g' u a = g u a) ∧ fair (rand s').
Proof.
  intros Ht Hconf Hl Hix Hr1 Hr2 Hne H64 Hs Hfair Hnd Hlen Hfs. unfold AssignUidsOverNetwork.
  rewrite BelongsTo_group_of by done. cbn [mbind res_bind]. rewrite createNumQuery_spec.
  assert (∀ u, u ∈ filter (λ u, u ≠ 0) (range1 umap).*2 ↔ u ≠ 0 ∧ ∃ k, umap !! k = Some u) as Hmarked.
  { intros u. rewrite list_elem_of_filter, list_elem_of_fmap. apply and_iff_compat_l. split.
    - intros ([k v] & -> & Hin). exists k. simpl. rewrite Hr1 in Hin. by apply elem_of_map_to_list in Hin.
    - intros (k & Hk). exists (k, u). split; [done|]. rewrite Hr1. by apply elem_of_map_to_list. }
  destruct (assignUids_spec tnow conf local g (mkNum (group_of conf uid_attr) (Z.of_nat (length (asks (range1 umap)))) (filter (λ u, u ≠ 0) (range1 umap).*2))
    now s fs) as (us & s' & g' & -> & Hs' & Hlus & Hndu & Hfu & Hused & Hfr & Hlock & Hfair'); [done..| | | | |].
  - cbn [NVal]. by rewrite Hlen, (asks_length _ _ (Hr1 umap)).
  - done.
  - cbn [NUids]. apply Forall_forall. intros u [Hu (k & Hk)]%Hmarked. split; [by eapply H64|done].
  - cbn [NVal NUids]. destruct (map_choose _ Hne) as (k & v & Hk). destruct (decide (v = 0)) as [->|Hv].
    + left. apply (asks_spec _ _ _ (Hr1 umap)) in Hk. destruct (asks (range1 umap)); [by apply elem_of_nil in Hk|done].
    + right. assert (v ∈ filter (λ u, u ≠ 0) (range1 umap).*2) as Hin by (apply Hmarked; eauto). intros Hc. rewrite Hc in Hin. by apply elem_of_nil in Hin.
  - cbn [mbind res_bind NVal NUids] in *. rewrite (proj2 (Z.eqb_eq _ _)) by done. cbn [assert_true mbind res_bind].
    destruct (write_uids_given umap (range2 umap) us) as (umap' & -> & Hkeep & Hgot); [done| |done|].
    { rewrite (asks_length _ _ (Hr2 umap)), <-(asks_length _ _ (Hr1 umap)). lia. }
    cbn [mbind res_bind]. exists s', umap', g'. split_and!; [done|done|done| | |done|done].
    + intros k Hk. destruct (Hgot k Hk) as (u & -> & Hu & Honly). exists u. split; [done|].
      destruct (proj1 (Forall_forall _ _) Hfu u Hu) as (Hd & Hno & Hnu).
      pose proof (proj1 (Forall_forall _ _) Hfair u Hd). unfold drawn in Hd. apply list_elem_of_fmap in Hd as (h & -> & _).
      destruct (drawn_uid h) as (_ & H64' & Hmax). split_and!; [done|done|done|done|done|by apply Hlock; left|done].
    + intros u [Hu|[k Hk]]; [apply Hused; by left|apply Hused; right; apply elem_of_app].
      destruct (decide (umap !! k = Some 0)) as [H0k|Hn].
      * left. destruct (Hgot k H0k) as (u' & Hk' & Hu' & _). rewrite Hk' in Hk. by simplify_eq.
      * right. rewrite Hkeep in Hk by done. apply Hmarked. split; [|by exists k]. intros ->. by rewrite Hk in Hn.
Qed.

(** C8: When the leader of the group of _uid_ is asked for uids for the names of
    a request, and its generator leads to enough uids that are not in use, then
    [AssignUidsOverNetwork] succeeds: every name that came with a uid keeps it,
    every other name gets a uid, no two of them the same, that is neither 0 nor
    the uid reserved for values and was in use for nothing and proposed for
    nothing before; all of these uids are in use and locked afterwards, so that
    they are never handed out again, and nothing else of the graph changes. *)
Theorem AssignUids_unique tnow conf local range1 range2 umap now g s fs :
  tnow ≠ 0 → u32 (group.n conf) ≠ 0 → group_of conf uid_attr ∈ local → schema.IsIndexed sch uid_attr = false →
  (∀ m, range1 m ≡ₚ map_to_list m) → (∀ m, range2 m ≡ₚ map_to_list m) →
  umap ≠ ∅ → (∀ k u, umap !! k = Some u → is_u64 u) →
  serves sch P g (lists_ s) → fair (rand s) →
  NoDup fs → length fs = length (asks (map_to_list umap)) → Forall (free g s) fs →
  ∃ s' umap' g', AssignUidsOverNetwork (mutate sch tnow conf local) conf range1 range2 true umap now s = Ok (s', Ok umap') ∧
    serves sch P g' (lists_ s') ∧
    (∀ k, umap !! k ≠ Some 0 → umap' !! k = umap !! k) ∧
    (∀ k, umap !! k = Some 0 → ∃ u, umap' !! k = Some u ∧ is_u64 u ∧ u ≠ 0 ∧ u ≠ MaxUint64 ∧ ¬ used g u ∧ lmgr s !! u = None ∧
       is_Some (lmgr s' !! u) ∧ ∀ k', umap !! k' = Some 0 → umap' !! k' = Some u → k' = k) ∧
    (∀ u, used g u ∨ (∃ k, umap' !! k = Some u) → used g' u) ∧ (∀ u a, a ≠ uid_attr → g' u a = g u a) ∧ fair (rand s').
Proof. apply AssignUids_spec. Qed.
End spec.

(** ** An instance *)
#[local] Existing Instances geo.ex_values geo.ex_s2 ex_index ex_farm.

Definition ex_names : gmap (list byte) Z := {[bs "_new_:x" := 0; bs "_:y" := 0; bs "ann" := 7]}.
Definition ex_leader : state := mkState ex_world {[5 := 1]} [5; 8; 8; 9].

Lemma AssignUids_unique_witness :
  Forall (free (λ _ _, ∅) ex_leader) [8; 9] ∧
  ∃ s' umap', AssignUidsOverNetwork (mutate ex_sch 1 ex_conf {[group_of ex_conf uid_attr]}) ex_conf map_to_list map_to_list true ex_names 2 ex_leader
      = Ok (s', Ok umap') ∧ umap' !! bs "ann" = Some 7 ∧
    ∃ u, umap' !! bs "_:y" = Some u ∧ u ≠ 0 ∧ umap' !! bs "_new_:x" ≠ Some u.
Proof.
  assert (Forall (free (λ _ _, ∅) ex_leader) [8; 9]) as Hfree.
  { repeat constructor; try by_decide; by intros Hc. }
  split; [exact Hfree|]. destruct ex_world_ok as (Hw & Hex & Hd).
  destruct (AssignUids_unique ex_sch (λ _, True) I 1 ex_conf {[group_of ex_conf uid_attr]} map_to_list map_to_list ex_names 2 (λ _ _, ∅) ex_leader [8; 9])
    as (s' & umap' & g' & Heq & _ & Hkeep & Hnew & _).
  - by_decide.
  - by_decide.
  - by apply elem_of_singleton.
  - by_decide.
  - done.
  - done.
  - by_decide.
  - intros k u Hk. apply (map_Forall_lookup_1 (λ _ u, is_u64 u) ex_names) with k; [by_decide|exact Hk].
  - split_and!; [exact Hw|exact Hex|]. intros u a _ _ _. apply Hd.
  - repeat constructor; by_decide.
  - by_decide.
  - by_decide.
  - exact Hfree.
  - exists s', umap'. split; [exact Heq|]. split; [rewrite Hkeep; by_decide|].
    destruct (Hnew (bs "_:y")) as (u & Hu & _ & Hu0 & _ & _ & _ & _ & Honly); [by_decide|]. exists u. split; [exact Hu|]. split; [exact Hu0|].
    intros Hc. apply Honly in Hc; [|by_decide]. done.
Defined.
End assign.
