(* ===== verification/Request.v ===== *)
(** Requests ([cmd/dgraph/main.go], with [parseQueryWithVariables] of
    [gql/parser.go]): the HTTP handler and the gRPC method that take a query
    with a mutation, run the mutation, process the query and write the answer.

    The system is the servers of the groups with the state of the one that hands
    out uids. Decoding JSON is a parameter, and so are the durations in the
    latency report; tracing, profiles, timeouts of the request and the dump of
    subgraphs have no counterpart. *)
From S2P Require Import Prelude Bytes Strconv Store Keys Task Algo PostingList PostingIter Tokens Types Geo Lex GqlLex GqlParse Rdf Schema Group Index Mutation Process Sort Query QueryAnswer Output Assign.
From stdpp Require Import options.
#[local] Open Scope Z_scope.
#[local] Set Default Proof Using "Type*".

(** [encoding/json] on the request: [json.Unmarshal] into the struct [query],
    which fills what fits and reports what does not; into [queryAlt]; and into a
    map of strings. *)
Class JsonLib : Type := {
  json_query : list byte → list byte * gmap (list byte) (list byte) * bool;
  json_queryAlt : list byte → option (list byte);
  json_map : list byte → res (gmap (list byte) (list byte));
}.

Module dgraph.
Import process query output assign.

Section envelope.
Context `{JsonLib}.

Definition parseQueryWithVariables (str : list byte) : res (list byte * gmap (list byte) gql.varInfo) :=
  let '(q, vars, fits) := json_query str in
  let infos (mp : gmap (list byte) (list byte)) := (λ v, gql.mkVar v []) <$> mp in
  if negb fits then
    match json_queryAlt str with
    | None => Ok (str, ∅)
    | Some variables =>
        mp ← (if negb (length variables =? 0)%nat then json_map variables else Ok ∅ : res (gmap (list byte) (list byte)));
        Ok (q, infos mp)
    end
  else Ok (q, infos vars).

Definition gql_Parse (input : list byte) : res (option (nat * list gql.GraphQuery) * option gql.Mutation) :=
  ' (query, vmap) ← parseQueryWithVariables input;
  gql.Parse query vmap.
End envelope.

(** ** N-Quads *)
(** [bufio.Scanner] by lines: a line that does not fit its buffer ends the scan. *)
Definition MaxScanTokenSize : Z := 64 * 1024.

Fixpoint scan_lines (s : list byte) (line : list byte) (n : Z) : list (list byte) :=
  match s with
  | [] => match line with [] => [] | _ => [rev line] end
  | b :: s =>
      if bool_decide (b = x0a) then rev line :: scan_lines s [] 0
      else if MaxScanTokenSize <=? n + 1 then []
      else scan_lines s (b :: line) (n + 1)
  end.

Definition dropCR (line : list byte) : list byte :=
  match rev line with
  | x0d :: r => rev r
  | _ => line
  end.

Section nquads.
Context `{types.ValueLib} `{rdf.RdfLib}.

Fixpoint parse_lines (lines : list (list byte)) (nquads : list rdf.NQuad) : res (list rdf.NQuad) :=
  match lines with
  | [] => Ok nquads
  | ln :: lines =>
      let ln := TrimBlank (dropCR ln) in
      if (length ln =? 0)%nat then parse_lines lines nquads
      else
        nq ← rdf.Parse ln;
        parse_lines lines (nquads ++ [nq])
  end.

Definition convertToNQuad (mutation : list byte) : res (list rdf.NQuad) := parse_lines (scan_lines mutation [] 0) [].

(** The check ranges over copies: what it assigns to a copy is lost. *)
Fixpoint validateTypes (sch : schema.tables) (nquads : list rdf.NQuad) : res unit :=
  match nquads with
  | [] => Ok tt
  | nquad :: nquads =>
      match schema.TypeOf sch (rdf.Predicate nquad) with
      | Some (schema.TScalar schemaType) =>
          let typeID := rdf.ObjectType nquad in
          let data := default [] (rdf.ObjectValue nquad) in
          if typeID =? types.BytesID then
            v ← types.UnmarshalText (types.id schemaType) data;
            _ ← types.MarshalBinary v;
            validateTypes sch nquads
          else if negb (typeID =? types.id schemaType) then
            v ← types.UnmarshalBinary typeID data;
            _ ← types.Convert schemaType v;
            validateTypes sch nquads
          else validateTypes sch nquads
      | _ => validateTypes sch nquads
      end
  end.

(** *** Messages of clients *)
Record graph_NQuad : Type := mkGraphNQuad {
  Sub : list byte;
  Pred : list byte;
  ObjId : list byte;
  GValue : option (option ProtoValue);
  GLabel : list byte;
}.
Record graph_Mutation : Type := mkGraphMutation { GSet : list graph_NQuad; GDel : list graph_NQuad }.

Definition typeValueFromNQuad (nq : graph_NQuad) : res (option types.Value) :=
  match GValue nq with
  | None | Some None => Ok None
  | Some (Some v) =>
      match v with
      | Value_BytesVal b => Ok (Some (types.VBytes b))
      | Value_IntVal i => Ok (Some (types.VInt32 i))
      | Value_StrVal s => Ok (Some (types.VString s))
      | Value_BoolVal b => Ok (Some (types.VBool b))
      | Value_DoubleVal f => Ok (Some (types.VFloat f))
      | Value_GeoVal b => v ← types.UnmarshalBinary types.GeoID b; Ok (Some v)
      end
  end.

(** The error of [v.MarshalBinary()] is dropped. *)
Definition set_value (v : types.Value) (nq : rdf.NQuad) : res rdf.NQuad :=
  let ty := types.id (types.Type_ v) in
  match types.MarshalBinary v with
  | Ok b => Ok (rdf.mkNQuad (rdf.Subject nq) (rdf.Predicate nq) (rdf.ObjectId nq) (Some b) ty (rdf.Label nq))
  | Err _ => Ok (rdf.mkNQuad (rdf.Subject nq) (rdf.Predicate nq) (rdf.ObjectId nq) None ty (rdf.Label nq))
  | Crash m => Crash m
  end.

(** What was converted, with the error that stopped it. *)
Fixpoint mutationToNQuad (nq : list graph_NQuad) (resp : list rdf.NQuad) : res (list rdf.NQuad * option string) :=
  match nq with
  | [] => Ok (resp, None)
  | n :: nqs =>
      let nq := rdf.mkNQuad (Sub n) (Pred n) (ObjId n) None 0 (GLabel n) in
      match typeValueFromNQuad n with
      | Err e => Ok (resp, Some e)
      | Crash m => Crash m
      | Ok v =>
          nq ← (match v with Some v => set_value v nq | None => Ok nq end : res rdf.NQuad);
          mutationToNQuad nqs (resp ++ [nq])
      end
  end.
End nquads.

(** ** The system *)
Section handlers.
Context {St : Type} `{KVStore St} `{index.IndexLib} `{index.Farm} `{GoSort} `{rdf.RdfLib} `{JsonLib}.
Context (sch : schema.tables) (conf : group.config).
(** The flag nomutations; whether the node that is asked for uids leads its
    group; the groups whose servers cannot be reached; when a request is given up;
    the clock; the orders in which maps are iterated; the latency report. *)
Context (nomutations leader : bool) (Down : Z → option string) (Done : nat → option string) (now : Z).
Context (range1 range2 : gmap (list byte) Z → list (list byte * Z)) (order : gmap Z mutation.Mutations → list Z).
Context (fields : gmap (list byte) (list byte) → list (list byte * list byte)) (latency : gmap (list byte) (list byte)).

Record system : Type := mkSystem { servers : cluster (St := St); locks : gmap Z Z; draws : list Z }.
Implicit Types (s : system).

(** An operation of the system returns a value or an error; a crash ends the
    process. *)
Notation outcome_of A := (res (system * res A)).
Definition lift {A} (m : res A) s : outcome_of A :=
  match m with
  | Crash e => Crash e
  | r => Ok (s, r)
  end.
Definition and_then {A B} (m : outcome_of A) (k : A → system → outcome_of B) : outcome_of B :=
  ' (s, r) ← m;
  match r with
  | Ok a => k a s
  | Err e => Ok (s, Err e)
  | Crash e => Crash e
  end.

Definition new_prefix : list byte := bs "_new_:".

(** The name of an entity of an N-Quad, with its uid or 0 for a new one. *)
Definition add_name (id : list byte) (newUids : gmap (list byte) Z) : res (gmap (list byte) Z) :=
  if HasPrefix id new_prefix then Ok (<[id := 0]> newUids)
  else if negb (HasPrefix id rdf.uid_prefix) then uid ← x_Check (rdf.GetUid id); Ok (<[id := uid]> newUids)
  else Ok newUids.

Fixpoint collect_names (nquads : list rdf.NQuad) (newUids : gmap (list byte) Z) : res (gmap (list byte) Z) :=
  match nquads with
  | [] => Ok newUids
  | nq :: nquads =>
      newUids ← add_name (rdf.Subject nq) newUids;
      newUids ← (if (0 <? length (rdf.ObjectId nq))%nat then add_name (rdf.ObjectId nq) newUids else Ok newUids : res (gmap (list byte) Z));
      collect_names nquads newUids
  end.

(** The request for uids goes to the leader of the group of _uid_. *)
Definition AssignUids_ (newUids : gmap (list byte) Z) s : outcome_of (gmap (list byte) Z) :=
  gid ← group.BelongsTo index.Fingerprint32 conf uid_attr;
  ' (st, r) ← AssignUidsOverNetwork (mutation.mutate sch now conf {[gid]}) conf range1 range2 leader newUids now
    (mkState (servers s gid) (locks s) (draws s));
  Ok (mkSystem (set_server gid (lists_ st) (servers s)) (lmgr st) (rand st), r).

Fixpoint to_edges (newUids : gmap (list byte) Z) (nquads : list rdf.NQuad) (edges : list DirectedEdge) : res (list DirectedEdge) :=
  match nquads with
  | [] => Ok edges
  | nq :: nquads =>
      edge ← rdf.ToEdgeUsing newUids nq;
      to_edges newUids nquads (edges ++ [edge])
  end.

(** The new names without their prefix. *)
Definition result_uids (newUids : gmap (list byte) Z) : gmap (list byte) Z :=
  foldr (λ kv m, if HasPrefix kv.1 new_prefix then <[drop 6 kv.1 := kv.2]> m else m) ∅ (map_to_list newUids).

Record mutationResult : Type := mkMutationResult { edges : list DirectedEdge; newUids : gmap (list byte) Z }.

Definition convertToEdges (nquads : list rdf.NQuad) s : outcome_of mutationResult :=
  and_then (lift (collect_names nquads ∅) s) (λ names s,
  and_then (if (0 <? size names)%nat then AssignUids_ names s else Ok (s, Ok names) : outcome_of _) (λ names s,
  and_then (lift (to_edges names nquads []) s) (λ es s,
  Ok (s, Ok (mkMutationResult es (result_uids names)))))).

(** The parts of an update at the servers of their groups, which go on when the
    request is given up. *)
Fixpoint deliver (sent : list (Z * mutation.Mutations)) (cl : cluster (St := St)) : res (cluster (St := St)) :=
  match sent with
  | [] => Ok cl
  | (gid, mu) :: sent =>
      ' (w, _) ← mutation.mutate sch now conf {[gid]} mu (cl gid);
      deliver sent (set_server gid w cl)
  end.
Definition reply (cl : cluster (St := St)) (gid : Z) (mu : mutation.Mutations) : option string :=
  match mutation.mutate sch now conf {[gid]} mu (cl gid) with
  | Ok (_, err) => err
  | Err e | Crash e => Some e
  end.

Definition applyMutations (m : mutation.Mutations) s : outcome_of unit :=
  ' (sent, err) ← mutation.MutateOverNetwork conf order (reply (servers s)) Done m;
  cl ← deliver sent (servers s);
  Ok (mkSystem cl (locks s) (draws s), match err with Some e => Err e | None => Ok tt end).

Definition convertAndApply (set del : list rdf.NQuad) s : outcome_of (gmap (list byte) Z) :=
  if nomutations then Ok (s, Err "Mutations are forbidden on this server.")
  else
    and_then (convertToEdges set s) (λ mr s,
    and_then (convertToEdges del s) (λ mr' s,
    and_then (applyMutations (mutation.mkMutations 0 (edges mr) (edges mr')) s) (λ _ s,
    Ok (s, Ok (newUids mr))))).

Definition runMutations (mu : graph_Mutation) s : outcome_of (gmap (list byte) Z) :=
  ' (set, _) ← mutationToNQuad (GSet mu) [];
  ' (del, _) ← mutationToNQuad (GDel mu) [];
  convertAndApply set del s.

Definition mutationHandler (mu : gql.Mutation) s : outcome_of (gmap (list byte) Z) :=
  and_then (lift (convertToNQuad (gql.MSet mu)) s) (λ set s,
  and_then (lift (convertToNQuad (gql.MDel mu)) s) (λ del s,
  and_then (lift (validateTypes sch (set ++ del)) s) (λ _ s,
  convertAndApply set del s))).

(** *** HTTP *)
(** What the handler writes: nothing, a status, the uids of a mutation without a
    query, or the answer up to [json.Marshal]. *)
Inductive response : Type :=
| Nothing
| Status (code message : string)
| Uids (uids : option (gmap (list byte) (list byte)))
| Answer (o : gmap (list byte) jval).

Definition hex (uid : Z) : list byte := bs "0x" ++ posting_key.FormatUint16 uid.

(** An error of a step becomes the status with its text. *)
Definition or_status {A} (code : string) (m : outcome_of A) (k : A → system → res (system * response)) : res (system * response) :=
  ' (s, r) ← m;
  match r with
  | Ok a => k a s
  | Err e => Ok (s, Status code e)
  | Crash e => Crash e
  end.

Definition has_mutation (mu : option gql.Mutation) : option gql.Mutation :=
  match mu with
  | Some mu => if (0 <? length (gql.MSet mu))%nat || (0 <? length (gql.MDel mu))%nat then Some mu else None
  | None => None
  end.

(** [ProcessGraph(ctx, sg, nil, rch)]; the lists a failed query has read stay in
    memory, which changes nothing the servers hold. *)
Definition process_root (sg : SubGraph) s : outcome_of SubGraph :=
  match ProcessGraph sch conf Down sg (SrcUIDs sg) true (servers s) with
  | Ok (sg, cl) => Ok (mkSystem cl (locks s) (draws s), Ok sg)
  | Err e => Ok (s, Err e)
  | Crash e => Crash e
  end.

Definition answer_query (ns : list gql.GraphQuery) (gq : nat) s : res (system * response) :=
  or_status "ErrorInvalidRequest" (lift (ToSubGraph sch fields ns gq) s) (λ sg s,
  or_status "Error" (process_root sg s) (λ sg s,
  or_status "Error" (lift (ToJSON sch sg latency) s) (λ js s, Ok (s, Answer js)))).

Definition queryHandler (Method : string) (body : res (list byte)) s : res (system * response) :=
  if bool_decide (Method = "OPTIONS") then Ok (s, Nothing)
  else if negb (bool_decide (Method = "POST")) then Ok (s, Status "ErrorInvalidMethod" "Invalid method")
  else
    match body with
    | Ok ((_ :: _) as q) =>
        or_status "ErrorInvalidRequest" (lift (gql_Parse q) s) (λ '(gq, mu) s,
        or_status "Error" (match has_mutation mu with
                           | Some mu => and_then (mutationHandler mu s) (λ ids s, Ok (s, Ok (Some (hex <$> ids))))
                           | None => Ok (s, Ok None)
                           end : outcome_of (option (gmap (list byte) (list byte)))) (λ ids s,
        match gq with
        | None => Ok (s, Uids ids)
        | Some (gq, ns) =>
            n ← gql.get_node ns gq;
            if (gql.UID n =? 0) && bool_decide (gql.Func n = None) && (length (gql.XID n) =? 0)%nat then Ok (s, Uids ids)
            else answer_query ns gq s
        end))
    | Crash e => Crash e
    | _ => Ok (s, Status "ErrorInvalidRequest" "Invalid request encountered.")
    end.

(** *** gRPC *)
Record Request : Type := mkRequest { RQuery : list byte; RMutation : option graph_Mutation }.
(** The node and the uids; the durations are left out. *)
Record Response : Type := mkResponse { RN : option Node; AssignedUids : option (gmap (list byte) Z) }.

(** [(resp, err)], with the response of the error. *)
Definition or_return {A} (resp : Response) (m : outcome_of A) (k : A → system → res (system * (Response * option string))) :
    res (system * (Response * option string)) :=
  ' (s, r) ← m;
  match r with
  | Ok a => k a s
  | Err e => Ok (s, (resp, Some e))
  | Crash e => Crash e
  end.

Definition has_messages (mu : option graph_Mutation) : option graph_Mutation :=
  match mu with
  | Some mu => if (0 <? length (GSet mu))%nat || (0 <? length (GDel mu))%nat then Some mu else None
  | None => None
  end.

Definition to_proto (sg : SubGraph) : res Node :=
  ' (n, err) ← ToProtocolBuffer sch sg;
  match err with Some e => Err e | None => Ok n end.

Definition Query (req : Request) s : res (system * (Response * option string)) :=
  let resp := mkResponse None None in
  if (length (RQuery req) =? 0)%nat && bool_decide (RMutation req = None) then Ok (s, (resp, Some "Empty query and mutation."))
  else
    or_return resp (lift (gql_Parse (RQuery req)) s) (λ '(gq, mu) s,
    or_return resp (match has_mutation mu with
                    | Some mu => and_then (mutationHandler mu s) (λ ids s, Ok (s, Ok (Some ids)))
                    | None => Ok (s, Ok None)
                    end : outcome_of (option (gmap (list byte) Z))) (λ ids s,
    or_return resp (match has_messages (RMutation req) with
                    | Some mu => and_then (runMutations mu s) (λ ids s, Ok (s, Ok (Some ids)))
                    | None => Ok (s, Ok ids)
                    end : outcome_of (option (gmap (list byte) Z))) (λ ids s,
    let resp := mkResponse None ids in
    match gq with
    | None => Ok (s, (resp, None))
    | Some (gq, ns) =>
        n ← gql.get_node ns gq;
        if (gql.UID n =? 0) && (length (gql.XID n) =? 0)%nat then Ok (s, (resp, None))
        else
          or_return resp (lift (ToSubGraph sch fields ns gq) s) (λ sg s,
          or_return resp (process_root sg s) (λ sg s,
          or_return resp (lift (to_proto sg) s) (λ n s,
          Ok (s, (mkResponse (Some n) ids, None)))))
    end))).
End handlers.

(** ** What a mutation means *)
Section names.
Context `{types.ValueLib} `{rdf.RdfLib}.

(** The uid an N-Quad gives an entity, 0 for a new one. *)
Definition given (id : list byte) : Z :=
  if HasPrefix id new_prefix then 0 else match rdf.GetUid id with Ok u => u | _ => 0 end.

Definition ids_of (q : rdf.NQuad) : list (list byte) :=
  rdf.Subject q :: (if (length (rdf.ObjectId q) =? 0)%nat then [] else [rdf.ObjectId q]).
Definition mentioned (nquads : list rdf.NQuad) : list (list byte) := nquads ≫= ids_of.
(** The names that need a uid. *)
Definition new_ids (nquads : list rdf.NQuad) : list (list byte) := filter (λ id, given id = 0) (remove_dups (mentioned nquads)).

(** A new name, a uid other than 0, or a name that is hashed. *)
Definition id_ok (id : list byte) : Prop :=
  HasPrefix id new_prefix = false →
  ∃ u, rdf.GetUid id = Ok u ∧ is_u64 u ∧ u ≠ MaxUint64 ∧ (HasPrefix id rdf.uid_prefix = true → u ≠ 0).

(** The edge of an N-Quad when the entities have the uids [f]. *)
Definition edge_of (f : list byte → Z) (q : rdf.NQuad) : DirectedEdge :=
  if (length (rdf.ObjectId q) =? 0)%nat
  then mkEdge (f (rdf.Subject q)) (rdf.Predicate q) (rdf.ObjectValue q) (rdf.ObjectType q) 0 (rdf.Label q)
  else mkEdge (f (rdf.Subject q)) (rdf.Predicate q) None 0 (f (rdf.ObjectId q)) (rdf.Label q).

(** [f] gives every entity its uid, and every new one a uid of its own that is
    not in use in [g]. *)
Definition names_ok (g : mutation.graph) (ids : list (list byte)) (f : list byte → Z) : Prop :=
  ∀ id, id ∈ ids → (given id ≠ 0 → f id = given id) ∧
    (given id = 0 → is_u64 (f id) ∧ f id ≠ 0 ∧ f id ≠ MaxUint64 ∧ ¬ used g (f id) ∧
       ∀ id', id' ∈ ids → given id' = 0 → f id' = f id → id' = id).

Definition named (id : list byte) : bool := negb (HasPrefix id rdf.uid_prefix).

Lemma new_not_uid id : HasPrefix id new_prefix = true → named id = true.
Proof using.
  intros (t & ->)%HasPrefix_spec. unfold named. destruct (HasPrefix (new_prefix ++ t) rdf.uid_prefix) eqn:Hp; [|done].
  by vm_compute in Hp.
Qed.

Lemma add_name_spec id m : id_ok id → add_name id m = Ok (if named id then <[id := given id]> m else m).
Proof using.
  intros Hid. unfold add_name, given. destruct (HasPrefix id new_prefix) eqn:Hn; [by rewrite new_not_uid|].
  unfold named. destruct (HasPrefix id rdf.uid_prefix) eqn:Hu; [done|]. destruct (Hid Hn) as (u & -> & _). done.
Qed.

Fixpoint add_names (ids : list (list byte)) (m : gmap (list byte) Z) : res (gmap (list byte) Z) :=
  match ids with
  | [] => Ok m
  | id :: ids => m ← add_name id m; add_names ids m
  end.

Lemma collect_names_ids nquads m : collect_names nquads m = add_names (mentioned nquads) m.
Proof using.
  revert m. induction nquads as [|q nquads IH]; intros m; [done|]. cbn [collect_names].
  change (mentioned (q :: nquads)) with (ids_of q ++ mentioned nquads). unfold ids_of. cbn [app add_names].
  destruct (add_name (rdf.Subject q) m) as [m1| |]; [|done..]. cbn [mbind res_bind].
  destruct (rdf.ObjectId q); simpl; [by rewrite IH|]. destruct (add_name _ m1); simpl; [by rewrite IH|done..].
Qed.

(** The names of an update with what they are given. *)
Lemma add_names_spec ids m :
  Forall id_ok ids →
  ∃ m', add_names ids m = Ok m' ∧ ∀ id, m' !! id = if bool_decide (id ∈ ids) && named id then Some (given id) else m !! id.
Proof using.
  intros Hok. revert m. induction Hok as [|x ids Hx _ IH]; intros m.
  { exists m. split; [done|]. intros id. rewrite bool_decide_false by apply not_elem_of_nil. done. }
  cbn [add_names]. rewrite add_name_spec by done. cbn [mbind res_bind].
  destruct (IH (if named x then <[x := given x]> m else m)) as (m' & -> & Hm'). exists m'. split; [done|]. intros id. rewrite Hm'.
  destruct (decide (id ∈ ids)) as [Hin|Hin].
  - rewrite (bool_decide_true (id ∈ ids)) by done. rewrite bool_decide_true by by apply list_elem_of_further. simpl.
    destruct (named id) eqn:Hn; [done|]. destruct (named x) eqn:Hnx; [|done]. rewrite lookup_insert_ne; [done|]. intros ->. congruence.
  - rewrite (bool_decide_false (id ∈ ids)) by done. simpl. destruct (decide (id = x)) as [->|Hne].
    + rewrite bool_decide_true by apply list_elem_of_here. simpl. destruct (named x); [by rewrite lookup_insert_eq|done].
    + rewrite bool_decide_false by by intros [?|?]%elem_of_cons. simpl. destruct (named x); [|done]. by rewrite lookup_insert_ne.
Qed.

Lemma given_named id : id_ok id → given id = 0 → named id = true.
Proof using.
  intros Hid. unfold given, named. destruct (HasPrefix id new_prefix) eqn:Hn; [intros _; by apply new_not_uid|].
  destruct (HasPrefix id rdf.uid_prefix) eqn:Hu; [|done]. destruct (Hid Hn) as (u & -> & _ & _ & Hnz). intros Hz. by destruct (Hnz Hu).
Qed.

Lemma given_u64 id : id_ok id → is_u64 (given id) ∧ given id ≠ MaxUint64.
Proof using.
  intros Hid. unfold given. destruct (HasPrefix id new_prefix) eqn:Hn; [by_decide|]. by destruct (Hid Hn) as (u & -> & ? & ? & _).
Qed.

(** The names that ask for a uid. *)
Lemma names_asks nquads m :
  Forall id_ok (mentioned nquads) →
  (∀ id, m !! id = if bool_decide (id ∈ mentioned nquads) && named id then Some (given id) else None) →
  asks (map_to_list m) ≡ₚ new_ids nquads.
Proof using.
  intros Hok Hm. apply NoDup_Permutation.
  - unfold asks. apply NoDup_fmap_filter, NoDup_fst_map_to_list.
  - apply NoDup_filter, NoDup_remove_dups.
  - intros id. rewrite (asks_spec m _ id) by done. unfold new_ids. rewrite list_elem_of_filter, elem_of_remove_dups, Hm.
    rewrite Forall_forall in Hok. destruct (decide (id ∈ mentioned nquads)) as [Hin|Hin].
    + rewrite bool_decide_true by done. simpl. pose proof (given_named id (Hok id Hin)) as Hnm. destruct (named id).
      * split; [intros Heq; apply Some_inj in Heq; done|intros [-> _]; done].
      * split; [done|]. by intros [?%Hnm _].
    + rewrite bool_decide_false by done. simpl. split; [done|]. by intros [_ ?].
Qed.

Lemma ToEdgeUsing_spec (m : gmap (list byte) Z) (f : list byte → Z) q :
  Forall id_ok (ids_of q) → (∀ id, id ∈ ids_of q → f id = default (given id) (m !! id) ∧ (named id = true → is_Some (m !! id))) →
  rdf.ToEdgeUsing m q = Ok (edge_of f q).
Proof using.
  intros Hok Hf.
  assert (∀ id, id ∈ ids_of q → rdf.toUid id m = Ok (f id)) as Hto.
  { intros id Hin. destruct (Hf id Hin) as [-> Hs]. unfold rdf.toUid. destruct (m !! id) as [u|] eqn:Hm; [done|]. simpl.
    apply (proj1 (Forall_forall _ _) Hok) in Hin. unfold given. destruct (HasPrefix id new_prefix) eqn:Hn.
    - destruct Hs as [? Hs]; [by apply new_not_uid|done].
    - by destruct (Hin Hn) as (u & -> & _). }
  unfold rdf.ToEdgeUsing, edge_of. rewrite (Hto (rdf.Subject q)) by apply list_elem_of_here. cbn [mbind res_bind].
  destruct (length (rdf.ObjectId q) =? 0)%nat eqn:Hl; [done|]. rewrite (Hto (rdf.ObjectId q)); [done|]. unfold ids_of. rewrite Hl. by apply list_elem_of_further, list_elem_of_here.
Qed.

Lemma to_edges_spec m f nquads es :
  Forall id_ok (mentioned nquads) →
  (∀ id, id ∈ mentioned nquads → f id = default (given id) (m !! id) ∧ (named id = true → is_Some (m !! id))) →
  to_edges m nquads es = Ok (es ++ (edge_of f <$> nquads)).
Proof using.
  revert es. induction nquads as [|q nquads IH]; intros es Hok Hf; [by rewrite app_nil_r|]. cbn [to_edges].
  change (mentioned (q :: nquads)) with (ids_of q ++ mentioned nquads) in *. apply Forall_app in Hok as [Hq Hok].
  rewrite (ToEdgeUsing_spec m f) by (try done; intros id Hin; apply Hf; apply elem_of_app; by left). cbn [mbind res_bind].
  rewrite IH by (try done; intros id Hin; apply Hf; apply elem_of_app; by right). by rewrite <-app_assoc.
Qed.
End names.

Lemma result_uids_spec (m : gmap (list byte) Z) k : result_uids m !! k = m !! (new_prefix ++ k).
Proof.
  unfold result_uids. rewrite <-(list_to_map_to_list m) at 2. induction (map_to_list m) as [|[x v] l IH]; [done|].
  cbn [foldr list_to_map fst snd]. destruct (HasPrefix x new_prefix) eqn:Hx.
  - apply HasPrefix_spec in Hx as (t & ->). change (drop 6 (new_prefix ++ t)) with t. destruct (decide (t = k)) as [->|Hne].
    + by rewrite !lookup_insert_eq.
    + rewrite !lookup_insert_ne; [done| |done]. by intros ?%(inj (app new_prefix)).
  - rewrite lookup_insert_ne; [done|]. intros ->. assert (HasPrefix (new_prefix ++ k) new_prefix = true) as Hc by (apply HasPrefix_spec; eauto).
    by rewrite Hc in Hx.
Qed.

Section spec.
Context {St : Type} `{KVStore St} `{index.IndexLib} `{index.Farm} `{GoSort} `{rdf.RdfLib} `{JsonLib}.
Context (sch : schema.tables) (conf : group.config) (Hconf : u32 (group.n conf) ≠ 0).
Context (Hplain : schema.IsIndexed sch uid_attr = false).
Context (now : Z) (Hnow : now ≠ 0).
Context (range1 range2 : gmap (list byte) Z → list (list byte * Z)).
Context (Hr1 : ∀ m, range1 m ≡ₚ map_to_list m) (Hr2 : ∀ m, range2 m ≡ₚ map_to_list m).
Implicit Types (s : system (St := St)) (g : mutation.graph).

(** A uid that the generator leads to and nobody has. *)
Definition unclaimed g s (u : Z) : Prop := u ∈ drawn (draws s) ∧ locks s !! u = None ∧ ¬ used g u.

(** One server changes and, with it, the graph at the predicate _uid_. *)
Lemma holds_set_server g g' cl w :
  query_answer.holds sch conf g cl → mutation.serves sch (λ a, mutation.group_of conf a = mutation.group_of conf uid_attr) g' w →
  (∀ u a, a ≠ uid_attr → g' u a = g u a) →
  query_answer.holds sch conf g' (set_server (mutation.group_of conf uid_attr) w cl).
Proof using.
  intros Hcl Hw Hfr gid. unfold set_server. destruct (decide (gid = mutation.group_of conf uid_attr)) as [->|Hne]; [done|].
  destruct (Hcl gid) as (Hok & Hex & Hg). split_and!; [done|done|]. intros u a Hu Ha Hga. rewrite Hg by done. symmetry. apply Hfr.
  by intros ->.
Qed.

Lemma AssignUids_step g s names fs :
  query_answer.holds sch conf g (servers s) → names ≠ ∅ → (∀ k u, names !! k = Some u → is_u64 u) → fair (draws s) →
  NoDup fs → length fs = length (asks (map_to_list names)) → Forall (unclaimed g s) fs →
  ∃ s' names' g', AssignUids_ sch conf true now range1 range2 names s = Ok (s', Ok names') ∧
    query_answer.holds sch conf g' (servers s') ∧ fair (draws s') ∧
    (∀ k, names !! k ≠ Some 0 → names' !! k = names !! k) ∧
    (∀ k, names !! k = Some 0 → ∃ u, names' !! k = Some u ∧ is_u64 u ∧ u ≠ 0 ∧ u ≠ MaxUint64 ∧ ¬ used g u ∧
       ∀ k', names !! k' = Some 0 → names' !! k' = Some u → k' = k) ∧
    (∀ u, used g u ∨ (∃ k, names' !! k = Some u) → used g' u) ∧ (∀ u a, a ≠ uid_attr → g' u a = g u a).
Proof.
  intros Hcl Hne H64 Hfair Hnd Hlen Hfs. unfold AssignUids_. rewrite mutation.BelongsTo_group_of by done. cbn [mbind res_bind].
  set (gu := mutation.group_of conf uid_attr).
  destruct (AssignUids_spec sch (λ a, mutation.group_of conf a = gu) eq_refl now conf {[gu]} range1 range2 names now g
    (mkState (servers s gu) (locks s) (draws s)) fs) as (st & names' & g' & -> & Hs' & Hkeep & Hnew & Hused & Hfr & Hfair'); try done.
  { apply elem_of_singleton. done. }
  cbn [mbind res_bind]. eexists _, names', g'. split; [done|]. cbn [servers draws].
  split_and!; [by eapply holds_set_server|done|done| |done|done].
  intros k Hk. destruct (Hnew k Hk) as (u & ? & ? & ? & ? & ? & _ & _ & ?). by exists u.
Qed.

(** No uids are asked for when all entities are given by theirs. *)
Lemma assign_names g s names fs :
  query_answer.holds sch conf g (servers s) → (∀ k u, names !! k = Some u → is_u64 u) → fair (draws s) →
  NoDup fs → length fs = length (asks (map_to_list names)) → Forall (unclaimed g s) fs →
  ∃ s' names' g', (if (0 <? size names)%nat then AssignUids_ sch conf true now range1 range2 names s else Ok (s, Ok names)) = Ok (s', Ok names') ∧
    query_answer.holds sch conf g' (servers s') ∧ fair (draws s') ∧
    (∀ k, names !! k ≠ Some 0 → names' !! k = names !! k) ∧
    (∀ k, names !! k = Some 0 → ∃ u, names' !! k = Some u ∧ is_u64 u ∧ u ≠ 0 ∧ u ≠ MaxUint64 ∧ ¬ used g u ∧
       ∀ k', names !! k' = Some 0 → names' !! k' = Some u → k' = k) ∧
    (∀ u, used g u ∨ (∃ k, names' !! k = Some u) → used g' u) ∧ (∀ u a, a ≠ uid_attr → g' u a = g u a).
Proof.
  intros Hcl H64 Hfair Hnd Hlen Hfs. destruct (decide (names = ∅)) as [->|Hne].
  - rewrite map_size_empty. exists s, ∅, g. split_and!; try done. by intros u [?|[k Hk]].
  - rewrite (proj2 (Nat.ltb_lt _ _)); [by eapply AssignUids_step|]. apply map_size_non_empty_iff in Hne. lia.
Qed.

(** The edges of N-Quads. *)
Lemma convertToEdges_spec g nquads s fs :
  query_answer.holds sch conf g (servers s) → Forall id_ok (mentioned nquads) → fair (draws s) →
  NoDup fs → length fs = length (new_ids nquads) → Forall (unclaimed g s) fs →
  ∃ f ids s' g', convertToEdges sch conf true now range1 range2 nquads s = Ok (s', Ok (mkMutationResult (edge_of f <$> nquads) ids)) ∧
    query_answer.holds sch conf g' (servers s') ∧ fair (draws s') ∧ names_ok g (mentioned nquads) f ∧
    (∀ k, ids !! k = if bool_decide (new_prefix ++ k ∈ mentioned nquads) then Some (f (new_prefix ++ k)) else None) ∧
    (∀ u, used g u ∨ (∃ id, id ∈ mentioned nquads ∧ named id = true ∧ f id = u) → used g' u) ∧
    (∀ u a, a ≠ uid_attr → g' u a = g u a).
Proof.
  intros Hcl Hok Hfair Hnd Hlen Hfs. unfold convertToEdges. rewrite collect_names_ids.
  destruct (add_names_spec (mentioned nquads) ∅ Hok) as (names & -> & Hnames). cbn [lift and_then mbind res_bind].
  assert (∀ id, names !! id = Some 0 ↔ id ∈ mentioned nquads ∧ given id = 0) as Hzero.
  { intros id. pose proof (names_asks nquads names Hok Hnames) as Hp. rewrite <-(asks_spec names (map_to_list names) id), Hp by done.
    unfold new_ids. rewrite list_elem_of_filter, elem_of_remove_dups. tauto. }
  destruct (assign_names g s names fs) as (s' & names' & g' & Heq & Hcl' & Hfair' & Hkeep & Hnew & Hused & Hfr); try done.
  { intros k u. rewrite Hnames. case_bool_decide as Hin; [|done]. destruct (named k); [|done]. simpl. intros [= <-].
    apply given_u64. by apply (proj1 (Forall_forall _ _) Hok). }
  { by rewrite (names_asks nquads names Hok Hnames). }
  rewrite Heq. cbn [and_then mbind res_bind]. set (f id := default (given id) (names' !! id)).
  assert (∀ id, id ∈ mentioned nquads → f id = default (given id) (names' !! id) ∧ (named id = true → is_Some (names' !! id))) as Hf.
  { intros id Hin. split; [done|]. intros Hn. destruct (decide (names !! id = Some 0)) as [Hz|Hz].
    - destruct (Hnew id Hz) as (u & -> & _). by eexists.
    - rewrite Hkeep by done. rewrite Hnames, bool_decide_true, Hn by done. by eexists. }
  rewrite (to_edges_spec names' f nquads []) by done. cbn [lift and_then mbind res_bind app].
  assert (∀ id, id ∈ mentioned nquads → given id ≠ 0 → f id = given id) as Hgiven.
  { intros id Hin Hz. unfold f. rewrite Hkeep by by intros [_ ?]%Hzero. rewrite Hnames.
    by destruct (bool_decide _ && named id). }
  assert (∀ id, id ∈ mentioned nquads → named id = true → names' !! id = Some (f id)) as Hgot.
  { intros id Hin Hn. unfold f. by destruct (proj2 (Hf id Hin) Hn) as [u ->]. }
  exists f, (result_uids names'), s', g'. split_and!; [done|done|done| | | |done].
  - intros id Hin. split; [by apply Hgiven|]. intros Hz. destruct (Hnew id) as (u & Hu & H64 & Hu0 & Hmax & Hnu & Hinj); [by apply Hzero|].
    assert (f id = u) as -> by (unfold f; by rewrite Hu). split_and!; [done..|]. intros id' Hin' Hz' Hfu. apply Hinj; [by apply Hzero|].
    rewrite Hgot; [by rewrite Hfu|done|]. apply given_named; [|done]. by apply (proj1 (Forall_forall _ _) Hok).
  - intros k. rewrite result_uids_spec. assert (HasPrefix (new_prefix ++ k) new_prefix = true) as Hp by (apply HasPrefix_spec; eauto).
    case_bool_decide as Hin; [by apply Hgot; [|apply new_not_uid]|]. rewrite Hkeep; rewrite Hnames, bool_decide_false by done; done.
  - intros u [Hu|(id & Hin & Hn & <-)]; [apply Hused; by left|]. apply Hused. right. exists id. by apply Hgot.
Qed.

(** A statement whose value can be stored, and found if its predicate is indexed. *)
Definition statement_ok (q : rdf.NQuad) : Prop :=
  Forall id_ok (ids_of q) ∧ index.attr_ok (rdf.Predicate q) ∧ Z.of_nat (length (rdf.Label q)) < 2 ^ 63 ∧
  (rdf.ObjectId q = [] → 0 ≤ rdf.ObjectType q < 2 ^ 32 ∧ ∃ val, rdf.ObjectValue q = Some val ∧ val ≠ [] ∧ Z.of_nat (length val) < 2 ^ 63 ∧
     (schema.IsIndexed sch (rdf.Predicate q) = true → index.indexable sch (rdf.Predicate q) (rdf.ObjectType q) val)).

Lemma statements_ids nquads : Forall statement_ok nquads → Forall id_ok (mentioned nquads).
Proof using.
  induction 1 as [|q nquads [Hq _] _ IH]; [constructor|]. change (mentioned (q :: nquads)) with (ids_of q ++ mentioned nquads).
  by apply Forall_app.
Qed.

Lemma names_ok_uid g ids f id : names_ok g ids f → Forall id_ok ids → id ∈ ids → is_u64 (f id) ∧ f id ≠ 0 ∧ f id ≠ MaxUint64.
Proof using.
  intros Hf Hok Hin. destruct (Hf id Hin) as [Hg Hn]. destruct (decide (given id = 0)) as [Hz|Hz].
  - by destruct (Hn Hz) as (? & ? & ? & _).
  - rewrite Hg by done. apply (proj1 (Forall_forall _ _) Hok) in Hin. by destruct (given_u64 id Hin).
Qed.

Lemma edges_valid g nquads f :
  Forall statement_ok nquads → names_ok g (mentioned nquads) f → Forall (index.edge_valid sch) (edge_of f <$> nquads).
Proof using.
  intros Hok Hf. apply Forall_fmap, Forall_forall. intros q Hq. pose proof (statements_ids nquads Hok) as Hids.
  assert (∀ id, id ∈ ids_of q → is_u64 (f id) ∧ f id ≠ 0 ∧ f id ≠ MaxUint64) as Hid.
  { intros id Hin. eapply names_ok_uid; [done|done|]. apply list_elem_of_bind. by exists q. }
  destruct (proj1 (Forall_forall _ _) Hok q Hq) as (_ & Ha & Hl & Hv). destruct (Hid (rdf.Subject q)) as (Hs1 & Hs2 & _); [apply list_elem_of_here|].
  unfold index.edge_valid, edge_of. simpl. destruct (length (rdf.ObjectId q) =? 0)%nat eqn:Ho; simpl.
  - destruct Hv as (Ht & val & -> & Hne & Hlen & Hix); [by apply Nat.eqb_eq, nil_length_inv in Ho|].
    by split_and!.
  - destruct (Hid (rdf.ObjectId q)) as (Ho1 & Ho2 & Ho3).
    { unfold ids_of. rewrite Ho. apply list_elem_of_further, list_elem_of_here. }
    by split_and!.
Qed.

(** The parts of an update reach the servers of their groups. *)
Lemma deliver_spec sent (cl : cluster (St := St)) :
  NoDup sent.*1 → (∀ gid mu, (gid, mu) ∈ sent → ∃ w e, mutation.mutate sch now conf {[gid]} mu (cl gid) = Ok (w, e)) →
  ∃ cl', deliver sch conf now sent cl = Ok cl' ∧
    (∀ gid mu w e, (gid, mu) ∈ sent → mutation.mutate sch now conf {[gid]} mu (cl gid) = Ok (w, e) → cl' gid = w) ∧
    (∀ gid, (∀ mu, (gid, mu) ∉ sent) → cl' gid = cl gid).
Proof using.
  revert cl. induction sent as [|[gid mu] sent IH]; intros cl Hnd Hrun.
  { exists cl. split; [done|]. split; [|done]. by intros ? ? ? ? Hc%elem_of_nil. }
  rewrite fmap_cons in Hnd. apply NoDup_cons in Hnd as [Hni Hnd]. cbn [deliver]. destruct (Hrun gid mu) as (w & e & Hw); [apply list_elem_of_here|].
  rewrite Hw. cbn [mbind res_bind].
  assert (∀ d mu', (d, mu') ∈ sent → set_server gid w cl d = cl d) as Hother.
  { intros d mu' Hin. unfold set_server. rewrite decide_False; [done|]. intros ->. apply Hni. by apply (list_elem_of_fmap_2 fst) in Hin. }
  destruct (IH (set_server gid w cl)) as (cl' & -> & Hin & Hout); [done| |].
  { intros d mu' Hin'. rewrite (Hother d mu') by done. apply Hrun. by apply list_elem_of_further. }
  exists cl'. split; [done|]. split.
  - intros d mu' w' e' [Heq|Hin']%elem_of_cons Hm.
    + injection Heq as -> ->. rewrite Hm in Hw. apply Ok_inj in Hw. injection Hw as -> ->. rewrite Hout.
      * unfold set_server. by rewrite decide_True.
      * intros mu' Hc. apply Hni. by apply (list_elem_of_fmap_2 fst) in Hc.
    + apply (Hin d mu' w' e'); [done|]. by rewrite (Hother d mu').
  - intros d Hno. rewrite Hout.
    + unfold set_server. rewrite decide_False; [done|]. intros ->. apply (Hno mu), list_elem_of_here.
    + intros mu' Hc. apply (Hno mu'). by apply list_elem_of_further.
Qed.

Context (order : gmap Z mutation.Mutations → list Z) (Hord : ∀ mm, order mm ≡ₚ elements (dom mm)).

Lemma applyMutations_spec g m s :
  query_answer.holds sch conf g (servers s) →
  Forall (index.edge_valid sch) (mutation.MSet m) → Forall (index.edge_valid sch) (mutation.MDel m) →
  ∃ s', applyMutations sch conf (λ _, None) now order m s = Ok (s', Ok tt) ∧
    query_answer.holds sch conf (mutation.apply (mutation.ops_of m) g) (servers s').
Proof.
  intros Hcl Hset Hdel. unfold applyMutations.
  destruct (mutation.distributed_update_spec sch now Hnow conf Hconf order (reply sch conf now (servers s)) (λ _, None) m g (λ gid, {[gid]}) (servers s))
    as (sent & err & -> & Hnd & _ & Hnone & Hall); [done..| |].
  { intros gid. split; [by apply elem_of_singleton|apply Hcl]. }
  cbn [mbind res_bind]. destruct (deliver_spec sent (servers s)) as (cl' & -> & Hin & Hout); [done| |].
  { intros gid mu Hmu. destruct (Hall gid) as (w & _ & Hrun & _). destruct (Hrun mu Hmu) as [_ Hw]. by eexists _, _. }
  cbn [mbind res_bind]. rewrite Hnone.
  - eexists. split; [done|]. intros gid. cbn [servers]. destruct (Hall gid) as (w & Hw & Hrun & Hidle).
    assert (cl' gid = w) as ->; [|done]. destruct (decide (gid ∈ sent.*1)) as [([? mu] & -> & Hmu)%list_elem_of_fmap|Hno].
    + eapply Hin; [done|]. by apply Hrun.
    + rewrite Hout, Hidle; [done|..]; intros mu Hmu; apply Hno; by apply (list_elem_of_fmap_2 fst) in Hmu.
  - done.
  - intros gid mu Hmu. unfold reply. destruct (Hall gid) as (w & _ & Hrun & _). destruct (Hrun mu Hmu) as [_ ->]. done.
Qed.

(** The graph after a mutation: the entities have their uids, which are in use
    now; then come the sets and then the deletes. *)
Definition updated g (set del : list rdf.NQuad) (f : list byte → Z) (g' : mutation.graph) : Prop :=
  names_ok g (mentioned set) f ∧ ∃ g1,
    (∀ u a, a ≠ uid_attr → g1 u a = g u a) ∧
    (∀ u, used g u ∨ (∃ id, id ∈ mentioned set ∧ named id = true ∧ f id = u) → used g1 u) ∧
    g' = mutation.apply (mutation.ops_of (mutation.mkMutations 0 (edge_of f <$> set) (edge_of given <$> del))) g1.

Lemma edge_of_ext f f' nquads : (∀ id, id ∈ mentioned nquads → f id = f' id) → edge_of f <$> nquads = edge_of f' <$> nquads.
Proof using.
  intros Hf. apply list_fmap_ext. intros i q Hq%list_elem_of_lookup_2.
  assert (∀ id, id ∈ ids_of q → f id = f' id) as Hid by (intros id Hin; apply Hf, list_elem_of_bind; by exists q).
  unfold edge_of. rewrite (Hid (rdf.Subject q)) by apply list_elem_of_here. destruct (length (rdf.ObjectId q) =? 0)%nat eqn:Ho; [done|].
  rewrite (Hid (rdf.ObjectId q)); [done|]. unfold ids_of. rewrite Ho. apply list_elem_of_further, list_elem_of_here.
Qed.

Lemma convertAndApply_spec g set del s fs :
  query_answer.holds sch conf g (servers s) → fair (draws s) →
  Forall statement_ok set → Forall statement_ok del → (∀ id, id ∈ mentioned del → given id ≠ 0) →
  NoDup fs → length fs = length (new_ids set) → Forall (unclaimed g s) fs →
  ∃ f ids s' g', convertAndApply sch conf false true (λ _, None) now range1 range2 order set del s = Ok (s', Ok ids) ∧
    updated g set del f g' ∧ query_answer.holds sch conf g' (servers s') ∧
    (∀ k, ids !! k = if bool_decide (new_prefix ++ k ∈ mentioned set) then Some (f (new_prefix ++ k)) else None).
Proof.
  intros Hcl Hfair Hset Hdel Hgiven Hnd Hlen Hfs. unfold convertAndApply.
  destruct (convertToEdges_spec g set s fs) as (f & ids & s1 & g1 & -> & Hcl1 & Hfair1 & Hf & Hids & Hused1 & Hfr1); try done.
  { by apply statements_ids. }
  cbn [and_then mbind res_bind].
  destruct (convertToEdges_spec g1 del s1 []) as (f' & ids' & s2 & g2 & -> & Hcl2 & _ & Hf' & _ & Hused2 & Hfr2); try done.
  { by apply statements_ids. }
  { constructor. }
  { unfold new_ids. rewrite filter_none; [done|]. apply Forall_forall. intros id Hin. apply (proj1 (elem_of_remove_dups _ _)) in Hin. exact (Hgiven id Hin). }
  cbn [and_then mbind res_bind edges newUids].
  assert (edge_of f' <$> del = edge_of given <$> del) as Hext by (apply edge_of_ext; intros id Hin; apply Hf'; [done|by apply Hgiven]).
  destruct (applyMutations_spec g2 (mutation.mkMutations 0 (edge_of f <$> set) (edge_of f' <$> del)) s2) as (s' & -> & Hcl'); [done| | |].
  { by apply (edges_valid g). }
  { by apply (edges_valid g1). }
  cbn [and_then mbind res_bind]. eexists f, ids, s', _. split; [done|]. split; [|by split; [exact Hcl'|]].
  split; [done|]. exists g2. rewrite Hext. split_and!; [| |done].
  - intros u a Ha. by rewrite Hfr2, Hfr1.
  - intros u Hu. apply Hused2. left. by apply Hused1.
Qed.

Context (fields : gmap (list byte) (list byte) → list (list byte * list byte)) (latency : gmap (list byte) (list byte)).

Notation handler := (queryHandler sch conf false true (λ _, None) (λ _, None) now range1 range2 order fields latency).

(** What a request asks to be changed: statements that parse and have the types
    of the schema; entities that are deleted from are given by name or uid. *)
Definition asks_for (mu : option gql.Mutation) (set del : list rdf.NQuad) : Prop :=
  match has_mutation mu with
  | None => set = [] ∧ del = []
  | Some mu => convertToNQuad (gql.MSet mu) = Ok set ∧ convertToNQuad (gql.MDel mu) = Ok del ∧ validateTypes sch (set ++ del) = Ok tt
  end ∧
  Forall statement_ok set ∧ Forall statement_ok del ∧ (∀ id, id ∈ mentioned del → given id ≠ 0).

(** The first half of a request. *)
Lemma mutation_step g mu set del s fs :
  query_answer.holds sch conf g (servers s) → asks_for mu set del → fair (draws s) →
  NoDup fs → length fs = length (new_ids set) → Forall (unclaimed g s) fs →
  ∃ f ids s' g',
    match has_mutation mu with
    | Some mu => and_then (mutationHandler sch conf false true (λ _, None) now range1 range2 order mu s) (λ ids s, Ok (s, Ok (Some (hex <$> ids))))
    | None => Ok (s, Ok None)
    end = Ok (s', Ok ids) ∧
    updated g set del f g' ∧ query_answer.holds sch conf g' (servers s') ∧
    match has_mutation mu with
    | Some _ => ∃ m, ids = Some m ∧
        ∀ k, m !! k = if bool_decide (new_prefix ++ k ∈ mentioned set) then Some (hex (f (new_prefix ++ k))) else None
    | None => ids = None
    end.
Proof.
  intros Hcl (Hask & Hset & Hdel & Hgiven) Hfair Hnd Hlen Hfs. destruct (has_mutation mu) as [mu'|].
  - destruct Hask as (Hs & Hd & Hv). unfold mutationHandler. rewrite Hs. cbn [lift and_then mbind res_bind].
    rewrite Hd. cbn [lift and_then mbind res_bind]. rewrite Hv. cbn [lift and_then mbind res_bind].
    destruct (convertAndApply_spec g set del s fs) as (f & ids & s' & g' & -> & Hup & Hcl' & Hids); [done..|].
    cbn [and_then mbind res_bind]. exists f, (Some (hex <$> ids)), s', g'. split_and!; [done..|]. eexists. split; [done|].
    intros k. rewrite lookup_fmap, Hids. by destruct (bool_decide _).
  - destruct Hask as [-> ->]. exists given, None, s, g. split_and!; [done| |done|done].
    split; [by intros id Hc%elem_of_nil|]. exists g. split_and!; [done| |done].
    intros u [?|(id & Hc & _)]; [done|]. by apply elem_of_nil in Hc.
Qed.

(** The root of a query: a function, or no predicate. *)
Lemma treeCopy_root fuel ns gq sg sg' :
  treeCopy sch fields fuel ns gq sg = Ok sg' → Attr sg' = Attr sg ∧ SgFunc sg' = SgFunc sg ∧ SrcUIDs sg' = SrcUIDs sg.
Proof using.
  destruct fuel as [|fuel]; [done|]. cbn [treeCopy]. destruct (scalar_children sch fields (Params sg)) as [kids scalars].
  match goal with |- ?f _ _ = _ → _ => set (go := f) end.
  assert (∀ cs sg1, go cs sg1 = Ok sg' → Attr sg' = Attr sg1 ∧ SgFunc sg' = SgFunc sg1 ∧ SrcUIDs sg' = SrcUIDs sg1) as Hgo.
  { induction cs as [|c cs IH]; intros sg1 Hg; [apply Ok_inj in Hg; by subst|]. unfold go in Hg; cbn [mbind res_bind] in Hg; fold go in Hg.
    destruct (gql.get_node ns c) as [gchild| |]; [|done..]. cbn [mbind res_bind] in Hg. destruct (isPresent _ _); [by apply IH|].
    destruct (bool_decide _).
    - destruct (1 <? _)%nat; [done|]. destruct (negb _); [done|]. apply Ok_inj in Hg. by subst.
    - apply bind_Ok in Hg as (fs & _ & (p & _ & (dst & _ & Hg)%bind_Ok)%bind_Ok). apply IH in Hg. by destruct (bool_decide _). }
  intros Hg%Hgo. done.
Qed.

Lemma ToSubGraph_root ns gq sg :
  ToSubGraph sch fields ns gq = Ok sg →
  (Attr sg = [] ∨ SgFunc sg ≠ []) ∧ SrcUIDs sg ≠ Some [] ∧
  ∃ n, gql.get_node ns gq = Ok n ∧ (gql.UID n =? 0) && bool_decide (gql.Func n = None) && (length (gql.XID n) =? 0)%nat = false.
Proof using.
  unfold ToSubGraph. intros (n & Hn & (sg0 & Hnew & Htree)%bind_Ok)%bind_Ok. apply treeCopy_root in Htree as (-> & -> & ->).
  unfold newGraph in Hnew. apply bind_Ok in Hnew as (_ & _ & Hnew).
  destruct ((_ =? 0) && bool_decide (gql.Func n = None)) eqn:Hz; [done|].
  destruct (gql.Func n) as [fn|] eqn:Hfn; destruct (0 <? _) eqn:Hpos; apply Ok_inj in Hnew; subst sg0; cbn [Attr SgFunc SrcUIDs].
  all: split_and!; [first [by left|by right]|done|exists n; split; [done|]].
  all: rewrite Hfn; clear Hpos; destruct (length (gql.XID n)); [by rewrite andb_true_r|by rewrite andb_false_r].
Qed.


(** The uids of the new names come back under the names. *)
Lemma mutation_reports body mu set del s g fs :
  body ≠ [] → gql_Parse body = Ok (None, Some mu) → has_mutation (Some mu) = Some mu → asks_for (Some mu) set del →
  query_answer.holds sch conf g (servers s) → fair (draws s) →
  NoDup fs → length fs = length (new_ids set) → Forall (unclaimed g s) fs →
  ∃ f g' s' m, handler "POST" (Ok body) s = Ok (s', Uids (Some m)) ∧
    updated g set del f g' ∧ query_answer.holds sch conf g' (servers s') ∧
    ∀ k, m !! k = if bool_decide (new_prefix ++ k ∈ mentioned set) then Some (hex (f (new_prefix ++ k))) else None.
Proof.
  intros Hbody Hparse Hmu Hask Hcl Hfair Hnd Hlen Hfs.
  destruct (mutation_step g (Some mu) set del s fs) as (f & ids & s1 & g' & Hrun & Hup & Hcl' & Hids); [done..|].
  rewrite Hmu in Hids, Hrun. destruct Hids as (m & -> & Hm). exists f, g', s1, m. split_and!; [|done..].
  unfold queryHandler. rewrite bool_decide_false, bool_decide_true by done. cbn [negb]. destruct body as [|b body]; [done|]. cbv beta iota.
  rewrite Hparse. cbn [or_status lift mbind res_bind]. rewrite Hmu. unfold or_status at 1. rewrite Hrun. done.
Qed.
End spec.

(** ** An instance *)
#[local] Existing Instances geo.ex_values geo.ex_s2 index.ex_index index.ex_farm sort.ex_sort.
Definition ex_json : JsonLib := {| json_query _ := ([], ∅, false); json_queryAlt _ := None; json_map _ := Ok ∅ |}.
Definition ex_rdf : rdf.RdfLib := {| rdf.Fingerprint64 _ := 7; rdf.unicode_alnum _ := false |}.
#[local] Existing Instances ex_json ex_rdf.

(** A name for a new entity, and a query for the name of the entity 8. *)
Definition ex_set : rdf.NQuad := rdf.mkNQuad (bs "_new_:x") index.ex_attr [] (Some (bs "ann")) types.StringID [].
Definition ex_text : list byte := bs " <_new_:x> <name> " ++ [x22] ++ bs "ann" ++ [x22] ++ bs "^^<xs:string> . ".
Definition ex_body : list byte := bs "mutation { set {" ++ ex_text ++ bs "} } query { me(_uid_:0x8) { name } }".
Definition ex_root : gql.GraphQuery := gql.mkQuery 8 [] [] (bs "me") None (Some ∅) [1%nat] None [].
Definition ex_leaf : gql.GraphQuery := gql.mkQuery 0 [] index.ex_attr [] None (Some ∅) [] None [].
Definition ex_child : SubGraph := new_SubGraph index.ex_attr (query_answer.ex_params false).
Definition ex_sg : SubGraph :=
  mkSG [] (mkParams None (bs "me") 0 0 0 false false [] false) [] [(0, [])] [[8]] (Some [8]) [] [] [] [ex_child] None.
Definition ex_system : system := mkSystem (λ _, index.ex_world) ∅ [8].

Lemma request_parse : gql_Parse ex_body = Ok (Some (0%nat, [ex_root; ex_leaf]), Some (gql.mkMutation ex_text [])).
Proof. vm_compute. reflexivity. Qed.

Lemma request_asks : asks_for index.ex_sch (Some (gql.mkMutation ex_text [])) [ex_set] [].
Proof.
  split; [by split_and!; vm_compute|]. split_and!; [|constructor|by intros id Hc%elem_of_nil]. constructor; [|constructor].
  split_and!; [constructor; [intros Hc; by vm_compute in Hc|constructor]|apply index.ex_attr_ok|by_decide|].
  intros _. split; [by_decide|]. exists (bs "ann"). split_and!; [done|done|by_decide|]. intros _.
  eexists. split; [vm_compute; reflexivity|]. intros m. by vm_compute.
Qed.

Lemma request_good g : query_answer.good index.ex_sch g ex_sg (query_answer.set_of (Some [8])).
Proof.
  apply query_answer.good_iff. split_and!; [|constructor|constructor; [|constructor]].
  - split; try done. intros Hc. by destruct Hc.
  - split; [done|]. apply query_answer.good_iff. split_and!; [|constructor..]. split; try done.
    intros _. apply index.ex_attr_ok.
Qed.

End dgraph.
